(* ===== verification/_CoqProject ===== *)
-Q . S2P
Prelude.v
Errors.v
GoStrings.v
Regex.v
Conditional.v
Model.v
Defaults.v
Merge.v
Names.v
Params.v
Expand.v
Dfs.v
Secret.v
Validate.v
Filter.v
WhenEval.v
Duration.v
Paths.v
Kdl.v
Elements.v
JobParse.v
ElementPrint.v
JobPrint.v
Include.v
IncludeProps.v
Parser.v
DocPrint.v
Retry.v
Progress.v
Dag.v
Output.v
Node.v
Sched.v
Publish.v
Redact.v
Stream.v
Cache.v
Host.v
FileSync.v
Daemon.v
Solves.v
Graph.v
Terminal.v
Tui.v
View.v
Shell.v
Builder.v
Convert.v
Plan.v
Images.v
Trace.v
Plain.v
Displays.v
Command.v
Report.v
Cli.v
Cicada.v
