(* ===== verification/Prelude.v ===== *)
(** * Cicada: a verification library for the pipeline core

    Cicada reads a pipeline written in KDL, expands and validates it, compiles every job to
    a BuildKit (LLB) definition and runs the jobs of the resulting graph concurrently.  This
    library is a shallow embedding of that path, from the parsed KDL document to the errors
    and exports of a run, with the theorems that make it correct.

    ** From a document to a run

    [cmd/cicada] calls the stages in this order; every arrow is a Go value that one model
    returns and the next one receives.
<<
  kdl document --Parser.parse--> Pipeline (validated, expanded, topological order)
    --Filter.FilterJobs--> selected jobs --WhenEval.EvaluateConditions--> Pipeline
    --Builder.Build--> LLB definitions, exports --Convert.buildRunnerJobs--> runner jobs
    --Dag.buildDAG--> graph --Sched.step--> results --Publish.finish_run--> exports
>>
    Plan.select and Plan.compile are the two middle rows, Command.runAction is the whole
    command, and Cicada closes the path with the parser that [main] builds.  Parser.parse
    itself composes Include.resolveInclude (files and fragments),
    Merge.MergeJobs and ExpandAliases, Defaults.ApplyDefaults, Expand.Expand and
    Validate.ValidatePipeline.  Convert.pipeline_to_dag is the theorem about the composition
    after validation: a validated pipeline builds, converts and yields a runner graph with
    the same names and edges, so the second cycle check never fires.

    ** Files and sources

    Foundations
    - Prelude: results of fallible calls ([res]), monadic folds over lists for Go's loops with
      early returns, hint databases, lemmas on lists shared by all components.
    - Errors: one constructor per sentinel error of the packages, and [%w] wrapping as the
      list of sentinels that [errors.Is] finds.
    - GoStrings, Regex, Paths, Duration: the parts of [strings], [regexp], [path/filepath],
      [net/url] and [time.ParseDuration] that the program calls, on bytes.
    - Dfs: the three-state depth-first search that the validator and the runner share.

    Package conditional and package pipeline ([src/pkg])
    - Conditional: cel.go and when.go.  cel-go is the class [CEL].
    - Model: pipelinemodel/types.go and clone.go, a record per struct.
    - Defaults (pipeline.go, slicefn.go), Merge (merge.go), Names (name patterns,
      [expandedName]), Params (params.go, [substituteVars]), Expand (expand.go), Secret
      (secret.go), Validate (validate.go), Filter (filter.go), WhenEval (when.go).

    Package parser
    - Kdl (helpers.go, nodes.go; kdl-go is the class [KDL]), Elements (elements.go,
      defaults.go), JobParse (job.go), Include (include.go), Parser (parser.go, resolver.go).
    - ElementPrint, JobPrint, DocPrint: printers and the round trips of jobs and documents;
      IncludeProps: the contract of the mutually recursive include functions.

    Builder, command and runner ([src/internal/builder], [src/cmd/cicada],
    [src/internal/runner])
    - Shell (quoting, shells and timeouts of commands), Builder (builder.go; llb is the class
      [LLBOps]), Convert (convert.go).
    - Dag (buildDAG, detectCycles, filterSuccessful), Retry (retryJob, solveStep, delays),
      Output (parseOutputLines), Node (what [runNode] does between two interactions), Sched
      (the goroutines of [Run] as a transition system), Publish (export.go), Redact
      (redact.go).
    - Progress (progressmodel.go, the status types), Stream (status.go: the tee and bridge
      goroutines of a solve), Solves (the solves of exports, publishes and outputs, the pipe
      into the container runtime, cliutil.go's commands).

    Around the runner
    - Cache (internal/cache), Host (internal/secret, pkg/gitinfo, internal/synccontext: what
      the command reads of the host), FileSync (internal/filesync: the hash cache, its file
      and the walk), Daemon (internal/daemon, internal/runtime: detection, command lines, the
      life of the BuildKit container), Images (internal/imagestore), Trace
      (internal/tracing).
    - The displays: Tui and View (internal/progress/tui: the model and the screen), Plain
      (internal/progress/plain and the channel protocol it shares with quiet), Displays
      (tui.go: the channel in front of a Bubble Tea program, and the contract of all three).
    - The diagrams of internal/visualize: Graph (graph.go, d2.go, dot.go), Terminal
      (terminal.go).
    - The command: Plan (the stages of [runAction] up to the runner), Command (run.go),
      Report (printed summaries, the path of the sync cache), Cli (main.go's start-up,
      handler.go, the engine commands, visualize.go), Cicada (main's wiring).

    ** State and operations

    Go structs are records and slices are lists; a pointer or a slice whose nil-ness is
    observed is an option.  A function that updates its argument through a pointer returns
    the updated value.  [int] and [time.Duration] are [Z], with the wrap-around written out
    where the code computes with values a user controls (Retry, Duration, Model).  A map
    that is only looked up is a [gmap]; where Go iterates over a map, a theorem says that
    the order does not matter (Params.substituteVars_order, Redact.sortedSecretValues).
    Third-party libraries are classes of operations; the laws a theorem needs are a second
    class, and each theorem that needs one has a witness over a concrete instance.

    ** What the theorems show

    - The program (Cicada): whenever [runner.Run] is called, on any document and whatever
      the host answers, its schedule has one goroutine per selected job, starts a job only
      after its dependencies have succeeded, keeps to [--parallelism] and can always be
      finished by its goroutines alone; no secret the session serves is in a vertex error, a
      log chunk or a warning that a display is shown (the names of vertices are not
      redacted); and a run that ends without an error has solved every selected job or
      skipped it for its own condition or a skipped dependency, and has solved the outputs,
      exports and images of the solved ones.
    - The schedule (Sched): in every interleaving at most [parallelism] jobs run at once and
      a job runs only after its dependencies have finished; every state that is not final
      can move and every schedule is finite; a final state of a schedule without outside
      cancellation agrees with the sequential run in any topological order.
    - The parser: a returned pipeline is well formed (unique valid names, closed and acyclic
      dependencies, bounded matrices); a document can be printed from what was parsed and
      parses to the same pipeline, and one with includes can be bundled into a document
      without them; includes terminate, and leave the stack as they found it.
    - Expansion, filtering and conditions: each selects or replicates exactly the jobs of a
      declarative specification and keeps dependencies closed.
    - Validation accepts exactly the pipelines that are [well_formed], and its order is
      topological.
    - The builder is total on validated pipelines; step-controlled jobs replay the same
      operations as the monolithic build; a wrapped command reaches the shell as the same
      words.
    - Retries: the number of attempts and every delay, with the overflow at the maximal
      attempt count; redaction: no secret survives in the errors, logs and warnings of a
      redacted update.
    - Exports and publishes (Publish): they are handed on for exactly the solved jobs.
    - Status updates (Stream, Plain, Trace): in every interleaving a display is shown a prefix
      of the redacted updates, all of them without a cancellation, and a solve never hangs on
      its stream; messages are processed in order, and none is lost at the shutdown unless the
      user has left the interactive display; every span that was started is ended once.
    - The screens (Tui, View, Terminal): terminal statuses are final, every lookup succeeds,
      progress only goes forward, and a diagram shows every edge of a validated pipeline.
    - The outside (Solves, FileSync, Daemon, Cli, Command): the pipe into the runtime neither
      deadlocks nor reports an image as loaded that was not written completely and accepted;
      the hash cache answers what a walk has read under the metadata it reported; saving the
      cache and writing a diagram are atomic; the engine commands tell the truth about the
      container; every action closes what it opens.

    ** Fuel and bounds

    - Include.resolveInclude has [include_fuel] = 65 rounds: the stack refuses the 65th
      nested file ([maxIncludeDepth] = 64), and IncludeProps.resolveInclude_terminates shows
      that more fuel never changes the result.
    - Dfs.visit_all has one round more than there are nodes, and Filter.bfsReachable one per
      job and one to stop: a node is entered once, so the [None] results are excluded by
      lemmas of these files.
    - The replacers of GoStrings, the digits of Duration and the decimals of Shell recurse on
      the length of their input; [strip_zeros] on at most 400 digits, more than a double has.
    - Graph.first_free tries one identifier more than there are used ones, and
      Daemon.wait_fuel is enough rounds for the default health check
      (Daemon.waitHealthy_ends).
    - Sched, Stream, Solves.pipe_step, Plain.step and Displays.tui_step need no fuel: their
      runs are sequences of events or steps, and measures bound the length where the code
      ends by itself.

    ** Not modelled

    - Error texts beyond the operands and the wrapped sentinels; colours, which are a
      parameter; log lines other than those of the plain display.
    - The network and processes: BuildKit's Solve, the session, [os.Open], git.  Their
      results are parameters.
    - Bubble Tea (its event loop is modelled as documented), OpenTelemetry, slog's JSON and
      text handlers, lipgloss: third-party or standard code behind the modelled operations.
    - The flag tables of main.go, which a command framework interprets (their values are the
      record Command.flags), pkg/slogctx, and the test double of the runtime.
    - Bundling is shown for jobs that a document can hold, a hypothesis on what the
      substitution of parameters yields. *)

From Stdlib Require Export Ascii.
From stdpp Require Export base tactics option list gmap sets strings sorting relations.
From Stdlib Require Export ZArith Lia.

(** ** Results *)

Declare Scope cicada_scope.
Delimit Scope cicada_scope with cicada.

(** A Go call that returns [(T, error)]: a value or a non-nil error of type [E]. *)
Inductive res (E A : Type) : Type :=
  | Ok (a : A)
  | Fail (e : E).
Arguments Ok {E A} a.
Arguments Fail {E A} e.

#[export] Instance res_ret {E} : MRet (res E) := fun A a => Ok a.
#[export] Instance res_bind {E} : MBind (res E) := fun A B f r =>
  match r with Ok a => f a | Fail e => Fail e end.
#[export] Instance res_fmap {E} : FMap (res E) := fun A B f r =>
  match r with Ok a => Ok (f a) | Fail e => Fail e end.
#[export] Instance res_eq_dec `{EqDecision E, EqDecision A} : EqDecision (res E A).
Proof. solve_decision. Defined.

(** [if err := r; err != nil { return wrap(err) }]. *)
Definition map_err {E F A} (w : E -> F) (r : res E A) : res F A :=
  match r with Ok a => Ok a | Fail e => Fail (w e) end.

(** [if cond { return err }]. *)
Definition guard_fail {E} (cond : bool) (e : E) : res E unit :=
  if cond then Fail e else Ok tt.

(** A [for _, x := range l] loop over a mutable accumulator with early return. *)
Fixpoint foldM {E A B} (f : B -> A -> res E B) (b : B) (l : list A) : res E B :=
  match l with
  | [] => Ok b
  | a :: l' => b' ← f b a; foldM f b' l'
  end.

(** The same loop building one output per element. *)
Fixpoint forM {E A B} (f : A -> res E B) (l : list A) : res E (list B) :=
  match l with
  | [] => Ok []
  | a :: l' => b ← f a; bs ← forM f l'; Ok (b :: bs)
  end.

Definition is_ok {E A} (r : res E A) : bool :=
  match r with Ok _ => true | Fail _ => false end.

Create HintDb cicada.
Create Rewrite HintDb cicada.

Section res_lemmas.
Context {E A B : Type}.
Implicit Types (r : res E A) (f : A -> res E B).

Lemma bind_Ok r f b : r ≫= f = Ok b <-> exists a, r = Ok a /\ f a = Ok b.
Proof. destruct r; cbn; naive_solver. Qed.

Lemma bind_Fail r f e :
  r ≫= f = Fail e <-> r = Fail e \/ exists a, r = Ok a /\ f a = Fail e.
Proof. destruct r; cbn; naive_solver. Qed.

Lemma map_err_Ok {F} (w : E -> F) r a : map_err w r = Ok a <-> r = Ok a.
Proof. destruct r; cbn; naive_solver. Qed.

Lemma map_err_Fail {F} (w : E -> F) r e :
  map_err w r = Fail e <-> exists e', r = Fail e' /\ e = w e'.
Proof. destruct r; cbn; naive_solver. Qed.

Lemma guard_fail_Ok (c : bool) (e : E) u : guard_fail c e = Ok u <-> c = false.
Proof. destruct c, u; cbn; naive_solver. Qed.

Lemma guard_fail_Fail (c : bool) (e e' : E) :
  guard_fail c e = Fail e' <-> c = true /\ e' = e.
Proof. destruct c; cbn; naive_solver. Qed.

Lemma is_ok_true r : is_ok r = true <-> exists a, r = Ok a.
Proof. destruct r; cbn; naive_solver. Qed.

Lemma not_ok r : (forall a, r <> Ok a) -> exists e, r = Fail e.
Proof. destruct r; naive_solver. Qed.

Lemma seq_Ok (m : res E unit) (k : res E B) b : (m;; k) = Ok b <-> m = Ok tt /\ k = Ok b.
Proof. destruct m as [[]|]; cbn; naive_solver. Qed.
End res_lemmas.

#[export] Hint Rewrite @bind_Ok @map_err_Ok @guard_fail_Ok : cicada.

(** [inv_ok]: peel every monadic success hypothesis of the context into equations. *)
Ltac inv_ok :=
  repeat match goal with
  | H : Ok _ = Ok _ |- _ => injection H; clear H; intros; subst
  | H : Fail _ = Fail _ |- _ => injection H; clear H; intros; subst
  | H : Ok _ = Fail _ |- _ => discriminate H
  | H : Fail _ = Ok _ |- _ => discriminate H
  | H : _ ≫= _ = Ok _ |- _ => apply bind_Ok in H as (? & ? & H)
  | H : map_err _ _ = Ok _ |- _ => apply map_err_Ok in H
  | H : guard_fail _ _ = Ok _ |- _ => apply guard_fail_Ok in H
  | x : unit |- _ => destruct x
  end.

(** ** Loops *)

Section fold_lemmas.
Context {E A B : Type}.
Implicit Types (f : B -> A -> res E B) (b : B) (l k : list A).

Lemma foldM_app f b l k :
  foldM f b (l ++ k) = (b' ← foldM f b l; foldM f b' k).
Proof.
  revert b. induction l as [|a l IH]; intros b; cbn; [done|].
  destruct (f b a) as [b'|e]; cbn; [apply IH|done].
Qed.

(** Loop invariant rule. *)
Lemma foldM_inv (I : list A -> B -> Prop) f b l b' :
  I [] b ->
  (forall done b a b', a ∈ l -> I done b -> f b a = Ok b' -> I (done ++ [a]) b') ->
  foldM f b l = Ok b' -> I l b'.
Proof.
  intros H0 Hstep.
  enough (forall done todo b, l = done ++ todo -> I done b ->
            foldM f b todo = Ok b' -> I l b') as Hgen
    by (intros; by eapply (Hgen [] l)).
  intros done todo. revert done.
  induction todo as [|a todo IH]; intros done b0 -> HI; cbn; intros; inv_ok.
  - by rewrite app_nil_r.
  - eapply (IH (done ++ [a])); [by rewrite <- app_assoc| |done].
    eapply Hstep; [|done|done]. set_solver.
Qed.

(** A loop whose body never fails under the invariant succeeds. *)
Lemma foldM_total (I : B -> Prop) f b l :
  I b ->
  (forall b a, a ∈ l -> I b -> exists b', f b a = Ok b' /\ I b') ->
  exists b', foldM f b l = Ok b' /\ I b'.
Proof.
  revert b. induction l as [|a l IH]; intros b Hb Hstep; cbn; [eauto|].
  destruct (Hstep b a) as (b1 & -> & Hb1); [set_solver|done|].
  cbn. apply IH; [done|]. intros. apply Hstep; [set_solver|done].
Qed.

(** If a loop fails, one iteration failed, after a successful prefix. *)
Lemma foldM_Fail f b l e :
  foldM f b l = Fail e ->
  exists l1 a l2 b1, l = l1 ++ a :: l2 /\ foldM f b l1 = Ok b1 /\ f b1 a = Fail e.
Proof.
  revert b. induction l as [|a l IH]; intros b; cbn; [done|].
  destruct (f b a) as [b1|e1] eqn:Hf; cbn; intros Hl.
  - destruct (IH _ Hl) as (l1 & a' & l2 & b2 & -> & Hb2 & Hf2).
    exists (a :: l1), a', l2, b2. split_and!; [done| |done]. cbn. by rewrite Hf.
  - inv_ok. by exists [], a, l, b.
Qed.
End fold_lemmas.

(** A loop that only checks its elements. *)
Lemma foldM_unit_Ok {E A} (f : unit -> A -> res E unit) (P : A -> Prop) l :
  (forall x, x ∈ l -> f tt x = Ok tt <-> P x) ->
  foldM f tt l = Ok tt <-> Forall P l.
Proof.
  induction l as [|a l IH]; intros Hf; cbn; [by split|].
  rewrite bind_Ok, Forall_cons, <- Hf by set_solver. rewrite <- IH by (intros; apply Hf; set_solver).
  split; [by intros ([] & ? & ?)|]. intros [? ?]. by exists tt.
Qed.

(** Two nested loops are one loop over the pairs. *)
Lemma foldM_nested {E A B G} (f : G -> B -> A -> res E B) (h : G -> list A) b (gs : list G) :
  foldM (fun b g => foldM (f g) b (h g)) b gs =
  foldM (fun b '(g, a) => f g b a) b (gs ≫= fun g => (g,.) <$> h g).
Proof.
  revert b. induction gs as [|g gs IH]; intros b; [done|].
  rewrite bind_cons, foldM_app. cbn [foldM].
  assert (foldM (f g) b (h g) = foldM (fun b '(g, a) => f g b a) b ((g,.) <$> h g)) as <-.
  { generalize (h g) as l. intros l. revert b. induction l as [|a l IHl]; intros b; cbn; [done|].
    destruct (f g b a); cbn; [apply IHl|done]. }
  destruct (foldM (f g) b (h g)); cbn; [apply IH|done].
Qed.

Section forM_lemmas.
Context {E A B : Type}.
Implicit Types (f : A -> res E B) (l k : list A).

Lemma forM_Ok f l bs : forM f l = Ok bs <-> Forall2 (fun a b => f a = Ok b) l bs.
Proof.
  revert bs. induction l as [|a l IH]; intros bs; cbn.
  - split; [intros; inv_ok; constructor|]. by intros ->%Forall2_nil_inv_l.
  - split.
    + intros H. inv_ok. constructor; [done|]. by apply IH.
    + intros (b & bs' & Hb & Hbs & ->)%Forall2_cons_inv_l. apply IH in Hbs.
      by rewrite Hb, Hbs.
Qed.

Lemma forM_length f l bs : forM f l = Ok bs -> length bs = length l.
Proof. intros H%forM_Ok. by apply Forall2_length in H. Qed.

Lemma forM_Fail f l e : forM f l = Fail e -> exists a, a ∈ l /\ f a = Fail e.
Proof.
  induction l as [|a l IH]; cbn; [done|].
  destruct (f a) eqn:Hf; cbn.
  - destruct (forM f l) eqn:Hl; cbn; [done|]. intros. inv_ok.
    destruct IH as (a' & ? & ?); [done|]. set_solver.
  - intros. inv_ok. set_solver.
Qed.
End forM_lemmas.

(** ** Lists *)

Lemma Forall_impl_strong {A} (P Q : A -> Prop) l :
  Forall P l -> (forall x, x ∈ l -> P x -> Q x) -> Forall Q l.
Proof. rewrite !Forall_forall. auto. Qed.

#[global] Arguments filter : simpl never.

Section filter_lemmas.
Context {A : Type} (P : A -> Prop) `{!forall x, Decision (P x)}.

Lemma filter_all l : Forall P l -> filter P l = l.
Proof. induction 1; [done|]. rewrite filter_cons_True by done. by f_equal. Qed.

Lemma filter_none l : Forall (fun x => ~ P x) l -> filter P l = [].
Proof. induction 1; [done|]. by rewrite filter_cons_False. Qed.

Lemma filter_snoc l x : filter P (l ++ [x]) = if decide (P x) then filter P l ++ [x] else filter P l.
Proof. rewrite filter_app, filter_cons, filter_nil. case_decide; [done|apply app_nil_r]. Qed.

Lemma filter_sublist l : filter P l `sublist_of` l.
Proof.
  induction l as [|x l IH]; [constructor|]. rewrite filter_cons.
  case_decide; by constructor.
Qed.

Lemma fmap_sublist {B} (f : A -> B) l k : l `sublist_of` k -> f <$> l `sublist_of` f <$> k.
Proof. induction 1; cbn; by constructor. Qed.

(** Filtering keeps the injectivity of a key. *)
Lemma NoDup_fmap_filter {B} (f : A -> B) l : NoDup (f <$> l) -> NoDup (f <$> filter P l).
Proof. intros Hl. eapply sublist_NoDup; [exact Hl|]. apply fmap_sublist, filter_sublist. Qed.
End filter_lemmas.

(** An injective key identifies the elements of a list. *)
Lemma NoDup_fmap_inj_elem {A B} (f : A -> B) l x y :
  NoDup (f <$> l) -> x ∈ l -> y ∈ l -> f x = f y -> x = y.
Proof.
  induction l as [|a l IH]; [set_solver|]. cbn.
  intros [Hni Hnd]%NoDup_cons [->|Hx]%elem_of_cons [->|Hy]%elem_of_cons Heq; [done|..].
  - destruct Hni. rewrite Heq. by apply list_elem_of_fmap_2.
  - destruct Hni. rewrite <- Heq. by apply list_elem_of_fmap_2.
  - by apply IH.
Qed.

(** ** Deduplication that keeps the first occurrence *)

Section uniq.
Context {A : Type} `{Countable A}.

(** The reference definition: drop every later copy of each element. *)
Fixpoint uniq (l : list A) : list A :=
  match l with
  | [] => []
  | x :: l' => x :: filter (.≠ x) (uniq l')
  end.

(** The Go idiom: a [seen] set and an output slice. *)
Definition uniq_step (acc : gset A * list A) (x : A) : gset A * list A :=
  if decide (x ∈ acc.1) then acc else ({[x]} ∪ acc.1, acc.2 ++ [x]).

Lemma elem_of_uniq x l : x ∈ uniq l <-> x ∈ l.
Proof.
  induction l as [|y l IH]; cbn; [done|].
  rewrite !elem_of_cons, list_elem_of_filter, IH. destruct (decide (x = y)); naive_solver.
Qed.

Lemma NoDup_uniq l : NoDup (uniq l).
Proof.
  induction l as [|y l IH]; cbn; constructor; [|by apply NoDup_filter].
  rewrite list_elem_of_filter. naive_solver.
Qed.

Lemma uniq_NoDup_id l : NoDup l -> uniq l = l.
Proof.
  induction 1 as [|y l Hni Hnd IH]; cbn; [done|]. f_equal. rewrite IH.
  apply filter_all. apply Forall_forall. by intros x Hx ->.
Qed.

Lemma uniq_snoc l x : uniq (l ++ [x]) = if decide (x ∈ l) then uniq l else uniq l ++ [x].
Proof.
  induction l as [|y l IH]; [done|]. cbn [uniq app]. rewrite IH.
  destruct (decide (x = y)) as [->|Hne].
  - rewrite (decide_True (P := y ∈ y :: l)) by (by left). destruct (decide (y ∈ l)); [done|].
    rewrite filter_app, (filter_cons_False _ y) by naive_solver. by rewrite filter_nil, app_nil_r.
  - destruct (decide (x ∈ l)).
    + by rewrite (decide_True (P := x ∈ y :: l)) by (by right).
    + rewrite (decide_False (P := x ∈ y :: l)) by set_solver.
      rewrite filter_app, (filter_cons_True _ x) by done. by rewrite filter_nil.
Qed.

Lemma uniq_loop_gen seen out l :
  (foldl uniq_step (seen, out) l).2 = out ++ filter (.∉ seen) (uniq l).
Proof.
  revert seen out. induction l as [|x l IH]; intros seen out; cbn [foldl uniq];
    [by rewrite app_nil_r|].
  unfold uniq_step at 2. cbn [fst snd]. case_decide as Hx.
  - rewrite IH. rewrite (filter_cons_False (.∉ seen)) by naive_solver. f_equal.
    rewrite list_filter_filter. apply list_filter_iff. naive_solver.
  - rewrite IH, (filter_cons_True (.∉ seen)) by done. rewrite <- app_assoc. cbn. do 2 f_equal.
    rewrite list_filter_filter. apply list_filter_iff. set_solver.
Qed.

Lemma uniq_loop l : (foldl uniq_step (∅, []) l).2 = uniq l.
Proof.
  rewrite uniq_loop_gen. cbn. apply filter_all. apply Forall_forall. set_solver.
Qed.
End uniq.

(** ** "Seen set" loops

    Most of Cicada's validators walk a slice with a [seen] map, reject an element that
    violates a local condition and reject an element whose key was seen before.  The
    lemmas below characterise every such loop once. *)

Section seen_loop.
Context {E A : Type}.
Variable f : gset string -> A -> res E (gset string).
Variable key : A -> string.
Variable P : A -> Prop.
Hypothesis f_ok : forall seen a seen',
  f seen a = Ok seen' <-> P a /\ key a ∉ seen /\ seen' = {[key a]} ∪ seen.

Lemma seen_loop_ok seen l seen' :
  foldM f seen l = Ok seen' <->
  Forall P l /\ NoDup (key <$> l) /\ (forall a, a ∈ l -> key a ∉ seen) /\
  seen' = list_to_set (key <$> l) ∪ seen.
Proof.
  revert seen. induction l as [|a l IH]; intros seen; cbn.
  - split.
    + intros. inv_ok. split_and!; [constructor|constructor|set_solver|set_solver].
    + intros (_ & _ & _ & ->). f_equal. set_solver.
  - rewrite bind_Ok. split.
    + intros (s1 & (HP & Hn & ->)%f_ok & (HF & Hnd & Hdisj & ->)%IH).
      split_and!; [by constructor| |set_solver|set_solver].
      apply NoDup_cons; split; [|done].
      intros (x & Hx & Hin)%list_elem_of_fmap. apply (Hdisj x Hin). set_solver.
    + intros ([HP HF]%Forall_cons & [Hni Hnd]%NoDup_cons & Hdisj & ->).
      exists ({[key a]} ∪ seen). split; [apply f_ok; set_solver|].
      apply IH. split_and!; [done|done| |set_solver].
      intros x Hx [Hk%elem_of_singleton|Hk]%elem_of_union; [|set_solver].
      apply Hni, list_elem_of_fmap. eauto.
Qed.

(** The usual entry point: the loop starts from an empty map. *)
Lemma seen_loop_empty l :
  (exists seen', foldM f ∅ l = Ok seen') <-> Forall P l /\ NoDup (key <$> l).
Proof.
  split.
  - intros (s & (?&?&?&?)%seen_loop_ok). done.
  - intros [? ?]. eexists. apply seen_loop_ok. split_and!; [done|done|set_solver|done].
Qed.
End seen_loop.

(** ** Record update: [r <| proj := v |>]

    [Settable R] gives the eta-expansion of a record type; the setter of a projection is
    computed from it by abstracting the projection out of the expansion. *)

Class Settable (R : Type) : Type := eta_expand : R -> R.
Class Setter {R T : Type} (proj : R -> T) : Type := update : (T -> T) -> R -> R.

Ltac solve_setter proj :=
  match goal with
  | |- @Setter ?R ?T proj =>
      let inst := constr:(_ : Settable R) in
      let body := eval hnf in inst in
      match eval pattern proj in body with
      | ?k _ => exact (fun f => k (fun r => f (proj r)))
      end
  end.
#[export] Hint Extern 1 (Setter ?proj) => solve_setter proj : typeclass_instances.

Notation "r <| proj := v |>" := (update (proj := proj) (fun _ => v) r)
  (at level 12, left associativity, proj at level 8, v at level 99,
   format "r  <|  proj  :=  v  |>") : stdpp_scope.
Notation "r <| proj ::= f |>" := (update (proj := proj) f r)
  (at level 12, left associativity, proj at level 8, f at level 99,
   format "r  <|  proj  ::=  f  |>") : stdpp_scope.
Arguments update {R T} proj {_} f r /.
