(* ===== verification/Errors.v ===== *)
(** * Errors: the sentinel errors of every package and Go's error wrapping

    [fmt.Errorf("job %q: %w", name, err)] returns an error that [errors.Is] still
    identifies with [err].  The model keeps exactly that: an [error] is the list of
    sentinels it wraps, outermost first (a format with two %w verbs wraps two), plus the
    operands of the format string.  The literal text of the messages is not modelled. *)

From S2P Require Import Prelude.

(** ** Sentinels of package pipelinemodel *)

Inductive pm_sentinel : Set :=
  | ErrEmptyPipeline | ErrEmptyJobName | ErrDuplicateJob | ErrEmptyStepName
  | ErrDuplicateStep | ErrInvalidName | ErrMissingImage | ErrMissingRun
  | ErrEmptyRunCommand | ErrEmptyJob | ErrSelfDependency | ErrUnknownDep
  | ErrCycleDetected | ErrEmptyMatrix | ErrEmptyDimension | ErrInvalidDimName
  | ErrDuplicateDim | ErrMatrixTooLarge | ErrInvalidCondition | ErrDeferredStepWhen
  | ErrCircularInclude | ErrIncludeDepth | ErrMissingParam | ErrUnknownParam
  | ErrDuplicateParam | ErrDuplicateAlias | ErrAliasCollision | ErrInvalidConflict
  | ErrPipelineNoParams
  | ErrInvalidRetryAttempts | ErrInvalidBackoff | ErrNegativeDelay
  | ErrNegativeTimeout | ErrEmptyShell
  | ErrEmptyEnvKey | ErrEmptyExportPath | ErrDuplicateExport | ErrArtifactNoDep
  | ErrDuplicateEnvKey | ErrDuplicateArtifact | ErrRelativeExport
  | ErrRelativeArtifact | ErrRelativeArtifactSource | ErrEmptyArtifactFrom
  | ErrEmptyArtifactSource | ErrEmptyArtifactTarget | ErrRootExport
  | ErrRootArtifact | ErrEmptyExportLocal | ErrEmptyPublishImage
  | ErrEmptySecretName | ErrDuplicateSecret | ErrDuplicateSecretRef
  | ErrInvalidSecretSource | ErrMissingSecretPath | ErrMissingSecretCmd
  | ErrUnknownSecret | ErrSecretRefNoTarget | ErrSecretRefBothTarget
  | ErrRelativeSecretMount | ErrSecretOverride | ErrSecretResolution
  | ErrSecretVarWithNonHostEnv | ErrInvalidSecretEnvName | ErrSecretPathWithNonFile
  | ErrSecretCmdWithNonCmd | ErrDuplicateSecretEnvName | ErrDuplicateSecretMount
  | ErrInvalidSecretHostEnvName
  | ErrUnknownStartAt | ErrUnknownStopAfter | ErrUnknownStartAtStep
  | ErrUnknownStopAfterStep | ErrEmptyStepWindow | ErrEmptyFilterResult
  | ErrOrphanedStep
  | ErrJobCondition | ErrStepCondition.

(** ** Sentinels of package conditional *)

Inductive cond_sentinel : Set :=
  | ErrInvalidWhenExpr | ErrWhenNotBool | ErrDeferredInStep | ErrDeferredEvaluate
  | ErrNotDeferredEvaluate.

(** ** Sentinels of package parser *)

Inductive parser_sentinel : Set :=
  | ErrUnknownNode | ErrMissingField | ErrDuplicateField | ErrExtraArgs
  | ErrTypeMismatch | ErrUnknownProp | ErrUnexpectedChildren | ErrAmbiguousFile
  | ErrEmptyInclude | ErrNilResolver.

(** Misconfiguration sentinels of the parser's [StdinResolver]. *)
Inductive resolver_sentinel : Set :=
  | ErrNilStdin | ErrNilInner.

(** ** Sentinels of package runnermodel *)

Inductive rm_sentinel : Set :=
  | ErrNilSolver | ErrNilSender | ErrNilDefinition | ErrNilRuntime
  | ErrJobTimeout | ErrStepTimeout
  | ErrExportDockerMultiPlatform | ErrPublishSettingConflict | ErrDuplicatePlatform.

(** ** Sentinels of package cache *)

Inductive cache_sentinel : Set :=
  | ErrInvalidCacheSpec | ErrUnknownCacheType.

(** Any error value.  [ExitError code] is BuildKit's [*gatewaypb.ExitError], whose exit
    code the runner reads.  [Foreign what] is an error produced by a library ([cel-go],
    [kdl-go], the file system); [OutOfFuel] is produced by no Go code: it marks a
    modelled recursion that exhausted its fuel, and every definition that can return it
    comes with a theorem that it never does. *)
Inductive sentinel : Set :=
  | PM (s : pm_sentinel)
  | Cond (s : cond_sentinel)
  | Pars (s : parser_sentinel)
  | Rsv (s : resolver_sentinel)
  | RM (s : rm_sentinel)
  | CacheErr (s : cache_sentinel)
  | ExitError (code : Z)
  | Foreign (what : string)
  | OutOfFuel.

#[export] Instance pm_sentinel_eq_dec : EqDecision pm_sentinel.
Proof. solve_decision. Defined.
#[export] Instance cond_sentinel_eq_dec : EqDecision cond_sentinel.
Proof. solve_decision. Defined.
#[export] Instance parser_sentinel_eq_dec : EqDecision parser_sentinel.
Proof. solve_decision. Defined.
#[export] Instance resolver_sentinel_eq_dec : EqDecision resolver_sentinel.
Proof. solve_decision. Defined.
#[export] Instance rm_sentinel_eq_dec : EqDecision rm_sentinel.
Proof. solve_decision. Defined.
#[export] Instance cache_sentinel_eq_dec : EqDecision cache_sentinel.
Proof. solve_decision. Defined.
#[export] Instance sentinel_eq_dec : EqDecision sentinel.
Proof. solve_decision. Defined.

(** ** Error values *)

Record error : Type := Error {
  operands : list string;
  chain : list sentinel
}.

#[export] Instance error_eq_dec : EqDecision error.
Proof. solve_decision. Defined.

Abbreviation result := (res error).

(** A bare sentinel value. *)
Definition raise (s : sentinel) : error := Error [] [s].

(** [fmt.Errorf("... %q ...: %w", args..., err)]. *)
Definition errorf (args : list string) (e : error) : error :=
  Error (args ++ operands e) (chain e).

(** [fmt.Errorf("... %q ...: %w: %w", args..., s, err)]. *)
Definition errorf2 (args : list string) (s : sentinel) (e : error) : error :=
  Error (args ++ operands e) (s :: chain e).

(** [errors.Is(err, s)]. *)
Definition Is (e : error) (s : sentinel) : bool := bool_decide (s ∈ chain e).

(** [return fmt.Errorf("...: %w", args..., s)]. *)
Definition fail_with {A} (args : list string) (s : sentinel) : result A :=
  Fail (errorf args (raise s)).

Lemma Is_errorf args e s : Is (errorf args e) s = Is e s.
Proof. done. Qed.

Lemma Is_errorf2 args e s s' : Is (errorf2 args s' e) s = bool_decide (s = s') || Is e s.
Proof.
  unfold Is. cbn. destruct (decide (s = s')) as [->|Hne].
  - rewrite !bool_decide_true by set_solver. done.
  - rewrite (bool_decide_false (s = s')) by done. cbn.
    apply bool_decide_ext. set_solver.
Qed.

Lemma Is_raise s s' : Is (raise s') s = bool_decide (s = s').
Proof. unfold Is. cbn. apply bool_decide_ext. set_solver. Qed.

#[export] Hint Rewrite Is_errorf Is_errorf2 Is_raise : cicada.

Section is_lemmas.
Context {A : Type}.

Lemma fail_with_Ok args s (a : A) : fail_with args s = Ok a <-> False.
Proof. done. Qed.

Lemma fail_with_Is args s (e : error) s' :
  @fail_with A args s = Fail e -> Is e s' = true <-> s' = s.
Proof.
  intros [= <-]. rewrite Is_errorf, Is_raise. apply bool_decide_eq_true.
Qed.
End is_lemmas.
#[export] Hint Rewrite @fail_with_Ok : cicada.

(** [inv_res]: [inv_ok] that also discards branches that return an error. *)
Ltac inv_res :=
  repeat match goal with
  | H : fail_with _ _ = Ok _ |- _ => discriminate H
  | _ => progress inv_ok
  end.

(** [open_res]: [inv_res] that also opens the tuples the successful calls return. *)
Ltac open_res :=
  repeat (inv_res; match goal with
  | H : (let '(_, _) := ?x in _) = Ok _ |- _ => destruct x
  end); inv_res.
