(* ===== verification/GoStrings.v ===== *)
(** * The part of Go's [strings] package that Cicada calls

    Go strings are byte strings; the model uses [string] with one [ascii] per byte.
    Functions are defined on bytes; [TrimSpace] also recognises the UTF-8 encodings of the
    non-ASCII white space that [unicode.IsSpace] accepts. *)

From S2P Require Import Prelude.

(** ** Bytes *)

Definition bytes (s : string) : list ascii := String.list_ascii_of_string s.

(** [c] does not occur in [s]. *)
Definition lacks (c : ascii) (s : string) : Prop := c ∉ bytes s.
#[export] Instance lacks_dec c s : Decision (lacks c s) := decide (c ∉ bytes s).

Lemma bytes_app s t : bytes (s +:+ t) = bytes s ++ bytes t.
Proof.
  induction s as [|a s IH]; [done|].
  change (a :: bytes (s +:+ t) = a :: bytes s ++ bytes t). by rewrite IH.
Qed.

Lemma lacks_app c s t : lacks c (s +:+ t) <-> lacks c s /\ lacks c t.
Proof. unfold lacks. rewrite bytes_app. set_solver. Qed.

Lemma lacks_cons c a s : lacks c (String a s) <-> c <> a /\ lacks c s.
Proof. unfold lacks. cbn. set_solver. Qed.

Lemma lacks_nil c : lacks c "".
Proof. unfold lacks. cbn. set_solver. Qed.

#[export] Hint Resolve lacks_nil : cicada.

(** Concatenation is a monoid. *)
Lemma append_nil_l s : "" +:+ s = s.
Proof. reflexivity. Qed.

Lemma append_cons a s t : String a s +:+ t = String a (s +:+ t).
Proof. reflexivity. Qed.

Lemma append_nil_r s : s +:+ "" = s.
Proof. induction s as [|a s IH]; [done|]. by rewrite append_cons, IH. Qed.

Lemma append_assoc s t u : (s +:+ t) +:+ u = s +:+ t +:+ u.
Proof. induction s as [|a s IH]; [done|]. by rewrite !append_cons, IH. Qed.

Lemma length_append s t : String.length (s +:+ t) = String.length s + String.length t.
Proof. induction s as [|a s IH]; [done|]. rewrite append_cons. cbn. by rewrite IH. Qed.

#[export] Hint Rewrite append_nil_l append_nil_r append_cons append_assoc length_append
  : gostr.

Lemma append_inj_r s t u : s +:+ u = t +:+ u -> s = t.
Proof.
  intros H. assert (String.length s = String.length t) as Hl.
  { apply (f_equal String.length) in H. rewrite !length_append in H. lia. }
  revert t H Hl. induction s as [|a s IH]; intros [|b t] H Hl; cbn in Hl; try lia; [done|].
  rewrite !append_cons in H. injection H as -> H. f_equal. apply IH; [done|lia].
Qed.

(** ** Slicing: [s[:i]] and [s[i:]] *)

Fixpoint str_take (i : nat) (s : string) : string :=
  match i, s with
  | S i, String a s => String a (str_take i s)
  | _, _ => ""
  end.

Fixpoint str_drop (i : nat) (s : string) : string :=
  match i, s with
  | S i, String _ s => str_drop i s
  | S _, EmptyString => ""
  | O, s => s
  end.

Lemma str_take_app s t : str_take (String.length s) (s +:+ t) = s.
Proof. induction s as [|a s IH]; [by destruct t|]. rewrite append_cons. cbn. by rewrite IH. Qed.

Lemma str_drop_app s t : str_drop (String.length s) (s +:+ t) = t.
Proof. induction s as [|a s IH]; [done|]. rewrite append_cons. cbn. apply IH. Qed.

Lemma str_drop_app_add s t n :
  str_drop (String.length s + n) (s +:+ t) = str_drop n t.
Proof. induction s as [|a s IH]; [done|]. rewrite append_cons. cbn. apply IH. Qed.

Lemma str_drop_app_S s c t : str_drop (S (String.length s)) (s +:+ String c t) = t.
Proof. by induction s as [|a s IH]. Qed.

Lemma length_str_drop i s : String.length (str_drop i s) = String.length s - i.
Proof. revert s. induction i as [|i IH]; intros [|a s]; cbn; auto. Qed.

(** ** Prefixes and suffixes *)

Definition HasPrefix (s p : string) : bool := String.prefix p s.

Lemma HasPrefix_spec s p : HasPrefix s p = true <-> exists t, s = p +:+ t.
Proof.
  unfold HasPrefix. revert s. induction p as [|a p IH]; intros [|b s]; cbn.
  - split; [by exists ""|done].
  - split; [by eexists|done].
  - split; [done|]. by intros [t ?].
  - destruct (ascii_dec a b) as [->|Hne].
    + rewrite IH. split; intros [t Ht]; exists t; rewrite append_cons in *; by simplify_eq.
    + split; [done|]. intros [t Ht]. rewrite append_cons in Ht. by simplify_eq.
Qed.

Lemma HasPrefix_head_ne a b s p : a <> b -> HasPrefix (String a s) (String b p) = false.
Proof. intros Hne. unfold HasPrefix. cbn. by destruct (ascii_dec b a) as [->|]. Qed.

Lemma HasPrefix_common p s t : HasPrefix (p +:+ s) (p +:+ t) = HasPrefix s t.
Proof.
  induction p as [|a p IH]; [done|]. rewrite !append_cons. unfold HasPrefix in *. cbn.
  destruct (ascii_dec a a); done.
Qed.

Lemma HasPrefix_app p t : HasPrefix (p +:+ t) p = true.
Proof. apply HasPrefix_spec. eauto. Qed.

Lemma HasPrefix_drop s p : HasPrefix s p = true -> s = p +:+ str_drop (String.length p) s.
Proof. intros [t ->]%HasPrefix_spec. by rewrite str_drop_app. Qed.

(** [HasSuffix]: compares the last [len(suffix)] bytes. *)
Definition HasSuffix (s x : string) : bool :=
  (String.length x <=? String.length s)%nat &&
  bool_decide (str_drop (String.length s - String.length x) s = x).

Lemma HasSuffix_spec s x : HasSuffix s x = true <-> exists t, s = t +:+ x.
Proof.
  unfold HasSuffix. rewrite andb_true_iff, Nat.leb_le, bool_decide_eq_true. split.
  - intros [_ H]. exists (str_take (String.length s - String.length x) s).
    rewrite <- H at 2. generalize (String.length s - String.length x). clear.
    induction s as [|a s IH]; intros [|n]; cbn; try done.
    rewrite append_cons. f_equal. apply IH.
  - intros [t ->]. rewrite length_append. split; [lia|].
    replace (_ + _ - _) with (String.length t) by lia. apply str_drop_app.
Qed.

(** [strings.TrimRight(s, c)] for a cutset of one byte. *)
Fixpoint TrimRightByte (c : ascii) (s : string) : string :=
  match s with
  | EmptyString => ""
  | String a s' =>
      match TrimRightByte c s' with
      | EmptyString => if decide (a = c) then "" else String a ""
      | t => String a t
      end
  end.

Lemma TrimRightByte_empty c s :
  TrimRightByte c s = "" <-> Forall (eq c) (bytes s).
Proof.
  induction s as [|a s IH]; cbn; [split; [constructor|done]|].
  rewrite Forall_cons. destruct (TrimRightByte c s) as [|b t] eqn:Ht.
  - case_decide; subst; [naive_solver|]. split; [done|]. naive_solver.
  - split; [done|]. intros [_ H]. apply IH in H. done.
Qed.

(** ** Searching *)

Fixpoint IndexByte (s : string) (c : ascii) : option nat :=
  match s with
  | EmptyString => None
  | String a s' => if decide (a = c) then Some 0 else S <$> IndexByte s' c
  end.

Fixpoint LastIndexByte (s : string) (c : ascii) : option nat :=
  match s with
  | EmptyString => None
  | String a s' =>
      match LastIndexByte s' c with
      | Some i => Some (S i)
      | None => if decide (a = c) then Some 0 else None
      end
  end.

Lemma IndexByte_None s c : IndexByte s c = None <-> lacks c s.
Proof.
  induction s as [|a s IH]; cbn; [split; auto with cicada|].
  rewrite lacks_cons. case_decide; subst; [naive_solver|].
  rewrite fmap_None, IH. naive_solver.
Qed.

Lemma IndexByte_app s t c : lacks c s -> IndexByte (s +:+ String c t) c = Some (String.length s).
Proof.
  induction s as [|a s IH]; [intros _; rewrite append_nil_l; cbn; by rewrite decide_True|].
  intros [Hne Hs]%lacks_cons. rewrite append_cons. cbn.
  rewrite decide_False by done. by rewrite IH.
Qed.

Lemma IndexByte_Some s c i :
  IndexByte s c = Some i -> exists a b, s = a +:+ String c b /\ lacks c a /\ i = String.length a.
Proof.
  revert i. induction s as [|x s IH]; intros i; cbn; [done|].
  case_decide as Hx; subst.
  - intros [= <-]. exists "", s. auto with cicada.
  - intros (j & Hj & ->)%fmap_Some. destruct (IH _ Hj) as (a & b & -> & Ha & ->).
    exists (String x a), b. rewrite lacks_cons. naive_solver.
Qed.

Lemma LastIndexByte_None s c : LastIndexByte s c = None <-> lacks c s.
Proof.
  induction s as [|a s IH]; cbn; [split; auto with cicada|].
  rewrite lacks_cons. destruct (LastIndexByte s c) as [i|].
  - split; [done|]. intros [_ H]. apply IH in H. done.
  - case_decide; subst; naive_solver.
Qed.

Lemma LastIndexByte_app s t c :
  lacks c t -> LastIndexByte (s +:+ String c t) c = Some (String.length s).
Proof.
  intros Ht. induction s as [|a s IH].
  - rewrite append_nil_l. cbn. apply LastIndexByte_None in Ht. rewrite Ht. by rewrite decide_True.
  - rewrite append_cons. cbn. by rewrite IH.
Qed.

(** [strings.Cut(s, sep)] for a one-byte separator. *)
Definition CutByte (s : string) (c : ascii) : option (string * string) :=
  i ← IndexByte s c; Some (str_take i s, str_drop (S i) s).

Lemma CutByte_app a b c : lacks c a -> CutByte (a +:+ String c b) c = Some (a, b).
Proof.
  intros Ha. unfold CutByte. rewrite IndexByte_app by done.
  cbn [mbind option_bind]. by rewrite str_take_app, str_drop_app_S.
Qed.

Lemma CutByte_None s c : CutByte s c = None <-> lacks c s.
Proof.
  unfold CutByte. rewrite <- IndexByte_None. destruct (IndexByte s c); naive_solver.
Qed.

Lemma CutByte_Some s c a b : CutByte s c = Some (a, b) <-> s = a +:+ String c b /\ lacks c a.
Proof.
  split.
  - unfold CutByte. intros (i & Hi & Hab)%bind_Some.
    destruct (IndexByte_Some _ _ _ Hi) as (x & y & -> & Hx & ->).
    rewrite str_take_app in Hab.
    rewrite str_drop_app_S in Hab. naive_solver.
  - intros [-> Ha]. by apply CutByte_app.
Qed.

(** [strings.Split(s, sep)] (and the sequence of [strings.SplitSeq]) for a one-byte
    separator. *)
Fixpoint SplitByte (s : string) (c : ascii) : list string :=
  match s with
  | EmptyString => [""]
  | String a s' =>
      if decide (a = c) then "" :: SplitByte s' c
      else match SplitByte s' c with
           | [] => [String a ""]
           | w :: ws => String a w :: ws
           end
  end.

(** [strings.Join(l, sep)]. *)
Definition Join (l : list string) (sep : string) : string := String.concat sep l.

Lemma SplitByte_lacks s c : lacks c s -> SplitByte s c = [s].
Proof.
  induction s as [|a s IH]; cbn; [done|]. intros [Hne Hs]%lacks_cons.
  rewrite decide_False by done. by rewrite IH.
Qed.

Lemma SplitByte_app a b c :
  lacks c a -> SplitByte (a +:+ String c b) c = a :: SplitByte b c.
Proof.
  induction a as [|x a IH]; [intros _; rewrite append_nil_l; cbn; by rewrite decide_True|].
  intros [Hne Ha]%lacks_cons. rewrite append_cons. cbn.
  rewrite decide_False by done. by rewrite IH.
Qed.

Lemma Join_cons x y l sep : Join (x :: y :: l) sep = x +:+ sep +:+ Join (y :: l) sep.
Proof. done. Qed.

(** Splitting undoes joining when no element contains the separator. *)
Lemma SplitByte_Join l c :
  l <> [] -> Forall (lacks c) l -> SplitByte (Join l (String c "")) c = l.
Proof.
  induction l as [|x [|y l] IH]; intros Hne Hl; [done| |].
  - apply SplitByte_lacks. by apply Forall_cons in Hl as [? _].
  - apply Forall_cons in Hl as [Hx Hl]. rewrite Join_cons, append_cons, append_nil_l.
    rewrite SplitByte_app by done. f_equal. by apply IH.
Qed.

Lemma Join_lacks l sep c : lacks c sep -> Forall (lacks c) l -> lacks c (Join l sep).
Proof.
  intros Hs. induction l as [|x [|y l] IH]; intros Hl; [apply lacks_nil| |].
  - by apply Forall_cons in Hl as [? _].
  - apply Forall_cons in Hl as [Hx Hl]. rewrite Join_cons, !lacks_app. auto.
Qed.

(** ** [strings.NewReplacer(pairs...).Replace(s)]

    Left to right, without overlapping matches; at each position the old strings are
    compared in argument order.  Old strings are non-empty in every use. *)

Definition first_match (pairs : list (string * string)) (s : string) : option (string * string) :=
  list_find (fun p => HasPrefix s p.1 = true) pairs ≫= fun ip => Some ip.2.

Fixpoint replacer_go (fuel : nat) (pairs : list (string * string)) (s : string) : string :=
  match fuel with
  | O => s
  | S fuel' =>
      match first_match pairs s with
      | Some (old, new) => new +:+ replacer_go fuel' pairs (str_drop (String.length old) s)
      | None =>
          match s with
          | EmptyString => ""
          | String a s' => String a (replacer_go fuel' pairs s')
          end
      end
  end.

(** Every step consumes at least one byte, so [S (len s)] steps always suffice. *)
Definition Replace (pairs : list (string * string)) (s : string) : string :=
  replacer_go (S (String.length s)) pairs s.

(** [strings.ReplaceAll(s, old, new)] with a non-empty [old]. *)
Definition ReplaceAll (s old new : string) : string := Replace [(old, new)] s.

Lemma first_match_Some pairs s p :
  first_match pairs s = Some p -> p ∈ pairs /\ HasPrefix s p.1 = true.
Proof.
  unfold first_match. intros ([i q] & Hf & [= <-])%bind_Some.
  apply list_find_Some in Hf as (Hl & Hp & _). eauto using list_elem_of_lookup_2.
Qed.

Lemma first_match_None pairs s :
  first_match pairs s = None <-> Forall (fun p => HasPrefix s p.1 = false) pairs.
Proof.
  unfold first_match. rewrite bind_None.
  transitivity (list_find (fun p => HasPrefix s p.1 = true) pairs = None).
  { split; [|by left]. intros [H|([? ?] & _ & ?)]; done. }
  rewrite list_find_None, !Forall_forall. split; intros H x Hx.
  - apply not_true_is_false. auto.
  - rewrite H by done. done.
Qed.

Definition nonempty_olds (pairs : list (string * string)) : Prop :=
  Forall (fun p => p.1 <> "") pairs.

Lemma replacer_go_fuel pairs s n m :
  nonempty_olds pairs -> String.length s < n -> String.length s < m ->
  replacer_go n pairs s = replacer_go m pairs s.
Proof.
  intros Hp. revert s m. induction n as [|n IH]; intros s [|m] Hn Hm; try lia.
  cbn [replacer_go]. destruct (first_match pairs s) as [[old new]|] eqn:Hf.
  - apply first_match_Some in Hf as [Hin Hpre]. f_equal.
    pose proof (proj1 (Forall_forall _ _) Hp _ Hin) as Hne. cbn in *.
    assert (1 <= String.length old) by (destruct old; [done|cbn; lia]).
    apply HasPrefix_spec in Hpre as [t ->]. rewrite str_drop_app.
    rewrite length_append in *. apply IH; lia.
  - destruct s as [|a s]; [done|]. cbn in *. f_equal. apply IH; lia.
Qed.

(** The equations of [Replace]. *)
Lemma Replace_match pairs old new t :
  nonempty_olds pairs -> first_match pairs (old +:+ t) = Some (old, new) ->
  Replace pairs (old +:+ t) = new +:+ Replace pairs t.
Proof.
  intros Hp Hf. unfold Replace. cbn [replacer_go]. rewrite Hf, str_drop_app.
  apply first_match_Some in Hf as [Hin _].
  pose proof (proj1 (Forall_forall _ _) Hp _ Hin) as Hne. cbn in Hne.
  assert (1 <= String.length old) by (destruct old; [done|cbn; lia]).
  rewrite (replacer_go_fuel pairs t _ (S (String.length t))); [done|done| |lia].
  rewrite length_append. lia.
Qed.

Lemma Replace_skip pairs a s :
  nonempty_olds pairs -> first_match pairs (String a s) = None ->
  Replace pairs (String a s) = String a (Replace pairs s).
Proof. intros Hp Hf. unfold Replace. cbn [replacer_go String.length]. by rewrite Hf. Qed.

Lemma Replace_nil pairs : nonempty_olds pairs -> Replace pairs "" = "".
Proof.
  intros Hp. unfold Replace. cbn [replacer_go].
  destruct (first_match pairs "") as [[old new]|] eqn:Hf; [|done].
  apply first_match_Some in Hf as [Hin Hpre].
  pose proof (proj1 (Forall_forall _ _) Hp _ Hin) as Hne. by destruct old.
Qed.

(** Only the set of pairs matters when at most one old string can match anywhere: the
    iteration order of the Go map the pairs come from is then unobservable. *)
Lemma first_match_perm pairs pairs' s :
  pairs ≡ₚ pairs' ->
  (forall p q, p ∈ pairs -> q ∈ pairs ->
     HasPrefix s p.1 = true -> HasPrefix s q.1 = true -> p = q) ->
  first_match pairs s = first_match pairs' s.
Proof.
  intros Hperm Huniq.
  destruct (first_match pairs s) as [p|] eqn:Hp, (first_match pairs' s) as [q|] eqn:Hq; [|..|done].
  - apply first_match_Some in Hp as [? ?], Hq as [? ?]. f_equal.
    apply Huniq; try done. by rewrite Hperm.
  - apply first_match_Some in Hp as [Hin ?]. apply first_match_None in Hq.
    rewrite Hperm in Hin. pose proof (proj1 (Forall_forall _ _) Hq _ Hin). cbn in *. congruence.
  - apply first_match_Some in Hq as [Hin ?]. apply first_match_None in Hp.
    rewrite <- Hperm in Hin. pose proof (proj1 (Forall_forall _ _) Hp _ Hin). cbn in *. congruence.
Qed.

Lemma Replace_perm pairs pairs' s :
  pairs ≡ₚ pairs' ->
  (forall s p q, p ∈ pairs -> q ∈ pairs ->
     HasPrefix s p.1 = true -> HasPrefix s q.1 = true -> p = q) ->
  Replace pairs s = Replace pairs' s.
Proof.
  intros Hperm Huniq. unfold Replace. generalize (S (String.length s)) as n. intros n.
  revert s. induction n as [|n IH]; intros s; cbn [replacer_go]; [done|].
  rewrite (first_match_perm pairs pairs') by eauto.
  destruct (first_match pairs' s) as [[old new]|]; [by rewrite IH|].
  destruct s as [|a s]; [done|]. by rewrite IH.
Qed.

(** ** [strings.TrimSpace] *)

Definition ascii_space (a : ascii) : bool :=
  let n := N_of_ascii a in (9 <=? n)%N && (n <=? 13)%N || (n =? 32)%N.

Definition byte_is (n : N) (a : ascii) : bool := (N_of_ascii a =? n)%N.

(** The two- and three-byte encodings of the runes [unicode.IsSpace] accepts beyond
    ASCII: U+0085, U+00A0, U+1680, U+2000-U+200A, U+2028, U+2029, U+202F, U+205F,
    U+3000. *)
Definition space2 (a b : ascii) : bool :=
  byte_is 194 a && (byte_is 133 b || byte_is 160 b).

Definition space3 (a b c : ascii) : bool :=
  let n := N_of_ascii c in
  byte_is 225 a && byte_is 154 b && (n =? 128)%N ||
  byte_is 226 a && byte_is 128 b &&
    ((128 <=? n)%N && (n <=? 138)%N || (n =? 168)%N || (n =? 169)%N || (n =? 175)%N) ||
  byte_is 226 a && byte_is 129 b && (n =? 159)%N ||
  byte_is 227 a && byte_is 128 b && (n =? 128)%N.

(** One leading white-space rune, dropped. *)
Definition strip_space (l : list ascii) : option (list ascii) :=
  match l with
  | a :: l1 =>
      if ascii_space a then Some l1 else
      match l1 with
      | b :: l2 =>
          if space2 a b then Some l2 else
          match l2 with
          | c :: l3 => if space3 a b c then Some l3 else None
          | [] => None
          end
      | [] => None
      end
  | [] => None
  end.

(** One trailing white-space rune, dropped, on the reversed bytes. *)
Definition strip_space_rev (l : list ascii) : option (list ascii) :=
  match l with
  | c :: l1 =>
      if ascii_space c then Some l1 else
      match l1 with
      | b :: l2 =>
          if space2 b c then Some l2 else
          match l2 with
          | a :: l3 => if space3 a b c then Some l3 else None
          | [] => None
          end
      | [] => None
      end
  | [] => None
  end.

Fixpoint strip_all (fuel : nat) (strip : list ascii -> option (list ascii)) (l : list ascii)
    : list ascii :=
  match fuel with
  | O => l
  | S fuel' => match strip l with Some l' => strip_all fuel' strip l' | None => l end
  end.

Definition TrimSpace (s : string) : string :=
  let l := bytes s in
  let l := strip_all (length l) strip_space l in
  let r := strip_all (length l) strip_space_rev (reverse l) in
  String.string_of_list_ascii (reverse r).

(** [strings.TrimSpace(s) == ""]. *)
Definition blank (s : string) : bool := bool_decide (TrimSpace s = "").

Example TrimSpace_ex1 : TrimSpace "  a b
 " = "a b".
Proof. reflexivity. Qed.

Lemma blank_nil : blank "" = true.
Proof. reflexivity. Qed.

(** [strings.ToLower] on ASCII; other bytes are kept. *)
Definition lower_byte (c : ascii) : ascii :=
  let n := N_of_ascii c in if ((65 <=? n) && (n <=? 90))%N then ascii_of_N (n + 32) else c.

Fixpoint ToLower (s : string) : string :=
  match s with
  | EmptyString => EmptyString
  | String c s' => String (lower_byte c) (ToLower s')
  end.
