(* ===== verification/Regex.v ===== *)
(** * Regular expressions

    A deep embedding of the fragment of Go's [regexp] syntax that Cicada's name patterns
    use (byte classes, concatenation, alternation, [*]), its matching relation and an
    executable matcher by derivatives.  Every pattern in Cicada is anchored, so
    [MatchString] is whole-string matching. *)

From S2P Require Import Prelude GoStrings.

Inductive regex : Type :=
  | Empty                      (* matches nothing *)
  | Eps                        (* matches the empty string *)
  | Class (f : ascii -> bool)  (* one byte of a class *)
  | Cat (r s : regex)
  | Alt (r s : regex)
  | Star (r : regex).

(** [r+] and [r?]. *)
Definition Plus (r : regex) : regex := Cat r (Star r).
Definition Opt (r : regex) : regex := Alt r Eps.
Definition Byte (a : ascii) : regex := Class (fun b => bool_decide (a = b)).

(** ** Meaning *)

Inductive matches : regex -> list ascii -> Prop :=
  | m_eps : matches Eps []
  | m_class f a : f a = true -> matches (Class f) [a]
  | m_cat r s l k : matches r l -> matches s k -> matches (Cat r s) (l ++ k)
  | m_alt_l r s l : matches r l -> matches (Alt r s) l
  | m_alt_r r s l : matches s l -> matches (Alt r s) l
  | m_star_nil r : matches (Star r) []
  | m_star_app r l k : matches r l -> matches (Star r) k -> matches (Star r) (l ++ k).

#[export] Hint Constructors matches : regex.

(** ** Derivatives *)

Fixpoint nullable (r : regex) : bool :=
  match r with
  | Empty | Class _ => false
  | Eps | Star _ => true
  | Cat r s => nullable r && nullable s
  | Alt r s => nullable r || nullable s
  end.

Fixpoint deriv (a : ascii) (r : regex) : regex :=
  match r with
  | Empty | Eps => Empty
  | Class f => if f a then Eps else Empty
  | Cat r s => if nullable r then Alt (Cat (deriv a r) s) (deriv a s) else Cat (deriv a r) s
  | Alt r s => Alt (deriv a r) (deriv a s)
  | Star r => Cat (deriv a r) (Star r)
  end.

(** [re.MatchString(s)] for an anchored [re]. *)
Definition MatchString (r : regex) (s : string) : bool :=
  nullable (foldl (fun r a => deriv a r) r (bytes s)).

(** ** Correctness of the matcher *)

Ltac inv_match :=
  repeat match goal with
  | H : matches Empty _ |- _ => inversion H
  | H : matches Eps _ |- _ => inversion H; clear H; subst
  | H : matches (Class _) _ |- _ => inversion H; clear H; subst
  | H : matches (Cat _ _) _ |- _ => inversion H; clear H; subst
  | H : matches (Alt _ _) _ |- _ => inversion H; clear H; subst
  end.

Lemma nullable_spec r : nullable r = true <-> matches r [].
Proof.
  induction r as [| |f|r IHr s IHs|r IHr s IHs|r IHr]; cbn.
  - split; [done|]. intros. inv_match.
  - split; auto with regex.
  - split; [done|]. intros. inv_match.
  - rewrite andb_true_iff, IHr, IHs. split.
    + intros [? ?]. by apply (m_cat r s [] []).
    + intros H. inversion H as [| |? ? l k ? ? E1 E2| | | |]; subst.
      apply app_nil in E2 as [-> ->]. done.
  - rewrite orb_true_iff, IHr, IHs. split; [naive_solver eauto with regex|].
    intros. inv_match; auto.
  - split; auto with regex.
Qed.

(** A non-empty match of [r*] starts with a non-empty match of [r]. *)
Lemma star_cons r a l :
  matches (Star r) (a :: l) ->
  exists l1 l2, l = l1 ++ l2 /\ matches r (a :: l1) /\ matches (Star r) l2.
Proof.
  remember (Star r) as R eqn:ER. remember (a :: l) as w eqn:Ew. intros H. revert r a l ER Ew.
  induction H as [| | | | | |r0 l1 k H1 _ H2 IH2]; intros r' x l' ER Ew; simplify_eq.
  destruct l1 as [|b l1]; cbn in Ew; simplify_eq.
  - by apply IH2.
  - eauto.
Qed.

Lemma deriv_spec a r l : matches (deriv a r) l <-> matches r (a :: l).
Proof.
  revert l. induction r as [| |f|r IHr s IHs|r IHr s IHs|r IHr]; intros l; cbn.
  - split; intros; inv_match.
  - split; intros; inv_match.
  - destruct (f a) eqn:Hf; split; intros; inv_match; auto with regex. congruence.
  - assert (matches (Cat (deriv a r) s) l <->
        exists l1 l2, l = l1 ++ l2 /\ matches r (a :: l1) /\ matches s l2) as Hcat.
    { split.
      - intros. inv_match. do 2 eexists. split_and!; [done| |done]. by apply IHr.
      - intros (l1 & l2 & -> & H1 & H2). apply m_cat; [by apply IHr|done]. }
    assert (matches (Cat r s) (a :: l) <->
        (exists l1 l2, l = l1 ++ l2 /\ matches r (a :: l1) /\ matches s l2) \/
        matches r [] /\ matches s (a :: l)) as ->.
    { split.
      - intros H. inversion H as [| |? ? l0 k H1 H2 E1 E2| | | |]; subst.
        destruct l0 as [|b l0]; cbn in E2; simplify_eq; eauto 10.
      - intros [(l1 & l2 & -> & H1 & H2)|[H1 H2]].
        + by apply (m_cat r s (a :: l1) l2).
        + by apply (m_cat r s [] (a :: l)). }
    destruct (nullable r) eqn:Hn.
    + apply nullable_spec in Hn. rewrite <- Hcat, <- IHs. split.
      * intros H. inversion H; subst; auto.
      * intros [H|[_ H]]; auto with regex.
    + rewrite Hcat. split; [auto|]. intros [H|[H _]]; [done|].
      apply nullable_spec in H. congruence.
  - split.
    + intros H. inversion H; subst; [apply m_alt_l, IHr|apply m_alt_r, IHs]; done.
    + intros H. inversion H; subst; [apply m_alt_l, IHr|apply m_alt_r, IHs]; done.
  - split.
    + intros H. inv_match. apply (m_star_app r (a :: _)); [by apply IHr|done].
    + intros (l1 & l2 & -> & H1 & H2)%star_cons. apply m_cat; [by apply IHr|done].
Qed.

(** The matcher decides the matching relation. *)
Lemma MatchString_spec r s : MatchString r s = true <-> matches r (bytes s).
Proof.
  unfold MatchString. generalize (bytes s) as l. clear s. intros l. revert r.
  induction l as [|a l IH]; intros r; cbn.
  - apply nullable_spec.
  - by rewrite IH, deriv_spec.
Qed.

(** ** Derived forms *)

Lemma matches_star_class f l : matches (Star (Class f)) l <-> Forall (fun a => f a = true) l.
Proof.
  induction l as [|a l IH].
  - split; [constructor|auto with regex].
  - rewrite Forall_cons, <- IH. split.
    + intros (l1 & l2 & -> & H1 & H2)%star_cons. inversion H1; subst. done.
    + intros [Ha Hl]. apply (m_star_app _ [a]); auto with regex.
Qed.

Lemma matches_plus_class f l :
  matches (Plus (Class f)) l <-> l <> [] /\ Forall (fun a => f a = true) l.
Proof.
  unfold Plus. split.
  - intros H. inversion H as [| |? ? l1 l2 H1 H2| | | |]; subst. inversion H1; subst.
    apply matches_star_class in H2. split; [done|]. by constructor.
  - intros [Hne Hl]. destruct l as [|a l]; [done|]. apply Forall_cons in Hl as [Ha Hl].
    apply (m_cat _ _ [a]); [auto with regex|]. by apply matches_star_class.
Qed.

Lemma matches_opt r l : matches (Opt r) l <-> matches r l \/ l = [].
Proof.
  unfold Opt. split.
  - intros. inv_match; auto.
  - intros [?| ->]; auto with regex.
Qed.

Lemma matches_byte a l : matches (Byte a) l <-> l = [a].
Proof.
  unfold Byte. split.
  - intros. inv_match. rewrite bool_decide_eq_true in *. by subst.
  - intros ->. apply m_class. by rewrite bool_decide_eq_true.
Qed.

Lemma matches_cat r s l :
  matches (Cat r s) l <-> exists l1 l2, l = l1 ++ l2 /\ matches r l1 /\ matches s l2.
Proof.
  split.
  - intros H. inversion H; subst. eauto.
  - intros (? & ? & -> & ? & ?). auto with regex.
Qed.

(** ** Byte classes *)

Definition in_range (lo hi : N) (a : ascii) : bool :=
  let n := N_of_ascii a in (lo <=? n)%N && (n <=? hi)%N.

(** [[a-z]], [[A-Z]], [[0-9]]. *)
Definition is_lower : ascii -> bool := in_range 97 122.
Definition is_upper : ascii -> bool := in_range 65 90.
Definition is_digit : ascii -> bool := in_range 48 57.
Definition is_one_of (s : string) (a : ascii) : bool := bool_decide (a ∈ bytes s).
Definition is_alnum (a : ascii) : bool := is_lower a || is_upper a || is_digit a.
