(* ===== verification/Conditional.v ===== *)
(** * Package conditional: [when] conditions

    [pkg/conditional] wraps the third-party library cel-go.  The library is the class
    [CEL] below: abstract types for its environments, syntax trees, programs and values,
    and one operation per function Cicada calls.  Everything Cicada does around those
    calls - declaring the environment, validating an expression, caching the parse tree,
    choosing static or deferred evaluation - is defined here from the source. *)

From S2P Require Import Prelude Errors.

(** ** The interface of cel-go *)

Inductive CelType : Set := StringType | BoolType | OtherType.

#[export] Instance CelType_eq_dec : EqDecision CelType.
Proof. solve_decision. Defined.

(** What [ast.PostOrderVisit] shows of a node: whether [Kind() == CallKind], and the
    [FunctionName()] of a call. *)
Inductive AstNode : Set :=
  | CallNode (FunctionName : string)
  | OtherNode.

(** [ref.Val]: values, with the type assertions Cicada performs on [Value()]. *)
Class CelVal : Type := {
  Val : Type;
  types_String : string -> Val;
  as_string : Val -> option string;
  as_bool : Val -> option bool
}.

Inductive OverloadOpt `{CelVal} : Type :=
  | UnaryBinding (f : Val -> Val)
  | BinaryBinding (f : Val -> Val -> Val).

Inductive EnvOption `{CelVal} : Type :=
  | Variable_ (name : string) (t : CelType)
  | Function_ (name overload : string) (args : list CelType) (ret : CelType)
      (opts : list OverloadOpt).

Class CEL : Type := {
  cel_val :: CelVal;
  Env : Type;
  Ast : Type;
  Program : Type;
  NewEnv : list EnvOption -> result Env;
  Parse : Env -> string -> result Ast;
  Check_ : Env -> Ast -> result Ast;
  Compile : Env -> string -> result Ast;
  OutputType : Ast -> CelType;
  (** [checked.NativeRep()]: nil, or the nodes of its expression in post-order. *)
  NativeRep : Ast -> option (list AstNode);
  NewProgram : Env -> Ast -> result Program;
  Eval_ : Program -> gmap string string -> result Val
}.

(** ** Data *)

(** [When].  The unexported [parsed *cel.Ast] caches [env.Parse(text)]; parsing is a
    function of the text, so the cache is modelled by the text that was parsed. *)
Module When.
Record t := mk {
  Expression : string;
  Deferred : bool;
  parsed : option string
}.
#[global] Instance settable : Settable t := fun r => mk (Expression r) (Deferred r) (parsed r).
#[global] Instance eq_dec : EqDecision t.
Proof. solve_decision. Defined.
End When.

(** [Context]; a nil map behaves as the empty one because it is only read. *)
Module Context.
Record t := mk {
  Getenv : option (string -> string);
  Branch : string;
  Tag : string;
  PipelineEnv : gmap string string;
  Matrix : gmap string string
}.
#[global] Instance settable : Settable t :=
  fun r => mk (Getenv r) (Branch r) (Tag r) (PipelineEnv r) (Matrix r).
End Context.

(** [m[k]] on a Go map of strings: the zero value when the key is absent. *)
Definition map_get (m : gmap string string) (k : string) : string := default "" (m !! k).

Section conditional.
Context `{cel : CEL}.

(** ** cel.go *)

(** [celBindings]: a nil slice declares the overload without behaviour. *)
Record celBindings : Type := CelBindings {
  b_env : list OverloadOpt;
  b_hostEnv : list OverloadOpt;
  b_output : list OverloadOpt;
  b_matrix : list OverloadOpt
}.

Definition newCELEnv (b : celBindings) : result Env :=
  NewEnv [
    Variable_ "branch" StringType;
    Variable_ "tag" StringType;
    Function_ "env" "env_string" [StringType] StringType (b_env b);
    Function_ "hostEnv" "host_env_string" [StringType] StringType (b_hostEnv b);
    Function_ "output" "output_string_string" [StringType; StringType] StringType (b_output b);
    Function_ "matrix" "matrix_string" [StringType] StringType (b_matrix b)
  ].

Definition refToString (v : Val) : string := default "" (as_string v).

Definition contextBindings (ctx : Context.t) : celBindings := {|
  b_env := [UnaryBinding (fun val => types_String (map_get (Context.PipelineEnv ctx) (refToString val)))];
  b_hostEnv := [UnaryBinding (fun val =>
    match Context.Getenv ctx with
    | None => types_String ""
    | Some getenv => types_String (getenv (refToString val))
    end)];
  b_output := [];
  b_matrix := [UnaryBinding (fun val => types_String (map_get (Context.Matrix ctx) (refToString val)))]
|}.

Definition newValidationCELEnv : result Env := newCELEnv (CelBindings [] [] [] []).

Definition with_output (b : celBindings) (o : list OverloadOpt) : celBindings :=
  CelBindings (b_env b) (b_hostEnv b) o (b_matrix b).

Definition newStaticCELEnv (ctx : Context.t) : result Env :=
  newCELEnv (with_output (contextBindings ctx) [BinaryBinding (fun _ _ => types_String "")]).

Definition newDeferredCELEnv (ctx : Context.t) (depOutputs : gmap string (gmap string string))
    : result Env :=
  newCELEnv (with_output (contextBindings ctx) [BinaryBinding (fun jobVal keyVal =>
    let job := refToString jobVal in
    let key := refToString keyVal in
    match depOutputs !! job with
    | Some outputs => types_String (map_get outputs key)
    | None => types_String ""
    end)]).

(** The visitor keeps a [found] flag and ignores the nodes after the first hit. *)
Definition astReferencesOutput (checked : option (list AstNode)) : bool :=
  match checked with
  | None => false
  | Some nodes =>
      foldl (fun found e =>
        if (found : bool) then found else
        match e with
        | CallNode name => if decide (name = "output") then true else found
        | OtherNode => found
        end) false nodes
  end.

(** ** when.go *)

(** The result carries the parsed tree as its text (see [When.parsed]). *)
Definition parseAndValidate (expr : string) : result (string * bool) :=
  env ← map_err (errorf []) newValidationCELEnv;
  parsed ← map_err (errorf2 [] (Cond ErrInvalidWhenExpr)) (Parse env expr);
  checked ← map_err (errorf2 [] (Cond ErrInvalidWhenExpr)) (Check_ env parsed);
  if decide (OutputType checked = BoolType)
  then Ok (expr, astReferencesOutput (NativeRep checked))
  else fail_with [] (Cond ErrWhenNotBool).

Definition NewWhen (expr : string) : result When.t :=
  '(parsed, deferred) ← parseAndValidate expr;
  Ok (When.mk expr deferred (Some parsed)).

Definition ValidateWhenExpr (expr : string) : result bool :=
  '(_, deferred) ← parseAndValidate expr;
  Ok deferred.

Definition InvalidateAST (w : When.t) : When.t := w <| When.parsed := None |>.

(** [(w *When) Validate]: on success the receiver is updated in place. *)
Definition Validate (w : When.t) : result When.t :=
  '(parsed, deferred) ← parseAndValidate (When.Expression w);
  Ok (w <| When.parsed := Some parsed |> <| When.Deferred := deferred |>).

(** The tree a cached [parsed] pointer denotes. *)
Definition ast_of (text : string) : result Ast :=
  env ← newValidationCELEnv; Parse env text.

Definition evalExpr (env : Env) (expr : string) (ctx : Context.t) (parsed : option string)
    : result bool :=
  compiled ←
    match parsed with
    | Some text => tree ← ast_of text;
        map_err (errorf2 [] (Cond ErrInvalidWhenExpr)) (Check_ env tree)
    | None => map_err (errorf2 [] (Cond ErrInvalidWhenExpr)) (Compile env expr)
    end;
  prg ← map_err (errorf []) (NewProgram env compiled);
  out ← map_err (errorf [expr])
          (Eval_ prg (<["branch" := Context.Branch ctx]> (<["tag" := Context.Tag ctx]> ∅)));
  match as_bool out with
  | Some b => Ok b
  | None => fail_with [] (Cond ErrWhenNotBool)
  end.

Definition Evaluate (w : When.t) (ctx : Context.t) : result bool :=
  if When.Deferred w then Fail (raise (Cond ErrDeferredEvaluate)) else
  env ← map_err (errorf []) (newStaticCELEnv ctx);
  evalExpr env (When.Expression w) ctx (When.parsed w).

Definition EvaluateDeferred (w : When.t) (ctx : Context.t)
    (depOutputs : gmap string (gmap string string)) : result bool :=
  if negb (When.Deferred w) then Fail (raise (Cond ErrNotDeferredEvaluate)) else
  env ← map_err (errorf []) (newDeferredCELEnv ctx depOutputs);
  evalExpr env (When.Expression w) ctx (When.parsed w).
End conditional.

(** ** What Cicada relies on in cel-go

    [Compile] is documented as parsing followed by checking, and parsing does not depend
    on the declarations of the environment. *)
Class CelLaws (cel : CEL) : Prop := {
  compile_parse_check : forall env text, Compile env text = (tree ← Parse env text; Check_ env tree);
  parse_env : forall env env' text, Parse env text = Parse env' text
}.

Section conditional_props.
Context `{cel : CEL}.

(** [expr] is a valid condition of the given kind. *)
Definition valid_expr (expr : string) (deferred : bool) : Prop :=
  exists text, parseAndValidate expr = Ok (text, deferred).

(** A condition whose cache and [Deferred] flag agree with its text. *)
Definition coherent (w : When.t) : Prop :=
  valid_expr (When.Expression w) (When.Deferred w) /\
  (When.parsed w = None \/ When.parsed w = Some (When.Expression w)).

Lemma parseAndValidate_text expr text d : parseAndValidate expr = Ok (text, d) -> text = expr.
Proof.
  unfold parseAndValidate. intros H. inv_ok. case_decide; inv_res. done.
Qed.

Lemma valid_expr_det expr d d' : valid_expr expr d -> valid_expr expr d' -> d = d'.
Proof. intros [? H] [? H']. congruence. Qed.

Lemma Validate_Ok w w' :
  Validate w = Ok w' <->
  exists d, valid_expr (When.Expression w) d /\
    w' = When.mk (When.Expression w) d (Some (When.Expression w)).
Proof.
  unfold Validate, valid_expr. rewrite bind_Ok. split.
  - intros ([text d] & Hp & [= <-]).
    pose proof (parseAndValidate_text _ _ _ Hp) as ->. exists d. split; [eauto|].
    by destruct w.
  - intros (d & [text Hp] & ->). exists (text, d). split; [done|].
    pose proof (parseAndValidate_text _ _ _ Hp) as ->. by destruct w.
Qed.

Lemma Validate_coherent w w' : Validate w = Ok w' -> coherent w'.
Proof. intros (d & Hd & ->)%Validate_Ok. split; [done|by right]. Qed.

Lemma NewWhen_Ok expr w :
  NewWhen expr = Ok w <->
  exists d, valid_expr expr d /\ w = When.mk expr d (Some expr).
Proof.
  unfold NewWhen, valid_expr. rewrite bind_Ok. split.
  - intros ([text d] & Hp & [= <-]).
    pose proof (parseAndValidate_text _ _ _ Hp) as ->. eauto.
  - intros (d & [text Hp] & ->). exists (text, d). split; [done|].
    by pose proof (parseAndValidate_text _ _ _ Hp) as ->.
Qed.

Lemma astReferencesOutput_spec nodes :
  astReferencesOutput (Some nodes) = true <-> CallNode "output" ∈ nodes.
Proof.
  unfold astReferencesOutput.
  assert (forall b, foldl (fun found e =>
      if (found : bool) then found else
      match e with
      | CallNode name => if decide (name = "output") then true else found
      | OtherNode => found
      end) b nodes = true <-> b = true \/ CallNode "output" ∈ nodes) as Hgen; [|rewrite Hgen; naive_solver].
  induction nodes as [|n nodes IH]; intros b; cbn; [set_solver|].
  rewrite IH, elem_of_cons. destruct b, n as [name|]; try case_decide; naive_solver.
Qed.

Context {laws : CelLaws cel}.

(** Dropping the cached tree of a coherent condition does not change what evaluation
    returns, whatever the environment. *)
Lemma evalExpr_cache env expr d ctx :
  valid_expr expr d -> evalExpr env expr ctx (Some expr) = evalExpr env expr ctx None.
Proof.
  intros [text Hv]. unfold evalExpr. f_equal.
  unfold parseAndValidate in Hv. inv_ok.
  match goal with H : newValidationCELEnv = Ok ?v |- _ =>
    unfold ast_of; rewrite H; rename v into venv end.
  match goal with H : Parse venv expr = Ok ?t |- _ => rename t into tree; rename H into Hp end.
  cbn. rewrite compile_parse_check, (parse_env env venv), Hp. done.
Qed.

(** A checked tree of the validation environment. *)
Definition checked_tree (expr : string) (checked : Ast) : Prop :=
  exists env tree, newValidationCELEnv = Ok env /\ Parse env expr = Ok tree /\
    Check_ env tree = Ok checked.

(** Whether a checked tree calls [output()] somewhere. *)
Definition calls_output (checked : Ast) : Prop :=
  exists nodes, NativeRep checked = Some nodes /\ CallNode "output" ∈ nodes.

Lemma astReferencesOutput_calls checked :
  astReferencesOutput (NativeRep checked) = true <-> calls_output checked.
Proof.
  unfold calls_output. destruct (NativeRep checked) as [nodes|].
  - rewrite astReferencesOutput_spec. naive_solver.
  - split; [done|]. by intros (? & ? & _).
Qed.

(** C38: [NewWhen] accepts exactly the expressions that parse, check and have type bool; the
    condition it returns is deferred exactly when the checked tree calls [output()], and
    [Validate], on a condition built by hand with the same text, computes the same
    condition. *)
Theorem NewWhen_spec expr :
  (is_ok (NewWhen expr) = true <->
   exists checked, checked_tree expr checked /\ OutputType checked = BoolType) /\
  (forall w, NewWhen expr = Ok w ->
     When.Expression w = expr /\
     (forall checked, checked_tree expr checked ->
        (When.Deferred w = true <-> calls_output checked)) /\
     (forall d p, Validate (When.mk expr d p) = Ok w)).
Proof.
  split.
  - rewrite is_ok_true. split.
    + intros (w & H). unfold NewWhen, parseAndValidate in H. inv_ok. case_decide; inv_res.
      eexists. split; [|done]. eexists _, _. eauto.
    + intros (checked & (env & tree & He & Hp & Hc) & Ht).
      unfold NewWhen, parseAndValidate. rewrite He. cbn. rewrite Hp. cbn. rewrite Hc. cbn.
      rewrite decide_True by done. cbn. eauto.
  - intros w H. pose proof H as H'. unfold NewWhen in H. inv_ok. destruct x as [text d]. inv_ok.
    match goal with Hp : parseAndValidate _ = _ |- _ => pose proof (parseAndValidate_text _ _ _ Hp) as ->; rename Hp into Hpv end.
    split_and!; [done| |].
    + intros checked (env & tree & He & Hp & Hc). cbn. rewrite <- astReferencesOutput_calls.
      unfold parseAndValidate in Hpv. rewrite He in Hpv. cbn in Hpv. rewrite Hp in Hpv. cbn in Hpv.
      rewrite Hc in Hpv. cbn in Hpv. case_decide; [|done]. injection Hpv as <-. done.
    + intros d' p'. unfold Validate. cbn. rewrite Hpv. done.
Qed.

(** On a coherent condition (built by [NewWhen] or [Validate]) the cached tree is only
    an optimisation: [InvalidateAST] changes the result of neither evaluator; and exactly
    one of the two evaluators refuses the condition for its kind, the deferred one for a
    static condition and the static one for a deferred condition. *)
Theorem Evaluate_cache w ctx outs (Hw : coherent w) :
  Evaluate (InvalidateAST w) ctx = Evaluate w ctx /\
  EvaluateDeferred (InvalidateAST w) ctx outs = EvaluateDeferred w ctx outs /\
  (if When.Deferred w
   then Evaluate w ctx = Fail (raise (Cond ErrDeferredEvaluate))
   else EvaluateDeferred w ctx outs = Fail (raise (Cond ErrNotDeferredEvaluate))).
Proof.
  destruct w as [expr d p], Hw as [[text Hv] Hp]. cbn in *.
  assert (forall env, evalExpr env expr ctx None = evalExpr env expr ctx p) as Heq.
  { intros env. destruct Hp as [->| ->]; [done|]. symmetry.
    apply (evalExpr_cache env expr d ctx). by exists text. }
  unfold Evaluate, EvaluateDeferred, InvalidateAST. cbn.
  destruct d; cbn; split_and!; try done.
  - destruct (map_err _ (newDeferredCELEnv _ _)); cbn; [apply Heq|done].
  - destruct (map_err _ (newStaticCELEnv _)); cbn; [apply Heq|done].
Qed.
End conditional_props.

(** ** A small instance of the interface

    A three-word language, enough to evaluate concrete pipelines: two constants and one
    condition that compares an output of a dependency with ["1"]. *)

Section example.

#[local] Instance ex_val : CelVal := {|
  Val := string + bool;
  types_String := inl;
  as_string := fun v => match v with inl s => Some s | inr _ => None end;
  as_bool := fun v => match v with inr b => Some b | inl _ => None end
|}.

Definition ex_parse (text : string) : result string :=
  if decide (text ∈ ["true"; "false"; "out"]) then Ok text else fail_with [] (Foreign "parse").

Definition ex_output (env : list EnvOption) : Val :=
  default (inl "") (
    o ← list_find (fun o => match o with Function_ "output" _ _ _ _ => true | _ => false end = true) env;
    match o.2 with
    | Function_ _ _ _ _ (BinaryBinding f :: _) => Some (f (inl "dep") (inl "key"))
    | _ => None
    end).

Definition ex_eval (env : list EnvOption) (text : string) : result Val :=
  if decide (text = "out") then
    Ok (inr (match ex_output env with inl s => bool_decide (s = "1") | inr _ => false end))
  else Ok (inr (bool_decide (text = "true"))).

Definition ex_cel : CEL := {|
  Env := list EnvOption;
  Ast := string;
  Program := list EnvOption * string;
  NewEnv := Ok;
  Parse := fun _ => ex_parse;
  Check_ := fun _ => Ok;
  Compile := fun _ => ex_parse;
  OutputType := fun _ => BoolType;
  NativeRep := fun a => Some (if decide (a = "out") then [CallNode "output"] else []);
  NewProgram := fun env a => Ok (env, a);
  Eval_ := fun p _ => ex_eval p.1 p.2
|}.

Lemma ex_cel_laws : CelLaws ex_cel.
Proof. split; [|done]. intros env text. cbn. by destruct (ex_parse text). Qed.
End example.

Lemma Evaluate_cache_witness :
  coherent (cel := ex_cel) (When.mk "out" true (Some "out")) /\
  Evaluate (cel := ex_cel) (When.mk "out" true (Some "out")) (Context.mk None "main" "" ∅ ∅)
    = Fail (raise (Cond ErrDeferredEvaluate)).
Proof.
  assert (coherent (cel := ex_cel) (When.mk "out" true (Some "out"))) as H.
  { split; [|by right]. exists "out". vm_compute. reflexivity. }
  split; [exact H|].
  exact (proj2 (proj2 (Evaluate_cache (cel := ex_cel) (laws := ex_cel_laws) _
    (Context.mk None "main" "" ∅ ∅) ∅ H))).
Defined.
