(* ===== verification/Model.v ===== *)
(** * Package pipelinemodel: the data of a pipeline

    One record per Go struct, in a module of the struct's name so that fields keep their
    names.  Slices are lists; a slice whose nil-ness the code observes ([Shell]) and
    pointers are options; [time.Duration] is its count of nanoseconds in [Z]; Go's [int]
    is [Z] with wrap-around where overflow can matter. *)

From S2P Require Import Prelude Errors Conditional.

(** ** Types *)

Inductive BackoffStrategy : Set :=
  | BackoffUnset | BackoffNone | BackoffLinear | BackoffExponential
  | BackoffOther (s : string).

Module Retry.
Record t := mk { Attempts : Z; Delay : Z; Backoff : BackoffStrategy }.
#[global] Instance settable : Settable t := fun r => mk (Attempts r) (Delay r) (Backoff r).
End Retry.

Inductive ConflictStrategy : Set := ConflictError | ConflictSkip.

Module ParamDef.
Record t := mk { Name : string; Default : string; Required : bool }.
End ParamDef.

Module Dimension.
Record t := mk { Name : string; Values : list string }.
#[global] Instance settable : Settable t := fun r => mk (Name r) (Values r).
End Dimension.

Module Matrix.
Record t := mk { Dimensions : list Dimension.t }.
#[global] Instance settable : Settable t := fun r => mk (Dimensions r).
End Matrix.

Module EnvVar.
Record t := mk { Key : string; Value : string }.
#[global] Instance settable : Settable t := fun r => mk (Key r) (Value r).
End EnvVar.

Module Export_.
Record t := mk { Path : string; Local : string }.
#[global] Instance settable : Settable t := fun r => mk (Path r) (Local r).
End Export_.

Module Artifact.
Record t := mk { From : string; Source : string; Target : string }.
#[global] Instance settable : Settable t := fun r => mk (From r) (Source r) (Target r).
End Artifact.

Module Mount.
Record t := mk { Source : string; Target : string; ReadOnly : bool }.
#[global] Instance settable : Settable t := fun r => mk (Source r) (Target r) (ReadOnly r).
End Mount.

Module Cache.
Record t := mk { ID : string; Target : string }.
#[global] Instance settable : Settable t := fun r => mk (ID r) (Target r).
End Cache.

Module Publish.
Record t := mk { Image : string; Push : bool; Insecure : bool }.
#[global] Instance settable : Settable t := fun r => mk (Image r) (Push r) (Insecure r).
End Publish.

Module Defaults.
Record t := mk {
  Image : string;
  Workdir : string;
  Mounts : list Mount.t;
  Env : list EnvVar.t;
  Shell : option (list string)
}.
#[global] Instance settable : Settable t :=
  fun r => mk (Image r) (Workdir r) (Mounts r) (Env r) (Shell r).
End Defaults.

(** [SecretSource] is a Go string type; other values are rejected by validation. *)
Inductive SecretSource : Set :=
  | SecretSourceHostEnv | SecretSourceFile | SecretSourceCmd
  | SecretSourceOther (s : string).
#[export] Instance SecretSource_eq_dec : EqDecision SecretSource.
Proof. solve_decision. Defined.

Module SecretDecl.
Record t := mk {
  Name : string;
  Source : SecretSource;
  Var : string;
  Path : string;
  Cmd : string
}.
#[global] Instance settable : Settable t :=
  fun r => mk (Name r) (Source r) (Var r) (Path r) (Cmd r).
End SecretDecl.

Module SecretRef.
Record t := mk { Name : string; Env : string; Mount : string }.
#[global] Instance settable : Settable t := fun r => mk (Name r) (Env r) (Mount r).
End SecretRef.

Module Step.
Record t := mk {
  Name : string;
  Run : list string;
  Env : list EnvVar.t;
  Workdir : string;
  Mounts : list Mount.t;
  Caches : list Cache.t;
  Secrets : list SecretRef.t;
  Exports : list Export_.t;
  Artifacts : list Artifact.t;
  When : option When.t;
  NoCache : bool;
  Timeout : Z;
  Shell : option (list string);
  Retry : option Retry.t;
  AllowFailure : bool
}.
#[global] Instance settable : Settable t :=
  fun r => mk (Name r) (Run r) (Env r) (Workdir r) (Mounts r) (Caches r) (Secrets r)
    (Exports r) (Artifacts r) (When r) (NoCache r) (Timeout r) (Shell r) (Retry r)
    (AllowFailure r).
(** [Step{Name: name}]. *)
Definition empty (name : string) : t :=
  mk name [] [] "" [] [] [] [] [] None false 0 None None false.
End Step.

Module Job.
Record t := mk {
  Name : string;
  Image : string;
  Workdir : string;
  Platform : string;
  DependsOn : list string;
  Mounts : list Mount.t;
  Caches : list Cache.t;
  Env : list EnvVar.t;
  Exports : list Export_.t;
  Artifacts : list Artifact.t;
  Secrets : list SecretRef.t;
  Steps : list Step.t;
  When : option When.t;
  Matrix : option Matrix.t;
  MatrixValues : option (gmap string string);
  NoCache : bool;
  Publish : option Publish.t;
  Timeout : Z;
  Retry : option Retry.t;
  Shell : option (list string)
}.
#[global] Instance settable : Settable t :=
  fun r => mk (Name r) (Image r) (Workdir r) (Platform r) (DependsOn r) (Mounts r)
    (Caches r) (Env r) (Exports r) (Artifacts r) (Secrets r) (Steps r) (When r) (Matrix r)
    (MatrixValues r) (NoCache r) (Publish r) (Timeout r) (Retry r) (Shell r).
(** [Job{Name: name}]. *)
Definition empty (name : string) : t :=
  mk name "" "" "" [] [] [] [] [] [] [] [] None None None false None 0 None None.
End Job.

Module Fragment.
Record t := mk { Name : string; Params : list ParamDef.t; Jobs : list Job.t }.
#[global] Instance settable : Settable t := fun r => mk (Name r) (Params r) (Jobs r).
End Fragment.

(** [TopoOrder] is nil until the pipeline is validated. *)
Module Pipeline.
Record t := mk {
  Name : string;
  Jobs : list Job.t;
  Env : list EnvVar.t;
  Secrets : list SecretDecl.t;
  Matrix : option Matrix.t;
  Defaults : option Defaults.t;
  TopoOrder : option (list nat)
}.
#[global] Instance settable : Settable t :=
  fun r => mk (Name r) (Jobs r) (Env r) (Secrets r) (Matrix r) (Defaults r) (TopoOrder r).
End Pipeline.

Module FilterOpts.
Record t := mk { StartAt : string; StopAfter : string }.
End FilterOpts.

Module ConditionResult.
Record t := mk {
  Pipeline : Pipeline.t;
  Skipped : list string;
  SkippedSteps : gmap string (list string)
}.
End ConditionResult.

Module JobGroup.
Record t := mk { Jobs : list Job.t; Origin : string; OnConflict : ConflictStrategy }.
End JobGroup.

#[export] Instance BackoffStrategy_eq_dec : EqDecision BackoffStrategy.
Proof. solve_decision. Defined.
#[export] Instance Retry_eq_dec : EqDecision Retry.t.
Proof. solve_decision. Defined.
#[export] Instance Dimension_eq_dec : EqDecision Dimension.t.
Proof. solve_decision. Defined.
#[export] Instance Matrix_eq_dec : EqDecision Matrix.t.
Proof. solve_decision. Defined.
#[export] Instance EnvVar_eq_dec : EqDecision EnvVar.t.
Proof. solve_decision. Defined.
#[export] Instance Export_eq_dec : EqDecision Export_.t.
Proof. solve_decision. Defined.
#[export] Instance Artifact_eq_dec : EqDecision Artifact.t.
Proof. solve_decision. Defined.
#[export] Instance Mount_eq_dec : EqDecision Mount.t.
Proof. solve_decision. Defined.
#[export] Instance Cache_eq_dec : EqDecision Cache.t.
Proof. solve_decision. Defined.
#[export] Instance Publish_eq_dec : EqDecision Publish.t.
Proof. solve_decision. Defined.
#[export] Instance SecretRef_eq_dec : EqDecision SecretRef.t.
Proof. solve_decision. Defined.
#[export] Instance Step_eq_dec : EqDecision Step.t.
Proof. solve_decision. Defined.
#[export] Instance Job_eq_dec : EqDecision Job.t.
Proof. solve_decision. Defined.

(** ** clone.go

    Values of the model are immutable, so a copy of a slice or a map is the slice or map
    itself; a [Clone] method rebuilds its receiver field by field. *)

Definition slices_Clone {A} (s : list A) : list A := s.
Definition maps_Clone {A} (m : A) : A := m.

Definition Matrix_Clone (m : Matrix.t) : Matrix.t :=
  m <| Matrix.Dimensions :=
    (fun d => d <| Dimension.Values := slices_Clone (Dimension.Values d) |>)
      <$> slices_Clone (Matrix.Dimensions m) |>.

Definition Step_Clone (s : Step.t) : Step.t :=
  s <| Step.Run := slices_Clone (Step.Run s) |>
    <| Step.Env := slices_Clone (Step.Env s) |>
    <| Step.Mounts := slices_Clone (Step.Mounts s) |>
    <| Step.Caches := slices_Clone (Step.Caches s) |>
    <| Step.Secrets := slices_Clone (Step.Secrets s) |>
    <| Step.Exports := slices_Clone (Step.Exports s) |>
    <| Step.Artifacts := slices_Clone (Step.Artifacts s) |>
    <| Step.When := (w ← Step.When s; Some w) |>
    <| Step.Shell := slices_Clone <$> Step.Shell s |>
    <| Step.Retry := (r ← Step.Retry s; Some r) |>.

Definition Job_Clone (j : Job.t) : Job.t :=
  j <| Job.DependsOn := slices_Clone (Job.DependsOn j) |>
    <| Job.Mounts := slices_Clone (Job.Mounts j) |>
    <| Job.Caches := slices_Clone (Job.Caches j) |>
    <| Job.Env := slices_Clone (Job.Env j) |>
    <| Job.Exports := slices_Clone (Job.Exports j) |>
    <| Job.Artifacts := slices_Clone (Job.Artifacts j) |>
    <| Job.Secrets := slices_Clone (Job.Secrets j) |>
    <| Job.Steps := Step_Clone <$> Job.Steps j |>
    <| Job.When := (w ← Job.When j; Some w) |>
    <| Job.Matrix := (m ← Job.Matrix j; Some (Matrix_Clone m)) |>
    <| Job.MatrixValues := maps_Clone (Job.MatrixValues j) |>
    <| Job.Publish := (p ← Job.Publish j; Some p) |>
    <| Job.Retry := (r ← Job.Retry j; Some r) |>
    <| Job.Shell := slices_Clone <$> Job.Shell j |>.

Definition Defaults_Clone (d : Defaults.t) : Defaults.t :=
  d <| Defaults.Mounts := slices_Clone (Defaults.Mounts d) |>
    <| Defaults.Env := slices_Clone (Defaults.Env d) |>
    <| Defaults.Shell := slices_Clone <$> Defaults.Shell d |>.

Definition Pipeline_Clone (p : Pipeline.t) : Pipeline.t :=
  p <| Pipeline.Jobs := Job_Clone <$> Pipeline.Jobs p |>
    <| Pipeline.Env := slices_Clone (Pipeline.Env p) |>
    <| Pipeline.Secrets := slices_Clone (Pipeline.Secrets p) |>
    <| Pipeline.TopoOrder := slices_Clone <$> Pipeline.TopoOrder p |>
    <| Pipeline.Matrix := (m ← Pipeline.Matrix p; Some (Matrix_Clone m)) |>
    <| Pipeline.Defaults := (d ← Pipeline.Defaults p; Some (Defaults_Clone d)) |>.

Lemma option_bind_Some_id {A} (o : option A) : (x ← o; Some x) = o.
Proof. by destruct o. Qed.

Lemma option_slices_Clone {A} (o : option (list A)) : slices_Clone <$> o = o.
Proof. by destruct o. Qed.

Lemma Matrix_Clone_id m : Matrix_Clone m = m.
Proof.
  destruct m as [dims]. unfold Matrix_Clone. cbn. f_equal.
  rewrite <- (list_fmap_id dims) at 2. apply list_fmap_ext. by intros ? [] _.
Qed.

Lemma Step_Clone_id s : Step_Clone s = s.
Proof.
  unfold Step_Clone. cbn. rewrite !option_bind_Some_id, option_slices_Clone. by destruct s.
Qed.

Lemma fmap_Step_Clone (l : list Step.t) : Step_Clone <$> l = l.
Proof. rewrite <- (list_fmap_id l) at 2. apply list_fmap_ext. intros. apply Step_Clone_id. Qed.

Lemma Job_Clone_id j : Job_Clone j = j.
Proof.
  unfold Job_Clone. cbn. rewrite fmap_Step_Clone, !option_bind_Some_id, option_slices_Clone.
  assert ((m ← Job.Matrix j; Some (Matrix_Clone m)) = Job.Matrix j) as ->
    by (destruct (Job.Matrix j); cbn; [by rewrite Matrix_Clone_id|done]).
  by destruct j.
Qed.

Lemma fmap_Job_Clone (l : list Job.t) : Job_Clone <$> l = l.
Proof. rewrite <- (list_fmap_id l) at 2. apply list_fmap_ext. intros. apply Job_Clone_id. Qed.

Lemma Pipeline_Clone_id p : Pipeline_Clone p = p.
Proof.
  unfold Pipeline_Clone. cbn. rewrite fmap_Job_Clone, option_slices_Clone.
  assert ((m ← Pipeline.Matrix p; Some (Matrix_Clone m)) = Pipeline.Matrix p) as ->
    by (destruct (Pipeline.Matrix p); cbn; [by rewrite Matrix_Clone_id|done]).
  assert ((d ← Pipeline.Defaults p; Some (Defaults_Clone d)) = Pipeline.Defaults p) as ->.
  { destruct (Pipeline.Defaults p) as [d|]; cbn; [|done]. f_equal. unfold Defaults_Clone. cbn.
    rewrite option_slices_Clone. by destruct d. }
  by destruct p.
Qed.

#[export] Hint Rewrite Matrix_Clone_id Step_Clone_id Job_Clone_id Pipeline_Clone_id
  fmap_Step_Clone fmap_Job_Clone : cicada.

(** ** [Matrix.Combinations] *)

Definition MaxInt : Z := 2 ^ 63 - 1.

(** The low 64 bits of [x], read as a signed integer. *)
Definition wrap64 (x : Z) : Z := (x + 2 ^ 63) mod 2 ^ 64 - 2 ^ 63.

Lemma wrap64_id x : (- 2 ^ 63 <= x <= MaxInt)%Z -> wrap64 x = x.
Proof. unfold wrap64, MaxInt. intros. rewrite Z.mod_small by lia. lia. Qed.

(** One round of the product: every map so far, extended with every value of [dim]. *)
Definition extend (combos : list (gmap string string)) (dim : Dimension.t)
    : list (gmap string string) :=
  combos ≫= fun combo => (fun val => <[Dimension.Name dim := val]> combo) <$> Dimension.Values dim.

Definition count_step (total : Z) (d : Dimension.t) : result Z :=
  let n := Z.of_nat (length (Dimension.Values d)) in
  if decide (0 < n /\ MaxInt / n < total)%Z then Fail (raise (PM ErrMatrixTooLarge))
  else Ok (wrap64 (total * n)).

Definition Combinations (m : Matrix.t) : result (list (gmap string string)) :=
  match Matrix.Dimensions m with
  | [] => Ok []
  | dims =>
      total ← foldM count_step 1%Z dims;
      Ok (foldl extend [∅] dims)
  end.

(** ** Properties of [Combinations] *)

(** The number of combinations, as an unbounded integer. *)
Definition combo_count (dims : list Dimension.t) : Z :=
  foldr (fun d n => Z.of_nat (length (Dimension.Values d)) * n)%Z 1%Z dims.

(** [combo] picks one value of every dimension and nothing else. *)
Definition is_choice (dims : list Dimension.t) (combo : gmap string string) : Prop :=
  dom combo = list_to_set (Dimension.Name <$> dims) /\
  Forall (fun d => exists v, v ∈ Dimension.Values d /\ combo !! Dimension.Name d = Some v) dims.

Lemma combo_count_nonneg dims : (0 <= combo_count dims)%Z.
Proof. induction dims as [|d dims IH]; cbn; [lia|]. apply Z.mul_nonneg_nonneg; [lia|exact IH]. Qed.

Lemma combo_count_app dims d :
  combo_count (dims ++ [d]) = (combo_count dims * Z.of_nat (length (Dimension.Values d)))%Z.
Proof. induction dims as [|d' dims IH]; cbn; [lia|]. unfold combo_count in IH. rewrite IH. lia. Qed.

Lemma count_step_Ok total d t :
  (0 <= total <= MaxInt)%Z -> count_step total d = Ok t ->
  t = (total * Z.of_nat (length (Dimension.Values d)))%Z /\ (0 <= t <= MaxInt)%Z.
Proof.
  intros Ht. unfold count_step. case_decide as Hc; intros; inv_ok.
  set (n := Z.of_nat (length (Dimension.Values d))) in *.
  assert (0 <= total * n <= MaxInt)%Z as Hb.
  { assert (0 <= n)%Z by lia. clearbody n. split; [nia|].
    destruct (decide (0 < n)%Z) as [Hn|]; [|assert (n = 0)%Z as -> by lia; unfold MaxInt; lia].
    assert (total <= MaxInt / n)%Z by (destruct (decide (MaxInt / n < total)%Z); tauto || lia).
    pose proof (Z.mul_div_le MaxInt n Hn). nia. }
  rewrite wrap64_id by (unfold MaxInt in *; lia). done.
Qed.

Lemma count_step_fits total d :
  (0 <= total)%Z -> (total * Z.of_nat (length (Dimension.Values d)) <= MaxInt)%Z ->
  exists t, count_step total d = Ok t.
Proof.
  intros Ht Hle. unfold count_step. case_decide as Hc; [|eauto]. exfalso.
  set (n := Z.of_nat (length (Dimension.Values d))) in *. destruct Hc as [Hn Hgt].
  pose proof (Z.div_le_lower_bound MaxInt n total ltac:(lia)). nia.
Qed.

Lemma count_loop_Ok total dims t :
  (0 <= total <= MaxInt)%Z -> foldM count_step total dims = Ok t ->
  t = (total * combo_count dims)%Z /\ (0 <= t <= MaxInt)%Z.
Proof.
  revert total. induction dims as [|d dims IH]; intros total Ht; cbn; intros H; inv_ok; [lia|].
  destruct (count_step_Ok total d x) as [-> Hx]; [done..|].
  destruct (IH _ Hx) as [-> ?]; [done|]. unfold combo_count in *. lia.
Qed.

Lemma extend_length combos d :
  length (extend combos d) = length combos * length (Dimension.Values d).
Proof.
  unfold extend. induction combos as [|c cs IH]; cbn; [done|].
  rewrite length_app, length_fmap. f_equal. exact IH.
Qed.

Lemma elem_of_extend combos d c :
  c ∈ extend combos d <->
  exists c0 v, c0 ∈ combos /\ v ∈ Dimension.Values d /\ c = <[Dimension.Name d := v]> c0.
Proof.
  unfold extend. rewrite list_elem_of_bind. setoid_rewrite list_elem_of_fmap. naive_solver.
Qed.

Lemma extend_NoDup combos d :
  NoDup combos -> NoDup (Dimension.Values d) ->
  (forall c, c ∈ combos -> c !! Dimension.Name d = None) ->
  NoDup (extend combos d).
Proof.
  intros Hc Hv. induction combos as [|c cs IH]; intros Hfresh; cbn; [constructor|].
  apply NoDup_cons in Hc as [Hni Hc].
  apply NoDup_app. split_and!.
  - apply NoDup_fmap_2_strong; [|done]. intros v w _ _ Heq.
    apply (f_equal (lookup (Dimension.Name d))) in Heq.
    by rewrite !lookup_insert_eq in Heq; simplify_eq.
  - intros x (v & -> & Hvin)%list_elem_of_fmap Hx.
    apply elem_of_extend in Hx as (c0 & w & Hc0 & _ & Heq).
    assert (c = c0) as ->; [|done].
    rewrite <- (delete_insert_id c (Dimension.Name d) v) by (apply Hfresh; set_solver).
    rewrite Heq. apply delete_insert_id. apply Hfresh; set_solver.
  - apply IH; [done|]. intros. apply Hfresh; set_solver.
Qed.

Lemma product_length dims :
  Z.of_nat (length (foldl extend [∅] dims)) = combo_count dims.
Proof.
  induction dims as [|d dims IH] using rev_ind; [done|].
  rewrite foldl_snoc, extend_length, combo_count_app. lia.
Qed.

Lemma product_choice dims c :
  NoDup (Dimension.Name <$> dims) ->
  c ∈ foldl extend [∅] dims <-> is_choice dims c.
Proof.
  revert c. induction dims as [|d dims IH] using rev_ind; intros c Hnd.
  - cbn. unfold is_choice. cbn. split.
    + intros ->%list_elem_of_singleton. rewrite dom_empty_L. split; [done|constructor].
    + intros [Hd _]. apply dom_empty_inv_L in Hd as ->. set_solver.
  - rewrite foldl_snoc, elem_of_extend. rewrite fmap_app in Hnd.
    apply NoDup_app in Hnd as (Hnd & Hfresh & _).
    assert (Dimension.Name d ∉ Dimension.Name <$> dims) as Hd by (intros Hin; eapply Hfresh; set_solver).
    unfold is_choice. rewrite fmap_app, list_to_set_app_L, Forall_app, Forall_singleton. split.
    + intros (c0 & v & Hc0 & Hv & ->). apply IH in Hc0 as [Hdom HF]; [|done].
      split_and!; [|eapply Forall_impl_strong; [done|]|].
      * rewrite dom_insert_L, Hdom. set_solver.
      * intros d' Hd' (w & Hw & Hl). exists w. split; [done|].
        rewrite lookup_insert_ne; [done|]. intros Heq. apply Hd. rewrite Heq.
        by apply list_elem_of_fmap_2.
      * exists v. by rewrite lookup_insert_eq.
    + intros (Hdom & HF & v & Hv & Hl).
      exists (delete (Dimension.Name d) c), v. split_and!; [|done|by rewrite insert_delete_eq, insert_id].
      apply IH; [done|]. split.
      * rewrite dom_delete_L, Hdom. set_solver.
      * eapply Forall_impl_strong; [done|]. intros d' Hd' (w & Hw & Hlw). exists w.
        split; [done|]. rewrite lookup_delete_ne; [done|]. intros Heq. apply Hd.
        rewrite Heq. by apply list_elem_of_fmap_2.
Qed.

Lemma product_NoDup dims :
  NoDup (Dimension.Name <$> dims) -> Forall (fun d => NoDup (Dimension.Values d)) dims ->
  NoDup (foldl extend [∅] dims).
Proof.
  induction dims as [|d dims IH] using rev_ind; intros Hnd HF; [apply NoDup_singleton|].
  rewrite foldl_snoc. apply Forall_app in HF as [HF Hd]. rewrite Forall_singleton in Hd.
  pose proof Hnd as Hnd'. rewrite fmap_app in Hnd'. apply NoDup_app in Hnd' as (Hnd1 & Hfresh & _).
  apply extend_NoDup; [apply IH; assumption|exact Hd|].
  intros c (Hdom & _)%product_choice; [|done]. apply not_elem_of_dom. rewrite Hdom.
  rewrite elem_of_list_to_set. intros Hin. eapply Hfresh; [done|]. set_solver.
Qed.

(** ** The dependency relation between job names *)

(** Some job called [n] lists [m] among its dependencies. *)
Definition depends (jobs : list Job.t) (n m : string) : Prop :=
  exists j, j ∈ jobs /\ Job.Name j = n /\ m ∈ Job.DependsOn j.

(** Every dependency names a job of the pipeline. *)
Definition deps_closed (jobs : list Job.t) : Prop :=
  forall j dep, j ∈ jobs -> dep ∈ Job.DependsOn j -> dep ∈ Job.Name <$> jobs.

Definition acyclic_jobs (jobs : list Job.t) : Prop := forall n, ~ tc (depends jobs) n n.

(** An order of job indices in which every dependency of a job comes before it. *)
Definition deps_first (jobs : list Job.t) (order : list nat) : Prop :=
  forall l1 i l2 j dep, order = l1 ++ i :: l2 -> jobs !! i = Some j -> dep ∈ Job.DependsOn j ->
    exists i' j', i' ∈ l1 /\ jobs !! i' = Some j' /\ Job.Name j' = dep.
