(* ===== verification/Defaults.v ===== *)
(** * slicefn.go and pipeline.go: slice helpers, defaults and environment scopes *)

From S2P Require Import Prelude Errors Conditional Model.

(** ** slicefn.go *)

Definition mapSlice {T R} (s : list T) (fn : T -> R) : list R := fn <$> s.

Fixpoint flatMap {T R} (s : list T) (fn : T -> list R) : list R :=
  match s with
  | [] => []
  | v :: s' => fn v ++ flatMap s' fn
  end.

(** [collectUnique] at the type it is used at: strings, whose zero value is empty. *)
Definition collectUnique_step {T} (fn : T -> string) (acc : gset string * list string) (v : T)
    : gset string * list string :=
  let '(seen, out) := acc in
  let r := fn v in
  if decide (r = "") then acc
  else if decide (r ∈ seen) then acc
  else ({[r]} ∪ seen, out ++ [r]).

Definition collectUnique {T} (s : list T) (fn : T -> string) : list string :=
  (foldl (collectUnique_step fn) (∅, []) s).2.

(** ** pipeline.go *)

Definition mergeEnv (base override : list EnvVar.t) : list EnvVar.t :=
  let overrideKeys : gset string :=
    foldl (fun ks e => {[EnvVar.Key e]} ∪ ks) ∅ override in
  foldl (fun merged e =>
    if decide (EnvVar.Key e ∈ overrideKeys) then merged else merged ++ [e]) [] base
  ++ override.

Definition BuildEnvScope (pipelineEnv jobEnv : list EnvVar.t) : gmap string string :=
  foldl (fun m e => <[EnvVar.Key e := EnvVar.Value e]> m) ∅ (mergeEnv pipelineEnv jobEnv).

(** The body of [ApplyDefaults] for one job. *)
Definition apply_defaults_to (d : Defaults.t) (j : Job.t) : Job.t :=
  let c := Job_Clone j in
  let c := if decide (Job.Image c = "") then c <| Job.Image := Defaults.Image d |> else c in
  let c := if decide (Job.Workdir c = "") then c <| Job.Workdir := Defaults.Workdir d |> else c in
  let c := match Defaults.Mounts d with
           | [] => c
           | mounts => c <| Job.Mounts := slices_Clone mounts ++ Job.Mounts c |>
           end in
  let c := match Defaults.Env d with
           | [] => c
           | env => c <| Job.Env := mergeEnv env (Job.Env c) |>
           end in
  match Job.Shell c, Defaults.Shell d with
  | None, Some (arg :: args) => c <| Job.Shell := Some (slices_Clone (arg :: args)) |>
  | _, _ => c
  end.

Definition ApplyDefaults (jobs : list Job.t) (defaults : option Defaults.t) : list Job.t :=
  match defaults with
  | None => mapSlice jobs Job_Clone
  | Some d => mapSlice jobs (apply_defaults_to d)
  end.

Definition CollectImages (p : Pipeline.t) : list string :=
  collectUnique (Pipeline.Jobs p) Job.Image.

(** ** Lemmas *)

Section slices.
Context {T R : Type}.

Lemma flatMap_bind (s : list T) (fn : T -> list R) : flatMap s fn = s ≫= fn.
Proof. induction s as [|v s IH]; cbn; [done|]. by rewrite IH. Qed.

Lemma elem_of_flatMap (s : list T) (fn : T -> list R) x :
  x ∈ flatMap s fn <-> exists v, v ∈ s /\ x ∈ fn v.
Proof. rewrite flatMap_bind, list_elem_of_bind. naive_solver. Qed.

(** [collectUnique] is: map, drop the zero values, keep first occurrences. *)
Lemma collectUnique_uniq (s : list T) (fn : T -> string) :
  collectUnique s fn = uniq (filter (.≠ "") (fn <$> s)).
Proof.
  unfold collectUnique. rewrite <- uniq_loop.
  generalize (∅ : gset string, [] : list string).
  induction s as [|v s IH]; intros acc; cbn; [done|].
  rewrite IH. unfold collectUnique_step. destruct acc as [seen out].
  destruct (decide (fn v = "")) as [He|He].
  - by rewrite filter_cons_False by naive_solver.
  - rewrite filter_cons_True by done. done.
Qed.
End slices.

(** The value a Go loop [m[k] = v] over [l] leaves at [k]: that of the last entry. *)
Fixpoint last_value (k : string) (l : list EnvVar.t) : option string :=
  match l with
  | [] => None
  | e :: l' =>
      match last_value k l' with
      | Some v => Some v
      | None => if decide (EnvVar.Key e = k) then Some (EnvVar.Value e) else None
      end
  end.

Lemma last_value_app k l1 l2 :
  last_value k (l1 ++ l2) =
  match last_value k l2 with Some v => Some v | None => last_value k l1 end.
Proof.
  induction l1 as [|e l1 IH]; cbn; [by destruct (last_value k l2)|].
  rewrite IH. by destruct (last_value k l2).
Qed.

Lemma last_value_None k l : last_value k l = None <-> k ∉ EnvVar.Key <$> l.
Proof.
  induction l as [|e l IH]; cbn; [set_solver|].
  rewrite not_elem_of_cons. destruct (last_value k l) eqn:Hl; [naive_solver|].
  case_decide; naive_solver.
Qed.

Lemma env_map_lookup (m : gmap string string) l k :
  foldl (fun m e => <[EnvVar.Key e := EnvVar.Value e]> m) m l !! k =
  match last_value k l with Some v => Some v | None => m !! k end.
Proof.
  revert m. induction l as [|e l IH]; intros m; cbn; [done|].
  rewrite IH. destruct (last_value k l); [done|]. case_decide as Hk.
  - subst. by rewrite lookup_insert_eq.
  - by rewrite lookup_insert_ne.
Qed.

Lemma mergeEnv_filter base override :
  mergeEnv base override =
  filter (fun e => EnvVar.Key e ∉ EnvVar.Key <$> override) base ++ override.
Proof.
  unfold mergeEnv. f_equal.
  assert (forall ks, foldl (fun ks e => {[EnvVar.Key e]} ∪ ks) ks override
            = list_to_set (EnvVar.Key <$> override) ∪ ks :> gset string) as Hks.
  { induction override as [|e l IH]; intros ks; cbn; [set_solver|]. rewrite IH. set_solver. }
  rewrite Hks. set (step := fun _ _ => _).
  enough (forall acc, foldl step acc base =
    acc ++ filter (fun e => EnvVar.Key e ∉ EnvVar.Key <$> override) base) as -> by done.
  induction base as [|e base IH]; intros acc; cbn; [by rewrite app_nil_r|].
  rewrite IH, filter_cons. unfold step.
  assert (EnvVar.Key e ∈ list_to_set (EnvVar.Key <$> override) ∪ (∅ : gset string)
          <-> EnvVar.Key e ∈ EnvVar.Key <$> override) as Hin
    by (rewrite union_empty_r_L; apply elem_of_list_to_set).
  destruct (decide (EnvVar.Key e ∈ _ ∪ _)), (decide (EnvVar.Key e ∉ _)); try tauto.
  by rewrite <- app_assoc.
Qed.

Lemma last_value_mergeEnv k base override :
  last_value k (mergeEnv base override) =
  match last_value k override with Some v => Some v | None => last_value k base end.
Proof.
  rewrite mergeEnv_filter, last_value_app.
  destruct (last_value k override) as [v|] eqn:Ho; [done|].
  apply last_value_None in Ho. induction base as [|e base IH]; cbn; [done|].
  rewrite filter_cons. case_decide as Hk; cbn; rewrite IH; [done|].
  destruct (last_value k base); [done|]. case_decide; [|done]. subst. done.
Qed.

Lemma NoDup_mergeEnv base override :
  NoDup (EnvVar.Key <$> base) -> NoDup (EnvVar.Key <$> override) ->
  NoDup (EnvVar.Key <$> mergeEnv base override).
Proof.
  intros Hb Ho. rewrite mergeEnv_filter, fmap_app. apply NoDup_app. split_and!; [| |done].
  - revert Hb. clear Ho. generalize (EnvVar.Key <$> override) as ks. intros ks Hb.
    induction base as [|e base IH]; [constructor|].
    cbn in Hb. apply NoDup_cons in Hb as [Hni Hb]. rewrite filter_cons.
    case_decide; [|by apply IH]. cbn. apply NoDup_cons. split; [|by apply IH].
    intros (x & Hx & [_ ?]%list_elem_of_filter)%list_elem_of_fmap. apply Hni.
    rewrite Hx. by apply list_elem_of_fmap_2.
  - intros k (e & -> & [? ?]%list_elem_of_filter)%list_elem_of_fmap. done.
Qed.

(** What [ApplyDefaults] does to one job, in closed form. *)
Definition defaulted (d : Defaults.t) (j : Job.t) : Job.t :=
  j <| Job.Image := if decide (Job.Image j = "") then Defaults.Image d else Job.Image j |>
    <| Job.Workdir := if decide (Job.Workdir j = "") then Defaults.Workdir d else Job.Workdir j |>
    <| Job.Mounts := Defaults.Mounts d ++ Job.Mounts j |>
    <| Job.Env := mergeEnv (Defaults.Env d) (Job.Env j) |>
    <| Job.Shell := match Job.Shell j, Defaults.Shell d with
                    | None, Some (arg :: args) => Some (arg :: args)
                    | shell, _ => shell
                    end |>.

Lemma apply_defaults_to_eq d j : apply_defaults_to d j = defaulted d j.
Proof.
  unfold apply_defaults_to, defaulted. rewrite Job_Clone_id.
  destruct j as [name image wd pl dep mo ca env ex ar se st wh ma mv nc pu ti re shell].
  destruct d as [dimage dwd [|m dmo] [|e denv] dshell]; cbn;
    destruct (decide (image = "")); cbn; destruct (decide (wd = "")); cbn;
    destruct shell, dshell as [[|]|]; reflexivity.
Qed.

Lemma defaulted_env_scope d j penv k :
  BuildEnvScope penv (Job.Env (defaulted d j)) !! k =
  match last_value k (Job.Env j) with
  | Some v => Some v
  | None => match last_value k (Defaults.Env d) with
            | Some v => Some v
            | None => last_value k penv
            end
  end.
Proof.
  unfold BuildEnvScope. rewrite env_map_lookup, !last_value_mergeEnv, lookup_empty. cbn.
  rewrite last_value_mergeEnv.
  destruct (last_value k (Job.Env j)), (last_value k (Defaults.Env d)), (last_value k penv); done.
Qed.

(** ** Properties *)

(** C36: [ApplyDefaults] fills the image and the working directory only where the job left
    them empty, puts the default mounts first, keeps every other field and the job order,
    and resolves a variable in the job's value first, then the defaults', then the
    pipeline's. *)
Theorem ApplyDefaults_spec jobs d penv :
  ApplyDefaults jobs (Some d) = defaulted d <$> jobs /\
  (forall j k, BuildEnvScope penv (Job.Env (defaulted d j)) !! k =
     match last_value k (Job.Env j) with
     | Some v => Some v
     | None => match last_value k (Defaults.Env d) with
               | Some v => Some v
               | None => last_value k penv
               end
     end) /\
  ApplyDefaults jobs None = jobs.
Proof.
  split_and!.
  - apply list_fmap_ext. intros. apply apply_defaults_to_eq.
  - intros. apply defaulted_env_scope.
  - apply fmap_Job_Clone.
Qed.
