(* ===== verification/Merge.v ===== *)
(** * merge.go: combining job groups and expanding fragment aliases *)

From S2P Require Import Prelude Errors Conditional Model.

(** ** Definitions *)

(** One iteration of the inner loop; the accumulator is the [seen] map from job names to
    origins and the merged slice. *)
Definition merge_step (g : JobGroup.t) (acc : gmap string string * list Job.t) (j : Job.t)
    : result (gmap string string * list Job.t) :=
  let '(seen, merged) := acc in
  let name := Job.Name j in
  match seen !! name with
  | Some origin =>
      match JobGroup.OnConflict g with
      | ConflictSkip => Ok acc
      | ConflictError => fail_with [name; JobGroup.Origin g; origin] (PM ErrDuplicateJob)
      end
  | None => Ok (<[name := JobGroup.Origin g]> seen, merged ++ [j])
  end.

Definition MergeJobs (groups : list JobGroup.t) : result (list Job.t) :=
  '(_, merged) ← foldM (fun acc g => foldM (merge_step g) acc (JobGroup.Jobs g)) (∅, []) groups;
  Ok merged.

Definition TerminalJobs (jobs : list Job.t) : list string :=
  let depended : gset string :=
    foldl (fun ds j => foldl (fun ds dep => {[dep]} ∪ ds) ds (Job.DependsOn j)) ∅ jobs in
  foldl (fun terminals j =>
    if decide (Job.Name j ∈ depended) then terminals else terminals ++ [Job.Name j]) [] jobs.

(** [aliases[dep]] where the alias exists and is not empty, [dep] itself otherwise. *)
Definition alias_targets (aliases : gmap string (list string)) (dep : string) : list string :=
  match aliases !! dep with
  | None | Some [] => [dep]
  | Some targets => targets
  end.

Definition expandDeps (deps : list string) (aliases : gmap string (list string)) : list string :=
  (foldl (fun acc dep => foldl uniq_step acc (alias_targets aliases dep)) (∅, []) deps).2.

(** [range] over a Go map visits the keys in an unspecified order; the loop only looks for
    a colliding alias, so the order matters to nothing but the alias it reports. *)
Definition check_aliases (jobNames : gset string) (aliases : gmap string (list string))
    : result unit :=
  foldM (fun _ '(alias, terminals) =>
    if decide (alias ∈ jobNames) then
      if decide (terminals = [alias]) then Ok tt
      else fail_with [alias] (PM ErrAliasCollision)
    else Ok tt) tt (map_to_list aliases).

Definition expand_job (aliases : gmap string (list string)) (j : Job.t) : Job.t :=
  let c := Job_Clone j in
  match Job.DependsOn j with
  | [] => c
  | deps => c <| Job.DependsOn := expandDeps deps aliases |>
  end.

Definition ExpandAliases (jobs : list Job.t) (aliases : gmap string (list string))
    : result (list Job.t) :=
  if decide (aliases = ∅) then Ok jobs else
  let jobNames : gset string := foldl (fun ns j => {[Job.Name j]} ∪ ns) ∅ jobs in
  check_aliases jobNames aliases;;
  Ok (expand_job aliases <$> jobs).

(** ** [MergeJobs] *)

(** The jobs of all groups in document order, each with its group. *)
Definition tagged (groups : list JobGroup.t) : list (JobGroup.t * Job.t) :=
  groups ≫= fun g => (g,.) <$> JobGroup.Jobs g.

(** The reference definition: keep the first job of every name. *)
Fixpoint first_by_name (l : list Job.t) : list Job.t :=
  match l with
  | [] => []
  | j :: l' => j :: filter (fun j' => Job.Name j' <> Job.Name j) (first_by_name l')
  end.

(** No job of a group that rejects conflicts repeats an earlier name. *)
Definition no_conflict (l : list (JobGroup.t * Job.t)) : Prop :=
  forall l1 g j l2, l = l1 ++ (g, j) :: l2 ->
    JobGroup.OnConflict g = ConflictError -> Job.Name j ∉ Job.Name <$> l1.*2.

Lemma first_by_name_elem j l :
  j ∈ first_by_name l <->
  exists l1 l2, l = l1 ++ j :: l2 /\ Job.Name j ∉ Job.Name <$> l1.
Proof.
  induction l as [|j' l IH]; cbn.
  - split; [set_solver|]. intros ([|] & l2 & ? & _); done.
  - rewrite elem_of_cons, list_elem_of_filter, IH. split.
    + intros [->|(Hne & l1 & l2 & -> & Hn)]; [by exists [], l; split; [|set_solver]|].
      exists (j' :: l1), l2. split; [done|]. cbn. set_solver.
    + intros ([|j1 l1] & l2 & [= -> ->] & Hn); [by left|right].
      cbn in Hn. apply not_elem_of_cons in Hn as [? ?]. eauto.
Qed.

Lemma first_by_name_names l x : x ∈ Job.Name <$> first_by_name l <-> x ∈ Job.Name <$> l.
Proof.
  induction l as [|j l IH]; [done|]. cbn [first_by_name fmap list_fmap]. rewrite !elem_of_cons.
  rewrite <- IH, !list_elem_of_fmap. setoid_rewrite list_elem_of_filter.
  destruct (decide (x = Job.Name j)); naive_solver.
Qed.

Lemma first_by_name_NoDup l : NoDup (Job.Name <$> first_by_name l).
Proof.
  induction l as [|j l IH]; cbn [first_by_name fmap list_fmap]; constructor.
  - rewrite list_elem_of_fmap. setoid_rewrite list_elem_of_filter. naive_solver.
  - by apply NoDup_fmap_filter.
Qed.

Lemma first_by_name_snoc l j :
  first_by_name (l ++ [j]) =
  if decide (Job.Name j ∈ Job.Name <$> l) then first_by_name l else first_by_name l ++ [j].
Proof.
  induction l as [|j' l IH]; cbn [first_by_name app fmap list_fmap].
  - rewrite decide_False by set_solver. done.
  - rewrite IH. destruct (decide (Job.Name j ∈ Job.Name <$> l)) as [Hin|Hni].
    + rewrite decide_True by set_solver. done.
    + destruct (decide (Job.Name j = Job.Name j')) as [He|Hne].
      * rewrite decide_True by set_solver.
        rewrite filter_app, (filter_cons_False _ j) by naive_solver.
        by rewrite filter_nil, app_nil_r.
      * rewrite decide_False by set_solver.
        by rewrite filter_app, (filter_cons_True _ j) by done.
Qed.

Lemma no_conflict_snoc l g j :
  no_conflict (l ++ [(g, j)]) <->
  no_conflict l /\ (JobGroup.OnConflict g = ConflictError -> Job.Name j ∉ Job.Name <$> l.*2).
Proof.
  split.
  - intros H. split; [|by eapply H]. intros l1 g' j' l2 -> Hc. eapply H; [|done].
    by rewrite <- app_assoc.
  - intros [H Hlast] l1 g' j' l2 Heq Hc.
    destruct l2 as [|x l2 _] using rev_ind.
    + apply app_inj_tail in Heq as [<- [= <- <-]]. auto.
    + rewrite app_comm_cons, app_assoc in Heq. apply app_inj_tail in Heq as [-> _].
      eapply H; eauto.
Qed.

Abbreviation merge_loop := (foldM (fun acc '(g, j) => merge_step g acc j) (∅, [])).

Lemma merge_loop_sound l seen merged :
  merge_loop l = Ok (seen, merged) ->
  dom seen = list_to_set (Job.Name <$> l.*2) /\ no_conflict l /\ merged = first_by_name l.*2.
Proof.
  apply (foldM_inv (fun l acc => dom acc.1 = list_to_set (Job.Name <$> l.*2) /\
    no_conflict l /\ acc.2 = first_by_name l.*2)).
  { cbn. rewrite dom_empty_L. split_and!; [done| |done]. by intros [] ? ? ? ?. }
  clear. intros l0 [seen merged] [g j] acc _ (Hdom & Hc & Hm) Hstep. cbn in *. subst merged.
  rewrite no_conflict_snoc, fmap_app. cbn [fmap list_fmap snd].
  rewrite first_by_name_snoc, fmap_app, list_to_set_app_L. cbn.
  destruct (seen !! Job.Name j) as [o|] eqn:Hs.
  - apply elem_of_dom_2 in Hs. rewrite Hdom in Hs. pose proof Hs as Hin.
    apply elem_of_list_to_set in Hin. rewrite decide_True by done.
    destruct (JobGroup.OnConflict g) eqn:Hg; inv_res. cbn.
    split_and!; [set_solver|done|done|done].
  - apply not_elem_of_dom in Hs. rewrite Hdom, elem_of_list_to_set in Hs.
    rewrite decide_False by done. inv_res. cbn. rewrite dom_insert_L, Hdom.
    split_and!; [set_solver|done|done|done].
Qed.

Lemma merge_loop_complete l :
  no_conflict l -> exists seen, merge_loop l = Ok (seen, first_by_name l.*2).
Proof.
  induction l as [|[g j] l IH] using rev_ind; [by exists ∅|].
  intros [Hc Hg]%no_conflict_snoc. destruct (IH Hc) as [seen Hl].
  rewrite foldM_app, Hl. apply merge_loop_sound in Hl as (Hdom & _ & _).
  rewrite fmap_app. cbn [fmap list_fmap snd foldM]. rewrite first_by_name_snoc.
  cbn [mbind res_bind merge_step].
  destruct (seen !! Job.Name j) as [o|] eqn:Hs; cbn.
  - apply elem_of_dom_2 in Hs. rewrite Hdom, elem_of_list_to_set in Hs.
    rewrite decide_True by done.
    destruct (JobGroup.OnConflict g); [by destruct Hg|]. by exists seen.
  - apply not_elem_of_dom in Hs. rewrite Hdom, elem_of_list_to_set in Hs.
    rewrite decide_False by done. eauto.
Qed.

Lemma MergeJobs_Ok groups merged :
  MergeJobs groups = Ok merged <->
  no_conflict (tagged groups) /\ merged = first_by_name (tagged groups).*2.
Proof.
  unfold MergeJobs. rewrite foldM_nested, bind_Ok. split.
  - intros ([seen m] & H & [= <-]). by apply merge_loop_sound in H as (_ & ? & ?).
  - intros [Hc ->]. destruct (merge_loop_complete _ Hc) as [seen Hl].
    exists (seen, first_by_name (tagged groups).*2). by split.
Qed.

Lemma MergeJobs_error groups e :
  MergeJobs groups = Fail e -> Is e (PM ErrDuplicateJob) = true.
Proof.
  unfold MergeJobs. rewrite foldM_nested, bind_Fail.
  intros [(l1 & [g j] & l2 & [seen m] & _ & _ & H)%foldM_Fail|([] & _ & H)]; [|done].
  cbn in H. destruct (seen !! _); [|done]. destruct (JobGroup.OnConflict g); [|done].
  by eapply fail_with_Is.
Qed.

(** ** [TerminalJobs] *)

Lemma depended_spec jobs (ds : gset string) x :
  x ∈ foldl (fun ds j => foldl (fun ds dep => {[dep]} ∪ ds) ds (Job.DependsOn j)) ds jobs <->
  x ∈ ds \/ exists j, j ∈ jobs /\ x ∈ Job.DependsOn j.
Proof.
  assert (forall deps (ds : gset string),
    x ∈ foldl (fun ds dep => {[dep]} ∪ ds) ds deps <-> x ∈ ds \/ x ∈ deps) as Hin.
  { induction deps as [|d deps IH]; intros ds'; cbn; [set_solver|]. rewrite IH. set_solver. }
  revert ds. induction jobs as [|j jobs IH]; intros ds; cbn; [set_solver|].
  rewrite IH, Hin. setoid_rewrite elem_of_cons. naive_solver.
Qed.

Lemma TerminalJobs_filter jobs :
  TerminalJobs jobs =
  Job.Name <$> filter (fun j => Forall (fun j' => Job.Name j ∉ Job.DependsOn j') jobs) jobs.
Proof.
  unfold TerminalJobs. set (depended := foldl _ (∅ : gset string) jobs).
  assert (forall x, x ∈ depended <-> exists j, j ∈ jobs /\ x ∈ Job.DependsOn j) as Hd
    by (intros x; unfold depended; rewrite depended_spec; set_solver).
  clearbody depended. set (step := fun _ _ => _).
  enough (forall l acc, foldl step acc l = acc ++ (Job.Name <$>
    filter (fun j => Forall (fun j' => Job.Name j ∉ Job.DependsOn j') jobs) l)) as Hgen
    by apply (Hgen jobs []).
  induction l as [|j l IH]; intros acc; cbn [foldl]; [by rewrite app_nil_r|].
  rewrite IH, filter_cons. unfold step.
  destruct (decide (Job.Name j ∈ depended)) as [Hj|Hj], (decide (Forall _ jobs)) as [HF|HF].
  - apply Hd in Hj as (j' & ? & ?). rewrite Forall_forall in HF. naive_solver.
  - done.
  - cbn. by rewrite <- app_assoc.
  - destruct HF. apply Forall_forall. intros j' ? ?. apply Hj, Hd. eauto.
Qed.

(** ** [ExpandAliases] *)

Lemma expandDeps_uniq deps aliases :
  expandDeps deps aliases = uniq (deps ≫= alias_targets aliases).
Proof.
  unfold expandDeps. rewrite <- uniq_loop.
  generalize (∅ : gset string, [] : list string). induction deps as [|d deps IH]; intros acc; [done|].
  rewrite bind_cons, foldl_app. cbn [foldl]. apply IH.
Qed.

Lemma alias_targets_spec aliases dep t :
  t ∈ alias_targets aliases dep <->
  (exists ts, aliases !! dep = Some ts /\ t ∈ ts) \/
  (default [] (aliases !! dep) = [] /\ t = dep).
Proof.
  unfold alias_targets. destruct (aliases !! dep) as [[|t' ts]|]; cbn;
    rewrite ?list_elem_of_singleton.
  - split; [by right|]. intros [(? & [= <-] & []%not_elem_of_nil)|[_ ?]]; done.
  - split; [left; eauto|]. intros [(? & [= <-] & ?)|[? ?]]; done.
  - split; [by right|]. intros [(? & ? & _)|[_ ?]]; done.
Qed.

Lemma check_aliases_Ok jobNames aliases u :
  check_aliases jobNames aliases = Ok u <->
  forall alias ts, aliases !! alias = Some ts -> alias ∈ jobNames -> ts = [alias].
Proof.
  destruct u. unfold check_aliases.
  change (forall alias ts, aliases !! alias = Some ts -> alias ∈ jobNames -> ts = [alias])
    with (map_Forall (fun alias ts => alias ∈ jobNames -> ts = [alias]) aliases).
  rewrite map_Forall_to_list.
  induction (map_to_list aliases) as [|[alias ts] l IH]; cbn.
  - split; [constructor|done].
  - rewrite Forall_cons, bind_Ok, <- IH. cbn. split.
    + intros ([] & H & ?). repeat case_decide; naive_solver.
    + intros [H ?]. exists tt. repeat case_decide; naive_solver.
Qed.

Lemma expand_job_eq aliases j :
  expand_job aliases j = j <| Job.DependsOn := expandDeps (Job.DependsOn j) aliases |>.
Proof. unfold expand_job. rewrite Job_Clone_id. by destruct j as [? ? ? ? [|]]. Qed.

Lemma ExpandAliases_Ok jobs aliases jobs' :
  ExpandAliases jobs aliases = Ok jobs' ->
  (forall alias ts, aliases !! alias = Some ts -> alias ∈ Job.Name <$> jobs -> ts = [alias]) /\
  Forall2 (fun j j' => exists deps, j' = j <| Job.DependsOn := deps |> /\
    forall t, t ∈ deps <-> exists dep, dep ∈ Job.DependsOn j /\ t ∈ alias_targets aliases dep)
    jobs jobs'.
Proof.
  unfold ExpandAliases. case_decide as He.
  - intros [= <-]. subst. split; [done|]. apply Forall_Forall2_diag, Forall_forall.
    intros j _. exists (Job.DependsOn j). split; [by destruct j|]. intros t.
    setoid_rewrite alias_targets_spec. setoid_rewrite lookup_empty. cbn. naive_solver.
  - intros (u & H & [= <-])%bind_Ok. pose proof (proj1 (check_aliases_Ok _ _ _) H) as Hok. clear H. split.
    + intros alias ts Hts Hin. apply (Hok alias ts Hts).
      assert (forall (ns : gset string) l, foldl (fun ns j => {[Job.Name j]} ∪ ns) ns l
        = list_to_set (Job.Name <$> l) ∪ ns) as Hns.
      { intros ns l. revert ns. induction l as [|j l IH]; intros ns; cbn; [set_solver|].
        rewrite IH. set_solver. }
      rewrite Hns. set_solver.
    + apply Forall2_fmap_r, Forall_Forall2_diag, Forall_forall. intros j _.
      exists (expandDeps (Job.DependsOn j) aliases). split; [apply expand_job_eq|].
      intros t. rewrite expandDeps_uniq, elem_of_uniq, list_elem_of_bind. naive_solver.
Qed.

(** ** Properties *)

(** C31: [MergeJobs] succeeds exactly when no group that rejects conflicts repeats an
    earlier job name, then returns the first job of every name in document order (so names
    are unique), and otherwise reports a duplicate job. *)
Theorem MergeJobs_spec groups :
  (forall merged, MergeJobs groups = Ok merged <->
     no_conflict (tagged groups) /\ merged = first_by_name (tagged groups).*2) /\
  NoDup (Job.Name <$> first_by_name (tagged groups).*2) /\
  (forall e, MergeJobs groups = Fail e -> Is e (PM ErrDuplicateJob) = true).
Proof.
  split_and!; [apply MergeJobs_Ok|apply first_by_name_NoDup|apply MergeJobs_error].
Qed.

(** If every alias stands for at least one job of the pipeline and every dependency
    names a job or an alias, then after [ExpandAliases] every dependency names a job: no
    alias is left. *)
Theorem ExpandAliases_closed jobs aliases jobs'
  (Halias : forall alias ts, aliases !! alias = Some ts ->
     ts <> [] /\ forall t, t ∈ ts -> t ∈ Job.Name <$> jobs)
  (Hdeps : forall j dep, j ∈ jobs -> dep ∈ Job.DependsOn j ->
     dep ∈ Job.Name <$> jobs \/ is_Some (aliases !! dep))
  (Hok : ExpandAliases jobs aliases = Ok jobs') :
  Job.Name <$> jobs' = Job.Name <$> jobs /\
  forall j' dep, j' ∈ jobs' -> dep ∈ Job.DependsOn j' -> dep ∈ Job.Name <$> jobs'.
Proof.
  apply ExpandAliases_Ok in Hok as [_ HF].
  assert (Job.Name <$> jobs' = Job.Name <$> jobs) as Hn.
  { clear -HF. induction HF as [|j j' l l' (deps & -> & _) _ IH]; cbn; [done|by f_equal]. }
  split; [done|]. rewrite Hn. intros j' t (i & Hj')%list_elem_of_lookup.
  destruct (Forall2_lookup_r _ _ _ _ _ HF Hj') as (j & Hj & deps & -> & Hd).
  apply list_elem_of_lookup_2 in Hj. cbn.
  intros (dep & Hdep & [(ts & Hts & ?)|[Hnone ->]]%alias_targets_spec)%Hd.
  - by apply (Halias dep ts).
  - destruct (Hdeps j dep) as [|[ts Hts]]; [done..|].
    rewrite Hts in Hnone. by destruct (Halias dep ts Hts).
Qed.

Lemma ExpandAliases_closed_witness :
  let jobs := [Job.empty "a"; Job.empty "b" <| Job.DependsOn := ["frag"] |>] in
  let jobs' := [Job.empty "a"; Job.empty "b" <| Job.DependsOn := ["a"] |>] in
  Job.Name <$> jobs' = Job.Name <$> jobs /\
  forall j' dep, j' ∈ jobs' -> dep ∈ Job.DependsOn j' -> dep ∈ Job.Name <$> jobs'.
Proof.
  apply (ExpandAliases_closed _ {[ "frag" := ["a"] ]}).
  - intros alias ts [<- <-]%lookup_singleton_Some. split; [done|].
    intros t ->%list_elem_of_singleton. by left.
  - intros j dep [->|[->|[]%not_elem_of_nil]%elem_of_cons]%elem_of_cons Hdep; cbn in Hdep.
    + by apply not_elem_of_nil in Hdep.
    + apply list_elem_of_singleton in Hdep as ->. right. vm_compute. by eexists.
  - vm_compute. reflexivity.
Defined.
