(* ===== verification/Names.v ===== *)
(** * Names: the name patterns of pipeline.go and secret.go, and the bracketed names of
    matrix variants ([expandedName] of expand.go) *)

From S2P Require Import Prelude Errors GoStrings Regex.

(** ** Patterns *)

Definition base_char (a : ascii) : bool := is_alnum a || is_one_of "_-" a.
Definition suffix_char (a : ascii) : bool := is_alnum a || is_one_of "_.:/-" a.

(** [key] or [key=value] inside the brackets. *)
Definition suffix_item : regex :=
  Cat (Plus (Class suffix_char)) (Opt (Cat (Byte "=") (Plus (Class suffix_char)))).

Definition validName : regex :=
  Cat (Plus (Class base_char))
    (Opt (Cat (Byte "[") (Cat suffix_item
      (Cat (Star (Cat (Byte ",") suffix_item)) (Byte "]"))))).

Definition validDimName : regex := Plus (Class base_char).

(** [^[a-zA-Z_][a-zA-Z0-9_]*$] of secret.go. *)
Definition posixIdentifier : regex :=
  Cat (Class (fun a => is_lower a || is_upper a || is_one_of "_" a))
    (Star (Class (fun a => is_alnum a || is_one_of "_" a))).

(** ** [expandedName] *)

(** [slices.Sorted(maps.Keys(m))]. *)
Definition sorted_keys {A} (m : gmap string A) : list string :=
  merge_sort String.le (elements (dom m)).

(** The bracket suffix of a name, as the map [existing], and the name before it. *)
Definition suffix_entry (m : gmap string string) (kv : string) : gmap string string :=
  match CutByte kv "=" with
  | Some (k, v) => <[k := v]> m
  | None => m
  end.

Definition parse_name (base : string) : string * gmap string string :=
  match IndexByte base "[", LastIndexByte base "]" with
  | Some idx, Some endIdx =>
      if decide (idx < endIdx) then
        let suffix := str_take (endIdx - S idx) (str_drop (S idx) base) in
        (str_take idx base, foldl suffix_entry ∅ (SplitByte suffix ","))
      else (base, ∅)
  | _, _ => (base, ∅)
  end.

Definition render_entry (m : gmap string string) (k : string) : string :=
  k +:+ "=" +:+ default "" (m !! k).

Definition render_name (name : string) (m : gmap string string) : string :=
  name +:+ "[" +:+ Join (render_entry m <$> sorted_keys m) "," +:+ "]".

Definition expandedName (base : string) (combo : gmap string string) : string :=
  let '(name, existing) := parse_name base in
  render_name name (combo ∪ existing).

Definition matrixCacheID (baseID expandedJobName : string) : string :=
  baseID +:+ "--" +:+ expandedJobName.

(** ** Bracketed names parse back *)

(** A map whose rendering can be parsed back: no separator in a key, no comma in a value. *)
Definition clean_entry (k v : string) : Prop :=
  lacks "," k /\ lacks "=" k /\ lacks "," v.
#[export] Instance clean_entry_dec k v : Decision (clean_entry k v).
Proof. unfold clean_entry. apply _. Defined.

Definition clean_combo (m : gmap string string) : Prop := map_Forall clean_entry m.
#[export] Instance clean_combo_dec m : Decision (clean_combo m).
Proof. unfold clean_combo. apply _. Defined.

Lemma elem_of_sorted_keys {A} k (m : gmap string A) : k ∈ sorted_keys m <-> k ∈ dom m.
Proof. unfold sorted_keys. by rewrite merge_sort_Permutation, elem_of_elements. Qed.

Lemma NoDup_sorted_keys {A} (m : gmap string A) : NoDup (sorted_keys m).
Proof. unfold sorted_keys. rewrite merge_sort_Permutation. apply NoDup_elements. Qed.

Lemma Sorted_sorted_keys {A} (m : gmap string A) : Sorted String.le (sorted_keys m).
Proof. apply Sorted_merge_sort. apply _. Qed.

Lemma suffix_loop (m acc : gmap string string) ks :
  clean_combo m -> (forall k, k ∈ ks -> k ∈ dom m) ->
  foldl suffix_entry acc (render_entry m <$> ks) =
  foldl (fun acc k => <[k := default "" (m !! k)]> acc) acc ks.
Proof.
  intros Hc. revert acc. induction ks as [|k ks IH]; intros acc Hks; cbn; [done|].
  rewrite IH by set_solver. f_equal. unfold suffix_entry, render_entry.
  assert (k ∈ dom m) as [v Hv]%elem_of_dom by set_solver.
  destruct (Hc k v Hv) as (_ & He & _).
  change ("=" +:+ ?x) with (String "=" x). by rewrite CutByte_app.
Qed.

Lemma rebuild_map (m acc : gmap string string) ks :
  (forall k, k ∈ ks -> k ∈ dom m) ->
  forall k, foldl (fun acc k => <[k := default "" (m !! k)]> acc) acc ks !! k =
    if decide (k ∈ ks) then m !! k else acc !! k.
Proof.
  revert acc. induction ks as [|k0 ks IH]; intros acc Hks k; cbn; [done|].
  rewrite IH by set_solver. destruct (decide (k ∈ ks)).
  - rewrite decide_True by set_solver. done.
  - destruct (decide (k = k0)) as [->|].
    + rewrite decide_True by set_solver. rewrite lookup_insert_eq.
      assert (k0 ∈ dom m) as [v ->]%elem_of_dom by set_solver. done.
    + rewrite decide_False by set_solver. by rewrite lookup_insert_ne.
Qed.

Lemma parse_suffix m :
  clean_combo m ->
  foldl suffix_entry ∅ (SplitByte (Join (render_entry m <$> sorted_keys m) ",") ",") = m.
Proof.
  intros Hc. destruct (sorted_keys m) as [|k ks] eqn:Hs.
  - cbn. assert (dom m ≡ ∅) as Hd.
    { intros k. rewrite <- elem_of_sorted_keys, Hs. set_solver. }
    apply dom_empty_inv in Hd. by rewrite Hd.
  - rewrite <- Hs. change "," with (String "," "") at 1. rewrite SplitByte_Join.
    + rewrite suffix_loop; [|done|intros ?; apply elem_of_sorted_keys].
      apply map_eq. intros k'. rewrite rebuild_map by (intros ?; apply elem_of_sorted_keys).
      case_decide as Hk; [done|]. rewrite elem_of_sorted_keys in Hk.
      apply not_elem_of_dom in Hk. by rewrite Hk.
    + rewrite Hs. done.
    + apply Forall_forall. intros x (k' & -> & Hk')%list_elem_of_fmap.
      apply elem_of_sorted_keys, elem_of_dom in Hk' as [v Hv]. unfold render_entry.
      rewrite Hv. destruct (Hc k' v Hv) as (? & ? & ?). cbn.
      rewrite !lacks_app. split_and!; [done| |done]. unfold lacks. cbn. set_solver.
Qed.

Lemma parse_render name m :
  lacks "[" name -> clean_combo m -> parse_name (render_name name m) = (name, m).
Proof.
  intros Hn Hc. unfold render_name, parse_name.
  change ("[" +:+ ?x) with (String "[" x). rewrite IndexByte_app by done.
  set (body := Join _ _).
  assert (name +:+ String "[" (body +:+ "]") = (name +:+ String "[" body) +:+ String "]" "") as Heq.
  { by rewrite !append_assoc. }
  rewrite Heq at 1. rewrite LastIndexByte_app by apply lacks_nil.
  rewrite length_append. cbn [String.length]. rewrite decide_True by lia.
  rewrite str_take_app, str_drop_app_S.
  replace (String.length name + S (String.length body) - S (String.length name))
    with (String.length body) by lia.
  rewrite str_take_app. unfold body. by rewrite parse_suffix.
Qed.

Lemma parse_plain name : lacks "[" name -> parse_name name = (name, ∅).
Proof. intros Hn%IndexByte_None. unfold parse_name. by rewrite Hn. Qed.

Lemma clean_combo_union m1 m2 : clean_combo m1 -> clean_combo m2 -> clean_combo (m1 ∪ m2).
Proof. apply map_Forall_union_2. Qed.

Lemma expandedName_plain name c : lacks "[" name -> expandedName name c = render_name name c.
Proof. intros Hn. unfold expandedName. rewrite parse_plain by done. by rewrite map_union_empty. Qed.

Lemma expandedName_render name c1 c2 :
  lacks "[" name -> clean_combo c1 ->
  expandedName (render_name name c1) c2 = render_name name (c2 ∪ c1).
Proof. intros. unfold expandedName. by rewrite parse_render. Qed.

Lemma render_name_inj n1 n2 c1 c2 :
  lacks "[" n1 -> lacks "[" n2 -> clean_combo c1 -> clean_combo c2 ->
  render_name n1 c1 = render_name n2 c2 -> n1 = n2 /\ c1 = c2.
Proof.
  intros H1 H2 Hc1 Hc2 Heq. apply (f_equal parse_name) in Heq.
  rewrite !parse_render in Heq by done. by injection Heq.
Qed.

(** ** Valid names *)

Definition nonempty_of (f : ascii -> bool) (s : string) : Prop :=
  s <> "" /\ Forall (fun a => f a = true) (bytes s).

Lemma bytes_nil s : bytes s = [] <-> s = "".
Proof. by destruct s. Qed.

Lemma plus_class_spec f s : matches (Plus (Class f)) (bytes s) <-> nonempty_of f s.
Proof. rewrite matches_plus_class. unfold nonempty_of. by rewrite bytes_nil. Qed.

Lemma validDimName_spec s : MatchString validDimName s = true <-> nonempty_of base_char s.
Proof. rewrite MatchString_spec. apply plus_class_spec. Qed.

Lemma base_suffix_char a : base_char a = true -> suffix_char a = true.
Proof.
  unfold base_char, suffix_char, is_one_of. rewrite !orb_true_iff, !bool_decide_eq_true.
  intros [?|Ha]; [by left|right]. cbn in *. set_solver.
Qed.

Lemma nonempty_of_mono f g s :
  (forall a, f a = true -> g a = true) -> nonempty_of f s -> nonempty_of g s.
Proof. intros Hfg [? HF]. split; [done|]. eapply Forall_impl; [exact HF|]. exact Hfg. Qed.

Lemma nonempty_of_lacks f c s : f c = false -> nonempty_of f s -> lacks c s.
Proof.
  intros Hc [_ HF] Hin. rewrite Forall_forall in HF. specialize (HF c Hin). cbn in HF. congruence.
Qed.

(** A combination whose keys and values may appear in a valid name. *)
Definition nameable (m : gmap string string) : Prop :=
  m <> ∅ /\ map_Forall (fun k v => nonempty_of suffix_char k /\ nonempty_of suffix_char v) m.

Lemma nameable_clean m : nameable m -> clean_combo m.
Proof.
  intros [_ H] k v Hk. destruct (H k v Hk) as [Hk1 Hv]. unfold clean_entry.
  split_and!; (eapply nonempty_of_lacks; [|done]); reflexivity.
Qed.

Lemma suffix_item_entry m k :
  nameable m -> k ∈ dom m -> matches suffix_item (bytes (render_entry m k)).
Proof.
  intros [_ H] [v Hv]%elem_of_dom. destruct (H k v Hv) as [Hk1 Hv1].
  unfold render_entry. rewrite Hv. cbn [default from_option]. rewrite !bytes_app.
  apply m_cat; [by apply plus_class_spec|]. apply matches_opt. left.
  apply m_cat; [by apply matches_byte|by apply plus_class_spec].
Qed.

Lemma join_items l :
  l <> [] -> Forall (fun s => matches suffix_item (bytes s)) l ->
  matches (Cat suffix_item (Star (Cat (Byte ",") suffix_item))) (bytes (Join l ",")).
Proof.
  induction l as [|x [|y l] IH]; intros Hne HF; [done| |].
  - apply Forall_cons in HF as [Hx _]. rewrite <- (app_nil_r (bytes _)). by apply m_cat; [|constructor].
  - apply Forall_cons in HF as [Hx HF]. rewrite Join_cons, !bytes_app.
    apply m_cat; [done|]. specialize (IH ltac:(done) HF).
    apply matches_cat in IH as (l1 & l2 & -> & H1 & H2). rewrite app_assoc.
    apply m_star_app; [|done]. by apply m_cat; [apply matches_byte|].
Qed.

Lemma render_name_valid name m :
  nonempty_of base_char name -> nameable m -> MatchString validName (render_name name m) = true.
Proof.
  intros Hn Hm. apply MatchString_spec. unfold render_name. rewrite !bytes_app.
  apply m_cat; [by apply plus_class_spec|]. apply matches_opt. left.
  apply m_cat; [by apply matches_byte|].
  assert (matches (Cat suffix_item (Star (Cat (Byte ",") suffix_item)))
    (bytes (Join (render_entry m <$> sorted_keys m) ","))) as H.
  { apply join_items.
    - intros Hnil%fmap_nil_inv. destruct Hm as [Hne _]. apply Hne, dom_empty_inv_L.
      apply set_eq. intros k. rewrite <- elem_of_sorted_keys, Hnil. set_solver.
    - apply Forall_forall. intros x (k & -> & Hk%elem_of_sorted_keys)%list_elem_of_fmap.
      by apply suffix_item_entry. }
  apply matches_cat in H as (l1 & l2 & -> & H1 & H2). rewrite <- app_assoc.
  apply m_cat; [done|]. by apply m_cat; [|apply matches_byte].
Qed.

(** ** Properties *)

(** The names [expandedName] gives to matrix variants identify the base name and the
    combination: two variants have the same name only if both agree. *)
Theorem expandedName_inj n1 n2 c1 c2
  (Hn1 : lacks "[" n1) (Hn2 : lacks "[" n2) (Hc1 : clean_combo c1) (Hc2 : clean_combo c2) :
  expandedName n1 c1 = expandedName n2 c2 <-> n1 = n2 /\ c1 = c2.
Proof.
  rewrite !expandedName_plain by done. split; [by apply render_name_inj|]. by intros [-> ->].
Qed.

Lemma expandedName_inj_witness :
  expandedName "build" {[ "os" := "linux"; "arch" := "a" ]} = "build[arch=a,os=linux]" /\
  (expandedName "build" {[ "os" := "linux" ]} = expandedName "build" {[ "os" := "darwin" ]} <->
   "build" = "build" /\ ({[ "os" := "linux" ]} : gmap string string) = {[ "os" := "darwin" ]}).
Proof.
  split; [vm_compute; reflexivity|].
  apply expandedName_inj; apply (bool_decide_unpack _); vm_compute; exact I.
Defined.

(** Expanding an already expanded name merges the new dimensions into its bracket
    suffix, the new value winning: expanding twice is expanding once with the union. *)
Theorem expandedName_twice name c1 c2
  (Hn : lacks "[" name) (Hc1 : clean_combo c1) :
  expandedName (expandedName name c1) c2 = expandedName name (c2 ∪ c1).
Proof. rewrite !(expandedName_plain name) by done. by apply expandedName_render. Qed.

Lemma expandedName_twice_witness :
  expandedName (expandedName "test" {[ "os" := "linux" ]}) {[ "go" := "1.22" ]}
  = expandedName "test" ({[ "go" := "1.22" ]} ∪ {[ "os" := "linux" ]}).
Proof. apply expandedName_twice; apply (bool_decide_unpack _); vm_compute; exact I. Defined.

(** The name of a variant passes the pipeline's name check when its base name does
    and every key and value is made of the characters allowed in a suffix. *)
Theorem expandedName_valid name m
  (Hname : MatchString validDimName name = true) (Hm : nameable m) :
  MatchString validName (expandedName name m) = true.
Proof.
  apply validDimName_spec in Hname. rewrite expandedName_plain.
  - by apply render_name_valid.
  - by apply (nonempty_of_lacks base_char).
Qed.

Lemma expandedName_valid_witness :
  MatchString validName (expandedName "b" {[ "k" := "a/b" ]}) = true.
Proof.
  apply expandedName_valid; [reflexivity|]. split; [done|].
  apply map_Forall_singleton. split; (split; [done|repeat constructor]).
Defined.
