(* ===== verification/Params.v ===== *)
(** * params.go and [substituteVars] of expand.go: fragment parameters

    Placeholders [${prefix.key}] are replaced in one pass.  A Go map is iterated in an
    unspecified order; the model iterates in the order of [map_to_list] and
    [substituteVars_order] shows that any other order gives the same string. *)

From S2P Require Import Prelude Errors GoStrings Conditional Model Defaults.

(** ** Definitions *)

Definition param_step (provided : gmap string string) (known : gset string) (d : ParamDef.t)
    : result (gset string) :=
  let name := ParamDef.Name d in
  if decide (name ∈ known) then fail_with [name] (PM ErrDuplicateParam) else
  let known := {[name]} ∪ known in
  if ParamDef.Required d && bool_decide (provided !! name = None)
  then fail_with [name] (PM ErrMissingParam)
  else Ok known.

Definition ValidateParams (defs : list ParamDef.t) (provided : gmap string string)
    : result unit :=
  known ← foldM (param_step provided) ∅ defs;
  foldM (fun _ '(k, _) =>
    if decide (k ∈ known) then Ok tt else fail_with [k] (PM ErrUnknownParam))
    tt (map_to_list provided).

Definition ResolveParams (defs : list ParamDef.t) (provided : gmap string string)
    : result (gmap string string) :=
  map_err (errorf []) (ValidateParams defs provided);;
  Ok (foldl (fun resolved d =>
    match provided !! ParamDef.Name d with
    | Some v => <[ParamDef.Name d := v]> resolved
    | None => <[ParamDef.Name d := ParamDef.Default d]> resolved
    end) ∅ defs).

(** [substituteVars], for any order [pairs] of the entries of the map. *)
Definition placeholder (prefix k : string) : string := "${" +:+ prefix +:+ k +:+ "}".

Definition substitute_pairs (s : string) (entries : list (string * string)) (prefix : string)
    : string :=
  Replace ((fun '(k, v) => (placeholder prefix k, v)) <$> entries) s.

Definition substituteVars (s : string) (combo : gmap string string) (prefix : string) : string :=
  if decide (combo = ∅) then s else substitute_pairs s (map_to_list combo) prefix.

Section helpers.
Variable sub : string -> string.

Definition substituteMatrixValues (m : option Matrix.t) : option Matrix.t :=
  m ← m;
  Some (m <| Matrix.Dimensions ::=
    fmap (fun d => d <| Dimension.Values ::= fmap sub |>) |>).

Definition substituteMounts (mounts : list Mount.t) : list Mount.t :=
  (fun m => m <| Mount.Source ::= sub |> <| Mount.Target ::= sub |>) <$> mounts.

Definition substituteCaches (caches : list Cache.t) : list Cache.t :=
  (fun c => c <| Cache.ID ::= sub |> <| Cache.Target ::= sub |>) <$> caches.

Definition substituteEnvValues (envs : list EnvVar.t) : list EnvVar.t :=
  (fun e => e <| EnvVar.Value ::= sub |>) <$> envs.

Definition substituteExports (exports : list Export_.t) : list Export_.t :=
  (fun e => e <| Export_.Path ::= sub |> <| Export_.Local ::= sub |>) <$> exports.

Definition substituteArtifacts (artifacts : list Artifact.t) : list Artifact.t :=
  (fun a => a <| Artifact.Source ::= sub |> <| Artifact.Target ::= sub |>) <$> artifacts.

Definition substituteSecretDecls (decls : list SecretDecl.t) : list SecretDecl.t :=
  (fun d => d <| SecretDecl.Var ::= sub |> <| SecretDecl.Path ::= sub |>
              <| SecretDecl.Cmd ::= sub |>) <$> decls.

Definition substituteSecretRefs (refs : list SecretRef.t) : list SecretRef.t :=
  (fun r => r <| SecretRef.Env ::= sub |> <| SecretRef.Mount ::= sub |>) <$> refs.

Definition substituteWhen (w : option When.t) : option When.t :=
  w ← w; Some (InvalidateAST (w <| When.Expression ::= sub |>)).

Definition substituteStepFields (s : Step.t) : Step.t :=
  s <| Step.Run ::= fmap sub |>
    <| Step.Workdir ::= sub |>
    <| Step.Mounts ::= substituteMounts |>
    <| Step.Caches ::= substituteCaches |>
    <| Step.Env ::= substituteEnvValues |>
    <| Step.Secrets ::= substituteSecretRefs |>
    <| Step.Exports ::= substituteExports |>
    <| Step.Artifacts ::= substituteArtifacts |>
    <| Step.When ::= substituteWhen |>.
End helpers.

Definition substituteJobVars (j : Job.t) (combo : gmap string string) (prefix : string) : Job.t :=
  let sub v := substituteVars v combo prefix in
  let c := Job_Clone j in
  c <| Job.Image ::= sub |>
    <| Job.Workdir ::= sub |>
    <| Job.Platform ::= sub |>
    <| Job.Matrix ::= substituteMatrixValues sub |>
    <| Job.Mounts ::= substituteMounts sub |>
    <| Job.Caches ::= substituteCaches sub |>
    <| Job.Env ::= substituteEnvValues sub |>
    <| Job.Exports ::= substituteExports sub |>
    <| Job.Artifacts ::= substituteArtifacts sub |>
    <| Job.Publish ::= fmap (fun p => p <| Publish.Image ::= sub |>) |>
    <| Job.Secrets ::= substituteSecretRefs sub |>
    <| Job.When ::= substituteWhen sub |>
    <| Job.Steps ::= fmap (substituteStepFields sub) |>.

Definition SubstituteParams (jobs : list Job.t) (params : gmap string string) : list Job.t :=
  if decide (params = ∅) then jobs else
  mapSlice jobs (fun j => substituteJobVars j params "param.").

Definition SubstituteSecretDeclParams (decls : list SecretDecl.t) (params : gmap string string)
    : list SecretDecl.t :=
  if decide (params = ∅ \/ decls = []) then decls else
  substituteSecretDecls (fun v => substituteVars v params "param.") decls.

(** ** [ValidateParams] and [ResolveParams] *)

(** The arguments [provided] fit the parameter list [defs]. *)
Definition params_fit (defs : list ParamDef.t) (provided : gmap string string) : Prop :=
  NoDup (ParamDef.Name <$> defs) /\
  (forall d, d ∈ defs -> ParamDef.Required d = true -> is_Some (provided !! ParamDef.Name d)) /\
  (forall k, is_Some (provided !! k) -> k ∈ ParamDef.Name <$> defs).

Lemma param_step_Ok provided known d known' :
  param_step provided known d = Ok known' <->
  (ParamDef.Required d = true -> is_Some (provided !! ParamDef.Name d)) /\
  ParamDef.Name d ∉ known /\ known' = {[ParamDef.Name d]} ∪ known.
Proof.
  unfold param_step. case_decide; [naive_solver|].
  destruct (provided !! ParamDef.Name d) as [v|].
  - rewrite bool_decide_false, andb_false_r by done. naive_solver.
  - rewrite bool_decide_true, andb_true_r by done.
    destruct (ParamDef.Required d); split; try naive_solver.
Qed.

Lemma known_loop_Ok (known : gset string) (l : list (string * string)) :
  foldM (fun _ '(k, _) =>
    if decide (k ∈ known) then Ok tt else @fail_with unit [k] (PM ErrUnknownParam)) tt l = Ok tt <->
  forall k v, (k, v) ∈ l -> k ∈ known.
Proof.
  induction l as [|[k v] l IH]; cbn; [set_solver|]. rewrite bind_Ok. split.
  - intros ([] & Hk & Hl). destruct (decide (k ∈ known)); [|done].
    intros k' v' [[= -> ->]|Hin]%elem_of_cons; [done|]. exact (proj1 IH Hl _ _ Hin).
  - intros H. exists tt. rewrite decide_True by (eapply (H k v); set_solver).
    split; [done|]. apply IH. intros k1 v1 ?. apply (H k1 v1). set_solver.
Qed.

Lemma ValidateParams_Ok defs provided :
  ValidateParams defs provided = Ok tt <-> params_fit defs provided.
Proof.
  unfold ValidateParams, params_fit. rewrite bind_Ok. split.
  - intros (known & Hk & Hu).
    apply (seen_loop_ok _ ParamDef.Name _ (param_step_Ok provided)) in Hk
      as (HF & Hnd & _ & ->).
    rewrite Forall_forall in HF. split_and!; [done|done|]. intros k [v Hv].
    assert (k ∈ list_to_set (ParamDef.Name <$> defs) ∪ (∅ : gset string)) as Hin.
    { apply (proj1 (known_loop_Ok _ _) Hu k v). by apply elem_of_map_to_list. }
    set_solver.
  - intros (Hnd & Hreq & Hkn). eexists. split.
    + apply (seen_loop_ok _ ParamDef.Name _ (param_step_Ok provided)).
      split_and!; [by apply Forall_forall|done|set_solver|done].
    + apply known_loop_Ok. intros k v Hkv%elem_of_map_to_list.
      assert (k ∈ ParamDef.Name <$> defs) by eauto. set_solver.
Qed.

Lemma ValidateParams_error defs provided e :
  ValidateParams defs provided = Fail e ->
  Is e (PM ErrDuplicateParam) = true \/ Is e (PM ErrMissingParam) = true \/
  Is e (PM ErrUnknownParam) = true.
Proof.
  unfold ValidateParams.
  intros [(l1 & d & l2 & b & _ & _ & H)%foldM_Fail|
    (k & _ & (l1 & [? ?] & l2 & b & _ & _ & H)%foldM_Fail)]%bind_Fail.
  - unfold param_step in H. case_decide.
    + left. by eapply fail_with_Is.
    + destruct (_ && _); [|done]. right; left. by eapply fail_with_Is.
  - case_decide; [done|]. right; right. by eapply fail_with_Is.
Qed.

Definition resolved_value (provided : gmap string string) (d : ParamDef.t) : string :=
  default (ParamDef.Default d) (provided !! ParamDef.Name d).

Lemma resolve_loop_lookup provided defs (m : gmap string string) k :
  NoDup (ParamDef.Name <$> defs) ->
  foldl (fun resolved d =>
    match provided !! ParamDef.Name d with
    | Some v => <[ParamDef.Name d := v]> resolved
    | None => <[ParamDef.Name d := ParamDef.Default d]> resolved
    end) m defs !! k =
  match list_find (fun d => ParamDef.Name d = k) defs with
  | Some (_, d) => Some (resolved_value provided d)
  | None => m !! k
  end.
Proof.
  revert m. induction defs as [|d defs IH]; intros m Hnd; cbn; [done|].
  apply NoDup_cons in Hnd as [Hni Hnd]. rewrite IH by done. clear IH.
  assert ((match provided !! ParamDef.Name d with
    | Some v => <[ParamDef.Name d := v]> m
    | None => <[ParamDef.Name d := ParamDef.Default d]> m
    end) = <[ParamDef.Name d := resolved_value provided d]> m) as ->
    by (unfold resolved_value; by destruct (provided !! _)).
  case_decide as Hk.
  - subst. destruct (list_find _ defs) as [[i d']|] eqn:Hf; cbn.
    + apply list_find_Some in Hf as (Hl & He & _). destruct Hni.
      rewrite <- He. apply list_elem_of_fmap_2. by eapply list_elem_of_lookup_2.
    + by rewrite lookup_insert_eq.
  - destruct (list_find _ defs) as [[i d']|]; cbn; [done|]. by rewrite lookup_insert_ne.
Qed.

(** ** [substituteVars] *)

(** Placeholder keys of the values Cicada substitutes: no closing brace. *)
Definition clean_key (k : string) : Prop := lacks "}"%char k.
#[export] Instance clean_key_dec k : Decision (clean_key k).
Proof. unfold clean_key. apply _. Defined.

Definition clean_keys (m : gmap string string) : Prop := map_Forall (fun k _ => clean_key k) m.
#[export] Instance clean_keys_dec m : Decision (clean_keys m).
Proof. unfold clean_keys. apply _. Defined.

Lemma placeholder_inj prefix k k' s :
  clean_key k -> clean_key k' ->
  HasPrefix s (placeholder prefix k) = true -> HasPrefix s (placeholder prefix k') = true ->
  k = k'.
Proof.
  intros Hk Hk' [t ->]%HasPrefix_spec H. unfold placeholder in H.
  rewrite !append_assoc in H. rewrite !HasPrefix_common in H.
  apply HasPrefix_spec in H as [t' H]. rewrite append_assoc in H.
  change ("}" +:+ ?x) with (String "}" x) in H.
  apply (f_equal (fun s => CutByte s "}")) in H. rewrite !CutByte_app in H by done.
  congruence.
Qed.

Abbreviation pairs_of prefix := (fmap (fun '(k, v) => (placeholder prefix k, v : string))).

Lemma elem_of_pairs prefix (l : list (string * string)) p :
  p ∈ pairs_of prefix l <-> exists k v, (k, v) ∈ l /\ p = (placeholder prefix k, v).
Proof.
  rewrite list_elem_of_fmap. split.
  - intros ([k v] & -> & ?). eauto.
  - intros (k & v & ? & ->). by exists (k, v).
Qed.

Lemma pairs_nonempty prefix l : nonempty_olds (pairs_of prefix l).
Proof. apply Forall_forall. by intros p (k & v & _ & ->)%elem_of_pairs. Qed.

(** Text without a dollar sign is copied. *)
Lemma substitute_lit prefix l s t :
  lacks "$" s -> Replace (pairs_of prefix l) (s +:+ t) = s +:+ Replace (pairs_of prefix l) t.
Proof.
  induction s as [|a s IH]; [done|]. intros [Ha Hs]%lacks_cons. rewrite !append_cons.
  rewrite Replace_skip; [by rewrite IH|apply pairs_nonempty|].
  apply first_match_None, Forall_forall. intros p (k & v & _ & ->)%elem_of_pairs.
  apply HasPrefix_head_ne. congruence.
Qed.

Section substitute.
Variable combo : gmap string string.
Variable prefix : string.
Hypothesis keys_clean : clean_keys combo.

Lemma entries_clean k v l : l ≡ₚ map_to_list combo -> (k, v) ∈ l -> clean_key k.
Proof. intros Hl. rewrite Hl. intros H%elem_of_map_to_list. by apply (keys_clean k v). Qed.

(** The iteration order of the map is unobservable. *)
Lemma substitute_order s l :
  l ≡ₚ map_to_list combo -> substitute_pairs s l prefix = substituteVars s combo prefix.
Proof.
  intros Hl. unfold substituteVars. case_decide as He.
  - subst. rewrite map_to_list_empty in Hl. apply Permutation_nil_r in Hl as ->.
    unfold substitute_pairs. cbn [fmap list_fmap]. pose proof (substitute_lit prefix [] s "") as H.
    clear. induction s as [|a s IH]; [done|]. rewrite Replace_skip; [by rewrite IH|constructor|done].
  - apply Replace_perm; [by rewrite Hl|].
    intros s' p q (k & v & Hin & ->)%elem_of_pairs (k' & v' & Hin' & ->)%elem_of_pairs Hp Hq.
    cbn in Hp, Hq. assert (k = k') as <-
      by (eapply placeholder_inj; [..|exact Hp|exact Hq]; by eapply entries_clean).
    f_equal. rewrite Hl in Hin, Hin'. apply elem_of_map_to_list in Hin, Hin'. congruence.
Qed.

Lemma substitute_hole k v t :
  combo !! k = Some v ->
  Replace (pairs_of prefix (map_to_list combo)) (placeholder prefix k +:+ t) =
  v +:+ Replace (pairs_of prefix (map_to_list combo)) t.
Proof.
  intros Hk. apply Replace_match; [apply pairs_nonempty|].
  destruct (first_match _ _) as [p|] eqn:Hf.
  - apply first_match_Some in Hf as [(k' & v' & Hin & ->)%elem_of_pairs Hp]. cbn in Hp.
    assert (k' = k) as ->.
    { eapply placeholder_inj; [by eapply entries_clean|by apply (keys_clean k v)|exact Hp|].
      apply HasPrefix_app. }
    apply elem_of_map_to_list in Hin. congruence.
  - apply first_match_None in Hf. rewrite Forall_forall in Hf.
    specialize (Hf (placeholder prefix k, v)). cbn in Hf. rewrite HasPrefix_app in Hf.
    discriminate Hf. apply elem_of_pairs. exists k, v. by rewrite elem_of_map_to_list.
Qed.

Lemma substitute_unknown k t :
  combo !! k = None -> clean_key k -> lacks "$" prefix -> lacks "$" k ->
  Replace (pairs_of prefix (map_to_list combo)) (placeholder prefix k +:+ t) =
  placeholder prefix k +:+ Replace (pairs_of prefix (map_to_list combo)) t.
Proof.
  intros Hk Hc Hlp Hlk. unfold placeholder at 2 3. rewrite !append_assoc.
  change ("${" +:+ ?x) with (String "$" ("{" +:+ x)).
  rewrite Replace_skip; [|apply pairs_nonempty|].
  - f_equal. pose proof (substitute_lit prefix (map_to_list combo) ("{" +:+ prefix +:+ k +:+ "}") t) as H.
    rewrite !append_assoc in H. apply H.
    rewrite !lacks_app. split_and!; [|done|done|]; unfold lacks; cbn; set_solver.
  - apply first_match_None, Forall_forall. intros p (k' & v' & Hin & ->)%elem_of_pairs. cbn [fst].
    apply not_true_is_false. intros Hp.
    assert (k' = k) as ->; [|by apply elem_of_map_to_list in Hin; congruence].
    eapply (placeholder_inj prefix); [by eapply entries_clean|done|exact Hp|].
    pose proof (HasPrefix_app (placeholder prefix k) t) as H. unfold placeholder in H at 1.
    by rewrite !append_assoc in H.
Qed.
End substitute.

(** A template: literal text and placeholders. *)
Inductive piece : Set :=
  | Lit (s : string)
  | Hole (k : string).

Definition piece_ok (p : piece) : Prop :=
  match p with
  | Lit s => lacks "$" s
  | Hole k => clean_key k /\ lacks "$" k
  end.

#[export] Instance piece_ok_dec p : Decision (piece_ok p).
Proof. destruct p; cbn; apply _. Defined.

Definition show_piece (prefix : string) (p : piece) : string :=
  match p with Lit s => s | Hole k => placeholder prefix k end.

(** A hole takes its value verbatim; a hole without a value stays. *)
Definition fill_piece (combo : gmap string string) (prefix : string) (p : piece) : string :=
  match p with Lit s => s | Hole k => default (placeholder prefix k) (combo !! k) end.

Definition concat_with {A} (f : A -> string) (l : list A) : string :=
  foldr (fun a s => f a +:+ s) "" l.

Lemma template_loop combo prefix ps :
  clean_keys combo -> lacks "$" prefix -> Forall piece_ok ps ->
  Replace (pairs_of prefix (map_to_list combo)) (concat_with (show_piece prefix) ps) =
  concat_with (fill_piece combo prefix) ps.
Proof.
  intros Hclean Hpre. induction 1 as [|p ps Hp _ IH]; [by apply Replace_nil, pairs_nonempty|].
  unfold concat_with in *. cbn [foldr]. rewrite <- IH.
  destruct p as [s|k]; cbn in Hp |- *; [by apply substitute_lit|].
  destruct (combo !! k) as [v|] eqn:Hk; cbn; [by apply substitute_hole|].
  destruct Hp. by apply substitute_unknown.
Qed.

(** Substitution leaves alone whatever holds no dollar sign. *)
Lemma substituteVars_lacks s combo prefix : lacks "$" s -> substituteVars s combo prefix = s.
Proof.
  intros Hs. unfold substituteVars. case_decide; [done|]. unfold substitute_pairs.
  rewrite <- (append_nil_r s) at 1. rewrite substitute_lit by done.
  rewrite Replace_nil by apply pairs_nonempty. apply append_nil_r.
Qed.

Lemma substituteVars_empty s prefix : substituteVars s ∅ prefix = s.
Proof. unfold substituteVars. by rewrite decide_True. Qed.

(** The parts of a job that substitution never touches. *)
Lemma substituteJobVars_fields j combo prefix :
  let j' := substituteJobVars j combo prefix in
  Job.Name j' = Job.Name j /\ Job.DependsOn j' = Job.DependsOn j /\
  Job.MatrixValues j' = Job.MatrixValues j /\ Job.Shell j' = Job.Shell j /\
  Artifact.From <$> Job.Artifacts j' = Artifact.From <$> Job.Artifacts j /\
  Step.Name <$> Job.Steps j' = Step.Name <$> Job.Steps j /\
  (Job.Matrix j' = None <-> Job.Matrix j = None).
Proof.
  unfold substituteJobVars. rewrite Job_Clone_id. cbn.
  split_and!; try done.
  - unfold substituteArtifacts. rewrite <- list_fmap_compose. by apply list_fmap_ext.
  - rewrite <- list_fmap_compose. by apply list_fmap_ext.
  - by destruct (Job.Matrix j).
Qed.

(** ** Properties *)

(** C34: [ResolveParams] succeeds exactly when the parameter names are distinct, every
    required one is provided and nothing unknown is; the result then has one entry per
    parameter, its provided value or else its default.  Otherwise the error is one of the
    three parameter errors. *)
Theorem ResolveParams_spec defs provided :
  (forall m, ResolveParams defs provided = Ok m <->
     params_fit defs provided /\
     (forall k, m !! k = match list_find (fun d => ParamDef.Name d = k) defs with
                         | Some (_, d) => Some (resolved_value provided d)
                         | None => None
                         end)) /\
  (forall e, ResolveParams defs provided = Fail e ->
     ~ params_fit defs provided /\
     (Is e (PM ErrDuplicateParam) = true \/ Is e (PM ErrMissingParam) = true \/
      Is e (PM ErrUnknownParam) = true)).
Proof.
  unfold ResolveParams. split.
  - intros m. rewrite bind_Ok. setoid_rewrite map_err_Ok. split.
    + intros ([] & Hv & [= <-]). apply ValidateParams_Ok in Hv. split; [done|].
      intros k. by rewrite resolve_loop_lookup by apply Hv.
    + intros [Hfit Hm]. exists tt. split; [by apply ValidateParams_Ok|]. f_equal.
      apply map_eq. intros k. rewrite resolve_loop_lookup by apply Hfit. by rewrite Hm.
  - intros e [(e' & He & ->)%map_err_Fail|(? & _ & ?)]%bind_Fail; [|done]. split.
    + intros Hfit%ValidateParams_Ok. congruence.
    + rewrite !Is_errorf. by eapply ValidateParams_error.
Qed.

(** Substituting the values of a map whose keys hold no closing brace does not depend
    on the order in which Go iterates over the map. *)
Theorem substituteVars_order combo prefix s l
  (Hkeys : clean_keys combo)
  (Hl : l ≡ₚ map_to_list combo) :
  substitute_pairs s l prefix = substituteVars s combo prefix.
Proof. by apply substitute_order. Qed.

Definition ex_combo : gmap string string := {[ "os" := "${matrix.v}"; "v" := "1.2" ]}.

Lemma substituteVars_order_witness :
  substitute_pairs "a-${matrix.os}-${matrix.v}" [("v", "1.2"); ("os", "${matrix.v}")] "matrix."
  = substituteVars "a-${matrix.os}-${matrix.v}" ex_combo "matrix.".
Proof.
  apply substituteVars_order.
  - apply (bool_decide_unpack _). vm_compute. exact I.
  - vm_compute. apply Permutation_swap || reflexivity.
Defined.

(** C40: [substituteVars] replaces every placeholder of a template by its value verbatim
    (values are never rescanned for placeholders), leaves placeholders without a value and
    all other text unchanged. *)
Theorem substituteVars_template combo prefix ps
  (Hkeys : clean_keys combo)
  (Hprefix : lacks "$" prefix) (Hps : Forall piece_ok ps) :
  substituteVars (concat_with (show_piece prefix) ps) combo prefix =
  concat_with (fill_piece combo prefix) ps.
Proof.
  unfold substituteVars. case_decide as He; [|by apply template_loop].
  subst. clear. induction ps as [|[s|k] ps IH]; [done|..];
    unfold concat_with in *; cbn [foldr]; rewrite IH; done.
Qed.

Lemma substituteVars_template_witness :
  substituteVars "a-${matrix.os}-${matrix.x}" ex_combo "matrix." = "a-${matrix.v}-${matrix.x}".
Proof.
  apply (substituteVars_template ex_combo "matrix." [Lit "a-"; Hole "os"; Lit "-"; Hole "x"]).
  - apply (bool_decide_unpack _). vm_compute. exact I.
  - apply (bool_decide_unpack _). vm_compute. exact I.
  - apply (bool_decide_unpack _). vm_compute. exact I.
Defined.
