(* ===== verification/Expand.v ===== *)
(** * expand.go: two-phase matrix expansion

    Phase 1 replicates every job for every combination of the pipeline matrix, with
    dependencies inside the same replica; phase 2 replaces a job with a matrix by its
    variants, and a dependency on it by dependencies on all of them. *)

From S2P Require Import Prelude Errors GoStrings Regex Conditional Model Defaults Names Params.

(** ** Validation *)

Definition maxMatrixCombinations : Z := 10000.

(** One iteration; the accumulator is the [seen] set and the running [total]. *)
Definition matrix_step (acc : gset string * Z) (d : Dimension.t) : result (gset string * Z) :=
  let '(seen, total) := acc in
  let name := Dimension.Name d in
  if negb (MatchString validDimName name) then fail_with [name] (PM ErrInvalidDimName)
  else if decide (name ∈ seen) then fail_with [name] (PM ErrDuplicateDim)
  else if decide (Dimension.Values d = []) then fail_with [name] (PM ErrEmptyDimension)
  else
    let total := wrap64 (total * Z.of_nat (length (Dimension.Values d))) in
    if decide (maxMatrixCombinations < total)%Z then fail_with [] (PM ErrMatrixTooLarge)
    else Ok ({[name]} ∪ seen, total).

Definition ValidateMatrix (m : option Matrix.t) : result unit :=
  match m with
  | None => fail_with [] (PM ErrEmptyMatrix)
  | Some m =>
      match Matrix.Dimensions m with
      | [] => fail_with [] (PM ErrEmptyMatrix)
      | dims => foldM matrix_step (∅, 1%Z) dims;; Ok tt
      end
  end.

Definition checkDimCollisions (pMatrix : Matrix.t) (jobs : list Job.t) : result unit :=
  let pipelineDims : gset string := list_to_set (Dimension.Name <$> Matrix.Dimensions pMatrix) in
  foldM (fun _ j =>
    match Job.Matrix j with
    | None => Ok tt
    | Some m =>
        foldM (fun _ d =>
          let name := Dimension.Name d in
          if decide (name ∈ pipelineDims)
          then fail_with [Job.Name j; name] (PM ErrDuplicateDim) else Ok tt)
          tt (Matrix.Dimensions m)
    end) tt jobs.

(** ** Helpers *)

Definition mergeMatrixValues (existing combo : option (gmap string string))
    : option (gmap string string) :=
  match existing, combo with
  | None, None => None
  | _, _ => Some (default ∅ combo ∪ default ∅ existing)
  end.

Definition replicateJob (j : Job.t) (combo : gmap string string) : Job.t :=
  substituteJobVars j combo "matrix.".

Definition namespaceCaches (jobName : string) (caches : list Cache.t) : list Cache.t :=
  (fun c => c <| Cache.ID := matrixCacheID (Cache.ID c) jobName |>) <$> caches.

Definition correlateDeps (deps : list string) (combo : gmap string string) : list string :=
  mapSlice deps (fun dep => expandedName dep combo).

Definition rewriteDeps (deps : list string) (expansionMap : gmap string (list string))
    : list string :=
  flatMap deps (fun dep => match expansionMap !! dep with
                           | Some variants => variants
                           | None => [dep]
                           end).

Definition correlateArtifactFroms (artifacts : list Artifact.t) (combo : gmap string string)
    : list Artifact.t :=
  (fun a => if decide (Artifact.From a = "") then a
            else a <| Artifact.From := expandedName (Artifact.From a) combo |>) <$> artifacts.

Definition rewriteArtifactFroms (artifacts : list Artifact.t)
    (expansionMap : gmap string (list string)) : list Artifact.t :=
  (fun a => if decide (Artifact.From a = "") then a
            else match expansionMap !! Artifact.From a with
                 | Some [variant] => a <| Artifact.From := variant |>
                 | _ => a
                 end) <$> artifacts.

(** ** Phase 1 *)

(** The body of the double loop: the replica of [j] for [combo]. *)
Definition correlatedJob (combo : gmap string string) (j : Job.t) : Job.t :=
  let job := replicateJob j combo in
  let name := expandedName (Job.Name j) combo in
  job <| Job.Name := name |>
      <| Job.MatrixValues := Some (maps_Clone combo) |>
      <| Job.DependsOn := correlateDeps (Job.DependsOn j) combo |>
      <| Job.Artifacts := correlateArtifactFroms (Job.Artifacts job) combo |>
      <| Job.Caches := namespaceCaches name (Job.Caches job) |>
      <| Job.Steps := (fun s =>
           s <| Step.Artifacts := correlateArtifactFroms (Step.Artifacts s) combo |>
             <| Step.Caches := namespaceCaches name (Step.Caches s) |>) <$> Job.Steps job |>.

Definition expandPipeline (p : Pipeline.t) : result Pipeline.t :=
  match Pipeline.Matrix p with
  | None => Ok p
  | Some m =>
      map_err (errorf []) (ValidateMatrix (Some m));;
      map_err (errorf []) (checkDimCollisions m (Pipeline.Jobs p));;
      combos ← map_err (errorf []) (Combinations m);
      let expanded := Pipeline_Clone (p <| Pipeline.Jobs := [] |>) in
      Ok (expanded <| Pipeline.Matrix := None |>
                   <| Pipeline.Jobs := flatMap combos (fun combo =>
                        mapSlice (Pipeline.Jobs p) (correlatedJob combo)) |>)
  end.

(** ** Phase 2 *)

Definition hasMatrix (j : Job.t) : bool := bool_decide (is_Some (Job.Matrix j)).

(** The variant of [job] for [combo]. *)
Definition variantJob (job : Job.t) (combo : gmap string string) : Job.t :=
  let variant := replicateJob job combo in
  let name := expandedName (Job.Name job) combo in
  variant <| Job.Name := name |>
          <| Job.Matrix := None |>
          <| Job.MatrixValues := mergeMatrixValues (Job.MatrixValues job) (Some combo) |>
          <| Job.Caches := namespaceCaches name (Job.Caches variant) |>
          <| Job.Steps := (fun s => s <| Step.Caches := namespaceCaches name (Step.Caches s) |>)
               <$> Job.Steps variant |>.

(** One iteration of the first loop: [expansionMap] and [expanded]. *)
Definition expand_step (acc : gmap string (list string) * list Job.t) (job : Job.t)
    : result (gmap string (list string) * list Job.t) :=
  let '(expansionMap, expanded) := acc in
  match Job.Matrix job with
  | None =>
      let r := replicateJob job ∅ in
      Ok (<[Job.Name job := [Job.Name job]]> expansionMap,
          expanded ++ [r <| Job.MatrixValues := maps_Clone (Job.MatrixValues job) |>])
  | Some m =>
      map_err (errorf [Job.Name job]) (ValidateMatrix (Some m));;
      combos ← map_err (errorf [Job.Name job]) (Combinations m);
      let variants := variantJob job <$> combos in
      Ok (<[Job.Name job := Job.Name <$> variants]> expansionMap, expanded ++ variants)
  end.

(** The second loop's body. *)
Definition rewriteJob (expansionMap : gmap string (list string)) (j : Job.t) : Job.t :=
  j <| Job.DependsOn := rewriteDeps (Job.DependsOn j) expansionMap |>
    <| Job.Artifacts := rewriteArtifactFroms (Job.Artifacts j) expansionMap |>
    <| Job.Steps := (fun s =>
         s <| Step.Artifacts := rewriteArtifactFroms (Step.Artifacts s) expansionMap |>)
         <$> Job.Steps j |>.

Definition expandJobs (p : Pipeline.t) : result Pipeline.t :=
  if negb (existsb hasMatrix (Pipeline.Jobs p)) then Ok p else
  '(expansionMap, expanded) ← foldM expand_step (∅, []) (Pipeline.Jobs p);
  let expanded := rewriteJob expansionMap <$> expanded in
  let result := Pipeline_Clone (p <| Pipeline.Jobs := [] |>) in
  Ok (result <| Pipeline.Jobs := expanded |>).

Definition Expand (p : Pipeline.t) : result Pipeline.t :=
  if bool_decide (Pipeline.Matrix p = None) && negb (existsb hasMatrix (Pipeline.Jobs p))
  then Ok p else
  expanded ← map_err (errorf []) (expandPipeline p);
  map_err (errorf []) (expandJobs expanded).

Definition ex_job : Job.t :=
  Job.empty "build" <| Job.Image := "go:${matrix.go}" |>
    <| Job.Matrix := Some (Matrix.mk [Dimension.mk "go" ["1.21"; "1.22"]]) |>.
Definition ex_pipeline : Pipeline.t :=
  Pipeline.mk "p" [ex_job; Job.empty "test" <| Job.DependsOn := ["build"] |>] [] []
    (Some (Matrix.mk [Dimension.mk "os" ["a"; "b"]])) None None.

Example Expand_ex :
  (r ← Expand ex_pipeline;
   Ok ((fun j => (Job.Name j, Job.Image j, Job.DependsOn j)) <$> Pipeline.Jobs r)) =
  Ok [("build[go=1.21,os=a]", "go:1.21", []);
      ("build[go=1.22,os=a]", "go:1.22", []);
      ("test[os=a]", "", ["build[go=1.21,os=a]"; "build[go=1.22,os=a]"]);
      ("build[go=1.21,os=b]", "go:1.21", []);
      ("build[go=1.22,os=b]", "go:1.22", []);
      ("test[os=b]", "", ["build[go=1.21,os=b]"; "build[go=1.22,os=b]"])].
Proof. vm_compute. reflexivity. Qed.

(** ** [ValidateMatrix] *)

(** What an accepted matrix looks like. *)
Definition dim_ok (d : Dimension.t) : Prop :=
  MatchString validDimName (Dimension.Name d) = true /\ Dimension.Values d <> [].

Definition matrix_ok (m : Matrix.t) : Prop :=
  Matrix.Dimensions m <> [] /\ Forall dim_ok (Matrix.Dimensions m) /\
  NoDup (Dimension.Name <$> Matrix.Dimensions m) /\
  (combo_count (Matrix.Dimensions m) <= maxMatrixCombinations)%Z.

(** A string header takes 16 bytes, so no slice of strings of a 64-bit process has [2^48]
    elements; below that bound the [int] product of [ValidateMatrix] cannot wrap. *)
Definition addressable (dims : list Dimension.t) : Prop :=
  Forall (fun d => Z.of_nat (length (Dimension.Values d)) < 2 ^ 48)%Z dims.
#[export] Instance addressable_dec dims : Decision (addressable dims).
Proof. unfold addressable. apply _. Defined.

Lemma combo_count_cons d dims :
  combo_count (d :: dims) = (Z.of_nat (length (Dimension.Values d)) * combo_count dims)%Z.
Proof. done. Qed.

Lemma combo_count_pos dims :
  Forall (fun d => Dimension.Values d <> []) dims -> (1 <= combo_count dims)%Z.
Proof.
  induction 1 as [|d dims Hd _ IH]; [done|]. rewrite combo_count_cons.
  destruct (Dimension.Values d) as [|v vs]; [done|]. cbn [length].
  generalize dependent (combo_count dims). intros. rewrite Nat2Z.inj_succ. nia.
Qed.

Lemma dims_ok_pos dims : Forall dim_ok dims -> (1 <= combo_count dims)%Z.
Proof. intros HF. apply combo_count_pos. eapply Forall_impl; [exact HF|]. by intros x [_ ?]. Qed.

Lemma matrix_step_Ok seen total d acc :
  (1 <= total <= maxMatrixCombinations)%Z -> addressable [d] ->
  matrix_step (seen, total) d = Ok acc <->
  dim_ok d /\ Dimension.Name d ∉ seen /\
  (total * Z.of_nat (length (Dimension.Values d)) <= maxMatrixCombinations)%Z /\
  acc = ({[Dimension.Name d]} ∪ seen, (total * Z.of_nat (length (Dimension.Values d)))%Z).
Proof.
  intros Ht Ha. unfold addressable in Ha. rewrite Forall_singleton in Ha. unfold matrix_step, dim_ok.
  unfold maxMatrixCombinations in *.
  assert (0 <= total * Z.of_nat (length (Dimension.Values d)) <= 10000 * 2 ^ 48)%Z as Hb
    by (split; [apply Z.mul_nonneg_nonneg|apply Z.mul_le_mono_nonneg]; lia).
  rewrite wrap64_id by (unfold MaxInt; lia).
  destruct (MatchString _ _); cbn; [|naive_solver].
  repeat case_decide; naive_solver lia.
Qed.

Lemma matrix_loop_Ok seen total dims acc :
  (1 <= total <= maxMatrixCombinations)%Z -> addressable dims ->
  foldM matrix_step (seen, total) dims = Ok acc <->
  Forall dim_ok dims /\ NoDup (Dimension.Name <$> dims) /\
  (forall d, d ∈ dims -> Dimension.Name d ∉ seen) /\
  (total * combo_count dims <= maxMatrixCombinations)%Z /\
  acc = (list_to_set (Dimension.Name <$> dims) ∪ seen, (total * combo_count dims)%Z).
Proof.
  revert seen total. induction dims as [|d dims IH]; intros seen total Ht Ha.
  { cbn. rewrite Z.mul_1_r. split.
    - intros [= <-]. split_and!; [done|constructor|set_solver|lia|f_equal; set_solver].
    - intros (_ & _ & _ & _ & ->). do 2 f_equal. set_solver. }
  apply Forall_cons in Ha as [Hd Ha].
  cbn [foldM]. rewrite bind_Ok. split.
  - intros (a1 & Hs & Hl). apply matrix_step_Ok in Hs as (Hok & Hn & Hle & ->);
      [|done|by apply Forall_singleton].
    set (n := Z.of_nat (length (Dimension.Values d))) in *.
    assert (1 <= n)%Z by (unfold n; destruct Hok as [_ ?]; destruct (Dimension.Values d); [done|cbn; lia]).
    apply IH in Hl as (HF & Hnd & Hdisj & Hle' & ->); [|nia|done].
    rewrite combo_count_cons. fold n. split_and!; [by constructor| | |lia|].
    + apply NoDup_cons. split; [|done]. intros (x & Hx & Hin)%list_elem_of_fmap.
      apply (Hdisj x Hin). set_solver.
    + set_solver.
    + f_equal; [set_solver|lia].
  - intros ([Hok HF]%Forall_cons & [Hni Hnd]%NoDup_cons & Hdisj & Hle & ->).
    rewrite combo_count_cons in *. cbn in Hni, Hnd |- *.
    set (n := Z.of_nat (length (Dimension.Values d))) in *.
    pose proof (dims_ok_pos dims HF) as Hp.
    assert (1 <= n)%Z by (unfold n; destruct Hok as [_ ?]; destruct (Dimension.Values d); [done|cbn; lia]).
    assert (total * n <= maxMatrixCombinations)%Z by nia.
    eexists. split.
    + apply matrix_step_Ok; [done|by apply Forall_singleton|]. split_and!; [done|set_solver|done|done].
    + apply IH; [fold n; nia|done|]. fold n. split_and!; [done|done| |lia|].
      * intros x Hx [Hk%elem_of_singleton|Hk]%elem_of_union; [|set_solver].
        apply Hni, list_elem_of_fmap. eauto.
      * f_equal; [set_solver|lia].
Qed.

Lemma ValidateMatrix_Ok m :
  addressable (Matrix.Dimensions m) -> ValidateMatrix (Some m) = Ok tt <-> matrix_ok m.
Proof.
  intros Ha. unfold ValidateMatrix, matrix_ok.
  destruct (Matrix.Dimensions m) as [|d dims] eqn:Hd; [naive_solver|].
  rewrite bind_Ok. split.
  - intros (acc & H & _). apply matrix_loop_Ok in H as (? & ? & _ & ? & _);
      [|unfold maxMatrixCombinations; lia|done]. split_and!; [done|done|done|lia].
  - intros (_ & ? & ? & ?). eexists. split; [|done].
    apply matrix_loop_Ok; [unfold maxMatrixCombinations; lia|done|].
    split_and!; [done|done|set_solver|lia|done].
Qed.

(** The combinations of a valid matrix. *)
Definition combos_of (m : Matrix.t) : list (gmap string string) :=
  foldl extend [∅] (Matrix.Dimensions m).

Lemma Combinations_combos m combos : 
  Matrix.Dimensions m <> [] -> Combinations m = Ok combos -> combos = combos_of m.
Proof.
  unfold Combinations, combos_of. destruct (Matrix.Dimensions m) eqn:Hd; [done|].
  intros _ (? & _ & [= <-])%bind_Ok. done.
Qed.

Lemma count_loop_fits total dims :
  (0 <= total)%Z -> Forall dim_ok dims -> (total * combo_count dims <= MaxInt)%Z ->
  exists t, foldM count_step total dims = Ok t.
Proof.
  revert total. induction dims as [|d dims IH]; intros total Ht HF Hle; cbn; [eauto|].
  apply Forall_cons in HF as [[_ Hd] HF]. rewrite combo_count_cons in Hle.
  pose proof (dims_ok_pos dims HF) as Hp.
  set (n := Z.of_nat (length (Dimension.Values d))) in *.
  assert (0 <= n)%Z by lia.
  assert (0 <= total * n <= MaxInt /\ 1 <= n)%Z as [Hb Hn].
  { assert (1 <= n)%Z by (unfold n; destruct (Dimension.Values d); [done|cbn; lia]).
    split; [|done]. clearbody n. generalize dependent (combo_count dims). intros c. intros.
    split; [nia|]. assert (total * n * 1 <= total * n * c)%Z; [|lia].
    apply Z.mul_le_mono_nonneg_l; nia. }
  assert (total <= MaxInt)%Z by nia.
  destruct (count_step_fits total d) as [t Hs]; [done|fold n; lia|]. rewrite Hs. cbn.
  apply count_step_Ok in Hs as [-> ?]; [|done]. fold n. apply IH; [lia|done|lia].
Qed.

Lemma Combinations_ok m : matrix_ok m -> Combinations m = Ok (combos_of m).
Proof.
  intros (Hne & HF & _ & Hle). unfold Combinations, combos_of.
  destruct (Matrix.Dimensions m) as [|d dims] eqn:Hd; [done|].
  destruct (count_loop_fits 1 (d :: dims)) as [t ->]; [lia|done| |done].
  unfold maxMatrixCombinations, MaxInt in *. lia.
Qed.

(** ** Phase 2 *)

(** The variants of one job: one per combination, or the job itself. *)
Definition variants_of (j : Job.t) : list Job.t :=
  match Job.Matrix j with
  | None => [replicateJob j ∅ <| Job.MatrixValues := Job.MatrixValues j |>]
  | Some m => variantJob j <$> combos_of m
  end.

Definition job_matrix_valid (j : Job.t) : Prop :=
  forall m, Job.Matrix j = Some m -> ValidateMatrix (Some m) = Ok tt.

Lemma ValidateMatrix_nonempty m u :
  ValidateMatrix (Some m) = Ok u -> Matrix.Dimensions m <> [].
Proof. unfold ValidateMatrix. by destruct (Matrix.Dimensions m). Qed.

Lemma replicateJob_Name j combo : Job.Name (replicateJob j combo) = Job.Name j.
Proof. unfold replicateJob. by destruct (substituteJobVars_fields j combo "matrix.") as (-> & _). Qed.

Lemma replicateJob_DependsOn j combo : Job.DependsOn (replicateJob j combo) = Job.DependsOn j.
Proof. unfold replicateJob. by destruct (substituteJobVars_fields j combo "matrix.") as (_ & -> & _). Qed.

Lemma replicateJob_Matrix j combo :
  Job.Matrix (replicateJob j combo) =
  substituteMatrixValues (fun v => substituteVars v combo "matrix.") (Job.Matrix j).
Proof. unfold replicateJob, substituteJobVars. rewrite Job_Clone_id. done. Qed.

Lemma variant_Name j combo : Job.Name (variantJob j combo) = expandedName (Job.Name j) combo.
Proof. unfold variantJob. by destruct (replicateJob _ _). Qed.

Lemma variant_DependsOn j combo : Job.DependsOn (variantJob j combo) = Job.DependsOn j.
Proof. rewrite <- (replicateJob_DependsOn j combo). unfold variantJob. by destruct (replicateJob _ _). Qed.

Lemma set_MatrixValues j mv :
  let j' := j <| Job.MatrixValues := mv |> in
  Job.Matrix j' = Job.Matrix j /\ Job.DependsOn j' = Job.DependsOn j /\
  Job.Name j' = Job.Name j.
Proof. done. Qed.

Lemma variants_of_spec j v :
  v ∈ variants_of j -> Job.Matrix v = None /\ Job.DependsOn v = Job.DependsOn j.
Proof.
  unfold variants_of. destruct (Job.Matrix j) as [m|] eqn:Hm.
  - intros (c & -> & _)%list_elem_of_fmap. split; [done|]. apply variant_DependsOn.
  - intros ->%list_elem_of_singleton.
    destruct (set_MatrixValues (replicateJob j ∅) (Job.MatrixValues j)) as (-> & -> & _).
    split; [|apply replicateJob_DependsOn]. by rewrite replicateJob_Matrix, Hm.
Qed.

(** What the first loop has computed after the jobs [done]. *)
Definition expand_inv (done : list Job.t) (acc : gmap string (list string) * list Job.t) : Prop :=
  acc.2 = done ≫= variants_of /\ Forall job_matrix_valid done /\
  (forall n, is_Some (acc.1 !! n) <-> n ∈ Job.Name <$> done) /\
  (forall n names, acc.1 !! n = Some names ->
     exists j, j ∈ done /\ Job.Name j = n /\ names = Job.Name <$> variants_of j).

Lemma expand_step_inv l acc j acc' :
  expand_inv l acc -> expand_step acc j = Ok acc' -> expand_inv (l ++ [j]) acc'.
Proof.
  destruct acc as [em ex]. intros (Hex & HF & Hdom & Hem) Hs. cbn in Hex. subst ex.
  assert (acc' = (<[Job.Name j := Job.Name <$> variants_of j]> em, (l ≫= variants_of) ++ variants_of j)
    /\ job_matrix_valid j) as [-> Hj].
  { unfold expand_step in Hs. unfold variants_of at 1 3. unfold job_matrix_valid.
    destruct (Job.Matrix j) as [m|] eqn:Hm.
    - apply bind_Ok in Hs as ([] & Hv%map_err_Ok & Hs).
      apply bind_Ok in Hs as (combos & Hc%map_err_Ok & [= <-]).
      apply Combinations_combos in Hc as ->; [|by eapply ValidateMatrix_nonempty].
      split; [done|]. by intros ? [= <-].
    - injection Hs as <-. split; [|done]. cbn [fmap list_fmap].
      destruct (set_MatrixValues (replicateJob j ∅) (Job.MatrixValues j)) as (_ & _ & ->).
      by rewrite replicateJob_Name. }
  unfold expand_inv. cbn. split_and!.
  - rewrite bind_app. cbn. by rewrite app_nil_r.
  - apply Forall_app. split; [done|]. by apply Forall_singleton.
  - intros n. rewrite fmap_app, elem_of_app. cbn. rewrite list_elem_of_singleton.
    rewrite lookup_insert_is_Some, <- Hdom. cbn. destruct (decide (Job.Name j = n)); naive_solver.
  - intros n names [[<- <-]|[Hne Hl]]%lookup_insert_Some.
    + exists j. split_and!; [set_solver|done|done].
    + apply Hem in Hl as (j' & ? & ? & ?). exists j'. split_and!; [set_solver|done|done].
Qed.

Lemma expand_loop jobs em ex :
  foldM expand_step (∅, []) jobs = Ok (em, ex) -> expand_inv jobs (em, ex).
Proof.
  apply foldM_inv.
  - split_and!; [done|constructor| |].
    + intros n. cbn. rewrite lookup_empty. split; [by intros [? ?]|set_solver].
    + intros n names. cbn. by rewrite lookup_empty.
  - intros. by eapply expand_step_inv.
Qed.

(** The loop fails only on an invalid matrix. *)
Lemma expand_loop_total jobs acc :
  Forall (fun j => forall m, Job.Matrix j = Some m ->
    matrix_ok m /\ addressable (Matrix.Dimensions m)) jobs ->
  exists acc', foldM expand_step acc jobs = Ok acc'.
Proof.
  intros HF. destruct (foldM_total (fun _ => True) expand_step acc jobs) as (? & ? & _); [done| |eauto].
  intros [em ex] j Hj _. rewrite Forall_forall in HF. specialize (HF j Hj).
  unfold expand_step. destruct (Job.Matrix j) as [m|]; [|eauto].
  destruct (HF m eq_refl) as [Hok Ha]. rewrite (proj2 (ValidateMatrix_Ok m Ha) Hok). cbn.
  rewrite Combinations_ok by done. cbn. eauto.
Qed.

Lemma existsb_hasMatrix jobs :
  existsb hasMatrix jobs = false <-> Forall (fun j => Job.Matrix j = None) jobs.
Proof.
  induction jobs as [|j jobs IH]; cbn; [by split|].
  rewrite orb_false_iff, Forall_cons, IH. unfold hasMatrix. rewrite bool_decide_eq_false.
  by rewrite eq_None_not_Some.
Qed.

Lemma expandJobs_cases p p' :
  expandJobs p = Ok p' ->
  (Forall (fun j => Job.Matrix j = None) (Pipeline.Jobs p) /\ p' = p) \/
  (exists em, expand_inv (Pipeline.Jobs p) (em, Pipeline.Jobs p ≫= variants_of) /\
     p' = p <| Pipeline.Jobs := rewriteJob em <$> (Pipeline.Jobs p ≫= variants_of) |>).
Proof.
  unfold expandJobs. rewrite Pipeline_Clone_id.
  destruct (existsb _ _) eqn:He; cbn [negb].
  - intros ([em ex] & Hl%expand_loop & [= <-])%bind_Ok. right. exists em.
    pose proof Hl as (Hex & _). cbn in Hex. subst ex. done.
  - intros [= <-]. left. by apply existsb_hasMatrix in He.
Qed.

Lemma variants_names_in jobs j n :
  j ∈ jobs -> n ∈ Job.Name <$> variants_of j -> n ∈ Job.Name <$> (jobs ≫= variants_of).
Proof.
  intros Hj (v & -> & Hv)%list_elem_of_fmap. apply list_elem_of_fmap_2, list_elem_of_bind. eauto.
Qed.

Lemma fmap_rewriteJob_Name em (jobs : list Job.t) : Job.Name <$> (rewriteJob em <$> jobs) = Job.Name <$> jobs.
Proof. rewrite <- list_fmap_compose. by apply list_fmap_ext. Qed.

Lemma expandJobs_deps_closed p p' :
  expandJobs p = Ok p' -> deps_closed (Pipeline.Jobs p) -> deps_closed (Pipeline.Jobs p').
Proof.
  intros [[_ ->]|(em & (_ & _ & Hdom & Hem) & ->)]%expandJobs_cases Hc; [done|].
  cbn in *. intros j dep Hj Hdep. rewrite fmap_rewriteJob_Name.
  apply list_elem_of_fmap in Hj as (v & -> & Hv). cbn in Hdep.
  apply list_elem_of_bind in Hv as (j & Hv & Hj).
  apply variants_of_spec in Hv as [_ Hdeps]. rewrite Hdeps in Hdep.
  apply elem_of_flatMap in Hdep as (d & Hd & Hdep).
  specialize (Hc j d Hj Hd). apply Hdom in Hc as [names Hn]. rewrite Hn in Hdep.
  apply Hem in Hn as (j' & Hj' & _ & ->). exact (variants_names_in _ _ _ Hj' Hdep).
Qed.

Lemma expandJobs_no_matrix p p' :
  expandJobs p = Ok p' ->
  Forall (fun j => Job.Matrix j = None) (Pipeline.Jobs p') /\ Pipeline.Matrix p' = Pipeline.Matrix p.
Proof.
  intros [[HF ->]|(em & _ & ->)]%expandJobs_cases; [done|]. cbn. split; [|done].
  apply Forall_forall. intros j' (v & -> & (j & Hv & _)%list_elem_of_bind)%list_elem_of_fmap.
  by apply variants_of_spec in Hv as [? _].
Qed.

(** ** Phase 1 *)

Lemma expandPipeline_cases p p' :
  expandPipeline p = Ok p' ->
  (Pipeline.Matrix p = None /\ p' = p) \/
  (exists m, Pipeline.Matrix p = Some m /\ ValidateMatrix (Some m) = Ok tt /\
     checkDimCollisions m (Pipeline.Jobs p) = Ok tt /\ Combinations m = Ok (combos_of m) /\
     p' = p <| Pipeline.Matrix := None |>
            <| Pipeline.Jobs := combos_of m ≫= fun c => correlatedJob c <$> Pipeline.Jobs p |>).
Proof.
  unfold expandPipeline. rewrite Pipeline_Clone_id.
  destruct (Pipeline.Matrix p) as [m|]; [|intros [= <-]; by left].
  intros ([] & Hv%map_err_Ok & H)%bind_Ok. apply bind_Ok in H as ([] & Hd%map_err_Ok & H).
  apply bind_Ok in H as (combos & Hc%map_err_Ok & [= <-]). right. exists m.
  pose proof (Combinations_combos _ _ (ValidateMatrix_nonempty _ _ Hv) Hc) as ->.
  split_and!; [done..|]. by rewrite flatMap_bind.
Qed.

Lemma expandPipeline_deps_closed p p' :
  expandPipeline p = Ok p' -> deps_closed (Pipeline.Jobs p) -> deps_closed (Pipeline.Jobs p').
Proof.
  intros [[_ ->]|(m & _ & _ & _ & _ & ->)]%expandPipeline_cases Hc; [done|]. cbn.
  intros j dep (c & Hj & Hin)%list_elem_of_bind Hdep.
  apply list_elem_of_fmap in Hj as (j0 & -> & Hj0). cbn in Hdep.
  apply list_elem_of_fmap in Hdep as (d & -> & Hd).
  specialize (Hc j0 d Hj0 Hd). apply list_elem_of_fmap in Hc as (jd & -> & Hjd).
  apply list_elem_of_fmap. exists (correlatedJob c jd). split; [done|].
  apply list_elem_of_bind. exists c. split; [|done]. by apply list_elem_of_fmap_2.
Qed.

Lemma Expand_cases p p' :
  Expand p = Ok p' ->
  exists p1, expandPipeline p = Ok p1 /\ expandJobs p1 = Ok p'.
Proof.
  unfold Expand. destruct (bool_decide _) eqn:Hm; cbn [andb].
  - apply bool_decide_eq_true in Hm. destruct (existsb _ _) eqn:He; cbn [negb].
    + intros (p1 & Hp%map_err_Ok & Hj%map_err_Ok)%bind_Ok. eauto.
    + intros [= <-]. exists p. unfold expandPipeline, expandJobs. by rewrite Hm, He.
  - intros (p1 & Hp%map_err_Ok & Hj%map_err_Ok)%bind_Ok. eauto.
Qed.

Lemma expandPipeline_Matrix p p' : expandPipeline p = Ok p' -> Pipeline.Matrix p' = None.
Proof. by intros [[? ->]|(m & _ & _ & _ & _ & ->)]%expandPipeline_cases. Qed.

(** ** The names and the number of the expanded jobs *)

(** The combinations a matrix contributes; no matrix contributes the empty one. *)
Definition matrix_combos (m : option Matrix.t) : list (gmap string string) :=
  match m with None => [∅] | Some m => combos_of m end.

Definition matrix_dims (m : option Matrix.t) : gset string :=
  match m with None => ∅ | Some m => list_to_set (Dimension.Name <$> Matrix.Dimensions m) end.

Lemma fmap_bind_names {A} (l : list A) (f : A -> list Job.t) :
  Job.Name <$> (l ≫= f) = l ≫= fun a => Job.Name <$> f a.
Proof. induction l as [|a l IH]; [done|]. rewrite !bind_cons, fmap_app. by rewrite IH. Qed.

Lemma variants_names j :
  Job.Name <$> variants_of j =
  match Job.Matrix j with
  | None => [Job.Name j]
  | Some m => expandedName (Job.Name j) <$> combos_of m
  end.
Proof.
  unfold variants_of. destruct (Job.Matrix j) as [m|].
  - rewrite <- list_fmap_compose. apply list_fmap_ext. intros. apply variant_Name.
  - cbn [fmap list_fmap]. destruct (set_MatrixValues (replicateJob j ∅) (Job.MatrixValues j)) as (_ & _ & ->).
    by rewrite replicateJob_Name.
Qed.

Lemma expandJobs_names p p' :
  expandJobs p = Ok p' ->
  Job.Name <$> Pipeline.Jobs p' = Pipeline.Jobs p ≫= fun j => Job.Name <$> variants_of j.
Proof.
  intros [[HF ->]|(em & _ & ->)]%expandJobs_cases.
  - induction HF as [|j jobs Hj _ IH]; [done|].
    rewrite fmap_cons, bind_cons, variants_names, Hj. cbn. by rewrite <- IH.
  - cbn. by rewrite fmap_rewriteJob_Name, fmap_bind_names.
Qed.

Lemma length_matrix_combos m :
  Z.of_nat (length (matrix_combos m)) =
  match m with None => 1%Z | Some m => combo_count (Matrix.Dimensions m) end.
Proof. destruct m; [apply product_length|done]. Qed.

Lemma correlatedJob_Matrix c j :
  Job.Matrix (correlatedJob c j) =
  substituteMatrixValues (fun v => substituteVars v c "matrix.") (Job.Matrix j).
Proof.
  rewrite <- replicateJob_Matrix. unfold correlatedJob. by destruct (replicateJob _ _).
Qed.

Lemma correlatedJob_Name c j : Job.Name (correlatedJob c j) = expandedName (Job.Name j) c.
Proof. unfold correlatedJob. by destruct (replicateJob _ _). Qed.

Lemma length_substituted sub m :
  length (matrix_combos (substituteMatrixValues sub m)) = length (matrix_combos m).
Proof.
  apply Nat2Z.inj. rewrite !length_matrix_combos. destruct m as [[dims]|]; [|done].
  cbn [substituteMatrixValues mbind option_bind Matrix.Dimensions].
  induction dims as [|d dims IH]; [done|]. rewrite combo_count_cons, <- IH.
  change (combo_count (Matrix.Dimensions (?M <| Matrix.Dimensions ::= ?f |>)))
    with (combo_count (f (Matrix.Dimensions M))).
  cbn [Matrix.Dimensions]. rewrite fmap_cons, combo_count_cons. cbn [Dimension.Values update].
  by rewrite length_fmap.
Qed.

Definition expansion_count (p : Pipeline.t) : nat :=
  length (matrix_combos (Pipeline.Matrix p)) *
  sum_list_with (fun j => length (matrix_combos (Job.Matrix j))) (Pipeline.Jobs p).

Lemma length_variants j : length (Job.Name <$> variants_of j) = length (matrix_combos (Job.Matrix j)).
Proof. rewrite variants_names. destruct (Job.Matrix j); [apply length_fmap|done]. Qed.

Lemma length_bind_sum {A B} (f : A -> list B) l :
  length (l ≫= f) = sum_list_with (fun a => length (f a)) l.
Proof. induction l as [|a l IH]; [done|]. rewrite bind_cons, length_app, IH. done. Qed.

Lemma Expand_count p p' : Expand p = Ok p' -> length (Pipeline.Jobs p') = expansion_count p.
Proof.
  intros (p1 & H1 & H2)%Expand_cases. unfold expansion_count.
  rewrite <- (length_fmap Job.Name), (expandJobs_names _ _ H2), length_bind_sum. clear H2.
  apply expandPipeline_cases in H1 as [[-> ->]|(m & -> & _ & _ & _ & ->)].
  - cbn. rewrite Nat.add_0_r. induction (Pipeline.Jobs p) as [|j l IH]; [done|]. cbn.
    by rewrite length_variants, IH.
  - cbn. generalize (combos_of m) as cs. induction cs as [|c cs IH]; [done|].
    rewrite bind_cons, sum_list_with_app, IH. cbn [length Nat.mul]. f_equal. clear IH.
    induction (Pipeline.Jobs p) as [|j l IH]; [done|].
    rewrite fmap_cons. cbn [sum_list_with].
    by rewrite length_variants, correlatedJob_Matrix, length_substituted, IH.
Qed.

(** Values that survive naming: distinct, and free of the separator and of placeholders. *)
Definition values_ok (m : option Matrix.t) : Prop :=
  match m with
  | None => True
  | Some m => Forall (fun d => NoDup (Dimension.Values d) /\
                Forall (fun v => lacks "," v /\ lacks "$" v) (Dimension.Values d)) (Matrix.Dimensions m)
  end.
#[export] Instance values_ok_dec m : Decision (values_ok m).
Proof. destruct m; cbn; apply _. Defined.

Lemma matrix_ok_of_valid m u : ValidateMatrix (Some m) = Ok u ->
  Forall (fun d => MatchString validDimName (Dimension.Name d) = true) (Matrix.Dimensions m) /\
  NoDup (Dimension.Name <$> Matrix.Dimensions m).
Proof.
  unfold ValidateMatrix. destruct (Matrix.Dimensions m) as [|d dims]; [done|].
  intros ([seen total] & H & _)%bind_Ok. 
  enough (Forall (fun d => MatchString validDimName (Dimension.Name d) = true) (d :: dims) /\
    NoDup (Dimension.Name <$> d :: dims) /\
    forall x, x ∈ d :: dims -> Dimension.Name x ∉ (∅ : gset string)) as Hgen by (split; apply Hgen).
  revert H. generalize (∅ : gset string), 1%Z, (d :: dims). clear d dims m u.
  intros s0 t0 dims. revert s0 t0. induction dims as [|d dims IH]; intros s0 t0; cbn [foldM].
  { intros. split_and!; [constructor|constructor|set_solver]. }
  intros ([s1 t1] & Hs & Hl)%bind_Ok. apply IH in Hl as (HF & Hnd & Hdisj). cbn in Hs.
  destruct (MatchString _ _) eqn:Hm; cbn in Hs; [|done].
  repeat case_decide; try done. injection Hs as <- <-. cbn. split_and!.
  - by constructor.
  - apply NoDup_cons. split; [|done]. intros (x & Hx & Hin)%list_elem_of_fmap.
    apply (Hdisj x Hin). set_solver.
  - intros x [->|Hx]%elem_of_cons; [done|]. specialize (Hdisj x Hx). set_solver.
Qed.

Lemma ValidateMatrix_values m u : ValidateMatrix (Some m) = Ok u ->
  Forall (fun d => Dimension.Values d <> []) (Matrix.Dimensions m).
Proof.
  unfold ValidateMatrix. destruct (Matrix.Dimensions m) as [|d dims]; [done|].
  intros ([seen total] & H & _)%bind_Ok. revert H.
  generalize (∅ : gset string), 1%Z, (d :: dims). clear d dims m u.
  intros s0 t0 dims. revert s0 t0. induction dims as [|d dims IH]; intros s0 t0; cbn [foldM];
    [constructor|].
  intros ([s1 t1] & Hs & Hl%IH)%bind_Ok. constructor; [|done]. cbn in Hs.
  destruct (negb _); [done|]. by repeat case_decide.
Qed.

Lemma matrix_combos_spec m :
  match m with None => True | Some _ => ValidateMatrix m = Ok tt end -> values_ok m ->
  NoDup (matrix_combos m) /\
  forall c, c ∈ matrix_combos m -> dom c = matrix_dims m /\ clean_combo c.
Proof.
  destruct m as [m|]; cbn [matrix_combos matrix_dims values_ok].
  - intros [Hn Hnd]%matrix_ok_of_valid Hv. split.
    + apply product_NoDup; [done|]. eapply Forall_impl; [exact Hv|]. by intros ? [? _].
    + intros c [Hdom HF]%product_choice; [|done]. split; [done|]. intros k v Hk.
      assert (k ∈ dom c) as Hin by by apply elem_of_dom_2 in Hk.
      rewrite Hdom, elem_of_list_to_set in Hin. apply list_elem_of_fmap in Hin as (d & -> & Hd).
      rewrite Forall_forall in Hn, HF, Hv.
      destruct (HF d Hd) as (w & Hw & Hl), (Hv d Hd) as [_ Hvals]. rewrite Hk in Hl. injection Hl as ->.
      rewrite Forall_forall in Hvals. destruct (Hvals w Hw) as [? _].
      specialize (Hn d Hd). apply validDimName_spec in Hn.
      unfold clean_entry. split_and!; [by apply (nonempty_of_lacks base_char)..|done].
  - intros _ _. split; [apply NoDup_singleton|]. intros c ->%list_elem_of_singleton.
    rewrite dom_empty_L. split; [done|]. apply map_Forall_empty.
Qed.

Lemma keys_NoDup (cs : list (gmap string string)) jobs (jc : Job.t -> list (gmap string string))
    (pd : gset string) (jd : Job.t -> gset string) :
  NoDup cs -> (forall c, c ∈ cs -> dom c = pd) -> NoDup (Job.Name <$> jobs) ->
  (forall j, j ∈ jobs -> NoDup (jc j) /\ (forall d, d ∈ jc j -> dom d = jd j) /\ jd j ## pd) ->
  NoDup (cs ≫= fun c => jobs ≫= fun j => (fun d => (Job.Name j, d ∪ c)) <$> jc j).
Proof.
  intros Hcs Hdom Hnd Hj.
  assert (forall j c d c' d', j ∈ jobs -> c ∈ cs -> c' ∈ cs -> d ∈ jc j -> d' ∈ jc j ->
    d ∪ c = d' ∪ c' -> d = d' /\ c = c') as Hinj.
  { intros j c d c' d' Hin Hc Hc' Hd Hd' Heq. destruct (Hj j Hin) as (_ & Hjd & Hdisj).
    assert (dom d = dom d') as Hdd by (by rewrite (Hjd d), (Hjd d')).
    split.
    - apply map_eq. intros k. apply (f_equal (lookup k)) in Heq. rewrite !lookup_union in Heq.
      destruct (decide (k ∈ dom d)) as [Hk|Hk].
      + pose proof Hk as Hk'. rewrite Hdd in Hk'. apply elem_of_dom in Hk as [v Hv], Hk' as [v' Hv'].
        rewrite Hv, Hv' in Heq |- *. by destruct (c !! k), (c' !! k).
      + pose proof Hk as Hk'. rewrite Hdd in Hk'. apply not_elem_of_dom in Hk, Hk'. congruence.
    - apply map_eq. intros k. apply (f_equal (lookup k)) in Heq. rewrite !lookup_union in Heq.
      destruct (decide (k ∈ dom c)) as [Hk|Hk].
      + assert (k ∉ dom d) as Hkd by (rewrite Hjd by done; rewrite Hdom in Hk by done; set_solver).
        pose proof Hkd as Hkd'. rewrite Hdd in Hkd'. apply not_elem_of_dom in Hkd, Hkd'.
        rewrite Hkd, Hkd' in Heq. by destruct (c !! k), (c' !! k).
      + pose proof Hk as Hk'. rewrite Hdom in Hk by done. rewrite <- (Hdom c' Hc') in Hk.
        apply not_elem_of_dom in Hk, Hk'. congruence. }
  apply NoDup_bind; [| |done].
  - intros c c' y Hc Hc' (j & Hy & Hjin)%list_elem_of_bind (j' & Hy' & Hjin')%list_elem_of_bind.
    apply list_elem_of_fmap in Hy as (d & -> & Hd), Hy' as (d' & [= Hn Heq] & Hd').
    assert (j = j') as <- by (by eapply NoDup_fmap_inj_elem).
    by destruct (Hinj j c d c' d') as [_ ?].
  - intros c Hc. apply NoDup_bind.
    + intros j j' y Hjin Hjin' (d & -> & Hd)%list_elem_of_fmap (d' & [= Hn Heq] & Hd')%list_elem_of_fmap.
      by eapply NoDup_fmap_inj_elem.
    + intros j Hjin. destruct (Hj j Hjin) as (Hndj & _ & _). apply NoDup_fmap_2_strong; [|done].
      intros d d' Hd Hd' [= Heq]. by destruct (Hinj j c d c d') as [? _].
    + by apply NoDup_fmap_1 in Hnd.
Qed.

Lemma expandJobs_valid p p' : expandJobs p = Ok p' -> Forall job_matrix_valid (Pipeline.Jobs p).
Proof.
  intros [[HF _]|(em & (_ & HF & _) & _)]%expandJobs_cases; [|done].
  eapply Forall_impl; [exact HF|]. intros j Hj m Hm. congruence.
Qed.

Lemma substituted_id m c :
  values_ok m -> substituteMatrixValues (fun v => substituteVars v c "matrix.") m = m.
Proof.
  destruct m as [[dims]|]; [|done]. cbn. intros HF. do 2 f_equal.
  induction HF as [|[n vs] dims [_ Hd] _ IH]; [done|]. cbn in *. rewrite IH. do 2 f_equal.
  induction Hd as [|v vs [_ Hv] _ IHv]; [done|]. cbn. by rewrite substituteVars_lacks, IHv.
Qed.

Lemma variants_keys j b c1 :
  parse_name (Job.Name j) = (b, c1) -> lacks "[" b -> clean_combo c1 ->
  job_matrix_valid j -> values_ok (Job.Matrix j) ->
  parse_name <$> (Job.Name <$> variants_of j) =
  (fun d => (b, d ∪ c1)) <$> matrix_combos (Job.Matrix j).
Proof.
  intros Hp Hb Hc1 Hj Hv. rewrite variants_names. unfold job_matrix_valid in Hj.
  destruct (Job.Matrix j) as [m|] eqn:Hm; cbn [matrix_combos].
  - rewrite <- list_fmap_compose. apply Forall_fmap_ext, Forall_forall. intros d Hd. cbn.
    unfold expandedName. rewrite Hp. apply parse_render; [done|].
    apply clean_combo_union; [|done].
    by apply (matrix_combos_spec (Some m) (Hj m eq_refl) Hv).
  - cbn. by rewrite Hp, map_empty_union.
Qed.

Lemma parse_expandedName n c :
  lacks "[" n -> clean_combo c -> parse_name (expandedName n c) = (n, c).
Proof. intros Hn Hc. rewrite expandedName_plain by done. by apply parse_render. Qed.

Section variant_names.
Variables (p p' : Pipeline.t).
Hypothesis expanded : Expand p = Ok p'.
Hypothesis base_names : Forall (fun j => lacks "[" (Job.Name j)) (Pipeline.Jobs p).
Hypothesis pipeline_values : values_ok (Pipeline.Matrix p).
Hypothesis job_values : Forall (fun j => values_ok (Job.Matrix j)) (Pipeline.Jobs p).

(** The name of every expanded job identifies its job and its combination. *)
Lemma Expand_keys :
  parse_name <$> (Job.Name <$> Pipeline.Jobs p') =
  matrix_combos (Pipeline.Matrix p) ≫= fun c =>
    Pipeline.Jobs p ≫= fun j => (fun d => (Job.Name j, d ∪ c)) <$> matrix_combos (Job.Matrix j).
Proof.
  pose proof expanded as (p1 & H1 & H2)%Expand_cases.
  rewrite (expandJobs_names _ _ H2). apply expandJobs_valid in H2.
  apply expandPipeline_cases in H1 as [[Hm ->]|(m & Hm & Hval & _ & _ & ->)]; rewrite Hm.
  - cbn [matrix_combos]. rewrite bind_cons. cbn [mbind list_bind]. rewrite app_nil_r.
    revert base_names job_values H2. induction (Pipeline.Jobs p) as [|j l IH]; [done|].
    intros [Hb HF1]%Forall_cons [Hv HF2]%Forall_cons [Hj HF3]%Forall_cons.
    rewrite !bind_cons, fmap_app, IH by done. f_equal.
    apply variants_keys; [by apply parse_plain|done|apply map_Forall_empty|done|done].
  - cbn [matrix_combos]. cbn [Pipeline.Jobs update] in *. rewrite Hm in pipeline_values.
    destruct (matrix_combos_spec (Some m) Hval pipeline_values) as [_ Hclean].
    cbn [matrix_combos] in Hclean.
    induction (combos_of m) as [|c cs IH]; [done|].
    rewrite bind_cons in H2. apply Forall_app in H2 as [Hc H2].
    rewrite !bind_cons, bind_app, fmap_app, IH by (done || set_solver). f_equal.
    assert (clean_combo c) as Hcc by (apply Hclean; set_solver). clear IH H2 Hclean.
    revert base_names job_values Hc. induction (Pipeline.Jobs p) as [|j l IH]; [done|].
    intros [Hb HF1]%Forall_cons [Hv HF2]%Forall_cons [Hj HF3]%Forall_cons.
    rewrite fmap_cons, !bind_cons, fmap_app, IH by done. f_equal.
    rewrite (variants_keys _ (Job.Name j) c); [| |done|done|done|].
    + by rewrite correlatedJob_Matrix, substituted_id.
    + by rewrite correlatedJob_Name, parse_expandedName.
    + by rewrite correlatedJob_Matrix, substituted_id.
Qed.

Lemma collisions_disjoint m jobs :
  checkDimCollisions m jobs = Ok tt ->
  Forall (fun j => matrix_dims (Job.Matrix j) ## matrix_dims (Some m)) jobs.
Proof.
  unfold checkDimCollisions. cbn [matrix_dims]. set (pd := list_to_set _).
  induction jobs as [|j jobs IH]; [constructor|]. cbn [foldM].
  intros ([] & Hj & Hl%IH)%bind_Ok. constructor; [|done]. clear -Hj.
  destruct (Job.Matrix j) as [[dims]|]; cbn in *; [|set_solver].
  induction dims as [|d dims IH]; cbn in *; [set_solver|].
  apply bind_Ok in Hj as ([] & Hd & Hl%IH). case_decide; [done|]. set_solver.
Qed.

Lemma Expand_names_NoDup :
  NoDup (Job.Name <$> Pipeline.Jobs p) -> NoDup (Job.Name <$> Pipeline.Jobs p').
Proof.
  intros Hnd. apply (NoDup_fmap_1 parse_name). rewrite Expand_keys.
  pose proof expanded as (p1 & H1 & H2%expandJobs_valid)%Expand_cases.
  assert (Forall job_matrix_valid (Pipeline.Jobs p) /\
    (match Pipeline.Matrix p with None => True | Some _ => ValidateMatrix (Pipeline.Matrix p) = Ok tt end) /\
    Forall (fun j => matrix_dims (Job.Matrix j) ## matrix_dims (Pipeline.Matrix p)) (Pipeline.Jobs p))
    as (Hjv & Hpv & Hdisj).
  { apply expandPipeline_cases in H1 as [[Hm ->]|(m & Hm & Hval & Hcol & Hcomb & ->)]; rewrite Hm.
    - split_and!; [done|done|]. apply Forall_forall. cbn. set_solver.
    - split_and!; [|done|by apply collisions_disjoint].
      destruct (matrix_combos_spec (Some m) Hval) as [_ Hclean]; [by rewrite <- Hm|].
      cbn in H2. cbn in Hclean.
      assert (exists c, c ∈ combos_of m) as [c Hc].
      { destruct (combos_of m) as [|c cs] eqn:Hcs; [|exists c; set_solver].
        exfalso. assert (length (combos_of m) = 0%nat) as Hl by by rewrite Hcs.
        apply (f_equal Z.of_nat) in Hl. unfold combos_of in Hl. rewrite product_length in Hl.
        assert (Forall (fun d => Dimension.Values d <> []) (Matrix.Dimensions m)) as HF.
        { by eapply ValidateMatrix_values. }
        apply combo_count_pos in HF. lia. }
      rewrite Forall_forall in H2. apply Forall_forall. intros j Hj m' Hm'.
      apply (H2 (correlatedJob c j)); [apply list_elem_of_bind; exists c; split; [by apply list_elem_of_fmap_2|done]|].
      rewrite correlatedJob_Matrix, substituted_id, Hm'; [done|].
      rewrite Forall_forall in job_values. by apply job_values. }
  destruct (matrix_combos_spec _ Hpv pipeline_values) as [Hcs Hcd].
  eapply (keys_NoDup _ _ _ (matrix_dims (Pipeline.Matrix p)) (fun j => matrix_dims (Job.Matrix j)));
    [done|intros; by apply Hcd|done|].
  intros j Hj. rewrite Forall_forall in Hjv, Hdisj, job_values.
  destruct (matrix_combos_spec (Job.Matrix j)) as [Hn Hd].
  { destruct (Job.Matrix j) as [m|] eqn:Hm; [|done]. by apply (Hjv j Hj). }
  { by apply job_values. }
  split_and!; [done|intros; by apply Hd|by apply Hdisj].
Qed.
End variant_names.

(** ** Properties *)

(** C39: [ValidateMatrix] accepts exactly the matrices with distinct well-formed dimension
    names, no empty dimension and at most 10000 combinations, and then [Combinations]
    returns all choices of one value per dimension - as many as the product of the
    dimension sizes - and never its overflow error. *)
Theorem ValidateMatrix_spec m
  (Hsize : addressable (Matrix.Dimensions m)) :
  (ValidateMatrix (Some m) = Ok tt <-> matrix_ok m) /\
  (ValidateMatrix (Some m) = Ok tt ->
   exists combos, Combinations m = Ok combos /\
     Z.of_nat (length combos) = combo_count (Matrix.Dimensions m) /\
     (1 <= combo_count (Matrix.Dimensions m) <= maxMatrixCombinations)%Z /\
     (forall c, c ∈ combos <-> is_choice (Matrix.Dimensions m) c)).
Proof.
  split; [by apply ValidateMatrix_Ok|].
  intros Hok%ValidateMatrix_Ok; [|done]. exists (combos_of m).
  pose proof Hok as (_ & HF & Hnd & Hle). split_and!.
  - by apply Combinations_ok.
  - apply product_length.
  - by apply dims_ok_pos.
  - done.
  - intros c. by apply product_choice.
Qed.

Lemma ValidateMatrix_spec_witness :
  let m := Matrix.mk [Dimension.mk "os" ["linux"; "darwin"]; Dimension.mk "go" ["1.22"]] in
  ValidateMatrix (Some m) = Ok tt /\
  (ValidateMatrix (Some m) = Ok tt <-> matrix_ok m).
Proof.
  split; [vm_compute; reflexivity|].
  apply ValidateMatrix_spec. apply (bool_decide_unpack _). vm_compute. exact I.
Defined.

(** An expanded pipeline holds no matrix, neither its own nor in a job. *)
Theorem Expand_no_matrix p p' (Hok : Expand p = Ok p') :
  Pipeline.Matrix p' = None /\ Forall (fun j => Job.Matrix j = None) (Pipeline.Jobs p').
Proof.
  apply Expand_cases in Hok as (p1 & H1%expandPipeline_Matrix & H2).
  apply expandJobs_no_matrix in H2 as [HF ->]. done.
Qed.

Definition ex_expanded : Pipeline.t :=
  match Expand ex_pipeline with Ok p => p | Fail _ => ex_pipeline end.

Lemma Expand_no_matrix_witness :
  length (Pipeline.Jobs ex_expanded) = 6 /\
  Pipeline.Matrix ex_expanded = None /\
  Forall (fun j => Job.Matrix j = None) (Pipeline.Jobs ex_expanded).
Proof.
  split; [vm_compute; reflexivity|].
  apply (Expand_no_matrix ex_pipeline). vm_compute. reflexivity.
Defined.

(** C17: if every dependency of a pipeline names one of its jobs, the same holds after
    expansion: dependencies of replicas and of variants are rewritten to existing names. *)
Theorem Expand_deps_closed p p'
  (Hok : Expand p = Ok p') (Hdeps : deps_closed (Pipeline.Jobs p)) :
  deps_closed (Pipeline.Jobs p').
Proof.
  apply Expand_cases in Hok as (p1 & H1 & H2).
  eapply expandJobs_deps_closed; [done|]. by eapply expandPipeline_deps_closed.
Qed.

Lemma Expand_deps_closed_witness : deps_closed (Pipeline.Jobs ex_expanded).
Proof.
  apply (Expand_deps_closed ex_pipeline); [vm_compute; reflexivity|].
  intros j dep Hj Hdep. cbn in Hj.
  apply elem_of_cons in Hj as [->|Hj]; [cbn in Hdep; by apply not_elem_of_nil in Hdep|].
  apply list_elem_of_singleton in Hj as ->. cbn in Hdep.
  apply list_elem_of_singleton in Hdep as ->. cbn. by left.
Defined.

(** C18: the number of jobs after expansion is the number of combinations of the pipeline
    matrix times the sum over the jobs of the combinations of their matrices.  And if job
    names are distinct and hold no opening bracket, which starts the suffix of a variant,
    and matrix values are distinct and free of commas and dollar signs, the expanded names
    are distinct. *)
Theorem Expand_jobs p p' (Hok : Expand p = Ok p') :
  length (Pipeline.Jobs p') = expansion_count p /\
  (Forall (fun j => lacks "[" (Job.Name j)) (Pipeline.Jobs p) -> values_ok (Pipeline.Matrix p) ->
   Forall (fun j => values_ok (Job.Matrix j)) (Pipeline.Jobs p) -> NoDup (Job.Name <$> Pipeline.Jobs p) ->
   NoDup (Job.Name <$> Pipeline.Jobs p')).
Proof. split; [by apply Expand_count|intros; by eapply Expand_names_NoDup]. Qed.

(** Why the bracket matters: a base name that looks like a variant can meet one. *)
Definition ex_bracket : Pipeline.t :=
  let m l := Some (Matrix.mk ((fun '(d, v) => Dimension.mk d [v]) <$> l)) in
  Pipeline.mk "p" [Job.empty "a[os=linux]" <| Job.Matrix := m [("go", "1")] |>;
                   Job.empty "a" <| Job.Matrix := m [("go", "1"); ("os", "linux")] |>] [] [] None None None.

Lemma bracket_collision :
  (r ← Expand ex_bracket; Ok (Job.Name <$> Pipeline.Jobs r)) = Ok ["a[go=1,os=linux]"; "a[go=1,os=linux]"].
Proof. vm_compute. reflexivity. Qed.

Lemma Expand_jobs_witness :
  length (Pipeline.Jobs ex_expanded) = expansion_count ex_pipeline /\
  NoDup (Job.Name <$> Pipeline.Jobs ex_expanded).
Proof.
  refine (match Expand_jobs ex_pipeline ex_expanded _ with conj H1 H2 => conj H1 (H2 _ _ _ _) end);
    [vm_compute; reflexivity|apply (bool_decide_unpack _); vm_compute; exact I..].
Defined.
