(* ===== verification/Dfs.v ===== *)
(** * The three-state depth-first search

    [jobGraph.topoSort] of the validator and [detectCycles] of the runner are the same
    search: a node is unvisited, being visited or visited; meeting a node that is being
    visited is a cycle.  The search is defined once, over an abstract graph whose edges are
    names that still have to be resolved, and proved sound, complete and terminating. *)

From S2P Require Import Prelude Errors.

Section dfs.
Context {A D : Type} `{Countable A}.

(** The unresolved successors of a node, their resolution and the error for a cycle. *)
Variable deps : A -> list D.
Variable resolve : A -> D -> result A.
Variable cyc : A -> error.

(** [state[i]]: absent is unvisited, [false] is visiting, [true] is visited. *)
Record dfs_state : Type := DfsState { state : gmap A bool; order : list A }.

Definition dfs_init : dfs_state := DfsState ∅ [].

(** [visit]; the fuel bounds the depth of the Go recursion. *)
Fixpoint visit (fuel : nat) (i : A) (st : dfs_state) : result dfs_state :=
  match fuel with
  | O => Fail (raise OutOfFuel)
  | S fuel' =>
      match state st !! i with
      | Some true => Ok st
      | Some false => Fail (cyc i)
      | None =>
          st ← foldM (fun st dep => j ← resolve i dep; visit fuel' j st)
                 (DfsState (<[i := false]> (state st)) (order st)) (deps i);
          Ok (DfsState (<[i := true]> (state st)) (order st ++ [i]))
      end
  end.

Definition visit_all (fuel : nat) (roots : list A) : result dfs_state :=
  foldM (fun st i => visit fuel i st) dfs_init roots.

(** ** The graph *)

Definition edge (i j : A) : Prop := exists d, d ∈ deps i /\ resolve i d = Ok j.

Definition acyclic : Prop := forall i, ~ tc edge i i.

(** Dependencies first: every successor of a node stands before it. *)
Definition topological (l : list A) : Prop :=
  NoDup l /\
  forall l1 i l2, l = l1 ++ i :: l2 ->
    forall d, d ∈ deps i -> exists j, resolve i d = Ok j /\ j ∈ l1.

(** Why a search can fail. *)
Definition failure (U : list A) (e : error) : Prop :=
  (exists i, i ∈ U /\ e = cyc i /\ tc edge i i) \/
  (exists i d, i ∈ U /\ d ∈ deps i /\ resolve i d = Fail e).

Lemma topological_snoc l i :
  topological l -> i ∉ l ->
  (forall d, d ∈ deps i -> exists j, resolve i d = Ok j /\ j ∈ l) ->
  topological (l ++ [i]).
Proof.
  intros [Hnd Hl] Hi Hd. split.
  - apply NoDup_app. split_and!; [done|set_solver|apply NoDup_singleton].
  - intros l1 k l2 Heq. destruct l2 as [|x l2 _] using rev_ind.
    + apply app_inj_tail in Heq as [<- <-]. done.
    + rewrite app_comm_cons, app_assoc in Heq. apply app_inj_tail in Heq as [-> _].
      intros d Hin. eapply Hl; [|done]. done.
Qed.

(** A graph with a topological order of all its nodes has no cycle through them. *)
Lemma topological_edge l l1 i l2 j :
  topological l -> l = l1 ++ i :: l2 -> edge i j -> j ∈ l1.
Proof. intros [_ Hl] Heq (d & Hd & Hr). destruct (Hl _ _ _ Heq d Hd) as (j' & ? & ?). congruence. Qed.

Lemma topological_tc l l1 i l2 j :
  topological l -> l = l1 ++ i :: l2 -> tc edge i j -> j ∈ l1.
Proof.
  intros Ht Heq Hij. revert l1 l2 Heq.
  induction Hij as [i j Hij|i k j Hik _ IH]; intros l1 l2 Heq.
  - by eapply topological_edge.
  - pose proof (topological_edge _ _ _ _ _ Ht Heq Hik) as Hk.
    apply list_elem_of_split in Hk as (l3 & l4 & ->).
    rewrite <- app_assoc, <- app_comm_cons in Heq. specialize (IH _ _ Heq). set_solver.
Qed.

Lemma topological_acyclic l i : topological l -> i ∈ l -> ~ tc edge i i.
Proof.
  intros Ht (l1 & l2 & Heq)%list_elem_of_split Hc.
  pose proof (topological_tc _ _ _ _ _ Ht Heq Hc) as Hin. destruct Ht as [Hnd _].
  rewrite Heq in Hnd. apply NoDup_app in Hnd as (_ & Hdisj & _). apply (Hdisj i Hin). set_solver.
Qed.

(** ** Correctness *)

Section correctness.
(** [U] holds every node the search can meet. *)
Variable U : list A.
Hypothesis U_closed : forall i d j, i ∈ U -> d ∈ deps i -> resolve i d = Ok j -> j ∈ U.

(** The nodes being visited, innermost first, form a path. *)
Fixpoint chain (stk : list A) : Prop :=
  match stk with
  | i :: (p :: _) as rest => edge p i /\ chain rest
  | _ => True
  end.

Record inv (stk : list A) (st : dfs_state) : Prop := {
  inv_topo : topological (order st);
  inv_visited : forall i, state st !! i = Some true <-> i ∈ order st;
  inv_visiting : forall i, state st !! i = Some false <-> i ∈ stk;
  inv_chain : chain stk;
  inv_nodup : NoDup stk;
  inv_stk : forall i, i ∈ stk -> i ∈ U;
  inv_order : forall i, i ∈ order st -> i ∈ U
}.

Lemma chain_tc stk i j : chain (j :: stk) -> i ∈ stk -> tc edge i j.
Proof.
  revert j. induction stk as [|p stk IH]; intros j Hc; [set_solver|].
  destruct Hc as [Hp Hc]. intros [->|Hi]%elem_of_cons; [by apply tc_once|].
  eapply tc_r; [by apply IH|done].
Qed.

Lemma inv_push stk st i :
  inv stk st -> state st !! i = None -> i ∈ U -> chain (i :: stk) ->
  inv (i :: stk) (DfsState (<[i := false]> (state st)) (order st)).
Proof.
  intros [Ht Hv Hg Hc Hn Hs Ho] Hi HU Hch. split; cbn [state order]; try done.
  - intros k. rewrite <- Hv. destruct (decide (k = i)) as [->|].
    + rewrite lookup_insert_eq, Hi. done.
    + by rewrite lookup_insert_ne.
  - intros k. rewrite elem_of_cons, <- Hg. destruct (decide (k = i)) as [->|].
    + rewrite lookup_insert_eq. naive_solver.
    + rewrite lookup_insert_ne by done. naive_solver.
  - apply NoDup_cons. split; [|done]. intros Hin%Hg. congruence.
  - set_solver.
Qed.

Lemma inv_pop stk st i :
  inv (i :: stk) st ->
  (forall d, d ∈ deps i -> exists j, resolve i d = Ok j /\ j ∈ order st) ->
  inv stk (DfsState (<[i := true]> (state st)) (order st ++ [i])).
Proof.
  intros [Ht Hv Hg Hc Hn Hs Ho] Hd. apply NoDup_cons in Hn as [Hni Hn].
  assert (state st !! i = Some false) as Hi by (apply Hg; by left).
  assert (i ∉ order st) as Hio by (rewrite <- Hv; congruence).
  split; cbn [state order]; try done.
  - by apply topological_snoc.
  - intros k. rewrite elem_of_app, list_elem_of_singleton, <- Hv.
    destruct (decide (k = i)) as [->|].
    + rewrite lookup_insert_eq. naive_solver.
    + rewrite lookup_insert_ne by done. naive_solver.
  - intros k. specialize (Hg k). rewrite elem_of_cons in Hg. destruct (decide (k = i)) as [->|].
    + rewrite lookup_insert_eq. naive_solver.
    + rewrite lookup_insert_ne by done. naive_solver.
  - destruct stk; [done|]. by destruct Hc.
  - set_solver.
  - intros k [?| ->%list_elem_of_singleton]%elem_of_app; [by apply Ho|]. apply Hs. by left.
Qed.

(** What one call does, whatever its outcome. *)
Definition visit_post (stk : list A) (st : dfs_state) (goal : dfs_state -> Prop)
    (r : result dfs_state) : Prop :=
  match r with
  | Ok st' => inv stk st' /\ order st ⊆ order st' /\ goal st'
  | Fail e => failure U e
  end.

Lemma visit_loop fuel i stk st ds :
  (forall j st, inv (i :: stk) st -> j ∈ U -> edge i j ->
     visit_post (i :: stk) st (fun st' => j ∈ order st') (visit fuel j st)) ->
  i ∈ U -> (forall d, d ∈ ds -> d ∈ deps i) -> inv (i :: stk) st ->
  visit_post (i :: stk) st
    (fun st' => forall d, d ∈ ds -> exists j, resolve i d = Ok j /\ j ∈ order st')
    (foldM (fun st dep => j ← resolve i dep; visit fuel j st) st ds).
Proof.
  intros Hvisit Hi. revert st. induction ds as [|d ds IH]; intros st Hds Hst.
  - cbn. split_and!; [done|done|set_solver].
  - cbn [foldM]. assert (d ∈ deps i) as Hd by set_solver.
    destruct (resolve i d) as [j|e] eqn:Hr; cbn [mbind res_bind]; [|right; eauto].
    assert (j ∈ U) as Hj by eauto.
    specialize (Hvisit j st Hst Hj ltac:(by exists d)) as Hp.
    destruct (visit fuel j st) as [st1|e]; cbn in Hp |- *; [|done].
    destruct Hp as (Hst1 & Hsub & Hj1).
    specialize (IH st1 ltac:(set_solver) Hst1).
    destruct (foldM _ st1 ds) as [st2|e]; cbn in IH |- *; [|done].
    destruct IH as (Hst2 & Hsub2 & Hall). split_and!; [done|set_solver|].
    intros d' [->|Hd']%elem_of_cons; [|by apply Hall]. exists j. split; [done|]. set_solver.
Qed.

Lemma visit_spec fuel i stk st :
  length U < length stk + fuel -> inv stk st -> i ∈ U -> chain (i :: stk) ->
  visit_post stk st (fun st' => i ∈ order st') (visit fuel i st).
Proof.
  revert i stk st. induction fuel as [|fuel IH]; intros i stk st Hf Hst Hi Hch.
  - exfalso. assert (length stk <= length U); [|lia].
    apply NoDup_incl_length; [apply NoDup_ListNoDup, Hst|].
    intros x Hx. apply list_elem_of_In, (inv_stk _ _ Hst), list_elem_of_In, Hx.
  - cbn [visit]. destruct (state st !! i) as [[]|] eqn:Hs.
    + split_and!; [done|done|by apply (inv_visited _ _ Hst)].
    + left. exists i. split_and!; [done|done|].
      apply (inv_visiting _ _ Hst) in Hs. by eapply chain_tc.
    + pose proof (inv_push _ _ _ Hst Hs Hi Hch) as Hpush.
      pose proof (visit_loop fuel i stk (DfsState (<[i := false]> (state st)) (order st)) (deps i))
        as Hloop.
      assert (forall j st', inv (i :: stk) st' -> j ∈ U -> edge i j ->
        visit_post (i :: stk) st' (fun st'' => j ∈ order st'') (visit fuel j st')) as Hrec.
      { intros j st' Hst' Hj Hij. apply IH; [cbn; lia|done|done|by split]. }
      specialize (Hloop Hrec Hi ltac:(done) Hpush).
      destruct (foldM _ _ (deps i)) as [st1|e]; cbn in Hloop |- *; [|done].
      destruct Hloop as (Hst1 & Hsub & Hall). split_and!.
      * by apply inv_pop.
      * set_solver.
      * set_solver.
Qed.

Lemma inv_init : inv [] dfs_init.
Proof.
  split; cbn;
    [split; [constructor|intros [] ? ? ?; done]
    |intros i; rewrite lookup_empty; set_solver..
    |exact I|constructor|set_solver|set_solver].
Qed.

Lemma visit_all_spec fuel roots :
  length U < fuel -> (forall i, i ∈ roots -> i ∈ U) ->
  match visit_all fuel roots with
  | Ok st => topological (order st) /\ roots ⊆ order st /\ order st ⊆ U
  | Fail e => failure U e
  end.
Proof.
  intros Hf Hr. unfold visit_all.
  assert (visit_post [] dfs_init (fun st => forall i, i ∈ roots -> i ∈ order st)
    (foldM (fun st i => visit fuel i st) dfs_init roots)) as Hall.
  { pose proof inv_init as Hst. revert Hst Hr. generalize dfs_init as st.
    induction roots as [|i roots IH]; intros st Hst Hr; [split_and!; [done|done|set_solver]|].
    cbn [foldM]. pose proof (visit_spec fuel i [] st) as Hp.
    specialize (Hp ltac:(cbn; lia) Hst ltac:(set_solver) ltac:(done)).
    destruct (visit fuel i st) as [st1|e]; cbn in Hp |- *; [|done].
    destruct Hp as (Hst1 & Hsub & Hi). specialize (IH st1 Hst1 ltac:(set_solver)).
    destruct (foldM _ st1 roots) as [st2|e]; cbn in IH |- *; [|done].
    destruct IH as (Hst2 & Hsub2 & Hall). split_and!; [done|set_solver|].
    intros k [->|Hk]%elem_of_cons; [set_solver|by apply Hall]. }
  destruct (foldM _ dfs_init roots) as [st|e]; [|done].
  destruct Hall as (Hst & _ & Hall). split_and!; [apply Hst|exact Hall|].
  intros i Hi. by apply (inv_order _ _ Hst).
Qed.

(** The search succeeds exactly when everything resolves and there is no cycle. *)
Lemma visit_all_Ok_iff fuel :
  length U < fuel ->
  is_ok (visit_all fuel U) = true <->
  (forall i d, i ∈ U -> d ∈ deps i -> is_ok (resolve i d) = true) /\ (forall i, i ∈ U -> ~ tc edge i i).
Proof.
  intros Hf. pose proof (visit_all_spec fuel U Hf ltac:(done)) as Hs.
  destruct (visit_all fuel U) as [st|e]; cbn.
  - destruct Hs as (Ht & Hsub & _). split; [|done]. intros _. split.
    + intros i d Hi Hd. apply Hsub, list_elem_of_split in Hi as (l1 & l2 & Heq).
      destruct Ht as [_ Ht]. destruct (Ht _ _ _ Heq d Hd) as (j & -> & _). done.
    + intros i Hi. by eapply topological_acyclic; [|apply Hsub].
  - split; [done|]. intros [Hres Hac].
    destruct Hs as [(i & Hi & _ & Hc)|(i & d & Hi & Hd & He)].
    + by destruct (Hac i Hi).
    + specialize (Hres i d Hi Hd). by rewrite He in Hres.
Qed.
End correctness.
End dfs.
Arguments DfsState {A _ _} _ _.
Arguments state {A _ _} _.
Arguments order {A _ _} _.
