(* ===== verification/Secret.v ===== *)
(** * secret.go: validation of secret declarations and references

    Each validator is proved sound and complete: it accepts exactly the lists that meet a
    declarative specification. *)

From S2P Require Import Prelude Errors GoStrings Regex Conditional Model Names.

(** ** Definitions *)

(** [cmp.Or(a, b)] on strings. *)
Definition Or (a b : string) : string := if decide (a = "") then b else a.

Definition validateStrayFields (d : SecretDecl.t) : result unit :=
  if bool_decide (SecretDecl.Var d <> "") && bool_decide (SecretDecl.Source d <> SecretSourceHostEnv)
  then Fail (raise (PM ErrSecretVarWithNonHostEnv))
  else if bool_decide (SecretDecl.Path d <> "") && bool_decide (SecretDecl.Source d <> SecretSourceFile)
  then Fail (raise (PM ErrSecretPathWithNonFile))
  else if bool_decide (SecretDecl.Cmd d <> "") && bool_decide (SecretDecl.Source d <> SecretSourceCmd)
  then Fail (raise (PM ErrSecretCmdWithNonCmd))
  else Ok tt.

Definition secret_decl_step (scope : string) (seen : gset string) (d : SecretDecl.t)
    : result (gset string) :=
  let name := SecretDecl.Name d in
  if decide (name = "") then fail_with [scope] (PM ErrEmptySecretName) else
  if decide (name ∈ seen) then fail_with [scope; name] (PM ErrDuplicateSecret) else
  let seen := {[name]} ∪ seen in
  (match SecretDecl.Source d with
   | SecretSourceHostEnv =>
       let envName := Or (SecretDecl.Var d) name in
       if MatchString posixIdentifier envName then Ok tt
       else fail_with [scope; name; envName] (PM ErrInvalidSecretHostEnvName)
   | SecretSourceFile =>
       if blank (SecretDecl.Path d) then fail_with [scope; name] (PM ErrMissingSecretPath) else Ok tt
   | SecretSourceCmd =>
       if blank (SecretDecl.Cmd d) then fail_with [scope; name] (PM ErrMissingSecretCmd) else Ok tt
   | SecretSourceOther s => fail_with [scope; name; s] (PM ErrInvalidSecretSource)
   end);;
  map_err (errorf [scope; name]) (validateStrayFields d);;
  Ok seen.

Definition validateSecretDecls (scope : string) (decls : list SecretDecl.t) : result unit :=
  foldM (secret_decl_step scope) ∅ decls;; Ok tt.

(** [validateRefTarget]: the two maps are updated in place, so they are returned. *)
Definition validateRefTarget (r : SecretRef.t) (envUsed mountUsed : gset string)
    : result (gset string * gset string) :=
  let hasEnv := bool_decide (SecretRef.Env r <> "") in
  let hasMount := bool_decide (SecretRef.Mount r <> "") in
  if negb hasEnv && negb hasMount then Fail (raise (PM ErrSecretRefNoTarget))
  else if hasEnv && hasMount then Fail (raise (PM ErrSecretRefBothTarget))
  else if hasEnv && negb (MatchString posixIdentifier (SecretRef.Env r))
  then fail_with [SecretRef.Env r] (PM ErrInvalidSecretEnvName)
  else if hasMount && negb (HasPrefix (SecretRef.Mount r) "/")
  then fail_with [SecretRef.Mount r] (PM ErrRelativeSecretMount)
  else
  envUsed ←
    (if hasEnv then
       if decide (SecretRef.Env r ∈ envUsed)
       then fail_with [SecretRef.Env r] (PM ErrDuplicateSecretEnvName)
       else Ok ({[SecretRef.Env r]} ∪ envUsed)
     else Ok envUsed);
  mountUsed ←
    (if hasMount then
       if decide (SecretRef.Mount r ∈ mountUsed)
       then fail_with [SecretRef.Mount r] (PM ErrDuplicateSecretMount)
       else Ok ({[SecretRef.Mount r]} ∪ mountUsed)
     else Ok mountUsed);
  Ok (envUsed, mountUsed).

Definition secret_ref_step (scope : string) (declared : gset string)
    (acc : gset string * (gset string * gset string)) (r : SecretRef.t)
    : result (gset string * (gset string * gset string)) :=
  let '(seen, (envUsed, mountUsed)) := acc in
  let name := SecretRef.Name r in
  if decide (name = "") then fail_with [scope] (PM ErrEmptySecretName) else
  if decide (name ∉ declared) then fail_with [scope; name] (PM ErrUnknownSecret) else
  if decide (name ∈ seen) then fail_with [scope; name] (PM ErrDuplicateSecretRef) else
  let seen := {[name]} ∪ seen in
  used ← map_err (errorf [scope; name]) (validateRefTarget r envUsed mountUsed);
  Ok (seen, used).

(** A nil parent map is replaced by a fresh empty one. *)
Definition validateSecretRefsWithUsed (scope : string) (refs : list SecretRef.t)
    (declared : gset string) (parentEnv parentMount : option (gset string))
    : result (gset string * gset string) :=
  '(_, used) ← foldM (secret_ref_step scope declared)
                 (∅, (default ∅ parentEnv, default ∅ parentMount)) refs;
  Ok used.

Definition validateSecretRefs (scope : string) (refs : list SecretRef.t) (declared : gset string)
    : result (gset string * gset string) :=
  validateSecretRefsWithUsed scope refs declared None None.

Definition validateSecretInheritance (scope : string) (jobRefs stepRefs : list SecretRef.t)
    : result unit :=
  let jobSet : gset string := list_to_set (SecretRef.Name <$> jobRefs) in
  foldM (fun _ r =>
    if decide (SecretRef.Name r ∈ jobSet)
    then fail_with [scope; SecretRef.Name r] (PM ErrSecretOverride) else Ok tt) tt stepRefs.

Definition secretDeclSet (decls : list SecretDecl.t) : gset string :=
  foldl (fun s d => {[SecretDecl.Name d]} ∪ s) ∅ decls.

(** ** What the validators accept *)

(** A declaration sets the fields of its source, and only those. *)
Definition decl_ok (d : SecretDecl.t) : Prop :=
  SecretDecl.Name d <> "" /\
  match SecretDecl.Source d with
  | SecretSourceHostEnv =>
      MatchString posixIdentifier (Or (SecretDecl.Var d) (SecretDecl.Name d)) = true /\
      SecretDecl.Path d = "" /\ SecretDecl.Cmd d = ""
  | SecretSourceFile =>
      blank (SecretDecl.Path d) = false /\ SecretDecl.Var d = "" /\ SecretDecl.Cmd d = ""
  | SecretSourceCmd =>
      blank (SecretDecl.Cmd d) = false /\ SecretDecl.Var d = "" /\ SecretDecl.Path d = ""
  | SecretSourceOther _ => False
  end.

Definition decls_ok (decls : list SecretDecl.t) : Prop :=
  Forall decl_ok decls /\ NoDup (SecretDecl.Name <$> decls).

(** A reference names a declared secret and has exactly one well-formed target. *)
Inductive target : Set := EnvTarget (name : string) | MountTarget (path : string).
#[export] Instance target_eq_dec : EqDecision target.
Proof. solve_decision. Defined.

Definition target_of (r : SecretRef.t) : target :=
  if decide (SecretRef.Env r = "") then MountTarget (SecretRef.Mount r)
  else EnvTarget (SecretRef.Env r).

Definition target_ok (r : SecretRef.t) : Prop :=
  (SecretRef.Env r <> "" /\ SecretRef.Mount r = "" /\
   MatchString posixIdentifier (SecretRef.Env r) = true) \/
  (SecretRef.Env r = "" /\ SecretRef.Mount r <> "" /\ HasPrefix (SecretRef.Mount r) "/" = true).

Definition ref_ok (declared : gset string) (r : SecretRef.t) : Prop :=
  SecretRef.Name r <> "" /\ SecretRef.Name r ∈ declared /\ target_ok r.

(** The targets taken by an enclosing scope. *)
Definition taken (used : gset string * gset string) (t : target) : Prop :=
  match t with EnvTarget n => n ∈ used.1 | MountTarget p => p ∈ used.2 end.

Definition take (used : gset string * gset string) (t : target) : gset string * gset string :=
  match t with
  | EnvTarget n => ({[n]} ∪ used.1, used.2)
  | MountTarget p => (used.1, {[p]} ∪ used.2)
  end.

Definition refs_ok (declared : gset string) (used : gset string * gset string)
    (refs : list SecretRef.t) : Prop :=
  Forall (ref_ok declared) refs /\ NoDup (SecretRef.Name <$> refs) /\
  NoDup (target_of <$> refs) /\ (forall r, r ∈ refs -> ~ taken used (target_of r)).

(** ** Declarations *)

Lemma validateStrayFields_Ok d u :
  validateStrayFields d = Ok u <->
  (SecretDecl.Var d <> "" -> SecretDecl.Source d = SecretSourceHostEnv) /\
  (SecretDecl.Path d <> "" -> SecretDecl.Source d = SecretSourceFile) /\
  (SecretDecl.Cmd d <> "" -> SecretDecl.Source d = SecretSourceCmd).
Proof.
  destruct u. unfold validateStrayFields.
  repeat case_bool_decide; cbn; split; try done; naive_solver.
Qed.

Lemma secret_decl_step_Ok scope seen d seen' :
  secret_decl_step scope seen d = Ok seen' <->
  decl_ok d /\ SecretDecl.Name d ∉ seen /\ seen' = {[SecretDecl.Name d]} ∪ seen.
Proof.
  unfold secret_decl_step, decl_ok. repeat case_decide; [naive_solver..|].
  rewrite bind_Ok. setoid_rewrite bind_Ok. setoid_rewrite map_err_Ok.
  setoid_rewrite validateStrayFields_Ok.
  destruct (SecretDecl.Source d) eqn:Hs.
  - destruct (MatchString _ _); [|naive_solver].
    destruct (decide (SecretDecl.Path d = "")), (decide (SecretDecl.Cmd d = "")); naive_solver.
  - destruct (blank _); [naive_solver|].
    destruct (decide (SecretDecl.Var d = "")), (decide (SecretDecl.Cmd d = "")); naive_solver.
  - destruct (blank _); [naive_solver|].
    destruct (decide (SecretDecl.Path d = "")), (decide (SecretDecl.Var d = "")); naive_solver.
  - naive_solver.
Qed.

Lemma validateSecretDecls_Ok scope decls :
  validateSecretDecls scope decls = Ok tt <-> decls_ok decls.
Proof.
  unfold validateSecretDecls, decls_ok.
  rewrite <- (seen_loop_empty _ _ _ (secret_decl_step_Ok scope)). rewrite bind_Ok. naive_solver.
Qed.

Lemma secretDeclSet_spec decls : secretDeclSet decls = list_to_set (SecretDecl.Name <$> decls).
Proof.
  unfold secretDeclSet.
  enough (forall s, foldl (fun s d => {[SecretDecl.Name d]} ∪ s) s decls
    = list_to_set (SecretDecl.Name <$> decls) ∪ s :> gset string) as -> by set_solver.
  induction decls as [|d decls IH]; intros s; cbn; [set_solver|]. rewrite IH. set_solver.
Qed.

(** ** References *)

Lemma validateRefTarget_Ok r used used' :
  validateRefTarget r used.1 used.2 = Ok used' <->
  target_ok r /\ ~ taken used (target_of r) /\ used' = take used (target_of r).
Proof.
  destruct used as [E M]. unfold validateRefTarget, target_ok, target_of. cbn.
  destruct (decide (SecretRef.Env r = "")) as [He|He],
    (decide (SecretRef.Mount r = "")) as [Hm|Hm].
  - rewrite (bool_decide_false (_ <> _)), (bool_decide_false (SecretRef.Mount r <> _)) by tauto.
    cbn. naive_solver.
  - rewrite (bool_decide_false (_ <> _)), (bool_decide_true (SecretRef.Mount r <> _)) by tauto.
    cbn. destruct (HasPrefix _ _); cbn; [|naive_solver]. case_decide; naive_solver.
  - rewrite (bool_decide_true (_ <> _)), (bool_decide_false (SecretRef.Mount r <> _)) by tauto.
    cbn. destruct (MatchString _ _); cbn; [|naive_solver]. case_decide; naive_solver.
  - rewrite (bool_decide_true (_ <> _)), (bool_decide_true (SecretRef.Mount r <> _)) by tauto.
    cbn. naive_solver.
Qed.

Lemma secret_ref_step_Ok scope declared seen used r acc :
  secret_ref_step scope declared (seen, used) r = Ok acc <->
  ref_ok declared r /\ SecretRef.Name r ∉ seen /\ ~ taken used (target_of r) /\
  acc = ({[SecretRef.Name r]} ∪ seen, take used (target_of r)).
Proof.
  unfold secret_ref_step, ref_ok. destruct used as [E M].
  repeat case_decide; [naive_solver..|]. rewrite bind_Ok. setoid_rewrite map_err_Ok.
  setoid_rewrite (validateRefTarget_Ok r (E, M)). naive_solver.
Qed.

Definition take_all (used : gset string * gset string) (refs : list SecretRef.t)
    : gset string * gset string := foldl (fun used r => take used (target_of r)) used refs.

Lemma taken_take used t t' : taken (take used t) t' <-> t' = t \/ taken used t'.
Proof. destruct t, t'; cbn; set_solver. Qed.

Lemma secret_ref_loop_Ok scope declared seen used refs seen' used' :
  foldM (secret_ref_step scope declared) (seen, used) refs = Ok (seen', used') <->
  refs_ok declared used refs /\ (forall r, r ∈ refs -> SecretRef.Name r ∉ seen) /\
  seen' = list_to_set (SecretRef.Name <$> refs) ∪ seen /\ used' = take_all used refs.
Proof.
  revert seen used. induction refs as [|r refs IH]; intros seen used.
  { cbn. unfold refs_ok. split.
    - intros [= <- <-]. split_and!; try constructor; set_solver.
    - intros (_ & _ & -> & ->). do 2 f_equal. set_solver. }
  cbn [foldM]. rewrite bind_Ok. unfold refs_ok in *. cbn [fmap list_fmap take_all foldl]. split.
  - intros (acc & (Hok & Hn & Ht & ->)%secret_ref_step_Ok & Hl).
    apply IH in Hl as ((HF & Hnd & Hndt & Htk) & Hdisj & -> & ->).
    split_and!; [by constructor| | | |set_solver|set_solver|done].
    + apply NoDup_cons. split; [|done]. intros (x & Hx & Hin)%list_elem_of_fmap.
      apply (Hdisj x Hin). set_solver.
    + apply NoDup_cons. split; [|done]. intros (x & Hx & Hin)%list_elem_of_fmap.
      apply (Htk x Hin), taken_take. by left.
    + intros x [->|Hx]%elem_of_cons; [done|]. intros Htx. apply (Htk x Hx), taken_take. by right.
  - intros (([Hok HF]%Forall_cons & [Hni Hnd]%NoDup_cons & [Hnt Hndt]%NoDup_cons & Htk) &
      Hdisj & -> & ->).
    eexists. split; [apply secret_ref_step_Ok; split_and!; [done|set_solver| |done]|].
    + apply Htk. set_solver.
    + apply IH. split_and!; [done|done|done| | |set_solver|done].
      * intros x Hx [Heq|Ht]%taken_take; [|by apply (Htk x); [set_solver|]].
        apply Hnt. rewrite <- Heq. by apply list_elem_of_fmap_2.
      * intros x Hx [Hk%elem_of_singleton|Hk]%elem_of_union; [|set_solver].
        apply Hni. rewrite <- Hk. by apply list_elem_of_fmap_2.
Qed.

Lemma validateSecretRefsWithUsed_Ok scope refs declared pe pm used' :
  validateSecretRefsWithUsed scope refs declared pe pm = Ok used' <->
  refs_ok declared (default ∅ pe, default ∅ pm) refs /\
  used' = take_all (default ∅ pe, default ∅ pm) refs.
Proof.
  unfold validateSecretRefsWithUsed. rewrite bind_Ok. split.
  - intros ([seen used] & (? & _ & _ & ->)%secret_ref_loop_Ok & [= <-]). done.
  - intros [Hok ->]. eexists (_, _). split; [|done].
    apply secret_ref_loop_Ok. split_and!; [done|set_solver|done|done].
Qed.

Lemma validateSecretInheritance_Ok scope jobRefs stepRefs :
  validateSecretInheritance scope jobRefs stepRefs = Ok tt <->
  forall r, r ∈ stepRefs -> SecretRef.Name r ∉ SecretRef.Name <$> jobRefs.
Proof.
  unfold validateSecretInheritance. rewrite <- Forall_forall. apply foldM_unit_Ok. intros r _.
  case_decide as Hr; rewrite elem_of_list_to_set in Hr; by split.
Qed.

Lemma taken_take_all used refs t :
  taken (take_all used refs) t <-> t ∈ target_of <$> refs \/ taken used t.
Proof.
  revert used. induction refs as [|r refs IH]; intros used; cbn; [set_solver|].
  rewrite IH, taken_take, elem_of_cons. naive_solver.
Qed.

(** ** Properties *)

(** The secret references of a job and of one of its steps pass the three checks of
    [validateJob] (job references; step references against a copy of the maps of the job;
    inheritance) exactly when every reference names a declared secret and has one
    well-formed target, and over the job and the step together no secret is referenced
    twice and no environment variable or mount path receives two secrets. *)
Theorem secret_scopes_spec jobScope stepScope declared jobRefs stepRefs :
  is_ok ('(envUsed, mountUsed) ← validateSecretRefs jobScope jobRefs declared;
         _ ← validateSecretRefsWithUsed stepScope stepRefs declared (Some envUsed) (Some mountUsed);
         validateSecretInheritance stepScope jobRefs stepRefs) = true <->
  Forall (ref_ok declared) (jobRefs ++ stepRefs) /\
  NoDup (SecretRef.Name <$> jobRefs ++ stepRefs) /\
  NoDup (target_of <$> jobRefs ++ stepRefs).
Proof.
  rewrite is_ok_true, !fmap_app, !NoDup_app, Forall_app. unfold validateSecretRefs. split.
  - intros [[] H]. inv_ok. destruct x as [E M]. inv_ok.
    rewrite validateSecretRefsWithUsed_Ok in *. rewrite validateSecretInheritance_Ok in *.
    unfold refs_ok in *. destruct_and!. cbn in *.
    match goal with H : (E, M) = _ |- _ => rewrite H in * end.
    split_and!; try done.
    + intros n Hj (r & -> & Hr)%list_elem_of_fmap. naive_solver.
    + intros t Hj (r & -> & Hr)%list_elem_of_fmap.
      match goal with H : forall r, r ∈ stepRefs -> ~ taken _ _ |- _ => apply (H r Hr) end.
      apply taken_take_all. by left.
  - intros ((Fj & Fs) & (Nj & Nd & Ns) & (Tj & Td & Ts)).
    destruct (take_all (∅, ∅) jobRefs) as [E M] eqn:Htk.
    exists tt. rewrite bind_Ok. exists (E, M). split.
    { apply validateSecretRefsWithUsed_Ok. split; [|done].
      split_and!; [done..|]. intros r _. destruct (target_of r); cbn; set_solver. }
    rewrite bind_Ok. eexists. split.
    { apply validateSecretRefsWithUsed_Ok. split; [|done]. cbn. split_and!; [done..|].
      intros r Hr. rewrite <- Htk, taken_take_all. intros [Hin|Hin].
      - apply (Td _ Hin). by apply list_elem_of_fmap_2.
      - destruct (target_of r); cbn in Hin; set_solver. }
    apply validateSecretInheritance_Ok. intros r Hr Hin.
    apply (Nd _ Hin). by apply list_elem_of_fmap_2.
Qed.

(** C24: [validateSecretDecls] accepts exactly the declarations with distinct non-empty
    names in which the field of the source is set and well formed (an identifier, a
    non-blank path or a non-blank command) and the fields of the other sources are empty;
    [secretDeclSet] is the set of their names. *)
Theorem validateSecretDecls_spec scope decls :
  (is_ok (validateSecretDecls scope decls) = true <-> decls_ok decls) /\
  (forall n, n ∈ secretDeclSet decls <-> exists d, d ∈ decls /\ SecretDecl.Name d = n).
Proof.
  split.
  - rewrite is_ok_true, <- (validateSecretDecls_Ok scope decls). split; [|by exists tt].
    by intros [[] ?].
  - intros n. rewrite secretDeclSet_spec, elem_of_list_to_set, list_elem_of_fmap. naive_solver.
Qed.
