(* ===== verification/Validate.v ===== *)
(** * validate.go: pipeline validation and topological ordering

    [Validate] receives a pointer: on success the pipeline's [TopoOrder] is set and every
    [when] condition has been parsed in place, so the model returns the updated pipeline.
    Scopes only appear in error messages; their quoting is not modelled. *)

From S2P Require Import Prelude Errors GoStrings Regex Conditional Model Names Secret Dfs.

Section validate.
Context `{cel : CEL}.

(** ** Field validators *)

Definition env_step (scope : string) (seen : gset string) (e : EnvVar.t) : result (gset string) :=
  if decide (EnvVar.Key e = "") then fail_with [scope] (PM ErrEmptyEnvKey) else
  if decide (EnvVar.Key e ∈ seen) then fail_with [scope; EnvVar.Key e] (PM ErrDuplicateEnvKey) else
  Ok ({[EnvVar.Key e]} ∪ seen).

Definition validateEnvVars (scope : string) (envs : list EnvVar.t) : result unit :=
  foldM (env_step scope) ∅ envs;; Ok tt.

Definition export_step (scope : string) (seen : gset string) (e : Export_.t)
    : result (gset string) :=
  let path := Export_.Path e in
  if decide (path = "") then fail_with [scope] (PM ErrEmptyExportPath) else
  if negb (HasPrefix path "/") then fail_with [scope; path] (PM ErrRelativeExport) else
  if decide (TrimRightByte "/" path = "") then fail_with [scope; path] (PM ErrRootExport) else
  if decide (Export_.Local e = "") then fail_with [scope; path] (PM ErrEmptyExportLocal) else
  if decide (path ∈ seen) then fail_with [scope; path] (PM ErrDuplicateExport) else
  Ok ({[path]} ∪ seen).

Definition validateExports (scope : string) (exports : list Export_.t) : result unit :=
  foldM (export_step scope) ∅ exports;; Ok tt.

Definition artifact_step (scope : string) (depSet : gset string) (targetSeen : gset string)
    (a : Artifact.t) : result (gset string) :=
  let from := Artifact.From a in
  let source := Artifact.Source a in
  let target := Artifact.Target a in
  if decide (from = "") then fail_with [scope] (PM ErrEmptyArtifactFrom) else
  if decide (source = "") then fail_with [scope; from] (PM ErrEmptyArtifactSource) else
  if negb (HasPrefix source "/") then fail_with [scope; source] (PM ErrRelativeArtifactSource) else
  if decide (target = "") then fail_with [scope; from] (PM ErrEmptyArtifactTarget) else
  if decide (from ∉ depSet) then fail_with [scope; from] (PM ErrArtifactNoDep) else
  if negb (HasPrefix target "/") then fail_with [scope; target] (PM ErrRelativeArtifact) else
  if decide (TrimRightByte "/" target = "") then fail_with [scope; target] (PM ErrRootArtifact) else
  if decide (target ∈ targetSeen) then fail_with [scope; target] (PM ErrDuplicateArtifact) else
  Ok ({[target]} ∪ targetSeen).

Definition validateArtifacts (scope : string) (artifacts : list Artifact.t) (deps : list string)
    : result unit :=
  let depSet := list_to_set deps in
  foldM (artifact_step scope depSet) ∅ artifacts;; Ok tt.

Definition validatePublish (scope : string) (pub : option Publish.t) : result unit :=
  match pub with
  | None => Ok tt
  | Some p => if blank (Publish.Image p) then fail_with [scope] (PM ErrEmptyPublishImage) else Ok tt
  end.

Definition validateRetry (scope : string) (r : option Retry.t) : result unit :=
  match r with
  | None => Ok tt
  | Some r =>
      if decide (Retry.Attempts r <= 0)%Z then fail_with [scope] (PM ErrInvalidRetryAttempts) else
      if decide (Retry.Delay r < 0)%Z then fail_with [scope] (PM ErrNegativeDelay) else
      match Retry.Backoff r with
      | BackoffUnset | BackoffNone | BackoffLinear | BackoffExponential => Ok tt
      | BackoffOther s => fail_with [scope; s] (PM ErrInvalidBackoff)
      end
  end.

Definition validateTimeout (scope : string) (d : Z) : result unit :=
  if decide (d < 0)%Z then fail_with [scope] (PM ErrNegativeTimeout) else Ok tt.

Definition validateShell (scope : string) (s : option (list string)) : result unit :=
  match s with
  | Some [] => fail_with [scope] (PM ErrEmptyShell)
  | _ => Ok tt
  end.

(** ** Steps *)

(** [s.When.Validate()] through the pointer, if there is one. *)
Definition validateWhen (scope : string) (w : option When.t) : result (option When.t) :=
  match w with
  | None => Ok None
  | Some w => w' ← map_err (errorf2 [scope] (PM ErrInvalidCondition)) (Validate w); Ok (Some w')
  end.

Definition step_scope (jobName name : string) : string :=
  "job " +:+ jobName +:+ " step " +:+ name.

(** The [seen] map and the step behind the pointer are both updated. *)
Definition validateStep (jobName : string) (s : Step.t) (seen : gset string)
    : result (Step.t * gset string) :=
  let name := Step.Name s in
  if decide (name = "") then fail_with [jobName] (PM ErrEmptyStepName) else
  if negb (MatchString validName name) then fail_with [jobName; name] (PM ErrInvalidName) else
  if decide (name ∈ seen) then fail_with [jobName; name] (PM ErrDuplicateStep) else
  let seen := {[name]} ∪ seen in
  if decide (Step.Run s = []) then fail_with [jobName; name] (PM ErrMissingRun) else
  foldM (fun _ cmd =>
    if blank cmd then fail_with [jobName; name] (PM ErrEmptyRunCommand) else Ok tt)
    tt (Step.Run s);;
  w ← validateWhen (step_scope jobName name) (Step.When s);
  guard_fail (match w with Some w => When.Deferred w | None => false end)
    (errorf [jobName; name] (raise (PM ErrDeferredStepWhen)));;
  let scope := step_scope jobName name in
  validateTimeout scope (Step.Timeout s);;
  validateShell scope (Step.Shell s);;
  validateEnvVars scope (Step.Env s);;
  validateRetry scope (Step.Retry s);;
  validateExports scope (Step.Exports s);;
  Ok (s <| Step.When := w |>, seen).

(** ** Jobs *)

(** One iteration of the loop over the steps: the names seen and the steps so far. *)
Definition job_step (j : Job.t) (declared : gset string) (used : gset string * gset string)
    (acc : gset string * list Step.t) (s : Step.t) : result (gset string * list Step.t) :=
  let '(stepNames, steps) := acc in
  '(s', stepNames) ← validateStep (Job.Name j) s stepNames;
  let scope := step_scope (Job.Name j) (Step.Name s) in
  validateArtifacts scope (Step.Artifacts s) (Job.DependsOn j);;
  validateSecretRefsWithUsed scope (Step.Secrets s) declared
    (Some (maps_Clone used.1)) (Some (maps_Clone used.2));;
  validateSecretInheritance scope (Job.Secrets j) (Step.Secrets s);;
  Ok (stepNames, steps ++ [s']).

Definition validateJob (idx : nat) (j : Job.t) (index : gmap string nat) (declared : gset string)
    : result (Job.t * gmap string nat) :=
  let name := Job.Name j in
  if decide (name = "") then fail_with [] (PM ErrEmptyJobName) else
  if negb (MatchString validName name) then fail_with [name] (PM ErrInvalidName) else
  if decide (is_Some (index !! name)) then fail_with [name] (PM ErrDuplicateJob) else
  let index := <[name := idx]> index in
  if decide (Job.Image j = "") then fail_with [name] (PM ErrMissingImage) else
  if decide (Job.Steps j = []) then fail_with [name] (PM ErrEmptyJob) else
  let jobScope := "job " +:+ name in
  validateEnvVars jobScope (Job.Env j);;
  validateExports jobScope (Job.Exports j);;
  validateArtifacts jobScope (Job.Artifacts j) (Job.DependsOn j);;
  validatePublish jobScope (Job.Publish j);;
  validateTimeout jobScope (Job.Timeout j);;
  validateRetry jobScope (Job.Retry j);;
  validateShell jobScope (Job.Shell j);;
  used ← validateSecretRefs jobScope (Job.Secrets j) declared;
  w ← validateWhen jobScope (Job.When j);
  '(_, steps) ← foldM (job_step j declared used) (∅, []) (Job.Steps j);
  Ok (j <| Job.When := w |> <| Job.Steps := steps |>, index).

(** ** The graph *)

Definition checkSelfDeps (jobs : list Job.t) : result unit :=
  foldM (fun _ j =>
    if decide (Job.Name j ∈ Job.DependsOn j)
    then fail_with [Job.Name j] (PM ErrSelfDependency) else Ok tt) tt jobs.

Record jobGraph : Type := JobGraph { g_jobs : list Job.t; g_index : gmap string nat }.

Definition resolveDep (g : jobGraph) (jobName dep : string) : result nat :=
  match g_index g !! dep with
  | Some j => Ok j
  | None => fail_with [jobName; dep] (PM ErrUnknownDep)
  end.

(** [g.jobs[i]]; indices are always in range. *)
Definition job_at (g : jobGraph) (i : nat) : Job.t := default (Job.empty "") (g_jobs g !! i).

Definition topoSort (g : jobGraph) : result (list nat) :=
  st ← visit_all (fun i => Job.DependsOn (job_at g i))
         (fun i dep => resolveDep g (Job.Name (job_at g i)) dep)
         (fun i => errorf [Job.Name (job_at g i)] (raise (PM ErrCycleDetected)))
         (S (length (g_jobs g))) (seq 0 (length (g_jobs g)));
  Ok (order st).

(** ** [Validate] *)

(** One iteration of the loop over the jobs. *)
Definition pipeline_job (declared : gset string) (acc : gmap string nat * list Job.t)
    (ij : nat * Job.t) : result (gmap string nat * list Job.t) :=
  let '(index, jobs) := acc in
  '(j', index) ← validateJob ij.1 ij.2 index declared;
  Ok (index, jobs ++ [j']).

Definition ValidatePipeline (p : option Pipeline.t) : result (Pipeline.t * list nat) :=
  match p with
  | None => Fail (raise (PM ErrEmptyPipeline))
  | Some p =>
      if decide (Pipeline.Jobs p = []) then Fail (raise (PM ErrEmptyPipeline)) else
      validateEnvVars "pipeline" (Pipeline.Env p);;
      validateSecretDecls "pipeline" (Pipeline.Secrets p);;
      let declaredSecrets := secretDeclSet (Pipeline.Secrets p) in
      '(index, jobs) ← foldM (pipeline_job declaredSecrets) (∅, []) (imap pair (Pipeline.Jobs p));
      checkSelfDeps jobs;;
      order ← topoSort (JobGraph jobs index);
      Ok (p <| Pipeline.Jobs := jobs |> <| Pipeline.TopoOrder := Some order |>, order)
  end.

(** ** What is accepted, declaratively *)

Definition env_ok (envs : list EnvVar.t) : Prop :=
  Forall (fun e => EnvVar.Key e <> "") envs /\ NoDup (EnvVar.Key <$> envs).

(** An absolute path other than the root. *)
Definition proper_path (path : string) : Prop :=
  HasPrefix path "/" = true /\ TrimRightByte "/" path <> "".

Definition exports_ok (exports : list Export_.t) : Prop :=
  Forall (fun e => proper_path (Export_.Path e) /\ Export_.Local e <> "") exports /\
  NoDup (Export_.Path <$> exports).

Definition artifacts_ok (deps : list string) (artifacts : list Artifact.t) : Prop :=
  Forall (fun a => Artifact.From a <> "" /\ Artifact.From a ∈ deps /\
    HasPrefix (Artifact.Source a) "/" = true /\ proper_path (Artifact.Target a)) artifacts /\
  NoDup (Artifact.Target <$> artifacts).

Definition publish_ok (p : option Publish.t) : Prop :=
  forall pub, p = Some pub -> blank (Publish.Image pub) = false.

Definition retry_ok (r : option Retry.t) : Prop :=
  forall r', r = Some r' -> (0 < Retry.Attempts r')%Z /\ (0 <= Retry.Delay r')%Z /\
    forall s, Retry.Backoff r' <> BackoffOther s.

(** The condition behind a [When] pointer after validation. *)
Definition revalidate (w : option When.t) : option When.t :=
  w ← w; Some (match Validate w with Ok w' => w' | Fail _ => w end).

#[local] Arguments revalidate : simpl never.

Definition when_ok (w : option When.t) : Prop :=
  forall w', w = Some w' -> is_ok (Validate w') = true.

Definition static (w : option When.t) : Prop :=
  forall w', w = Some w' -> When.Deferred w' = false.

Definition validated_step (s : Step.t) : Step.t := s <| Step.When ::= revalidate |>.
Definition validated_job (j : Job.t) : Job.t :=
  j <| Job.When ::= revalidate |> <| Job.Steps ::= fmap validated_step |>.

Definition step_ok (s : Step.t) : Prop :=
  Step.Name s <> "" /\ MatchString validName (Step.Name s) = true /\
  Step.Run s <> [] /\ Forall (fun cmd => blank cmd = false) (Step.Run s) /\
  when_ok (Step.When s) /\ static (revalidate (Step.When s)) /\
  (0 <= Step.Timeout s)%Z /\ Step.Shell s <> Some [] /\ env_ok (Step.Env s) /\
  retry_ok (Step.Retry s) /\ exports_ok (Step.Exports s).

(** A step inside its job: its references are checked against the job's. *)
Definition step_in_job_ok (declared : gset string) (j : Job.t) (s : Step.t) : Prop :=
  step_ok s /\ artifacts_ok (Job.DependsOn j) (Step.Artifacts s) /\
  refs_ok declared (take_all (∅, ∅) (Job.Secrets j)) (Step.Secrets s) /\
  (forall r, r ∈ Step.Secrets s -> SecretRef.Name r ∉ SecretRef.Name <$> Job.Secrets j).

Definition job_ok (declared : gset string) (j : Job.t) : Prop :=
  Job.Name j <> "" /\ MatchString validName (Job.Name j) = true /\
  Job.Image j <> "" /\ Job.Steps j <> [] /\
  env_ok (Job.Env j) /\ exports_ok (Job.Exports j) /\
  artifacts_ok (Job.DependsOn j) (Job.Artifacts j) /\ publish_ok (Job.Publish j) /\
  (0 <= Job.Timeout j)%Z /\ retry_ok (Job.Retry j) /\ Job.Shell j <> Some [] /\
  refs_ok declared (∅, ∅) (Job.Secrets j) /\ when_ok (Job.When j) /\
  Forall (step_in_job_ok declared j) (Job.Steps j) /\ NoDup (Step.Name <$> Job.Steps j).

(** ** Soundness and completeness of the field validators *)

Lemma env_step_Ok scope seen e seen' :
  env_step scope seen e = Ok seen' <->
  EnvVar.Key e <> "" /\ EnvVar.Key e ∉ seen /\ seen' = {[EnvVar.Key e]} ∪ seen.
Proof. unfold env_step. repeat case_decide; naive_solver. Qed.

Lemma loop_Ok {A} (m : result A) u : (m;; Ok tt) = Ok u <-> exists a, m = Ok a.
Proof. destruct u. rewrite bind_Ok. naive_solver. Qed.

Lemma validateEnvVars_Ok scope envs u : validateEnvVars scope envs = Ok u <-> env_ok envs.
Proof.
  unfold validateEnvVars. rewrite loop_Ok. apply (seen_loop_empty _ _ _ (env_step_Ok scope)).
Qed.

Lemma slash_nonempty s : HasPrefix s "/" = true -> s <> "".
Proof. by intros H ->. Qed.

Lemma proper_path_nonempty path : proper_path path -> path <> "".
Proof. intros [? ?] ->. done. Qed.

Lemma export_step_Ok scope seen e seen' :
  export_step scope seen e = Ok seen' <->
  (proper_path (Export_.Path e) /\ Export_.Local e <> "") /\ Export_.Path e ∉ seen /\
  seen' = {[Export_.Path e]} ∪ seen.
Proof.
  unfold export_step, proper_path. case_decide as He.
  { rewrite He. cbn. naive_solver. }
  destruct (HasPrefix _ _); cbn; [|naive_solver]. repeat case_decide; naive_solver.
Qed.

Lemma validateExports_Ok scope exports u :
  validateExports scope exports = Ok u <-> exports_ok exports.
Proof.
  unfold validateExports. rewrite loop_Ok. apply (seen_loop_empty _ _ _ (export_step_Ok scope)).
Qed.

Lemma artifact_step_Ok scope deps seen a seen' :
  artifact_step scope (list_to_set deps) seen a = Ok seen' <->
  (Artifact.From a <> "" /\ Artifact.From a ∈ deps /\
   HasPrefix (Artifact.Source a) "/" = true /\ proper_path (Artifact.Target a)) /\
  Artifact.Target a ∉ seen /\ seen' = {[Artifact.Target a]} ∪ seen.
Proof.
  unfold artifact_step, proper_path. rewrite <- (elem_of_list_to_set (C := gset string) _ deps).
  pose proof (slash_nonempty (Artifact.Source a)) as Hs.
  pose proof (slash_nonempty (Artifact.Target a)) as Ht.
  destruct (HasPrefix (Artifact.Source a) _), (HasPrefix (Artifact.Target a) _);
    cbn [negb]; repeat case_decide; naive_solver.
Qed.

Lemma validateArtifacts_Ok scope artifacts deps u :
  validateArtifacts scope artifacts deps = Ok u <-> artifacts_ok deps artifacts.
Proof.
  unfold validateArtifacts. rewrite loop_Ok. apply (seen_loop_empty _ _ _ (artifact_step_Ok scope deps)).
Qed.

Lemma validatePublish_Ok scope p u : validatePublish scope p = Ok u <-> publish_ok p.
Proof.
  destruct u. unfold validatePublish, publish_ok. destruct p as [p|]; [|naive_solver].
  destruct (blank _) eqn:Hb.
  - split; [done|]. intros H. specialize (H p eq_refl). congruence.
  - split; [|done]. by intros _ ? [= <-].
Qed.

Lemma validateRetry_Ok scope r u : validateRetry scope r = Ok u <-> retry_ok r.
Proof.
  destruct u. unfold validateRetry, retry_ok. destruct r as [r|]; [|naive_solver].
  transitivity ((0 < Retry.Attempts r)%Z /\ (0 <= Retry.Delay r)%Z /\
    forall s, Retry.Backoff r <> BackoffOther s).
  - repeat case_decide; [by split; [|lia]..|].
    destruct (Retry.Backoff r); split; try done; [intros; split_and!; [lia|lia|done]..|].
    intros (_ & _ & Hb). by destruct (Hb s).
  - split; [by intros ? ? [= <-]|auto].
Qed.

Lemma validateTimeout_Ok scope d u : validateTimeout scope d = Ok u <-> (0 <= d)%Z.
Proof. destruct u. unfold validateTimeout. case_decide; naive_solver lia. Qed.

Lemma validateShell_Ok scope s u : validateShell scope s = Ok u <-> s <> Some [].
Proof. destruct u. unfold validateShell. destruct s as [[|]|]; naive_solver. Qed.

Lemma validateWhen_Ok scope w w' :
  validateWhen scope w = Ok w' <-> when_ok w /\ w' = revalidate w.
Proof.
  unfold validateWhen, when_ok, revalidate. destruct w as [w|]; cbn; [|naive_solver].
  rewrite bind_Ok. setoid_rewrite map_err_Ok. destruct (Validate w) as [v|e] eqn:Hv; cbn.
  - split; [|naive_solver]. intros (? & [= <-] & [= <-]). split; [|done].
    intros ? [= <-]. by rewrite Hv.
  - split; [naive_solver|]. intros [H _]. specialize (H w eq_refl). by rewrite Hv in H.
Qed.

(** ** Steps and jobs *)

Lemma when_bind_Ok {B} scope w (k : option When.t -> result B) b :
  (w' ← validateWhen scope w; k w') = Ok b <-> when_ok w /\ k (revalidate w) = Ok b.
Proof.
  rewrite bind_Ok. split.
  - intros (w' & [? ->]%validateWhen_Ok & ?). done.
  - intros [? ?]. exists (revalidate w). split; [by apply validateWhen_Ok|done].
Qed.

Lemma static_spec w :
  match w with Some w => When.Deferred w | None => false end = false <-> static w.
Proof. unfold static. destruct w; naive_solver. Qed.

Lemma nonblank_loop_Ok (args : list string) cmds :
  foldM (fun _ cmd => if blank cmd then fail_with args (PM ErrEmptyRunCommand) else Ok tt) tt cmds
    = Ok tt <-> Forall (fun cmd => blank cmd = false) cmds.
Proof. apply foldM_unit_Ok. intros cmd _. destruct (blank cmd); by split. Qed.

Lemma validateStep_Ok jobName s seen s' seen' :
  validateStep jobName s seen = Ok (s', seen') <->
  step_ok s /\ Step.Name s ∉ seen /\ s' = validated_step s /\ seen' = {[Step.Name s]} ∪ seen.
Proof.
  unfold validateStep, step_ok. cbv zeta.
  destruct (decide (Step.Name s = "")); [by split; [|tauto]|].
  destruct (MatchString validName (Step.Name s)); cbn [negb]; [|by split; [|naive_solver]].
  destruct (decide (Step.Name s ∈ seen)); [by split; [|tauto]|].
  destruct (decide (Step.Run s = [])); [by split; [|tauto]|].
  rewrite seq_Ok, nonblank_loop_Ok, when_bind_Ok, !seq_Ok, guard_fail_Ok, static_spec.
  rewrite validateTimeout_Ok, validateShell_Ok, validateEnvVars_Ok, validateRetry_Ok,
    validateExports_Ok.
  assert (forall x y, Ok (s <| Step.When := revalidate (Step.When s) |>, x) = Ok (E := error) (s', y)
    <-> s' = validated_step s /\ y = x) as ->.
  { intros x y. unfold validated_step. cbn. split; [by intros [= <- <-]|by intros [-> ->]]. }
  tauto.
Qed.

Lemma inherit_spec jobRefs stepRefs scope u :
  validateSecretInheritance scope jobRefs stepRefs = Ok u <->
  forall r, r ∈ stepRefs -> SecretRef.Name r ∉ SecretRef.Name <$> jobRefs.
Proof. destruct u. apply validateSecretInheritance_Ok. Qed.

Lemma job_step_Ok j declared used seen steps s acc :
  used = take_all (∅, ∅) (Job.Secrets j) ->
  job_step j declared used (seen, steps) s = Ok acc <->
  step_in_job_ok declared j s /\ Step.Name s ∉ seen /\
  acc = ({[Step.Name s]} ∪ seen, steps ++ [validated_step s]).
Proof.
  intros ->. unfold job_step, step_in_job_ok. rewrite bind_Ok. split.
  - intros ([s' seen1] & (Hs & Hn & -> & ->)%validateStep_Ok & H).
    rewrite seq_Ok, validateArtifacts_Ok in H. destruct H as [Ha H].
    apply bind_Ok in H as (u & (Hr & _)%validateSecretRefsWithUsed_Ok & H).
    rewrite seq_Ok, inherit_spec in H. destruct H as [Hi [= <-]].
    cbn [default from_option] in Hr. unfold maps_Clone in Hr. destruct (take_all _ _). done.
  - intros ((Hs & Ha & Hr & Hi) & Hn & ->).
    exists (validated_step s, {[Step.Name s]} ∪ seen). split; [by apply validateStep_Ok|].
    rewrite seq_Ok, validateArtifacts_Ok. split; [done|].
    rewrite bind_Ok. eexists. split.
    + apply validateSecretRefsWithUsed_Ok. split; [|done].
      cbn. unfold maps_Clone. by destruct (take_all _ _).
    + by rewrite seq_Ok, inherit_spec.
Qed.

Lemma job_steps_Ok j declared seen steps l acc :
  foldM (job_step j declared (take_all (∅, ∅) (Job.Secrets j))) (seen, steps) l = Ok acc <->
  Forall (step_in_job_ok declared j) l /\ NoDup (Step.Name <$> l) /\
  (forall s, s ∈ l -> Step.Name s ∉ seen) /\
  acc = (list_to_set (Step.Name <$> l) ∪ seen, steps ++ (validated_step <$> l)).
Proof.
  revert seen steps. induction l as [|s l IH]; intros seen steps.
  { cbn. rewrite app_nil_r. split.
    - intros [= <-]. split_and!; [constructor|constructor|set_solver|f_equal; set_solver].
    - intros (_ & _ & _ & ->). do 2 f_equal. set_solver. }
  cbn [foldM]. rewrite bind_Ok. cbn [fmap list_fmap]. split.
  - intros (a & (Hok & Hn & ->)%(job_step_Ok _ _ _ _ _ _ _ eq_refl) & Hl).
    apply IH in Hl as (HF & Hnd & Hdisj & ->). split_and!; [by constructor| |set_solver|].
    + apply NoDup_cons. split; [|done]. intros (x & Hx & Hin)%list_elem_of_fmap.
      apply (Hdisj x Hin). set_solver.
    + rewrite <- app_assoc. f_equal. set_solver.
  - intros ([Hok HF]%Forall_cons & [Hni Hnd]%NoDup_cons & Hdisj & ->).
    eexists. split; [apply job_step_Ok; [done|]; split_and!; [done|set_solver|done]|].
    apply IH. split_and!; [done|done| |].
    + intros x Hx [Hk%elem_of_singleton|Hk]%elem_of_union; [|set_solver].
      apply Hni. rewrite <- Hk. by apply list_elem_of_fmap_2.
    + rewrite <- app_assoc. f_equal. set_solver.
Qed.

Lemma validateSecretRefs_bind {B} scope refs declared (k : gset string * gset string -> result B) b :
  (used ← validateSecretRefs scope refs declared; k used) = Ok b <->
  refs_ok declared (∅, ∅) refs /\ k (take_all (∅, ∅) refs) = Ok b.
Proof.
  rewrite bind_Ok. unfold validateSecretRefs. split.
  - intros (u & [? ->]%validateSecretRefsWithUsed_Ok & ?). done.
  - intros [? ?]. eexists. split; [by apply validateSecretRefsWithUsed_Ok|done].
Qed.

Lemma validateJob_Ok idx j index declared j' index' :
  validateJob idx j index declared = Ok (j', index') <->
  job_ok declared j /\ index !! Job.Name j = None /\
  j' = validated_job j /\ index' = <[Job.Name j := idx]> index.
Proof.
  unfold validateJob, job_ok. cbv zeta.
  destruct (decide (Job.Name j = "")); [by split; [|tauto]|].
  destruct (MatchString validName (Job.Name j)); cbn [negb]; [|by split; [|naive_solver]].
  rewrite eq_None_not_Some. case_decide as Hin; [by split; [|tauto]|].
  destruct (decide (Job.Image j = "")); [by split; [|tauto]|].
  destruct (decide (Job.Steps j = [])); [by split; [|tauto]|].
  rewrite !seq_Ok, validateSecretRefs_bind, when_bind_Ok, bind_Ok.
  rewrite !validateEnvVars_Ok, validateExports_Ok, validateArtifacts_Ok, validatePublish_Ok,
    validateTimeout_Ok, validateRetry_Ok, validateShell_Ok.
  assert (forall x, (exists a, x = Ok (E := error) a /\
      (let '(_, steps) := a in
       Ok (j <| Job.When := revalidate (Job.When j) |> <| Job.Steps := steps |>,
         <[Job.Name j := idx]> index)) = Ok (E := error) (j', index')) <->
    exists names steps, x = Ok (E := error) (names : gset string, steps) /\
      j' = j <| Job.When := revalidate (Job.When j) |> <| Job.Steps := steps |> /\
      index' = <[Job.Name j := idx]> index) as ->.
  { intros x. split.
    - intros ([names steps] & -> & [= <- <-]). eauto.
    - intros (names & steps & -> & -> & ->). by exists (names, steps). }
  assert ((exists names steps,
      foldM (job_step j declared (take_all (∅, ∅) (Job.Secrets j))) (∅, []) (Job.Steps j)
        = Ok (names, steps) /\
      j' = j <| Job.When := revalidate (Job.When j) |> <| Job.Steps := steps |> /\
      index' = <[Job.Name j := idx]> index) <->
    Forall (step_in_job_ok declared j) (Job.Steps j) /\ NoDup (Step.Name <$> Job.Steps j) /\
    j' = validated_job j /\ index' = <[Job.Name j := idx]> index) as ->; [|tauto].
  setoid_rewrite job_steps_Ok. split.
  - intros (names & steps & (HF & Hnd & _ & [= -> ->]) & -> & ->). done.
  - intros (HF & Hnd & -> & ->). do 2 eexists. split_and!; [done|done|set_solver|done|done|done].
Qed.

(** ** The graph *)

Definition index_correct (jobs : list Job.t) (index : gmap string nat) : Prop :=
  forall n i, index !! n = Some i <-> exists j, jobs !! i = Some j /\ Job.Name j = n.

Section graph.
Variables (jobs : list Job.t) (index : gmap string nat).
Hypothesis Hindex : index_correct jobs index.

Abbreviation g := (JobGraph jobs index).
Abbreviation g_deps := (fun i => Job.DependsOn (job_at g i)).
Abbreviation g_resolve := (fun i dep => resolveDep g (Job.Name (job_at g i)) dep).

Lemma job_at_lookup i j : jobs !! i = Some j -> job_at g i = j.
Proof. intros Hi. unfold job_at. cbn. by rewrite Hi. Qed.

Lemma g_index_in_range i j : jobs !! i = Some j -> i ∈ seq 0 (length jobs).
Proof. intros Hi%lookup_lt_Some. apply elem_of_seq. lia. Qed.

Lemma resolveDep_spec name dep :
  (exists i, resolveDep g name dep = Ok i /\ index !! dep = Some i) \/
  (resolveDep g name dep = fail_with [name; dep] (PM ErrUnknownDep) /\ dep ∉ Job.Name <$> jobs).
Proof.
  unfold resolveDep. cbn. destruct (index !! dep) as [i|] eqn:Hi; [left; eauto|right].
  split; [done|]. intros (j & -> & (i & Hj)%list_elem_of_lookup)%list_elem_of_fmap.
  assert (index !! Job.Name j = Some i) by (apply Hindex; eauto). congruence.
Qed.

Lemma in_range_job i : i ∈ seq 0 (length jobs) -> exists j, jobs !! i = Some j.
Proof. intros [_ Hi]%elem_of_seq. apply lookup_lt_is_Some. lia. Qed.

Lemma g_edge i k :
  i ∈ seq 0 (length jobs) -> edge g_deps g_resolve i k ->
  exists j j', jobs !! i = Some j /\ jobs !! k = Some j' /\ depends jobs (Job.Name j) (Job.Name j').
Proof.
  intros [j Hj]%in_range_job (d & Hd & Hr). rewrite (job_at_lookup _ _ Hj) in Hd, Hr.
  destruct (resolveDep_spec (Job.Name j) d) as [(i' & Hr' & Hi')|[Hr' _]]; [|by rewrite Hr' in Hr].
  rewrite Hr' in Hr. injection Hr as ->. apply Hindex in Hi' as (j' & Hj' & <-).
  exists j, j'. split_and!; [done..|]. exists j. split_and!; [|done|done].
  by eapply list_elem_of_lookup_2.
Qed.

Lemma g_closed i d k :
  i ∈ seq 0 (length jobs) -> d ∈ g_deps i -> g_resolve i d = Ok k -> k ∈ seq 0 (length jobs).
Proof.
  intros Hi Hd Hr. destruct (g_edge i k Hi ltac:(by exists d)) as (j & j' & _ & Hj' & _).
  by eapply g_index_in_range.
Qed.

Lemma g_tc i k :
  i ∈ seq 0 (length jobs) -> tc (edge g_deps g_resolve) i k ->
  exists j j', jobs !! i = Some j /\ jobs !! k = Some j' /\
    tc (depends jobs) (Job.Name j) (Job.Name j').
Proof.
  intros Hi Hik. revert Hi. induction Hik as [i k He|i m k He _ IH]; intros Hi.
  - destruct (g_edge i k Hi He) as (j & j' & ? & ? & ?). exists j, j'. split_and!; [done..|].
    by apply tc_once.
  - destruct (g_edge i m Hi He) as (j & j' & Hj & Hj' & Hd).
    destruct (IH (g_index_in_range _ _ Hj')) as (j1 & j2 & Hj1 & Hj2 & Ht).
    rewrite Hj' in Hj1. injection Hj1 as ->. exists j, j2. split_and!; [done..|]. by eapply tc_l.
Qed.

(** The other direction: a path between known names is a path between indices. *)
Lemma tc_g n m k :
  tc (depends jobs) n m -> index !! m = Some k ->
  exists i, index !! n = Some i /\ tc (edge g_deps g_resolve) i k.
Proof.
  assert (forall n m k, depends jobs n m -> index !! m = Some k ->
    exists i, index !! n = Some i /\ edge g_deps g_resolve i k) as Hone.
  { intros x y z (j & (i & Hj)%list_elem_of_lookup & <- & Hd) Hz. exists i.
    split; [apply Hindex; eauto|]. exists y. rewrite (job_at_lookup _ _ Hj). split; [done|].
    unfold resolveDep. cbn. by rewrite Hz. }
  intros Hnm. revert k. induction Hnm as [n m Hd|n x m Hd _ IH]; intros k Hk.
  - destruct (Hone _ _ _ Hd Hk) as (i & ? & ?). exists i. split; [done|]. by apply tc_once.
  - destruct (IH k Hk) as (i & Hi & Ht). destruct (Hone _ _ _ Hd Hi) as (i0 & ? & ?).
    exists i0. split; [done|]. by eapply tc_l.
Qed.

Lemma tc_depends_source n m : tc (depends jobs) n m -> n ∈ Job.Name <$> jobs.
Proof.
  intros H. destruct H as [n m (j & Hj & <- & _)|n x m (j & Hj & <- & _) _];
    by apply list_elem_of_fmap_2.
Qed.

Lemma topoSort_Ok order :
  topoSort g = Ok order ->
  deps_closed jobs /\ acyclic_jobs jobs /\ order ≡ₚ seq 0 (length jobs) /\ deps_first jobs order.
Proof.
  unfold topoSort. cbn [g_jobs]. intros (st & Hv & [= <-])%bind_Ok.
  pose proof (visit_all_spec g_deps g_resolve
    (fun i => errorf [Job.Name (job_at g i)] (raise (PM ErrCycleDetected)))
    (seq 0 (length jobs)) g_closed (S (length jobs)) (seq 0 (length jobs))) as Hs.
  specialize (Hs ltac:(rewrite length_seq; lia) ltac:(done)). rewrite Hv in Hs.
  destruct Hs as (Ht & Hsub & Hsub'). split_and!.
  - intros j dep (i & Hj)%list_elem_of_lookup Hdep.
    assert (i ∈ order st) as (l1 & l2 & Heq)%list_elem_of_split
      by (apply Hsub; by eapply g_index_in_range).
    destruct (proj2 Ht _ _ _ Heq dep) as (k & Hk & _); [by rewrite (job_at_lookup _ _ Hj)|].
    destruct (resolveDep_spec (Job.Name (job_at g i)) dep) as [(k' & _ & Hk')|[Hr _]];
      [|by rewrite Hr in Hk].
    apply Hindex in Hk' as (j' & Hj' & <-).
    apply list_elem_of_fmap_2. by eapply list_elem_of_lookup_2.
  - intros n Hc. pose proof (tc_depends_source _ _ Hc) as Hn.
    apply list_elem_of_fmap in Hn as (j & -> & (i & Hj)%list_elem_of_lookup).
    assert (index !! Job.Name j = Some i) as Hi by (apply Hindex; eauto).
    destruct (tc_g _ _ i Hc Hi) as (i' & Hi' & Ht'). rewrite Hi in Hi'. injection Hi' as <-.
    eapply topological_acyclic; [exact (fun _ => raise OutOfFuel)|exact Ht| |exact Ht'].
    apply Hsub. by eapply g_index_in_range.
  - apply NoDup_Permutation; [apply Ht|apply NoDup_seq|]. intros i. by split; [apply Hsub'|apply Hsub].
  - intros l1 i l2 j dep Heq Hj Hdep.
    destruct (proj2 Ht _ _ _ Heq dep) as (k & Hk & Hk1); [by rewrite (job_at_lookup _ _ Hj)|].
    destruct (resolveDep_spec (Job.Name (job_at g i)) dep) as [(k' & Hr & Hk')|[Hr _]];
      [|by rewrite Hr in Hk].
    rewrite Hr in Hk. injection Hk as ->. apply Hindex in Hk' as (j' & Hj' & <-). eauto.
Qed.

Lemma topoSort_Fail e :
  topoSort g = Fail e ->
  (Is e (PM ErrCycleDetected) = true /\ exists n, tc (depends jobs) n n) \/
  (Is e (PM ErrUnknownDep) = true /\ ~ deps_closed jobs).
Proof.
  unfold topoSort. cbn [g_jobs]. intros [Hv|(? & _ & ?)]%bind_Fail; [|done].
  pose proof (visit_all_spec g_deps g_resolve
    (fun i => errorf [Job.Name (job_at g i)] (raise (PM ErrCycleDetected)))
    (seq 0 (length jobs)) g_closed (S (length jobs)) (seq 0 (length jobs))) as Hs.
  specialize (Hs ltac:(rewrite length_seq; lia) ltac:(done)). rewrite Hv in Hs.
  destruct Hs as [(i & Hi & -> & Hc)|(i & d & Hi & Hd & Hr)].
  - left. split; [done|]. destruct (g_tc i i Hi Hc) as (j & j' & Hj & Hj' & Ht).
    rewrite Hj in Hj'. injection Hj' as <-. eauto.
  - right. destruct (in_range_job i Hi) as [j Hj]. rewrite (job_at_lookup _ _ Hj) in Hd, Hr.
    destruct (resolveDep_spec (Job.Name j) d) as [(k & Hr' & _)|[Hr' Hn]];
      rewrite Hr' in Hr; [done|]. injection Hr as <-. split; [done|].
    intros Hclosed. apply Hn. eapply Hclosed; [|exact Hd]. by eapply list_elem_of_lookup_2.
Qed.

Lemma topoSort_total : deps_closed jobs -> acyclic_jobs jobs -> is_ok (topoSort g) = true.
Proof.
  intros Hc Ha. destruct (topoSort g) as [o|e] eqn:Ht; [done|].
  apply topoSort_Fail in Ht as [[_ [n Hn]]|[_ Hn]]; [by destruct (Ha n)|done].
Qed.
End graph.

(** ** Whole pipelines *)

Lemma pipeline_loop_Ok declared index out l acc :
  foldM (pipeline_job declared) (index, out) l = Ok acc <->
  Forall (job_ok declared) l.*2 /\ NoDup (Job.Name <$> l.*2) /\
  (forall j, j ∈ l.*2 -> index !! Job.Name j = None) /\
  acc = (foldl (fun m ij => <[Job.Name ij.2 := ij.1]> m) index l, out ++ (validated_job <$> l.*2)).
Proof.
  revert index out. induction l as [|[i j] l IH]; intros index out.
  { cbn. rewrite app_nil_r. split; [|naive_solver].
    intros [= <-]. split_and!; [constructor|constructor|set_solver|done]. }
  cbn [foldM]. rewrite bind_Ok. cbn [fmap list_fmap snd fst foldl]. split.
  - intros ([index1 out1] & Hs & Hl). unfold pipeline_job in Hs. cbn in Hs.
    apply bind_Ok in Hs as ([j' index2] & (Hok & Hn & -> & ->)%validateJob_Ok & [= <- <-]).
    apply IH in Hl as (HF & Hnd & Hdisj & ->). split_and!; [by constructor| | |by rewrite <- app_assoc].
    + apply NoDup_cons. split; [|done]. intros (x & Hx & Hin)%list_elem_of_fmap.
      specialize (Hdisj x Hin). rewrite <- Hx, lookup_insert_eq in Hdisj. done.
    + intros x [->|Hx]%elem_of_cons; [done|]. specialize (Hdisj x Hx).
      by apply lookup_insert_None in Hdisj as [? _].
  - intros ([Hok HF]%Forall_cons & [Hni Hnd]%NoDup_cons & Hdisj & ->).
    exists (<[Job.Name j := i]> index, out ++ [validated_job j]). split.
    + unfold pipeline_job. cbn. apply bind_Ok. eexists (_, _). split; [|done].
      apply validateJob_Ok. split_and!; [done|apply Hdisj; set_solver|done|done].
    + apply IH. split_and!; [done|done| |by rewrite <- app_assoc].
      intros x Hx. rewrite lookup_insert_ne; [apply Hdisj; set_solver|].
      intros Heq. apply Hni. rewrite Heq. by apply list_elem_of_fmap_2.
Qed.

(** The index the loop builds. *)
Definition job_index (jobs : list Job.t) : gmap string nat :=
  foldl (fun m ij => <[Job.Name ij.2 := ij.1]> m) ∅ (imap pair jobs).

Lemma imap_pair_snoc {A} (l : list A) x : imap pair (l ++ [x]) = imap pair l ++ [(length l, x)].
Proof. rewrite imap_app. cbn. by rewrite Nat.add_0_r. Qed.

Lemma imap_pair_2 {A} (l : list A) : (imap pair l).*2 = l.
Proof. rewrite fmap_imap. apply imap_const_id || (induction l; cbn; by f_equal). Qed.

Lemma job_index_correct jobs : NoDup (Job.Name <$> jobs) -> index_correct jobs (job_index jobs).
Proof.
  unfold index_correct, job_index. induction jobs as [|j jobs IH] using rev_ind; intros Hnd n i.
  { cbn. rewrite lookup_empty. split; [done|]. by intros (j & Hj & _). }
  rewrite imap_pair_snoc, foldl_snoc. cbn.
  rewrite fmap_app in Hnd. apply NoDup_app in Hnd as (Hnd & Hdisj & _).
  destruct (decide (n = Job.Name j)) as [->|Hne].
  - rewrite lookup_insert_eq. split.
    + intros [= <-]. exists j. rewrite lookup_app_r, Nat.sub_diag by lia. done.
    + intros (j' & Hj' & Hn). apply lookup_app_Some in Hj' as [Hj'|[Hle Hj']].
      * exfalso. apply (Hdisj (Job.Name j)); [|set_solver]. rewrite <- Hn.
        apply list_elem_of_fmap_2. by eapply list_elem_of_lookup_2.
      * apply list_lookup_singleton_Some in Hj' as [? _]. f_equal. lia.
  - rewrite lookup_insert_ne by done. rewrite IH by done. split.
    + intros (j' & Hj' & Hn). exists j'. split; [|done]. by apply lookup_app_l_Some.
    + intros (j' & Hj' & Hn). exists j'. split; [|done].
      apply lookup_app_Some in Hj' as [Hj'|[Hle Hj']]; [done|].
      apply list_lookup_singleton_Some in Hj' as [_ <-]. done.
Qed.

(** Well-formed pipelines. *)
Definition well_formed (p : Pipeline.t) : Prop :=
  Pipeline.Jobs p <> [] /\ env_ok (Pipeline.Env p) /\ decls_ok (Pipeline.Secrets p) /\
  Forall (job_ok (list_to_set (SecretDecl.Name <$> Pipeline.Secrets p))) (Pipeline.Jobs p) /\
  NoDup (Job.Name <$> Pipeline.Jobs p) /\
  deps_closed (Pipeline.Jobs p) /\ acyclic_jobs (Pipeline.Jobs p).

(** Validation changes neither names nor dependencies. *)
Lemma fmap_validated {A} (f : Job.t -> A) (jobs : list Job.t) :
  (forall j, f (validated_job j) = f j) -> f <$> (validated_job <$> jobs) = f <$> jobs.
Proof. intros Hf. rewrite <- list_fmap_compose. apply list_fmap_ext. intros. apply Hf. Qed.

Lemma depends_validated jobs n m : depends (validated_job <$> jobs) n m <-> depends jobs n m.
Proof.
  unfold depends. split.
  - intros (j' & (j & -> & Hj)%list_elem_of_fmap & Hn & Hm). by exists j.
  - intros (j & Hj & Hn & Hm). exists (validated_job j). split; [by apply list_elem_of_fmap_2|done].
Qed.

Lemma tc_depends_validated jobs n m :
  tc (depends (validated_job <$> jobs)) n m <-> tc (depends jobs) n m.
Proof.
  split.
  - induction 1 as [x y Hxy|x y z Hxy _ IH]; apply (proj1 (depends_validated _ _ _)) in Hxy;
      [by apply tc_once|by eapply tc_l].
  - induction 1 as [x y Hxy|x y z Hxy _ IH]; apply (proj2 (depends_validated _ _ _)) in Hxy;
      [by apply tc_once|by eapply tc_l].
Qed.

Lemma closed_validated jobs : deps_closed (validated_job <$> jobs) <-> deps_closed jobs.
Proof.
  unfold deps_closed. rewrite fmap_validated by done. split; intros H j dep.
  - intros Hj. by apply (H (validated_job j)), list_elem_of_fmap_2.
  - intros (j' & -> & Hj')%list_elem_of_fmap. by apply (H j').
Qed.

Lemma checkSelfDeps_Ok jobs u :
  checkSelfDeps jobs = Ok u <-> Forall (fun j => Job.Name j ∉ Job.DependsOn j) jobs.
Proof.
  destruct u. apply foldM_unit_Ok. intros j _. case_decide; split; done.
Qed.

Lemma acyclic_no_self jobs :
  acyclic_jobs jobs -> Forall (fun j => Job.Name j ∉ Job.DependsOn j) jobs.
Proof.
  intros Ha. apply Forall_forall. intros j Hj Hd. apply (Ha (Job.Name j)), tc_once. by exists j.
Qed.

Lemma ValidatePipeline_Ok p p' order :
  ValidatePipeline (Some p) = Ok (p', order) <->
  well_formed p /\
  topoSort (JobGraph (validated_job <$> Pipeline.Jobs p) (job_index (Pipeline.Jobs p))) = Ok order /\
  p' = p <| Pipeline.Jobs := validated_job <$> Pipeline.Jobs p |> <| Pipeline.TopoOrder := Some order |>.
Proof.
  unfold ValidatePipeline, well_formed. destruct (decide (Pipeline.Jobs p = [])) as [|Hne];
    [by split; [|tauto]|].
  rewrite !seq_Ok, validateEnvVars_Ok, validateSecretDecls_Ok, bind_Ok, secretDeclSet_spec.
  set (declared := list_to_set _).
  assert (NoDup (Job.Name <$> Pipeline.Jobs p) ->
    index_correct (validated_job <$> Pipeline.Jobs p) (job_index (Pipeline.Jobs p))) as Hidx.
  { intros Hnd n i. rewrite (job_index_correct _ Hnd n i). rewrite list_lookup_fmap.
    destruct (Pipeline.Jobs p !! i) as [j|]; cbn; [|naive_solver].
    split; [intros (? & [= <-] & <-); by eexists|intros (? & [= <-] & <-); by eexists]. }
  split.
  - intros (He & Hd & [index jobs] & Hl & H). apply pipeline_loop_Ok in Hl as (HF & Hnd & _ & [= -> ->]).
    rewrite imap_pair_2 in HF, Hnd, H. cbn [app] in H. fold (job_index (Pipeline.Jobs p)) in H.
    apply seq_Ok in H as [Hself H]. apply bind_Ok in H as (o & Ho & [= <- <-]).
    pose proof (topoSort_Ok _ _ (Hidx Hnd) _ Ho) as (Hc & Ha & _ & _).
    split_and!; try done.
    + by apply closed_validated.
    + intros n Hn. apply (Ha n). by apply tc_depends_validated.
  - intros ((_ & He & Hd & HF & Hnd & Hc & Ha) & Ho & ->). split_and!; [done|done|].
    eexists. split; [apply pipeline_loop_Ok; rewrite imap_pair_2; split_and!; [done|done|set_solver|done]|].
    cbn [app]. fold (job_index (Pipeline.Jobs p)). apply seq_Ok. split.
    + apply checkSelfDeps_Ok, acyclic_no_self. intros n Hn. apply (Ha n). by apply tc_depends_validated.
    + by rewrite Ho.
Qed.

Lemma well_formed_sorts p :
  well_formed p -> exists order,
    topoSort (JobGraph (validated_job <$> Pipeline.Jobs p) (job_index (Pipeline.Jobs p))) = Ok order.
Proof.
  intros (_ & _ & _ & _ & Hnd & Hc & Ha). apply is_ok_true, topoSort_total.
  - intros n i. rewrite (job_index_correct _ Hnd n i). rewrite list_lookup_fmap.
    destruct (Pipeline.Jobs p !! i) as [j|]; cbn; [|naive_solver].
    split; [intros (? & [= <-] & <-); by eexists|intros (? & [= <-] & <-); by eexists].
  - by apply closed_validated.
  - intros n Hn. apply (Ha n). by apply tc_depends_validated.
Qed.

(** ** Validating again changes nothing *)

Lemma Validate_again w w' : Validate w = Ok w' -> Validate w' = Ok w'.
Proof. intros (d & Hd & ->)%Validate_Ok. apply Validate_Ok. exists d. by split. Qed.

Lemma revalidate_again w : when_ok w -> when_ok (revalidate w) /\ revalidate (revalidate w) = revalidate w.
Proof.
  unfold when_ok, revalidate. destruct w as [w|]; cbn; [|done]. intros H. specialize (H w eq_refl).
  destruct (Validate w) as [w'|] eqn:Hw; [|done]. apply Validate_again in Hw.
  split; [by intros ? [= <-]; rewrite Hw|by rewrite Hw].
Qed.

Lemma step_ok_again s : step_ok s -> step_ok (validated_step s) /\ validated_step (validated_step s) = validated_step s.
Proof.
  intros (? & ? & ? & ? & Hw & Hs & ?). destruct (revalidate_again _ Hw) as [Hw' Heq]. split.
  - unfold step_ok, validated_step. cbn. rewrite Heq. split_and!; tauto.
  - transitivity (s <| Step.When := revalidate (revalidate (Step.When s)) |>); [done|].
    by rewrite Heq.
Qed.

Lemma job_ok_again declared j :
  job_ok declared j -> job_ok declared (validated_job j) /\ validated_job (validated_job j) = validated_job j.
Proof.
  intros (? & ? & ? & Hne & ? & ? & ? & ? & ? & ? & ? & ? & Hw & HF & Hnd).
  destruct (revalidate_again _ Hw) as [Hw' Heq].
  assert (validated_step <$> (validated_step <$> Job.Steps j) = validated_step <$> Job.Steps j) as Hss.
  { clear -HF. induction HF as [|s l (Hs & _) _ IH]; [done|]. cbn. rewrite IH. f_equal.
    by apply step_ok_again. }
  split.
  - unfold job_ok, validated_job. cbn. split_and!; try done.
    + by intros ?%fmap_nil_inv.
    + apply Forall_fmap. eapply Forall_impl; [exact HF|].
      intros s (Hs & ? & ? & ?). split_and!; [by apply step_ok_again|done..].
    + rewrite <- list_fmap_compose. exact Hnd.
  - transitivity (j <| Job.When := revalidate (revalidate (Job.When j)) |>
                    <| Job.Steps := validated_step <$> (validated_step <$> Job.Steps j) |>); [done|].
    by rewrite Heq, Hss.
Qed.

Lemma ValidatePipeline_again p p' order :
  ValidatePipeline (Some p) = Ok (p', order) -> ValidatePipeline (Some p') = Ok (p', order).
Proof.
  intros ((Hne & He & Hd & HF & Hnd & Hc & Ha) & Ho & ->)%ValidatePipeline_Ok.
  set (jobs := Pipeline.Jobs p) in *.
  assert (validated_job <$> (validated_job <$> jobs) = validated_job <$> jobs) as Hjj.
  { clear -HF. induction HF as [|j l Hj _ IH]; [done|]. cbn. rewrite IH. f_equal.
    by eapply job_ok_again. }
  apply ValidatePipeline_Ok. unfold well_formed. cbn [Pipeline.Jobs Pipeline.Env Pipeline.Secrets update].
  rewrite Hjj. split_and!; try done.
  - by intros ?%fmap_nil_inv.
  - apply Forall_fmap. eapply Forall_impl; [exact HF|]. intros j Hj. by apply job_ok_again.
  - by rewrite fmap_validated.
  - by apply closed_validated.
  - intros n Hn. apply (Ha n). by apply tc_depends_validated.
  - rewrite <- Ho. f_equal. f_equal. unfold job_index. clear.
    induction jobs as [|j jobs IH] using rev_ind; [done|].
    rewrite fmap_app. cbn [fmap list_fmap]. rewrite !imap_pair_snoc, !foldl_snoc, IH. cbn.
    by rewrite length_fmap.
Qed.

(** The order covers every job, dependencies first. *)
Lemma ValidatePipeline_sorted p p' order :
  ValidatePipeline (Some p) = Ok (p', order) ->
  order ≡ₚ seq 0 (length (Pipeline.Jobs p)) /\ deps_first (Pipeline.Jobs p') order.
Proof.
  intros ((Hne & _ & _ & _ & Hnd & _) & Ho & ->)%ValidatePipeline_Ok.
  apply topoSort_Ok in Ho as (_ & _ & Hperm & Hfirst).
  - rewrite length_fmap in Hperm. done.
  - intros n i. rewrite (job_index_correct _ Hnd n i), list_lookup_fmap.
    destruct (Pipeline.Jobs p !! i) as [j|]; cbn; [|naive_solver].
    split; [intros (? & [= <-] & <-); by eexists|intros (? & [= <-] & <-); by eexists].
Qed.

(** ** Properties *)

(** C14: [Validate] accepts exactly the well-formed pipelines: there is a job, names are
    valid and distinct, every field of every job, step and secret meets its declarative
    specification, every dependency names a job and the dependency relation has no cycle.
    The depth-first search always terminates within its fuel. *)
Theorem Validate_accepts p :
  is_ok (ValidatePipeline (Some p)) = true <-> well_formed p.
Proof.
  rewrite is_ok_true. split.
  - by intros ([p' order] & (? & _ & _)%ValidatePipeline_Ok).
  - intros Hwf. destruct (well_formed_sorts p Hwf) as [order Ho].
    eexists (_, order). by apply ValidatePipeline_Ok.
Qed.

(** On success [Validate] only parses conditions and sets [TopoOrder], the order is a
    permutation of the job indices in which every dependency comes before its dependents,
    and validating the result again returns the same pipeline and the same order. *)
Theorem Validate_result p p' order
  (Hok : ValidatePipeline (Some p) = Ok (p', order)) :
  p' = p <| Pipeline.Jobs := validated_job <$> Pipeline.Jobs p |>
         <| Pipeline.TopoOrder := Some order |> /\
  order ≡ₚ seq 0 (length (Pipeline.Jobs p)) /\
  deps_first (Pipeline.Jobs p') order /\
  ValidatePipeline (Some p') = Ok (p', order).
Proof.
  pose proof (ValidatePipeline_again _ _ _ Hok) as Hagain.
  pose proof (ValidatePipeline_sorted _ _ _ Hok) as [Hperm Hfirst].
  apply ValidatePipeline_Ok in Hok as (_ & _ & ->). done.
Qed.

(** With an index that maps every job name to its position, [topoSort] returns an
    order exactly for closed acyclic graphs; its only errors are a cycle that exists and a
    dependency that names no job. *)
Theorem topoSort_spec jobs index
  (Hindex : index_correct jobs index) :
  (is_ok (topoSort (JobGraph jobs index)) = true <-> deps_closed jobs /\ acyclic_jobs jobs) /\
  (forall order, topoSort (JobGraph jobs index) = Ok order ->
     order ≡ₚ seq 0 (length jobs) /\ deps_first jobs order) /\
  (forall e, topoSort (JobGraph jobs index) = Fail e ->
     (Is e (PM ErrCycleDetected) = true /\ exists n, tc (depends jobs) n n) \/
     (Is e (PM ErrUnknownDep) = true /\ ~ deps_closed jobs)).
Proof.
  split_and!.
  - split; [|intros [? ?]; by apply topoSort_total].
    intros (o & Ho)%is_ok_true. by apply topoSort_Ok in Ho as (? & ? & _).
  - intros o Ho. by apply topoSort_Ok in Ho as (_ & _ & ? & ?).
  - intros e. by apply topoSort_Fail.
Qed.

(** A dangling or a cyclic dependency is reported. *)
Definition ex_cycle : list Job.t :=
  [Job.empty "a" <| Job.DependsOn := ["b"] |>; Job.empty "b" <| Job.DependsOn := ["a"] |>].

Lemma topoSort_spec_witness :
  index_correct ex_cycle (job_index ex_cycle) /\
  (is_ok (topoSort (JobGraph ex_cycle (job_index ex_cycle))) = true <->
   deps_closed ex_cycle /\ acyclic_jobs ex_cycle).
Proof.
  assert (index_correct ex_cycle (job_index ex_cycle)) as H
    by (apply job_index_correct; apply (bool_decide_unpack _); vm_compute; exact I).
  split; [exact H|]. exact (proj1 (topoSort_spec _ _ H)).
Defined.
End validate.

Definition ex_step : Step.t :=
  Step.empty "s" <| Step.Run := ["make"] |> <| Step.When := Some (When.mk "true" false None) |>.
Definition ex_valid : Pipeline.t :=
  Pipeline.mk "p"
    [Job.empty "b" <| Job.Image := "alpine" |> <| Job.DependsOn := ["a"] |> <| Job.Steps := [ex_step] |>;
     Job.empty "a" <| Job.Image := "alpine" |> <| Job.Steps := [ex_step] |>] [] [] None None None.

Lemma Validate_result_witness :
  exists p', ValidatePipeline (cel := ex_cel) (Some ex_valid) = Ok (p', [1; 0]) /\
    deps_first (Pipeline.Jobs p') [1; 0].
Proof.
  eexists. split; [vm_compute; reflexivity|].
  eapply (Validate_result (cel := ex_cel) ex_valid). vm_compute. reflexivity.
Defined.
