(* ===== verification/Filter.v ===== *)
(** * filter.go: selecting the jobs between start-at and stop-after

    The two graph searches take fuel; [None] means that it ran out, which the lemmas
    exclude for the fuel the callers give. *)

From S2P Require Import Prelude Errors GoStrings Regex Conditional Model Names.

(** ** Targets *)

Record filterTarget : Type := FilterTarget { t_Job : string; t_Step : string }.

(** The loop of [parseFilterTarget]: the text before and after the first colon that is
    outside brackets. *)
Fixpoint split_target (depth : nat) (s : string) : option (string * string) :=
  match s with
  | EmptyString => None
  | String c s' =>
      let continue depth := '(job, step) ← split_target depth s'; Some (String c job, step) in
      if decide (c = "["%char) then continue (S depth)
      else if decide (c = "]"%char) then continue (pred depth)
      else if decide (c = ":"%char) then
        if decide (depth = 0) then Some ("", s') else continue depth
      else continue depth
  end.

Definition parseFilterTarget (s : string) : filterTarget :=
  match split_target 0 s with
  | Some (job, step) => FilterTarget job step
  | None => FilterTarget s ""
  end.

Definition jobHasStep (j : Job.t) (step : string) : bool :=
  existsb (fun s => bool_decide (Step.Name s = step)) (Job.Steps j).

Definition stepIndex (steps : list Step.t) (name : string) : option nat :=
  fst <$> list_find (fun s => Step.Name s = name) steps.

Definition validateTarget (t : filterTarget) (nameSet : gset string) (jobByName : gmap string Job.t)
    (errJob errStep : pm_sentinel) : result unit :=
  if decide (t_Job t = "") then
    if decide (t_Step t <> "") then fail_with [t_Step t] (PM ErrOrphanedStep) else Ok tt
  else if decide (t_Job t ∉ nameSet) then fail_with [t_Job t] (PM errJob)
  else if bool_decide (t_Step t <> "") &&
          negb (match jobByName !! t_Job t with
                | Some j => jobHasStep j (t_Step t)
                | None => false
                end)
  then fail_with [t_Job t; t_Step t] (PM errStep)
  else Ok tt.

(** ** Adjacency *)

Record jobAdj : Type := JobAdj {
  dependents : gmap string (list string);
  dependencies : gmap string (list string)
}.

(** [m[k]] on a map of slices. *)
Definition adj_get (adj : gmap string (list string)) (k : string) : list string :=
  default [] (adj !! k).

Record adj_state : Type := AdjState {
  a_nameSet : gset string;
  a_jobByName : gmap string Job.t;
  a_adj : jobAdj
}.

Definition adj_step (st : adj_state) (j : Job.t) : adj_state :=
  let name := Job.Name j in
  AdjState ({[name]} ∪ a_nameSet st) (<[name := j]> (a_jobByName st))
    (JobAdj
      (foldl (fun ds dep => <[dep := adj_get ds dep ++ [name]]> ds) (dependents (a_adj st))
        (Job.DependsOn j))
      (<[name := Job.DependsOn j]> (dependencies (a_adj st)))).

Definition buildJobAdj (jobs : list Job.t) (startAt stopAfter : filterTarget) : result jobAdj :=
  let st := foldl adj_step (AdjState ∅ ∅ (JobAdj ∅ ∅)) jobs in
  validateTarget startAt (a_nameSet st) (a_jobByName st) ErrUnknownStartAt ErrUnknownStartAtStep;;
  validateTarget stopAfter (a_nameSet st) (a_jobByName st) ErrUnknownStopAfter ErrUnknownStopAfterStep;;
  Ok (a_adj st).

(** ** Searches *)

Definition bfs_visit (acc : gset string * list string) (next : string) : gset string * list string :=
  let '(visited, queue) := acc in
  if decide (next ∈ visited) then acc else ({[next]} ∪ visited, queue ++ [next]).

Fixpoint bfs_loop (fuel : nat) (adj : gmap string (list string)) (visited : gset string)
    (queue : list string) : option (gset string) :=
  match queue with
  | [] => Some visited
  | cur :: queue =>
      match fuel with
      | O => None
      | S fuel' =>
          let '(visited, queue) := foldl bfs_visit (visited, queue) (adj_get adj cur) in
          bfs_loop fuel' adj visited queue
      end
  end.

(** Every name an adjacency map can lead to. *)
Definition adj_targets (adj : gmap string (list string)) : gset string :=
  list_to_set (concat (map_to_list adj).*2).

Definition bfsReachable (start : string) (adj : gmap string (list string)) : option (gset string) :=
  bfs_loop (S (size (adj_targets adj))) adj {[start]} [start].

(** A nil [jobNameSet] is the universe. *)
Definition intersectSets (a b : option (gset string)) : option (gset string) :=
  match a, b with
  | None, _ => b
  | _, None => a
  | Some a, Some b => Some (filter (fun k => k ∈ b) a)
  end.

Fixpoint addTransitiveDeps (fuel : nat) (deps : gmap string (list string)) (name : string)
    (visited : gset string) : option (gset string) :=
  match fuel with
  | O => None
  | S fuel' =>
      foldl (fun acc dep =>
        visited ← acc;
        if decide (dep ∈ visited) then Some visited
        else addTransitiveDeps fuel' deps dep ({[dep]} ∪ visited))
        (Some visited) (adj_get deps name)
  end.

(** ** Step trimming *)

Record stepTrimOpts : Type := StepTrimOpts { StartIdx : option nat; StopIdx : option nat }.

Definition resolveStepTrim (jobName : string) (steps : list Step.t) (startAt stopAfter : filterTarget)
    : stepTrimOpts :=
  StepTrimOpts
    (if decide (t_Step startAt <> "" /\ jobName = t_Job startAt)
     then stepIndex steps (t_Step startAt) else None)
    (if decide (t_Step stopAfter <> "" /\ jobName = t_Job stopAfter)
     then stepIndex steps (t_Step stopAfter) else None).

Definition stripStepExports (steps : list Step.t) : list Step.t :=
  (fun s => s <| Step.Exports := [] |>) <$> steps.

(** The body of the loop for one job. *)
Definition trimJob (startAt stopAfter : filterTarget) (j : Job.t) : result Job.t :=
  let trim := resolveStepTrim (Job.Name j) (Job.Steps j) startAt stopAfter in
  match StartIdx trim, StopIdx trim with
  | None, None => Ok j
  | start, stop =>
      if match start, stop with Some a, Some b => bool_decide (b < a) | _, _ => false end
      then fail_with [Job.Name j; t_Step startAt; t_Step stopAfter] (PM ErrEmptyStepWindow)
      else
      let steps := match stop with Some b => take (S b) (Job.Steps j) | None => Job.Steps j end in
      let steps := match start with
                   | Some a => stripStepExports (take a steps) ++ drop a steps
                   | None => steps
                   end in
      Ok (j <| Job.Steps := steps |>)
  end.

Definition applyStepTrimming (jobs : list Job.t) (startAt stopAfter : filterTarget)
    : result (list Job.t) :=
  if decide (t_Step startAt = "" /\ t_Step stopAfter = "") then Ok jobs
  else forM (trimJob startAt stopAfter) jobs.

(** ** [FilterJobs] *)

(** [option] results of the searches, inside the error monad. *)
Definition with_fuel {A} (o : option A) : result A :=
  match o with Some a => Ok a | None => Fail (raise OutOfFuel) end.

(** The selection of one job: dropped, kept, or kept only for its outputs. *)
Definition selectJob (fullSet executionWindow : gset string) (job : Job.t) : option Job.t :=
  if decide (Job.Name job ∉ fullSet) then None else
  let j := Job_Clone job in
  Some (if decide (Job.Name j ∈ executionWindow) then j
        else j <| Job.Exports := [] |> <| Job.Publish := None |>
               <| Job.Steps ::= stripStepExports |>).

Definition FilterJobs (jobs : list Job.t) (opts : FilterOpts.t) : result (list Job.t) :=
  if decide (FilterOpts.StartAt opts = "" /\ FilterOpts.StopAfter opts = "") then Ok jobs else
  let startAt := parseFilterTarget (FilterOpts.StartAt opts) in
  let stopAfter := parseFilterTarget (FilterOpts.StopAfter opts) in
  adj ← buildJobAdj jobs startAt stopAfter;
  forwardSet ← (if decide (t_Job startAt <> "")
                then s ← with_fuel (bfsReachable (t_Job startAt) (dependents adj)); Ok (Some s)
                else Ok None);
  backwardSet ← (if decide (t_Job stopAfter <> "")
                 then s ← with_fuel (bfsReachable (t_Job stopAfter) (dependencies adj)); Ok (Some s)
                 else Ok None);
  let executionWindow := default ∅ (intersectSets forwardSet backwardSet) in
  if decide (executionWindow = ∅)
  then fail_with [FilterOpts.StartAt opts; FilterOpts.StopAfter opts] (PM ErrEmptyFilterResult) else
  fullSet ← with_fuel (foldl (fun acc name =>
      visited ← acc;
      addTransitiveDeps (S (size (adj_targets (dependencies adj)))) (dependencies adj) name visited)
      (Some executionWindow) (elements executionWindow));
  applyStepTrimming (omap (selectJob fullSet executionWindow) jobs) startAt stopAfter.

(** ** Correctness of the searches *)

Section search.
Variable adj : gmap string (list string).

Definition adj_edge (x y : string) : Prop := y ∈ adj_get adj x.

Lemma adj_edge_target x y : adj_edge x y -> y ∈ adj_targets adj.
Proof.
  unfold adj_edge, adj_get, adj_targets. destruct (adj !! x) as [l|] eqn:Hx; cbn; [|set_solver].
  intros Hy. apply elem_of_list_to_set, list_elem_of_In, in_concat.
  exists l. split; apply list_elem_of_In; [|done].
  apply list_elem_of_fmap. exists (x, l). by rewrite elem_of_map_to_list.
Qed.

Lemma bfs_visit_uniq acc l : foldl bfs_visit acc l = foldl uniq_step acc l.
Proof.
  revert acc. induction l as [|x l IH]; intros [v q]; [done|]. cbn [foldl]. by rewrite IH.
Qed.

Lemma uniq_step_seen l (acc : gset string * list string) :
  (foldl uniq_step acc l).1 = list_to_set l ∪ acc.1.
Proof.
  revert acc. induction l as [|x l IH]; intros acc; cbn [foldl]; [set_solver|].
  rewrite IH. unfold uniq_step. case_decide; cbn; set_solver.
Qed.

Lemma bfs_visit_spec v q l :
  foldl bfs_visit (v, q) l = (list_to_set l ∪ v, q ++ filter (.∉ v) (uniq l)).
Proof.
  rewrite bfs_visit_uniq. rewrite (surjective_pairing (foldl _ _ _)).
  by rewrite uniq_step_seen, uniq_loop_gen.
Qed.

(** Marking [new] shrinks what is left of the universe. *)
Lemma size_unvisited (U v : gset string) (new : list string) :
  NoDup new -> (forall x, x ∈ new -> x ∈ U /\ x ∉ v) ->
  size (U ∖ (list_to_set new ∪ v)) + length new = size (U ∖ v).
Proof.
  intros Hnd Hnew. rewrite <- (size_list_to_set (C := gset string) new) by done.
  rewrite <- size_union by set_solver. f_equal. apply set_eq. intros x.
  destruct (decide (x ∈ new)) as [Hx|Hx]; [specialize (Hnew x Hx)|]; set_solver.
Qed.

Section bfs.
Variable start : string.

Definition U : gset string := {[start]} ∪ adj_targets adj.

Record bfs_inv (visited : gset string) (queue : list string) : Prop := {
  bi_start : start ∈ visited;
  bi_queue : forall x, x ∈ queue -> x ∈ visited;
  bi_sound : forall x, x ∈ visited -> rtc adj_edge start x;
  bi_closed : forall x y, x ∈ visited -> adj_edge x y -> x ∈ queue \/ y ∈ visited
}.

Lemma bfs_loop_spec fuel visited queue :
  bfs_inv visited queue -> size (U ∖ visited) + length queue <= fuel ->
  exists v, bfs_loop fuel adj visited queue = Some v /\ forall x, x ∈ v <-> rtc adj_edge start x.
Proof.
  revert visited queue. induction fuel as [|fuel IH]; intros visited [|cur queue] Hinv Hf;
    try (cbn in Hf; lia).
  1, 2: exists visited; split; [done|]; intros x; split; [apply Hinv|];
    intros Hx; eapply (rtc_ind_r (fun y => y ∈ visited) start); [apply Hinv| |exact Hx];
    intros y z _ Hyz Hy; destruct (bi_closed _ _ Hinv y z Hy Hyz) as [[]%not_elem_of_nil|]; done.
  cbn [bfs_loop]. rewrite bfs_visit_spec. apply IH; clear IH.
  - destruct Hinv as [Hs Hq Hsd Hc]. split.
    + set_solver.
    + intros x [?|[_ Hx]%list_elem_of_filter]%elem_of_app; [set_solver|].
      rewrite elem_of_uniq in Hx. by apply elem_of_union_l, elem_of_list_to_set.
    + intros x [Hx|Hx]%elem_of_union; [|by apply Hsd].
      apply elem_of_list_to_set in Hx. eapply rtc_r; [apply (Hsd cur), Hq; by left|done].
    + intros x y Hx Hxy. destruct (decide (x ∈ visited)) as [Hxv|Hxv].
      * destruct (Hc x y Hxv Hxy) as [[->|?]%elem_of_cons|?]; [right|left|right].
        -- by apply elem_of_union_l, elem_of_list_to_set.
        -- apply elem_of_app. by left.
        -- by apply elem_of_union_r.
      * left. apply elem_of_app. right. apply list_elem_of_filter. split; [done|].
        apply elem_of_uniq. apply elem_of_union in Hx as [Hx|]; [|done].
        by apply elem_of_list_to_set in Hx.
  - set (new := filter (.∉ visited) (uniq (adj_get adj cur))).
    pose proof (size_unvisited U visited new) as Hsize.
    assert (list_to_set (adj_get adj cur) ∪ visited = list_to_set new ∪ visited) as ->.
    { apply set_eq. intros x. rewrite !elem_of_union, !elem_of_list_to_set. unfold new.
      rewrite list_elem_of_filter, elem_of_uniq. destruct (decide (x ∈ visited)); naive_solver. }
    rewrite length_app. cbn in Hf. rewrite <- Hsize in Hf; [lia| |].
    + apply NoDup_filter, NoDup_uniq.
    + intros x [Hx Hin]%list_elem_of_filter. rewrite elem_of_uniq in Hin. split; [|done].
      apply elem_of_union_r. by eapply adj_edge_target.
Qed.

Lemma bfsReachable_spec :
  exists v, bfsReachable start adj = Some v /\ forall x, x ∈ v <-> rtc adj_edge start x.
Proof.
  apply bfs_loop_spec.
  - split; [set_solver|set_solver| |set_solver]. intros x ->%elem_of_singleton. constructor.
  - cbn. assert (U ∖ {[start]} ⊆ adj_targets adj) as Hsub by (unfold U; set_solver).
    apply subseteq_size in Hsub. lia.
Qed.
End bfs.

(** What [addTransitiveDeps] adds: reachable names, whose own successors are all in. *)
Definition deps_post (name : string) (visited v' : gset string) : Prop :=
  visited ⊆ v' /\
  forall x, x ∈ v' -> x ∈ visited \/ (tc adj_edge name x /\ forall y, adj_edge x y -> y ∈ v').

Lemma addTransitiveDeps_spec fuel name visited :
  size (adj_targets adj ∖ visited) < fuel ->
  exists v', addTransitiveDeps fuel adj name visited = Some v' /\ deps_post name visited v' /\
    forall y, adj_edge name y -> y ∈ v'.
Proof.
  revert name visited. induction fuel as [|fuel IH]; intros name visited Hf; [lia|].
  cbn [addTransitiveDeps].
  assert (forall l v, (forall y, y ∈ l -> adj_edge name y) -> visited ⊆ v -> deps_post name visited v ->
    exists v', foldl (fun acc dep =>
        visited ← acc;
        if decide (dep ∈ visited) then Some visited
        else addTransitiveDeps fuel adj dep ({[dep]} ∪ visited)) (Some v) l = Some v' /\
      deps_post name visited v' /\ v ⊆ v' /\ forall y, y ∈ l -> y ∈ v') as Hloop.
  { induction l as [|d l IHl]; intros v Hl Hsub Hpost; [exists v; split_and!; [done..|set_solver]|].
    cbn [foldl mbind option_bind]. case_decide as Hd.
    - destruct (IHl v ltac:(set_solver) Hsub Hpost) as (v' & -> & Hp & Hv & Hin).
      exists v'. split_and!; [done..|]. set_solver.
    - assert (adj_edge name d) as Hed by set_solver.
      destruct (IH d ({[d]} ∪ v)) as (v1 & -> & (Hsub1 & Hp1) & Hc1).
      { assert (size (adj_targets adj ∖ ({[d]} ∪ v)) < size (adj_targets adj ∖ visited)); [|lia].
        apply subset_size. apply adj_edge_target in Hed. set_solver. }
      destruct (IHl v1) as (v' & -> & Hp & Hv & Hin).
      { set_solver. } { set_solver. }
      { split; [set_solver|]. intros x Hx. destruct (Hp1 x Hx) as [Hx1|[Ht Hc]].
        - apply elem_of_union in Hx1 as [->%elem_of_singleton|Hxv].
          + right. split; [by apply tc_once|done].
          + destruct Hpost as [_ Hpost]. destruct (Hpost x Hxv) as [?|[? Hc]]; [by left|right].
            split; [done|]. set_solver.
        - right. split; [by eapply tc_l|done]. }
      exists v'. split_and!; [done|done|set_solver|set_solver]. }
  destruct (Hloop (adj_get adj name) visited) as (v' & -> & Hp & _ & Hin); [done|done| |].
  { split; [done|by left]. }
  exists v'. by split_and!.
Qed.

Definition closure (window : gset string) : option (gset string) :=
  foldl (fun acc name =>
      visited ← acc; addTransitiveDeps (S (size (adj_targets adj))) adj name visited)
    (Some window) (elements window).

(** Adding the dependencies of every member closes the window under dependencies. *)
Lemma closure_spec window :
  exists full, closure window = Some full /\
    forall x, x ∈ full <-> exists w, w ∈ window /\ rtc adj_edge w x.
Proof.
  assert (forall l v, (forall w, w ∈ l -> w ∈ window) -> window ⊆ v ->
    (forall x, x ∈ v -> x ∈ window \/
       exists w, w ∈ window /\ tc adj_edge w x /\ forall y, adj_edge x y -> y ∈ v) ->
    exists v', foldl (fun acc name =>
        visited ← acc; addTransitiveDeps (S (size (adj_targets adj))) adj name visited)
        (Some v) l = Some v' /\ v ⊆ v' /\
      (forall x, x ∈ v' -> x ∈ window \/
         exists w, w ∈ window /\ tc adj_edge w x /\ forall y, adj_edge x y -> y ∈ v') /\
      (forall w y, w ∈ l -> adj_edge w y -> y ∈ v')) as Hloop.
  { induction l as [|w l IH]; intros v Hl Hsub Hv; [exists v; split_and!; [done..|set_solver]|].
    cbn [foldl mbind option_bind].
    destruct (addTransitiveDeps_spec (S (size (adj_targets adj))) w v) as (v1 & -> & (Hs1 & Hp1) & Hc1).
    { assert (size (adj_targets adj ∖ v) <= size (adj_targets adj)); [|lia].
      apply subseteq_size. set_solver. }
    destruct (IH v1) as (v' & -> & Hs' & Hv' & Hl').
    { set_solver. } { set_solver. }
    { intros x Hx. destruct (Hp1 x Hx) as [Hxv|[Ht Hc]].
      - destruct (Hv x Hxv) as [?|(w' & ? & ? & ?)]; [by left|right]. exists w'. set_solver.
      - right. exists w. set_solver. }
    exists v'. split_and!; [done|set_solver|done|].
    intros w' y [->|Hw']%elem_of_cons Hy; [|by eapply Hl']. set_solver. }
  destruct (Hloop (elements window) window) as (full & Heq & Hsub & Hfull & Hclosed);
    [set_solver|done|by left|].
  exists full. split; [done|]. intros x. split.
  - intros [?|(w & ? & ? & _)]%Hfull; [exists x; split; [done|constructor]|].
    exists w. split; [done|]. by apply tc_rtc.
  - intros (w & Hw & Hwx). assert (w ∈ full) as Hwf by set_solver. clear Hw.
    induction Hwx as [w|w y x Hwy _ IH]; [done|]. apply IH.
    destruct (Hfull w Hwf) as [Hwin|(_ & _ & _ & Hc)]; [|by apply Hc].
    apply (Hclosed w y); [by apply elem_of_elements|done].
Qed.
End search.

(** ** The adjacency maps *)

Lemma dependents_loop name deps ds x n :
  n ∈ adj_get (foldl (fun ds dep => <[dep := adj_get ds dep ++ [name]]> ds) ds deps) x <->
  n ∈ adj_get ds x \/ (n = name /\ x ∈ deps).
Proof.
  revert ds. induction deps as [|d deps IH]; intros ds; cbn [foldl].
  { split; [by left|]. by intros [?|[_ []%not_elem_of_nil]]. }
  rewrite IH, elem_of_cons. unfold adj_get at 1. destruct (decide (x = d)) as [->|Hne].
  - rewrite lookup_insert_eq. cbn [default from_option id]. rewrite elem_of_app, list_elem_of_singleton.
    naive_solver.
  - rewrite lookup_insert_ne by done. fold (adj_get ds x). naive_solver.
Qed.

Definition adj_of (jobs : list Job.t) : adj_state := foldl adj_step (AdjState ∅ ∅ (JobAdj ∅ ∅)) jobs.

Lemma adj_of_snoc jobs j : adj_of (jobs ++ [j]) = adj_step (adj_of jobs) j.
Proof. unfold adj_of. by rewrite foldl_snoc. Qed.

Lemma depends_snoc jobs j n m :
  depends (jobs ++ [j]) n m <-> depends jobs n m \/ (n = Job.Name j /\ m ∈ Job.DependsOn j).
Proof.
  unfold depends. setoid_rewrite elem_of_app. setoid_rewrite list_elem_of_singleton. naive_solver.
Qed.

Lemma adj_of_names jobs : a_nameSet (adj_of jobs) = list_to_set (Job.Name <$> jobs).
Proof.
  induction jobs as [|j jobs IH] using rev_ind; [done|].
  rewrite adj_of_snoc, fmap_app, list_to_set_app_L. cbn. rewrite IH. set_solver.
Qed.

Lemma adj_of_dependents jobs x n :
  adj_edge (dependents (a_adj (adj_of jobs))) x n <-> depends jobs n x.
Proof.
  unfold adj_edge. induction jobs as [|j jobs IH] using rev_ind.
  - cbn. unfold adj_get. rewrite lookup_empty. cbn. split; [by intros []%not_elem_of_nil|].
    by intros (? & []%not_elem_of_nil & _).
  - rewrite adj_of_snoc, depends_snoc, <- IH. cbn. apply dependents_loop.
Qed.

Lemma adj_of_dependencies jobs n x :
  NoDup (Job.Name <$> jobs) ->
  adj_edge (dependencies (a_adj (adj_of jobs))) n x <-> depends jobs n x.
Proof.
  unfold adj_edge. induction jobs as [|j jobs IH] using rev_ind; intros Hnd.
  - cbn. unfold adj_get. rewrite lookup_empty. cbn. split; [by intros []%not_elem_of_nil|].
    by intros (? & []%not_elem_of_nil & _).
  - rewrite fmap_app in Hnd. apply NoDup_app in Hnd as (Hnd & Hdisj & _).
    rewrite adj_of_snoc, depends_snoc, <- IH by done. cbn. unfold adj_get at 1.
    destruct (decide (n = Job.Name j)) as [->|Hne].
    + rewrite lookup_insert_eq. cbn. rewrite IH by done. split; [by right|].
      intros [(j' & Hj' & Hn & _)|[_ ?]]; [|done]. exfalso.
      apply (Hdisj (Job.Name j)); [|set_solver]. rewrite <- Hn. by apply list_elem_of_fmap_2.
    + rewrite lookup_insert_ne by done. fold (adj_get (dependencies (a_adj (adj_of jobs))) n).
      naive_solver.
Qed.

(** ** What is selected *)

Section selected.
Variables (jobs : list Job.t) (startAt stopAfter : filterTarget).

(** Downstream of the start and upstream of the stop. *)
Definition in_window (n : string) : Prop :=
  (t_Job startAt = "" \/ rtc (depends jobs) n (t_Job startAt)) /\
  (t_Job stopAfter = "" \/ rtc (depends jobs) (t_Job stopAfter) n).

(** The window and everything it needs. *)
Definition selected (n : string) : Prop := exists w, in_window w /\ rtc (depends jobs) w n.
End selected.

Lemma rtc_iff {A} (R S : relation A) x y : (forall a b, R a b <-> S a b) -> rtc R x y <-> rtc S x y.
Proof.
  intros H. split; induction 1 as [|a b c Hab _ IH]; [constructor| |constructor|];
    (eapply rtc_l; [by apply H|done]).
Qed.

Lemma rtc_flip {A} (R S : relation A) x y : (forall a b, R a b <-> S b a) -> rtc R x y <-> rtc S y x.
Proof.
  intros H. split; induction 1 as [|a b c Hab _ IH]; [constructor| |constructor|];
    (eapply rtc_r; [done|by apply H]).
Qed.

(** The sets [FilterJobs] computes, when it selects at all. *)
Lemma FilterJobs_sets jobs opts out :
  NoDup (Job.Name <$> jobs) -> FilterJobs jobs opts = Ok out ->
  let startAt := parseFilterTarget (FilterOpts.StartAt opts) in
  let stopAfter := parseFilterTarget (FilterOpts.StopAfter opts) in
  (t_Job startAt = "" /\ t_Job stopAfter = "" /\ out = jobs) \/
  exists window full : gset string,
    (forall n, n ∈ window <-> in_window jobs startAt stopAfter n) /\
    (forall n, n ∈ full <-> selected jobs startAt stopAfter n) /\
    applyStepTrimming (omap (selectJob full window) jobs) startAt stopAfter = Ok out.
Proof.
  intros Hnd. unfold FilterJobs. case_decide as Ho.
  { intros [= <-]. destruct Ho as [-> ->]. by left. }
  set (startAt := parseFilterTarget (FilterOpts.StartAt opts)).
  set (stopAfter := parseFilterTarget (FilterOpts.StopAfter opts)).
  cbv zeta. unfold buildJobAdj. fold (adj_of jobs). intros H. right.
  apply bind_Ok in H as (adj & Hadj & H). rewrite !seq_Ok in Hadj. destruct Hadj as (_ & _ & [= <-]).
  set (adj := a_adj (adj_of jobs)) in *.
  apply bind_Ok in H as (fwd & Hfwd & H). apply bind_Ok in H as (bwd & Hbwd & H).
  assert (match fwd with
          | Some s => t_Job startAt <> "" /\ forall n, n ∈ s <-> rtc (depends jobs) n (t_Job startAt)
          | None => t_Job startAt = "" end) as Hf.
  { destruct (bfsReachable_spec (dependents adj) (t_Job startAt)) as (v & Hv & Hin).
    rewrite Hv in Hfwd. destruct (decide (t_Job startAt <> "")); cbn in Hfwd; injection Hfwd as <-; [|by apply dec_stable].
    split; [done|]. intros x. rewrite Hin. apply rtc_flip. intros a b. apply adj_of_dependents. }
  assert (match bwd with
          | Some s => t_Job stopAfter <> "" /\ forall n, n ∈ s <-> rtc (depends jobs) (t_Job stopAfter) n
          | None => t_Job stopAfter = "" end) as Hb.
  { destruct (bfsReachable_spec (dependencies adj) (t_Job stopAfter)) as (v & Hv & Hin).
    rewrite Hv in Hbwd. destruct (decide (t_Job stopAfter <> "")); cbn in Hbwd; injection Hbwd as <-; [|by apply dec_stable].
    split; [done|]. intros x. rewrite Hin. apply rtc_iff. intros a b. by apply adj_of_dependencies. }
  set (window := default ∅ (intersectSets fwd bwd)) in *.
  case_decide as Hne; [done|].
  assert (forall n, n ∈ window <-> in_window jobs startAt stopAfter n) as Hw.
  { intros n. unfold window, in_window. destruct fwd as [f|], bwd as [b|]; cbn.
    - destruct Hf as [? Hf], Hb as [? Hb]. rewrite elem_of_filter, Hf, Hb. tauto.
    - destruct Hf as [? Hf]. rewrite Hf. tauto.
    - destruct Hb as [? Hb]. rewrite Hb. tauto.
    - by destruct Hne. }
  apply bind_Ok in H as (full & Hfull & H).
  destruct (closure_spec (dependencies adj) window) as (full' & Hc & Hin).
  unfold closure in Hc. rewrite Hc in Hfull. cbn in Hfull. injection Hfull as <-.
  exists window, full'. split_and!; [done| |done].
  intros n. rewrite Hin. unfold selected. setoid_rewrite Hw.
  split; intros (w & Hww & Hr); exists w; (split; [done|]);
    (eapply rtc_iff; [|exact Hr]); intros a b;
    first [by apply adj_of_dependencies|symmetry; by apply adj_of_dependencies].
Qed.

(** ** Trimming *)

Lemma trimJob_fields startAt stopAfter j j' :
  trimJob startAt stopAfter j = Ok j' -> exists steps, j' = j <| Job.Steps := steps |> /\
    forall i s', steps !! i = Some s' -> exists s, Job.Steps j !! i = Some s /\
      (s' = s \/ s' = s <| Step.Exports := [] |>).
Proof.
  assert (j = j <| Job.Steps := Job.Steps j |>) as Hj by by destruct j.
  assert (forall n (l : list Step.t), forall i s', take n l !! i = Some s' -> l !! i = Some s') as Htake.
  { intros n l i s' Hs. by apply lookup_take_Some in Hs as [? _]. }
  assert (forall a (l : list Step.t) i s', (stripStepExports (take a l) ++ drop a l) !! i = Some s' ->
    exists s, l !! i = Some s /\ (s' = s \/ s' = s <| Step.Exports := [] |>)) as Hstrip.
  { intros a l i s' [Hi|[Hi Hs]]%lookup_app_Some.
    - unfold stripStepExports in Hi. rewrite list_lookup_fmap in Hi.
      destruct (take a l !! i) as [s|] eqn:Ht; [|done]. injection Hi as <-. eauto.
    - rewrite lookup_drop in Hs. unfold stripStepExports in *. rewrite length_fmap, length_take in *.
      exists s'. split; [|by left]. rewrite <- Hs. f_equal.
      assert (a + (i - min a (length l)) < length l) by (rewrite <- lookup_lt_is_Some, Hs; eauto).
      lia. }
  unfold trimJob. destruct (resolveStepTrim _ _ _ _) as [[a|] [b|]]; cbn [StartIdx StopIdx].
  - destruct (bool_decide _); [done|]. intros [= <-]. eexists. split; [done|].
    intros i s' (s & Hs & ?)%Hstrip. exists s. eauto.
  - intros [= <-]. eexists. split; [done|]. apply Hstrip.
  - intros [= <-]. eexists. split; [done|]. intros i s' Hs. exists s'. eauto.
  - intros [= <-]. exists (Job.Steps j). split; [done|]. eauto.
Qed.

Lemma applyStepTrimming_fields jobs startAt stopAfter out :
  applyStepTrimming jobs startAt stopAfter = Ok out ->
  Forall2 (fun j j' => exists steps, j' = j <| Job.Steps := steps |> /\
    forall i s', steps !! i = Some s' -> exists s, Job.Steps j !! i = Some s /\
      (s' = s \/ s' = s <| Step.Exports := [] |>)) jobs out.
Proof.
  unfold applyStepTrimming. case_decide.
  - intros [= <-]. apply Forall_Forall2_diag, Forall_forall. intros j _. exists (Job.Steps j).
    split; [by destruct j|eauto].
  - intros HF%forM_Ok. eapply Forall2_impl; [exact HF|]. apply trimJob_fields.
Qed.

Lemma selectJob_Some full window j j' :
  selectJob full window j = Some j' <->
  Job.Name j ∈ full /\
  j' = if decide (Job.Name j ∈ window) then j
       else j <| Job.Exports := [] |> <| Job.Publish := None |> <| Job.Steps ::= stripStepExports |>.
Proof. unfold selectJob. rewrite Job_Clone_id. case_decide; naive_solver. Qed.

Lemma selectJob_Name full window j j' : selectJob full window j = Some j' -> Job.Name j' = Job.Name j.
Proof. intros [_ ->]%selectJob_Some. by case_decide. Qed.

Lemma omap_names full window (jobs : list Job.t) :
  Job.Name <$> omap (selectJob full window) jobs = filter (.∈ full) (Job.Name <$> jobs).
Proof.
  induction jobs as [|j jobs IH]; [done|]. rewrite fmap_cons, filter_cons. cbn [omap list_omap].
  destruct (selectJob full window j) as [j'|] eqn:Hs.
  - pose proof (selectJob_Name _ _ _ _ Hs) as Hn. apply selectJob_Some in Hs as [Hin _].
    rewrite decide_True by done. rewrite fmap_cons, Hn. f_equal. exact IH.
  - rewrite decide_False; [exact IH|]. intros Hin.
    assert (selectJob full window j = Some (if decide (Job.Name j ∈ window) then j
       else j <| Job.Exports := [] |> <| Job.Publish := None |> <| Job.Steps ::= stripStepExports |>))
      by by apply selectJob_Some. congruence.
Qed.

Lemma trimmed_names jobs startAt stopAfter out :
  applyStepTrimming jobs startAt stopAfter = Ok out -> Job.Name <$> out = Job.Name <$> jobs.
Proof.
  intros HF%applyStepTrimming_fields. induction HF as [|j j' l l' (s & -> & _) _ IH]; [done|].
  rewrite !fmap_cons, IH. done.
Qed.

Lemma FilterJobs_names jobs opts out :
  NoDup (Job.Name <$> jobs) -> FilterJobs jobs opts = Ok out ->
  Job.Name <$> out `sublist_of` Job.Name <$> jobs /\
  forall n, n ∈ Job.Name <$> out <-> n ∈ Job.Name <$> jobs /\
    selected jobs (parseFilterTarget (FilterOpts.StartAt opts))
      (parseFilterTarget (FilterOpts.StopAfter opts)) n.
Proof.
  intros Hnd Hok. destruct (FilterJobs_sets _ _ _ Hnd Hok) as
    [(Hs & Ht & ->)|(window & full & _ & Hf & Htrim)].
  - split; [done|]. intros n. split; [|by intros [? _]]. intros Hn. split; [done|].
    exists n. split; [|constructor]. split; by left.
  - rewrite (trimmed_names _ _ _ _ Htrim), omap_names. split; [apply filter_sublist|].
    intros n. rewrite list_elem_of_filter, Hf. tauto.
Qed.

(** A dependency of a selected job is selected. *)
Lemma selected_dep jobs startAt stopAfter n m :
  selected jobs startAt stopAfter n -> depends jobs n m -> selected jobs startAt stopAfter m.
Proof. intros (w & Hw & Hr) Hd. exists w. split; [done|]. by eapply rtc_r. Qed.

Lemma FilterJobs_job jobs opts out j' :
  NoDup (Job.Name <$> jobs) -> FilterJobs jobs opts = Ok out -> j' ∈ out ->
  let startAt := parseFilterTarget (FilterOpts.StartAt opts) in
  let stopAfter := parseFilterTarget (FilterOpts.StopAfter opts) in
  exists j, j ∈ jobs /\ Job.Name j' = Job.Name j /\ Job.DependsOn j' = Job.DependsOn j /\
    (in_window jobs startAt stopAfter (Job.Name j) ->
       Job.Exports j' = Job.Exports j /\ Job.Publish j' = Job.Publish j) /\
    (~ in_window jobs startAt stopAfter (Job.Name j) ->
       Job.Exports j' = [] /\ Job.Publish j' = None /\
       Forall (fun s => Step.Exports s = []) (Job.Steps j')).
Proof.
  intros Hnd Hok Hj'. cbv zeta. destruct (FilterJobs_sets _ _ _ Hnd Hok) as
    [(Hs & Ht & ->)|(window & full & Hw & Hf & Htrim)].
  - exists j'. split_and!; try done. intros Hn. destruct Hn. split; by left.
  - apply applyStepTrimming_fields in Htrim. apply list_elem_of_lookup in Hj' as [i Hi].
    destruct (Forall2_lookup_r _ _ _ _ _ Htrim Hi) as (j1 & Hj1 & steps & -> & Hsteps).
    apply list_elem_of_lookup_2, list_elem_of_omap in Hj1 as (j & Hj & [_ ->]%selectJob_Some).
    exists j. rewrite <- Hw. case_decide as Hin; cbn; split_and!; try done.
    intros _. split_and!; [done|done|]. apply Forall_forall. intros s (k & Hk)%list_elem_of_lookup.
    apply Hsteps in Hk as (s0 & Hs0 & Heq). cbn in Hs0. unfold stripStepExports in Hs0.
    rewrite list_lookup_fmap in Hs0. destruct (Job.Steps j !! k) as [s1|]; [|done].
    injection Hs0 as <-. by destruct Heq as [-> | ->].
Qed.

Lemma FilterJobs_closed jobs opts out :
  NoDup (Job.Name <$> jobs) -> FilterJobs jobs opts = Ok out -> deps_closed jobs -> deps_closed out.
Proof.
  intros Hnd Hok Hc j' dep Hj' Hdep.
  destruct (FilterJobs_job _ _ _ _ Hnd Hok Hj') as (j & Hj & Hn & Hd & _).
  rewrite Hd in Hdep. destruct (FilterJobs_names _ _ _ Hnd Hok) as [_ Hnames].
  apply Hnames. split; [by eapply Hc|].
  eapply selected_dep; [apply (Hnames (Job.Name j')); by apply list_elem_of_fmap_2|].
  exists j. done.
Qed.

(** ** Errors *)

Lemma validateTarget_error t ns jbn ej es e :
  validateTarget t ns jbn ej es = Fail e ->
  Is e (PM ErrOrphanedStep) = true \/ Is e (PM ej) = true \/ Is e (PM es) = true.
Proof.
  unfold validateTarget. case_decide; [case_decide; [|done]|case_decide; [|destruct (_ && _); [|done]]];
    intros H'; [left|right; left|right; right]; by eapply fail_with_Is.
Qed.

Definition filter_error (e : error) : Prop :=
  exists s, s ∈ [ErrOrphanedStep; ErrUnknownStartAt; ErrUnknownStartAtStep; ErrUnknownStopAfter;
                 ErrUnknownStopAfterStep; ErrEmptyFilterResult; ErrEmptyStepWindow] /\
    Is e (PM s) = true.

Lemma FilterJobs_error jobs opts e : FilterJobs jobs opts = Fail e -> filter_error e.
Proof.
  unfold FilterJobs, filter_error. case_decide; [done|].
  set (startAt := parseFilterTarget _). set (stopAfter := parseFilterTarget _).
  intros [H1|(adj & _ & H1)]%bind_Fail.
  { unfold buildJobAdj in H1. apply bind_Fail in H1 as [Ht|(_ & _ & H1)];
      [|apply bind_Fail in H1 as [Ht|(_ & _ & ?)]; [|done]];
      apply validateTarget_error in Ht as [?|[?|?]]; eexists; (split; [|done]); set_solver. }
  destruct (bfsReachable_spec (dependents adj) (t_Job startAt)) as (v1 & Hv1 & _).
  destruct (bfsReachable_spec (dependencies adj) (t_Job stopAfter)) as (v2 & Hv2 & _).
  rewrite Hv1, Hv2 in H1.
  apply bind_Fail in H1 as [H1|(fwd & _ & H1)];
    [by destruct (decide (t_Job startAt <> "")) in H1|].
  apply bind_Fail in H1 as [H1|(bwd & _ & H1)];
    [by destruct (decide (t_Job stopAfter <> "")) in H1|].
  destruct (decide (default ∅ _ = ∅)).
  { exists ErrEmptyFilterResult. split; [set_solver|]. by eapply fail_with_Is. }
  destruct (closure_spec (dependencies adj) (default ∅ (intersectSets fwd bwd))) as (full & Hc & _).
  unfold closure in Hc. rewrite Hc in H1. cbn [with_fuel mbind res_bind] in H1.
  exists ErrEmptyStepWindow. split; [set_solver|].
  unfold applyStepTrimming in H1. case_decide; [done|].
  apply forM_Fail in H1 as (j & _ & H1). unfold trimJob in H1.
  destruct (resolveStepTrim _ _ _ _) as [[a|] [b|]]; cbn [StartIdx StopIdx] in H1; try done.
  destruct (bool_decide _); [|done]. by eapply fail_with_Is.
Qed.

(** ** Targets *)

Lemma split_target_base s t :
  lacks ":" s -> lacks "[" s -> lacks "]" s ->
  split_target 0 (s +:+ t) = ('(job, step) ← split_target 0 t; Some (s +:+ job, step)).
Proof.
  intros Hc Ho Hcl. induction s as [|c s IH].
  { rewrite append_nil_l. by destruct (split_target 0 t) as [[? ?]|]. }
  rewrite lacks_cons in Hc, Ho, Hcl. rewrite append_cons. cbn [split_target].
  rewrite !decide_False by naive_solver. rewrite IH by tauto.
  destruct (split_target 0 t) as [[job step]|]; cbn; [by rewrite append_cons|done].
Qed.

(** Inside the brackets a colon does not count. *)
Lemma split_target_suffix s t :
  lacks "[" s -> lacks "]" s ->
  split_target 1 (s +:+ String "]" t) =
  ('(job, step) ← split_target 0 t; Some (s +:+ String "]" job, step)).
Proof.
  intros Ho Hcl. induction s as [|c s IH].
  { rewrite append_nil_l. cbn. by destruct (split_target 0 t) as [[? ?]|]. }
  rewrite lacks_cons in Ho, Hcl. rewrite append_cons. cbn [split_target].
  rewrite (decide_False (P := c = "["%char)), (decide_False (P := c = "]"%char)) by naive_solver.
  rewrite IH by tauto.
  assert (forall x : option (string * string),
    (if decide (c = ":"%char) then
       if decide (1 = 0) then Some ("", s +:+ String "]" t) else x else x) = x) as ->
    by (intros x; by repeat case_decide).
  destruct (split_target 0 t) as [[job step]|]; cbn; [by rewrite append_cons|done].
Qed.

Lemma star_forall (P : ascii -> Prop) r l :
  (forall k, matches r k -> Forall P k) -> matches (Star r) l -> Forall P l.
Proof.
  intros Hr Hm. remember (Star r) as R eqn:ER. revert ER.
  induction Hm as [| | | | | |r0 l1 k H1 _ H2 IH2]; intros ER; simplify_eq; [constructor|].
  apply Forall_app. split; [by apply Hr|by apply IH2].
Qed.

Definition inner_char (a : ascii) : Prop := a <> "["%char /\ a <> "]"%char.

Lemma suffix_char_inner a : suffix_char a = true -> inner_char a.
Proof. intros H. by split; intros ->. Qed.

Lemma plus_suffix_inner l : matches (Plus (Class suffix_char)) l -> Forall inner_char l.
Proof.
  intros [_ HF]%matches_plus_class. eapply Forall_impl; [exact HF|]. intros a. apply suffix_char_inner.
Qed.

Lemma suffix_item_inner l : matches suffix_item l -> Forall inner_char l.
Proof.
  intros (l1 & l2 & -> & H1 & H2)%matches_cat. apply Forall_app. split; [by apply plus_suffix_inner|].
  apply matches_opt in H2 as [H2| ->]; [|constructor].
  apply matches_cat in H2 as (l3 & l4 & -> & ->%matches_byte & H4).
  apply Forall_app. split; [|by apply plus_suffix_inner]. by repeat constructor.
Qed.

(** A valid name is plain, or plain text followed by one bracket group. *)
Lemma validName_shape s :
  MatchString validName s = true ->
  exists b rest, s = b +:+ rest /\ nonempty_of base_char b /\
    (rest = "" \/ exists body, rest = String "[" (body +:+ "]") /\ lacks "[" body /\ lacks "]" body).
Proof.
  assert (forall l : list ascii, exists x, bytes x = l) as Hb.
  { intros l. exists (String.string_of_list_ascii l). apply String.list_ascii_of_string_of_list_ascii. }
  assert (forall x y, bytes x = bytes y -> x = y) as Hinj.
  { intros x y Hxy. rewrite <- (String.string_of_list_ascii_of_string x).
    rewrite <- (String.string_of_list_ascii_of_string y). unfold bytes in Hxy. by rewrite Hxy. }
  intros (l1 & l2 & Heq & H1 & H2)%MatchString_spec%matches_cat.
  destruct (Hb l1) as [b <-], (Hb l2) as [rest <-].
  exists b, rest. split_and!.
  - apply Hinj. by rewrite bytes_app.
  - by apply plus_class_spec.
  - apply matches_opt in H2 as [H2|H2]; [right|left; by apply bytes_nil].
    apply matches_cat in H2 as (l3 & l4 & Hr & ->%matches_byte & H4).
    apply matches_cat in H4 as (l5 & l6 & -> & H5 & H6).
    apply matches_cat in H6 as (l7 & l8 & -> & H7 & ->%matches_byte).
    destruct (Hb (l5 ++ l7)) as [body Hbody]. exists body.
    assert (Forall inner_char (l5 ++ l7)) as HF.
    { apply Forall_app. split; [by apply suffix_item_inner|].
      eapply star_forall; [|exact H7]. intros k (k1 & k2 & -> & ->%matches_byte & Hk2)%matches_cat.
      apply Forall_app. split; [by repeat constructor|by apply suffix_item_inner]. }
    split_and!.
    + apply Hinj. rewrite Hr. change (String "[" ?x) with ("[" +:+ x).
      rewrite !bytes_app, Hbody. by rewrite <- app_assoc.
    + unfold lacks. rewrite Hbody. intros Hin. rewrite Forall_forall in HF. by destruct (HF _ Hin).
    + unfold lacks. rewrite Hbody. intros Hin. rewrite Forall_forall in HF. by destruct (HF _ Hin).
Qed.

Lemma split_target_valid job t :
  MatchString validName job = true ->
  split_target 0 (job +:+ t) = ('(j, step) ← split_target 0 t; Some (job +:+ j, step)).
Proof.
  intros (b & rest & -> & Hb & Hrest)%validName_shape.
  assert (lacks ":" b /\ lacks "[" b /\ lacks "]" b) as (H1 & H2 & H3)
    by (split_and!; by apply (nonempty_of_lacks base_char)).
  rewrite append_assoc, split_target_base by done.
  destruct Hrest as [->|(body & -> & Ho & Hc)].
  - rewrite append_nil_l. destruct (split_target 0 t) as [[j st]|]; cbn; [|done].
    by rewrite append_nil_r.
  - assert (String "[" (body +:+ "]") +:+ t = String "[" (body +:+ String "]" t)) as ->.
    { by rewrite append_cons, append_assoc. }
    cbn [split_target]. rewrite decide_True by done. rewrite split_target_suffix by done.
    destruct (split_target 0 t) as [[j st]|]; cbn; [|done].
    do 2 f_equal. by rewrite !append_assoc, append_cons, append_assoc.
Qed.

(** ** Properties *)

(** C15: [FilterJobs] keeps, in the original order, exactly the jobs of the execution window
    (downstream of start-at and upstream of stop-after) and their transitive dependencies. *)
Theorem FilterJobs_selects jobs opts out
  (Hnd : NoDup (Job.Name <$> jobs)) (Hok : FilterJobs jobs opts = Ok out) :
  Job.Name <$> out `sublist_of` Job.Name <$> jobs /\
  forall n, n ∈ Job.Name <$> out <-> n ∈ Job.Name <$> jobs /\
    selected jobs (parseFilterTarget (FilterOpts.StartAt opts))
      (parseFilterTarget (FilterOpts.StopAfter opts)) n.
Proof. by apply FilterJobs_names. Qed.

(** A pipeline whose dependencies all name jobs keeps that property when filtered;
    jobs of the window keep their exports and publication, jobs kept only as dependencies
    lose those and the exports of all their steps. *)
Theorem FilterJobs_safe jobs opts out
  (Hnd : NoDup (Job.Name <$> jobs)) (Hok : FilterJobs jobs opts = Ok out) :
  (deps_closed jobs -> deps_closed out) /\
  forall j', j' ∈ out -> exists j, j ∈ jobs /\ Job.Name j' = Job.Name j /\
    Job.DependsOn j' = Job.DependsOn j /\
    (in_window jobs (parseFilterTarget (FilterOpts.StartAt opts))
       (parseFilterTarget (FilterOpts.StopAfter opts)) (Job.Name j) ->
       Job.Exports j' = Job.Exports j /\ Job.Publish j' = Job.Publish j) /\
    (~ in_window jobs (parseFilterTarget (FilterOpts.StartAt opts))
       (parseFilterTarget (FilterOpts.StopAfter opts)) (Job.Name j) ->
       Job.Exports j' = [] /\ Job.Publish j' = None /\
       Forall (fun s => Step.Exports s = []) (Job.Steps j')).
Proof.
  split; [by eapply FilterJobs_closed|]. intros j' Hj'. by apply (FilterJobs_job jobs opts out j').
Qed.

(** The graph searches of [FilterJobs] always terminate: it fails only with one of the
    seven documented filter errors. *)
Theorem FilterJobs_errors jobs opts e (Herr : FilterJobs jobs opts = Fail e) : filter_error e.
Proof. by eapply FilterJobs_error. Qed.

(** A filter target built from a valid job name - also one with a bracket suffix that
    holds colons - and a step name parses back to both. *)
Theorem parseFilterTarget_roundtrip job step (Hjob : MatchString validName job = true) :
  parseFilterTarget job = FilterTarget job "" /\
  parseFilterTarget (job +:+ ":" +:+ step) = FilterTarget job step.
Proof.
  unfold parseFilterTarget. split.
  - pose proof (split_target_valid job "" Hjob) as H. rewrite append_nil_r in H. by rewrite H.
  - rewrite split_target_valid by done.
    change (split_target 0 (":" +:+ step)) with (Some ("", step)). cbn.
    by rewrite append_nil_r.
Qed.

Lemma parseFilterTarget_roundtrip_witness :
  parseFilterTarget "b[p=a:1]:s" = FilterTarget "b[p=a:1]" "s".
Proof. apply (parseFilterTarget_roundtrip "b[p=a:1]" "s"). vm_compute. reflexivity. Defined.

Definition ex_filter_jobs : list Job.t :=
  [Job.empty "a" <| Job.Exports := [Export_.mk "/x" "x"] |>;
   Job.empty "b" <| Job.DependsOn := ["a"] |>;
   Job.empty "c"; Job.empty "d" <| Job.DependsOn := ["b"; "c"] |>].

Lemma FilterJobs_selects_witness :
  exists out, FilterJobs ex_filter_jobs (FilterOpts.mk "b" "b") = Ok out /\
    Job.Name <$> out = ["a"; "b"] /\
    Job.Name <$> out `sublist_of` Job.Name <$> ex_filter_jobs.
Proof.
  eexists. split; [vm_compute; reflexivity|]. split; [reflexivity|].
  eapply (FilterJobs_selects ex_filter_jobs (FilterOpts.mk "b" "b"));
    [apply (bool_decide_unpack _); vm_compute; exact I|vm_compute; reflexivity].
Defined.

Lemma FilterJobs_safe_witness :
  exists out, FilterJobs ex_filter_jobs (FilterOpts.mk "b" "b") = Ok out /\
    Job.Exports <$> out = [[]; []] /\
    (deps_closed ex_filter_jobs -> deps_closed out).
Proof.
  eexists. split; [vm_compute; reflexivity|]. split; [reflexivity|].
  eapply (FilterJobs_safe ex_filter_jobs (FilterOpts.mk "b" "b"));
    [apply (bool_decide_unpack _); vm_compute; exact I|vm_compute; reflexivity].
Defined.

Lemma FilterJobs_errors_witness :
  exists e, FilterJobs ex_filter_jobs (FilterOpts.mk "x" "") = Fail e /\ filter_error e.
Proof.
  eexists. split; [vm_compute; reflexivity|].
  eapply (FilterJobs_errors ex_filter_jobs (FilterOpts.mk "x" "")). vm_compute. reflexivity.
Defined.
