(* ===== verification/WhenEval.v ===== *)
(** * when.go of package pipeline: static conditions

    [EvaluateConditions] removes the jobs and steps whose static condition is false and
    every reference to a removed job.  Log messages are not modelled. *)

From S2P Require Import Prelude Errors Conditional Model Defaults.

Section when_eval.
Context `{cel : CEL}.

(** ** Definitions *)

Definition DeleteFunc {A} (s : list A) (del : A -> bool) : list A :=
  filter (fun a => del a = false) s.

Definition cleanJobRefs (job : Job.t) (skipped : gset string) : Job.t :=
  job <| Job.DependsOn := DeleteFunc (Job.DependsOn job) (fun dep => bool_decide (dep ∈ skipped)) |>
      <| Job.Artifacts := DeleteFunc (Job.Artifacts job)
           (fun a => bool_decide (Artifact.From a ∈ skipped)) |>
      <| Job.Steps := (fun s => s <| Step.Artifacts := DeleteFunc (Step.Artifacts s)
           (fun a => bool_decide (Artifact.From a ∈ skipped)) |>) <$> Job.Steps job |>.

(** [if w != nil && !w.Deferred { ok, err := w.Evaluate(ctx) ... }]: [true] when there is
    nothing to evaluate. *)
Definition condition (w : option When.t) (ctx : Context.t) : result bool :=
  match w with
  | None => Ok true
  | Some w => if When.Deferred w then Ok true else Evaluate w ctx
  end.

Definition job_ctx (p : Pipeline.t) (wctx : Context.t) (job : Job.t) : Context.t :=
  wctx <| Context.PipelineEnv := BuildEnvScope (Pipeline.Env p) (Job.Env job) |>
       <| Context.Matrix := default ∅ (Job.MatrixValues job) |>.

Definition step_ctx (p : Pipeline.t) (wctx : Context.t) (job : Job.t) (step : Step.t) : Context.t :=
  wctx <| Context.PipelineEnv :=
            BuildEnvScope (Pipeline.Env p) (mergeEnv (Job.Env job) (Step.Env step)) |>
       <| Context.Matrix := default ∅ (Job.MatrixValues job) |>.

(** Phase 1: the kept jobs, the set of skipped names and their list. *)
Definition eval_job (p : Pipeline.t) (wctx : Context.t)
    (acc : list Job.t * (gset string * list string)) (job : Job.t)
    : result (list Job.t * (gset string * list string)) :=
  let '(kept, (skipped, skippedNames)) := acc in
  ok ← map_err (errorf2 [Job.Name job] (PM ErrJobCondition))
         (condition (Job.When job) (job_ctx p wctx job));
  if (ok : bool) then Ok (kept ++ [job], (skipped, skippedNames))
  else Ok (kept, ({[Job.Name job]} ∪ skipped, skippedNames ++ [Job.Name job])).

(** Phase 2, one step: the kept steps and the names of the skipped ones. *)
Definition eval_step (p : Pipeline.t) (wctx : Context.t) (job : Job.t)
    (acc : list Step.t * gmap string (list string)) (step : Step.t)
    : result (list Step.t * gmap string (list string)) :=
  let '(keptSteps, skippedSteps) := acc in
  ok ← map_err (errorf2 [Job.Name job; Step.Name step] (PM ErrStepCondition))
         (condition (Step.When step) (step_ctx p wctx job step));
  if (ok : bool) then Ok (keptSteps ++ [step], skippedSteps)
  else Ok (keptSteps,
    <[Job.Name job := default [] (skippedSteps !! Job.Name job) ++ [Step.Name step]]> skippedSteps).

Definition eval_steps (p : Pipeline.t) (wctx : Context.t)
    (acc : list Job.t * (gmap string (list string) * list string)) (job : Job.t)
    : result (list Job.t * (gmap string (list string) * list string)) :=
  let '(jobs, (skippedSteps, emptyJobs)) := acc in
  '(keptSteps, skippedSteps) ← foldM (eval_step p wctx job) ([], skippedSteps) (Job.Steps job);
  let job := job <| Job.Steps := keptSteps |> in
  Ok (jobs ++ [job],
      (skippedSteps, if decide (keptSteps = []) then emptyJobs ++ [Job.Name job] else emptyJobs)).

(** Phase 3. *)
Definition drop_empty (jobs : list Job.t) (emptyJobs : list string) : list Job.t :=
  match emptyJobs with
  | [] => jobs
  | _ =>
      let emptySet : gset string := list_to_set emptyJobs in
      let finalJobs := filter (fun j => Job.Name j ∉ emptySet) jobs in
      (fun j => cleanJobRefs j emptySet) <$> finalJobs
  end.

Definition EvaluateConditions (p : Pipeline.t) (wctx : Context.t) : result ConditionResult.t :=
  let result := Pipeline_Clone p in
  '(kept, (skipped, skippedNames)) ← foldM (eval_job p wctx) ([], (∅, [])) (Pipeline.Jobs result);
  let jobs := (fun j => cleanJobRefs j skipped) <$> kept in
  '(jobs, (skippedSteps, emptyJobs)) ← foldM (eval_steps p wctx) ([], (∅, [])) jobs;
  let jobs := drop_empty jobs emptyJobs in
  Ok (ConditionResult.mk
        (result <| Pipeline.Jobs := jobs |> <| Pipeline.TopoOrder := None |>)
        (skippedNames ++ emptyJobs) skippedSteps).

(** ** Lemmas *)

Section spec.
Variables (p : Pipeline.t) (wctx : Context.t).

(** The static condition of a job or a step holds (or is left to run time). *)
Definition job_holds (j : Job.t) : Prop :=
  condition (Job.When j) (job_ctx p wctx j) = Ok true.
Definition step_holds (j : Job.t) (s : Step.t) : Prop :=
  condition (Step.When s) (step_ctx p wctx j s) = Ok true.
#[global] Instance job_holds_dec j : Decision (job_holds j).
Proof. unfold job_holds. apply _. Defined.
#[global] Instance step_holds_dec j s : Decision (step_holds j s).
Proof. unfold step_holds. apply _. Defined.

Definition kept_steps (j : Job.t) : list Step.t := filter (step_holds j) (Job.Steps j).

Definition false_names (jobs : list Job.t) : list string :=
  Job.Name <$> filter (fun j => ~ job_holds j) jobs.

Lemma phase1_spec jobs kept skipped names :
  foldM (eval_job p wctx) ([], (∅, [])) jobs = Ok (kept, (skipped, names)) ->
  kept = filter job_holds jobs /\ names = false_names jobs /\ skipped = list_to_set names.
Proof.
  unfold false_names.
  apply (foldM_inv (fun jobs acc => acc.1 = filter job_holds jobs /\
    acc.2.2 = Job.Name <$> filter (fun j => ~ job_holds j) jobs /\ acc.2.1 = list_to_set acc.2.2)
    _ _ jobs); [done|].
  intros l [k [s n]] j acc _ (Hk & Hn & Hs) Hstep. cbn in Hk, Hn, Hs. subst k n s.
  unfold eval_job in Hstep. apply bind_Ok in Hstep as (ok & Hc%map_err_Ok & Hr).
  rewrite !filter_snoc. destruct (decide (job_holds j)) as [Hj|Hj],
    (decide (~ job_holds j)) as [Hn|Hn]; try tauto; unfold job_holds in *.
  - assert (ok = true) as -> by congruence. by injection Hr as <-.
  - destruct ok; [done|]. injection Hr as <-. cbn [fst snd]. rewrite fmap_app, list_to_set_app_L.
    split_and!; [done|done|]. cbn. set_solver.
Qed.

Lemma steps_spec j skipped l kept skipped' acc0 :
  foldM (eval_step p wctx j) (acc0, skipped) l = Ok (kept, skipped') ->
  kept = acc0 ++ filter (step_holds j) l.
Proof.
  apply (foldM_inv (fun l acc => acc.1 = acc0 ++ filter (step_holds j) l)); [by rewrite app_nil_r|].
  intros l' [k s] x acc _ Hk Hstep. cbn in Hk. subst k. unfold eval_step in Hstep.
  apply bind_Ok in Hstep as (ok & Hc%map_err_Ok & Hr). rewrite filter_snoc.
  destruct ok; injection Hr as <-; cbn [fst].
  - rewrite decide_True by done. by rewrite app_assoc.
  - by rewrite decide_False by (unfold step_holds; congruence).
Qed.

Definition stepped (j : Job.t) : Job.t := j <| Job.Steps := kept_steps j |>.

Lemma phase2_spec jobs out skippedSteps empty :
  foldM (eval_steps p wctx) ([], (∅, [])) jobs = Ok (out, (skippedSteps, empty)) ->
  out = stepped <$> jobs /\ empty = Job.Name <$> filter (fun j => kept_steps j = []) jobs.
Proof.
  apply (foldM_inv (fun jobs acc => acc.1 = stepped <$> jobs /\
    acc.2.2 = Job.Name <$> filter (fun j => kept_steps j = []) jobs)); [done|].
  intros l [o [s e]] j acc _ (Ho & He) Hstep. cbn in Ho, He. subst o e.
  unfold eval_steps in Hstep. apply bind_Ok in Hstep as ([k s'] & Hk%steps_spec & Hr).
  cbn [app] in Hk. fold (kept_steps j) in Hk. subst k. injection Hr as <-.
  rewrite filter_snoc, fmap_app. cbn [fst snd fmap list_fmap]. split; [done|].
  case_decide; [by rewrite fmap_app|done].
Qed.

Lemma clean_names (jobs : list Job.t) s : Job.Name <$> ((fun j => cleanJobRefs j s) <$> jobs) = Job.Name <$> jobs.
Proof. rewrite <- list_fmap_compose. by apply list_fmap_ext. Qed.

Lemma DeleteFunc_set {A} (f : A -> string) (s : gset string) l :
  DeleteFunc l (fun a => bool_decide (f a ∈ s)) = filter (fun a => f a ∉ s) l.
Proof. unfold DeleteFunc. apply list_filter_iff. intros a. apply bool_decide_eq_false. Qed.

(** References to removed names, removed. *)
Definition cleaned (s : gset string) (j : Job.t) : Job.t :=
  j <| Job.DependsOn ::= filter (.∉ s) |>
    <| Job.Artifacts ::= filter (fun a => Artifact.From a ∉ s) |>
    <| Job.Steps ::= fmap (fun st => st <| Step.Artifacts ::= filter (fun a => Artifact.From a ∉ s) |>) |>.

Lemma cleanJobRefs_cleaned j s : cleanJobRefs j s = cleaned s j.
Proof.
  unfold cleanJobRefs, cleaned. rewrite (DeleteFunc_set (fun d => d)), (DeleteFunc_set Artifact.From).
  destruct j. cbn. f_equal. apply list_fmap_ext. intros ? st _. by rewrite (DeleteFunc_set Artifact.From).
Qed.

(** Cleaning and dropping with the empty set of names is no change. *)
Lemma cleaned_empty j : cleaned ∅ j = j.
Proof.
  unfold cleaned. destruct j. cbn. f_equal.
  - apply filter_all, Forall_forall. set_solver.
  - apply filter_all, Forall_forall. set_solver.
  - rewrite <- (list_fmap_id Steps) at 2. apply list_fmap_ext. intros ? [] _. cbn. f_equal.
    apply filter_all, Forall_forall. set_solver.
Qed.

Lemma drop_empty_eq jobs empty :
  drop_empty jobs empty =
  cleaned (list_to_set empty) <$> filter (fun j => Job.Name j ∉ (list_to_set empty : gset string)) jobs.
Proof.
  unfold drop_empty. destruct empty as [|x l].
  - rewrite filter_all by (apply Forall_forall; set_solver).
    rewrite <- (list_fmap_id jobs) at 1. apply list_fmap_ext. intros. symmetry. apply cleaned_empty.
  - apply list_fmap_ext. intros. apply cleanJobRefs_cleaned.
Qed.
End spec.

(** ** Closed form *)

Section closed_form.
Variables (p : Pipeline.t) (wctx : Context.t).

Lemma kept_steps_cleaned (s : gset string) j :
  kept_steps p wctx (cleaned s j) =
  (fun st => st <| Step.Artifacts ::= filter (fun a => Artifact.From a ∉ s) |>) <$> kept_steps p wctx j.
Proof.
  unfold kept_steps. cbn [cleaned Job.Steps update].
  induction (Job.Steps j) as [|st l IH]; [done|]. rewrite fmap_cons, !filter_cons, IH.
  assert (step_holds p wctx (cleaned s j)
    (st <| Step.Artifacts ::= filter (fun a => Artifact.From a ∉ s) |>) <-> step_holds p wctx j st) as Hiff
    by done.
  destruct (decide (step_holds p wctx (cleaned s j) _)), (decide (step_holds p wctx j st)).
  all: (tauto || done).
Qed.

Lemma job_holds_cleaned s j : job_holds p wctx (cleaned s j) <-> job_holds p wctx j.
Proof. done. Qed.

(** What is left of a job that survives. *)
Definition trimmed (skipped : gset string) (j : Job.t) : Job.t := cleaned skipped (stepped p wctx j).

Lemma filter_cleaned {A} (f : A -> string) (s s' : gset string) (l : list A) :
  filter (fun a => f a ∉ s') (filter (fun a => f a ∉ s) l) = filter (fun a => f a ∉ s ∪ s') l.
Proof. rewrite list_filter_filter. apply list_filter_iff. set_solver. Qed.

Lemma cleaned_stepped_cleaned s s' j :
  cleaned s' (stepped p wctx (cleaned s j)) = trimmed (s ∪ s') j.
Proof.
  unfold trimmed, stepped. rewrite kept_steps_cleaned.
  generalize (kept_steps p wctx j) as steps. intros steps.
  assert (forall l : list string, filter (.∉ s') (filter (.∉ s) l) = filter (.∉ s ∪ s') l) as Hdeps.
  { intros l. apply (filter_cleaned (fun d => d)). }
  assert ((fun st => st <| Step.Artifacts ::= filter (fun a => Artifact.From a ∉ s') |>) <$>
      ((fun st => st <| Step.Artifacts ::= filter (fun a => Artifact.From a ∉ s) |>) <$> steps) =
    (fun st => st <| Step.Artifacts ::= filter (fun a => Artifact.From a ∉ s ∪ s') |>) <$> steps) as Hsteps.
  { rewrite <- list_fmap_compose. apply list_fmap_ext. intros ? st _. destruct st. cbn.
    by rewrite (filter_cleaned Artifact.From). }
  destruct j. unfold cleaned. cbn in *. by rewrite Hdeps, (filter_cleaned Artifact.From), Hsteps.
Qed.

(** The job's own condition holds and one of its steps is left. *)
Definition survives (j : Job.t) : Prop := job_holds p wctx j /\ kept_steps p wctx j <> [].
#[global] Instance survives_dec j : Decision (survives j).
Proof. unfold survives. apply _. Defined.

Definition empty_names : list string :=
  Job.Name <$> filter (fun j => job_holds p wctx j /\ kept_steps p wctx j = []) (Pipeline.Jobs p).

Lemma EvaluateConditions_Ok r :
  NoDup (Job.Name <$> Pipeline.Jobs p) -> EvaluateConditions p wctx = Ok r ->
  ConditionResult.Skipped r = false_names p wctx (Pipeline.Jobs p) ++ empty_names /\
  ConditionResult.Pipeline r =
    p <| Pipeline.Jobs := trimmed (list_to_set (ConditionResult.Skipped r)) <$>
           filter survives (Pipeline.Jobs p) |>
      <| Pipeline.TopoOrder := None |>.
Proof.
  intros Hnd. unfold EvaluateConditions. rewrite Pipeline_Clone_id.
  intros ([kept [skipped names]] & (-> & -> & ->)%phase1_spec & H)%bind_Ok.
  apply bind_Ok in H as ([jobs [ss empty]] & (-> & ->)%phase2_spec & Hr).
  set (S1 := list_to_set (false_names p wctx (Pipeline.Jobs p)) : gset string) in *.
  assert (forall l : list Job.t,
    (fun j => cleanJobRefs j S1) <$> l = cleaned S1 <$> l) as Hclean
    by (intros l; apply list_fmap_ext; intros; apply cleanJobRefs_cleaned).
  rewrite Hclean in Hr. clear Hclean.
  assert (Job.Name <$> filter (fun j => kept_steps p wctx j = [])
      (cleaned S1 <$> filter (job_holds p wctx) (Pipeline.Jobs p)) = empty_names) as He.
  { clear Hr Hnd. unfold empty_names. clearbody S1.
    induction (Pipeline.Jobs p) as [|j l IH]; [done|].
    rewrite !filter_cons.
    assert (kept_steps p wctx (cleaned S1 j) = [] <-> kept_steps p wctx j = []) as Hk.
    { rewrite kept_steps_cleaned. split; [apply fmap_nil_inv|by intros ->]. }
    destruct (decide (job_holds p wctx j)) as [Hj|Hj].
    - rewrite fmap_cons, filter_cons.
      destruct (decide (kept_steps p wctx (cleaned S1 j) = [])), (decide (_ /\ _)); try tauto.
      rewrite !fmap_cons. f_equal. exact IH.
    - destruct (decide (_ /\ _)); tauto. }
  rewrite He, drop_empty_eq in Hr. clear He.
  set (E1 := list_to_set empty_names : gset string) in *. injection Hr as <-. cbn [ConditionResult.Skipped ConditionResult.Pipeline].
  split; [done|]. rewrite list_to_set_app_L. fold S1 E1.
  assert (forall j, j ∈ Pipeline.Jobs p ->
    Job.Name j ∈ E1 <-> job_holds p wctx j /\ kept_steps p wctx j = []) as HE1.
  { intros j Hj. unfold E1, empty_names. rewrite elem_of_list_to_set, list_elem_of_fmap.
    setoid_rewrite list_elem_of_filter. split.
    - intros (j' & Hn & Hh & Hj'). by rewrite (NoDup_fmap_inj_elem Job.Name _ _ _ Hnd Hj Hj' Hn).
    - intros ?. by exists j. }
  assert (cleaned E1 <$> filter (fun j => Job.Name j ∉ E1)
      (stepped p wctx <$> (cleaned S1 <$> filter (job_holds p wctx) (Pipeline.Jobs p))) =
    trimmed (S1 ∪ E1) <$> filter survives (Pipeline.Jobs p)) as <-; [|done].
  clearbody S1 E1. clear Hnd.
  induction (Pipeline.Jobs p) as [|j l IH]; [done|].
  specialize (IH ltac:(intros; apply HE1; set_solver)). specialize (HE1 j ltac:(set_solver)).
  rewrite !filter_cons. unfold survives at 1.
  destruct (decide (job_holds p wctx j)) as [Hj|Hj].
  - rewrite !fmap_cons, filter_cons.
    change (Job.Name (stepped p wctx (cleaned S1 j))) with (Job.Name j).
    destruct (decide (Job.Name j ∉ E1)), (decide (_ /\ _)); try tauto.
    rewrite !fmap_cons, cleaned_stepped_cleaned. f_equal. exact IH.
  - destruct (decide (_ /\ _)); tauto.
Qed.
End closed_form.

(** ** Consequences *)

Section consequences.
Variables (p : Pipeline.t) (wctx : Context.t) (r : ConditionResult.t).
Hypothesis Hnd : NoDup (Job.Name <$> Pipeline.Jobs p).
Hypothesis Hok : EvaluateConditions p wctx = Ok r.

Abbreviation skipped := (ConditionResult.Skipped r).
Abbreviation remaining := (Pipeline.Jobs (ConditionResult.Pipeline r)).

Lemma remaining_eq :
  remaining = trimmed p wctx (list_to_set skipped) <$> filter (survives p wctx) (Pipeline.Jobs p).
Proof. by destruct (EvaluateConditions_Ok p wctx r Hnd Hok) as [_ ->]. Qed.

Lemma elem_of_skipped n :
  n ∈ skipped <-> exists j, j ∈ Pipeline.Jobs p /\ Job.Name j = n /\ ~ survives p wctx j.
Proof.
  destruct (EvaluateConditions_Ok p wctx r Hnd Hok) as [-> _].
  rewrite elem_of_app. unfold false_names, empty_names, survives. rewrite !list_elem_of_fmap.
  setoid_rewrite list_elem_of_filter. split.
  - intros [(j & -> & Hj & ?)|(j & -> & Hj & ?)]; exists j; split_and!; tauto.
  - intros (j & Hj & <- & Hn). destruct (decide (job_holds p wctx j)); [right|left]; exists j.
    + destruct (decide (kept_steps p wctx j = [])); tauto.
    + tauto.
Qed.

Lemma trimmed_refs j n :
  n ∈ skipped -> let j' := trimmed p wctx (list_to_set skipped) j in
  n ∉ Job.DependsOn j' /\ n ∉ Artifact.From <$> Job.Artifacts j' /\
  Forall (fun s => n ∉ Artifact.From <$> Step.Artifacts s) (Job.Steps j').
Proof.
  intros Hn. cbn.
  assert (forall l : list Artifact.t, n ∉ Artifact.From <$> filter (fun a => Artifact.From a ∉ (list_to_set skipped : gset string)) l)
    as Hart.
  { intros l (a & -> & [Ha _]%list_elem_of_filter)%list_elem_of_fmap. apply Ha.
    by apply elem_of_list_to_set. }
  split_and!.
  - intros [Hd _]%list_elem_of_filter. apply Hd. by apply elem_of_list_to_set.
  - apply Hart.
  - apply Forall_fmap, Forall_forall. intros s _. apply Hart.
Qed.

Lemma remaining_closed : deps_closed (Pipeline.Jobs p) -> deps_closed remaining.
Proof.
  intros Hc j' dep Hj' Hdep. rewrite remaining_eq in Hj' |- *.
  apply list_elem_of_fmap in Hj' as (j & -> & [Hs Hj]%list_elem_of_filter).
  cbn in Hdep. apply list_elem_of_filter in Hdep as [Hns Hdep].
  specialize (Hc j dep Hj Hdep). apply list_elem_of_fmap in Hc as (jd & -> & Hjd).
  apply list_elem_of_fmap. exists (trimmed p wctx (list_to_set skipped) jd). split; [done|].
  apply list_elem_of_fmap_2, list_elem_of_filter. split; [|done].
  apply dec_stable. intros Hns'. apply Hns, elem_of_list_to_set, elem_of_skipped. eauto.
Qed.
End consequences.

Lemma eval_job_Fail p wctx acc j e :
  eval_job p wctx acc j = Fail e ->
  Is e (PM ErrJobCondition) = true /\
  exists e', condition (Job.When j) (job_ctx p wctx j) = Fail e'.
Proof.
  destruct acc as [? [? ?]]. unfold eval_job. intros [(e' & He & ->)%map_err_Fail|([] & _ & ?)]%bind_Fail; try done.
  split; [|eauto]. rewrite Is_errorf2. by rewrite bool_decide_true.
Qed.

Lemma eval_steps_Fail p wctx acc j e :
  eval_steps p wctx acc j = Fail e ->
  Is e (PM ErrStepCondition) = true /\
  exists s e', s ∈ Job.Steps j /\ condition (Step.When s) (step_ctx p wctx j s) = Fail e'.
Proof.
  destruct acc as [? [? ?]]. unfold eval_steps. intros [H|([? ?] & _ & ?)]%bind_Fail; [|done].
  apply foldM_Fail in H as (l1 & s & l2 & [k m] & Heq & _ & H). unfold eval_step in H.
  apply bind_Fail in H as [(e' & He & ->)%map_err_Fail|([] & _ & ?)]; try done.
  split; [rewrite Is_errorf2; by rewrite bool_decide_true|]. exists s, e'. split; [|done].
  rewrite Heq. set_solver.
Qed.

(** ** Properties *)

(** C16: [EvaluateConditions] keeps, in order, the jobs whose static condition holds and that
    still have a step whose condition holds, reports exactly the other jobs as skipped,
    leaves no dependency on and no artifact from a skipped job, and keeps dependencies
    closed; the stale topological order is dropped. *)
Theorem EvaluateConditions_result p wctx r
  (Hnd : NoDup (Job.Name <$> Pipeline.Jobs p)) (Hok : EvaluateConditions p wctx = Ok r) :
  let q := ConditionResult.Pipeline r in
  let skipped := ConditionResult.Skipped r in
  Pipeline.TopoOrder q = None /\
  Pipeline.Jobs q = trimmed p wctx (list_to_set skipped) <$> filter (survives p wctx) (Pipeline.Jobs p) /\
  (forall n, n ∈ skipped <-> exists j, j ∈ Pipeline.Jobs p /\ Job.Name j = n /\ ~ survives p wctx j) /\
  (forall j n, j ∈ Pipeline.Jobs q -> n ∈ skipped ->
     n ∉ Job.DependsOn j /\ n ∉ Artifact.From <$> Job.Artifacts j /\
     Forall (fun s => n ∉ Artifact.From <$> Step.Artifacts s) (Job.Steps j)) /\
  (deps_closed (Pipeline.Jobs p) -> deps_closed (Pipeline.Jobs q)).
Proof.
  cbv zeta. split_and!.
  - by destruct (EvaluateConditions_Ok p wctx r Hnd Hok) as [_ ->].
  - by apply remaining_eq.
  - by apply elem_of_skipped.
  - intros j n Hj Hn. rewrite (remaining_eq p wctx r Hnd Hok) in Hj.
    apply list_elem_of_fmap in Hj as (j0 & -> & _). by apply trimmed_refs.
  - exact (remaining_closed p wctx r Hnd Hok).
Qed.

(** C28: [EvaluateConditions] fails only when evaluating a static condition fails, and the
    error says whether it was a job's or a step's. *)
Theorem EvaluateConditions_errors p wctx e
  (Herr : EvaluateConditions p wctx = Fail e) :
  (Is e (PM ErrJobCondition) = true /\ exists j e', j ∈ Pipeline.Jobs p /\
     condition (Job.When j) (job_ctx p wctx j) = Fail e') \/
  (Is e (PM ErrStepCondition) = true /\ exists j s e', j ∈ Pipeline.Jobs p /\
     Step.Name s ∈ Step.Name <$> Job.Steps j /\
     condition (Step.When s) (step_ctx p wctx j s) = Fail e').
Proof.
  unfold EvaluateConditions in Herr. rewrite Pipeline_Clone_id in Herr.
  apply bind_Fail in Herr as [H|([kept [sk names]] & (-> & -> & ->)%phase1_spec & H)].
  - left. apply foldM_Fail in H as (l1 & j & l2 & acc & Heq & _ & [? (e' & ?)]%eval_job_Fail).
    split; [done|]. exists j, e'. split; [|done]. rewrite Heq. set_solver.
  - right. apply bind_Fail in H as [H|([? [? ?]] & _ & ?)]; [|done].
    apply foldM_Fail in H as (l1 & j & l2 & acc & Heq & _ & [? (s & e' & Hs & He)]%eval_steps_Fail).
    split; [done|].
    assert (j ∈ l1 ++ j :: l2) as Hj by set_solver. rewrite <- Heq in Hj.
    apply list_elem_of_fmap in Hj as (j0 & -> & [_ Hj0]%list_elem_of_filter).
    rewrite cleanJobRefs_cleaned in Hs, He. cbn in Hs.
    apply list_elem_of_fmap in Hs as (s0 & -> & Hs0).
    exists j0, s0, e'. split_and!; [done|by apply list_elem_of_fmap_2|exact He].
Qed.
End when_eval.

Definition ex_ctx : Context.t := Context.mk None "main" "" ∅ ∅.
Definition ex_when (text : string) : option When.t := Some (When.mk text false (Some text)).
Definition ex_cond : Pipeline.t :=
  Pipeline.mk "p"
    [Job.empty "a" <| Job.Steps := [Step.empty "s" <| Step.When := ex_when "false" |>] |>;
     Job.empty "b" <| Job.DependsOn := ["a"] |> <| Job.Steps := [Step.empty "s"] |>;
     Job.empty "c" <| Job.When := ex_when "false" |> <| Job.Steps := [Step.empty "s"] |>]
    [] [] None None (Some [0; 1; 2]).

Lemma EvaluateConditions_result_witness :
  exists r, EvaluateConditions (cel := ex_cel) ex_cond ex_ctx = Ok r /\
    ConditionResult.Skipped r = ["c"; "a"] /\
    Job.Name <$> Pipeline.Jobs (ConditionResult.Pipeline r) = ["b"] /\
    (deps_closed (Pipeline.Jobs ex_cond) -> deps_closed (Pipeline.Jobs (ConditionResult.Pipeline r))).
Proof.
  eexists. split; [vm_compute; reflexivity|]. split; [reflexivity|]. split; [reflexivity|].
  eapply (EvaluateConditions_result (cel := ex_cel) ex_cond ex_ctx);
    [apply (bool_decide_unpack _); vm_compute; exact I|vm_compute; reflexivity].
Defined.

Definition ex_bad : Pipeline.t :=
  Pipeline.mk "p" [Job.empty "a" <| Job.When := ex_when "?" |>] [] [] None None None.

Lemma EvaluateConditions_errors_witness :
  exists e, EvaluateConditions (cel := ex_cel) ex_bad ex_ctx = Fail e /\
  ((Is e (PM ErrJobCondition) = true /\ exists j e', j ∈ Pipeline.Jobs ex_bad /\
     condition (cel := ex_cel) (Job.When j) (job_ctx ex_bad ex_ctx j) = Fail e') \/
  (Is e (PM ErrStepCondition) = true /\ exists j s e', j ∈ Pipeline.Jobs ex_bad /\
     Step.Name s ∈ Step.Name <$> Job.Steps j /\
     condition (cel := ex_cel) (Step.When s) (step_ctx ex_bad ex_ctx j s) = Fail e')).
Proof.
  eexists. split; [vm_compute; reflexivity|].
  apply (EvaluateConditions_errors (cel := ex_cel) ex_bad ex_ctx). vm_compute. reflexivity.
Defined.
