(* ===== verification/Duration.v ===== *)
(** * [time.ParseDuration]

    The retry delays and timeouts of a pipeline are parsed by the standard library's
    [time.ParseDuration].  The model follows it on bytes: digits accumulate in a [uint64]
    with its overflow checks, the fraction is scaled in IEEE double precision (the
    axiom-free [SpecFloat] of the Standard Library), sums wrap at 64 bits. *)

From Stdlib Require SpecFloat.
From stdpp Require Import pretty.
From S2P Require Import Prelude Errors GoStrings Regex Model.

(** ** Machine arithmetic *)

Definition u64 (x : Z) : Z := x mod 2 ^ 64.

Definition f64 : Set := SpecFloat.spec_float.
Definition f64_of_Z (z : Z) : f64 := SpecFloat.binary_normalize 53 1024 z 0 false.
Definition f64_mul : f64 -> f64 -> f64 := SpecFloat.SFmul 53 1024.
Definition f64_div : f64 -> f64 -> f64 := SpecFloat.SFdiv 53 1024.

(** [uint64(x)]: truncation towards zero. *)
Definition u64_of_f64 (x : f64) : Z :=
  match x with
  | SpecFloat.S754_finite sign m e =>
      let t := if decide (0 <= e)%Z then (Z.pos m * 2 ^ e)%Z else (Z.pos m / 2 ^ (- e))%Z in
      u64 (if sign then - t else t)
  | _ => 0%Z
  end.

Definition digit_of (c : ascii) : Z := (Z.of_N (N_of_ascii c) - 48)%Z.

(** ** leadingInt, leadingFraction *)

Definition bad_duration (orig : string) : error := raise (Foreign ("time: invalid duration " +:+ orig)).

(** [None] is [errLeadingInt]. *)
Fixpoint leadingInt (x : Z) (s : list ascii) : option (Z * list ascii) :=
  match s with
  | c :: s' =>
      if is_digit c then
        if decide (2 ^ 63 / 10 < x)%Z then None else
        let x' := u64 (x * 10 + digit_of c) in
        if decide (2 ^ 63 < x')%Z then None else leadingInt x' s'
      else Some (x, s)
  | [] => Some (x, [])
  end.

Fixpoint leadingFraction (x : Z) (scale : f64) (overflow : bool) (s : list ascii)
    : Z * f64 * list ascii :=
  match s with
  | c :: s' =>
      if is_digit c then
        if overflow then leadingFraction x scale true s' else
        if decide ((2 ^ 63 - 1) / 10 < x)%Z then leadingFraction x scale true s' else
        let y := u64 (x * 10 + digit_of c) in
        if decide (2 ^ 63 < y)%Z then leadingFraction x scale true s' else
        leadingFraction y (f64_mul scale (f64_of_Z 10)) false s'
      else (x, scale, s)
  | [] => (x, scale, [])
  end.

(** ** Units *)

(** [unitMap]; the two spellings of the micro sign are U+00B5 and U+03BC. *)
Definition unit_table : list (list ascii * Z) :=
  [(bytes "ns", 1); (bytes "us", 1000);
   (ascii_of_N 194 :: ascii_of_N 181 :: bytes "s", 1000);
   (ascii_of_N 206 :: ascii_of_N 188 :: bytes "s", 1000);
   (bytes "ms", 1000000); (bytes "s", 1000000000); (bytes "m", 60000000000);
   (bytes "h", 3600000000000)]%Z.

Definition unitMap (u : list ascii) : option Z :=
  snd ∘ snd <$> list_find (fun p => p.1 = u) unit_table.

Definition unit_char (c : ascii) : bool := negb (bool_decide (c = "."%char) || is_digit c).

Fixpoint span (f : ascii -> bool) (l : list ascii) : list ascii * list ascii :=
  match l with
  | c :: l' => if f c then let '(a, b) := span f l' in (c :: a, b) else ([], l)
  | [] => ([], [])
  end.

(** ** The loop *)

(** One round: a number with its unit, the nanoseconds it stands for and the rest. *)
Definition duration_term (orig : string) (s : list ascii) : result (Z * list ascii) :=
  match s with
  | [] => Fail (bad_duration orig)
  | c0 :: _ =>
      if negb (bool_decide (c0 = "."%char) || is_digit c0) then Fail (bad_duration orig) else
      match leadingInt 0 s with
      | None => Fail (bad_duration orig)
      | Some (v, s1) =>
          let pre := negb (bool_decide (length s = length s1)) in
          let '(f, scale, post, s2) :=
            match s1 with
            | c :: s1' =>
                if bool_decide (c = "."%char) then
                  let '(f, scale, s2) := leadingFraction 0 (f64_of_Z 1) false s1' in
                  (f, scale, negb (bool_decide (length s1' = length s2)), s2)
                else (0%Z, f64_of_Z 1, false, s1)
            | [] => (0%Z, f64_of_Z 1, false, s1)
            end in
          if negb pre && negb post then Fail (bad_duration orig) else
          let '(u, s3) := span unit_char s2 in
          if bool_decide (u = []) then Fail (bad_duration orig) else
          match unitMap u with
          | None => Fail (bad_duration orig)
          | Some unit =>
              if decide (2 ^ 63 / unit < v)%Z then Fail (bad_duration orig) else
              let v := u64 (v * unit) in
              if decide (0 < f)%Z then
                let v := u64 (v + u64_of_f64 (f64_mul (f64_of_Z f) (f64_div (f64_of_Z unit) scale))) in
                if decide (2 ^ 63 < v)%Z then Fail (bad_duration orig) else Ok (v, s3)
              else Ok (v, s3)
          end
      end
  end.

(** The [for s != ""] loop: every round consumes a byte, so the length is enough fuel. *)
Fixpoint duration_loop (fuel : nat) (orig : string) (d : Z) (s : list ascii) : result Z :=
  match s with
  | [] => Ok d
  | _ =>
      match fuel with
      | O => Fail (raise OutOfFuel)
      | S fuel' =>
          '(v, s') ← duration_term orig s;
          let d := u64 (d + v) in
          if decide (2 ^ 63 < d)%Z then Fail (bad_duration orig) else duration_loop fuel' orig d s'
      end
  end.

Definition ParseDuration (orig : string) : result Z :=
  let '(neg, s) :=
    match bytes orig with
    | c :: s' =>
        if bool_decide (c = "-"%char) then (true, s')
        else if bool_decide (c = "+"%char) then (false, s') else (false, c :: s')
    | [] => (false, [])
    end in
  if bool_decide (s = bytes "0") then Ok 0%Z else
  if bool_decide (s = []) then Fail (bad_duration orig) else
  d ← duration_loop (length s) orig 0 s;
  if (neg : bool) then Ok (wrap64 (- wrap64 d))
  else if decide (2 ^ 63 - 1 < d)%Z then Fail (bad_duration orig) else Ok d.

Example ParseDuration_ex1 : ParseDuration "1h15m30.918s" = Ok 4530918000000%Z.
Proof. vm_compute. reflexivity. Qed.
Example ParseDuration_ex2 : ParseDuration "-1.5h" = Ok (-5400000000000)%Z.
Proof. vm_compute. reflexivity. Qed.
Example ParseDuration_ex3 : is_ok (ParseDuration "9223372036854775808ns") = false.
Proof. vm_compute. reflexivity. Qed.
Example ParseDuration_ex4 : is_ok (ParseDuration "3000000h") = false.
Proof. vm_compute. reflexivity. Qed.
Example ParseDuration_ex5 : ParseDuration ".1ns" = Ok 0%Z.
Proof. vm_compute. reflexivity. Qed.

(** ** Bounds and termination *)

Lemma u64_range x : (0 <= u64 x < 2 ^ 64)%Z.
Proof. apply Z.mod_pos_bound. lia. Qed.

Lemma wrap64_range x : (- 2 ^ 63 <= wrap64 x <= 2 ^ 63 - 1)%Z.
Proof. unfold wrap64. pose proof (Z.mod_pos_bound (x + 2 ^ 63) (2 ^ 64) ltac:(lia)). lia. Qed.

Lemma span_length f l : length (span f l).1 + length (span f l).2 = length l.
Proof. induction l as [|c l IH]; cbn; [done|]. destruct (f c), (span f l); cbn in *; lia. Qed.

Lemma leadingInt_length x s v s' : leadingInt x s = Some (v, s') -> length s' <= length s.
Proof.
  revert x. induction s as [|c s IH]; intros x; cbn [leadingInt]; [naive_solver|].
  destruct (is_digit c); [|naive_solver]. repeat case_decide; [done..|].
  intros Hx. apply IH in Hx. cbn. lia.
Qed.

Lemma leadingFraction_length x sc o s : length (leadingFraction x sc o s).2 <= length s.
Proof.
  revert x sc o. induction s as [|c s IH]; intros x sc o; cbn [leadingFraction]; [cbn; lia|].
  destruct (is_digit c); [|cbn; lia].
  destruct o; repeat case_decide; cbn [length];
    match goal with |- context [leadingFraction ?a ?b ?c s] => pose proof (IH a b c) end; lia.
Qed.

(** A round of the loop consumes at least the unit. *)
Lemma duration_term_length orig s v s' :
  duration_term orig s = Ok (v, s') -> length s' < length s.
Proof.
  unfold duration_term. destruct s as [|c0 s0]; [done|]. set (s := c0 :: s0).
  destruct (negb _); [done|]. destruct (leadingInt 0 s) as [[v1 s1]|] eqn:Hi; [|done].
  apply leadingInt_length in Hi.
  assert (exists f sc post s2, (match s1 with
            | c :: s1' =>
                if bool_decide (c = "."%char) then
                  let '(f, scale, s2) := leadingFraction 0 (f64_of_Z 1) false s1' in
                  (f, scale, negb (bool_decide (length s1' = length s2)), s2)
                else (0%Z, f64_of_Z 1, false, s1)
            | [] => (0%Z, f64_of_Z 1, false, s1)
            end = (f, sc, post, s2)) /\ length s2 <= length s1) as (f & sc & post & s2 & -> & H2).
  { destruct s1 as [|c s1]; [by eexists _, _, _, _|]. case_bool_decide; [|by eexists _, _, _, _].
    pose proof (leadingFraction_length 0 (f64_of_Z 1) false s1) as Hf.
    destruct (leadingFraction _ _ _ s1) as [[f sc] s2]. eexists _, _, _, _. split; [done|].
    cbn in *. lia. }
  destruct (_ && _); [done|]. pose proof (span_length unit_char s2) as Hs.
  destruct (span unit_char s2) as [u s3]. case_bool_decide as Hu; [done|].
  assert (length s3 < length s) by (destruct u; cbn in *; [done|lia]).
  destruct (unitMap u); [|done]. repeat case_decide; try done; by intros [= _ <-].
Qed.

Lemma duration_term_fuel orig s : duration_term orig s <> Fail (raise OutOfFuel).
Proof.
  unfold duration_term. destruct s; [done|]. destruct (negb _); [done|].
  destruct (leadingInt _ _) as [[? ?]|]; [|done].
  match goal with |- context [match ?m with pair _ _ => _ end] => destruct m as [[[? ?] ?] ?] end.
  destruct (_ && _); [done|]. destruct (span _ _). case_bool_decide; [done|].
  destruct (unitMap _); [|done]. repeat case_decide; done.
Qed.

Lemma duration_loop_fuel fuel orig d s :
  length s <= fuel -> duration_loop fuel orig d s <> Fail (raise OutOfFuel).
Proof.
  revert d s. induction fuel as [|fuel IH]; intros d s Hl; [destruct s; cbn in *; [done|lia]|].
  destruct s as [|c s]; [done|]. cbn [duration_loop].
  destruct (duration_term orig (c :: s)) as [[v s']|e] eqn:Ht; cbn.
  - case_decide; [done|]. apply IH. apply duration_term_length in Ht. cbn in *. lia.
  - intros [= ->]. by apply duration_term_fuel in Ht.
Qed.

Lemma duration_loop_range fuel orig d s d' :
  (0 <= d <= 2 ^ 63)%Z -> duration_loop fuel orig d s = Ok d' -> (0 <= d' <= 2 ^ 63)%Z.
Proof.
  revert d s. induction fuel as [|fuel IH]; intros d s Hd; (destruct s as [|c s]; [by intros [= <-]|]);
    [done|]. cbn [duration_loop].
  destruct (duration_term orig (c :: s)) as [[v s']|e]; cbn; [|done].
  case_decide; [done|]. apply IH. pose proof (u64_range (d + v)). lia.
Qed.

Lemma ParseDuration_range s d : ParseDuration s = Ok d -> (- 2 ^ 63 <= d <= MaxInt)%Z.
Proof.
  unfold ParseDuration, MaxInt.
  match goal with |- context [match ?m with pair _ _ => _ end] => destruct m as [neg l] end.
  case_bool_decide; [intros [= <-]; lia|]. case_bool_decide; [done|]. intros Hx. inv_ok.
  match goal with Hl : duration_loop _ _ _ _ = _ |- _ => apply duration_loop_range in Hl; [|lia] end.
  destruct neg.
  - inv_ok. apply wrap64_range.
  - case_decide; inv_ok. lia.
Qed.

Lemma ParseDuration_fuel s : ParseDuration s <> Fail (raise OutOfFuel).
Proof.
  unfold ParseDuration.
  match goal with |- context [match ?m with pair _ _ => _ end] => destruct m as [neg l] end.
  case_bool_decide; [done|]. case_bool_decide; [done|].
  destruct (duration_loop _ _ _ _) as [d|e] eqn:Hl; cbn.
  - destruct neg; [done|]. by case_decide.
  - intros [= ->]. by apply duration_loop_fuel in Hl.
Qed.

(** ** Printing nanoseconds *)

Definition print_duration (d : Z) : string := pretty (Z.to_N d) +:+ "ns".

Lemma digit_char n : (n < 10)%N ->
  is_digit (pretty_N_char n) = true /\ digit_of (pretty_N_char n) = Z.of_N n.
Proof.
  intros Hn. assert (n ∈ [0; 1; 2; 3; 4; 5; 6; 7; 8; 9]%N) as Hin.
  { rewrite !elem_of_cons. lia. }
  rewrite !elem_of_cons, elem_of_nil in Hin. by destruct_or?; subst.
Qed.

Lemma leadingInt_pretty n s :
  (n <= 2 ^ 63)%N ->
  leadingInt 0 (bytes (pretty_N_go n s)) = leadingInt (Z.of_N n) (bytes s).
Proof.
  revert s. induction (N.lt_wf_0 n) as [n _ IH]. intros s Hn.
  destruct (decide (0 < n)%N) as [Hpos|]; [|by assert (n = 0)%N as -> by lia].
  rewrite pretty_N_go_step by done. rewrite IH; [|by apply N.div_lt|].
  2: { pose proof (N.Div0.div_le_upper_bound n 10 (2 ^ 63)). lia. }
  destruct (digit_char (n mod 10)) as [Hd Hv]; [by apply N.mod_lt|].
  assert (Z.of_N (n / 10) * 10 + Z.of_N (n mod 10) = Z.of_N n)%Z as Heq.
  { pose proof (N.div_mod n 10). lia. }
  change (bytes (String ?a ?t)) with (a :: bytes t). cbn [leadingInt]. rewrite Hd, Hv, Heq.
  assert (u64 (Z.of_N n) = Z.of_N n) as -> by (unfold u64; apply Z.mod_small; lia).
  rewrite decide_False by (rewrite N2Z.inj_div; pose proof (Z.div_le_mono (Z.of_N n) (2 ^ 63) 10); lia).
  rewrite decide_False by lia. done.
Qed.

Lemma pretty_head n s : (0 < n)%N -> exists c t, pretty_N_go n s = String c t /\ is_digit c = true.
Proof.
  revert s. induction (N.lt_wf_0 n) as [n _ IH]. intros s Hpos.
  rewrite pretty_N_go_step by done.
  destruct (decide (0 < n / 10)%N) as [Hp|Hp].
  - apply IH; [by apply N.div_lt|done].
  - apply N.le_ngt, N.le_0_r in Hp as ->. rewrite pretty_N_go_0. eexists _, _. split; [done|].
    by apply digit_char, N.mod_lt.
Qed.

Lemma pretty_go_app n s s' : pretty_N_go n (s +:+ s') = pretty_N_go n s +:+ s'.
Proof.
  revert s. induction (N.lt_wf_0 n) as [n _ IH]. intros s.
  destruct (decide (0 < n)%N) as [Hpos|]; [|by assert (n = 0)%N as -> by lia].
  rewrite !(pretty_N_go_step n) by done. rewrite <- IH by (by apply N.div_lt). done.
Qed.

Lemma leadingInt_digit x c s v s' :
  leadingInt x (c :: s) = Some (v, s') -> is_digit c = true -> length s' <= length s.
Proof.
  intros Hl Hc. cbn [leadingInt] in Hl. rewrite Hc in Hl. repeat case_decide; [done..|]. by apply leadingInt_length in Hl.
Qed.

(** Printing a non-negative duration in nanoseconds and parsing it gives it back. *)
Lemma ParseDuration_print d : (0 <= d <= MaxInt)%Z -> ParseDuration (print_duration d) = Ok d.
Proof.
  intros [Hd Hm]. unfold MaxInt in Hm. destruct (decide (d = 0)%Z) as [->|Hne]; [reflexivity|].
  set (n := Z.to_N d). assert (0 < n)%N as Hn by lia. assert (Z.of_N n = d) as Hz by lia.
  assert (bytes (print_duration d) = bytes (pretty_N_go n "ns")) as Hb.
  { unfold print_duration. fold n. unfold pretty, pretty_N. rewrite decide_False by lia.
    by rewrite <- pretty_go_app. }
  destruct (pretty_head n "ns" Hn) as (c & t & Hh & Hc).
  assert (leadingInt 0 (c :: bytes t) = Some (d, bytes "ns")) as Hi.
  { change (c :: bytes t) with (bytes (String c t)). rewrite <- Hh, leadingInt_pretty by lia.
    rewrite Hz. reflexivity. }
  assert (duration_term (print_duration d) (c :: bytes t) = Ok (d, [])) as Ht.
  { unfold duration_term. rewrite Hc, orb_true_r. cbn [negb]. rewrite Hi.
    rewrite bool_decide_false by (apply leadingInt_digit in Hi; [cbn [length] in *; lia|done]).
    change (bytes "ns") with ["n"%char; "s"%char].
    cbv beta iota zeta. rewrite (bool_decide_false ("n"%char = "."%char)) by done. cbv beta iota zeta delta [negb andb].
    replace (span unit_char ["n"%char; "s"%char]) with (["n"%char; "s"%char], @nil ascii) by reflexivity.
    rewrite bool_decide_false by done.
    replace (unitMap ["n"%char; "s"%char]) with (Some 1%Z) by reflexivity.
    rewrite Z.div_1_r, decide_False by lia. rewrite Z.mul_1_r, decide_False by lia.
    unfold u64. rewrite Z.mod_small by lia. done. }
  unfold ParseDuration. rewrite Hb, Hh. change (bytes (String c t)) with (c :: bytes t).
  cbv beta iota. rewrite (bool_decide_false (c = "-"%char)), (bool_decide_false (c = "+"%char)) by (by intros ->).
  cbv beta iota. rewrite bool_decide_false.
  2: { intros Heq. rewrite Heq in Hi. vm_compute in Hi. naive_solver. }
  rewrite bool_decide_false by done. cbn [length duration_loop]. rewrite Ht. cbn [mbind res_bind].
  rewrite Z.add_0_l. unfold u64. rewrite Z.mod_small by lia. rewrite decide_False by lia.
  destruct (length (bytes t)); cbn [duration_loop mbind res_bind]; rewrite decide_False by lia; done.
Qed.
