(* ===== verification/Paths.v ===== *)
(** * File names and include keys

    The parts of [path/filepath] (Unix) and [net/url] the parser relies on, and the
    functions of [pkg/parser] built on them: [dirOf], [nameFromFilename] and [cacheKey]. *)

From S2P Require Import Prelude Errors GoStrings Regex Names.

(** ** path/filepath *)

Definition slash : ascii := "/"%char.

Definition IsAbs (path : string) : bool := HasPrefix path "/".

(** The lexical processing of [Clean]: the elements kept so far, innermost first. *)
Definition clean_step (rooted : bool) (out : list string) (elem : string) : list string :=
  if bool_decide (elem = "") || bool_decide (elem = ".") then out else
  if bool_decide (elem = "..") then
    match out with
    | top :: out' => if decide (top = "..") then elem :: out else out'
    | [] => if rooted then [] else [elem]
    end
  else elem :: out.

Definition Clean (path : string) : string :=
  let rooted := IsAbs path in
  let elems := reverse (foldl (clean_step rooted) [] (SplitByte path slash)) in
  if rooted then "/" +:+ Join elems "/"
  else if decide (elems = []) then "." else Join elems "/".

Definition Dir (path : string) : string :=
  match LastIndexByte path slash with
  | Some i => Clean (str_take (S i) path)
  | None => "."
  end.

Definition Base (path : string) : string :=
  if decide (path = "") then "." else
  let path := TrimRightByte slash path in
  let path := match LastIndexByte path slash with Some i => str_drop (S i) path | None => path end in
  if decide (path = "") then "/" else path.

(** [filepath.Join]: empty elements in front are skipped. *)
Fixpoint FileJoin (elems : list string) : string :=
  match elems with
  | [] => ""
  | e :: l => if decide (e = "") then FileJoin l else Clean (Join elems "/")
  end.

Definition TrimSuffix (s suffix : string) : string :=
  if HasSuffix s suffix then str_take (String.length s - String.length suffix) s else s.

Example Clean_ex1 : Clean "/a/./b/../../c//d" = "/c/d". Proof. reflexivity. Qed.
Example Clean_ex2 : Clean "../a/../.." = "../..". Proof. reflexivity. Qed.
Example Clean_ex3 : Clean "a/.." = ".". Proof. reflexivity. Qed.
Example Dir_ex1 : Dir "/x/ci.kdl" = "/x". Proof. reflexivity. Qed.
Example Dir_ex2 : Dir "ci.kdl" = ".". Proof. reflexivity. Qed.
Example Dir_ex3 : Dir "/ci.kdl" = "/". Proof. reflexivity. Qed.
Example Base_ex1 : Base "/x/ci.kdl" = "ci.kdl". Proof. reflexivity. Qed.
Example Base_ex2 : Base "///" = "/". Proof. reflexivity. Qed.

(** ** helpers.go *)

Definition syntheticFilename : string := "<string>".
Definition stdinFilename : string := "<stdin>".

Definition dirOf (filename : string) : string :=
  if bool_decide (filename = syntheticFilename) || bool_decide (filename = stdinFilename)
  then "." else Dir filename.

Definition nameFromFilename (filename : string) : string :=
  if decide (filename = syntheticFilename) then ""
  else if decide (filename = stdinFilename) then "stdin"
  else TrimSuffix (Base filename) ".kdl".

(** ** [strings.ToLower]

    ASCII letters, and the two runes beyond ASCII whose lower case is an ASCII letter
    (U+212A, the Kelvin sign, and U+0130, the dotted capital I).  Other runes stay outside
    ASCII, so they are left as they are: the result is compared with ASCII words only. *)

Definition lower_byte (a : ascii) : ascii :=
  if is_upper a then ascii_of_N (N_of_ascii a + 32) else a.

Fixpoint lower_bytes (l : list ascii) : list ascii :=
  match l with
  | a :: l1 =>
      match l1 with
      | b :: l2 =>
          if byte_is 196 a && byte_is 176 b then "i"%char :: lower_bytes l2 else
          match l2 with
          | c :: l3 =>
              if byte_is 226 a && byte_is 132 b && byte_is 170 c then "k"%char :: lower_bytes l3
              else lower_byte a :: lower_bytes l1
          | [] => lower_byte a :: lower_bytes l1
          end
      | [] => [lower_byte a]
      end
  | [] => []
  end.

Definition ToLower (s : string) : string := String.string_of_list_ascii (lower_bytes (bytes s)).

Example ToLower_ex1 : ToLower "ErrOR" = "error". Proof. reflexivity. Qed.

(** ** net/url *)

Definition unreserved (a : ascii) : bool := is_alnum a || is_one_of "-_.~" a.

Definition hex (n : N) : ascii := ascii_of_N (if (n <? 10)%N then 48 + n else 55 + n).

Definition escape_byte (a : ascii) : list ascii :=
  if unreserved a then [a]
  else if byte_is 32 a then ["+"%char]
  else ["%"%char; hex (N_of_ascii a / 16); hex (N_of_ascii a mod 16)].

Definition QueryEscape (s : string) : string :=
  String.string_of_list_ascii (bytes s ≫= escape_byte).

(** [url.Values.Encode] on a map with one value per key: keys in sorted order. *)
Definition Encode (vals : gmap string string) : string :=
  Join ((fun k => QueryEscape k +:+ "=" +:+ QueryEscape (default "" (vals !! k))) <$>
          sorted_keys vals) "&".

(** ** [cacheKey] (include.go) *)

Definition cacheKey (absPath : string) (params : gmap string string) : string :=
  if decide (params = ∅) then absPath else absPath +:+ "?" +:+ Encode params.

Example cacheKey_ex1 :
  cacheKey "/f.kdl" (<["os" := "linux x"]> (<["arch" := "a&b"]> ∅)) = "/f.kdl?arch=a%26b&os=linux+x".
Proof. vm_compute. reflexivity. Qed.

(** ** The keys of the include cache are faithful *)

(** Reading one escaped byte back. *)
Definition unhex (a : ascii) : N :=
  let n := N_of_ascii a in if (n <? 58)%N then n - 48 else n - 55.

Definition unescape1 (l : list ascii) : option (ascii * list ascii) :=
  match l with
  | [] => None
  | a :: l1 =>
      if byte_is 37 a then
        match l1 with h :: l :: l3 => Some (ascii_of_N (unhex h * 16 + unhex l), l3) | _ => None end
      else if byte_is 43 a then Some (" "%char, l1) else Some (a, l1)
  end.

Lemma unescape1_escape a l : unescape1 (escape_byte a ++ l) = Some (a, l).
Proof. destruct a as [[] [] [] [] [] [] [] []]; vm_compute; reflexivity. Qed.

Definition separator (c : ascii) : Prop := c = "&"%char \/ c = "="%char \/ c = "?"%char.

Lemma escape_byte_lacks a c : separator c -> c ∉ escape_byte a.
Proof.
  intros [->|[->| ->]]; apply (bool_decide_unpack _);
    destruct a as [[] [] [] [] [] [] [] []]; vm_compute; exact I.
Qed.

Lemma bytes_of_list l : bytes (String.string_of_list_ascii l) = l.
Proof. apply String.list_ascii_of_string_of_list_ascii. Qed.

Lemma string_of_bytes s : String.string_of_list_ascii (bytes s) = s.
Proof. apply String.string_of_list_ascii_of_string. Qed.

Lemma bytes_inj s t : bytes s = bytes t -> s = t.
Proof. intros H. rewrite <- (string_of_bytes s), <- (string_of_bytes t). by f_equal. Qed.

Lemma QueryEscape_lacks s c : separator c -> lacks c (QueryEscape s).
Proof.
  intros Hc. unfold lacks, QueryEscape. rewrite bytes_of_list.
  intros (a & Ha & _)%list_elem_of_bind. by apply (escape_byte_lacks a c).
Qed.

Lemma QueryEscape_inj s t : QueryEscape s = QueryEscape t -> s = t.
Proof.
  unfold QueryEscape. intros H. apply (f_equal bytes) in H. rewrite !bytes_of_list in H.
  apply bytes_inj. generalize dependent (bytes s). intros l. generalize (bytes t). clear s t.
  induction l as [|a l IH]; intros [|b k] H; cbn in H; [done|..].
  - pose proof (unescape1_escape b (k ≫= escape_byte)) as Hb. by rewrite <- H in Hb.
  - pose proof (unescape1_escape a (l ≫= escape_byte)) as Ha. by rewrite H in Ha.
  - pose proof (unescape1_escape a (l ≫= escape_byte)) as Ha. rewrite H in Ha.
    rewrite unescape1_escape in Ha. injection Ha as -> Hl. f_equal. by apply IH.
Qed.

Lemma entry_lacks k v : lacks "&" (QueryEscape k +:+ "=" +:+ QueryEscape v).
Proof.
  rewrite !lacks_app. split_and!; [apply QueryEscape_lacks; by left| |apply QueryEscape_lacks; by left].
  apply lacks_cons. split; [done|apply lacks_nil].
Qed.

Lemma entry_inj k v k' v' :
  QueryEscape k +:+ "=" +:+ QueryEscape v = QueryEscape k' +:+ "=" +:+ QueryEscape v' ->
  k = k' /\ v = v'.
Proof.
  rewrite !append_cons, !append_nil_l. intros H.
  assert (forall x, lacks "=" (QueryEscape x)) as Hl by (intros; apply QueryEscape_lacks; right; by left).
  pose proof (CutByte_app _ (QueryEscape v) _ (Hl k)) as H1. rewrite H in H1.
  rewrite CutByte_app in H1 by apply Hl. injection H1 as H1 H2.
  split; symmetry; by apply QueryEscape_inj.
Qed.

Lemma Encode_inj m m' : m <> ∅ -> m' <> ∅ -> Encode m = Encode m' -> m = m'.
Proof.
  assert (forall m : gmap string string, m <> ∅ -> sorted_keys m <> []) as Hne.
  { intros x Hx Hk. apply Hx, map_eq. intros k. rewrite lookup_empty.
    apply not_elem_of_dom. rewrite <- elem_of_sorted_keys, Hk. set_solver. }
  intros Hm%Hne Hm'%Hne H. unfold Encode in H.
  apply (f_equal (fun s => SplitByte s "&")) in H.
  rewrite !SplitByte_Join in H; try (by intros ?%fmap_nil_inv);
    try (apply Forall_fmap, Forall_forall; intros; apply entry_lacks).
  assert (sorted_keys m = sorted_keys m') as Hk.
  { revert H. generalize (sorted_keys m) (sorted_keys m'). intros l. induction l as [|k l IH]; intros [|k' l'];
      cbn; try done. intros [= [-> _]%entry_inj Hl]. f_equal. by apply IH. }
  apply map_eq. intros k. destruct (decide (k ∈ dom m)) as [Hd|Hd].
  2: { pose proof Hd as Hd'. rewrite <- elem_of_sorted_keys, Hk, elem_of_sorted_keys in Hd'.
    by rewrite (proj1 (not_elem_of_dom _ _) Hd), (proj1 (not_elem_of_dom _ _) Hd'). }
  pose proof Hd as Hd'. rewrite <- elem_of_sorted_keys, Hk, elem_of_sorted_keys in Hd'.
  assert (k ∈ sorted_keys m') as Hin by by apply elem_of_sorted_keys.
  rewrite Hk in H. apply list_elem_of_lookup in Hin as [i Hi].
  apply (f_equal (.!! i)) in H. rewrite !list_lookup_fmap, Hi in H. cbn in H.
  injection H as [_ Hv]%entry_inj.
  apply elem_of_dom in Hd as [v Hv1]. apply elem_of_dom in Hd' as [v' Hv2].
  rewrite Hv1, Hv2 in *. by cbn in Hv; subst.
Qed.

(** Two include directives share a cache entry only when they resolve to the same file
    with the same parameter values: [cacheKey] is injective on paths without a question
    mark. *)
Theorem cacheKey_inj path path' params params'
  (Hp : lacks "?" path) (Hp' : lacks "?" path') :
  cacheKey path params = cacheKey path' params' <-> path = path' /\ params = params'.
Proof.
  split; [|by intros [-> ->]]. unfold cacheKey. repeat case_decide; subst.
  - by intros ->.
  - intros Heq. exfalso. rewrite Heq, lacks_app, append_cons, lacks_cons in Hp. naive_solver.
  - intros Heq. exfalso. rewrite <- Heq, lacks_app, append_cons, lacks_cons in Hp'. naive_solver.
  - rewrite !append_cons, !append_nil_l. intros Heq.
    pose proof (CutByte_app _ (Encode params) _ Hp) as H1. rewrite Heq in H1.
    rewrite CutByte_app in H1 by done. injection H1 as -> He. split; [done|].
    by apply Encode_inj.
Qed.

Lemma cacheKey_inj_witness :
  lacks "?" "/a.kdl" /\ lacks "?" "/b.kdl" /\
  (cacheKey "/a.kdl" ∅ = cacheKey "/b.kdl" (<["x" := "1"]> ∅) <->
   "/a.kdl" = "/b.kdl" /\ ∅ = <["x" := "1"]> (∅ : gmap string string)).
Proof.
  assert (lacks "?" "/a.kdl") as H1 by (apply (bool_decide_unpack _); vm_compute; exact I).
  assert (lacks "?" "/b.kdl") as H2 by (apply (bool_decide_unpack _); vm_compute; exact I).
  split_and!; [exact H1|exact H2|apply (cacheKey_inj _ _ _ _ H1 H2)].
Defined.

(** The hypothesis is needed: a question mark in a file name makes two keys coincide. *)
Lemma cacheKey_collision :
  cacheKey "/a?x=1" ∅ = cacheKey "/a" (<["x" := "1"]> ∅).
Proof. vm_compute. reflexivity. Qed.
