(* ===== verification/Kdl.v ===== *)
(** * KDL nodes and the helpers of package parser (helpers.go, nodes.go)

    The third-party library kdl-go is the class [KDL]: abstract values and nodes with the
    accessors the parser calls.  The class [KdlBuilder] adds a constructor of nodes with
    the laws of the accessors; only the theorems that print a value back need it. *)

From stdpp Require Import pretty.
From S2P Require Import Prelude Errors GoStrings Regex Model.

(** ** The interface of kdl-go *)

Inductive ValueKind : Set := KindString | KindInt | KindBool | KindOther.
#[export] Instance ValueKind_eq_dec : EqDecision ValueKind.
Proof. solve_decision. Defined.

(** An integer a Go [int] can hold. *)
Definition is_int (z : Z) : Prop := (- 2 ^ 63 <= z <= MaxInt)%Z.

(** [Value.Int] returns a Go [int]. *)
Class KDL : Type := {
  Value : Type;
  Kind : Value -> ValueKind;
  String_ : Value -> string;
  Int_ : Value -> Z;
  Int_range : forall v, is_int (Int_ v);
  Bool_ : Value -> bool;
  Node : Type;
  Name : Node -> string;
  Arguments : Node -> list Value;
  Properties : Node -> gmap string Value;
  Children : Node -> list Node
}.

(** Values and nodes can be built, and the accessors return what they were built from. *)
Class KdlBuilder (kdl : KDL) : Type := {
  VString : string -> Value;
  VInt : Z -> Value;
  VBool : bool -> Value;
  MkNode : string -> list Value -> gmap string Value -> list Node -> Node;
  Kind_VString : forall s, Kind (VString s) = KindString;
  String_VString : forall s, String_ (VString s) = s;
  Kind_VInt : forall z, Kind (VInt z) = KindInt;
  Int_VInt : forall z, is_int z -> Int_ (VInt z) = z;
  Kind_VBool : forall b, Kind (VBool b) = KindBool;
  Bool_VBool : forall b, Bool_ (VBool b) = b;
  Name_MkNode : forall n a p c, Name (MkNode n a p c) = n;
  Arguments_MkNode : forall n a p c, Arguments (MkNode n a p c) = a;
  Properties_MkNode : forall n a p c, Properties (MkNode n a p c) = p;
  Children_MkNode : forall n a p c, Children (MkNode n a p c) = c
}.

(** ** nodes.go *)

(** [NodeType] is a Go string type; [NodeTypeOther] is any string that is not one of its
    constants. *)
Inductive NodeType : Set :=
  | NodeTypeJob | NodeTypeStep | NodeTypeDefaults | NodeTypeMatrix | NodeTypeMount
  | NodeTypeCache | NodeTypeImage | NodeTypeRun | NodeTypeWorkdir | NodeTypeDependsOn
  | NodeTypePlatform | NodeTypeInclude | NodeTypeFragment | NodeTypeParam | NodeTypeEnv
  | NodeTypeExport | NodeTypeArtifact | NodeTypeNoCache | NodeTypePublish | NodeTypeWhen
  | NodeTypeRetry | NodeTypeTimeout | NodeTypeShell | NodeTypeSecret | NodeTypeAllowFailure
  | NodeTypeOther (s : string).

Definition node_types : list (string * NodeType) :=
  [("job", NodeTypeJob); ("step", NodeTypeStep); ("defaults", NodeTypeDefaults);
   ("matrix", NodeTypeMatrix); ("mount", NodeTypeMount); ("cache", NodeTypeCache);
   ("image", NodeTypeImage); ("run", NodeTypeRun); ("workdir", NodeTypeWorkdir);
   ("depends-on", NodeTypeDependsOn); ("platform", NodeTypePlatform);
   ("include", NodeTypeInclude); ("fragment", NodeTypeFragment); ("param", NodeTypeParam);
   ("env", NodeTypeEnv); ("export", NodeTypeExport); ("artifact", NodeTypeArtifact);
   ("no-cache", NodeTypeNoCache); ("publish", NodeTypePublish); ("when", NodeTypeWhen);
   ("retry", NodeTypeRetry); ("timeout", NodeTypeTimeout); ("shell", NodeTypeShell);
   ("secret", NodeTypeSecret); ("allow-failure", NodeTypeAllowFailure)].

(** The conversion [NodeType(s)]. *)
Definition NodeType_of (s : string) : NodeType :=
  match list_find (fun p => p.1 = s) node_types with
  | Some (_, (_, nt)) => nt
  | None => NodeTypeOther s
  end.

(** Property keys and field names. *)
Definition PropReadonly := "readonly".
Definition PropOnConflict := "on-conflict".
Definition PropDefault := "default".
Definition PropAs := "as".
Definition PropLocal := "local".
Definition PropSource := "source".
Definition PropTarget := "target".
Definition PropPush := "push".
Definition PropInsecure := "insecure".
Definition PropAttempts := "attempts".
Definition PropDelay := "delay".
Definition PropBackoff := "backoff".
Definition PropEnv := "env".
Definition PropMount := "mount".
Definition PropPath := "path".
Definition PropCmd := "cmd".
Definition PropVar := "var".

Section helpers.
Context `{kdl : KDL}.

(** The types [coerceValue] is instantiated with: the zero value, the kind a value must
    have and the accessor that reads it. *)
Class GoType (T : Type) : Type := {
  zero : T;
  type_name : string;
  kind_of : ValueKind;
  read : Value -> T
}.
#[export] Instance GoString : GoType string :=
  {| zero := ""; type_name := "string"; kind_of := KindString; read := String_ |}.
#[export] Instance GoInt : GoType Z :=
  {| zero := 0%Z; type_name := "int"; kind_of := KindInt; read := Int_ |}.
#[export] Instance GoBool : GoType bool :=
  {| zero := false; type_name := "bool"; kind_of := KindBool; read := Bool_ |}.

(** ** helpers.go *)

Definition childrenOf (node : Node) : list Node := Children node.

Definition coerceValue (T : Type) `{GoType T} (v : Value) (ctx : list string) : result T :=
  if decide (Kind v = kind_of) then Ok (read v)
  else fail_with (ctx ++ [type_name]) (Pars ErrTypeMismatch).

Definition arg (T : Type) `{GoType T} (node : Node) (idx : nat) : result T :=
  match Arguments node !! idx with
  | None => fail_with [pretty idx] (Pars ErrMissingField)
  | Some v => coerceValue T v [pretty idx]
  end.

Definition prop (T : Type) `{GoType T} (node : Node) (key : string) : result T :=
  match Properties node !! key with
  | None => Ok zero
  | Some v => coerceValue T v [key]
  end.

Definition stringArgs2 (node : Node) (filename field : string) : result (string * string) :=
  let n := length (Arguments node) in
  if decide (n < 2) then fail_with [filename; field; pretty n] (Pars ErrMissingField)
  else if decide (2 < n) then fail_with [filename; field; pretty n] (Pars ErrExtraArgs)
  else
    first ← map_err (errorf [filename; field]) (arg string node 0);
    second ← map_err (errorf [filename; field]) (arg string node 1);
    Ok (first, second).

Definition requireStringArg (node : Node) (filename field : string) : result string :=
  map_err (errorf [filename; field]) (arg string node 0).

(** [setOnce(&dst, value, ...)] for a string and for a pointer: the new [*dst]. *)
Definition setOnce (dst value filename scope field : string) : result string :=
  if decide (dst = "") then Ok value
  else fail_with [filename; scope; field] (Pars ErrDuplicateField).

Definition setOncePtr {T} (dst : option T) (value : T) (filename scope field : string)
    : result (option T) :=
  match dst with
  | None => Ok (Some value)
  | Some _ => fail_with [filename; scope; field] (Pars ErrDuplicateField)
  end.

(** ** What the helpers accept *)

Lemma coerceValue_Ok T `{GoType T} v ctx (t : T) :
  coerceValue T v ctx = Ok t <-> Kind v = kind_of /\ read v = t.
Proof. unfold coerceValue. case_decide; naive_solver. Qed.

Lemma arg_Ok T `{GoType T} node i (t : T) :
  arg T node i = Ok t <-> exists v, Arguments node !! i = Some v /\ Kind v = kind_of /\ read v = t.
Proof.
  unfold arg. destruct (Arguments node !! i) as [v|]; [rewrite coerceValue_Ok|]; naive_solver.
Qed.

Lemma requireStringArg_Ok node filename field s :
  requireStringArg node filename field = Ok s <-> arg string node 0 = Ok s.
Proof. apply map_err_Ok. Qed.

Lemma setOnce_Ok dst v f s n d : setOnce dst v f s n = Ok d <-> dst = "" /\ d = v.
Proof. unfold setOnce. case_decide; naive_solver. Qed.

Lemma setOncePtr_Ok {T} (dst : option T) v f s n d :
  setOncePtr dst v f s n = Ok d <-> dst = None /\ d = Some v.
Proof. destruct dst; cbn; naive_solver. Qed.
End helpers.

#[export] Hint Rewrite @coerceValue_Ok @arg_Ok @requireStringArg_Ok @setOnce_Ok @setOncePtr_Ok : cicada.

(** ** Built nodes *)

Section builder.
Context `{kdl : KDL} `{!KdlBuilder kdl}.

Lemma arg_built_string n a p c i s :
  a !! i = Some (VString s) -> arg string (MkNode n a p c) i = Ok s.
Proof. intros Hi. unfold arg. rewrite Arguments_MkNode, Hi. unfold coerceValue. cbn.
  by rewrite Kind_VString, String_VString. Qed.

Lemma arg_built_int n a p c i z :
  is_int z -> a !! i = Some (VInt z) -> arg Z (MkNode n a p c) i = Ok z.
Proof. intros Hz Hi. unfold arg. rewrite Arguments_MkNode, Hi. unfold coerceValue. cbn.
  by rewrite Kind_VInt, Int_VInt. Qed.

Lemma arg_int_range node i z : arg Z node i = Ok z -> is_int z.
Proof. intros (v & _ & _ & <-)%arg_Ok. apply Int_range. Qed.

Lemma prop_built_string n a p c k s :
  p !! k = Some (VString s) -> prop string (MkNode n a p c) k = Ok s.
Proof. intros Hi. unfold prop. rewrite Properties_MkNode, Hi. unfold coerceValue. cbn.
  by rewrite Kind_VString, String_VString. Qed.

Lemma prop_built_bool n a p c k b :
  p !! k = Some (VBool b) -> prop bool (MkNode n a p c) k = Ok b.
Proof. intros Hi. unfold prop. rewrite Properties_MkNode, Hi. unfold coerceValue. cbn.
  by rewrite Kind_VBool, Bool_VBool. Qed.

Lemma requireStringArg_built n s a p c f field :
  requireStringArg (MkNode n (VString s :: a) p c) f field = Ok s.
Proof. by apply map_err_Ok, arg_built_string. Qed.

Lemma stringArgs2_built n s t p c f field :
  stringArgs2 (MkNode n [VString s; VString t] p c) f field = Ok (s, t).
Proof.
  unfold stringArgs2. rewrite Arguments_MkNode. cbn [length].
  rewrite !decide_False by lia.
  rewrite (arg_built_string n _ p c 0 s), (arg_built_string n _ p c 1 t) by done. done.
Qed.
End builder.

(** ** A concrete instance: nodes as trees *)

Inductive tree_value : Type := TString (s : string) | TInt (z : Z) | TBool (b : bool) | TNull.
Inductive tree : Type :=
  Tree (name : string) (args : list tree_value) (props : gmap string tree_value) (kids : list tree).

Lemma wrap64_int z : is_int (wrap64 z).
Proof.
  unfold is_int, wrap64, MaxInt. pose proof (Z.mod_pos_bound (z + 2 ^ 63) (2 ^ 64)). lia.
Qed.

Lemma tree_int_range v :
  is_int (match v with TInt z => wrap64 z | _ => 0%Z end).
Proof. destruct v; try apply wrap64_int; split; done. Qed.

Definition tree_kdl : KDL := {|
  Value := tree_value;
  Kind := fun v => match v with TString _ => KindString | TInt _ => KindInt | TBool _ => KindBool | TNull => KindOther end;
  String_ := fun v => match v with TString s => s | _ => "" end;
  Int_ := fun v => match v with TInt z => wrap64 z | _ => 0%Z end;
  Int_range := tree_int_range;
  Bool_ := fun v => match v with TBool b => b | _ => false end;
  Node := tree;
  Name := fun t => match t with Tree n _ _ _ => n end;
  Arguments := fun t => match t with Tree _ a _ _ => a end;
  Properties := fun t => match t with Tree _ _ p _ => p end;
  Children := fun t => match t with Tree _ _ _ k => k end
|}.

Definition tree_builder : KdlBuilder tree_kdl := {|
  VString := TString : string -> Value (KDL := tree_kdl);
  VInt := TInt : Z -> Value (KDL := tree_kdl);
  VBool := TBool : bool -> Value (KDL := tree_kdl);
  MkNode := Tree : string -> list (Value (KDL := tree_kdl)) -> gmap string (Value (KDL := tree_kdl)) -> list (Node (KDL := tree_kdl)) -> Node (KDL := tree_kdl);
  Kind_VString := fun _ => eq_refl; String_VString := fun _ => eq_refl;
  Kind_VInt := fun _ => eq_refl; Int_VInt := wrap64_id;
  Kind_VBool := fun _ => eq_refl; Bool_VBool := fun _ => eq_refl;
  Name_MkNode := fun _ _ _ _ => eq_refl; Arguments_MkNode := fun _ _ _ _ => eq_refl;
  Properties_MkNode := fun _ _ _ _ => eq_refl; Children_MkNode := fun _ _ _ _ => eq_refl
|}.
