(* ===== verification/Elements.v ===== *)
(** * Elements of a pipeline file (elements.go, defaults.go)

    One definition per parsing function.  [scope] strings are passed as the list of the
    operands they are formatted from. *)

From stdpp Require Import pretty.
From S2P Require Import Prelude Errors GoStrings Regex Conditional Model Names Expand Duration Kdl.

Section elements.
Context `{kdl : KDL} `{cel : CEL}.

(** ** Matrices *)

Definition parseDimension (filename scope : string) (child : Node) : result Dimension.t :=
  values ← forM (fun i => map_err (errorf [filename; scope; Name child; pretty i]) (arg string child i))
             (seq 0 (length (Arguments child)));
  Ok (Dimension.mk (Name child) values).

Definition parseMatrix (node : Node) (filename scope : string) : result Matrix.t :=
  dims ← forM (parseDimension filename scope) (childrenOf node);
  let m := Matrix.mk dims in
  map_err (errorf [filename; scope]) (ValidateMatrix (Some m));;
  Ok m.

(** ** Environment, exports, artifacts, publish *)

Definition parseEnvNode (node : Node) (filename scope : string) : result EnvVar.t :=
  '(k, v) ← map_err (errorf [filename; scope]) (stringArgs2 node filename "env");
  Ok (EnvVar.mk k v).

Definition parseExportNode (node : Node) (filename scopeName : string) : result Export_.t :=
  guard_fail (bool_decide (1 < length (Arguments node)))
    (errorf [filename; scopeName; pretty (length (Arguments node))] (raise (Pars ErrExtraArgs)));;
  path ← map_err (errorf [filename; scopeName]) (requireStringArg node filename "export");
  local ← map_err (errorf [filename; scopeName]) (prop string node PropLocal);
  if decide (local = "") then fail_with [filename; scopeName] (Pars ErrMissingField)
  else Ok (Export_.mk path local).

Definition parseArtifactNode (node : Node) (filename scopeName : string) : result Artifact.t :=
  guard_fail (bool_decide (1 < length (Arguments node)))
    (errorf [filename; scopeName; pretty (length (Arguments node))] (raise (Pars ErrExtraArgs)));;
  from ← map_err (errorf [filename; scopeName]) (requireStringArg node filename "artifact");
  source ← map_err (errorf [filename; scopeName]) (prop string node PropSource);
  if decide (source = "") then fail_with [filename; scopeName] (Pars ErrMissingField) else
  target ← map_err (errorf [filename; scopeName]) (prop string node PropTarget);
  if decide (target = "") then fail_with [filename; scopeName] (Pars ErrMissingField)
  else Ok (Artifact.mk from source target).

Definition parsePublishNode (node : Node) (filename scopeName : string) : result Publish.t :=
  guard_fail (bool_decide (1 < length (Arguments node)))
    (errorf [filename; scopeName; pretty (length (Arguments node))] (raise (Pars ErrExtraArgs)));;
  image ← map_err (errorf [filename; scopeName]) (requireStringArg node filename "publish");
  push ← map_err (errorf [filename; scopeName]) (prop bool node PropPush);
  insecure ← map_err (errorf [filename; scopeName]) (prop bool node PropInsecure);
  let push := match Properties node !! PropPush with Some _ => push | None => true end in
  Ok (Publish.mk image push insecure).

(** ** Conditions *)

Definition parseWhenNode (node : Node) (filename scopeName : string) : result When.t :=
  guard_fail (bool_decide (1 < length (Arguments node)))
    (errorf [filename; scopeName; pretty (length (Arguments node))] (raise (Pars ErrExtraArgs)));;
  expr ← map_err (errorf [filename; scopeName]) (requireStringArg node filename "when");
  let expr := TrimSpace expr in
  if decide (expr = "") then fail_with [filename; scopeName] (Pars ErrMissingField) else
  map_err (errorf [filename; scopeName]) (NewWhen expr).

(** ** Durations, retries, shells *)

(** The common tail of [timeout] and [delay]: a duration that is not negative. *)
Definition parseNonNegative (v : string) (neg : sentinel) (scope : list string) : result Z :=
  d ← map_err (errorf scope) (ParseDuration v);
  if decide (d < 0)%Z then fail_with scope neg else Ok d.

(** [pipelinemodel.BackoffStrategy(v)]. *)
Definition BackoffStrategy_of (v : string) : BackoffStrategy :=
  if decide (v = "") then BackoffUnset
  else if decide (v = "none") then BackoffNone
  else if decide (v = "linear") then BackoffLinear
  else if decide (v = "exponential") then BackoffExponential
  else BackoffOther v.

Definition too_many (child : Node) (scope : list string) : result unit :=
  guard_fail (bool_decide (1 < length (Arguments child)))
    (errorf (scope ++ [pretty (length (Arguments child))]) (raise (Pars ErrExtraArgs))).

(** The body of the loop over the children of a [retry] block. *)
Definition retry_step (filename scope : string) (acc : gset string * Retry.t) (child : Node)
    : result (gset string * Retry.t) :=
  let '(seen, r) := acc in
  let name := Name child in
  if decide (name ∈ seen) then fail_with [filename; scope; name] (Pars ErrDuplicateField) else
  let seen := {[name]} ∪ seen in
  if decide (name = PropAttempts) then
    too_many child [filename; scope; name];;
    v ← map_err (errorf [filename; scope]) (arg Z child 0);
    if decide (v < 1)%Z then fail_with [filename; scope; pretty v] (PM ErrInvalidRetryAttempts)
    else Ok (seen, r <| Retry.Attempts := v |>)
  else if decide (name = PropDelay) then
    too_many child [filename; scope; name];;
    v ← map_err (errorf [filename; scope]) (requireStringArg child filename name);
    d ← parseNonNegative v (PM ErrNegativeDelay) [filename; scope];
    Ok (seen, r <| Retry.Delay := d |>)
  else if decide (name = PropBackoff) then
    too_many child [filename; scope; name];;
    v ← map_err (errorf [filename; scope]) (requireStringArg child filename name);
    let bs := BackoffStrategy_of v in
    match bs with
    | BackoffNone | BackoffLinear | BackoffExponential =>
        Ok (seen, r <| Retry.Backoff := bs |>)
    | _ => fail_with [filename; scope; v] (PM ErrInvalidBackoff)
    end
  else fail_with [filename; scope; name] (Pars ErrUnknownNode).

Definition parseRetryNode (node : Node) (filename scope : string) : result Retry.t :=
  if decide (0 < length (Arguments node)) then fail_with [filename; scope] (Pars ErrExtraArgs) else
  '(_, r) ← foldM (retry_step filename scope) (∅, Retry.mk 1 0 BackoffNone) (childrenOf node);
  Ok r.

Definition parseShellNode (node : Node) (filename scope : string) : result (list string) :=
  let nodeArgs := Arguments node in
  if decide (nodeArgs = []) then fail_with [filename; scope] (PM ErrEmptyShell) else
  forM (fun i => map_err (errorf [filename; scope; pretty i]) (arg string node i))
    (seq 0 (length nodeArgs)).

(** ** Secrets *)

(** [pipelinemodel.SecretSource(v)]. *)
Definition SecretSource_of (v : string) : SecretSource :=
  if decide (v = "hostEnv") then SecretSourceHostEnv
  else if decide (v = "file") then SecretSourceFile
  else if decide (v = "cmd") then SecretSourceCmd
  else SecretSourceOther v.

(** The first property in key order, when there is one. *)
Definition first_prop (node : Node) : option string := head (sorted_keys (Properties node)).

Definition reject_props (node : Node) (scope : list string) : result unit :=
  match first_prop node with
  | Some k => fail_with (scope ++ [k]) (Pars ErrUnknownProp)
  | None => Ok tt
  end.

Definition secret_field (field : string) : bool :=
  bool_decide (field ∈ [PropSource; PropVar; PropPath; PropCmd]).

Definition secret_decl_field (filename scope name : string) (acc : gset string * SecretDecl.t)
    (child : Node) : result (gset string * SecretDecl.t) :=
  let '(seen, d) := acc in
  let field := Name child in
  if decide (field ∈ seen) then fail_with [filename; scope; name; field] (Pars ErrDuplicateField) else
  let seen := {[field]} ∪ seen in
  if secret_field field then
    too_many child [filename; scope; name; field];;
    reject_props child [filename; scope; name; field];;
    v ← map_err (errorf [filename; scope; name; field]) (requireStringArg child filename field);
    Ok (seen,
      if decide (field = PropSource) then d <| SecretDecl.Source := SecretSource_of v |>
      else if decide (field = PropVar) then d <| SecretDecl.Var := v |>
      else if decide (field = PropPath) then d <| SecretDecl.Path := v |>
      else d <| SecretDecl.Cmd := v |>)
  else fail_with [filename; scope; name; field] (Pars ErrUnknownNode).

Definition parseSecretDeclNode (node : Node) (filename scope : string) : result SecretDecl.t :=
  name ← map_err (errorf [filename; scope]) (requireStringArg node filename "secret");
  too_many node [filename; scope; name];;
  reject_props node [filename; scope; name];;
  '(_, d) ← foldM (secret_decl_field filename scope name)
    (∅, SecretDecl.mk name (SecretSourceOther "") "" "" "") (childrenOf node);
  if decide (SecretDecl.Source d = SecretSourceOther "")
  then fail_with [filename; scope; name] (Pars ErrMissingField) else Ok d.

Definition parseSecretRefNode (node : Node) (filename scope : string) : result SecretRef.t :=
  name ← map_err (errorf [filename; scope]) (requireStringArg node filename "secret");
  too_many node [filename; scope; name];;
  if decide (0 < length (childrenOf node))
  then fail_with [filename; scope; name] (Pars ErrUnexpectedChildren) else
  envVal ← map_err (errorf [filename; scope; name]) (prop string node PropEnv);
  mountVal ← map_err (errorf [filename; scope; name]) (prop string node PropMount);
  foldM (fun _ k =>
    if decide (k <> PropEnv /\ k <> PropMount)
    then fail_with [filename; scope; name; k] (Pars ErrUnknownProp) else Ok tt)
    tt (sorted_keys (Properties node));;
  Ok (SecretRef.mk name envVal mountVal).

(** ** Mounts and caches (the cases shared by job.go and defaults.go) *)

Definition parseMount (node : Node) (filename scope : string) : result Mount.t :=
  '(s, t) ← stringArgs2 node filename "mount";
  ro ← map_err (errorf [filename; scope]) (prop bool node PropReadonly);
  Ok (Mount.mk s t ro).

Definition parseCache (node : Node) (filename : string) : result Cache.t :=
  '(id, t) ← stringArgs2 node filename "cache";
  Ok (Cache.mk id t).

(** ** defaults.go *)

Definition defaults_field (filename : string) (d : Defaults.t) (child : Node) : result Defaults.t :=
  match NodeType_of (Name child) with
  | NodeTypeImage =>
      v ← requireStringArg child filename "image";
      v ← setOnce (Defaults.Image d) v filename "defaults" "image";
      Ok (d <| Defaults.Image := v |>)
  | NodeTypeWorkdir =>
      v ← requireStringArg child filename "workdir";
      v ← setOnce (Defaults.Workdir d) v filename "defaults" "workdir";
      Ok (d <| Defaults.Workdir := v |>)
  | NodeTypeMount =>
      m ← parseMount child filename "defaults";
      Ok (d <| Defaults.Mounts ::= (fun l => l ++ [m]) |>)
  | NodeTypeEnv =>
      ev ← parseEnvNode child filename "defaults";
      Ok (d <| Defaults.Env ::= (fun l => l ++ [ev]) |>)
  | NodeTypeShell =>
      match Defaults.Shell d with
      | Some _ => fail_with [filename; "shell"] (Pars ErrDuplicateField)
      | None =>
          s ← parseShellNode child filename "defaults";
          Ok (d <| Defaults.Shell := Some s |>)
      end
  | _ => fail_with [filename; Name child] (Pars ErrUnknownNode)
  end.

Definition parseDefaults (node : Node) (filename : string) : result Defaults.t :=
  if decide (0 < length (Arguments node)) then fail_with [filename] (Pars ErrExtraArgs) else
  foldM (defaults_field filename) (Defaults.mk "" "" [] [] None) (childrenOf node).
End elements.
