(* ===== verification/JobParse.v ===== *)
(** * Jobs and steps (job.go)

    The Go functions update a job or step through a pointer and a map of the fields seen;
    here both are threaded through the fold over the children. *)

From stdpp Require Import pretty.
From S2P Require Import Prelude Errors GoStrings Regex Conditional Model Duration Kdl Elements.

Section job.
Context `{kdl : KDL} `{cel : CEL}.

(** [fmt.Sprintf("job %q", name)]; the quoting of the scope in messages is left out. *)
Definition job_scope (name : string) : string := "job " +:+ name.
Definition job_step_scope (jobName name : string) : string := "job " +:+ jobName +:+ " step " +:+ name.

Definition duplicate {A} (filename scope field : string) : result A :=
  fail_with [filename; scope; field] (Pars ErrDuplicateField).

(** The [timeout] case, the same in a job and in a step. *)
Definition parseTimeout (seen : gset string) (node : Node) (filename scope : string)
    : result (Z * gset string) :=
  if decide ("timeout" ∈ seen) then duplicate filename scope "timeout" else
  v ← requireStringArg node filename "timeout";
  d ← parseNonNegative v (PM ErrNegativeTimeout) [filename; scope];
  Ok (d, {["timeout"]} ∪ seen).

(** A flag node: no arguments, at most once. *)
Definition parseFlag (already : bool) (node : Node) (filename scope field : string) : result unit :=
  guard_fail (bool_decide (0 < length (Arguments node)))
    (errorf [filename; scope] (raise (Pars ErrExtraArgs)));;
  guard_fail already (errorf [filename; scope; field] (raise (Pars ErrDuplicateField))).

(** The [shell] case, with the duplicate check before the arguments are read. *)
Definition parseShellOnce (dst : option (list string)) (node : Node) (filename scope : string)
    : result (option (list string)) :=
  match dst with
  | Some _ => duplicate filename scope "shell"
  | None => s ← parseShellNode node filename scope; Ok (Some s)
  end.

Definition applyJobStepField (filename jobName : string) (acc : Step.t * gset string) (node : Node)
    : result (Step.t * gset string) :=
  let '(s, seen) := acc in
  let scope := job_step_scope jobName (Step.Name s) in
  match NodeType_of (Name node) with
  | NodeTypeRun =>
      v ← requireStringArg node filename "run";
      Ok (s <| Step.Run ::= (fun l => l ++ [v]) |>, seen)
  | NodeTypeEnv =>
      ev ← parseEnvNode node filename scope;
      Ok (s <| Step.Env ::= (fun l => l ++ [ev]) |>, seen)
  | NodeTypeWorkdir =>
      v ← requireStringArg node filename "workdir";
      v ← setOnce (Step.Workdir s) v filename scope "workdir";
      Ok (s <| Step.Workdir := v |>, seen)
  | NodeTypeMount =>
      m ← parseMount node filename scope;
      Ok (s <| Step.Mounts ::= (fun l => l ++ [m]) |>, seen)
  | NodeTypeCache =>
      c ← parseCache node filename;
      Ok (s <| Step.Caches ::= (fun l => l ++ [c]) |>, seen)
  | NodeTypeExport =>
      e ← parseExportNode node filename scope;
      Ok (s <| Step.Exports ::= (fun l => l ++ [e]) |>, seen)
  | NodeTypeArtifact =>
      a ← parseArtifactNode node filename scope;
      Ok (s <| Step.Artifacts ::= (fun l => l ++ [a]) |>, seen)
  | NodeTypeWhen =>
      w ← parseWhenNode node filename scope;
      if When.Deferred w then fail_with [filename; scope] (Cond ErrDeferredInStep) else
      w ← setOncePtr (Step.When s) w filename scope "when";
      Ok (s <| Step.When := w |>, seen)
  | NodeTypeTimeout =>
      '(d, seen) ← parseTimeout seen node filename scope;
      Ok (s <| Step.Timeout := d |>, seen)
  | NodeTypeShell =>
      sh ← parseShellOnce (Step.Shell s) node filename scope;
      Ok (s <| Step.Shell := sh |>, seen)
  | NodeTypeSecret =>
      r ← parseSecretRefNode node filename scope;
      Ok (s <| Step.Secrets ::= (fun l => l ++ [r]) |>, seen)
  | NodeTypeNoCache =>
      parseFlag (Step.NoCache s) node filename scope "no-cache";;
      Ok (s <| Step.NoCache := true |>, seen)
  | NodeTypeAllowFailure =>
      parseFlag (Step.AllowFailure s) node filename scope "allow-failure";;
      Ok (s <| Step.AllowFailure := true |>, seen)
  | NodeTypeRetry =>
      r ← parseRetryNode node filename scope;
      r ← setOncePtr (Step.Retry s) r filename scope "retry";
      Ok (s <| Step.Retry := r |>, seen)
  | _ => fail_with [filename; scope; Name node] (Pars ErrUnknownNode)
  end.

Definition parseJobStep (node : Node) (filename jobName : string) : result Step.t :=
  name ← map_err (errorf2 [filename; jobName] (Pars ErrMissingField))
           (requireStringArg node filename "step");
  '(s, _) ← foldM (applyJobStepField filename jobName) (Step.empty name, ∅) (childrenOf node);
  Ok s.

Definition applyJobField (filename : string) (acc : Job.t * gset string) (node : Node)
    : result (Job.t * gset string) :=
  let '(j, seen) := acc in
  let scope := job_scope (Job.Name j) in
  match NodeType_of (Name node) with
  | NodeTypeImage =>
      v ← requireStringArg node filename "image";
      v ← setOnce (Job.Image j) v filename scope "image";
      Ok (j <| Job.Image := v |>, seen)
  | NodeTypeWorkdir =>
      v ← requireStringArg node filename "workdir";
      v ← setOnce (Job.Workdir j) v filename scope "workdir";
      Ok (j <| Job.Workdir := v |>, seen)
  | NodeTypePlatform =>
      v ← requireStringArg node filename "platform";
      v ← setOnce (Job.Platform j) v filename scope "platform";
      Ok (j <| Job.Platform := v |>, seen)
  | NodeTypeDependsOn =>
      v ← requireStringArg node filename "depends-on";
      Ok (j <| Job.DependsOn ::= (fun l => l ++ [v]) |>, seen)
  | NodeTypeMount =>
      m ← parseMount node filename scope;
      Ok (j <| Job.Mounts ::= (fun l => l ++ [m]) |>, seen)
  | NodeTypeCache =>
      c ← parseCache node filename;
      Ok (j <| Job.Caches ::= (fun l => l ++ [c]) |>, seen)
  | NodeTypeEnv =>
      ev ← parseEnvNode node filename scope;
      Ok (j <| Job.Env ::= (fun l => l ++ [ev]) |>, seen)
  | NodeTypeExport =>
      e ← parseExportNode node filename (Job.Name j);
      Ok (j <| Job.Exports ::= (fun l => l ++ [e]) |>, seen)
  | NodeTypeArtifact =>
      a ← parseArtifactNode node filename (Job.Name j);
      Ok (j <| Job.Artifacts ::= (fun l => l ++ [a]) |>, seen)
  | NodeTypeMatrix =>
      m ← parseMatrix node filename scope;
      m ← setOncePtr (Job.Matrix j) m filename scope "matrix";
      Ok (j <| Job.Matrix := m |>, seen)
  | NodeTypeNoCache =>
      parseFlag (Job.NoCache j) node filename scope "no-cache";;
      Ok (j <| Job.NoCache := true |>, seen)
  | NodeTypePublish =>
      p ← parsePublishNode node filename (Job.Name j);
      p ← setOncePtr (Job.Publish j) p filename scope "publish";
      Ok (j <| Job.Publish := p |>, seen)
  | NodeTypeWhen =>
      w ← parseWhenNode node filename scope;
      w ← setOncePtr (Job.When j) w filename scope "when";
      Ok (j <| Job.When := w |>, seen)
  | NodeTypeTimeout =>
      '(d, seen) ← parseTimeout seen node filename scope;
      Ok (j <| Job.Timeout := d |>, seen)
  | NodeTypeRetry =>
      r ← parseRetryNode node filename scope;
      r ← setOncePtr (Job.Retry j) r filename scope "retry";
      Ok (j <| Job.Retry := r |>, seen)
  | NodeTypeShell =>
      sh ← parseShellOnce (Job.Shell j) node filename scope;
      Ok (j <| Job.Shell := sh |>, seen)
  | NodeTypeSecret =>
      r ← parseSecretRefNode node filename scope;
      Ok (j <| Job.Secrets ::= (fun l => l ++ [r]) |>, seen)
  | NodeTypeStep =>
      s ← parseJobStep node filename (Job.Name j);
      Ok (j <| Job.Steps ::= (fun l => l ++ [s]) |>, seen)
  | _ => fail_with [filename; scope; Name node] (Pars ErrUnknownNode)
  end.

Definition parseJob (node : Node) (filename : string) : result Job.t :=
  name ← map_err (errorf2 [filename] (Pars ErrMissingField)) (requireStringArg node filename "job");
  '(j, _) ← foldM (applyJobField filename) (Job.empty name, ∅) (childrenOf node);
  Ok j.

(** [parseBareStep]: a step under a pipeline is a job with a single step; [run],
    [allow-failure] and [retry] go to the step, everything else to the job. *)
Definition bareStepField (filename name : string) (acc : Job.t * Step.t * gset string) (child : Node)
    : result (Job.t * Step.t * gset string) :=
  let '(j, s, seen) := acc in
  match NodeType_of (Name child) with
  | NodeTypeRun =>
      v ← requireStringArg child filename "run";
      Ok (j, s <| Step.Run ::= (fun l => l ++ [v]) |>, seen)
  | NodeTypeAllowFailure =>
      parseFlag (Step.AllowFailure s) child filename name "allow-failure";;
      Ok (j, s <| Step.AllowFailure := true |>, seen)
  | NodeTypeRetry =>
      r ← parseRetryNode child filename ("step " +:+ name);
      r ← setOncePtr (Step.Retry s) r filename ("step " +:+ name) "retry";
      Ok (j, s <| Step.Retry := r |>, seen)
  | NodeTypeStep => fail_with [filename; name; Name child] (Pars ErrUnknownNode)
  | _ =>
      '(j, seen) ← applyJobField filename (j, seen) child;
      Ok (j, s, seen)
  end.

Definition parseBareStep (node : Node) (filename : string) : result Job.t :=
  name ← map_err (errorf2 [filename] (Pars ErrMissingField)) (requireStringArg node filename "step");
  '(j, s, _) ← foldM (bareStepField filename name) (Job.empty name, Step.empty name, ∅) (childrenOf node);
  Ok (j <| Job.Steps := [s] |>).
End job.
