(* ===== verification/ElementPrint.v ===== *)
(** * Printing elements back as KDL nodes

    For every element the parser returns, a printer that builds a node, the predicate that
    describes the parser's results, and the two facts behind the round trip of jobs: the
    parser returns only such elements, and parsing a printed element gives it back. *)

From stdpp Require Import pretty.
From S2P Require Import Prelude Errors GoStrings Regex Conditional Model Names Expand Duration Kdl Elements JobParse.

(** ** [TrimSpace] is idempotent *)

Lemma strip_all_stable strip n l : strip l = None -> strip_all n strip l = l.
Proof. intros H. destruct n; cbn; [done|]. by rewrite H. Qed.

Lemma strip_all_done strip n l :
  (forall l l', strip l = Some l' -> length l' < length l) ->
  length l <= n -> strip (strip_all n strip l) = None.
Proof.
  intros Hs. revert l. induction n as [|n IH]; intros l Hl; cbn.
  - destruct l; [|cbn in Hl; lia]. destruct (strip []) eqn:He; [|done].
    apply Hs in He. cbn in He. lia.
  - destruct (strip l) as [l'|] eqn:He; [|done]. apply IH. apply Hs in He. lia.
Qed.

Lemma strip_space_length l l' : strip_space l = Some l' -> length l' < length l.
Proof. destruct l as [|a [|b [|c l]]]; cbn; repeat case_match; naive_solver lia. Qed.

Lemma strip_space_rev_length l l' : strip_space_rev l = Some l' -> length l' < length l.
Proof. destruct l as [|a [|b [|c l]]]; cbn; repeat case_match; naive_solver lia. Qed.

Lemma strip_space_app l k : strip_space (l ++ k) = None -> strip_space l = None.
Proof. destruct l as [|a [|b [|c l]]]; cbn; repeat case_match; naive_solver. Qed.

Lemma strip_all_suffix strip n l :
  (forall l l', strip l = Some l' -> exists p, l = p ++ l') ->
  exists p, l = p ++ strip_all n strip l.
Proof.
  intros Hs. revert l. induction n as [|n IH]; intros l; cbn; [by exists []|].
  destruct (strip l) as [l'|] eqn:He; [|by exists []].
  apply Hs in He as [p ->]. destruct (IH l') as [q Hq]. exists (p ++ q).
  by rewrite <- app_assoc, <- Hq.
Qed.

Lemma strip_space_rev_suffix l l' : strip_space_rev l = Some l' -> exists p, l = p ++ l'.
Proof.
  destruct l as [|a [|b [|c l]]]; cbn; repeat case_match; intros; simplify_eq;
    try done; try (by exists [a]); try (by exists [a; b]); by exists [a; b; c].
Qed.

Lemma bytes_string_of l : bytes (String.string_of_list_ascii l) = l.
Proof. apply String.list_ascii_of_string_of_list_ascii. Qed.

Lemma TrimSpace_idemp s : TrimSpace (TrimSpace s) = TrimSpace s.
Proof.
  unfold TrimSpace. cbv zeta. rewrite bytes_string_of.
  set (l := strip_all (length (bytes s)) strip_space (bytes s)).
  assert (strip_space l = None) as Hl by (apply strip_all_done; [apply strip_space_length|done]).
  set (r := strip_all (length l) strip_space_rev (reverse l)).
  assert (strip_space_rev r = None) as Hr.
  { apply strip_all_done; [apply strip_space_rev_length|by rewrite length_reverse]. }
  assert (strip_space (reverse r) = None) as Hrr.
  { destruct (strip_all_suffix strip_space_rev (length l) (reverse l) strip_space_rev_suffix) as [p Hp].
    fold r in Hp. apply (f_equal reverse) in Hp. rewrite reverse_involutive, reverse_app in Hp.
    rewrite Hp in Hl. by apply strip_space_app in Hl. }
  rewrite (strip_all_stable strip_space _ (reverse r)) by done.
  rewrite reverse_involutive, strip_all_stable by done. done.
Qed.

Section print.
Context `{kdl : KDL} `{!KdlBuilder kdl} `{cel : CEL}.
Implicit Types (f scope : string) (n : Node).

(** A node with one string argument. *)
Definition leaf (name s : string) : Node := MkNode name [VString s] ∅ [].

Definition printEnv (e : EnvVar.t) : Node :=
  MkNode "env" [VString (EnvVar.Key e); VString (EnvVar.Value e)] ∅ [].
Definition printMount (m : Mount.t) : Node :=
  MkNode "mount" [VString (Mount.Source m); VString (Mount.Target m)]
    {[PropReadonly := VBool (Mount.ReadOnly m)]} [].
Definition printCache (c : Cache.t) : Node :=
  MkNode "cache" [VString (Cache.ID c); VString (Cache.Target c)] ∅ [].
Definition printExport (e : Export_.t) : Node :=
  MkNode "export" [VString (Export_.Path e)] {[PropLocal := VString (Export_.Local e)]} [].
Definition printArtifact (a : Artifact.t) : Node :=
  MkNode "artifact" [VString (Artifact.From a)]
    (<[PropSource := VString (Artifact.Source a)]> {[PropTarget := VString (Artifact.Target a)]}) [].
Definition printPublish (p : Publish.t) : Node :=
  MkNode "publish" [VString (Publish.Image p)]
    (<[PropPush := VBool (Publish.Push p)]> {[PropInsecure := VBool (Publish.Insecure p)]}) [].
Definition printWhen (w : When.t) : Node := leaf "when" (When.Expression w).
Definition printTimeout (d : Z) : Node := leaf "timeout" (print_duration d).
Definition printShell (l : list string) : Node := MkNode "shell" (VString <$> l) ∅ [].
Definition printSecretRef (r : SecretRef.t) : Node :=
  MkNode "secret" [VString (SecretRef.Name r)]
    (<[PropEnv := VString (SecretRef.Env r)]> {[PropMount := VString (SecretRef.Mount r)]}) [].
Definition printDimension (d : Dimension.t) : Node :=
  MkNode (Dimension.Name d) (VString <$> Dimension.Values d) ∅ [].
Definition printMatrix (m : Matrix.t) : Node :=
  MkNode "matrix" [] ∅ (printDimension <$> Matrix.Dimensions m).

Definition backoff_text (b : BackoffStrategy) : string :=
  match b with
  | BackoffUnset => "" | BackoffNone => "none" | BackoffLinear => "linear"
  | BackoffExponential => "exponential" | BackoffOther s => s
  end.
Definition printRetry (r : Retry.t) : Node :=
  MkNode "retry" [] ∅
    [MkNode PropAttempts [VInt (Retry.Attempts r)] ∅ [];
     leaf PropDelay (print_duration (Retry.Delay r));
     leaf PropBackoff (backoff_text (Retry.Backoff r))].

(** ** What the parser returns *)

Definition parsed_export (e : Export_.t) : Prop := Export_.Local e <> "".
Definition parsed_artifact (a : Artifact.t) : Prop := Artifact.Source a <> "" /\ Artifact.Target a <> "".
Definition parsed_when (w : When.t) : Prop :=
  NewWhen (When.Expression w) = Ok w /\ When.Expression w <> "" /\
  TrimSpace (When.Expression w) = When.Expression w.
Definition parsed_duration (d : Z) : Prop := (0 <= d <= MaxInt)%Z.
Definition parsed_retry (r : Retry.t) : Prop :=
  (1 <= Retry.Attempts r <= MaxInt)%Z /\ parsed_duration (Retry.Delay r) /\
  Retry.Backoff r ∈ [BackoffNone; BackoffLinear; BackoffExponential].
Definition parsed_matrix (m : Matrix.t) : Prop := ValidateMatrix (Some m) = Ok tt.

(** ** Parsing what was printed *)

#[local] Ltac built :=
  rewrite ?Name_MkNode, ?Arguments_MkNode, ?Properties_MkNode, ?Children_MkNode,
    ?requireStringArg_built, ?stringArgs2_built.

#[local] Ltac read_props :=
  rewrite ?(bool_decide_false (1 < length _)) by (cbn; lia);
  repeat first [erewrite prop_built_string by reflexivity | erewrite prop_built_bool by reflexivity].

Lemma parseEnvNode_print e f scope : parseEnvNode (printEnv e) f scope = Ok e.
Proof. unfold parseEnvNode, printEnv. built. by destruct e. Qed.

Lemma parseMount_print m f scope : parseMount (printMount m) f scope = Ok m.
Proof. unfold parseMount, printMount. built. read_props. by destruct m. Qed.

Lemma parseCache_print c f : parseCache (printCache c) f = Ok c.
Proof. unfold parseCache, printCache. built. by destruct c. Qed.

Lemma parseExportNode_print e f scope :
  parsed_export e -> parseExportNode (printExport e) f scope = Ok e.
Proof.
  intros He. unfold parseExportNode, printExport. built. read_props. cbn.
  rewrite decide_False by done. by destruct e.
Qed.

Lemma parseArtifactNode_print a f scope :
  parsed_artifact a -> parseArtifactNode (printArtifact a) f scope = Ok a.
Proof.
  intros [Hs Ht]. unfold parseArtifactNode, printArtifact. built. read_props. cbn.
  rewrite !decide_False by done. by destruct a.
Qed.

Lemma parsePublishNode_print p f scope : parsePublishNode (printPublish p) f scope = Ok p.
Proof. unfold parsePublishNode, printPublish. built. read_props. by destruct p. Qed.

Lemma parseWhenNode_print w f scope : parsed_when w -> parseWhenNode (printWhen w) f scope = Ok w.
Proof.
  intros (Hw & Hne & Ht). unfold parseWhenNode, printWhen, leaf. built. read_props. cbn.
  rewrite Ht, decide_False, Hw by done. done.
Qed.

Lemma parseNonNegative_print d s sc :
  parsed_duration d -> parseNonNegative (print_duration d) s sc = Ok d.
Proof.
  intros Hd. unfold parseNonNegative. rewrite ParseDuration_print by exact Hd. cbn.
  rewrite decide_False; [done|]. unfold parsed_duration in Hd. lia.
Qed.

Lemma forM_args n (l : list string) (w : nat -> error -> error) :
  Arguments n = VString <$> l ->
  forM (fun i => map_err (w i) (arg string n i)) (seq 0 (length (Arguments n))) = Ok l.
Proof.
  intros Ha. rewrite Ha, length_fmap. apply forM_Ok. apply Forall2_same_length_lookup_2.
  { by rewrite length_seq. }
  intros i x s Hx Hs. pose proof (lookup_lt_Some _ _ _ Hs). rewrite lookup_seq_lt in Hx by lia.
  injection Hx as <-. apply map_err_Ok, arg_Ok. exists (VString s).
  rewrite Ha, list_lookup_fmap, Hs. split_and!; [done|apply Kind_VString|apply String_VString].
Qed.

Lemma parseShellNode_print l f scope : l <> [] -> parseShellNode (printShell l) f scope = Ok l.
Proof.
  intros Hl. unfold parseShellNode. rewrite decide_False.
  - apply (forM_args (printShell l) l (fun i => errorf [f; scope; pretty i])).
    unfold printShell. by built.
  - unfold printShell. built. by intros ?%fmap_nil_inv.
Qed.

Lemma parseMatrix_print m f scope : parsed_matrix m -> parseMatrix (printMatrix m) f scope = Ok m.
Proof.
  intros Hm. unfold parseMatrix, childrenOf, printMatrix. built.
  assert (forM (parseDimension f scope) (printDimension <$> Matrix.Dimensions m) = Ok (Matrix.Dimensions m)) as ->.
  { apply forM_Ok. rewrite Forall2_fmap_l. apply Forall_Forall2_diag, Forall_true.
    intros d. unfold parseDimension, compose. rewrite (forM_args (printDimension d) (Dimension.Values d)
      (fun i => errorf [f; scope; Name (printDimension d); pretty i])).
    - cbn. unfold printDimension. built. by destruct d.
    - unfold printDimension. by built. }
  cbn. destruct m as [dims]. cbn. unfold parsed_matrix in Hm. cbn in Hm. by rewrite Hm.
Qed.

Lemma BackoffStrategy_text b :
  b ∈ [BackoffNone; BackoffLinear; BackoffExponential] -> BackoffStrategy_of (backoff_text b) = b.
Proof. rewrite !elem_of_cons, elem_of_nil. intros H. by destruct_or? H; subst. Qed.

Lemma retry_step_attempts f scope seen r v :
  PropAttempts ∉ seen -> (1 <= v <= MaxInt)%Z ->
  retry_step f scope (seen, r) (MkNode PropAttempts [VInt v] ∅ [])
  = Ok ({[PropAttempts]} ∪ seen, r <| Retry.Attempts := v |>).
Proof.
  intros Hs Hv. unfold retry_step, too_many. cbv zeta. built. read_props.
  rewrite (decide_False _ _ Hs), decide_True by done.
  assert (arg Z (MkNode PropAttempts [VInt v] ∅ []) 0 = Ok v) as -> by (apply arg_built_int; [unfold is_int; lia|done]).
  cbn. by rewrite decide_False by lia.
Qed.

Lemma retry_step_delay f scope seen r d :
  PropDelay ∉ seen -> parsed_duration d ->
  retry_step f scope (seen, r) (leaf PropDelay (print_duration d))
  = Ok ({[PropDelay]} ∪ seen, r <| Retry.Delay := d |>).
Proof.
  intros Hs Hd. unfold retry_step, too_many, leaf. cbv zeta. built. read_props.
  rewrite (decide_False _ _ Hs), decide_False, decide_True by done.
  cbn [guard_fail map_err mbind res_bind]. rewrite parseNonNegative_print by done. done.
Qed.

Lemma retry_step_backoff f scope seen r b :
  PropBackoff ∉ seen -> b ∈ [BackoffNone; BackoffLinear; BackoffExponential] ->
  retry_step f scope (seen, r) (leaf PropBackoff (backoff_text b))
  = Ok ({[PropBackoff]} ∪ seen, r <| Retry.Backoff := b |>).
Proof.
  intros Hs Hb. unfold retry_step, too_many, leaf. cbv zeta. built. read_props.
  rewrite (decide_False _ _ Hs), !decide_False, decide_True by done.
  cbn [guard_fail map_err mbind res_bind]. rewrite BackoffStrategy_text by done.
  rewrite !elem_of_cons, elem_of_nil in Hb. by destruct_or? Hb; subst.
Qed.

Lemma parseRetryNode_print r f scope :
  parsed_retry r -> parseRetryNode (printRetry r) f scope = Ok r.
Proof.
  intros (Ha & Hd & Hb). unfold parseRetryNode, printRetry, childrenOf. built. cbn [length].
  rewrite decide_False by lia. cbn [foldM].
  rewrite retry_step_attempts by (set_solver || done). cbn [mbind res_bind].
  rewrite retry_step_delay by (set_solver || done). cbn [mbind res_bind].
  rewrite retry_step_backoff by (set_solver || done). by destruct r.
Qed.

Lemma parseSecretRefNode_print r f scope : parseSecretRefNode (printSecretRef r) f scope = Ok r.
Proof.
  unfold parseSecretRefNode, printSecretRef, too_many, childrenOf. built. read_props. cbn -[sorted_keys].
  assert (forall g : unit -> string -> result unit, (forall k, k ∈ [PropEnv; PropMount] -> g tt k = Ok tt) ->
    foldM g tt (sorted_keys (<[PropEnv := VString (SecretRef.Env r)]>
      {[PropMount := VString (SecretRef.Mount r)]})) = Ok tt) as ->.
  - intros g Hg. apply (foldM_unit_Ok _ (fun _ => True)).
    + intros k Hk%elem_of_sorted_keys. rewrite Hg; [done|]. set_solver.
    + by apply Forall_true.
  - by destruct r.
  - intros k Hk. rewrite decide_False; [done|]. set_solver.
Qed.
End print.
