(* ===== verification/JobPrint.v ===== *)
(** * Round trip of jobs and steps

    [printJob] writes a job as a KDL node, [parsed_job] describes the jobs the parser can
    return; [parseJob] inverts [printJob] on them, and both [parseJob] and [parseBareStep]
    return only such jobs. *)

From S2P Require Import Prelude Errors GoStrings Regex Conditional Model Names Expand Duration Kdl Elements JobParse ElementPrint Validate.

Section job_print.
Context `{kdl : KDL} `{!KdlBuilder kdl} `{cel : CEL}.
Implicit Types (f scope : string) (n : Node).

(** ** Printing *)

Definition str_node (name s : string) : list Node := if decide (s = "") then [] else [leaf name s].
Definition flag_node (name : string) (b : bool) : list Node := if b then [MkNode name [] ∅ []] else [].
Definition opt_node {X} (print : X -> Node) (o : option X) : list Node :=
  match o with Some x => [print x] | None => [] end.
Definition timeout_node (d : Z) : list Node := if decide (d = 0)%Z then [] else [printTimeout d].

Definition step_nodes (s : Step.t) : list Node :=
  (leaf "run" <$> Step.Run s) ++ (printEnv <$> Step.Env s) ++ str_node "workdir" (Step.Workdir s) ++
  (printMount <$> Step.Mounts s) ++ (printCache <$> Step.Caches s) ++
  (printSecretRef <$> Step.Secrets s) ++ (printExport <$> Step.Exports s) ++
  (printArtifact <$> Step.Artifacts s) ++ opt_node printWhen (Step.When s) ++
  flag_node "no-cache" (Step.NoCache s) ++ timeout_node (Step.Timeout s) ++
  opt_node printShell (Step.Shell s) ++ opt_node printRetry (Step.Retry s) ++
  flag_node "allow-failure" (Step.AllowFailure s).

Definition printStep (s : Step.t) : Node := MkNode "step" [VString (Step.Name s)] ∅ (step_nodes s).

Definition job_nodes (j : Job.t) : list Node :=
  str_node "image" (Job.Image j) ++ str_node "workdir" (Job.Workdir j) ++
  str_node "platform" (Job.Platform j) ++ (leaf "depends-on" <$> Job.DependsOn j) ++
  (printMount <$> Job.Mounts j) ++ (printCache <$> Job.Caches j) ++ (printEnv <$> Job.Env j) ++
  (printExport <$> Job.Exports j) ++ (printArtifact <$> Job.Artifacts j) ++
  (printSecretRef <$> Job.Secrets j) ++ (printStep <$> Job.Steps j) ++
  opt_node printWhen (Job.When j) ++ opt_node printMatrix (Job.Matrix j) ++
  flag_node "no-cache" (Job.NoCache j) ++ opt_node printPublish (Job.Publish j) ++
  timeout_node (Job.Timeout j) ++ opt_node printRetry (Job.Retry j) ++
  opt_node printShell (Job.Shell j).

Definition printJob (j : Job.t) : Node := MkNode "job" [VString (Job.Name j)] ∅ (job_nodes j).

(** ** What the parser returns *)

Definition opt_all {X} (P : X -> Prop) (o : option X) : Prop := forall x, o = Some x -> P x.

Record parsed_step (s : Step.t) : Prop := {
  ps_exports : Forall parsed_export (Step.Exports s);
  ps_artifacts : Forall parsed_artifact (Step.Artifacts s);
  ps_when : opt_all (fun w => parsed_when w /\ When.Deferred w = false) (Step.When s);
  ps_timeout : parsed_duration (Step.Timeout s);
  ps_shell : opt_all (fun l => l <> []) (Step.Shell s);
  ps_retry : opt_all parsed_retry (Step.Retry s)
}.

Record parsed_job (j : Job.t) : Prop := {
  pj_exports : Forall parsed_export (Job.Exports j);
  pj_artifacts : Forall parsed_artifact (Job.Artifacts j);
  pj_steps : Forall parsed_step (Job.Steps j);
  pj_when : opt_all parsed_when (Job.When j);
  pj_matrix : opt_all parsed_matrix (Job.Matrix j);
  pj_values : Job.MatrixValues j = None;
  pj_timeout : parsed_duration (Job.Timeout j);
  pj_retry : opt_all parsed_retry (Job.Retry j);
  pj_shell : opt_all (fun l => l <> []) (Job.Shell j)
}.

(** ** Segments of the children *)

Section segments.
Context {S : Type} (step : S * gset string -> Node -> result (S * gset string)).
Implicit Types (s : S) (seen : gset string).

Lemma segment {X} (print : X -> Node) (upd : list X -> S -> S) (P : X -> Prop) l s seen :
  (forall s, upd [] s = s) -> (forall s a l, upd l (upd [a] s) = upd (a :: l) s) ->
  (forall s seen x, P x -> step (s, seen) (print x) = Ok (upd [x] s, seen)) ->
  Forall P l -> foldM step (s, seen) (print <$> l) = Ok (upd l s, seen).
Proof.
  intros Hnil Hcons Hstep HF. revert s. induction HF as [|x l Hx _ IH]; intros s; cbn.
  - by rewrite Hnil.
  - rewrite Hstep by done. cbn. by rewrite IH, Hcons.
Qed.

Lemma segment_str (get : S -> string) (set : string -> S -> S) name v s seen :
  set "" s = s ->
  (v <> "" -> step (s, seen) (leaf name v) = Ok (set v s, seen)) ->
  foldM step (s, seen) (str_node name v) = Ok (set v s, seen).
Proof.
  intros Hid Hstep. unfold str_node. case_decide as Hv; cbn; [by rewrite Hv, Hid|].
  by rewrite Hstep.
Qed.

Lemma segment_opt {X} (print : X -> Node) (set : option X -> S -> S) (P : X -> Prop) o s seen :
  set None s = s -> opt_all P o ->
  (forall x, P x -> step (s, seen) (print x) = Ok (set (Some x) s, seen)) ->
  foldM step (s, seen) (opt_node print o) = Ok (set o s, seen).
Proof.
  intros Hid HP Hstep. destruct o as [x|]; cbn; [|by rewrite Hid].
  rewrite Hstep; [done|by apply HP].
Qed.

Lemma segment_flag (set : bool -> S -> S) name b s seen :
  set false s = s ->
  step (s, seen) (MkNode name [] ∅ []) = Ok (set true s, seen) ->
  foldM step (s, seen) (flag_node name b) = Ok (set b s, seen).
Proof. intros Hid Hstep. destruct b; cbn; [by rewrite Hstep|by rewrite Hid]. Qed.

Lemma segment_timeout (set : Z -> S -> S) d s :
  set 0%Z s = s ->
  (step (s, ∅) (printTimeout d) = Ok (set d s, {["timeout"]})) ->
  exists seen, foldM step (s, ∅) (timeout_node d) = Ok (set d s, seen).
Proof.
  intros Hid Hstep. unfold timeout_node. case_decide as Hd; cbn.
  - rewrite Hd, Hid. eauto.
  - rewrite Hstep. cbn. eauto.
Qed.
End segments.

(** ** Steps *)

(** Select the case of a field by the name of the printed node. *)
#[local] Ltac select_case nm :=
  match goal with |- context [NodeType_of (Name ?n)] =>
    let H := fresh in
    assert (Name n = nm) as H by apply Name_MkNode; rewrite H; clear H end;
  let t := eval vm_compute in (NodeType_of nm) in change (NodeType_of nm) with t;
  cbv beta iota zeta.

#[local] Ltac eta := let x := fresh in intros x; destruct x; cbn; rewrite ?app_nil_r; reflexivity.
#[local] Ltac assoc := let x := fresh in intros x ? ?; destruct x; cbn; rewrite <- ?app_assoc; reflexivity.

Lemma parseTimeout_print d f scope :
  parsed_duration d -> parseTimeout ∅ (printTimeout d) f scope = Ok (d, {["timeout"]} ∪ ∅).
Proof.
  intros Hd. unfold parseTimeout. rewrite decide_False by set_solver.
  unfold printTimeout, leaf. rewrite requireStringArg_built. cbn -[parseNonNegative].
  by rewrite parseNonNegative_print.
Qed.

Lemma parseFlag_print name f scope :
  parseFlag false (MkNode name [] ∅ []) f scope name = Ok tt.
Proof. unfold parseFlag. by rewrite Arguments_MkNode. Qed.

(** A field that collects a list, a string, a pointer or a flag. *)
#[local] Ltac list_field step upd P nm lem :=
  apply (segment _ _ upd P);
    [eta|assoc|intros; unfold step, leaf; select_case nm; by rewrite lem
    |first [assumption|by apply Forall_true]].
#[local] Ltac str_field step get upd nm :=
  let H := fresh in intros H; apply (segment_str _ get upd);
    [match goal with x : _ |- _ => destruct x; cbn in *; by subst end
    |intros; unfold step, leaf; select_case nm; rewrite requireStringArg_built; cbn [mbind res_bind];
     unfold setOnce; by rewrite decide_True].
#[local] Ltac opt_field step upd P nm lem :=
  let H := fresh in intros H; intros; apply (segment_opt _ _ upd P);
    [match goal with x : _ |- _ => destruct x; cbn in *; by subst end
    |first [assumption|by intros ? ?]
    |intros; unfold step; select_case nm; rewrite H; unfold parseShellOnce;
     by rewrite lem by assumption].

(** Run the segments of the children one after the other. *)
#[local] Ltac next lem :=
  rewrite foldM_app, lem by first [reflexivity|assumption]; cbn [mbind res_bind].
#[local] Ltac next_timeout lem :=
  rewrite foldM_app;
  match goal with |- context [timeout_node ?d] =>
    match goal with |- context [foldM _ (?s, ∅) (timeout_node d)] =>
      let seen := fresh "seen" in let Ht := fresh in
      destruct (lem s d) as [seen Ht]; [reflexivity|assumption|rewrite Ht; clear Ht]
    end end; cbn [mbind res_bind].

Section step.
Variable f jobName : string.
Notation go := (foldM (applyJobStepField f jobName)).
Implicit Types (s : Step.t) (seen : gset string).

Lemma step_run s seen l :
  go (s, seen) (leaf "run" <$> l) = Ok (s <| Step.Run ::= (fun k => k ++ l) |>, seen).
Proof.
  intros. list_field @applyJobStepField (fun (l : list string) (s : Step.t) => s <| Step.Run ::= (fun k => k ++ l) |>)
    (fun _ : string => True) "run" requireStringArg_built.
Qed.

Lemma step_env s seen l :
  go (s, seen) (printEnv <$> l) = Ok (s <| Step.Env ::= (fun k => k ++ l) |>, seen).
Proof.
  intros. list_field @applyJobStepField (fun (l : list EnvVar.t) (s : Step.t) => s <| Step.Env ::= (fun k => k ++ l) |>)
    (fun _ : EnvVar.t => True) "env" parseEnvNode_print.
Qed.

Lemma step_mounts s seen l :
  go (s, seen) (printMount <$> l) = Ok (s <| Step.Mounts ::= (fun k => k ++ l) |>, seen).
Proof.
  intros. list_field @applyJobStepField (fun (l : list Mount.t) (s : Step.t) => s <| Step.Mounts ::= (fun k => k ++ l) |>)
    (fun _ : Mount.t => True) "mount" parseMount_print.
Qed.

Lemma step_caches s seen l :
  go (s, seen) (printCache <$> l) = Ok (s <| Step.Caches ::= (fun k => k ++ l) |>, seen).
Proof.
  intros. list_field @applyJobStepField (fun (l : list Cache.t) (s : Step.t) => s <| Step.Caches ::= (fun k => k ++ l) |>)
    (fun _ : Cache.t => True) "cache" parseCache_print.
Qed.

Lemma step_secrets s seen l :
  go (s, seen) (printSecretRef <$> l) = Ok (s <| Step.Secrets ::= (fun k => k ++ l) |>, seen).
Proof.
  intros. list_field @applyJobStepField (fun (l : list SecretRef.t) (s : Step.t) => s <| Step.Secrets ::= (fun k => k ++ l) |>)
    (fun _ : SecretRef.t => True) "secret" parseSecretRefNode_print.
Qed.

Lemma step_exports s seen l :
  Forall parsed_export l ->
  go (s, seen) (printExport <$> l) = Ok (s <| Step.Exports ::= (fun k => k ++ l) |>, seen).
Proof.
  intros. list_field @applyJobStepField (fun (l : list Export_.t) (s : Step.t) => s <| Step.Exports ::= (fun k => k ++ l) |>)
    parsed_export "export" parseExportNode_print.
Qed.

Lemma step_artifacts s seen l :
  Forall parsed_artifact l ->
  go (s, seen) (printArtifact <$> l) = Ok (s <| Step.Artifacts ::= (fun k => k ++ l) |>, seen).
Proof.
  intros. list_field @applyJobStepField (fun (l : list Artifact.t) (s : Step.t) => s <| Step.Artifacts ::= (fun k => k ++ l) |>)
    parsed_artifact "artifact" parseArtifactNode_print.
Qed.

Lemma step_workdir s seen v :
  Step.Workdir s = "" -> go (s, seen) (str_node "workdir" v) = Ok (s <| Step.Workdir := v |>, seen).
Proof. str_field @applyJobStepField Step.Workdir (fun v (s : Step.t) => s <| Step.Workdir := v |>) "workdir". Qed.

Lemma step_nocache s seen b :
  Step.NoCache s = false -> go (s, seen) (flag_node "no-cache" b) = Ok (s <| Step.NoCache := b |>, seen).
Proof.
  intros Hb. apply (segment_flag _ (fun b (s : Step.t) => s <| Step.NoCache := b |>)).
  - destruct s. cbn in *. by subst.
  - unfold applyJobStepField. select_case "no-cache". by rewrite Hb, parseFlag_print.
Qed.

Lemma step_timeout s d :
  Step.Timeout s = 0%Z -> parsed_duration d ->
  exists seen, go (s, ∅) (timeout_node d) = Ok (s <| Step.Timeout := d |>, seen).
Proof.
  intros H0 Hd. apply (segment_timeout _ (fun d (s : Step.t) => s <| Step.Timeout := d |>)).
  - destruct s. cbn in *. by subst.
  - unfold applyJobStepField. select_case "timeout". by rewrite parseTimeout_print.
Qed.

Lemma step_retry s seen o :
  Step.Retry s = None -> opt_all parsed_retry o ->
  go (s, seen) (opt_node printRetry o) = Ok (s <| Step.Retry := o |>, seen).
Proof.
  opt_field @applyJobStepField (fun (o : option Retry.t) (s : Step.t) => s <| Step.Retry := o |>)
    parsed_retry "retry" parseRetryNode_print.
Qed.

Lemma step_shell s seen o :
  Step.Shell s = None -> opt_all (fun l : list string => l <> []) o ->
  go (s, seen) (opt_node printShell o) = Ok (s <| Step.Shell := o |>, seen).
Proof.
  opt_field @applyJobStepField (fun (o : option (list string)) (s : Step.t) => s <| Step.Shell := o |>)
    (fun l : list string => l <> []) "shell" parseShellNode_print.
Qed.

Lemma step_allowfailure s seen b :
  Step.AllowFailure s = false -> go (s, seen) (flag_node "allow-failure" b) = Ok (s <| Step.AllowFailure := b |>, seen).
Proof.
  intros Hb. apply (segment_flag _ (fun b (s : Step.t) => s <| Step.AllowFailure := b |>)).
  - destruct s. cbn in *. by subst.
  - unfold applyJobStepField. select_case "allow-failure". by rewrite Hb, parseFlag_print.
Qed.

Lemma step_when s seen o :
  Step.When s = None -> opt_all (fun w => parsed_when w /\ When.Deferred w = false) o ->
  go (s, seen) (opt_node printWhen o) = Ok (s <| Step.When := o |>, seen).
Proof.
  intros Hn Ho. apply (segment_opt _ _ (fun o (s : Step.t) => s <| Step.When := o |>)
    (fun w => parsed_when w /\ When.Deferred w = false)).
  - destruct s. cbn in *. by subst.
  - done.
  - intros w [Hw Hd]. unfold applyJobStepField. select_case "when".
    rewrite parseWhenNode_print by done. cbn [mbind res_bind]. by rewrite Hd, Hn.
Qed.

Lemma parseJobStep_print s : parsed_step s -> parseJobStep (printStep s) f jobName = Ok s.
Proof.
  destruct s. intros []. cbn in *. unfold parseJobStep, printStep. rewrite requireStringArg_built.
  unfold childrenOf. rewrite Children_MkNode. cbn [map_err mbind res_bind]. unfold step_nodes. cbn.
  next step_run. next step_env. next step_workdir. next step_mounts. next step_caches.
  next step_secrets. next step_exports. next step_artifacts. next step_when. next step_nocache.
  next_timeout step_timeout. next step_shell. next step_retry.
  by rewrite step_allowfailure by reflexivity.
Qed.
End step.

(** ** Jobs *)

Section job.
Variable f : string.
Notation go := (foldM (applyJobField f)).
Implicit Types (j : Job.t) (seen : gset string).

Lemma job_dependson j seen l :
  go (j, seen) (leaf "depends-on" <$> l) = Ok (j <| Job.DependsOn ::= (fun k => k ++ l) |>, seen).
Proof.
  intros. list_field @applyJobField (fun (l : list string) (j : Job.t) => j <| Job.DependsOn ::= (fun k => k ++ l) |>)
    (fun _ : string => True) "depends-on" requireStringArg_built.
Qed.

Lemma job_steps j seen l :
  Forall parsed_step l ->
  go (j, seen) (printStep <$> l) = Ok (j <| Job.Steps ::= (fun k => k ++ l) |>, seen).
Proof.
  intros. list_field @applyJobField (fun (l : list Step.t) (j : Job.t) => j <| Job.Steps ::= (fun k => k ++ l) |>)
    parsed_step "step" parseJobStep_print.
Qed.

Lemma job_image j seen v :
  Job.Image j = "" -> go (j, seen) (str_node "image" v) = Ok (j <| Job.Image := v |>, seen).
Proof. str_field @applyJobField Job.Image (fun v (j : Job.t) => j <| Job.Image := v |>) "image". Qed.

Lemma job_platform j seen v :
  Job.Platform j = "" -> go (j, seen) (str_node "platform" v) = Ok (j <| Job.Platform := v |>, seen).
Proof. str_field @applyJobField Job.Platform (fun v (j : Job.t) => j <| Job.Platform := v |>) "platform". Qed.

Lemma job_env j seen l :
  go (j, seen) (printEnv <$> l) = Ok (j <| Job.Env ::= (fun k => k ++ l) |>, seen).
Proof.
  intros. list_field @applyJobField (fun (l : list EnvVar.t) (j : Job.t) => j <| Job.Env ::= (fun k => k ++ l) |>)
    (fun _ : EnvVar.t => True) "env" parseEnvNode_print.
Qed.

Lemma job_mounts j seen l :
  go (j, seen) (printMount <$> l) = Ok (j <| Job.Mounts ::= (fun k => k ++ l) |>, seen).
Proof.
  intros. list_field @applyJobField (fun (l : list Mount.t) (j : Job.t) => j <| Job.Mounts ::= (fun k => k ++ l) |>)
    (fun _ : Mount.t => True) "mount" parseMount_print.
Qed.

Lemma job_caches j seen l :
  go (j, seen) (printCache <$> l) = Ok (j <| Job.Caches ::= (fun k => k ++ l) |>, seen).
Proof.
  intros. list_field @applyJobField (fun (l : list Cache.t) (j : Job.t) => j <| Job.Caches ::= (fun k => k ++ l) |>)
    (fun _ : Cache.t => True) "cache" parseCache_print.
Qed.

Lemma job_secrets j seen l :
  go (j, seen) (printSecretRef <$> l) = Ok (j <| Job.Secrets ::= (fun k => k ++ l) |>, seen).
Proof.
  intros. list_field @applyJobField (fun (l : list SecretRef.t) (j : Job.t) => j <| Job.Secrets ::= (fun k => k ++ l) |>)
    (fun _ : SecretRef.t => True) "secret" parseSecretRefNode_print.
Qed.

Lemma job_exports j seen l :
  Forall parsed_export l ->
  go (j, seen) (printExport <$> l) = Ok (j <| Job.Exports ::= (fun k => k ++ l) |>, seen).
Proof.
  intros. list_field @applyJobField (fun (l : list Export_.t) (j : Job.t) => j <| Job.Exports ::= (fun k => k ++ l) |>)
    parsed_export "export" parseExportNode_print.
Qed.

Lemma job_artifacts j seen l :
  Forall parsed_artifact l ->
  go (j, seen) (printArtifact <$> l) = Ok (j <| Job.Artifacts ::= (fun k => k ++ l) |>, seen).
Proof.
  intros. list_field @applyJobField (fun (l : list Artifact.t) (j : Job.t) => j <| Job.Artifacts ::= (fun k => k ++ l) |>)
    parsed_artifact "artifact" parseArtifactNode_print.
Qed.

Lemma job_workdir j seen v :
  Job.Workdir j = "" -> go (j, seen) (str_node "workdir" v) = Ok (j <| Job.Workdir := v |>, seen).
Proof. str_field @applyJobField Job.Workdir (fun v (j : Job.t) => j <| Job.Workdir := v |>) "workdir". Qed.

Lemma job_nocache j seen b :
  Job.NoCache j = false -> go (j, seen) (flag_node "no-cache" b) = Ok (j <| Job.NoCache := b |>, seen).
Proof.
  intros Hb. apply (segment_flag _ (fun b (j : Job.t) => j <| Job.NoCache := b |>)).
  - destruct j. cbn in *. by subst.
  - unfold applyJobField. select_case "no-cache". by rewrite Hb, parseFlag_print.
Qed.

Lemma job_timeout j d :
  Job.Timeout j = 0%Z -> parsed_duration d ->
  exists seen, go (j, ∅) (timeout_node d) = Ok (j <| Job.Timeout := d |>, seen).
Proof.
  intros H0 Hd. apply (segment_timeout _ (fun d (j : Job.t) => j <| Job.Timeout := d |>)).
  - destruct j. cbn in *. by subst.
  - unfold applyJobField. select_case "timeout". by rewrite parseTimeout_print.
Qed.

Lemma job_retry j seen o :
  Job.Retry j = None -> opt_all parsed_retry o ->
  go (j, seen) (opt_node printRetry o) = Ok (j <| Job.Retry := o |>, seen).
Proof.
  opt_field @applyJobField (fun (o : option Retry.t) (j : Job.t) => j <| Job.Retry := o |>)
    parsed_retry "retry" parseRetryNode_print.
Qed.

Lemma job_shell j seen o :
  Job.Shell j = None -> opt_all (fun l : list string => l <> []) o ->
  go (j, seen) (opt_node printShell o) = Ok (j <| Job.Shell := o |>, seen).
Proof.
  opt_field @applyJobField (fun (o : option (list string)) (j : Job.t) => j <| Job.Shell := o |>)
    (fun l : list string => l <> []) "shell" parseShellNode_print.
Qed.

Lemma job_when j seen o :
  Job.When j = None -> opt_all parsed_when o ->
  go (j, seen) (opt_node printWhen o) = Ok (j <| Job.When := o |>, seen).
Proof.
  opt_field @applyJobField (fun (o : option When.t) (j : Job.t) => j <| Job.When := o |>)
    parsed_when "when" parseWhenNode_print.
Qed.

Lemma job_matrix j seen o :
  Job.Matrix j = None -> opt_all parsed_matrix o ->
  go (j, seen) (opt_node printMatrix o) = Ok (j <| Job.Matrix := o |>, seen).
Proof.
  opt_field @applyJobField (fun (o : option Matrix.t) (j : Job.t) => j <| Job.Matrix := o |>)
    parsed_matrix "matrix" parseMatrix_print.
Qed.

Lemma job_publish j seen o :
  Job.Publish j = None ->
  go (j, seen) (opt_node printPublish o) = Ok (j <| Job.Publish := o |>, seen).
Proof.
  opt_field @applyJobField (fun (o : option Publish.t) (j : Job.t) => j <| Job.Publish := o |>)
    (fun _ : Publish.t => True) "publish" parsePublishNode_print.
Qed.

Lemma parseJob_print j : parsed_job j -> parseJob (printJob j) f = Ok j.
Proof.
  destruct j. intros []. cbn in *. subst. unfold parseJob, printJob. rewrite requireStringArg_built.
  unfold childrenOf. rewrite Children_MkNode. cbn [map_err mbind res_bind]. unfold job_nodes. cbn.
  next job_image. next job_workdir. next job_platform. next job_dependson. next job_mounts.
  next job_caches. next job_env. next job_exports. next job_artifacts. next job_secrets.
  next job_steps. next job_when. next job_matrix. next job_nocache. next job_publish.
  next_timeout job_timeout. next job_retry.
  by rewrite job_shell by first [reflexivity|assumption].
Qed.
End job.

(** ** The parser returns printable values *)

Lemma parseExportNode_parsed n f scope e : parseExportNode n f scope = Ok e -> parsed_export e.
Proof. unfold parseExportNode. intros. inv_ok. case_decide; inv_res. done. Qed.

Lemma parseArtifactNode_parsed n f scope a : parseArtifactNode n f scope = Ok a -> parsed_artifact a.
Proof. unfold parseArtifactNode. intros. inv_ok. case_decide; inv_res. case_decide; inv_res. done. Qed.

Lemma parseWhenNode_parsed n f scope w : parseWhenNode n f scope = Ok w -> parsed_when w.
Proof.
  unfold parseWhenNode. intros. inv_ok. case_decide as Hne; inv_res.
  match goal with H : NewWhen _ = Ok w |- _ => pose proof H as Hw; apply NewWhen_Ok in H as (d & _ & ->) end.
  split_and!; [done|done|apply TrimSpace_idemp].
Qed.

Lemma parseNonNegative_parsed v s sc d : parseNonNegative v s sc = Ok d -> parsed_duration d.
Proof.
  unfold parseNonNegative. intros. inv_ok. case_decide; inv_res.
  match goal with H : ParseDuration _ = _ |- _ => apply ParseDuration_range in H end.
  unfold parsed_duration. lia.
Qed.

Lemma parseTimeout_parsed seen n f scope d seen' :
  parseTimeout seen n f scope = Ok (d, seen') -> parsed_duration d.
Proof.
  unfold parseTimeout, duplicate. case_decide; [done|]. intros. inv_ok. by eapply parseNonNegative_parsed.
Qed.

Lemma parseMatrix_parsed n f scope m : parseMatrix n f scope = Ok m -> parsed_matrix m.
Proof. unfold parseMatrix. intros. inv_ok. done. Qed.

Lemma parseShellOnce_parsed o n f scope o' :
  parseShellOnce o n f scope = Ok o' -> opt_all (fun l => l <> []) o'.
Proof.
  unfold parseShellOnce, duplicate. destruct o; [done|]. intros. inv_ok.
  unfold parseShellNode in *. case_decide as Hne; [done|].
  match goal with H : forM _ _ = _ |- _ => apply forM_length in H as Hl end.
  intros l [= <-] ->. rewrite length_seq in Hl. by destruct (Arguments n).
Qed.

Lemma retry_step_parsed f scope seen r n acc :
  parsed_retry r -> retry_step f scope (seen, r) n = Ok acc -> parsed_retry acc.2.
Proof.
  intros (Ha & Hd & Hb). unfold retry_step. cbv zeta.
  case_decide; [done|]. case_decide; [|case_decide; [|case_decide; [|done]]]; intros; inv_ok.
  - case_decide; inv_res. split; [|done]. cbn.
    match goal with H : _ = Ok x0 |- _ => apply arg_int_range in H as [_ H] end. lia.
  - split; [done|]. split; [|done]. cbn. by eapply parseNonNegative_parsed.
  - destruct (BackoffStrategy_of _) eqn:Hbs; inv_res; (split; [done|]); (split; [done|]); cbn; set_solver.
Qed.

Lemma parseRetryNode_parsed n f scope r : parseRetryNode n f scope = Ok r -> parsed_retry r.
Proof.
  unfold parseRetryNode. case_decide; [done|]. intros. inv_ok. destruct x as [seen r']. inv_ok.
  match goal with H : foldM _ _ _ = _ |- _ =>
    apply (foldM_inv (fun _ (acc : gset string * Retry.t) => parsed_retry acc.2)) in H end.
  - done.
  - split; [cbn; unfold MaxInt; lia|]. split; [unfold parsed_duration, MaxInt; cbn; lia|set_solver].
  - intros ? [? ?] ? ? _ ? ?. by eapply retry_step_parsed.
Qed.

(** ** Every field preserves the invariant *)

Lemma setOncePtr_all {X} (P : X -> Prop) dst v f scope field o :
  setOncePtr dst v f scope field = Ok o -> P v -> opt_all P o.
Proof. intros [_ ->]%setOncePtr_Ok HP x [= <-]. done. Qed.

Lemma Forall_snoc_2 {X} (P : X -> Prop) l x : Forall P l -> P x -> Forall P (l ++ [x]).
Proof. intros. apply Forall_app. by rewrite Forall_singleton. Qed.

#[local] Hint Resolve Forall_snoc_2 parseExportNode_parsed parseArtifactNode_parsed
  parseWhenNode_parsed parseTimeout_parsed parseMatrix_parsed parseShellOnce_parsed
  parseRetryNode_parsed setOncePtr_all : parsed.

(** Open the successful branch of a field. *)
#[local] Ltac open_field :=
  repeat (inv_res; match goal with
  | H : (let '(_, _) := ?x in _) = Ok _ |- _ => destruct x
  | H : (if When.Deferred ?w then _ else _) = Ok _ |- _ => destruct (When.Deferred w) eqn:?
  end); inv_res.

Lemma applyJobStepField_parsed f jobName s seen n acc :
  parsed_step s -> applyJobStepField f jobName (s, seen) n = Ok acc -> parsed_step acc.1.
Proof.
  intros []. unfold applyJobStepField. cbv zeta.
  destruct (NodeType_of (Name n)); intros; try discriminate; open_field;
    constructor; cbn; eauto with parsed.
Qed.

Lemma parseJobStep_parsed n f jobName s : parseJobStep n f jobName = Ok s -> parsed_step s.
Proof.
  unfold parseJobStep. intros. open_field.
  match goal with H : foldM _ _ _ = _ |- _ =>
    apply (foldM_inv (fun _ (acc : Step.t * gset string) => parsed_step acc.1)) in H end.
  - done.
  - constructor; cbn; try constructor; done.
  - intros ? [? ?] ? ? _ ? ?. by eapply applyJobStepField_parsed.
Qed.

#[local] Hint Resolve parseJobStep_parsed : parsed.

Lemma applyJobField_parsed f j seen n acc :
  parsed_job j -> applyJobField f (j, seen) n = Ok acc -> parsed_job acc.1.
Proof.
  intros []. unfold applyJobField. cbv zeta.
  destruct (NodeType_of (Name n)); intros; try discriminate; open_field;
    constructor; cbn; eauto with parsed.
Qed.

Lemma parsed_job_empty name : parsed_job (Job.empty name).
Proof. constructor; cbn; try constructor; done. Qed.

Lemma parsed_step_empty name : parsed_step (Step.empty name).
Proof. constructor; cbn; try constructor; done. Qed.

Lemma parseJob_parsed n f j : parseJob n f = Ok j -> parsed_job j.
Proof.
  unfold parseJob. intros. open_field.
  match goal with H : foldM _ _ _ = _ |- _ =>
    apply (foldM_inv (fun _ (acc : Job.t * gset string) => parsed_job acc.1)) in H end.
  - done.
  - apply parsed_job_empty.
  - intros ? [? ?] ? ? _ ? ?. by eapply applyJobField_parsed.
Qed.

Lemma bareStepField_parsed f name j s seen n acc :
  parsed_job j -> parsed_step s -> bareStepField f name (j, s, seen) n = Ok acc ->
  parsed_job acc.1.1 /\ parsed_step acc.1.2.
Proof.
  intros Hj Hs. unfold bareStepField. cbv zeta.
  destruct (NodeType_of (Name n)); intros; try discriminate; open_field; cbn;
    (split; [first [assumption
      |match goal with H : applyJobField _ _ _ = Ok (?j', _) |- _ => exact (applyJobField_parsed _ _ _ _ _ Hj H) end]|
      first [assumption|destruct Hs; constructor; cbn; eauto with parsed]]).
Qed.

Lemma parseBareStep_parsed n f j : parseBareStep n f = Ok j -> parsed_job j.
Proof.
  unfold parseBareStep. intros. open_field.
  match goal with H : foldM _ _ _ = _ |- _ =>
    apply (foldM_inv (fun _ (acc : Job.t * Step.t * gset string) =>
      parsed_job acc.1.1 /\ parsed_step acc.1.2)) in H as [[] ?] end.
  - constructor; cbn; try assumption. by apply Forall_singleton.
  - split; [apply parsed_job_empty|apply parsed_step_empty].
  - intros ? [[? ?] ?] ? ? _ [? ?] ?. by eapply bareStepField_parsed.
Qed.

(** ** The checks of [Validate] *)

Lemma retry_checked scope r : opt_all parsed_retry r -> validateRetry scope r = Ok tt.
Proof.
  intros Hr. destruct r as [r|]; [|done]. destruct (Hr r eq_refl) as (Ha & [Hd _] & Hb).
  cbn. rewrite decide_False by lia. rewrite decide_False by lia.
  rewrite !elem_of_cons, elem_of_nil in Hb. destruct_or? Hb; try rewrite Hb; done.
Qed.

Lemma timeout_checked scope d :
  parsed_duration d -> validateTimeout scope d = Ok tt /\ (d <= MaxInt)%Z.
Proof.
  intros [Hd Hm]. split; [|done]. unfold validateTimeout. by rewrite decide_False by lia.
Qed.

Lemma shell_checked scope (s : option (list string)) :
  opt_all (fun l => l <> []) s -> validateShell scope s = Ok tt.
Proof. intros Hs. destruct s as [[|]|]; [by destruct (Hs [] eq_refl)|done..]. Qed.

(** The fields that [Validate] checks on their own. *)
Definition fields_checked (scope : string) (r : option Retry.t) (d : Z) (s : option (list string)) : Prop :=
  validateRetry scope r = Ok tt /\ validateTimeout scope d = Ok tt /\ validateShell scope s = Ok tt /\
  (d <= MaxInt)%Z.

Lemma parsed_checked scope r d (s : option (list string)) :
  opt_all parsed_retry r -> parsed_duration d -> opt_all (fun l => l <> []) s ->
  fields_checked scope r d s.
Proof.
  intros. split_and!; [by apply retry_checked|by apply timeout_checked|by apply shell_checked
    |by apply (timeout_checked scope)].
Qed.

(** ** Properties *)

(** Whatever a [job] node or a bare [step] node parses to can be written back as a
    [job] node that parses, in any file, to the very same job: no field is lost, reordered
    within its list or read differently (durations in nanoseconds, retries, conditions,
    matrices, secrets and nested steps included), and a bare step means exactly the
    single-step job it is sugar for. *)
Theorem parse_print_job n f f' j
  (Hparse : parseJob n f = Ok j \/ parseBareStep n f = Ok j) :
  parseJob (printJob j) f' = Ok j.
Proof.
  apply parseJob_print. destruct Hparse as [H|H];
    [by eapply parseJob_parsed|by eapply parseBareStep_parsed].
Qed.

(** The checks the parser makes while reading subsume the field checks of [Validate]: on
    a parsed job and on each of its steps, [validateRetry], [validateTimeout] and
    [validateShell] succeed, the matrix passes [ValidateMatrix], timeouts fit in 63 bits,
    every condition is one [NewWhen] built, and no condition of a step is deferred. *)
Theorem parse_job_checked n f j scope
  (Hparse : parseJob n f = Ok j \/ parseBareStep n f = Ok j) :
  fields_checked scope (Job.Retry j) (Job.Timeout j) (Job.Shell j) /\
  (forall m, Job.Matrix j = Some m -> ValidateMatrix (Some m) = Ok tt) /\
  (forall w, Job.When j = Some w -> NewWhen (When.Expression w) = Ok w) /\
  (forall s, s ∈ Job.Steps j ->
     fields_checked scope (Step.Retry s) (Step.Timeout s) (Step.Shell s) /\
     (forall w, Step.When s = Some w -> NewWhen (When.Expression w) = Ok w /\ When.Deferred w = false)).
Proof.
  assert (parsed_job j) as []
    by (destruct Hparse as [H|H]; [by eapply parseJob_parsed|by eapply parseBareStep_parsed]).
  split; [by apply parsed_checked|]. split; [done|]. split; [by intros w (? & _)%pj_when0|].
  intros s Hs. rewrite Forall_forall in pj_steps0. destruct (pj_steps0 s Hs).
  split; [by apply parsed_checked|]. intros w Hw. by apply ps_when0 in Hw as [(? & _) ?].
Qed.
End job_print.

(** A job node with a field of every shape. *)
Definition ex_node : Node (KDL := tree_kdl) :=
  Tree "job" [TString "build"] ∅
    [Tree "image" [TString "golang:1.26"] ∅ [];
     Tree "timeout" [TString "1h30m"] ∅ [];
     Tree "matrix" [] ∅ [Tree "os" [TString "linux"; TString "darwin"] ∅ []];
     Tree "retry" [] ∅ [Tree "delay" [TString "1.5s"] ∅ []; Tree "attempts" [TInt 3] ∅ []];
     Tree "when" [TString " out "] ∅ [];
     Tree "step" [TString "compile"] ∅
       [Tree "run" [TString "make"] ∅ []; Tree "allow-failure" [] ∅ [];
        Tree "export" [TString "/out"] {["local" := TString "./out"]} []]].

Lemma parse_print_job_witness :
  exists j, parseJob (kdl := tree_kdl) (cel := ex_cel) ex_node "ci.kdl" = Ok j /\
    Job.Timeout j = 5400000000000%Z /\
    parseJob (kdl := tree_kdl) (cel := ex_cel)
      (printJob (kdl := tree_kdl) (KdlBuilder0 := tree_builder) j) "other.kdl" = Ok j.
Proof.
  eexists. split; [vm_compute; reflexivity|]. split; [reflexivity|].
  apply (parse_print_job (kdl := tree_kdl) (KdlBuilder0 := tree_builder) (cel := ex_cel) ex_node "ci.kdl").
  left. vm_compute. reflexivity.
Defined.

Lemma parse_job_checked_witness :
  exists j, parseJob (kdl := tree_kdl) (cel := ex_cel) ex_node "ci.kdl" = Ok j /\
    validateRetry "job" (Job.Retry j) = Ok tt.
Proof.
  eexists. split; [vm_compute; reflexivity|].
  eapply (parse_job_checked (kdl := tree_kdl) (cel := ex_cel) ex_node "ci.kdl").
  left. vm_compute. reflexivity.
Defined.
