(* ===== verification/Include.v ===== *)
(** * Includes (include.go)

    [includeState] is threaded through the calls; the deferred [state.pop()] runs on every
    return, but after an error nobody reads the state any more, so only successful calls
    return it.  [resolveInclude] and the functions it calls are mutually recursive through
    the files they open: the others are defined over a parameter [rec] that stands for
    [resolveInclude], which then ties the knot with fuel.

    The readers a [Resolver] returns are abstract: [Parse] is [kdl.Parse] on one of them. *)

From S2P Require Import Prelude Errors GoStrings Regex Conditional Model Defaults Merge Names Params Paths Kdl Elements JobParse.

Definition maxIncludeDepth : nat := 64.

(** ** includeState *)

Record includeState : Type := IncludeState {
  ancestors : list string;
  ancestorSet : gset string;
  cache : gmap string Fragment.t;
  aliases : gmap string (list string)
}.
#[global] Instance includeState_settable : Settable includeState :=
  fun r => IncludeState (ancestors r) (ancestorSet r) (cache r) (aliases r).

Definition newIncludeState : includeState := IncludeState [] ∅ ∅ ∅.

Definition push (s : includeState) (absPath : string) : result includeState :=
  if decide (absPath ∈ ancestorSet s)
  then fail_with (ancestors s ++ [absPath]) (PM ErrCircularInclude)
  else if decide (maxIncludeDepth <= length (ancestors s))
  then fail_with [absPath] (PM ErrIncludeDepth)
  else Ok (s <| ancestors ::= (fun l => l ++ [absPath]) |>
             <| ancestorSet ::= (fun a => {[absPath]} ∪ a) |>).

(** [pop]; an empty stack would panic, but a [pop] always follows a [push]. *)
Definition pop (s : includeState) : includeState :=
  match last (ancestors s) with
  | Some path => s <| ancestors ::= (fun l => take (length l - 1) l) |>
                   <| ancestorSet ::= (fun a => a ∖ {[path]}) |>
  | None => s
  end.

Definition registerAlias (s : includeState) (alias fromFile source : string) (terminals : list string)
    : result includeState :=
  match aliases s !! alias with
  | Some _ => fail_with [fromFile; source; alias] (PM ErrDuplicateAlias)
  | None => Ok (s <| aliases ::= <[alias := terminals]> |>)
  end.

(** ** Include directives *)

Record includeDirective : Type := IncludeDirective {
  source : string;
  alias : string;
  onConflict : ConflictStrategy;
  params : gmap string string
}.
#[global] Instance includeDirective_settable : Settable includeDirective :=
  fun r => IncludeDirective (source r) (alias r) (onConflict r) (params r).

Definition parseConflictStrategy (s : string) : result ConflictStrategy :=
  let w := ToLower (TrimSpace s) in
  if bool_decide (w = "") || bool_decide (w = "error") then Ok ConflictError
  else if decide (w = "skip") then Ok ConflictSkip
  else fail_with [s] (PM ErrInvalidConflict).

(** ** groupCollector *)

Record groupCollector : Type := GroupCollector {
  inline : list Job.t;
  groups : list JobGroup.t;
  origin : string
}.

Definition newGroupCollector (origin : string) : groupCollector := GroupCollector [] [] origin.

Definition addJob (gc : groupCollector) (j : Job.t) : groupCollector :=
  GroupCollector (inline gc ++ [j]) (groups gc) (origin gc).

Definition flush (gc : groupCollector) : groupCollector :=
  match inline gc with
  | [] => gc
  | l => GroupCollector [] (groups gc ++ [JobGroup.mk l (origin gc) ConflictError]) (origin gc)
  end.

Definition addInclude (gc : groupCollector) (jobs : list Job.t) (inc : includeDirective)
    : groupCollector :=
  let gc := flush gc in
  GroupCollector (inline gc) (groups gc ++ [JobGroup.mk jobs (source inc) (onConflict inc)]) (origin gc).

Definition merge (gc : groupCollector) : result (list Job.t) := MergeJobs (groups (flush gc)).

Section include.
Context `{kdl : KDL} `{cel : CEL}.
Context {Reader : Type} (Resolve : string -> string -> result (Reader * string))
  (Parse : Reader -> result (list Node)).

Definition parseKDL (r : Reader) (filename : string) : result (list Node) :=
  map_err (errorf [filename]) (Parse r).

(** ** Nodes *)

(** Ranging over the properties, a Go map: the first unknown one in key order stands for
    whichever the range meets first. *)
Definition unknown_prop (node : Node) : option string :=
  head (filter (fun k => k <> PropAs /\ k <> PropOnConflict) (sorted_keys (Properties node))).

Definition param_value (filename src : string) (ps : gmap string string) (child : Node)
    : result (gmap string string) :=
  let name := Name child in
  match ps !! name with
  | Some _ => fail_with [filename; src; name] (Pars ErrDuplicateField)
  | None =>
      val ← map_err (errorf [filename; src; name]) (requireStringArg child filename name);
      Ok (<[name := val]> ps)
  end.

Definition parseIncludeNode (node : Node) (filename : string) : result includeDirective :=
  src ← requireStringArg node filename "include";
  al ← map_err (errorf [filename; src]) (prop string node PropAs);
  conflictStr ← map_err (errorf [filename; src]) (prop string node PropOnConflict);
  conflict ← map_err (errorf [filename; src]) (parseConflictStrategy conflictStr);
  match unknown_prop node with
  | Some k => fail_with [filename; src; k] (Pars ErrUnknownProp)
  | None =>
      ps ← foldM (param_value filename src) ∅ (childrenOf node);
      Ok (IncludeDirective src al conflict ps)
  end.

Definition parseParamNode (node : Node) (filename : string) : result ParamDef.t :=
  name ← map_err (errorf [filename]) (requireStringArg node filename "param");
  def ← map_err (errorf [filename; name]) (prop string node PropDefault);
  Ok match Properties node !! PropDefault with
     | Some _ => ParamDef.mk name def false
     | None => ParamDef.mk name "" true
     end.

Definition checkDuplicateParam (defs : list ParamDef.t) (name filename fragName : string) : result unit :=
  foldM (fun _ d =>
    if decide (ParamDef.Name d = name)
    then fail_with [filename; fragName; name] (PM ErrDuplicateParam) else Ok tt) tt defs.

(** ** Files, over [rec] = [resolveInclude] *)

Section files.
Variable rec : includeDirective -> string -> includeState -> result (list Job.t * includeDirective * includeState).

Definition resolveChildInclude (child : Node) (filename : string) (st : includeState)
    : result (list Job.t * includeDirective * includeState) :=
  inc ← parseIncludeNode child filename;
  rec inc filename st.

Definition fragment_child (filename name : string)
    (acc : list ParamDef.t * groupCollector * includeState) (child : Node)
    : result (list ParamDef.t * groupCollector * includeState) :=
  let '(ps, gc, st) := acc in
  match NodeType_of (Name child) with
  | NodeTypeParam =>
      pd ← parseParamNode child filename;
      checkDuplicateParam ps (ParamDef.Name pd) filename name;;
      Ok (ps ++ [pd], gc, st)
  | NodeTypeStep => job ← parseBareStep child filename; Ok (ps, addJob gc job, st)
  | NodeTypeJob => job ← parseJob child filename; Ok (ps, addJob gc job, st)
  | NodeTypeInclude =>
      '(jobs, inc, st) ← resolveChildInclude child filename st;
      Ok (ps, addInclude gc jobs inc, st)
  | _ => fail_with [filename; name; Name child] (Pars ErrUnknownNode)
  end.

Definition parseFragmentNode (node : Node) (filename : string) (st : includeState)
    : result (Fragment.t * includeState) :=
  name ← map_err (errorf [filename]) (requireStringArg node filename "fragment");
  '(ps, gc, st) ← foldM (fragment_child filename name) ([], newGroupCollector filename, st) (childrenOf node);
  merged ← map_err (errorf [filename; name]) (merge gc);
  Ok (Fragment.mk name ps merged, st).

Definition includeFragment (node : Node) (absPath : string) (ps : gmap string string) (st : includeState)
    : result (string * list Job.t * includeState) :=
  '(frag, st) ← parseFragmentNode node absPath st;
  resolved ← map_err (errorf [Fragment.Name frag]) (ResolveParams (Fragment.Params frag) ps);
  let jobs := SubstituteParams (Fragment.Jobs frag) resolved in
  Ok (Fragment.Name frag, jobs,
      st <| cache ::= <[cacheKey absPath ps := frag <| Fragment.Jobs := jobs |>]> |>).

(** Matrix, environment, defaults and secrets of an included pipeline are only logged. *)
Definition pipeline_file_child (absPath : string) (acc : groupCollector * includeState) (node : Node)
    : result (groupCollector * includeState) :=
  let '(gc, st) := acc in
  match NodeType_of (Name node) with
  | NodeTypeStep => job ← parseBareStep node absPath; Ok (addJob gc job, st)
  | NodeTypeJob => job ← parseJob node absPath; Ok (addJob gc job, st)
  | NodeTypeMatrix | NodeTypeEnv | NodeTypeDefaults | NodeTypeSecret => Ok (gc, st)
  | NodeTypeInclude =>
      '(jobs, inc, st) ← resolveChildInclude node absPath st;
      Ok (addInclude gc jobs inc, st)
  | _ => fail_with [absPath; Name node] (Pars ErrUnknownNode)
  end.

Definition includePipelineFile (nodes : list Node) (absPath : string) (ps : gmap string string)
    (st : includeState) : result (string * list Job.t * includeState) :=
  let name := nameFromFilename absPath in
  if decide (ps <> ∅) then fail_with [name] (PM ErrPipelineNoParams) else
  '(gc, st) ← foldM (pipeline_file_child absPath) (newGroupCollector absPath, st) nodes;
  jobs ← map_err (errorf [absPath; name]) (merge gc);
  Ok (name, jobs, st <| cache ::= <[cacheKey absPath ps := Fragment.mk name [] jobs]> |>).

(** The kinds of nodes of a document: its fragment node, and whether it has nodes of a
    pipeline. *)
Definition classify (absPath : string) (acc : option Node * bool) (node : Node)
    : result (option Node * bool) :=
  let '(fragNode, hasPipelineChildren) := acc in
  match NodeType_of (Name node) with
  | NodeTypeFragment =>
      match fragNode with
      | Some _ => fail_with [absPath; "fragment"] (Pars ErrAmbiguousFile)
      | None => Ok (Some node, hasPipelineChildren)
      end
  | NodeTypeJob | NodeTypeStep | NodeTypeDefaults | NodeTypeMatrix | NodeTypeEnv
  | NodeTypeSecret | NodeTypeInclude => Ok (fragNode, true)
  | _ => fail_with [absPath; Name node] (Pars ErrUnknownNode)
  end.

Definition parseIncludedFile (rc : Reader) (absPath : string) (ps : gmap string string)
    (st : includeState) : result (string * list Job.t * includeState) :=
  nodes ← parseKDL rc absPath;
  '(fragNode, hasPipelineChildren) ← foldM (classify absPath) (None, false) nodes;
  match fragNode, hasPipelineChildren with
  | Some _, true => fail_with [absPath] (Pars ErrAmbiguousFile)
  | Some node, false => includeFragment node absPath ps st
  | None, true => includePipelineFile nodes absPath ps st
  | None, false => fail_with [absPath] (Pars ErrEmptyInclude)
  end.
End files.

Definition with_alias (inc : includeDirective) (name : string) : includeDirective :=
  if decide (alias inc = "") then inc <| alias := name |> else inc.

(** [resolveInclude]; [inc] is updated in place, so it is returned. *)
Definition resolve_body
    (rec : includeDirective -> string -> includeState -> result (list Job.t * includeDirective * includeState))
    (inc : includeDirective) (fromFile : string) (st : includeState)
    : result (list Job.t * includeDirective * includeState) :=
  '(rc, absPath) ← map_err (errorf [fromFile; source inc]) (Resolve (source inc) (dirOf fromFile));
  st ← map_err (errorf [fromFile]) (push st absPath);
  '(inc, jobs, st) ←
    match cache st !! cacheKey absPath (params inc) with
    | Some cached =>
        let inc := with_alias inc (Fragment.Name cached) in
        st ← registerAlias st (alias inc) fromFile (source inc) (TerminalJobs (Fragment.Jobs cached));
        Ok (inc, Fragment.Jobs cached, st)
    | None =>
        '(name, jobs, st) ← map_err (errorf [fromFile; source inc])
          (parseIncludedFile rec rc absPath (params inc) st);
        let inc := with_alias inc name in
        st ← registerAlias st (alias inc) fromFile (source inc) (TerminalJobs jobs);
        Ok (inc, jobs, st)
    end;
  Ok (jobs, inc, pop st).

(** The recursion, unrolled [fuel] times. *)
Definition resolveInclude (fuel : nat)
    : includeDirective -> string -> includeState -> result (list Job.t * includeDirective * includeState) :=
  Nat.iter fuel resolve_body (fun _ _ _ => Fail (raise OutOfFuel)).

(** Every nested call holds one more ancestor, and [push] stops at the depth limit. *)
Definition include_fuel : nat := S maxIncludeDepth.
End include.
