(* ===== verification/IncludeProps.v ===== *)
(** * Includes: the stack is balanced, aliases name jobs, recursion is bounded

    Everything is proved about the functions of Include.v over an arbitrary [rec], under a
    contract for it ([rec_ok]); the contract is then proved of [resolveInclude] by
    induction on the fuel. *)

From S2P Require Import Prelude Errors GoStrings Regex Conditional Model Defaults Merge Names Params Paths Kdl Elements JobParse Include.

(** ** Loops *)

Lemma foldM_cong {E A B} (I : B -> Prop) (f g : B -> A -> res E B) b l :
  I b -> (forall b a, I b -> f b a = g b a) ->
  (forall b a b', I b -> f b a = Ok b' -> I b') -> foldM f b l = foldM g b l.
Proof.
  intros Hb Hfg Hpres. revert b Hb. induction l as [|a l IH]; intros b Hb; cbn; [done|].
  rewrite <- Hfg by done. destruct (f b a) as [b'|e] eqn:Hf; cbn; [|done]. eauto.
Qed.

Lemma foldM_pres {E A B} (I : B -> Prop) (f : B -> A -> res E B) b l b' :
  I b -> (forall b a b', I b -> f b a = Ok b' -> I b') -> foldM f b l = Ok b' -> I b'.
Proof. intros Hb Hp. apply (foldM_inv (fun _ => I)); [done|]. intros ? ? ? ? _. apply Hp. Qed.

(** ** Groups *)

Definition names (jobs : list Job.t) : list string := Job.Name <$> jobs.

Definition collected (gc : groupCollector) : list string :=
  names ((groups gc ≫= JobGroup.Jobs) ++ inline gc).

Lemma collected_addJob gc j x : x ∈ collected (addJob gc j) <-> x ∈ collected gc \/ x = Job.Name j.
Proof. unfold collected, names, addJob. cbn. rewrite !fmap_app. set_solver. Qed.

Lemma collected_flush gc x : x ∈ collected (flush gc) <-> x ∈ collected gc.
Proof.
  unfold flush. destruct (inline gc) as [|j l] eqn:Hi; [done|].
  unfold collected, names. cbn. rewrite Hi, bind_app, !fmap_app. cbn. rewrite app_nil_r, fmap_app.
  set_solver.
Qed.

Lemma collected_addInclude gc jobs inc x :
  x ∈ collected (addInclude gc jobs inc) <-> x ∈ collected gc \/ x ∈ names jobs.
Proof.
  rewrite <- (collected_flush gc). unfold addInclude, collected, names. cbn.
  rewrite bind_app, !fmap_app. cbn. rewrite app_nil_r. set_solver.
Qed.

Lemma tagged_jobs gs : (tagged gs).*2 = gs ≫= JobGroup.Jobs.
Proof.
  unfold tagged. induction gs as [|g gs IH]; [done|]. rewrite !bind_cons, fmap_app, IH. f_equal.
  rewrite <- list_fmap_compose. apply list_fmap_id.
Qed.

Lemma merge_names gc merged :
  merge gc = Ok merged ->
  NoDup (names merged) /\ (forall x, x ∈ names merged <-> x ∈ collected gc).
Proof.
  intros [_ ->]%MergeJobs_Ok. split; [apply first_by_name_NoDup|]. intros x.
  unfold names. rewrite first_by_name_names, tagged_jobs, <- (collected_flush gc).
  unfold collected, names. rewrite fmap_app.
  assert (inline (flush gc) = []) as -> by (unfold flush; by destruct (inline gc) eqn:?).
  by rewrite app_nil_r.
Qed.

Lemma TerminalJobs_names jobs x : x ∈ TerminalJobs jobs -> x ∈ names jobs.
Proof.
  rewrite TerminalJobs_filter. unfold names. intros (j & -> & [_ Hj]%list_elem_of_filter)%list_elem_of_fmap.
  by apply list_elem_of_fmap_2.
Qed.

Lemma SubstituteParams_names jobs ps : names (SubstituteParams jobs ps) = names jobs.
Proof.
  unfold SubstituteParams, names. case_decide; [done|]. unfold mapSlice.
  rewrite <- list_fmap_compose. apply list_fmap_ext. intros i j _.
  apply (substituteJobVars_fields j ps "param.").
Qed.

(** ** The state *)

(** The set mirrors the stack, which has no repetition and respects the depth limit. *)
Record stack_ok (st : includeState) : Prop := {
  so_nodup : NoDup (ancestors st);
  so_set : ancestorSet st = list_to_set (ancestors st);
  so_depth : length (ancestors st) <= maxIncludeDepth
}.

Definition cache_ok (st : includeState) : Prop :=
  map_Forall (fun _ f => NoDup (names (Fragment.Jobs f))) (cache st).

(** [st'] is a later state at the same place of the recursion, and the aliases registered
    in between point at jobs among [ns]. *)
Record later (st st' : includeState) (ns : list string) : Prop := {
  la_stack : ancestors st' = ancestors st;
  la_set : ancestorSet st' = ancestorSet st;
  la_aliases : aliases st ⊆ aliases st';
  la_new : forall a ts, aliases st' !! a = Some ts ->
    aliases st !! a = Some ts \/ forall t, t ∈ ts -> t ∈ ns
}.

Lemma later_refl st ns : later st st ns.
Proof. by constructor; [..|left]. Qed.

Lemma later_trans st1 st2 st3 ns ns' ns'' :
  later st1 st2 ns -> later st2 st3 ns' ->
  (forall x, x ∈ ns -> x ∈ ns'') -> (forall x, x ∈ ns' -> x ∈ ns'') -> later st1 st3 ns''.
Proof.
  intros [] [] H1 H2. constructor; [congruence..|by etransitivity|].
  intros a ts [Ha|?]%la_new1; [|by right; eauto]. apply la_new0 in Ha as [?|?]; [by left|by right; eauto].
Qed.

Lemma later_stack_ok st st' ns : later st st' ns -> stack_ok st -> stack_ok st'.
Proof. intros [] []. constructor; congruence. Qed.

Lemma push_Ok st p st' :
  push st p = Ok st' <->
  p ∉ ancestorSet st /\ length (ancestors st) < maxIncludeDepth /\
  st' = st <| ancestors ::= (fun l => l ++ [p]) |> <| ancestorSet ::= (fun a => {[p]} ∪ a) |>.
Proof. unfold push. repeat case_decide; split; try naive_solver lia. Qed.

Lemma push_stack_ok st p st' : stack_ok st -> push st p = Ok st' -> stack_ok st'.
Proof.
  intros [Hnd Hs Hl] (Hp & Hd & ->)%push_Ok. rewrite Hs, elem_of_list_to_set in Hp. constructor; cbn.
  - apply NoDup_app. split_and!; [done|set_solver|apply NoDup_singleton].
  - rewrite Hs, list_to_set_app_L. set_solver.
  - rewrite length_app. cbn. lia.
Qed.

Lemma push_cache_ok st p st' : cache_ok st -> push st p = Ok st' -> cache_ok st'.
Proof. intros Hc (_ & _ & ->)%push_Ok. exact Hc. Qed.

(** Popping after a balanced computation restores the stack. *)
Lemma pop_push st p st1 st2 ns :
  stack_ok st -> push st p = Ok st1 -> later st1 st2 ns ->
  ancestors (pop st2) = ancestors st /\ ancestorSet (pop st2) = ancestorSet st /\
  cache (pop st2) = cache st2 /\ aliases (pop st2) = aliases st2.
Proof.
  intros Hok (Hp & _ & ->)%push_Ok [Ha Hs _ _]. cbn in Ha, Hs.
  unfold pop. rewrite Ha, last_snoc. cbn. rewrite Ha, Hs, length_app. cbn.
  split_and!; [|set_solver|done..].
  rewrite Nat.add_sub, take_app_length. done.
Qed.

Lemma registerAlias_Ok st a f s ts st' :
  registerAlias st a f s ts = Ok st' <-> aliases st !! a = None /\ st' = st <| aliases ::= <[a := ts]> |>.
Proof. unfold registerAlias. destruct (aliases st !! a); naive_solver. Qed.

Section props.
Context `{kdl : KDL} `{cel : CEL}.
Implicit Types (st : includeState) (inc : includeDirective).

(** ** The contract of an include *)

Record include_post (inc : includeDirective) (st : includeState)
    (jobs : list Job.t) (inc' : includeDirective) (st' : includeState) : Prop := {
  ip_later : later st st' (names jobs);
  ip_cache : cache_ok st';
  ip_nodup : NoDup (names jobs);
  ip_fresh : aliases st !! alias inc' = None;
  ip_alias : aliases st' !! alias inc' = Some (TerminalJobs jobs);
  ip_inc : inc' = with_alias inc (alias inc')
}.

Section files.
Variable rec : includeDirective -> string -> includeState -> result (list Job.t * includeDirective * includeState).

Definition rec_ok : Prop := forall inc from st jobs inc' st',
  stack_ok st -> cache_ok st -> rec inc from st = Ok (jobs, inc', st') ->
  include_post inc st jobs inc' st'.

Hypothesis Hrec : rec_ok.

(** The invariant of the loops over the children of a file. *)
Definition file_inv (st0 : includeState) (gc : groupCollector) (st : includeState) : Prop :=
  stack_ok st /\ cache_ok st /\ later st0 st (collected gc).

Lemma file_inv_addJob st0 gc st j : file_inv st0 gc st -> file_inv st0 (addJob gc j) st.
Proof.
  intros (? & ? & Hl). split_and!; [done..|]. eapply later_trans; [exact Hl|apply later_refl|..].
  - intros x Hx. apply collected_addJob. by left.
  - intros x. exact (fun H => H).
Qed.

Lemma file_inv_include st0 gc st child f jobs inc st' :
  file_inv st0 gc st -> resolveChildInclude rec child f st = Ok (jobs, inc, st') ->
  file_inv st0 (addInclude gc jobs inc) st'.
Proof.
  intros (Hs & Hc & Hl). unfold resolveChildInclude. intros. inv_ok.
  match goal with H : rec _ _ _ = _ |- _ => apply Hrec in H as []; [|done..] end.
  split_and!; [by eapply later_stack_ok|done|]. eapply later_trans; [exact Hl|done|..];
    intros y Hy; apply collected_addInclude; tauto.
Qed.

Lemma fragment_child_inv st0 f name ps gc st child ps' gc' st' :
  file_inv st0 gc st -> fragment_child rec f name (ps, gc, st) child = Ok (ps', gc', st') ->
  file_inv st0 gc' st'.
Proof.
  intros Hi. unfold fragment_child. destruct (NodeType_of _); intros; try discriminate; open_res;
    first [done|by apply file_inv_addJob|by eapply file_inv_include].
Qed.

Lemma pipeline_file_child_inv st0 f gc st child gc' st' :
  file_inv st0 gc st -> pipeline_file_child rec f (gc, st) child = Ok (gc', st') ->
  file_inv st0 gc' st'.
Proof.
  intros Hi. unfold pipeline_file_child. destruct (NodeType_of _); intros; try discriminate; open_res;
    first [done|by apply file_inv_addJob|by eapply file_inv_include].
Qed.

Lemma file_inv_start f st : stack_ok st -> cache_ok st -> file_inv st (newGroupCollector f) st.
Proof. intros. split_and!; [done..|apply later_refl]. Qed.

(** What a file contributes: jobs with distinct names, new aliases that point at them. *)
Definition file_post (st st' : includeState) (jobs : list Job.t) : Prop :=
  cache_ok st' /\ later st st' (names jobs) /\ NoDup (names jobs).

Lemma file_inv_post st0 gc st jobs k f :
  file_inv st0 gc st -> NoDup (names jobs) -> (forall x, x ∈ names jobs <-> x ∈ collected gc) ->
  Fragment.Jobs f = jobs -> file_post st0 (st <| cache ::= <[k := f]> |>) jobs.
Proof.
  intros (Hs & Hc & [Ha Hset Hal Hnew]) Hnd Hn Hf. split_and!; [|constructor; try done|done].
  - apply map_Forall_insert_2; [by rewrite Hf|done].
  - intros a ts Hts. apply Hnew in Hts as [?|Hts]; [by left|right]. intros t Ht. apply Hn. eauto.
Qed.

Lemma includeFragment_post node p ps st name jobs st' :
  stack_ok st -> cache_ok st -> includeFragment rec node p ps st = Ok (name, jobs, st') ->
  file_post st st' jobs.
Proof.
  intros Hs Hc. unfold includeFragment, parseFragmentNode. intros. open_res.
  match goal with H : foldM _ _ _ = _ |- _ =>
    apply (foldM_pres (fun acc : list ParamDef.t * groupCollector * includeState =>
      file_inv st acc.1.2 acc.2)) in H end.
  - match goal with H : merge _ = _ |- _ => apply merge_names in H as [Hnd Hn] end.
    eapply file_inv_post; [done|by rewrite SubstituteParams_names| |done].
    intros y. by rewrite SubstituteParams_names.
  - by apply file_inv_start.
  - intros [[? ?] ?] a [[? ?] ?] ? ?. by eapply fragment_child_inv.
Qed.

Lemma includePipelineFile_post nodes p ps st name jobs st' :
  stack_ok st -> cache_ok st -> includePipelineFile rec nodes p ps st = Ok (name, jobs, st') ->
  file_post st st' jobs.
Proof.
  intros Hs Hc. unfold includePipelineFile. case_decide; [done|]. intros. open_res.
  match goal with H : foldM _ _ _ = _ |- _ =>
    apply (foldM_pres (fun acc : groupCollector * includeState => file_inv st acc.1 acc.2)) in H end.
  - match goal with H : merge _ = _ |- _ => apply merge_names in H as [Hnd Hn] end.
    by eapply file_inv_post.
  - by apply file_inv_start.
  - intros [? ?] a [? ?] ? ?. by eapply pipeline_file_child_inv.
Qed.

Lemma parseIncludedFile_post {Reader : Type} (Parse : Reader -> result (list Node)) rc p ps st name jobs st' :
  stack_ok st -> cache_ok st -> parseIncludedFile Parse rec rc p ps st = Ok (name, jobs, st') ->
  file_post st st' jobs.
Proof.
  intros Hs Hc. unfold parseIncludedFile. intros. open_res.
  case_match; [|]; (destruct b; [|]; inv_res).
  - by eapply includeFragment_post.
  - by eapply includePipelineFile_post.
Qed.
End files.

(** ** [resolveInclude] meets its contract *)

Lemma with_alias_alias inc n : with_alias inc (alias (with_alias inc n)) = with_alias inc n.
Proof. unfold with_alias. destruct inc as [s a o ps]. cbn. by repeat case_decide. Qed.

Lemma include_post_register inc st st1 st2 st3 p jobs name from src :
  stack_ok st -> cache_ok st -> push st p = Ok st1 -> file_post st1 st2 jobs ->
  registerAlias st2 (alias (with_alias inc name)) from src (TerminalJobs jobs) = Ok st3 ->
  include_post inc st jobs (with_alias inc name) (pop st3).
Proof.
  intros Hs Hc Hp (Hc2 & Hl & Hnd) [Hn Hst3]%registerAlias_Ok.
  set (al := alias (with_alias inc name)) in *.
  pose proof (proj1 (push_Ok st p st1) Hp) as (_ & _ & Hst1).
  assert (aliases st1 = aliases st) as Ha1 by by rewrite Hst1.
  assert (aliases st3 = <[al := TerminalJobs jobs]> (aliases st2)) as Ha3 by by rewrite Hst3.
  assert (later st1 st3 (names jobs)) as Hl3.
  { destruct Hl. constructor; [by rewrite Hst3|by rewrite Hst3| |].
    - rewrite Ha3. etransitivity; [done|by apply insert_subseteq].
    - intros a ts. rewrite Ha3. destruct (decide (a = al)) as [->|Hne].
      + rewrite lookup_insert_eq. intros [= <-]. right. apply TerminalJobs_names.
      + rewrite lookup_insert_ne by done. apply la_new0. }
  destruct (pop_push st p st1 _ _ Hs Hp Hl3) as (Ha & Hset & Hca & Hal).
  destruct Hl as [_ _ Hsub _]. destruct Hl3 as [_ _ Hsub3 Hnew3].
  rewrite Ha1 in Hsub, Hsub3. setoid_rewrite Ha1 in Hnew3.
  constructor; [constructor; [done|done|by rewrite Hal|by rewrite Hal]| |done| | |].
  - unfold cache_ok. by rewrite Hca, Hst3.
  - by eapply lookup_weaken_None.
  - rewrite Hal, Ha3. apply lookup_insert_eq.
  - by rewrite with_alias_alias.
Qed.

Context {Reader : Type} (Resolve : string -> string -> result (Reader * string))
  (Parse : Reader -> result (list Node)).

Lemma resolve_body_ok rec : rec_ok rec -> rec_ok (resolve_body Resolve Parse rec).
Proof.
  intros Hrec inc from st jobs inc' st' Hs Hc. unfold resolve_body. intros. open_res.
  match goal with H : push st ?p = Ok ?s1 |- _ => rename p into path, s1 into st1, H into Hp end.
  pose proof (push_stack_ok _ _ _ Hs Hp) as Hs1.
  pose proof (push_cache_ok _ _ _ Hc Hp) as Hc1.
  destruct (cache st1 !! _) as [cached|] eqn:Hcache; open_res.
  - eapply include_post_register; [done|done|exact Hp| |done].
    split_and!; [done|apply later_refl|]. exact (Hc1 _ _ Hcache).
  - eapply include_post_register; [done|done|exact Hp| |done]. by eapply parseIncludedFile_post.
Qed.

Lemma resolveInclude_ok fuel : rec_ok (resolveInclude Resolve Parse fuel).
Proof.
  induction fuel as [|fuel IH]; [by intros ? ? ? ? ? ?|].
  unfold resolveInclude in *. cbn. by apply resolve_body_ok.
Qed.

(** ** The recursion is bounded *)

Section bounded.
Variables rec rec' : includeDirective -> string -> includeState -> result (list Job.t * includeDirective * includeState).
Hypothesis Hrec : rec_ok rec.
Variable depth : nat.

(** Two recursive calls that agree on the states of one depth. *)
Hypothesis Hsame : forall inc from st,
  stack_ok st -> cache_ok st -> length (ancestors st) = depth -> rec inc from st = rec' inc from st.

Definition at_depth (st : includeState) : Prop :=
  stack_ok st /\ cache_ok st /\ length (ancestors st) = depth.

Lemma resolveChildInclude_same n f st :
  at_depth st -> resolveChildInclude rec n f st = resolveChildInclude rec' n f st.
Proof.
  intros (? & ? & ?). unfold resolveChildInclude.
  destruct (parseIncludeNode n f); cbn; [by apply Hsame|done].
Qed.

Lemma resolveChildInclude_depth n f st jobs inc st' :
  at_depth st -> resolveChildInclude rec n f st = Ok (jobs, inc, st') -> at_depth st'.
Proof.
  intros (Hs & Hc & Hd). unfold resolveChildInclude. intros. inv_ok.
  match goal with H : rec _ _ _ = _ |- _ => apply Hrec in H as []; [|done..] end.
  split_and!; [by eapply later_stack_ok|done|]. destruct ip_later0. by rewrite la_stack0.
Qed.

Lemma fragment_child_same f name acc n :
  at_depth acc.2 -> fragment_child rec f name acc n = fragment_child rec' f name acc n.
Proof.
  destruct acc as [[ps gc] st]. intros Hd. unfold fragment_child.
  destruct (NodeType_of _); try done. by rewrite resolveChildInclude_same.
Qed.

Lemma fragment_child_depth f name acc n acc' :
  at_depth acc.2 -> fragment_child rec f name acc n = Ok acc' -> at_depth acc'.2.
Proof.
  destruct acc as [[ps gc] st]. intros Hd. unfold fragment_child.
  destruct (NodeType_of _); intros; try discriminate; open_res; try done.
  by eapply resolveChildInclude_depth.
Qed.

Lemma pipeline_file_child_same f acc n :
  at_depth acc.2 -> pipeline_file_child rec f acc n = pipeline_file_child rec' f acc n.
Proof.
  destruct acc as [gc st]. intros Hd. unfold pipeline_file_child.
  destruct (NodeType_of _); try done. by rewrite resolveChildInclude_same.
Qed.

Lemma pipeline_file_child_depth f acc n acc' :
  at_depth acc.2 -> pipeline_file_child rec f acc n = Ok acc' -> at_depth acc'.2.
Proof.
  destruct acc as [gc st]. intros Hd. unfold pipeline_file_child.
  destruct (NodeType_of _); intros; try discriminate; open_res; try done.
  by eapply resolveChildInclude_depth.
Qed.

Lemma parseIncludedFile_same rc p ps st :
  at_depth st -> parseIncludedFile Parse rec rc p ps st = parseIncludedFile Parse rec' rc p ps st.
Proof.
  intros Hd. unfold parseIncludedFile. destruct (parseKDL _ _ _) as [nodes|]; cbn; [|done].
  destruct (foldM _ _ _) as [[[node|] []]|]; cbn; [done| |..|done].
  - unfold includeFragment, parseFragmentNode.
    destruct (map_err _ _) as [name|]; cbn; [|done].
    rewrite (foldM_cong (fun acc => at_depth acc.2) _ (fragment_child rec' p name)); [done|done|..];
      intros; [by apply fragment_child_same|by eapply fragment_child_depth].
  - unfold includePipelineFile. case_decide; [done|].
    rewrite (foldM_cong (fun acc => at_depth acc.2) _ (pipeline_file_child rec' p)); [done|done|..];
      intros; [by apply pipeline_file_child_same|by eapply pipeline_file_child_depth].
  - done.
Qed.
End bounded.

Lemma resolve_body_same rec rec' depth inc from st :
  rec_ok rec ->
  (forall inc from st, stack_ok st -> cache_ok st -> length (ancestors st) = S depth ->
     rec inc from st = rec' inc from st) ->
  stack_ok st -> cache_ok st -> length (ancestors st) = depth ->
  resolve_body Resolve Parse rec inc from st = resolve_body Resolve Parse rec' inc from st.
Proof.
  intros Hrec Hsame Hs Hc Hd. unfold resolve_body.
  destruct (map_err _ (Resolve _ _)) as [[rc p]|]; cbn; [|done].
  destruct (push st p) as [st1|] eqn:Hp; cbn; [|done].
  destruct (cache st1 !! _); [done|].
  rewrite (parseIncludedFile_same rec rec' Hrec (S depth) Hsame); [done|].
  split_and!; [by eapply push_stack_ok|by eapply push_cache_ok|]. apply push_Ok in Hp as (_ & _ & ->). cbn. rewrite length_app. cbn. lia.
Qed.

(** The base case of the unrolled recursion is never reached. *)
Lemma resolveInclude_base n base inc from st :
  stack_ok st -> cache_ok st -> maxIncludeDepth < n + length (ancestors st) ->
  Nat.iter n (resolve_body Resolve Parse) base inc from st = resolveInclude Resolve Parse n inc from st.
Proof.
  revert inc from st. induction n as [|n IH]; intros inc from st Hs Hc Hn.
  - destruct Hs. lia.
  - symmetry. unfold resolveInclude. cbn.
    apply (resolve_body_same _ _ (length (ancestors st))); [apply resolveInclude_ok| |done..].
    intros inc' from' st' Hs' Hc' Hd. symmetry. apply IH; [done..|lia].
Qed.

(** More fuel than [include_fuel] never changes a result. *)
Lemma resolveInclude_fuel n base inc from st :
  stack_ok st -> cache_ok st -> maxIncludeDepth < n + length (ancestors st) ->
  Nat.iter n (resolve_body Resolve Parse) base inc from st
  = resolveInclude Resolve Parse include_fuel inc from st.
Proof.
  intros Hs Hc Hn. rewrite resolveInclude_base by done.
  pose proof (fun m b => resolveInclude_base m b inc from st Hs Hc) as Hbase.
  unfold include_fuel. destruct (Nat.le_ge_cases n (S maxIncludeDepth)) as [Hle|Hge].
  - replace (S maxIncludeDepth) with (n + (S maxIncludeDepth - n)) by lia.
    unfold resolveInclude at 2. rewrite Nat.iter_add. symmetry. by apply Hbase.
  - replace n with (S maxIncludeDepth + (n - S maxIncludeDepth)) by lia.
    unfold resolveInclude at 1. rewrite Nat.iter_add. apply Hbase. lia.
Qed.

(** ** The name of an included file *)

#[local] Instance NodeType_eq_dec : EqDecision NodeType.
Proof. solve_decision. Defined.

Definition fragment_of (nodes : list Node) : option Node :=
  head (filter (fun n => NodeType_of (Name n) = NodeTypeFragment) nodes).

(** The name a file has by itself: that of its fragment node, or else its file name. *)
Definition declared (rc : Reader) (absPath name : string) : Prop :=
  exists nodes, Parse rc = Ok nodes /\
    match fragment_of nodes with
    | Some node => requireStringArg node absPath "fragment" = Ok name
    | None => name = nameFromFilename absPath
    end.

Lemma classify_fragment p nodes acc :
  foldM (classify p) (None, false) nodes = Ok acc -> acc.1 = fragment_of nodes.
Proof.
  apply (foldM_inv (fun pre (acc : option Node * bool) => acc.1 = fragment_of pre)); [done|].
  intros pre [fn b] n acc' _ Hfn. cbn in Hfn. subst fn. unfold classify, fragment_of. rewrite filter_snoc.
  destruct (NodeType_of (Name n)) eqn:Ht; try (intros [= <-]; rewrite decide_False by done; done); try discriminate.
  rewrite decide_True by done. destruct (head (filter _ pre)) eqn:Hh; [discriminate|]. intros [= <-]. cbn.
  by destruct (filter _ pre).
Qed.

Lemma parseIncludedFile_name rec rc p ps st name jobs st' :
  parseIncludedFile Parse rec rc p ps st = Ok (name, jobs, st') ->
  declared rc p name /\
  exists frag, cache st' !! cacheKey p ps = Some frag /\ Fragment.Name frag = name /\ Fragment.Jobs frag = jobs.
Proof.
  unfold parseIncludedFile, parseKDL. intros (nodes & Hn%map_err_Ok & ([fn b] & Hc & Hok)%bind_Ok)%bind_Ok.
  apply classify_fragment in Hc. cbn in Hc. unfold declared. destruct fn as [node|], b; try discriminate.
  - unfold includeFragment, parseFragmentNode in Hok.
    apply bind_Ok in Hok as ([frag st1] & (fname & Hname%map_err_Ok & ([[fps gc] st2] & _ & (merged & _ & [= <- <-])%bind_Ok)%bind_Ok)%bind_Ok & Hok).
    apply bind_Ok in Hok as (resolved & _ & [= <- <- <-]). split; [exists nodes; by rewrite <- Hc|].
    eexists. cbn. by rewrite lookup_insert_eq.
  - unfold includePipelineFile in Hok. case_decide; [done|].
    apply bind_Ok in Hok as ([gc st1] & _ & (merged & _ & [= <- <- <-])%bind_Ok). split; [exists nodes; by rewrite <- Hc|].
    eexists. cbn. by rewrite lookup_insert_eq.
Qed.

(** What an include reads and how it names what it read. *)
Record named inc from st jobs inc' st' (absPath : string) (frag : Fragment.t) : Prop := {
  nm_alias : inc' = if decide (alias inc = "") then inc <| alias := Fragment.Name frag |> else inc;
  nm_jobs : Fragment.Jobs frag = jobs;
  nm_cached : cache st' !! cacheKey absPath (params inc) = Some frag;
  nm_name : cache st !! cacheKey absPath (params inc) = Some frag \/
    cache st !! cacheKey absPath (params inc) = None /\
    exists rc, Resolve (source inc) (dirOf from) = Ok (rc, absPath) /\ declared rc absPath (Fragment.Name frag)
}.

Lemma pop_cache st : cache (pop st) = cache st.
Proof. unfold pop. by repeat case_match. Qed.

Lemma resolveInclude_named n inc from st jobs inc' st' :
  resolveInclude Resolve Parse n inc from st = Ok (jobs, inc', st') ->
  exists rc absPath frag, Resolve (source inc) (dirOf from) = Ok (rc, absPath) /\ named inc from st jobs inc' st' absPath frag.
Proof.
  destruct n as [|n]; [done|]. unfold resolveInclude. cbn [Nat.iter]. unfold resolve_body at 1.
  intros ([rc p] & Hr%map_err_Ok & (st1 & Hp%map_err_Ok & ([[inc1 jobs1] st2] & Hbody & [= <- <- <-])%bind_Ok)%bind_Ok)%bind_Ok.
  apply push_Ok in Hp as (_ & _ & ->). change (cache (st <| _ ::= _ |> <| _ ::= _ |>)) with (cache st) in Hbody.
  destruct (cache st !! cacheKey p (params inc)) as [frag|] eqn:Hcache.
  - apply bind_Ok in Hbody as (st3 & [_ ->]%registerAlias_Ok & [= <- <- <-]). exists rc, p, frag. split; [done|].
    split; [done|done|by rewrite pop_cache|by left].
  - apply bind_Ok in Hbody as ([[name jobs2] st3] & Hf%map_err_Ok & (st4 & [_ ->]%registerAlias_Ok & [= <- <- <-])%bind_Ok).
    apply parseIncludedFile_name in Hf as (Hd & frag & Hk & <- & <-). exists rc, p, frag. split; [done|].
    split; [done|done|by rewrite pop_cache|]. right. split; [done|]. by exists rc.
Qed.

(** ** Properties *)

(** C12: the mutual recursion of the include machinery terminates: from any reachable kind of
    state, unrolling it more often than the free depth of the ancestor stack never consults
    the base case of the unrolling, whatever that base case is, so the result is the one
    obtained with 65 rounds. *)
Theorem resolveInclude_terminates n base inc from st
  (Hs : stack_ok st) (Hc : cache_ok st) (Hn : maxIncludeDepth < n + length (ancestors st)) :
  Nat.iter n (resolve_body Resolve Parse) base inc from st
  = resolveInclude Resolve Parse include_fuel inc from st.
Proof. by apply resolveInclude_fuel. Qed.

(** C13: a successful include leaves the ancestor stack as it found it, only adds aliases,
    registers its own alias for exactly the terminal jobs of what it returns, makes every
    other new alias point at returned jobs, and returns jobs with distinct names.  Its own
    alias is the given one, or without one the name of the fragment that it returns and
    leaves in the cache.  If the cache had none for the path and the parameters, that is the
    name the file itself declares: the argument of its fragment node, or the name of the
    file when it holds a pipeline. *)
Theorem resolveInclude_spec n inc from st jobs inc' st'
  (Hs : stack_ok st) (Hc : cache_ok st)
  (Hok : resolveInclude Resolve Parse n inc from st = Ok (jobs, inc', st')) :
  ancestors st' = ancestors st /\ stack_ok st' /\ aliases st ⊆ aliases st' /\
  NoDup (names jobs) /\
  (alias inc <> "" -> inc' = inc) /\
  aliases st !! alias inc' = None /\ aliases st' !! alias inc' = Some (TerminalJobs jobs) /\
  (forall a ts, aliases st' !! a = Some ts -> aliases st !! a = None ->
     forall t, t ∈ ts -> t ∈ names jobs) /\
  exists rc absPath frag, Resolve (source inc) (dirOf from) = Ok (rc, absPath) /\ named inc from st jobs inc' st' absPath frag.
Proof.
  destruct (resolveInclude_ok n inc from st jobs inc' st' Hs Hc Hok) as [Hl ? ? ? ? Hi].
  pose proof (later_stack_ok _ _ _ Hl Hs). destruct Hl.
  split_and!; [done..| |done|done| |].
  - intros Hne. rewrite Hi. unfold with_alias. by rewrite decide_False.
  - intros a ts Ha Hn. apply la_new0 in Ha as [?|?]; [congruence|done].
  - by eapply resolveInclude_named.
Qed.

(** What stops an include before its file is read: a path already on the stack is a
    circular include, a stack of 64 files is too deep, and in every other case the path is
    pushed. *)
Theorem push_spec st path (Hs : stack_ok st) :
  (path ∈ ancestors st -> exists e, push st path = Fail e /\ Is e (PM ErrCircularInclude) = true) /\
  (path ∉ ancestors st -> length (ancestors st) = maxIncludeDepth ->
     exists e, push st path = Fail e /\ Is e (PM ErrIncludeDepth) = true) /\
  (path ∉ ancestors st -> length (ancestors st) < maxIncludeDepth ->
     exists st', push st path = Ok st' /\ stack_ok st' /\
       ancestors st' = ancestors st ++ [path] /\
       ancestors (pop st') = ancestors st /\ ancestorSet (pop st') = ancestorSet st).
Proof.
  pose proof (so_set _ Hs) as Hset. unfold push. rewrite Hset. split_and!.
  - intros Hin. rewrite decide_True by by apply elem_of_list_to_set. by eexists.
  - intros Hni Hd. rewrite decide_False, decide_True by (rewrite ?elem_of_list_to_set; lia || done).
    by eexists.
  - intros Hni Hd. rewrite decide_False, decide_False by (rewrite ?elem_of_list_to_set; lia || done).
    assert (push st path = Ok (st <| ancestors ::= (fun l => l ++ [path]) |>
      <| ancestorSet ::= (fun a => {[path]} ∪ a) |>)) as Hp.
    { apply push_Ok. rewrite Hset, elem_of_list_to_set. done. }
    eexists. split; [done|]. split; [by eapply push_stack_ok|]. split; [done|].
    destruct (pop_push _ _ _ _ [] Hs Hp (later_refl _ _)) as (Ha & Hse & _). by rewrite Hset in Hse.
Qed.
End props.

(** A diamond: two fragments include a third one, each under an alias of its own. *)
Definition ex_files (source base : string) : result (list (Node (KDL := tree_kdl)) * string) :=
  let job name := Tree "job" [TString name] ∅ [] in
  let include (s al : string) := Tree "include" [TString s] {["as" := TString al]} [] in
  let fragment name kids := Tree "fragment" [TString name] ∅ kids in
  if decide (source = "leaf") then Ok ([fragment "leaf" [job "l"]], "/leaf")
  else if decide (source = "left") then Ok ([fragment "left" [job "a"; include "leaf" "x"]], "/left")
  else if decide (source = "right") then Ok ([fragment "right" [job "b"; include "loop" "y"]], "/right")
  else if decide (source = "loop") then Ok ([fragment "loop" [include "right" "z"]], "/loop")
  else fail_with [source] (Foreign "open").

Definition ex_directive (s : string) : includeDirective := IncludeDirective s "" ConflictError ∅.

Definition ex_resolve (s : string) :=
  resolveInclude (kdl := tree_kdl) (cel := ex_cel) ex_files Ok include_fuel (ex_directive s) "<string>"
    newIncludeState.

Lemma newIncludeState_ok : stack_ok newIncludeState /\ cache_ok newIncludeState.
Proof.
  split; [constructor; cbn; [constructor|done|lia]|]. apply map_Forall_empty.
Qed.

Definition ex_left : list Job.t * includeDirective * includeState :=
  match ex_resolve "left" with Ok r => r | Fail _ => ([], ex_directive "", newIncludeState) end.

Lemma resolveInclude_spec_witness :
  names ex_left.1.1 = ["a"; "l"] /\ alias ex_left.1.2 = "left" /\
  aliases ex_left.2 !! alias ex_left.1.2 = Some (TerminalJobs ex_left.1.1).
Proof.
  split; [vm_compute; reflexivity|]. split; [vm_compute; reflexivity|].
  assert (ex_resolve "left" = Ok (ex_left.1.1, ex_left.1.2, ex_left.2)) as Hok
    by (vm_compute; reflexivity).
  destruct (resolveInclude_spec (kdl := tree_kdl) (cel := ex_cel) ex_files Ok include_fuel
    (ex_directive "left") "<string>" newIncludeState _ _ _ (proj1 newIncludeState_ok)
    (proj2 newIncludeState_ok) Hok) as (_ & _ & _ & _ & _ & _ & Ha & _).
  exact Ha.
Defined.

Lemma resolveInclude_terminates_witness :
  ex_resolve "right" =
    Nat.iter 70 (resolve_body (kdl := tree_kdl) (cel := ex_cel) ex_files Ok)
      (fun _ _ st => Ok ([], ex_directive "never", st)) (ex_directive "right") "<string>" newIncludeState
  /\ is_ok (ex_resolve "right") = false.
Proof.
  split; [|vm_compute; reflexivity]. symmetry.
  apply (resolveInclude_terminates (kdl := tree_kdl) (cel := ex_cel) ex_files Ok 70);
    [apply newIncludeState_ok|apply newIncludeState_ok|unfold maxIncludeDepth; cbn; lia].
Defined.

Definition ex_stack : includeState := IncludeState ["/a"] {["/a"]} ∅ ∅.

Lemma push_spec_witness :
  push newIncludeState "/a" = Ok ex_stack /\
  exists e, push ex_stack "/a" = Fail e /\ Is e (PM ErrCircularInclude) = true.
Proof.
  assert (stack_ok ex_stack) as Hs.
  { constructor; cbn; [apply NoDup_singleton|set_solver|unfold maxIncludeDepth; lia]. }
  split; [vm_compute; reflexivity|]. refine (proj1 (push_spec ex_stack "/a" Hs) _).
  cbn. set_solver.
Defined.
