(* ===== verification/Parser.v ===== *)
(** * The parser (parser.go, resolver.go)

    The root dispatch, the finalisation (aliases, defaults, matrices, validation) and the
    resolvers. *)

From S2P Require Import Prelude Errors GoStrings Regex Conditional Model Defaults Merge Names Params Expand.
From S2P Require Import Secret Validate Paths Kdl Elements JobParse Include IncludeProps.

(** ** resolver.go

    [os.Open] and the working directory of [filepath.Abs] are parameters. *)

Section resolvers.
Context {Reader : Type}.

Definition Resolver : Type := string -> string -> result (Reader * string).

Definition StdinResolver (Stdin : option Reader) (Inner : option Resolver) : Resolver :=
  fun source basePath =>
    if decide (source = "-") then
      match Stdin with
      | None => fail_with [source] (Rsv ErrNilStdin)
      | Some r => Ok (r, stdinFilename)
      end
    else
      match Inner with
      | None => fail_with [source] (Rsv ErrNilInner)
      | Some resolve => resolve source basePath
      end.

(** [filepath.Abs] on Unix: the working directory may be unknown. *)
Definition Abs (Getwd : result string) (path : string) : result string :=
  if IsAbs path then Ok (Clean path) else wd ← Getwd; Ok (FileJoin [wd; path]).

Definition FileResolver (Getwd : result string) (Open : string -> result Reader) : Resolver :=
  fun source basePath =>
    let path := if IsAbs source then source else FileJoin [basePath; source] in
    abs ← map_err (errorf [source; basePath]) (Abs Getwd path);
    f ← map_err (errorf [source; basePath]) (Open abs);
    Ok (f, abs).
End resolvers.
Arguments Resolver : clear implicits.

(** ** parser.go *)

(** [pipelineAcc]. *)
Record pipelineAcc : Type := PipelineAcc {
  acc_Matrix : option Matrix.t;
  acc_Defaults : option Defaults.t;
  acc_Env : list EnvVar.t;
  acc_Secrets : list SecretDecl.t
}.
#[global] Instance pipelineAcc_settable : Settable pipelineAcc :=
  fun r => PipelineAcc (acc_Matrix r) (acc_Defaults r) (acc_Env r) (acc_Secrets r).

(** [finalizePipelineInput]. *)
Module FinalizeInput.
Record t := mk {
  Name : string;
  Jobs : list Job.t;
  Env : list EnvVar.t;
  Secrets : list SecretDecl.t;
  Matrix : option Matrix.t;
  Defaults : option Defaults.t;
  Aliases : gmap string (list string);
  Filename : string
}.
End FinalizeInput.

Section parser.
Context `{kdl : KDL} `{cel : CEL}.
Context {Reader : Type} (Parse : Reader -> result (list Node)) (NewReader : string -> Reader).

Definition finalizePipeline (inp : FinalizeInput.t) : result Pipeline.t :=
  let filename := FinalizeInput.Filename inp in
  jobs ← map_err (errorf [filename]) (ExpandAliases (FinalizeInput.Jobs inp) (FinalizeInput.Aliases inp));
  let jobs := ApplyDefaults jobs (FinalizeInput.Defaults inp) in
  let pl := Pipeline.mk (FinalizeInput.Name inp) jobs (FinalizeInput.Env inp) (FinalizeInput.Secrets inp)
              (FinalizeInput.Matrix inp) (FinalizeInput.Defaults inp) None in
  pl ← map_err (errorf [filename]) (Expand pl);
  '(pl, _) ← map_err (errorf [filename]) (ValidatePipeline (Some pl));
  Ok pl.

Section with_resolver.
Variable Resolve : Resolver Reader.

Definition parsePipelineChild (filename : string)
    (acc : includeState * groupCollector * pipelineAcc) (child : Node)
    : result (includeState * groupCollector * pipelineAcc) :=
  let '(st, gc, a) := acc in
  match NodeType_of (Name child) with
  | NodeTypeStep => job ← parseBareStep child filename; Ok (st, addJob gc job, a)
  | NodeTypeJob => job ← parseJob child filename; Ok (st, addJob gc job, a)
  | NodeTypeDefaults =>
      match acc_Defaults a with
      | Some _ => fail_with [filename; "defaults"] (Pars ErrDuplicateField)
      | None => d ← parseDefaults child filename; Ok (st, gc, a <| acc_Defaults := Some d |>)
      end
  | NodeTypeMatrix =>
      m ← parseMatrix child filename "pipeline";
      m ← setOncePtr (acc_Matrix a) m filename "pipeline" "matrix";
      Ok (st, gc, a <| acc_Matrix := m |>)
  | NodeTypeEnv =>
      ev ← parseEnvNode child filename "pipeline";
      Ok (st, gc, a <| acc_Env ::= (fun l => l ++ [ev]) |>)
  | NodeTypeSecret =>
      sd ← parseSecretDeclNode child filename "pipeline";
      Ok (st, gc, a <| acc_Secrets ::= (fun l => l ++ [sd]) |>)
  | NodeTypeInclude =>
      '(jobs, inc, st) ← resolveChildInclude (resolveInclude Resolve Parse include_fuel) child filename st;
      Ok (st, addInclude gc jobs inc, a)
  | _ => fail_with [filename; Name child] (Pars ErrUnknownNode)
  end.

(** The loop of [parse] over the document and the merge of the groups. *)
Definition parse_document (nodes : list Node) (filename : string) : result FinalizeInput.t :=
  '(st, gc, a) ← foldM (parsePipelineChild filename)
    (newIncludeState, newGroupCollector filename, PipelineAcc None None [] []) nodes;
  merged ← map_err (errorf [filename]) (merge gc);
  Ok (FinalizeInput.mk (nameFromFilename filename) merged (acc_Env a) (acc_Secrets a) (acc_Matrix a)
        (acc_Defaults a) (aliases st) filename).
End with_resolver.

Definition parse (resolver : option (Resolver Reader)) (r : Reader) (filename : string)
    : result Pipeline.t :=
  match resolver with
  | None => Fail (raise (Pars ErrNilResolver))
  | Some Resolve =>
      nodes ← parseKDL Parse r filename;
      inp ← parse_document Resolve nodes filename;
      finalizePipeline inp
  end.

Definition ParseFile (resolver : option (Resolver Reader)) (path : string) : result Pipeline.t :=
  match resolver with
  | None => Fail (raise (Pars ErrNilResolver))
  | Some Resolve =>
      '(rc, resolved) ← map_err (errorf [path]) (Resolve path "");
      parse resolver rc resolved
  end.

Definition ParseString (resolver : option (Resolver Reader)) (content : string) : result Pipeline.t :=
  parse resolver (NewReader content) syntheticFilename.

(** ** The document loop *)

Lemma expanded_pipeline p p' :
  Expand p = Ok p' ->
  Pipeline.Matrix p' = None /\ Forall (fun j => Job.Matrix j = None) (Pipeline.Jobs p') /\
  Pipeline.Name p' = Pipeline.Name p.
Proof.
  intros (p1 & H1 & H2)%Expand_cases. pose proof (expandPipeline_Matrix _ _ H1) as Hm.
  pose proof (expandJobs_no_matrix _ _ H2) as [HF Hm']. split_and!; [congruence|done|].
  transitivity (Pipeline.Name p1).
  - by apply expandJobs_cases in H2 as [[_ ->]|(em & _ & ->)].
  - by apply expandPipeline_cases in H1 as [[_ ->]|(m & _ & _ & _ & _ & ->)].
Qed.

Section props.
Variable Resolve : Resolver Reader.

Lemma parsePipelineChild_inv f st gc a child st' gc' a' :
  file_inv newIncludeState gc st ->
  parsePipelineChild Resolve f (st, gc, a) child = Ok (st', gc', a') ->
  file_inv newIncludeState gc' st'.
Proof.
  intros Hi. unfold parsePipelineChild.
  destruct (NodeType_of _); intros; try discriminate;
    try (destruct (acc_Defaults a); [discriminate|]); open_res;
    first [done|by apply file_inv_addJob
      |by eapply (file_inv_include _ (resolveInclude_ok Resolve Parse include_fuel))].
Qed.

Lemma parse_document_inv nodes f inp :
  parse_document Resolve nodes f = Ok inp ->
  NoDup (names (FinalizeInput.Jobs inp)) /\
  (forall al ts t, FinalizeInput.Aliases inp !! al = Some ts -> t ∈ ts ->
     t ∈ names (FinalizeInput.Jobs inp)).
Proof.
  unfold parse_document. intros. open_res.
  match goal with H : foldM _ _ _ = _ |- _ =>
    apply (foldM_pres (fun acc : includeState * groupCollector * pipelineAcc =>
      file_inv newIncludeState acc.1.2 acc.1.1)) in H as (_ & _ & Hl) end.
  - match goal with H : merge _ = _ |- _ => apply merge_names in H as [Hnd Hn] end.
    split; [done|]. cbn. intros al ts t Hal Ht. destruct Hl as [_ _ _ Hnew].
    apply Hnew in Hal as [Hal|Hts]; [by cbn in Hal|]. apply Hn, (Hts _ Ht).
  - apply file_inv_start; apply newIncludeState_ok.
  - intros [[? ?] ?] n [[? ?] ?] ? ?. by eapply parsePipelineChild_inv.
Qed.
End props.

(** What [parse] guarantees of the pipeline it returns. *)
Definition parsed_ok (filename : string) (p : Pipeline.t) : Prop :=
  well_formed p /\ Pipeline.Matrix p = None /\ Forall (fun j => Job.Matrix j = None) (Pipeline.Jobs p) /\
  Pipeline.Name p = nameFromFilename filename /\
  exists order, Pipeline.TopoOrder p = Some order /\ order ≡ₚ seq 0 (length (Pipeline.Jobs p)) /\
    deps_first (Pipeline.Jobs p) order.

Lemma parse_result resolver r filename p : parse resolver r filename = Ok p -> parsed_ok filename p.
Proof.
  intros Hok. unfold parse in Hok. destruct resolver as [Resolve|]; [|done]. unfold finalizePipeline in Hok. open_res.
  match goal with H : parse_document _ _ _ = Ok ?i |- _ => assert (FinalizeInput.Name i = nameFromFilename filename) as Hname end.
  { unfold parse_document in *. open_res. done. }
  match goal with H : Expand ?q = Ok ?p1, H' : ValidatePipeline (Some ?p1) = Ok (p, ?o) |- _ =>
    rename H into Hexp, H' into Hval; rename p1 into mid; rename o into order end.
  destruct (expanded_pipeline _ _ Hexp) as (Hm & HF & Hn). cbn in Hn.
  pose proof (ValidatePipeline_again _ _ _ Hval) as [Hwf _]%ValidatePipeline_Ok.
  pose proof (ValidatePipeline_sorted _ _ _ Hval) as [Hperm Hfirst].
  apply ValidatePipeline_Ok in Hval as (_ & _ & ->).
  unfold parsed_ok. split_and!; [done|done|by apply Forall_fmap|by rewrite <- Hname|].
  exists order. split_and!; [done|by cbn; rewrite length_fmap|done].
Qed.

Lemma ParseFile_result resolver path p : ParseFile resolver path = Ok p -> exists filename, parsed_ok filename p.
Proof.
  unfold ParseFile. destruct resolver as [Resolve|]; [|done]. intros ([rc resolved] & _ & Hp)%bind_Ok.
  exists resolved. by eapply parse_result.
Qed.

(** ** Properties *)

(** C10: every pipeline the parser returns - from a file or from a string, whatever it
    includes - has passed the whole chain: it is well formed, holds no matrix any more, and
    carries a topological order in which every dependency precedes its dependents. *)
Theorem parse_well_formed resolver r filename p
  (Hok : parse resolver r filename = Ok p) :
  well_formed p /\ Pipeline.Matrix p = None /\ Forall (fun j => Job.Matrix j = None) (Pipeline.Jobs p) /\
  Pipeline.Name p = nameFromFilename filename /\
  exists order, Pipeline.TopoOrder p = Some order /\ order ≡ₚ seq 0 (length (Pipeline.Jobs p)) /\
    deps_first (Pipeline.Jobs p) order.
Proof. by eapply parse_result. Qed.

(** In a parsed document the job names are distinct and every alias an include has
    registered - at the top, in nested files or through the cache - stands for names of
    jobs of the document, so that expanding aliases never introduces an unknown name. *)
Theorem parse_document_aliases Resolve nodes filename inp
  (Hok : parse_document Resolve nodes filename = Ok inp) :
  NoDup (names (FinalizeInput.Jobs inp)) /\
  (forall al ts t, FinalizeInput.Aliases inp !! al = Some ts -> t ∈ ts ->
     t ∈ names (FinalizeInput.Jobs inp)).
Proof. by eapply parse_document_inv. Qed.

(** Finalisation accepts exactly when alias expansion, matrix expansion and validation
    do, in that order, and reports the first that fails with its own sentinels. *)
Theorem finalizePipeline_errors inp e
  (Herr : finalizePipeline inp = Fail e) :
  let jobs' := ExpandAliases (FinalizeInput.Jobs inp) (FinalizeInput.Aliases inp) in
  let pl jobs := Pipeline.mk (FinalizeInput.Name inp) (ApplyDefaults jobs (FinalizeInput.Defaults inp))
    (FinalizeInput.Env inp) (FinalizeInput.Secrets inp) (FinalizeInput.Matrix inp)
    (FinalizeInput.Defaults inp) None in
  exists e', e = errorf [FinalizeInput.Filename inp] e' /\
    (jobs' = Fail e' \/
     exists jobs, jobs' = Ok jobs /\
       (Expand (pl jobs) = Fail e' \/
        exists p, Expand (pl jobs) = Ok p /\ ValidatePipeline (Some p) = Fail e')).
Proof.
  unfold finalizePipeline in Herr. cbv zeta in *.
  repeat match goal with
  | H : _ ≫= _ = Fail _ |- _ => apply bind_Fail in H as [H|(? & ? & H)]
  | H : map_err _ _ = Fail _ |- _ => apply map_err_Fail in H as (? & H & ->)
  | H : map_err _ _ = Ok _ |- _ => apply map_err_Ok in H
  | x : Pipeline.t * list nat |- _ => destruct x
  end; try discriminate; eauto 10.
Qed.
End parser.

(** ** Examples *)

Definition ex_document : list (Node (KDL := tree_kdl)) :=
  [Tree "defaults" [] ∅ [Tree "image" [TString "alpine"] ∅ []];
   Tree "step" [TString "test"] ∅
     [Tree "run" [TString "make test"] ∅ []; Tree "depends-on" [TString "left"] ∅ []];
   Tree "include" [TString "left"] ∅ []].

Definition ex_run (name : string) := Tree "job" [TString name] ∅
  [Tree "step" [TString "s"] ∅ [Tree "run" [TString "make"] ∅ []]].

Definition ex_sources (source base : string) : result (list (Node (KDL := tree_kdl)) * string) :=
  if decide (source = "left") then
    Ok ([Tree "fragment" [TString "left"] ∅
           [ex_run "a"; Tree "include" [TString "leaf"] ∅ []]], "/left")
  else if decide (source = "leaf") then Ok ([ex_run "l"], "/leaf.kdl")
  else fail_with [source] (Foreign "open").

Definition ex_parse : result Pipeline.t :=
  ParseString (kdl := tree_kdl) (cel := ex_cel) Ok (fun _ => ex_document) (Some ex_sources) "".

Definition ex_parsed : Pipeline.t :=
  match ex_parse with Ok p => p | Fail _ => Pipeline.mk "" [] [] [] None None None end.

(** The dependency on the fragment has become dependencies on its terminal jobs. *)
Lemma parse_well_formed_witness :
  names (Pipeline.Jobs ex_parsed) = ["test"; "a"; "l"] /\
  (Job.DependsOn <$> Pipeline.Jobs ex_parsed) = [["a"; "l"]; []; []] /\
  well_formed (cel := ex_cel) ex_parsed.
Proof.
  split; [vm_compute; reflexivity|]. split; [vm_compute; reflexivity|].
  refine (proj1 (parse_well_formed (kdl := tree_kdl) (cel := ex_cel) Ok (Some ex_sources) ex_document
    syntheticFilename ex_parsed _)).
  vm_compute. reflexivity.
Defined.

Definition ex_input : FinalizeInput.t :=
  match parse_document (kdl := tree_kdl) (cel := ex_cel) Ok ex_sources ex_document "ci.kdl" with
  | Ok i => i | Fail _ => FinalizeInput.mk "" [] [] [] None None ∅ "" end.

Lemma parse_document_aliases_witness :
  FinalizeInput.Aliases ex_input !! "left" = Some ["a"; "l"] /\
  (forall al ts t, FinalizeInput.Aliases ex_input !! al = Some ts -> t ∈ ts ->
     t ∈ names (FinalizeInput.Jobs ex_input)).
Proof.
  split; [vm_compute; reflexivity|].
  refine (proj2 (parse_document_aliases (kdl := tree_kdl) (cel := ex_cel) Ok ex_sources ex_document
    "ci.kdl" ex_input _)).
  vm_compute. reflexivity.
Defined.

Definition ex_broken : FinalizeInput.t :=
  FinalizeInput.mk "p" [Job.empty "a"] [] [] None None {["a" := ["b"]]} "ci.kdl".

Definition ex_broken_error : error :=
  match finalizePipeline (cel := ex_cel) ex_broken with Fail e => e | Ok _ => raise OutOfFuel end.

Lemma finalizePipeline_errors_witness :
  Is ex_broken_error (PM ErrAliasCollision) = true /\
  exists e', ex_broken_error = errorf ["ci.kdl"] e'.
Proof.
  split; [vm_compute; reflexivity|].
  destruct (finalizePipeline_errors (cel := ex_cel) ex_broken ex_broken_error) as (e' & He & _);
    [vm_compute; reflexivity|].
  exists e'. exact He.
Defined.
