(* ===== verification/DocPrint.v ===== *)
(** * Round trip of whole documents

    [printDocument] writes what a document holds - defaults, matrix, environment, secrets and
    jobs - as the nodes of a new one.  The parser reads it back, so printing the jobs a
    document has after merging, and parsing them again, yields the same pipeline. *)

From S2P Require Import Prelude Errors GoStrings Regex Conditional Model Merge Names Expand Secret Validate Duration Paths Kdl Elements JobParse.
From S2P Require Import ElementPrint JobPrint Include IncludeProps Parser.

Section doc_print.
Context `{kdl : KDL} `{!KdlBuilder kdl} `{cel : CEL}.
Implicit Types (f scope : string) (n : Node).

(** ** Printing *)

Definition source_text (s : SecretSource) : string :=
  match s with
  | SecretSourceHostEnv => "hostEnv" | SecretSourceFile => "file" | SecretSourceCmd => "cmd" | SecretSourceOther s => s
  end.

Definition printSecretDecl (d : SecretDecl.t) : Node :=
  MkNode "secret" [VString (SecretDecl.Name d)] ∅
    [leaf PropSource (source_text (SecretDecl.Source d)); leaf PropVar (SecretDecl.Var d);
     leaf PropPath (SecretDecl.Path d); leaf PropCmd (SecretDecl.Cmd d)].

Definition printDefaults (d : Defaults.t) : Node :=
  MkNode "defaults" [] ∅
    (str_node "image" (Defaults.Image d) ++ str_node "workdir" (Defaults.Workdir d) ++ (printMount <$> Defaults.Mounts d) ++
     (printEnv <$> Defaults.Env d) ++ opt_node printShell (Defaults.Shell d)).

Definition printDocument (inp : FinalizeInput.t) : list Node :=
  opt_node printDefaults (FinalizeInput.Defaults inp) ++ opt_node printMatrix (FinalizeInput.Matrix inp) ++
  (printEnv <$> FinalizeInput.Env inp) ++ (printSecretDecl <$> FinalizeInput.Secrets inp) ++ (printJob <$> FinalizeInput.Jobs inp).

(** ** What the parser returns *)

Definition parsed_decl (d : SecretDecl.t) : Prop :=
  SecretSource_of (source_text (SecretDecl.Source d)) = SecretDecl.Source d /\ SecretDecl.Source d <> SecretSourceOther "".
Definition parsed_defaults (d : Defaults.t) : Prop := opt_all (fun l => l <> []) (Defaults.Shell d).

Lemma SecretSource_text v : SecretSource_of (source_text (SecretSource_of v)) = SecretSource_of v.
Proof. unfold SecretSource_of. repeat case_decide; subst; try done; cbn; by rewrite ?decide_False by done. Qed.

Lemma secret_decl_field_parsed f scope name seen d n acc :
  SecretSource_of (source_text (SecretDecl.Source d)) = SecretDecl.Source d \/ SecretDecl.Source d = SecretSourceOther "" ->
  secret_decl_field f scope name (seen, d) n = Ok acc ->
  SecretSource_of (source_text (SecretDecl.Source acc.2)) = SecretDecl.Source acc.2 \/ SecretDecl.Source acc.2 = SecretSourceOther "".
Proof.
  intros Hd. unfold secret_decl_field. cbv zeta. case_decide; [done|]. destruct (secret_field _); [|done]. intros. open_res. cbn.
  repeat case_decide; cbn; try done. left. apply SecretSource_text.
Qed.

Lemma parseSecretDeclNode_parsed n f scope d : parseSecretDeclNode n f scope = Ok d -> parsed_decl d.
Proof.
  unfold parseSecretDeclNode. intros. open_res. case_decide as Hne; [done|]. open_res. split; [|done].
  match goal with H : foldM _ _ _ = _ |- _ =>
    apply (foldM_inv (fun _ (acc : gset string * SecretDecl.t) =>
      SecretSource_of (source_text (SecretDecl.Source acc.2)) = SecretDecl.Source acc.2 \/ SecretDecl.Source acc.2 = SecretSourceOther "")) in H
  end; [|by right|intros ? [? ?] ? ? _ ? ?; by eapply secret_decl_field_parsed].
  by destruct_or!.
Qed.

Lemma parseShellNode_parsed n f scope l : parseShellNode n f scope = Ok l -> l <> [].
Proof.
  unfold parseShellNode. case_decide as Hne; [done|]. intros Hl%forM_length ->. rewrite length_seq in Hl. by destruct (Arguments n).
Qed.

Lemma parseDefaults_parsed n f d : parseDefaults n f = Ok d -> parsed_defaults d.
Proof.
  unfold parseDefaults. case_decide; [done|]. apply (foldM_inv (fun _ => parsed_defaults)); [by intros ? [=]|].
  intros _ b c b' _ Hb. unfold defaults_field. destruct (NodeType_of _); intros; try discriminate; try (open_res; exact Hb).
  destruct (Defaults.Shell b); [done|]. open_res. intros l [= <-]. by eapply parseShellNode_parsed.
Qed.

(** ** Parsing what was printed *)

(** Select the case of a node by its name. *)
#[local] Ltac select_node nm :=
  match goal with |- context [NodeType_of (Name ?n)] =>
    let H := fresh in
    assert (Name n = nm) as H by apply Name_MkNode; rewrite H; clear H end;
  let t := eval vm_compute in (NodeType_of nm) in change (NodeType_of nm) with t;
  cbv beta iota zeta.

Lemma foldM_print {S X} (step : S -> Node -> result S) (print : X -> Node) (upd : list X -> S -> S) (P : X -> Prop) l s :
  (forall s, upd [] s = s) -> (forall s x l, upd l (upd [x] s) = upd (x :: l) s) ->
  (forall s x, P x -> step s (print x) = Ok (upd [x] s)) -> Forall P l -> foldM step s (print <$> l) = Ok (upd l s).
Proof.
  intros Hnil Hcons Hstep HF. revert s. induction HF as [|x l Hx _ IH]; intros s; cbn; [by rewrite Hnil|].
  rewrite Hstep by done. cbn. by rewrite IH, Hcons.
Qed.

Lemma secret_field_leaf f scope name seen d field v :
  secret_field field = true -> field ∉ seen ->
  secret_decl_field f scope name (seen, d) (leaf field v) =
  Ok ({[field]} ∪ seen,
      if decide (field = PropSource) then d <| SecretDecl.Source := SecretSource_of v |>
      else if decide (field = PropVar) then d <| SecretDecl.Var := v |>
      else if decide (field = PropPath) then d <| SecretDecl.Path := v |>
      else d <| SecretDecl.Cmd := v |>).
Proof.
  intros Hf Hs. unfold secret_decl_field, leaf, too_many, reject_props, first_prop. cbv zeta.
  rewrite Name_MkNode, Arguments_MkNode, Properties_MkNode, requireStringArg_built, decide_False, Hf by done.
  rewrite bool_decide_false by (cbn; lia). done.
Qed.

Lemma parseSecretDeclNode_print d f scope : parsed_decl d -> parseSecretDeclNode (printSecretDecl d) f scope = Ok d.
Proof.
  intros [Hs Hne]. unfold parseSecretDeclNode, printSecretDecl, too_many, reject_props, first_prop, childrenOf.
  rewrite requireStringArg_built, Arguments_MkNode, Properties_MkNode, Children_MkNode, bool_decide_false by (cbn; lia).
  cbn [guard_fail map_err mbind res_bind]. change (head (sorted_keys ∅)) with (@None string). cbn [mbind res_bind foldM].
  do 4 (rewrite secret_field_leaf by first [reflexivity|set_solver]; cbn [mbind res_bind]). rewrite Hs. cbn.
  rewrite decide_False by done. by destruct d.
Qed.

#[local] Ltac eta := let x := fresh in intros x; destruct x; cbn; rewrite ?app_nil_r; reflexivity.
#[local] Ltac assoc := let x := fresh in intros x ? ?; destruct x; cbn; rewrite <- ?app_assoc; reflexivity.

Lemma defaults_mounts f d l :
  foldM (defaults_field f) d (printMount <$> l) = Ok (d <| Defaults.Mounts ::= (fun k => k ++ l) |>).
Proof.
  apply (foldM_print _ _ (fun l d => d <| Defaults.Mounts ::= (fun k => k ++ l) |>) (fun _ => True)); [eta|assoc| |by apply Forall_true].
  intros s x _. unfold defaults_field. select_node "mount". by rewrite parseMount_print.
Qed.

Lemma defaults_env f d l :
  foldM (defaults_field f) d (printEnv <$> l) = Ok (d <| Defaults.Env ::= (fun k => k ++ l) |>).
Proof.
  apply (foldM_print _ _ (fun l d => d <| Defaults.Env ::= (fun k => k ++ l) |>) (fun _ => True)); [eta|assoc| |by apply Forall_true].
  intros s x _. unfold defaults_field. select_node "env". by rewrite parseEnvNode_print.
Qed.

Lemma defaults_image f d v :
  Defaults.Image d = "" -> foldM (defaults_field f) d (str_node "image" v) = Ok (d <| Defaults.Image := v |>).
Proof.
  intros Hd. unfold str_node. case_decide as Hv; cbn; [subst v; destruct d; cbn in *; by subst|].
  unfold defaults_field, leaf. select_node "image". rewrite requireStringArg_built. cbn. unfold setOnce. by rewrite decide_True.
Qed.

Lemma defaults_workdir f d v :
  Defaults.Workdir d = "" -> foldM (defaults_field f) d (str_node "workdir" v) = Ok (d <| Defaults.Workdir := v |>).
Proof.
  intros Hd. unfold str_node. case_decide as Hv; cbn; [subst v; destruct d; cbn in *; by subst|].
  unfold defaults_field, leaf. select_node "workdir". rewrite requireStringArg_built. cbn. unfold setOnce. by rewrite decide_True.
Qed.

Lemma defaults_shell f d o :
  Defaults.Shell d = None -> opt_all (fun l => l <> []) o ->
  foldM (defaults_field f) d (opt_node printShell o) = Ok (d <| Defaults.Shell := o |>).
Proof.
  intros Hd Ho. destruct o as [l|]; cbn; [|destruct d; cbn in *; by subst].
  unfold defaults_field. select_node "shell". rewrite Hd, parseShellNode_print by by apply Ho. done.
Qed.

Lemma parseDefaults_print d f : parsed_defaults d -> parseDefaults (printDefaults d) f = Ok d.
Proof.
  intros Hd. unfold parseDefaults, printDefaults, childrenOf. rewrite Arguments_MkNode, Children_MkNode.
  rewrite decide_False by (cbn; lia). destruct d as [image workdir mounts env shell]. cbn in *.
  rewrite foldM_app, defaults_image by done. cbn [mbind res_bind]. rewrite foldM_app, defaults_workdir by done. cbn [mbind res_bind].
  rewrite foldM_app, defaults_mounts. cbn [mbind res_bind]. rewrite foldM_app, defaults_env. cbn [mbind res_bind].
  by rewrite defaults_shell.
Qed.

(** ** The document loop *)

Section document.
Context {Reader : Type} (Parse : Reader -> result (list Node)) (Resolve : Resolver Reader).
Abbreviation child := (parsePipelineChild Parse Resolve).
Abbreviation loop_state := (includeState * groupCollector * pipelineAcc)%type.

(** A document of its own: no node includes another. *)
Definition no_includes (nodes : list Node) : Prop := Forall (fun n => NodeType_of (Name n) <> NodeTypeInclude) nodes.

(** What the loop has collected beside the jobs. *)
Record parts_ok (a : pipelineAcc) : Prop := {
  po_defaults : opt_all parsed_defaults (acc_Defaults a);
  po_matrix : opt_all parsed_matrix (acc_Matrix a);
  po_secrets : Forall parsed_decl (acc_Secrets a)
}.

(** Open the case of a node. *)
#[local] Ltac open_child :=
  intros; try match goal with H : context [match acc_Defaults ?a with _ => _ end] |- _ => destruct (acc_Defaults a); [discriminate|] end; open_res.

Lemma child_parts f acc n acc' : parts_ok acc.2 -> child f acc n = Ok acc' -> parts_ok acc'.2.
Proof.
  intros Hp. pose proof Hp as [Hd Hm Hs]. destruct acc as [[st gc] a]. unfold parsePipelineChild. cbn [fst snd] in *.
  destruct (NodeType_of (Name n)); try done; open_child; try exact Hp; constructor; cbn; try done.
  - intros d [= <-]. by eapply parseDefaults_parsed.
  - match goal with H : setOncePtr _ _ _ _ _ = Ok _ |- _ => apply setOncePtr_Ok in H as [_ ->] end.
    intros m [= <-]. by eapply parseMatrix_parsed.
  - apply Forall_app. rewrite Forall_singleton. split; [done|]. by eapply parseSecretDeclNode_parsed.
Qed.

(** Without includes the jobs are one group, as they were parsed. *)
Record own_jobs f (acc : loop_state) : Prop := {
  oj_state : acc.1.1 = newIncludeState;
  oj_groups : acc.1.2 = GroupCollector (inline acc.1.2) [] f;
  oj_jobs : Forall parsed_job (inline acc.1.2)
}.

Lemma own_job f gc (a : pipelineAcc) j :
  own_jobs f (newIncludeState, gc, a) -> parsed_job j -> own_jobs f (newIncludeState, addJob gc j, a).
Proof.
  intros [_ Hg Hj] Hp. constructor; cbn in *; try done; [by rewrite Hg|]. apply Forall_app. by rewrite Forall_singleton.
Qed.

Lemma child_own f acc n acc' :
  NodeType_of (Name n) <> NodeTypeInclude -> own_jobs f acc -> child f acc n = Ok acc' -> own_jobs f acc'.
Proof.
  intros Hn Hc. pose proof Hc as [Hst Hg Hj]. destruct acc as [[st gc] a]. unfold parsePipelineChild. cbn [fst snd] in *.
  subst st. destruct (NodeType_of (Name n)) eqn:Ht; try done; open_child.
  all: try (apply own_job; [done|]; first [by eapply parseJob_parsed|by eapply parseBareStep_parsed]).
  all: by constructor.
Qed.

Abbreviation go f := (foldM (child f)).
Abbreviation empty_acc := (PipelineAcc None None [] []).

Lemma loop_parts f nodes acc : go f (newIncludeState, newGroupCollector f, empty_acc) nodes = Ok acc -> parts_ok acc.2.
Proof.
  apply (foldM_inv (fun _ (acc : loop_state) => parts_ok acc.2)); [constructor; cbn; try done; constructor|].
  intros _ b n b' _ Hb Hs. by eapply child_parts.
Qed.

Lemma loop_own f nodes acc :
  no_includes nodes -> go f (newIncludeState, newGroupCollector f, empty_acc) nodes = Ok acc -> own_jobs f acc.
Proof.
  intros Hn. apply (foldM_inv (fun _ => own_jobs f)); [constructor; cbn; try done; constructor|].
  intros _ b n b' Hin Hb Hs. eapply child_own; [|exact Hb|exact Hs]. unfold no_includes in Hn. rewrite Forall_forall in Hn. by apply Hn.
Qed.

(** Jobs with names of their own are merged as they are. *)
Lemma first_by_name_id l : NoDup (Job.Name <$> l) -> first_by_name l = l.
Proof.
  induction l as [|j l IH] using rev_ind; [done|]. rewrite fmap_app, NoDup_app. intros (Hl & Hj & _).
  rewrite first_by_name_snoc, decide_False, IH; [done..|]. intros Hin. apply (Hj _ Hin). by left.
Qed.

Lemma no_conflict_id g l : NoDup (Job.Name <$> l) -> no_conflict ((g,.) <$> l).
Proof.
  intros Hnd l1 g' j l2 Heq _. apply (f_equal (fmap snd)) in Heq. rewrite <- list_fmap_compose in Heq.
  change (snd ∘ (g,.)) with (@id Job.t) in Heq. rewrite list_fmap_id, fmap_app in Heq. cbn in Heq. subst l.
  rewrite fmap_app, NoDup_app in Hnd. destruct Hnd as (_ & Hd & _). intros Hin. apply (Hd _ Hin). by left.
Qed.

Lemma no_conflict_names g l :
  JobGroup.OnConflict g = ConflictError -> no_conflict ((g,.) <$> l) -> NoDup (Job.Name <$> l).
Proof.
  intros Hg. induction l as [|k m IH] using rev_ind; [constructor|]. rewrite fmap_app. intros [Hc Hk]%no_conflict_snoc.
  specialize (Hk Hg). rewrite <- (list_fmap_compose (g,.) snd) in Hk.
  rewrite (list_fmap_id m : (snd ∘ (g,.)) <$> m = m) in Hk. rewrite fmap_app. apply NoDup_app. split_and!; [by apply IH| |apply NoDup_singleton]. by intros x Hx ->%list_elem_of_singleton.
Qed.

Lemma merge_inline l f : NoDup (Job.Name <$> l) -> merge (GroupCollector l [] f) = Ok l.
Proof.
  intros Hnd. unfold merge, flush. cbn [inline groups app origin]. destruct l as [|j l]; [done|].
  set (g := JobGroup.mk (j :: l) f ConflictError). apply MergeJobs_Ok.
  change (no_conflict (((g,.) <$> j :: l) ++ []) /\ j :: l = first_by_name (((g,.) <$> j :: l) ++ []).*2).
  rewrite app_nil_r, <- list_fmap_compose. change (snd ∘ (g,.)) with (@id Job.t). rewrite list_fmap_id.
  split; [by apply no_conflict_id|by rewrite first_by_name_id].
Qed.

Lemma merge_own l f merged : merge (GroupCollector l [] f) = Ok merged -> merged = l.
Proof.
  unfold merge, flush. cbn [inline groups app origin]. destruct l as [|j l]; [by intros [= <-]|].
  set (g := JobGroup.mk (j :: l) f ConflictError). intros [Hc ->]%MergeJobs_Ok.
  change (no_conflict (((g,.) <$> j :: l) ++ [])) in Hc. change (first_by_name (((g,.) <$> j :: l) ++ []).*2 = j :: l).
  rewrite app_nil_r in Hc |- *. rewrite <- list_fmap_compose. change (snd ∘ (g,.)) with (@id Job.t). rewrite list_fmap_id.
  apply first_by_name_id. exact (no_conflict_names g (j :: l) eq_refl Hc).
Qed.

(** ** The loop over a printed document *)

Lemma loop_defaults f st gc a o :
  acc_Defaults a = None -> opt_all parsed_defaults o ->
  go f (st, gc, a) (opt_node printDefaults o) = Ok (st, gc, a <| acc_Defaults := o |>).
Proof.
  intros Ha Ho. destruct o as [d|]; cbn; [|destruct a; cbn in *; by subst].
  unfold parsePipelineChild. select_node "defaults". rewrite Ha, parseDefaults_print by by apply Ho. done.
Qed.

Lemma loop_matrix f st gc a o :
  acc_Matrix a = None -> opt_all parsed_matrix o ->
  go f (st, gc, a) (opt_node printMatrix o) = Ok (st, gc, a <| acc_Matrix := o |>).
Proof.
  intros Ha Ho. destruct o as [m|]; cbn; [|destruct a; cbn in *; by subst].
  unfold parsePipelineChild. select_node "matrix". rewrite parseMatrix_print by by apply Ho. cbn. by rewrite Ha.
Qed.

Lemma loop_env f acc l :
  go f acc (printEnv <$> l) = Ok (acc.1, acc.2 <| acc_Env ::= (fun k => k ++ l) |>).
Proof.
  apply (foldM_print _ _ (fun l (acc : loop_state) => (acc.1, acc.2 <| acc_Env ::= (fun k => k ++ l) |>)) (fun _ => True));
    [intros [x a]|intros [x a] ? ?| |by apply Forall_true].
  - destruct a. cbn. by rewrite app_nil_r.
  - destruct a. cbn. by rewrite <- app_assoc.
  - intros [[st gc] a] x _. unfold parsePipelineChild. select_node "env". by rewrite parseEnvNode_print.
Qed.

Lemma loop_secrets f acc l :
  Forall parsed_decl l -> go f acc (printSecretDecl <$> l) = Ok (acc.1, acc.2 <| acc_Secrets ::= (fun k => k ++ l) |>).
Proof.
  apply (foldM_print _ _ (fun l (acc : loop_state) => (acc.1, acc.2 <| acc_Secrets ::= (fun k => k ++ l) |>)) parsed_decl);
    [intros [x a]|intros [x a] ? ?|].
  - destruct a. cbn. by rewrite app_nil_r.
  - destruct a. cbn. by rewrite <- app_assoc.
  - intros [[st gc] a] x Hx. unfold parsePipelineChild. select_node "secret". by rewrite parseSecretDeclNode_print.
Qed.

Lemma loop_jobs f acc l :
  Forall parsed_job l ->
  go f acc (printJob <$> l) = Ok (acc.1.1, GroupCollector (inline acc.1.2 ++ l) (groups acc.1.2) (origin acc.1.2), acc.2).
Proof.
  apply (foldM_print _ _ (fun l (acc : loop_state) =>
    (acc.1.1, GroupCollector (inline acc.1.2 ++ l) (groups acc.1.2) (origin acc.1.2), acc.2)) parsed_job).
  - intros [[st gc] a]. destruct gc. cbn. by rewrite app_nil_r.
  - intros [[st gc] a] x k. destruct gc. cbn. by rewrite <- app_assoc.
  - intros [[st gc] a] x Hx. unfold parsePipelineChild. select_node "job". by rewrite parseJob_print.
Qed.

Lemma printed_parses f inp :
  parts_ok (PipelineAcc (FinalizeInput.Matrix inp) (FinalizeInput.Defaults inp) (FinalizeInput.Env inp) (FinalizeInput.Secrets inp)) ->
  Forall parsed_job (FinalizeInput.Jobs inp) -> NoDup (names (FinalizeInput.Jobs inp)) ->
  parse_document Parse Resolve (printDocument inp) f =
  Ok (FinalizeInput.mk (nameFromFilename f) (FinalizeInput.Jobs inp) (FinalizeInput.Env inp) (FinalizeInput.Secrets inp)
        (FinalizeInput.Matrix inp) (FinalizeInput.Defaults inp) ∅ f).
Proof.
  intros [Hd Hm Hs] Hj Hnd. cbn in *. unfold parse_document, printDocument.
  rewrite foldM_app, loop_defaults by done. cbn [mbind res_bind]. rewrite foldM_app, loop_matrix by done. cbn [mbind res_bind].
  rewrite foldM_app, loop_env. cbn [mbind res_bind]. rewrite foldM_app, loop_secrets by done. cbn [mbind res_bind].
  rewrite loop_jobs by done. cbn -[merge]. by rewrite merge_inline.
Qed.

Lemma document_parts f nodes inp :
  parse_document Parse Resolve nodes f = Ok inp ->
  FinalizeInput.Name inp = nameFromFilename f /\ FinalizeInput.Filename inp = f /\ NoDup (names (FinalizeInput.Jobs inp)) /\
  parts_ok (PipelineAcc (FinalizeInput.Matrix inp) (FinalizeInput.Defaults inp) (FinalizeInput.Env inp) (FinalizeInput.Secrets inp)).
Proof.
  unfold parse_document. intros ([[st gc] a] & Hl & (merged & Hm & [= <-])%bind_Ok)%bind_Ok. apply map_err_Ok in Hm.
  pose proof (loop_parts f nodes _ Hl) as Hp. apply merge_names in Hm as [Hnd _]. split_and!; [done|done|done|]. by destruct a.
Qed.
End document.

(** ** Properties *)

Section round_trip.
Context {Reader : Type} (Parse : Reader -> result (list Node)) (Resolve Resolve' : Resolver Reader).

Lemma expand_job_parsed aliases j : parsed_job j -> parsed_job (expand_job aliases j).
Proof. rewrite expand_job_eq. intros []. by constructor. Qed.

Lemma expanded_jobs jobs aliases jobs' :
  ExpandAliases jobs aliases = Ok jobs' -> Forall parsed_job jobs -> Forall parsed_job jobs' /\ names jobs' = names jobs.
Proof.
  unfold ExpandAliases. case_decide; [by intros [= <-]|]. intros (? & _ & [= <-])%bind_Ok Hj. split.
  - apply Forall_fmap. eapply Forall_impl; [exact Hj|]. intros j. apply expand_job_parsed.
  - unfold names. rewrite <- list_fmap_compose. apply list_fmap_ext. intros _ j _. cbn. by rewrite expand_job_eq.
Qed.

Lemma printed_alone inp : no_includes (printDocument inp).
Proof.
  unfold no_includes, printDocument, opt_node. rewrite !Forall_app. split_and!.
  1,2: case_match; [apply Forall_singleton|constructor]; unfold printDefaults, printMatrix; rewrite Name_MkNode; discriminate.
  all: apply Forall_fmap, Forall_true; intros x; unfold compose, printEnv, printSecretDecl, printJob; rewrite Name_MkNode; discriminate.
Qed.

(** What a document without includes parses to, the printed one parses to again. *)
Lemma print_flat nodes f inp :
  no_includes nodes -> parse_document Parse Resolve nodes f = Ok inp ->
  parse_document Parse Resolve' (printDocument inp) f = Ok inp.
Proof.
  intros Hinc Hparse. pose proof (document_parts Parse Resolve f nodes inp Hparse) as (_ & _ & Hnd & Hparts).
  unfold parse_document in Hparse. apply bind_Ok in Hparse as ([[st gc] a] & Hl & (merged & Hm & [= <-])%bind_Ok).
  apply map_err_Ok in Hm. pose proof (loop_own Parse Resolve f nodes _ Hinc Hl) as [Hst Hg Hj]. cbn [fst snd] in *. subst st.
  rewrite Hg in Hm. apply merge_own in Hm as ->. by rewrite printed_parses.
Qed.

(** The jobs with the aliases of the includes expanded make a document of their own. *)
Lemma print_bundle nodes f inp p :
  parse_document Parse Resolve nodes f = Ok inp -> finalizePipeline inp = Ok p -> Forall parsed_job (FinalizeInput.Jobs inp) ->
  exists flat, no_includes (printDocument flat) /\ parse_document Parse Resolve' (printDocument flat) f = Ok flat /\
    finalizePipeline flat = Ok p.
Proof.
  intros Hparse Hfin Hjobs. pose proof (document_parts Parse Resolve f nodes inp Hparse) as (Hname & Hfile & Hnd & Hparts).
  unfold finalizePipeline in Hfin. apply bind_Ok in Hfin as (jobs & Hexp%map_err_Ok & Hfin).
  destruct (expanded_jobs _ _ _ Hexp Hjobs) as [Hj Hn].
  exists (FinalizeInput.mk (FinalizeInput.Name inp) jobs (FinalizeInput.Env inp) (FinalizeInput.Secrets inp)
    (FinalizeInput.Matrix inp) (FinalizeInput.Defaults inp) ∅ (FinalizeInput.Filename inp)).
  split; [apply printed_alone|]. split; [|done].
  rewrite printed_parses by (cbn; first [done|unfold names in *; by rewrite Hn]). cbn. by rewrite Hname, Hfile.
Qed.

(** C11: what the parser makes of a document can be written down again.  A document that
    includes nothing is printed - with every step in a job of its own, whatever the order
    and the sugar of the original - to nodes that parse to the same defaults, matrix,
    environment, secrets and jobs, field by field, and so to the same pipeline or the same
    error, whatever resolver is used.  And a pipeline that is spread over files and fragments
    can be bundled: when the jobs it has after inclusion are jobs a document can hold (a
    parameter substituted into them may make a field empty), they, with the aliases of the
    includes expanded, are printed to one document that includes nothing, parses without
    the sources and is finalized to the same pipeline. *)
Theorem parse_print_document nodes f inp (Hparse : parse_document Parse Resolve nodes f = Ok inp) :
  (no_includes nodes ->
   parse_document Parse Resolve' (printDocument inp) f = Ok inp /\
   forall r r', Parse r = Ok nodes -> Parse r' = Ok (printDocument inp) ->
     parse Parse (Some Resolve') r' f = parse Parse (Some Resolve) r f) /\
  (forall p, Forall parsed_job (FinalizeInput.Jobs inp) -> finalizePipeline inp = Ok p ->
   exists flat, no_includes (printDocument flat) /\ parse_document Parse Resolve' (printDocument flat) f = Ok flat /\
     finalizePipeline flat = Ok p).
Proof.
  split; [intros Hinc|by intros; eapply print_bundle]. pose proof (print_flat nodes f inp Hinc Hparse) as Hdoc.
  split; [done|]. intros r r' Hr Hr'. unfold parse, parseKDL. rewrite Hr, Hr'. cbn [map_err mbind res_bind].
  by rewrite Hdoc, Hparse.
Qed.
End round_trip.
End doc_print.

(** ** Witness *)

Definition ex_flat : list (Node (KDL := tree_kdl)) :=
  [Tree "job" [TString "build"] ∅
     [Tree "image" [TString "golang"] ∅ []; Tree "step" [TString "s"] ∅ [Tree "run" [TString "make"] ∅ []]];
   Tree "secret" [TString "token"] ∅ [Tree "source" [TString "cmd"] ∅ []; Tree "cmd" [TString "vault read"] ∅ []];
   Tree "defaults" [] ∅ [Tree "image" [TString "alpine"] ∅ []; Tree "shell" [TString "sh"] ∅ []];
   Tree "step" [TString "test"] ∅ [Tree "run" [TString "make test"] ∅ []; Tree "depends-on" [TString "build"] ∅ []];
   Tree "matrix" [] ∅ [Tree "os" [TString "linux"; TString "darwin"] ∅ []];
   Tree "env" [TString "CI"; TString "1"] ∅ []].

Definition ex_flat_input : FinalizeInput.t :=
  match parse_document (kdl := tree_kdl) (cel := ex_cel) Ok ex_sources ex_flat "ci.kdl" with
  | Ok i => i | Fail _ => FinalizeInput.mk "" [] [] [] None None ∅ "" end.

Definition ex_bundle_input : FinalizeInput.t :=
  match parse_document (kdl := tree_kdl) (cel := ex_cel) Ok ex_sources ex_document syntheticFilename with
  | Ok i => i | Fail _ => FinalizeInput.mk "" [] [] [] None None ∅ "" end.

(** A resolver that finds nothing. *)
Definition no_sources (source base : string) : result (list (Node (KDL := tree_kdl)) * string) :=
  fail_with [source] (Foreign "open").

(** The document with an include needs its sources to be parsed, the bundle does not. *)
Lemma parse_print_document_witness :
  (length (printDocument (kdl := tree_kdl) (KdlBuilder0 := tree_builder) ex_flat_input) = 6 /\
   exists p, parse (kdl := tree_kdl) (cel := ex_cel) Ok (Some no_sources)
     (printDocument (kdl := tree_kdl) (KdlBuilder0 := tree_builder) ex_flat_input) "ci.kdl" = Ok p) /\
  (exists e, parse (kdl := tree_kdl) (cel := ex_cel) Ok (Some no_sources) ex_document syntheticFilename = Fail e) /\
  exists flat, no_includes (kdl := tree_kdl) (printDocument (KdlBuilder0 := tree_builder) flat) /\
    parse_document (kdl := tree_kdl) (cel := ex_cel) Ok no_sources (printDocument (KdlBuilder0 := tree_builder) flat)
      syntheticFilename = Ok flat /\
    finalizePipeline (cel := ex_cel) flat = Ok ex_parsed.
Proof.
  split; [split; [vm_compute; reflexivity|]|split; [eexists; vm_compute; reflexivity|]].
  - refine (ex_intro _ _ (eq_trans (proj2 (proj1 (parse_print_document (kdl := tree_kdl) (KdlBuilder0 := tree_builder)
      (cel := ex_cel) Ok ex_sources no_sources ex_flat "ci.kdl" ex_flat_input _) _) ex_flat _ eq_refl eq_refl) _)).
    + vm_compute. reflexivity.
    + repeat constructor; discriminate.
    + vm_compute. reflexivity.
  - refine (proj2 (parse_print_document (kdl := tree_kdl) (KdlBuilder0 := tree_builder) (cel := ex_cel)
      Ok ex_sources no_sources ex_document syntheticFilename ex_bundle_input _) ex_parsed _ _).
    + vm_compute. reflexivity.
    + vm_compute. repeat constructor; discriminate.
    + vm_compute. reflexivity.
Defined.
