(* ===== verification/Retry.v ===== *)
(** * Retries (node.go: retryJob, retryDelay, checkedMul; solve.go: solveStep)

    The two retry loops of the runner have the same shape; [retry_loop] is that shape over
    an environment that says what every attempt, context check and timer does.  [int] and
    [time.Duration] are 64-bit: [maxAttempts] wraps. *)

From S2P Require Import Prelude Errors GoStrings Regex Conditional Model.

(** ** Delays *)

Definition maxDelay : Z := MaxInt.

Definition checkedMul (d n : Z) : Z :=
  if decide (n <= 0)%Z then 0%Z else
  if decide (d <= 0 \/ n = 1)%Z then d else
  if decide (MaxInt / n < d)%Z then maxDelay else wrap64 (d * n).

Definition retryDelay (r : Retry.t) (attempt : Z) : Z :=
  match Retry.Backoff r with
  | BackoffLinear => checkedMul (Retry.Delay r) (wrap64 (attempt + 1))
  | BackoffExponential =>
      if decide (63 <= attempt)%Z then maxDelay
      else checkedMul (Retry.Delay r) (Z.shiftl 1 attempt)
  | _ => Retry.Delay r
  end.

(** ** The loop *)

(** What one attempt does: it succeeds, it fails and may be retried, or it fails for a
    reason that is not retried (building or marshalling a step, reading its reference). *)
Inductive attempt_result (A : Type) : Type :=
  | Succeeds (a : A)
  | Fails (e : error)
  | Aborts (e : error).
Arguments Succeeds {A} a.
Arguments Fails {A} e.
Arguments Aborts {A} e.

(** The outside world during a retry loop: the attempts, the cause of a cancellation seen
    right after a failed attempt, and the cause of one seen while sleeping. *)
Record retry_env (A : Type) : Type := RetryEnv {
  attempt_at : Z -> attempt_result A;
  cancelled_after : Z -> option error;
  cancelled_during_sleep : Z -> option error
}.
Arguments RetryEnv {A}.
Arguments attempt_at {A}.
Arguments cancelled_after {A}.
Arguments cancelled_during_sleep {A}.

(** What the loop does, in order: attempts, retry messages and sleeps. *)
Inductive retry_event : Type :=
  | EvAttempt (attempt : Z)
  | EvRetryMsg (attempt maxAttempts : Z) (err : error)
  | EvSleep (delay : Z).

Section loop.
Context {A : Type} (env : retry_env A) (delay : Z -> Z) (maxAttempts : Z).

(** [n] rounds are left of [for attempt := range maxAttempts]; [last] is [lastErr], with
    [None] the state in which nothing has been attempted. *)
Fixpoint retry_loop (n : nat) (attempt : Z) (last : option error)
    : result (option A) * list retry_event :=
  match n with
  | O => (match last with Some e => Fail e | None => Ok None end, [])
  | S n' =>
      match attempt_at env attempt with
      | Succeeds a => (Ok (Some a), [EvAttempt attempt])
      | Aborts e => (Fail e, [EvAttempt attempt])
      | Fails e =>
          if decide (attempt = maxAttempts - 1)%Z then (Fail e, [EvAttempt attempt]) else
          match cancelled_after env attempt with
          | Some cause => (Fail cause, [EvAttempt attempt])
          | None =>
              let msg := EvRetryMsg (attempt + 2) maxAttempts e in
              let d := delay attempt in
              if decide (0 < d)%Z then
                match cancelled_during_sleep env attempt with
                | Some cause => (Fail cause, [EvAttempt attempt; msg; EvSleep d])
                | None =>
                    let '(r, evs) := retry_loop n' (attempt + 1) (Some e) in
                    (r, EvAttempt attempt :: msg :: EvSleep d :: evs)
                end
              else
                let '(r, evs) := retry_loop n' (attempt + 1) (Some e) in
                (r, EvAttempt attempt :: msg :: evs)
          end
      end
  end.
End loop.

(** [1 + r.Attempts] in 64 bits; a range over a negative count is empty. *)
Definition max_attempts (r : Retry.t) : Z := wrap64 (1 + Retry.Attempts r).

(** [retryJob].  [A] is what a successful solve leaves behind (the step outputs it stores in
    the node); [Ok None] is a nil error without any successful solve. *)
Definition retryJob {A} (r : option Retry.t) (env : retry_env A) : result (option A) * list retry_event :=
  match r with
  | None =>
      (match attempt_at env 0 with Succeeds a => Ok (Some a) | Fails e | Aborts e => Fail e end,
       [EvAttempt 0])
  | Some r => retry_loop env (retryDelay r) (max_attempts r) (Z.to_nat (max_attempts r)) 0 None
  end.

(** [solveStep]: without a retry block there is one attempt.  The value is the state and
    reference of the step; an empty range returns the zero values, here [None]. *)
Definition solveStep {A} (r : option Retry.t) (env : retry_env A) : result (option A) * list retry_event :=
  match r with
  | None => retry_loop env (fun _ => 0%Z) 1 1 0 None
  | Some r => retry_loop env (retryDelay r) (max_attempts r) (Z.to_nat (max_attempts r)) 0 None
  end.

(** ** Delays: closed forms *)

Lemma checkedMul_spec d n :
  (1 <= n <= MaxInt)%Z -> (0 <= d <= MaxInt)%Z -> checkedMul d n = Z.min MaxInt (d * n).
Proof.
  intros Hn Hd. unfold checkedMul. rewrite decide_False by lia.
  case_decide as H1; [destruct H1; nia|].
  case_decide as H2.
  - unfold maxDelay. symmetry. apply Z.min_l.
    pose proof (Z.mul_succ_div_gt MaxInt n ltac:(lia)). nia.
  - assert (d * n <= MaxInt)%Z by (pose proof (Z.mul_div_le MaxInt n ltac:(lia)); nia).
    rewrite Z.min_r, wrap64_id by (unfold MaxInt in *; nia). done.
Qed.

Lemma retryDelay_linear r attempt :
  Retry.Backoff r = BackoffLinear -> (0 <= Retry.Delay r <= MaxInt)%Z -> (0 <= attempt < MaxInt)%Z ->
  retryDelay r attempt = Z.min MaxInt (Retry.Delay r * (attempt + 1)).
Proof.
  intros Hb Hd Ha. unfold retryDelay. rewrite Hb, wrap64_id by (unfold MaxInt in *; lia).
  apply checkedMul_spec; lia.
Qed.

Lemma retryDelay_exponential r attempt :
  Retry.Backoff r = BackoffExponential -> (0 < Retry.Delay r <= MaxInt)%Z -> (0 <= attempt)%Z ->
  retryDelay r attempt = Z.min MaxInt (Retry.Delay r * 2 ^ attempt).
Proof.
  intros Hb Hd Ha. unfold retryDelay. rewrite Hb. case_decide as H63.
  - unfold maxDelay. symmetry. apply Z.min_l.
    pose proof (Z.pow_le_mono_r 2 63 attempt ltac:(lia) ltac:(lia)). unfold MaxInt in *. nia.
  - rewrite Z.shiftl_1_l. apply checkedMul_spec; [|lia].
    pose proof (Z.pow_le_mono_r 2 attempt 62 ltac:(lia) ltac:(lia)).
    pose proof (Z.pow_pos_nonneg 2 attempt ltac:(lia) ltac:(lia)). unfold MaxInt. lia.
Qed.

(** ** What the loop does *)

Definition attempts_of (evs : list retry_event) : list Z :=
  omap (fun ev => match ev with EvAttempt k => Some k | _ => None end) evs.

Definition sleeps_of (evs : list retry_event) : list Z :=
  omap (fun ev => match ev with EvSleep d => Some d | _ => None end) evs.

Section loop_props.
Context {A : Type} (env : retry_env A) (delay : Z -> Z).
Implicit Types (k : Z).

(** Attempt [k] fails and nothing stops the loop before the next one. *)
Definition continues (k : Z) : Prop :=
  (exists e, attempt_at env k = Fails e) /\ cancelled_after env k = None /\
  ((0 < delay k)%Z -> cancelled_during_sleep env k = None).

(** What the loop returns when attempt [k] is the last one it makes. *)
Definition stop_result (maxAttempts k : Z) : result (option A) :=
  match attempt_at env k with
  | Succeeds a => Ok (Some a)
  | Aborts e => Fail e
  | Fails e =>
      if decide (k = maxAttempts - 1)%Z then Fail e else
      match cancelled_after env k, cancelled_during_sleep env k with
      | Some cause, _ | None, Some cause => Fail cause
      | None, None => Ok None
      end
  end.

(** The sleeps between the attempts. *)
Definition sleeps_before (k : Z) : list Z :=
  filter (fun d => 0 < d)%Z (delay <$> seqZ 0 k).

Lemma retry_loop_from n start last maxAttempts :
  0 < n -> maxAttempts = (start + Z.of_nat n)%Z ->
  exists k, (start <= k < maxAttempts)%Z /\
    (forall i, (start <= i < k)%Z -> continues i) /\
    (k = maxAttempts - 1 \/ ~ continues k)%Z /\
    (retry_loop env delay maxAttempts n start last).1 = stop_result maxAttempts k /\
    attempts_of (retry_loop env delay maxAttempts n start last).2 = seqZ start (k - start + 1).
Proof.
  intros Hn Hm. revert start last Hn Hm. induction n as [|n IH]; intros start last Hn Hm; [lia|].
  assert (forall k, k = start -> seqZ start (k - start + 1) = [start]) as Hone.
  { intros k ->. rewrite seqZ_cons by lia. f_equal. apply seqZ_nil. lia. }
  assert ((start <= start < maxAttempts)%Z /\ (forall i, (start <= i < start)%Z -> continues i)) as Hstart
    by (split; [lia|intros; lia]).
  destruct (decide (start = maxAttempts - 1)%Z) as [Hlast|Hlast].
  { exists start. destruct Hstart as [Hr Hc]. split; [exact Hr|]. split; [exact Hc|]. split; [by left|]. split.
    - cbn [retry_loop]. unfold stop_result.
      destruct (attempt_at env start); [done| |done]. by rewrite !(decide_True _ _ Hlast).
    - cbn [retry_loop]. rewrite Hone by done.
      destruct (attempt_at env start); [done| |done]. by rewrite (decide_True _ _ Hlast). }
  destruct (IH (start + 1)%Z None) as (k' & Hk' & _); [lia|lia|].
  assert (continues start \/ ~ continues start) as [Hc|Hc].
  { unfold continues. destruct (attempt_at env start), (cancelled_after env start),
      (cancelled_during_sleep env start), (decide (0 < delay start)%Z); naive_solver. }
  - pose proof Hc as ((e & He) & Hca & Hcs). cbn [retry_loop].
    rewrite He, (decide_False _ _ Hlast), Hca.
    destruct (IH (start + 1)%Z (Some e)) as (k & Hk & Hcont & Hend & Hres & Hatt); [lia|lia|].
    exists k. split; [lia|]. split.
    { intros i Hi. destruct (decide (i = start)) as [->|]; [done|]. apply Hcont. lia. }
    split; [done|].
    assert (seqZ start (k - start + 1) = start :: seqZ (start + 1) (k - (start + 1) + 1)) as ->.
    { rewrite seqZ_cons by lia. do 2 f_equal; lia. }
    rewrite <- Hres, <- Hatt. case_decide as Hd.
    + rewrite (Hcs Hd). destruct (retry_loop _ _ _ n _ _). done.
    + destruct (retry_loop _ _ _ n _ _). done.
  - exists start. destruct Hstart as [Hr Hnone]. split; [exact Hr|]. split; [exact Hnone|]. split; [by right|]. split.
    all: cbn [retry_loop]; rewrite ?Hone by done; unfold stop_result, continues in Hc |- *;
      destruct (attempt_at env start) as [a|e|e] eqn:He; [done| |done];
      rewrite ?(decide_False _ _ Hlast);
      destruct (cancelled_after env start) eqn:Hca; [done|];
      destruct (decide (0 < delay start)%Z) as [Hd|Hd]; [|exfalso; apply Hc; eauto with lia];
      destruct (cancelled_during_sleep env start) eqn:Hcs; [done|exfalso; apply Hc; eauto].
Qed.
End loop_props.

(** ** Properties *)

(** C27: the delay before retry [attempt] for a retry block that passed validation: linear
    back-off is the delay times the attempt number and exponential back-off the delay
    times a power of two, both capped at the largest duration without ever wrapping,
    otherwise the delay itself.  The one exception is exponential back-off with a zero
    delay, which sleeps for the largest duration from attempt 63 on. *)
Theorem retryDelay_spec r attempt
  (Hd : (0 <= Retry.Delay r <= MaxInt)%Z) (Ha : (0 <= attempt < MaxInt)%Z) :
  retryDelay r attempt =
    match Retry.Backoff r with
    | BackoffLinear => Z.min MaxInt (Retry.Delay r * (attempt + 1))
    | BackoffExponential =>
        if decide (Retry.Delay r = 0 /\ 63 <= attempt)%Z then MaxInt
        else Z.min MaxInt (Retry.Delay r * 2 ^ attempt)
    | _ => Retry.Delay r
    end /\
  (0 <= retryDelay r attempt <= MaxInt)%Z.
Proof.
  assert (forall x y, retryDelay r attempt = x -> (0 <= x <= MaxInt)%Z -> x = y ->
    retryDelay r attempt = y /\ (0 <= retryDelay r attempt <= MaxInt)%Z) as Hand by (intros; subst; lia).
  destruct (Retry.Backoff r) eqn:Hb;
    try (eapply Hand; [by unfold retryDelay; rewrite Hb|lia|done]).
  - eapply Hand; [by apply retryDelay_linear| |done].
    pose proof (Z.mul_nonneg_nonneg (Retry.Delay r) (attempt + 1) ltac:(lia) ltac:(lia)).
    unfold MaxInt. lia.
  - destruct (decide (Retry.Delay r = 0)%Z) as [H0|H0].
    + destruct (decide (63 <= attempt)%Z) as [H63|H63].
      * rewrite decide_True by done. apply (Hand MaxInt); [|unfold MaxInt; lia|reflexivity].
        unfold retryDelay. by rewrite Hb, decide_True by done.
      * rewrite decide_False by lia. eapply (Hand 0%Z); [|unfold MaxInt; lia|rewrite H0; unfold MaxInt; lia].
        unfold retryDelay. rewrite Hb, decide_False, H0, Z.shiftl_1_l by done. unfold checkedMul.
        pose proof (Z.pow_pos_nonneg 2 attempt ltac:(lia) ltac:(lia)).
        rewrite decide_False by lia. by rewrite decide_True by lia.
    + rewrite decide_False by lia. eapply Hand; [apply retryDelay_exponential; [done|lia..]| |reflexivity].
      pose proof (Z.pow_pos_nonneg 2 attempt ltac:(lia) ltac:(lia)).
      pose proof (Z.mul_nonneg_nonneg (Retry.Delay r) (2 ^ attempt) ltac:(lia) ltac:(lia)).
      unfold MaxInt. lia.
Qed.

Lemma retryDelay_spec_witness :
  retryDelay (Retry.mk 100 0 BackoffExponential) 63 = MaxInt /\
  (0 <= retryDelay (Retry.mk 100 0 BackoffExponential) 63 <= MaxInt)%Z.
Proof.
  split; [reflexivity|]. apply retryDelay_spec; unfold MaxInt; cbn; lia.
Defined.

(** C26: [retryJob] with a retry block makes attempts 0, 1, ... up to one attempt [k], at most
    [1 + Attempts] of them, and returns what attempt [k] decides: nil if it succeeded, its
    error if it was the last allowed one, the cancellation cause otherwise.  Every earlier
    attempt failed without a cancellation, and the loop stops early for no other reason.
    That holds for every number of retries that the parser and the validator accept but the
    largest [int]: for that one the sum wraps, no attempt is made and nil is returned. *)
Theorem retryJob_spec {A} r (env : retry_env A) (Ha : (0 <= Retry.Attempts r <= MaxInt)%Z) :
  let N := (1 + Retry.Attempts r)%Z in
  (Retry.Attempts r <> MaxInt ->
   exists k, (0 <= k < N)%Z /\
     (forall i, (0 <= i < k)%Z -> continues env (retryDelay r) i) /\
     (k = N - 1 \/ ~ continues env (retryDelay r) k)%Z /\
     (retryJob (Some r) env).1 = stop_result env N k /\
     attempts_of (retryJob (Some r) env).2 = seqZ 0 (k + 1)) /\
  (Retry.Attempts r = MaxInt -> retryJob (Some r) env = (Ok None, [])).
Proof.
  cbv zeta. split; [intros Hmax|intros Hmax; unfold retryJob, max_attempts; by rewrite Hmax].
  assert (max_attempts r = 1 + Retry.Attempts r)%Z as HN
    by (unfold max_attempts; apply wrap64_id; unfold MaxInt in *; lia).
  unfold retryJob. rewrite HN.
  destruct (retry_loop_from env (retryDelay r) (Z.to_nat (1 + Retry.Attempts r)) 0 None (1 + Retry.Attempts r))
    as (k & Hk & Hc & Hend & Hres & Hatt); [lia|lia|].
  exists k. split; [exact Hk|]. split; [exact Hc|]. split; [exact Hend|].
  split; [exact Hres|]. rewrite Hatt. f_equal. lia.
Qed.

(** Two failures, then a success. *)
Definition ex_env : retry_env unit := {|
  attempt_at := fun k => if decide (k < 2)%Z then Fails (raise (Foreign "exit 1")) else Succeeds tt;
  cancelled_after := fun _ => None;
  cancelled_during_sleep := fun _ => None
|}.

Lemma retryJob_spec_witness :
  let r := Retry.mk 5 1000 BackoffExponential in
  retryJob (Some r) ex_env =
    (Ok (Some tt), [EvAttempt 0; EvRetryMsg 2 6 (raise (Foreign "exit 1")); EvSleep 1000;
             EvAttempt 1; EvRetryMsg 3 6 (raise (Foreign "exit 1")); EvSleep 2000; EvAttempt 2]) /\
  exists k, (0 <= k < 6)%Z /\ attempts_of (retryJob (Some r) ex_env).2 = seqZ 0 (k + 1).
Proof.
  cbv zeta. split; [vm_compute; reflexivity|].
  destruct (proj1 (retryJob_spec (Retry.mk 5 1000 BackoffExponential) ex_env ltac:(unfold MaxInt; cbn; lia)))
    as (k & Hk & _ & _ & _ & Hs); [discriminate|].
  exists k. split; [exact Hk|exact Hs].
Defined.

(** With the largest number of retries that parses and validates, [1 + Attempts] wraps
    to a negative count: neither the job nor the step is attempted at all, and [retryJob]
    reports success. *)
Theorem retry_overflow {A} r (env : retry_env A) (Ha : Retry.Attempts r = MaxInt) :
  retryJob (Some r) env = (Ok None, []) /\ solveStep (Some r) env = (Ok None, []).
Proof. unfold retryJob, solveStep, max_attempts. rewrite Ha. split; reflexivity. Qed.

Lemma retry_overflow_witness :
  retryJob (Some (Retry.mk MaxInt 0 BackoffNone)) ex_env = (Ok None, []).
Proof. apply (retry_overflow (Retry.mk MaxInt 0 BackoffNone) ex_env). reflexivity. Defined.
