(* ===== verification/Progress.v ===== *)
(** * Progress messages and status updates (progressmodel.go)

    The values that flow from BuildKit and the runner to the displays: [client.SolveStatus]
    with its vertices and logs, and the messages of [progressmodel].  A [time.Time] is its
    count of nanoseconds in [Z]; [time.Duration] is 64-bit.  BuildKit never puts nil
    pointers into a status, so the slices hold the structs themselves. *)

From S2P Require Import Prelude Errors GoStrings Regex Conditional Model.

(** ** The part of package time the displays use *)

(** [t.Sub(u)] saturates. *)
Definition time_Sub (t u : Z) : Z := Z.max (- 2 ^ 63) (Z.min MaxInt (t - u)).

Definition Millisecond : Z := 1000000.

(** [Duration.Round]: to the nearest multiple, half away from zero, saturating. *)
Definition Round (d m : Z) : Z :=
  if decide (m <= 0)%Z then d else
  let r := Z.rem d m in
  if decide (d < 0)%Z then
    let r := (- r)%Z in
    if decide (r + r < m)%Z then d + r else
    let d1 := wrap64 (d - m + r) in if decide (d1 < d)%Z then d1 else - 2 ^ 63
  else
    if decide (r + r < m)%Z then d - r else
    let d1 := wrap64 (d + m - r) in if decide (d < d1)%Z then d1 else MaxInt.

(** ** BuildKit's status updates *)

Module Vertex.
Record t := mk { Digest : string; Name : string; Started : option Z; Completed : option Z; Cached : bool; Error : string }.
#[global] Instance settable : Settable t := fun r =>
  mk (Digest r) (Name r) (Started r) (Completed r) (Cached r) (Error r).
End Vertex.

Module VertexLog.
Record t := mk { Vertex : string; Data : string }.
#[global] Instance settable : Settable t := fun r => mk (Vertex r) (Data r).
End VertexLog.

Module VertexWarning.
Record t := mk { Short : string; Detail : list string }.
End VertexWarning.

Module SolveStatus.
Record t := mk { Vertexes : list Vertex.t; Logs : list VertexLog.t; Warnings : list VertexWarning.t }.
End SolveStatus.

(** ** Messages *)

(** [progressmodel.CmdInfo]. *)
Module CmdInfo.
Record t := mk { UserCmd : string; FullCmd : string }.
#[global] Instance eq_dec : EqDecision t.
Proof. solve_decision. Defined.
End CmdInfo.

(** [DisplayError]: the message for the user and the wrapped chain. *)
Record DisplayError : Type := NewDisplayError { Human : string; Internal : error }.

(** A nil [StepTimeouts] is [None]: the interactive display tells it from an empty map.
    Reading a nil [CmdInfos] and reading an empty one are the same. *)
Inductive msg : Type :=
  | JobAddedMsg (Job : string) (StepTimeouts : option (gmap string Z)) (CmdInfos : gmap string CmdInfo.t)
  | JobStatusMsg (Job : string) (Status : SolveStatus.t)
  | JobDoneMsg (Job : string)
  | JobSkippedMsg (Job : string)
  | StepSkippedMsg (Job Step : string)
  | JobRetryMsg (Job : string) (Attempt MaxAttempts : Z) (Err : error)
  | StepRetryMsg (Job Step : string) (Attempt MaxAttempts : Z) (Err : error)
  | StepAllowedFailureMsg (Job Step : string) (Err : error)
  | JobTimeoutMsg (Job : string) (Timeout : Z)
  | ErrorMsg (Err : option DisplayError)
  | LogMsg (Job : string) (Level : Z) (Message : string)
  | SyncMsg (FilesWalked FilesHashed CacheHits : Z).

(** [%q] of a text without special characters, such as a job or step name. *)
Definition quoted (s : string) : string := String "034" (s +:+ String "034" EmptyString).

(** ** Vertex errors *)

(** [strings.LastIndex]. *)
Fixpoint LastIndex (s sub : string) : option nat :=
  match s with
  | "" => if decide (sub = "") then Some 0 else None
  | String _ s' =>
      match LastIndex s' sub with
      | Some i => Some (S i)
      | None => if HasPrefix s sub then Some 0 else None
      end
  end.

Definition exit_marker : string := "did not complete successfully: ".

Definition ExitInfo (errStr : string) : string :=
  match LastIndex errStr exit_marker with
  | Some idx => str_drop (idx + String.length exit_marker) errStr
  | None => errStr
  end.

Definition IsTimeoutExitCode (vertexError : string) (cfgTimeout : Z) : bool :=
  if decide (cfgTimeout = 0)%Z then false else
  let s := TrimSpace vertexError in
  HasSuffix s "exit code: 124" || HasSuffix s "exit code: 137".

(** ** Lemmas *)

(** Within the range of durations, rounding moves by at most half a unit. *)
Lemma Round_bounds d m :
  (0 < m)%Z -> (- 2 ^ 63 + m <= d <= MaxInt - m)%Z -> (2 * Z.abs (Round d m - d) <= m /\ (m | Round d m))%Z.
Proof.
  unfold Round, MaxInt. intros Hm Hd. rewrite decide_False by lia.
  pose proof (Z.quot_rem d m ltac:(lia)) as Hq.
  assert (forall x, x = m * Z.quot d m \/ x = m * (Z.quot d m + 1) \/ x = m * (Z.quot d m - 1) -> (m | x))%Z as Hdiv.
  { intros x Hx. destruct Hx as [ ->|[ ->| ->]]; apply Z.divide_factor_l. }
  case_decide as Hneg.
  - pose proof (Z.rem_bound_pos (- d) m ltac:(lia) ltac:(lia)) as Hr. rewrite Z.rem_opp_l in Hr by lia.
    case_decide as Hh; [split; [lia|apply Hdiv; lia]|].
    rewrite wrap64_id by (unfold MaxInt; lia). rewrite decide_True by lia. split; [lia|apply Hdiv; lia].
  - pose proof (Z.rem_bound_pos d m ltac:(lia) ltac:(lia)) as Hr.
    case_decide as Hh; [split; [lia|apply Hdiv; lia]|].
    rewrite wrap64_id by (unfold MaxInt; lia). rewrite decide_True by lia. split; [lia|apply Hdiv; lia].
Qed.

Lemma LastIndex_Some s sub i :
  LastIndex s sub = Some i -> HasPrefix (str_drop i s) sub = true /\ i <= String.length s.
Proof.
  revert i. induction s as [|c s IH]; intros i; cbn [LastIndex].
  - case_decide as Hs; [|done]. intros [= <-]. subst. by split.
  - destruct (LastIndex s sub) as [j|].
    + intros [= <-]. destruct (IH j eq_refl). split; [done|cbn; lia].
    + destruct (HasPrefix (String c s) sub) eqn:Hp; [|done]. intros [= <-]. split; [done|cbn; lia].
Qed.

Lemma LastIndex_last s sub i j :
  LastIndex s sub = Some i -> i < j -> j <= String.length s -> HasPrefix (str_drop j s) sub = false.
Proof.
  revert i j. induction s as [|c s IH]; intros i j; cbn [LastIndex String.length].
  - intros _ H1 H2. lia.
  - intros Hl Hij Hj. destruct j as [|j]; [lia|]. cbn [str_drop]. destruct (LastIndex s sub) as [k|] eqn:Hk.
    + injection Hl as <-. eapply IH; [done|lia|lia].
    + clear Hl IH Hij. revert j Hj. clear c i. revert Hk. induction s as [|c s IHs]; cbn [LastIndex String.length]; intros Hk j Hj.
      * assert (j = 0) as -> by (cbn in Hj; lia). cbn [str_drop]. case_decide as Hs; [done|]. by destruct sub.
      * destruct (LastIndex s sub) eqn:Hk'; [done|]. destruct (HasPrefix (String c s) sub) eqn:Hp; [done|].
        destruct j as [|j]; [done|]. apply IHs; [done|lia].
Qed.

(** [ExitInfo] on an error that has the marker: the text after its last occurrence. *)
Lemma ExitInfo_marker s i :
  LastIndex s exit_marker = Some i -> s = str_take i s +:+ exit_marker +:+ ExitInfo s.
Proof.
  intros Hi. unfold ExitInfo. rewrite Hi. apply LastIndex_Some in Hi as [[t Ht]%HasPrefix_spec Hlen].
  assert (s = str_take i s +:+ str_drop i s) as Hs.
  { clear Ht t. revert i Hlen. induction s as [|c s IH]; intros [|i] Hlen; cbn in *; try done.
    rewrite append_cons. f_equal. apply IH. lia. }
  assert (String.length (str_take i s) = i) as Hti.
  { clear Ht t Hs. revert i Hlen. induction s as [|c s IH]; intros [|i] Hlen; cbn in *; try lia. f_equal. apply IH. lia. }
  rewrite Hs at 1. rewrite Ht. f_equal. f_equal. rewrite Hs at 1. rewrite Ht. rewrite <- Hti at 1.
  rewrite str_drop_app_add. by rewrite str_drop_app.
Qed.
