(* ===== verification/Dag.v ===== *)
(** * The runner's job graph (runnermodel/types.go; runner.go: buildDAG, detectCycles,
    filterSuccessful; node.go: collectDepOutputs)

    The runner receives solved LLB definitions instead of pipeline jobs and checks the
    dependency graph again before it starts a goroutine per job. *)

From S2P Require Import Prelude Errors GoStrings Regex Conditional Model Defaults Secret Progress.
From S2P Require Import Dfs Validate.

(** ** Data *)

(** BuildKit's client library: LLB definitions, states and the zero state [llb.State{}]. *)
Class LLB : Type := {
  Definition_ : Type;
  State_ : Type;
  zero_state : State_
}.

(** Parsed [$CICADA_OUTPUT] pairs; node outputs are a map or nil. *)
Abbreviation outputs := (gmap string string).

(** [runnermodel.StepExec]. *)
Module StepExec.
Section step_exec.
Context `{LLB}.
Record t : Type := mk {
  Name : string;
  Retry : option Retry.t;
  AllowFailure : bool;
  Timeouts : gmap string Z;
  CmdInfos : gmap string CmdInfo.t;
  Build : State_ -> Z -> result State_
}.
End step_exec.
End StepExec.

(** [DeferredEvaluator]: the [EvaluateDeferred] method of a deferred condition. *)
Abbreviation DeferredEvaluator := (Context.t -> gmap string outputs -> result bool).

(** [runnermodel.Job]; [Steps] is nil for a monolithic solve. *)
Module RunJob.
Section run_job.
Context `{LLB}.
Record t : Type := mk {
  Name : string;
  Definition' : option Definition_;
  DependsOn : list string;
  When : option DeferredEvaluator;
  Env : gmap string string;
  Matrix : gmap string string;
  OutputDef : option Definition_;
  SkippedSteps : list string;
  Timeout : Z;
  Retry : option Retry.t;
  StepTimeouts : gmap string Z;
  CmdInfos : gmap string CmdInfo.t;
  Steps : option (list StepExec.t);
  BaseState : State_
}.
End run_job.
End RunJob.

Section dag.
Context `{LLB}.

(** [dagNode]; [done] says whether the channel is closed. *)
Record dagNode : Type := DagNode {
  job : RunJob.t;
  done : bool;
  err : option error;
  skipped : bool;
  node_outputs : option outputs
}.

Definition newNode (j : RunJob.t) : dagNode := DagNode j false None false None.

(** ** buildDAG *)

Definition dag_step (nodes : gmap string dagNode) (j : RunJob.t) : result (gmap string dagNode) :=
  if decide (is_Some (nodes !! RunJob.Name j)) then fail_with [RunJob.Name j] (PM ErrDuplicateJob)
  else Ok (<[RunJob.Name j := newNode j]> nodes).

Definition dep_step (nodes : gmap string dagNode) (j : RunJob.t) (u : unit) (dep : string)
    : result unit :=
  if decide (is_Some (nodes !! dep)) then Ok tt
  else fail_with [RunJob.Name j; dep] (PM ErrUnknownDep).

(** The successors of a name; reading an absent node would dereference a nil pointer. *)
Definition node_deps (nodes : gmap string dagNode) (name : string) : list string :=
  match nodes !! name with Some n => RunJob.DependsOn (job n) | None => [] end.

Definition cycle_error (name : string) : error := errorf [name] (raise (PM ErrCycleDetected)).

(** The search recurses at most once per node on any path. *)
Definition detectCycles (range : gmap string dagNode -> list string) (nodes : gmap string dagNode)
    : result unit :=
  _ ← visit_all (node_deps nodes) (fun _ dep => Ok dep) cycle_error (S (size nodes)) (range nodes);
  Ok tt.

(** [range] is the order in which Go happens to iterate over the map of nodes. *)
Definition buildDAG (range : gmap string dagNode -> list string) (jobs : list RunJob.t)
    : result (gmap string dagNode) :=
  nodes ← foldM dag_step ∅ jobs;
  foldM (fun u j => foldM (dep_step nodes j) u (RunJob.DependsOn j)) tt jobs;;
  detectCycles range nodes;;
  Ok nodes.

(** ** Reading finished nodes *)

Definition succeeded (n : dagNode) : bool := bool_decide (err n = None) && negb (skipped n).

(** The condition of [filterSuccessful]: names outside the DAG pass through. *)
Definition publishable (nodes : gmap string dagNode) (name : string) : bool :=
  match nodes !! name with None => true | Some n => succeeded n end.

Definition filterSuccessful {T} (items : list T) (nodes : gmap string dagNode) (jobName : T -> string)
    : list T :=
  filter (fun item => publishable nodes (jobName item) = true) items.

Definition collectDepOutputs (nodes : gmap string dagNode) (deps : list string) : gmap string outputs :=
  foldl (fun result dep =>
    match nodes !! dep with
    | Some n => match node_outputs n with
                | Some o => <[dep := o]> result
                | None => result
                end
    | None => result
    end) ∅ deps.

(** ** The graph of a job list *)

(** Names and dependencies are all that scheduling looks at. *)
Definition shape (jobs : list RunJob.t) : list (string * list string) :=
  (fun j => (RunJob.Name j, RunJob.DependsOn j)) <$> jobs.

Definition depends_on (l : list (string * list string)) (n m : string) : Prop :=
  exists ds, (n, ds) ∈ l /\ m ∈ ds.

(** What a schedulable graph is: unique names, known dependencies, no cycle. *)
Definition schedulable (l : list (string * list string)) : Prop :=
  NoDup l.*1 /\ (forall n m, depends_on l n m -> m ∈ l.*1) /\ (forall n, ~ tc (depends_on l) n n).

(** The nodes before any goroutine runs. *)
Definition initial_nodes (jobs : list RunJob.t) : gmap string dagNode :=
  list_to_map ((fun j => (RunJob.Name j, newNode j)) <$> jobs).

Lemma shape_names jobs : (shape jobs).*1 = RunJob.Name <$> jobs.
Proof. unfold shape. rewrite <- list_fmap_compose. done. Qed.

Lemma initial_keys jobs : ((fun j => (RunJob.Name j, newNode j)) <$> jobs).*1 = RunJob.Name <$> jobs.
Proof. rewrite <- list_fmap_compose. done. Qed.

Lemma dag_loop nodes jobs nodes' :
  foldM dag_step nodes jobs = Ok nodes' <->
  NoDup (RunJob.Name <$> jobs) /\ (forall j, j ∈ jobs -> nodes !! RunJob.Name j = None) /\
  nodes' = initial_nodes jobs ∪ nodes.
Proof.
  revert nodes. induction jobs as [|j jobs IH]; intros nodes; cbn [foldM].
  - unfold initial_nodes. cbn. rewrite (left_id_L ∅ (∪)). split; [intros; inv_ok|intros (_ & _ & ->); done].
    split; [constructor|]. split; [set_solver|done].
  - rewrite bind_Ok. unfold dag_step at 1. rewrite fmap_cons, NoDup_cons. split.
    + intros (n1 & H1 & (Hnd & Hfree & ->)%IH). case_decide as Hj; [done|]. inv_ok.
      rewrite <- eq_None_not_Some in Hj. split_and!; [|done| |].
      * intros (k & Hk & Hin)%list_elem_of_fmap. specialize (Hfree k Hin). rewrite <- Hk in Hfree.
        by rewrite lookup_insert_eq in Hfree.
      * intros k [->|Hin]%elem_of_cons; [done|]. specialize (Hfree k Hin).
        by apply lookup_insert_None in Hfree as [? _].
      * unfold initial_nodes. cbn. rewrite <- insert_union_l, <- insert_union_r; [done|].
        fold (initial_nodes jobs). unfold initial_nodes. apply not_elem_of_list_to_map. rewrite initial_keys.
        intros (k & Hk & Hin)%list_elem_of_fmap. specialize (Hfree k Hin). rewrite <- Hk in Hfree.
        by rewrite lookup_insert_eq in Hfree.
    + intros ([Hni Hnd] & Hfree & ->). exists (<[RunJob.Name j := newNode j]> nodes). split.
      { rewrite decide_False; [done|]. rewrite <- eq_None_not_Some. apply Hfree. by left. }
      apply IH. split_and!; [done| |].
      * intros k Hk. rewrite lookup_insert_ne; [apply Hfree; by right|].
        intros Heq. apply Hni. rewrite Heq. by apply list_elem_of_fmap_2.
      * unfold initial_nodes. cbn. rewrite <- insert_union_l, <- insert_union_r; [done|].
        apply not_elem_of_list_to_map. by rewrite initial_keys.
Qed.

Lemma initial_lookup jobs name n :
  NoDup (RunJob.Name <$> jobs) ->
  initial_nodes jobs !! name = Some n <-> exists j, j ∈ jobs /\ RunJob.Name j = name /\ n = newNode j.
Proof.
  intros Hnd. unfold initial_nodes. rewrite <- elem_of_list_to_map by (by rewrite initial_keys).
  rewrite list_elem_of_fmap. naive_solver.
Qed.

Lemma initial_is_Some jobs name :
  is_Some (initial_nodes jobs !! name) <-> name ∈ RunJob.Name <$> jobs.
Proof.
  rewrite <- not_eq_None_Some. unfold initial_nodes. rewrite <- not_elem_of_list_to_map, initial_keys.
  destruct (decide (name ∈ RunJob.Name <$> jobs)); naive_solver.
Qed.

Lemma dep_loop nodes jobs u :
  foldM (fun u j => foldM (dep_step nodes j) u (RunJob.DependsOn j)) tt jobs = Ok u <->
  forall j dep, j ∈ jobs -> dep ∈ RunJob.DependsOn j -> is_Some (nodes !! dep).
Proof.
  destruct u. rewrite (foldM_unit_Ok _ (fun j => Forall (fun dep => is_Some (nodes !! dep)) (RunJob.DependsOn j))).
  - rewrite Forall_forall. setoid_rewrite Forall_forall. split; eauto.
  - intros j _. apply foldM_unit_Ok. intros dep _. unfold dep_step. by case_decide.
Qed.

Lemma depends_shape jobs n m :
  depends_on (shape jobs) n m <-> exists j, j ∈ jobs /\ RunJob.Name j = n /\ m ∈ RunJob.DependsOn j.
Proof.
  unfold depends_on, shape. setoid_rewrite list_elem_of_fmap. split.
  - intros (ds & (j & [= -> ->] & Hj) & Hm). eauto.
  - intros (j & Hj & <- & Hm). eauto.
Qed.

Lemma node_edge jobs n m :
  NoDup (RunJob.Name <$> jobs) ->
  edge (node_deps (initial_nodes jobs)) (fun _ dep => Ok dep) n m <-> depends_on (shape jobs) n m.
Proof.
  intros Hnd. rewrite depends_shape. unfold edge, node_deps. split.
  - intros (d & Hd & [= ->]). destruct (initial_nodes jobs !! n) as [k|] eqn:Hk; [|set_solver].
    apply initial_lookup in Hk as (j & Hj & Hn & ->); [|done]. eauto.
  - intros (j & Hj & <- & Hm). exists m. split; [|done].
    assert (initial_nodes jobs !! RunJob.Name j = Some (newNode j)) as -> by (apply initial_lookup; eauto).
    done.
Qed.

Lemma tc_node_edge jobs n m :
  NoDup (RunJob.Name <$> jobs) ->
  tc (edge (node_deps (initial_nodes jobs)) (fun _ dep => Ok dep)) n m <-> tc (depends_on (shape jobs)) n m.
Proof.
  intros Hnd. split; induction 1 as [? ? He|? ? ? He _ IH];
    apply (node_edge jobs) in He; eauto using tc_once, tc_l.
Qed.

Lemma tc_source {A} (R : relation A) x y : tc R x y -> exists z, R x z.
Proof. induction 1; eauto. Qed.

(** What the iteration order of a Go map may be. *)
Definition ranges (range : gmap string dagNode -> list string) : Prop :=
  forall nodes, range nodes ≡ₚ (map_to_list nodes).*1.

Lemma range_initial range jobs :
  ranges range -> NoDup (RunJob.Name <$> jobs) -> range (initial_nodes jobs) ≡ₚ RunJob.Name <$> jobs.
Proof.
  intros Hr Hnd. rewrite (Hr _). unfold initial_nodes. rewrite map_to_list_to_map by (by rewrite initial_keys).
  by rewrite initial_keys.
Qed.

Lemma size_initial jobs : NoDup (RunJob.Name <$> jobs) -> size (initial_nodes jobs) = length jobs.
Proof.
  intros Hnd. unfold initial_nodes. rewrite <- length_map_to_list, map_to_list_to_map by (by rewrite initial_keys).
  apply length_fmap.
Qed.

(** The cycle search over known dependencies: it has enough fuel, succeeds exactly on
    acyclic graphs and otherwise names a job on a cycle. *)
Lemma detectCycles_spec range jobs :
  ranges range -> NoDup (RunJob.Name <$> jobs) ->
  (forall n m, depends_on (shape jobs) n m -> m ∈ RunJob.Name <$> jobs) ->
  match detectCycles range (initial_nodes jobs) with
  | Ok _ => forall n, ~ tc (depends_on (shape jobs)) n n
  | Fail e => exists n, e = cycle_error n /\ tc (depends_on (shape jobs)) n n
  end.
Proof.
  intros Hr Hnd Hclosed. unfold detectCycles.
  pose proof (range_initial _ _ Hr Hnd) as Hrange.
  pose proof (visit_all_spec (node_deps (initial_nodes jobs)) (fun _ dep => Ok dep) cycle_error
    (RunJob.Name <$> jobs)) as Hspec.
  assert (forall i d j, i ∈ RunJob.Name <$> jobs -> d ∈ node_deps (initial_nodes jobs) i ->
    @Ok error _ d = Ok j -> j ∈ RunJob.Name <$> jobs) as HU.
  { intros i d j _ Hd [= <-]. apply (Hclosed i), node_edge; [done|]. by exists d. }
  specialize (Hspec HU (S (size (initial_nodes jobs))) (range (initial_nodes jobs))).
  rewrite size_initial in Hspec |- * by done. rewrite length_fmap in Hspec.
  specialize (Hspec ltac:(lia)). specialize (Hspec ltac:(intros i; by rewrite Hrange)).
  destruct (visit_all _ _ _ _ _) as [st|e]; cbn.
  - destruct Hspec as (Htopo & Hsub & _). intros n Hn.
    assert (n ∈ order st) as Hin.
    { apply Hsub. rewrite Hrange. destruct (tc_source _ _ _ Hn) as [m Hm].
      apply depends_shape in Hm as (j & Hj & <- & _). by apply list_elem_of_fmap_2. }
    apply tc_node_edge in Hn; [|done]. exact (topological_acyclic _ _ cycle_error _ _ Htopo Hin Hn).
  - destruct Hspec as [(n & _ & -> & Hc)|(? & ? & _ & _ & [=])].
    exists n. split; [done|]. by apply tc_node_edge in Hc.
Qed.

Lemma closed_shape jobs :
  (forall j dep, j ∈ jobs -> dep ∈ RunJob.DependsOn j -> is_Some (initial_nodes jobs !! dep)) <->
  (forall n m, depends_on (shape jobs) n m -> m ∈ RunJob.Name <$> jobs).
Proof.
  setoid_rewrite depends_shape. split.
  - intros Hc n m (j & Hj & _ & Hm). by apply initial_is_Some, (Hc j).
  - intros Hc j dep Hj Hd. apply initial_is_Some, (Hc (RunJob.Name j)). eauto.
Qed.

Lemma buildDAG_Ok range jobs nodes :
  ranges range ->
  buildDAG range jobs = Ok nodes <-> schedulable (shape jobs) /\ nodes = initial_nodes jobs.
Proof.
  intros Hr. unfold buildDAG, schedulable. rewrite shape_names, bind_Ok. setoid_rewrite seq_Ok.
  setoid_rewrite seq_Ok. setoid_rewrite dag_loop. setoid_rewrite (right_id_L ∅ (∪)).
  setoid_rewrite dep_loop. split.
  - intros (n & (Hnd & _ & ->) & Hc & Hd & [= <-]). rewrite closed_shape in Hc.
    pose proof (detectCycles_spec range jobs Hr Hnd Hc) as Hs. rewrite Hd in Hs. eauto.
  - intros ((Hnd & Hc & Hac) & ->). exists (initial_nodes jobs). split_and!; [done|done|done| | |done].
    + by apply closed_shape.
    + pose proof (detectCycles_spec range jobs Hr Hnd Hc) as Hs.
      destruct (detectCycles _ _) as [[]|e]; [done|]. destruct Hs as (n & _ & Hn). by destruct (Hac n).
Qed.

Lemma buildDAG_Fail range jobs e :
  ranges range -> buildDAG range jobs = Fail e ->
  (Is e (PM ErrDuplicateJob) = true /\ ~ NoDup (shape jobs).*1) \/
  (Is e (PM ErrUnknownDep) = true /\ exists n m, depends_on (shape jobs) n m /\ m ∉ (shape jobs).*1) \/
  (exists n, e = cycle_error n /\ tc (depends_on (shape jobs)) n n).
Proof.
  intros Hr. rewrite shape_names. unfold buildDAG.
  intros [Hl|(nodes & (Hnd & _ & ->)%dag_loop & [Hl|(u & Hd & [Hl|(? & _ & [=])]%bind_Fail)]%bind_Fail)]%bind_Fail.
  - left. apply foldM_Fail in Hl as (l1 & j & l2 & m & -> & (_ & _ & ->)%dag_loop & Hj).
    unfold dag_step in Hj. case_decide as Hs; [|done]. split; [by eapply fail_with_Is|].
    rewrite (right_id_L ∅ (∪)), initial_is_Some in Hs. rewrite fmap_app, fmap_cons.
    intros (_ & Hdisj & _)%NoDup_app. apply (Hdisj _ Hs). by left.
  - right; left. rewrite foldM_nested in Hl.
    apply foldM_Fail in Hl as (l1 & [j dep] & l2 & [] & Heq & _ & Hj).
    unfold dep_step in Hj. case_decide as Hs; [done|]. split; [by eapply fail_with_Is|].
    rewrite (right_id_L ∅ (∪)), initial_is_Some in Hs.
    assert ((j, dep) ∈ jobs ≫= fun j => (j,.) <$> RunJob.DependsOn j) as Hin by (rewrite Heq; set_solver).
    apply list_elem_of_bind in Hin as (j' & (d & [= -> ->] & Hd)%list_elem_of_fmap & Hjin).
    exists (RunJob.Name j'), d. split; [|done]. apply depends_shape. eauto.
  - right; right. rewrite (right_id_L ∅ (∪)) in Hl, Hd. rewrite dep_loop, closed_shape in Hd.
    pose proof (detectCycles_spec range jobs Hr Hnd Hd) as Hs. by rewrite Hl in Hs.
Qed.


(** An order of the job names in which dependencies come first. *)
Definition dep_order (jobs : list RunJob.t) (ord : list string) : Prop :=
  ord ≡ₚ RunJob.Name <$> jobs /\
  forall l1 n l2 d, ord = l1 ++ n :: l2 -> depends_on (shape jobs) n d -> d ∈ l1.

Lemma schedulable_order jobs : schedulable (shape jobs) -> exists ord, dep_order jobs ord.
Proof.
  intros (Hnd & Hc & Hac). rewrite shape_names in Hnd, Hc.
  set (nodes := initial_nodes jobs).
  pose proof (visit_all_spec (node_deps nodes) (fun _ dep => Ok dep) cycle_error (RunJob.Name <$> jobs)) as Hs.
  assert (forall i d j, i ∈ RunJob.Name <$> jobs -> d ∈ node_deps nodes i ->
    @Ok error _ d = Ok j -> j ∈ RunJob.Name <$> jobs) as HU.
  { intros i d j _ Hd [= <-]. apply (Hc i), node_edge; [done|]. by exists d. }
  specialize (Hs HU (S (length jobs)) (RunJob.Name <$> jobs)). rewrite length_fmap in Hs.
  specialize (Hs ltac:(lia) ltac:(done)).
  destruct (visit_all _ _ _ _ _) as [st|e].
  - destruct Hs as ([Hndo Htopo] & Hsub & Hsup). exists (order st). split.
    + apply NoDup_Permutation; [done|done|]. intros n. split; [apply Hsup|apply Hsub].
    + intros l1 n l2 d Heq (d' & Hd & [= ->])%node_edge; [|done].
      destruct (Htopo _ _ _ Heq d Hd) as (k & [= ->] & Hk). done.
  - exfalso. destruct Hs as [(n & _ & _ & Hn)|(? & ? & _ & _ & [=])]. by apply tc_node_edge, Hac in Hn.
Qed.

(** ** Properties *)

(** Whatever order Go iterates over the node map in, [buildDAG] accepts exactly the job
    lists with unique names, known dependencies and no dependency cycle, and returns one
    fresh node per job.  A duplicate name, an unknown dependency and a cycle are each
    reported with their own error, and only when they exist; the cycle search never runs
    out of fuel. *)
Theorem buildDAG_spec range jobs
  (Hrange : ranges range) :
  (forall nodes, buildDAG range jobs = Ok nodes <->
     schedulable (shape jobs) /\ nodes = initial_nodes jobs) /\
  (forall e, buildDAG range jobs = Fail e ->
     (Is e (PM ErrDuplicateJob) = true /\ ~ NoDup (shape jobs).*1) \/
     (Is e (PM ErrUnknownDep) = true /\
        exists n m, depends_on (shape jobs) n m /\ m ∉ (shape jobs).*1) \/
     (exists n, e = cycle_error n /\ tc (depends_on (shape jobs)) n n)).
Proof. split; [intros nodes; by apply buildDAG_Ok|intros e; by apply buildDAG_Fail]. Qed.

(** The names and dependencies of a pipeline's jobs. *)
Definition pipeline_shape (p : Pipeline.t) : list (string * list string) :=
  (fun j => (Job.Name j, Job.DependsOn j)) <$> Pipeline.Jobs p.

Lemma pipeline_depends p n m : depends_on (pipeline_shape p) n m <-> depends (Pipeline.Jobs p) n m.
Proof.
  unfold depends_on, pipeline_shape, depends. setoid_rewrite list_elem_of_fmap. split.
  - intros (ds & (j & [= -> ->] & Hj) & Hm). eauto.
  - intros (j & Hj & <- & Hm). eauto.
Qed.

Lemma pipeline_names p : (pipeline_shape p).*1 = Job.Name <$> Pipeline.Jobs p.
Proof. unfold pipeline_shape. by rewrite <- list_fmap_compose. Qed.

Lemma tc_mono {A} (R R' : relation A) : (forall x y, R x y -> R' x y) -> forall x y, tc R x y -> tc R' x y.
Proof. intros Hsub x y. induction 1; eauto using tc_once, tc_l. Qed.

End dag.
Arguments ranges {_} range.

Section validated.
Context `{cel : CEL} `{llb : LLB}.

Lemma well_formed_schedulable p : well_formed p -> schedulable (pipeline_shape p).
Proof.
  intros (_ & _ & _ & _ & Hnd & Hc & Ha). unfold schedulable. rewrite pipeline_names. split_and!; [done| |].
  - intros n m (j & Hj & _ & Hm)%pipeline_depends. by apply (Hc j).
  - intros n Hn. apply (Ha n). eapply tc_mono; [|exact Hn]. intros x y. apply pipeline_depends.
Qed.

(** The runner accepts what the validator accepted: jobs with the names and
    dependencies of a pipeline that passed [Validate] always form a DAG. *)
Theorem validated_runs range (jobs : list RunJob.t) p p' order
  (Hrange : ranges range)
  (Hvalid : ValidatePipeline (Some p) = Ok (p', order))
  (Hjobs : shape jobs = pipeline_shape p') :
  buildDAG range jobs = Ok (initial_nodes jobs).
Proof.
  apply buildDAG_Ok; [done|]. split; [|done]. rewrite Hjobs. apply well_formed_schedulable.
  apply ValidatePipeline_again in Hvalid. by apply ValidatePipeline_Ok in Hvalid as (? & _ & _).
Qed.
End validated.

(** ** Witnesses *)

#[local] Instance ex_llb : LLB := {| Definition_ := unit; State_ := unit; zero_state := tt |}.

Definition ex_run_job (name : string) (deps : list string) : RunJob.t :=
  RunJob.mk name (Some tt) deps None ∅ ∅ None [] 0 None ∅ ∅ None tt.

Definition ex_range (nodes : gmap string (dagNode (H := ex_llb))) : list string := (map_to_list nodes).*1.

Lemma ex_range_ok : ranges ex_range.
Proof. intros nodes. done. Qed.

(** A cycle between [a] and [b], next to a job that depends on it. *)
Lemma buildDAG_spec_witness :
  let jobs := [ex_run_job "c" ["a"]; ex_run_job "a" ["b"]; ex_run_job "b" ["a"]] in
  is_ok (buildDAG ex_range jobs) = false /\
  (forall e, buildDAG ex_range jobs = Fail e ->
     (Is e (PM ErrDuplicateJob) = true /\ ~ NoDup (shape jobs).*1) \/
     (Is e (PM ErrUnknownDep) = true /\
        exists n m, depends_on (shape jobs) n m /\ m ∉ (shape jobs).*1) \/
     (exists n, e = cycle_error n /\ tc (depends_on (shape jobs)) n n)).
Proof.
  cbv zeta. split; [vm_compute; reflexivity|].
  exact (proj2 (buildDAG_spec ex_range _ ex_range_ok)).
Defined.

Lemma validated_runs_witness :
  let jobs := [ex_run_job "b" ["a"]; ex_run_job "a" []] in
  buildDAG ex_range jobs = Ok (initial_nodes jobs).
Proof.
  cbv zeta.
  eapply (validated_runs (cel := ex_cel) ex_range _ ex_valid); [exact ex_range_ok|vm_compute; reflexivity|].
  vm_compute. reflexivity.
Defined.
