(* ===== verification/Output.v ===== *)
(** * Job outputs (runner/output.go: parseOutputLines)

    A job publishes [KEY=VALUE] lines in [$CICADA_OUTPUT]; deferred conditions of its
    dependents read them.  [extractOutputs], which fetches the file, is in [Solves]; to the
    scheduler its result is an input. *)

From S2P Require Import Prelude GoStrings.

(** One line of the file. *)
Definition output_line (line : string) : option (string * string) :=
  let line := TrimSpace line in
  if decide (line = "") then None else
  match CutByte line "=" with
  | Some (key, value) => if decide (key = "") then None else Some (key, value)
  | None => None
  end.

Definition parseOutputLines (content : string) : gmap string string :=
  foldl (fun result line =>
    match output_line line with
    | Some (key, value) => <[key := value]> result
    | None => result
    end) ∅ (SplitByte content "010").

(** A pair that a line can carry. *)
Definition output_pair (p : string * string) : Prop :=
  p.1 <> "" /\ lacks "=" p.1 /\ lacks "010" (p.1 +:+ "=" +:+ p.2) /\
  TrimSpace (p.1 +:+ "=" +:+ p.2) = p.1 +:+ "=" +:+ p.2.

Definition print_output (p : string * string) : string := p.1 +:+ "=" +:+ p.2.

Lemma output_line_print p : output_pair p -> output_line (print_output p) = Some p.
Proof.
  destruct p as [k v]. intros (Hk & Heq & _ & Htrim). cbn in *. unfold output_line, print_output.
  cbn [fst snd]. rewrite Htrim, decide_False by (destruct k; [done|discriminate]).
  rewrite append_cons, append_nil_l, CutByte_app by done. by rewrite decide_False.
Qed.

(** The pairs a file defines, the last definition of a key first. *)
Definition output_pairs (content : string) : list (string * string) :=
  rev (omap output_line (SplitByte content "010")).

Lemma parseOutputLines_map content : parseOutputLines content = list_to_map (output_pairs content).
Proof.
  unfold parseOutputLines, output_pairs. induction (SplitByte content "010") as [|l ls IH] using rev_ind; [done|].
  rewrite foldl_app, omap_app, rev_app_distr. cbn. rewrite IH.
  destruct (output_line l) as [[k v]|]; done.
Qed.

(** A written line: a pair, or noise that the parser skips. *)
Definition output_item (i : string * string + string) : Prop :=
  match i with
  | inl p => output_pair p
  | inr noise => lacks "010" noise /\ output_line noise = None
  end.

Definition print_item (i : string * string + string) : string :=
  match i with inl p => print_output p | inr noise => noise end.

Definition item_pair (i : string * string + string) : option (string * string) :=
  match i with inl p => Some p | inr _ => None end.

(** C29: [parseOutputLines] reads back what was written: for lines [key=value] with a
    non-empty key, no newline and no surrounding white space, with blank or malformed lines
    anywhere in between, it returns exactly the written pairs, the last one winning for a
    repeated key. *)
Theorem parseOutputLines_roundtrip items
  (Hitems : Forall output_item items) (Hne : items <> []) :
  parseOutputLines (Join (print_item <$> items) (String "010" "")) =
  list_to_map (rev (omap item_pair items)).
Proof.
  rewrite parseOutputLines_map. unfold output_pairs. rewrite SplitByte_Join.
  - do 2 f_equal. induction Hitems as [|i items Hi _ IH]; [done|]. cbn.
    assert (output_line (print_item i) = item_pair i) as ->.
    { destruct i as [p|noise]; [by apply output_line_print|apply Hi]. }
    destruct items; [by destruct (item_pair i)|]. rewrite IH by done. done.
  - by destruct items.
  - apply Forall_fmap. eapply Forall_impl; [exact Hitems|].
    intros [p|noise]; [intros (_ & _ & ? & _)|intros [? _]]; done.
Qed.

Lemma parseOutputLines_roundtrip_witness :
  parseOutputLines (Join ["version=1.2=rc"; "  "; "no pair"; "sha=abc"; "version=2"] (String "010" "")) =
    list_to_map [("version", "2"); ("sha", "abc"); ("version", "1.2=rc")].
Proof.
  apply (parseOutputLines_roundtrip
    [inl ("version", "1.2=rc"); inr "  "; inr "no pair"; inl ("sha", "abc"); inl ("version", "2")]); [|done].
  repeat constructor; try discriminate; apply (bool_decide_unpack _); vm_compute; exact I.
Defined.
