(* ===== verification/Node.v ===== *)
(** * One node of the schedule (node.go: runNode after its waits; solve.go: step control,
    cleanTimeoutError)

    [runNode] is split at the points where goroutines interact.  This file holds the
    sequential stretches in between: what a finished dependency means for its dependents,
    the deferred condition, the steps of a step-controlled job and what a node publishes
    when its solve is over. *)

From stdpp Require Import pretty.
From S2P Require Import Prelude Errors GoStrings Regex Conditional Model Progress Retry Dag Output.

(** The messages of a retry loop. *)
Definition retry_msgs (mk : Z -> Z -> error -> msg) (evs : list retry_event) : list msg :=
  omap (fun ev => match ev with EvRetryMsg a m e => Some (mk a m e) | _ => None end) evs.

(** ** Timeouts *)

(** [errors.AsType[*gatewaypb.ExitError]]: the outermost exit error of the chain. *)
Definition as_exit (e : error) : option Z :=
  head (omap (fun s => match s with ExitError code => Some code | _ => None end) (Errors.chain e)).

(** [strings.SplitN(s, "/", 3)] when it has three parts. *)
Definition split3 (s : string) : option (string * string * string) :=
  '(a, rest) ← CutByte s "/"; '(b, c) ← CutByte rest "/"; Some (a, b, c).

Definition cleanTimeoutError (e : error) (jobName : string) (stepTimeouts : gmap string Z) : error :=
  match as_exit e with
  | None => e
  | Some code =>
      if decide (code <> 124 /\ code <> 137)%Z then e else
      let '(stepName, timeout) :=
        match map_to_list stepTimeouts with
        | [(vertexName, t)] =>
            match split3 vertexName with Some (_, name, _) => (name, t) | None => ("", 0%Z) end
        | _ => ("", 0%Z)
        end in
      Error [jobName; stepName; pretty timeout] [RM ErrStepTimeout; ExitError code]
  end.

Section node.
Context `{LLB}.

(** ** Steps of a step-controlled job *)

(** The gateway client of a build: marshalling a state, solving a definition for an attempt
    of a step, the single reference of a result and reading a file from it.  The two
    context observations are those of the step's retry loop. *)
Record gateway (GwResult Ref : Type) : Type := Gateway {
  Marshal : State_ -> result Definition_;
  gw_Solve : string -> Z -> Definition_ -> result GwResult;
  SingleRef : GwResult -> result Ref;
  ReadFile : Ref -> string -> result string;
  IsNotFound : error -> bool;
  step_cancelled : string -> Z -> option error;
  step_cancelled_sleep : string -> Z -> option error
}.
Arguments Marshal {_ _}. Arguments gw_Solve {_ _}. Arguments SingleRef {_ _}. Arguments ReadFile {_ _}.
Arguments IsNotFound {_ _}. Arguments step_cancelled {_ _}. Arguments step_cancelled_sleep {_ _}.

Context {GwResult Ref : Type} (gw : gateway GwResult Ref).

(** The body of the loop of [solveStep] up to a result. *)
Definition step_attempt (step : StepExec.t) (base : State_) (attempt : Z) : attempt_result (State_ * Ref) :=
  let name := StepExec.Name step in
  match StepExec.Build step base attempt with
  | Fail e => Aborts (errorf [name] e)
  | Ok stepState =>
      match Marshal gw stepState with
      | Fail e => Aborts (errorf [name] e)
      | Ok def =>
          match gw_Solve gw name attempt def with
          | Fail e => Fails (errorf [name] e)
          | Ok r => match SingleRef gw r with
                    | Fail e => Aborts (errorf [name] e)
                    | Ok ref => Succeeds (stepState, ref)
                    end
          end
      end
  end.

Definition step_env (step : StepExec.t) (base : State_) : retry_env (State_ * Ref) :=
  RetryEnv (step_attempt step base) (step_cancelled gw (StepExec.Name step))
    (step_cancelled_sleep gw (StepExec.Name step)).

(** [solveStep] on a state: the zero state and a nil reference when it never attempted. *)
Definition run_step (jobName : string) (step : StepExec.t) (base : State_)
    : result (State_ * option Ref) * list msg :=
  let '(r, evs) := solveStep (StepExec.Retry step) (step_env step base) in
  (match r with
   | Ok (Some (st, ref)) => Ok (st, Some ref)
   | Ok None => Ok (zero_state, None)
   | Fail e => Fail e
   end, retry_msgs (StepRetryMsg jobName (StepExec.Name step)) evs).

(** The loop over the steps; [lastRef] is nil before the first success. *)
Fixpoint run_steps (jobName : string) (steps : list StepExec.t) (currentState : State_)
    (lastRef : option Ref) : result (State_ * option Ref) * list msg :=
  match steps with
  | [] => (Ok (currentState, lastRef), [])
  | step :: steps' =>
      let '(r, ms) := run_step jobName step currentState in
      match r with
      | Fail e =>
          if StepExec.AllowFailure step then
            let '(r', ms') := run_steps jobName steps' currentState lastRef in
            (r', ms ++ StepAllowedFailureMsg jobName (StepExec.Name step) e :: ms')
          else (Fail e, ms)
      | Ok (stepState, ref) =>
          let '(r', ms') := run_steps jobName steps' stepState ref in (r', ms ++ ms')
      end
  end.

(** [errgrpc.ToNative] is part of [IsNotFound] here. *)
Definition extractRefOutputs (ref : Ref) : option outputs :=
  match ReadFile gw ref "cicada/output" with
  | Ok data => Some (parseOutputLines data)
  | Fail e => if IsNotFound gw e then Some ∅ else None
  end.

(** The build function: the reference it returns, the outputs left in the map that
    [solveJobSteps] passes in empty, and the messages. *)
Definition stepControlBuildFunc (j : RunJob.t) : result (option Ref * outputs) * list msg :=
  let '(r, ms) := run_steps (RunJob.Name j) (default [] (RunJob.Steps j)) (RunJob.BaseState j) None in
  (match r with
   | Fail e => Fail e
   | Ok (_, lastRef) =>
       Ok (lastRef, match lastRef with
                    | Some ref => default ∅ (extractRefOutputs ref)
                    | None => ∅
                    end)
   end, ms).

(** ** Allowed failures *)

(** The steps that succeed when the job runs from [base]. *)
Fixpoint survivors (jobName : string) (steps : list StepExec.t) (base : State_) : list StepExec.t :=
  match steps with
  | [] => []
  | step :: steps' =>
      match (run_step jobName step base).1 with
      | Ok (st, _) => step :: survivors jobName steps' st
      | Fail _ => survivors jobName steps' base
      end
  end.

Lemma run_steps_survivors jobName steps base last r :
  (run_steps jobName steps base last).1 = Ok r ->
  (run_steps jobName (survivors jobName steps base) base last).1 = Ok r /\
  Forall (fun s => StepExec.AllowFailure s = true \/ s ∈ survivors jobName steps base) steps.
Proof.
  revert base last. induction steps as [|step steps IH]; intros base last; cbn [run_steps survivors];
    [by split|].
  destruct (run_step jobName step base) as [[[st ref]|e] ms] eqn:Hs; cbn [fst].
  - destruct (run_steps jobName steps st ref) as [r' ms'] eqn:Hr. cbn [fst]. intros ->.
    destruct (IH st ref) as [Hi Hf]; [by rewrite Hr|]. cbn [run_steps]. rewrite Hs. split.
    + by destruct (run_steps jobName (survivors jobName steps st) st ref).
    + constructor; [set_solver|]. eapply Forall_impl; [exact Hf|]. set_solver.
  - destruct (StepExec.AllowFailure step) eqn:Ha; [|done].
    destruct (run_steps jobName steps base last) as [r' ms'] eqn:Hr. cbn [fst]. intros ->.
    destruct (IH base last) as [Hi Hf]; [by rewrite Hr|]. split; [done|]. constructor; [by left|done].
Qed.

Lemma run_steps_Fail jobName steps base last e :
  (run_steps jobName steps base last).1 = Fail e ->
  exists pre step post st ref, steps = pre ++ step :: post /\ StepExec.AllowFailure step = false /\
    (run_steps jobName pre base last).1 = Ok (st, ref) /\ (run_step jobName step st).1 = Fail e.
Proof.
  revert base last. induction steps as [|step steps IH]; intros base last; cbn [run_steps]; [done|].
  destruct (run_step jobName step base) as [[[st ref]|e1] ms] eqn:Hs.
  - destruct (run_steps jobName steps st ref) as [r' ms'] eqn:Hr. cbn [fst]. intros ->.
    destruct (IH st ref) as (pre & s & post & st' & ref' & -> & Ha & Hpre & Hfail); [by rewrite Hr|].
    exists (step :: pre), s, post, st', ref'. split_and!; [done|done| |done].
    cbn [run_steps]. rewrite Hs. by destruct (run_steps jobName pre st ref).
  - destruct (StepExec.AllowFailure step) eqn:Ha.
    + destruct (run_steps jobName steps base last) as [r' ms'] eqn:Hr. cbn [fst]. intros ->.
      destruct (IH base last) as (pre & s & post & st' & ref' & -> & Ha' & Hpre & Hfail); [by rewrite Hr|].
      exists (step :: pre), s, post, st', ref'. split_and!; [done|done| |done].
      cbn [run_steps]. rewrite Hs, Ha. by destruct (run_steps jobName pre base last).
    + cbn [fst]. intros [= ->]. exists [], step, steps, base, last. by rewrite Hs.
Qed.

(** The steps of a step-controlled job.  The job fails exactly with the error of the
    first failing step that may not fail, run on the state its predecessors left.
    Otherwise its final state and reference are those of the job without its failed steps,
    all of which were allowed to fail: a failed step leaves no trace in the state. *)
Theorem run_steps_spec jobName steps base :
  match (run_steps jobName steps base None).1 with
  | Ok r =>
      (run_steps jobName (survivors jobName steps base) base None).1 = Ok r /\
      Forall (fun s => StepExec.AllowFailure s = true \/ s ∈ survivors jobName steps base) steps
  | Fail e =>
      exists pre step post st ref, steps = pre ++ step :: post /\ StepExec.AllowFailure step = false /\
        (run_steps jobName pre base None).1 = Ok (st, ref) /\ (run_step jobName step st).1 = Fail e
  end.
Proof.
  destruct (run_steps jobName steps base None).1 as [r|e] eqn:Hr;
    [by apply run_steps_survivors|by apply run_steps_Fail].
Qed.
End node.
Arguments Marshal {_ _ _}. Arguments gw_Solve {_ _ _}. Arguments SingleRef {_ _ _}.
Arguments ReadFile {_ _ _}. Arguments IsNotFound {_ _ _}. Arguments step_cancelled {_ _ _}.
Arguments step_cancelled_sleep {_ _ _}.

(** ** Solving a job *)

Section solve.
Context `{LLB} {GwResult Ref : Type}.

(** The solver during one attempt: a plain solve, and a gateway build, which runs the build
    function with a gateway client and may turn its result into an error of its own; and,
    when the context is cancelled, how many messages of the build function the bridge of
    the status session lets pass before it ends. *)
Record solver : Type := Solver {
  Solve : Definition_ -> option error;
  build_gw : gateway GwResult Ref;
  Build : result (option Ref) -> option error;
  bridge_done : option nat
}.

(** The builder and [solveJobSteps] create the map of the timeouts with its first entry. *)
Definition timeouts_map (timeouts : gmap string Z) : option (gmap string Z) :=
  if decide (timeouts = ∅) then None else Some timeouts.

(** A status session sends the added message first; its bridge sends the done message when
    the status channel is closed, before the deferred [Wait] returns.  That is after the
    messages [ms] of the build function, unless the context is cancelled: then the tee
    closes the channel at once, and the done message may come after any number [early] of
    them.  The status updates in between come from BuildKit and are not modelled here. *)
Definition in_session (j : string) (timeouts : gmap string Z) (cmds : gmap string CmdInfo.t)
    (early : option nat) (ms : list msg) : list msg :=
  let n := default (length ms) early in
  JobAddedMsg j (timeouts_map timeouts) cmds :: take n ms ++ JobDoneMsg j :: drop n ms.

Definition solveJob (s : solver) (j : RunJob.t) : result unit * list msg :=
  match RunJob.Definition' j with
  | None => (fail_with [RunJob.Name j] (RM ErrNilDefinition), [])
  | Some def =>
      (match Solve s def with Some e => Fail (errorf [] e) | None => Ok tt end,
       in_session (RunJob.Name j) (RunJob.StepTimeouts j) (RunJob.CmdInfos j) (bridge_done s) [])
  end.

(** Later steps win for a vertex name that two steps share. *)
Definition merged {A} (field : StepExec.t -> gmap string A) (steps : list StepExec.t) : gmap string A :=
  foldl (fun m step => field step ∪ m) ∅ steps.

(** The value is what is stored in [node.outputs]. *)
Definition solveJobSteps (s : solver) (j : RunJob.t) : result outputs * list msg :=
  let steps := default [] (RunJob.Steps j) in
  let '(r, ms) := stepControlBuildFunc (build_gw s) j in
  (match Build s (fst <$> r) with
   | Some e => Fail (errorf [] e)
   | None => Ok (match r with Ok (_, o) => o | Fail _ => ∅ end)
   end,
   in_session (RunJob.Name j) (merged StepExec.Timeouts steps) (merged StepExec.CmdInfos steps) (bridge_done s) ms).

(** The dispatch of [retryJob]: the outputs a successful solve leaves in the node. *)
Definition solve (s : solver) (j : RunJob.t) : result (option outputs) * list msg :=
  match RunJob.Steps j with
  | Some _ => let '(r, ms) := solveJobSteps s j in (Some <$> r, ms)
  | None => let '(r, ms) := solveJob s j in ((fun _ => None) <$> r, ms)
  end.

(** Everything outside the process that one node meets while it holds its slot: the solver
    at each attempt, the cancellations its retry loop observes, whether the cause of its
    solve context is the job timeout, and the output extraction. *)
Record job_world : Type := JobWorld {
  jw_solver : Z -> solver;
  jw_cancelled : Z -> option error;
  jw_cancelled_sleep : Z -> option error;
  jw_timed_out : bool;
  jw_extract : Definition_ -> result outputs
}.

Definition job_env (w : job_world) (j : RunJob.t) : retry_env (option outputs) :=
  RetryEnv (fun k => match (solve (jw_solver w k) j).1 with Ok o => Succeeds o | Fail e => Fails e end)
    (jw_cancelled w) (jw_cancelled_sleep w).

Definition job_msgs (w : job_world) (j : RunJob.t) (evs : list retry_event) : list msg :=
  evs ≫= fun ev =>
    match ev with
    | EvAttempt k => (solve (jw_solver w k) j).2
    | EvRetryMsg a m e => [JobRetryMsg (RunJob.Name j) a m e]
    | EvSleep _ => []
    end.

(** What a node has published when its channel is closed, what its goroutine returns and
    the messages it sent. *)
Record node_exit : Type := NodeExit {
  x_err : option error;
  x_skipped : bool;
  x_outputs : option outputs;
  x_return : option error;
  x_msgs : list msg
}.

Definition exit_err (e : error) (ms : list msg) : node_exit := NodeExit (Some e) false None (Some e) ms.

Definition exit_skipped (name : string) : node_exit := NodeExit None true None None [JobSkippedMsg name].

(** The error of a failed solve: a job timeout, an exit code or the solve error.  A display
    error shows its own message and unwraps to its cause. *)
Definition job_error (w : job_world) (j : RunJob.t) (e : error) : error * list msg :=
  let name := RunJob.Name j in
  if bool_decide (0 < RunJob.Timeout j)%Z && jw_timed_out w then
    (Error [name; pretty (RunJob.Timeout j)] [RM ErrJobTimeout], [JobTimeoutMsg name (RunJob.Timeout j)])
  else
    let e := if decide (RunJob.StepTimeouts j = ∅) then e
             else cleanTimeoutError e name (RunJob.StepTimeouts j) in
    match as_exit e with
    | Some code => (Error [name; pretty code] (Errors.chain e), [])
    | None => (errorf [name] e, [])
    end.

(** [runNode] from the acquired slot to its return. *)
Definition run_acquired (w : job_world) (j : RunJob.t) : node_exit :=
  let '(r, evs) := retryJob (RunJob.Retry j) (job_env w j) in
  let ms := job_msgs w j evs in
  match r with
  | Fail e => let '(e', ms') := job_error w j e in exit_err e' (ms ++ ms')
  | Ok o =>
      let ms := ms ++ (StepSkippedMsg (RunJob.Name j) <$> RunJob.SkippedSteps j) in
      match default None o, RunJob.OutputDef j with
      | None, Some def =>
          match jw_extract w def with
          | Fail e => exit_err (errorf [RunJob.Name j] e) ms
          | Ok outs => NodeExit None false (Some outs) None ms
          end
      | outs, _ => NodeExit None false outs None ms
      end
  end.

(** ** Before the slot *)

(** The dependency loop at one dependency whose channel is closed: go on, or exit. *)
Definition dep_verdict (name dep : string) (n : dagNode) : option node_exit :=
  match err n with
  | Some e =>
      let e' := errorf [dep] e in
      Some (NodeExit (Some e') false None (Some (errorf [name] e')) [])
  | None => if skipped n then Some (exit_skipped name) else None
  end.

(** A wait interrupted by the context. *)
Definition exit_cancelled (name : string) (ctx_err : error) : node_exit :=
  exit_err (errorf [name] ctx_err) [].

(** The deferred condition, when a context for it was provided. *)
Definition eval_when (whenCtx : option Context.t) (nodes : gmap string dagNode) (j : RunJob.t)
    : option node_exit :=
  match RunJob.When j, whenCtx with
  | Some w, Some ctx =>
      let depOutputs := collectDepOutputs nodes (RunJob.DependsOn j) in
      let ctx := ctx <| Context.PipelineEnv := RunJob.Env j |> <| Context.Matrix := RunJob.Matrix j |> in
      match w ctx depOutputs with
      | Fail e => Some (exit_err (errorf [RunJob.Name j] e) [])
      | Ok true => None
      | Ok false => Some (exit_skipped (RunJob.Name j))
      end
  | _, _ => None
  end.
End solve.

(** Names of matrix variants may hold slashes; the step name of a timeout is then wrong. *)
Definition ex_vertex : string := "build[platform=linux/amd64]/compile/make".

Lemma timeout_step_name_wrong :
  cleanTimeoutError (raise (ExitError 124)) "build[platform=linux/amd64]" {[ex_vertex := 5%Z]} =
    Error ["build[platform=linux/amd64]"; "amd64]"; "5"] [RM ErrStepTimeout; ExitError 124].
Proof. vm_compute. reflexivity. Qed.
