(* ===== verification/Sched.v ===== *)
(** * The concurrent schedule (runner.go: Run; node.go: runNode)

    [Run] starts one goroutine per job.  Each waits for its dependencies in order, evaluates
    its deferred condition, acquires a slot of the weighted semaphore, solves, releases the
    slot, closes its channel and returns to the group.  The model is a transition system:
    a state holds where every goroutine is, the free slots, the state of the run context and
    what the group has collected; an event says which goroutine moves and, where Go or the
    outside world chooses, how.  A schedule is a list of events, so every interleaving is
    covered.  Releasing the slot and closing the channel are one event, because the only
    step that can come between them is another acquisition, which may as well follow. *)

From stdpp Require Import numbers.
From S2P Require Import Prelude Errors GoStrings Regex Conditional Model Progress Retry Dag Output Node.

Section sched.
Context `{LLB} {GwResult Ref : Type}.
Abbreviation world := (@job_world _ GwResult Ref).

(** ** States *)

(** Where a goroutine is: waiting for the rest of its dependencies, for a slot, solving,
    past the close of its channel, or collected by the group. *)
Inductive pc : Type :=
  | Waiting (rest : list string)
  | Acquiring
  | Running
  | Exited (x : node_exit)
  | Returned (x : node_exit).

Record thread : Type := Thread { t_job : RunJob.t; t_pc : pc }.

(** The node of a goroutine, as the others see it. *)
Definition node_of (t : thread) : dagNode :=
  match t_pc t with
  | Exited x | Returned x => DagNode (t_job t) true (x_err x) (x_skipped x) (x_outputs x)
  | _ => newNode (t_job t)
  end.

(** [ctx_err] is [ctx.Err()] of the run's context, [group_err] the first error of the
    errgroup and [errs] the slice collected under the mutex. *)
Record run_state : Type := RunState {
  threads : gmap string thread;
  free : Z;
  ctx_err : option error;
  group_err : option error;
  errs : list error
}.

(** ** Steps *)

Inductive action : Type :=
  | DepDone
  | DepCancelled
  | EvalWhen
  | Acquire
  | AcquireCancelled
  | Solved (w : world)
  | Return.

Inductive event : Type :=
  | Act (n : string) (a : action)
  | CancelRun (e : error).

Record config : Type := Config { whenCtx : option Context.t; FailFast : bool }.
Variable cfg : config.

(** The next position of a goroutine; a [select] whose branches are both ready, and a
    semaphore that can grant a slot although the context is done, may go either way. *)
Definition node_move (st : run_state) (a : action) (t : thread) : option pc :=
  let name := RunJob.Name (t_job t) in
  match a, t_pc t with
  | DepDone, Waiting (dep :: rest) =>
      d ← threads st !! dep;
      if done (node_of d) then
        Some (match dep_verdict name dep (node_of d) with None => Waiting rest | Some x => Exited x end)
      else None
  | DepCancelled, Waiting (_ :: _) => e ← ctx_err st; Some (Exited (exit_cancelled name e))
  | EvalWhen, Waiting [] =>
      Some (match eval_when (whenCtx cfg) (node_of <$> threads st) (t_job t) with
            | None => Acquiring
            | Some x => Exited x
            end)
  | Acquire, Acquiring => if decide (1 <= free st)%Z then Some Running else None
  | AcquireCancelled, Acquiring => e ← ctx_err st; Some (Exited (exit_cancelled name e))
  | Solved w, Running => Some (Exited (run_acquired w (t_job t)))
  | Return, Exited x => Some (Returned x)
  | _, _ => None
  end.

(** [context.Canceled]. *)
Definition canceled : error := raise (Foreign "context canceled").

(** The group at the return of a goroutine: the errgroup of a fail-fast run keeps the first
    error and cancels the context, the other collects every error. *)
Definition collect (x : node_exit) (st : run_state) : run_state :=
  match x_return x with
  | None => st
  | Some e =>
      if FailFast cfg then
        match group_err st with
        | None => RunState (threads st) (free st) (Some (default canceled (ctx_err st))) (Some e) (errs st)
        | Some _ => st
        end
      else RunState (threads st) (free st) (ctx_err st) (group_err st) (errs st ++ [e])
  end.

Definition slots (a : action) : Z := match a with Acquire => -1 | Solved _ => 1 | _ => 0 end.

Definition step (ev : event) (st : run_state) : option run_state :=
  match ev with
  | CancelRun e =>
      match ctx_err st with
      | Some _ => None
      | None => Some (RunState (threads st) (free st) (Some e) (group_err st) (errs st))
      end
  | Act n a =>
      t ← threads st !! n;
      pc' ← node_move st a t;
      let st' := RunState (<[n := Thread (t_job t) pc']> (threads st)) (free st + slots a)
                   (ctx_err st) (group_err st) (errs st) in
      Some (match pc' with Returned x => collect x st' | _ => st' end)
  end.

Fixpoint steps (evs : list event) (st : run_state) : option run_state :=
  match evs with
  | [] => Some st
  | ev :: evs' => st' ← step ev st; steps evs' st'
  end.

(** ** The start of a run *)

Definition limit_of (Parallelism : Z) (jobs : list RunJob.t) : Z :=
  if decide (0 < Parallelism)%Z then Parallelism else Z.of_nat (length jobs).

Definition start (Parallelism : Z) (jobs : list RunJob.t) (nodes : gmap string dagNode) : run_state :=
  RunState ((fun n => Thread (job n) (Waiting (RunJob.DependsOn (job n)))) <$> nodes)
    (limit_of Parallelism jobs) None None [].

(** The group has collected every goroutine: [Wait] returns. *)
Definition returned (t : thread) : bool := match t_pc t with Returned _ => true | _ => false end.

Definition finished (st : run_state) : Prop := map_Forall (fun _ t => returned t = true) (threads st).

(** ** Weights over the threads *)

Definition total (f : thread -> nat) (m : gmap string thread) : nat :=
  sum_list (f ∘ snd <$> map_to_list m).

Lemma total_insert f m n t : m !! n = None -> total f (<[n := t]> m) = f t + total f m.
Proof.
  intros Hn. unfold total.
  assert (f ∘ snd <$> map_to_list (<[n := t]> m) ≡ₚ f ∘ snd <$> (n, t) :: map_to_list m) as ->
    by (by rewrite map_to_list_insert). done.
Qed.

Lemma total_update f m n t t' :
  m !! n = Some t -> total f (<[n := t']> m) + f t = total f m + f t'.
Proof.
  intros Hn. rewrite <- (insert_delete_id m n t Hn) at 2. rewrite <- insert_delete_eq.
  rewrite !total_insert by apply lookup_delete_eq. lia.
Qed.

Lemma total_zero f m : total f m = 0 <-> map_Forall (fun _ t => f t = 0) m.
Proof.
  induction m as [|n t m Hn IH] using map_ind.
  - split; [intros _ ? ? ?; done|done].
  - rewrite total_insert, map_Forall_insert by done. rewrite <- IH. lia.
Qed.

(** ** What a step does *)

Lemma collect_threads x st : threads (collect x st) = threads st.
Proof. unfold collect. destruct (x_return x), (FailFast cfg), (group_err st); done. Qed.

Lemma collect_free x st : free (collect x st) = free st.
Proof. unfold collect. destruct (x_return x), (FailFast cfg), (group_err st); done. Qed.

Lemma collect_ctx x st : ctx_err st <> None -> ctx_err (collect x st) <> None.
Proof. unfold collect. destruct (x_return x), (FailFast cfg), (group_err st); done. Qed.

(** Moving goroutine [n] to [pc']. *)
Definition moved (n : string) (a : action) (t : thread) (pc' : pc) (st : run_state) : run_state :=
  let st' := RunState (<[n := Thread (t_job t) pc']> (threads st)) (free st + slots a)
               (ctx_err st) (group_err st) (errs st) in
  match pc' with Returned x => collect x st' | _ => st' end.

Lemma step_Act n a st st' :
  step (Act n a) st = Some st' <->
  exists t pc', threads st !! n = Some t /\ node_move st a t = Some pc' /\ st' = moved n a t pc' st.
Proof.
  cbn [step]. split.
  - intros (t & Ht & (pc' & Hm & [= <-])%bind_Some)%bind_Some. exists t, pc'. done.
  - intros (t & pc' & -> & Hm & ->). cbn. by rewrite Hm.
Qed.

Lemma moved_threads n a t pc' st :
  threads (moved n a t pc' st) = <[n := Thread (t_job t) pc']> (threads st).
Proof. unfold moved. destruct pc'; try done. by rewrite collect_threads. Qed.

Lemma moved_free n a t pc' st : free (moved n a t pc' st) = (free st + slots a)%Z.
Proof. unfold moved. destruct pc'; try done. by rewrite collect_free. Qed.

Lemma moved_ctx n a t pc' st : ctx_err st <> None -> ctx_err (moved n a t pc' st) <> None.
Proof. unfold moved. destruct pc'; try done. intros. by apply collect_ctx. Qed.

Lemma steps_app evs1 evs2 st :
  steps (evs1 ++ evs2) st = (st' ← steps evs1 st; steps evs2 st').
Proof.
  revert st. induction evs1 as [|ev evs1 IH]; intros st; [done|]. cbn [app steps].
  destruct (step ev st) as [st'|]; cbn; [apply IH|done].
Qed.

(** Rule induction for reachable states. *)
Lemma steps_inv (I : run_state -> Prop) (P : event -> Prop) evs st st' :
  (forall ev st st', P ev -> step ev st = Some st' -> I st -> I st') ->
  Forall P evs -> steps evs st = Some st' -> I st -> I st'.
Proof.
  intros Hstep HP. revert st. induction HP as [|ev evs Hev _ IH]; intros st; cbn [steps].
  - by intros [= ->].
  - intros (st1 & H1 & Hs)%bind_Some HI. eauto.
Qed.

(** ** Termination *)

(** How many moves a goroutine has left at most. *)
Definition weight (t : thread) : nat :=
  match t_pc t with
  | Waiting rest => 4 + length rest
  | Acquiring => 3
  | Running => 2
  | Exited _ => 1
  | Returned _ => 0
  end.

(** Case analysis on the moves of a goroutine. *)
Ltac move_cases t a H :=
  unfold node_move in H; destruct t as [?j [[|?dep ?rest]| | |?x|?x]], a; cbn in H; try discriminate H;
  repeat first
    [ apply bind_Some in H as (? & ? & H)
    | case_match; try discriminate H
    | case_decide; try discriminate H ];
  try (injection H as <-).

Lemma move_weight st a t pc' :
  node_move st a t = Some pc' -> weight (Thread (t_job t) pc') < weight t.
Proof. intros Hm. move_cases t a Hm; cbn; lia. Qed.

Definition is_act (ev : event) : bool := match ev with Act _ _ => true | CancelRun _ => false end.

Lemma steps_bounded evs st st' :
  steps evs st = Some st' ->
  length (filter (fun ev => is_act ev = true) evs) + total weight (threads st') <= total weight (threads st).
Proof.
  revert st. induction evs as [|ev evs IH]; intros st; cbn [steps].
  - intros [= ->]. done.
  - intros (st1 & H1 & Hs)%bind_Some. apply IH in Hs. destruct ev as [n a|e].
    + apply step_Act in H1 as (t & pc' & Ht & Hm & ->). rewrite moved_threads in Hs.
      pose proof (total_update weight _ _ _ (Thread (t_job t) pc') Ht).
      apply move_weight in Hm. rewrite filter_cons_True by done. cbn [length]. lia.
    + rewrite filter_cons_False by done. cbn in H1. destruct (ctx_err st); [done|]. by injection H1 as <-.
Qed.

(** ** The sequential meaning of a node *)

(** The dependency loop against closed channels: [None] when it would block, the exit of
    the first dependency that did not succeed, or success. *)
Fixpoint first_verdict (nodes : gmap string dagNode) (name : string) (deps : list string)
    : option (option node_exit) :=
  match deps with
  | [] => Some None
  | dep :: rest =>
      d ← nodes !! dep;
      if done d then
        match dep_verdict name dep d with
        | Some x => Some (Some x)
        | None => first_verdict nodes name rest
        end
      else None
  end.

(** [runNode] up to the semaphore: [None] when it would block, otherwise the exit it takes,
    if any. *)
Definition before_slot (nodes : gmap string dagNode) (j : RunJob.t) : option (option node_exit) :=
  v ← first_verdict nodes (RunJob.Name j) (RunJob.DependsOn j);
  Some (match v with Some x => Some x | None => eval_when (whenCtx cfg) nodes j end).

(** All of [runNode] in one go, in the world [w]. *)
Definition settle (w : world) (nodes : gmap string dagNode) (j : RunJob.t) : option node_exit :=
  v ← before_slot nodes j;
  Some (match v with Some x => x | None => run_acquired w j end).

(** Closed nodes never change. *)
Definition done_le (nodes nodes' : gmap string dagNode) : Prop :=
  forall n d, nodes !! n = Some d -> done d = true -> nodes' !! n = Some d.

Lemma first_verdict_app nodes name deps1 deps2 :
  first_verdict nodes name deps1 = Some None ->
  first_verdict nodes name (deps1 ++ deps2) = first_verdict nodes name deps2.
Proof.
  induction deps1 as [|d deps IH]; [done|]. cbn [first_verdict app].
  intros (n & Hn & Hv)%bind_Some. rewrite Hn. cbn. destruct (done n); [|done].
  destruct (dep_verdict name d n); [done|]. by apply IH.
Qed.

Lemma first_verdict_mono nodes nodes' name deps v :
  done_le nodes nodes' -> first_verdict nodes name deps = Some v -> first_verdict nodes' name deps = Some v.
Proof.
  intros Hle. induction deps as [|d deps IH]; [done|]. cbn [first_verdict].
  intros (n & Hn & Hv)%bind_Some. destruct (done n) eqn:Hd; [|done].
  rewrite (Hle d n Hn Hd). cbn. rewrite Hd. destruct (dep_verdict name d n); [done|]. by apply IH.
Qed.

(** The node of a dependency that let the loop go on. *)
Definition ok_dep (nodes : gmap string dagNode) (dep : string) : Prop :=
  exists n, nodes !! dep = Some n /\ done n = true /\ succeeded n = true.

Lemma dep_verdict_None name dep n : dep_verdict name dep n = None <-> succeeded n = true.
Proof.
  unfold dep_verdict, succeeded. destruct (err n); [rewrite bool_decide_false by done; done|].
  rewrite bool_decide_true by done. by destruct (skipped n).
Qed.

Lemma first_verdict_ok nodes name deps :
  first_verdict nodes name deps = Some None <-> Forall (ok_dep nodes) deps.
Proof.
  induction deps as [|d deps IH]; cbn [first_verdict]; [by split|].
  rewrite Forall_cons, <- IH. unfold ok_dep at 1. split.
  - intros (n & Hn & Hv)%bind_Some. destruct (done n) eqn:Hd; [|done].
    destruct (dep_verdict name d n) eqn:Hdv; [done|]. apply dep_verdict_None in Hdv. eauto.
  - intros [(n & -> & Hd & Hs) Hv]. cbn. rewrite Hd.
    assert (dep_verdict name d n = None) as -> by (by apply dep_verdict_None). done.
Qed.

Lemma collect_mono nodes nodes' deps :
  done_le nodes nodes' -> Forall (ok_dep nodes) deps ->
  collectDepOutputs nodes' deps = collectDepOutputs nodes deps.
Proof.
  intros Hle. unfold collectDepOutputs. generalize (∅ : gmap string outputs) as acc.
  induction deps as [|d deps IH]; intros acc; [done|]. cbn [foldl].
  intros [(n & Hn & Hd & _) Hok]%Forall_cons. rewrite (Hle d n Hn Hd), Hn. by apply IH.
Qed.

Lemma eval_when_mono nodes nodes' j :
  done_le nodes nodes' -> Forall (ok_dep nodes) (RunJob.DependsOn j) ->
  eval_when (whenCtx cfg) nodes' j = eval_when (whenCtx cfg) nodes j.
Proof. intros Hle Hok. unfold eval_when. by rewrite (collect_mono nodes). Qed.

Lemma before_slot_mono nodes nodes' j v :
  done_le nodes nodes' -> before_slot nodes j = Some v -> before_slot nodes' j = Some v.
Proof.
  intros Hle. unfold before_slot. intros (u & Hv & <-%(inj Some))%bind_Some.
  rewrite (first_verdict_mono _ _ _ _ _ Hle Hv). cbn. destruct u; [done|].
  rewrite (eval_when_mono nodes); [done|done|]. by apply (first_verdict_ok _ (RunJob.Name j)).
Qed.

Lemma before_slot_free nodes j :
  before_slot nodes j = Some None <->
  Forall (ok_dep nodes) (RunJob.DependsOn j) /\ eval_when (whenCtx cfg) nodes j = None.
Proof.
  unfold before_slot. rewrite <- (first_verdict_ok _ (RunJob.Name j)).
  destruct (first_verdict _ _ _) as [[x|]|]; cbn; (split; [intros [=]|intros [[=] ?]]); by f_equal.
Qed.

(** ** The invariant of reachable states *)

(** Which worlds a schedule may use for a node. *)
Definition event_ok (allowed : string -> world -> Prop) (ev : event) : Prop :=
  match ev with Act n (Solved w) => allowed n w | _ => True end.

Variable allowed : string -> world -> Prop.

(** An exit is the sequential meaning of the node, unless the context was cancelled. *)
Definition explained (st : run_state) (n : string) (j : RunJob.t) (x : node_exit) : Prop :=
  let nodes := node_of <$> threads st in
  before_slot nodes j = Some (Some x) \/
  (before_slot nodes j = Some None /\ exists w, allowed n w /\ x = run_acquired w j) \/
  (ctx_err st <> None /\ exists e, x = exit_cancelled n e).

Definition thread_ok (st : run_state) (n : string) (t : thread) : Prop :=
  let nodes := node_of <$> threads st in
  let j := t_job t in
  RunJob.Name j = n /\
  match t_pc t with
  | Waiting rest => exists pre, RunJob.DependsOn j = pre ++ rest /\ Forall (ok_dep nodes) pre
  | Acquiring | Running => before_slot nodes j = Some None
  | Exited x | Returned x => explained st n j x
  end.

(** [jobs] never change, and no slot is lost or invented. *)
Definition busy (t : thread) : nat := match t_pc t with Running => 1 | _ => 0 end.

Record sched_inv (jobs : gmap string RunJob.t) (limit : Z) (st : run_state) : Prop := {
  inv_jobs : t_job <$> threads st = jobs;
  inv_free : (0 <= free st)%Z;
  inv_slots : (free st + Z.of_nat (total busy (threads st)) = limit)%Z;
  inv_threads : map_Forall (thread_ok st) (threads st)
}.

Lemma ok_dep_mono nodes nodes' d : done_le nodes nodes' -> ok_dep nodes d -> ok_dep nodes' d.
Proof. intros Hle (n & Hn & Hd & Hs). exists n. eauto. Qed.

Lemma moved_done_le st n a t pc' :
  threads st !! n = Some t -> node_move st a t = Some pc' ->
  done_le (node_of <$> threads st) (node_of <$> threads (moved n a t pc' st)).
Proof.
  intros Ht Hm k d Hk Hd. rewrite moved_threads, fmap_insert. destruct (decide (k = n)) as [->|Hne].
  - rewrite lookup_fmap, Ht in Hk. injection Hk as <-. rewrite lookup_insert_eq. f_equal.
    destruct t as [j [| | | |]]; try done; destruct a; try done. cbn in Hm. by injection Hm as <-.
  - by rewrite lookup_insert_ne.
Qed.

Lemma thread_ok_mono st st' n t :
  done_le (node_of <$> threads st) (node_of <$> threads st') ->
  (ctx_err st <> None -> ctx_err st' <> None) ->
  thread_ok st n t -> thread_ok st' n t.
Proof.
  intros Hle Hctx [Hn Hpc]. split; [done|].
  assert (forall x, explained st n (t_job t) x -> explained st' n (t_job t) x) as Hex.
  { intros x [Hb|[[Hb Hw]|[Hc He]]]; unfold explained; eauto 6 using before_slot_mono. }
  destruct (t_pc t) as [rest| | |x|x]; eauto using before_slot_mono.
  destruct Hpc as (pre & Heq & Hpre). exists pre. split; [done|].
  eapply Forall_impl; [exact Hpre|]. intros. by eapply ok_dep_mono.
Qed.

Lemma exit_cancelled_ok st n j e : ctx_err st = Some e -> explained st n j (exit_cancelled n e).
Proof. intros He. right; right. split; [congruence|]. eauto. Qed.

(** A goroutine that moves keeps its own invariant, judged in the state it moves from. *)
Lemma node_move_ok st a n t pc' :
  node_move st a t = Some pc' -> event_ok allowed (Act n a) -> thread_ok st n t ->
  thread_ok st n (Thread (t_job t) pc').
Proof.
  intros Hm Ha [Hn Hpc]. split; [done|]. destruct t as [j p]. cbn [t_job t_pc] in *. subst n.
  destruct p as [[|dep rest]| | |x|x], a; try discriminate Hm; cbn in Hm.
  - (* EvalWhen *) destruct Hpc as (pre & Heq & Hpre). rewrite app_nil_r in Heq. subst pre.
    injection Hm as <-. destruct (eval_when _ _ j) as [x|] eqn:Hw; [left|by apply before_slot_free].
    unfold before_slot. apply (first_verdict_ok _ (RunJob.Name j)) in Hpre. by rewrite Hpre, Hw.
  - (* DepDone *) destruct Hpc as (pre & Heq & Hpre).
    apply bind_Some in Hm as (d & Hd & Hm). destruct (done (node_of d)) eqn:Hdone; [|done].
    injection Hm as <-. destruct (dep_verdict _ dep (node_of d)) as [x|] eqn:Hv.
    + left. unfold before_slot. rewrite Heq.
      rewrite first_verdict_app by (by apply first_verdict_ok).
      cbn. rewrite lookup_fmap, Hd. cbn. by rewrite Hdone, Hv.
    + exists (pre ++ [dep]). rewrite <- app_assoc. split; [done|]. apply Forall_app. split; [done|].
      apply Forall_singleton. exists (node_of d). rewrite lookup_fmap, Hd. split_and!; [done|done|].
      by apply dep_verdict_None in Hv.
  - (* DepCancelled *) apply bind_Some in Hm as (e & He & [= <-]). by apply exit_cancelled_ok.
  - (* Acquire *) case_decide; [|done]. by injection Hm as <-.
  - (* AcquireCancelled *) apply bind_Some in Hm as (e & He & [= <-]). by apply exit_cancelled_ok.
  - (* Solved *) injection Hm as <-. right; left. eauto.
  - (* Return *) by injection Hm as <-.
Qed.

Lemma move_slots st a t pc' :
  node_move st a t = Some pc' ->
  (slots a = Z.of_nat (busy t) - Z.of_nat (busy (Thread (t_job t) pc')))%Z /\ (0 <= free st -> 0 <= free st + slots a)%Z.
Proof.
  intros Hm. destruct t as [j [[|? ?]| | | |]], a; try discriminate Hm; cbn in Hm;
    repeat first [apply bind_Some in Hm as (? & ? & Hm) | case_match; try discriminate Hm
                 | case_decide; try discriminate Hm]; injection Hm as <-; cbn; lia.
Qed.

Lemma step_inv jobs limit ev st st' :
  event_ok allowed ev -> step ev st = Some st' -> sched_inv jobs limit st -> sched_inv jobs limit st'.
Proof.
  intros Hev Hs [Hj Hf Hsl Ht]. destruct ev as [n a|e].
  - apply step_Act in Hs as (t & pc' & Hn & Hm & ->).
    pose proof (moved_done_le _ _ _ _ _ Hn Hm) as Hle.
    destruct (move_slots _ _ _ _ Hm) as [Hb Hfree]. split.
    + rewrite moved_threads, fmap_insert, Hj, insert_id; [done|]. rewrite <- Hj. by rewrite lookup_fmap, Hn.
    + rewrite moved_free. auto.
    + rewrite moved_free, moved_threads.
      pose proof (total_update busy _ _ _ (Thread (t_job t) pc') Hn). lia.
    + intros k u Hk. rewrite moved_threads in Hk.
      apply (thread_ok_mono st); [done|apply moved_ctx|].
      destruct (decide (k = n)) as [->|Hne].
      * rewrite lookup_insert_eq in Hk. injection Hk as <-. by apply (node_move_ok _ a); [..|apply Ht].
      * rewrite lookup_insert_ne in Hk by done. by apply Ht.
  - cbn in Hs. destruct (ctx_err st) eqn:Hc; [done|]. injection Hs as <-. split; try done.
    intros k u Hk. apply (thread_ok_mono st); [by intros ? ?|by rewrite Hc|by apply Ht].
Qed.

Lemma steps_sched_inv jobs limit evs st st' :
  Forall (event_ok allowed) evs -> steps evs st = Some st' -> sched_inv jobs limit st -> sched_inv jobs limit st'.
Proof.
  intros Hevs Hs. eapply (steps_inv (sched_inv jobs limit)); [|done|done]. intros. by eapply step_inv.
Qed.

Lemma start_inv P jobs :
  NoDup (RunJob.Name <$> jobs) ->
  sched_inv (job <$> initial_nodes jobs) (limit_of P jobs) (start P jobs (initial_nodes jobs)).
Proof.
  intros Hnd. split; cbn [start threads free].
  - rewrite <- map_fmap_compose. done.
  - unfold limit_of. case_decide; lia.
  - assert (total busy ((fun n => Thread (job n) (Waiting (RunJob.DependsOn (job n)))) <$> initial_nodes jobs) = 0)
      as ->; [|lia].
    apply total_zero. intros n t (d & <- & _)%lookup_fmap_Some. done.
  - intros n t (d & <- & (j & Hj & <- & ->)%initial_lookup)%lookup_fmap_Some; [|done].
    split; [done|]. by exists [].
Qed.

(** ** Progress *)

Lemma first_split {A} (P : A -> Prop) `{!forall x, Decision (P x)} l x :
  x ∈ l -> P x -> exists l1 y l2, l = l1 ++ y :: l2 /\ P y /\ Forall (fun z => ~ P z) l1.
Proof.
  intros Hx HP. induction l as [|y l IH]; [by apply not_elem_of_nil in Hx|].
  destruct (decide (P y)) as [Hy|Hy]; [by exists [], y, l|].
  apply elem_of_cons in Hx as [->|Hx]; [done|].
  destruct (IH Hx) as (l1 & z & l2 & -> & Hz & Hl1). exists (y :: l1), z, l2. auto.
Qed.

Section reachable.
Context (jobs : list RunJob.t) (limit : Z) (st : run_state).
Hypothesis Hsched : schedulable (shape jobs).
Hypothesis Hinv : sched_inv (job <$> initial_nodes jobs) limit st.

Lemma jobs_nodup : NoDup (RunJob.Name <$> jobs).
Proof. rewrite <- shape_names. apply Hsched. Qed.

Lemma thread_job n t : threads st !! n = Some t -> t_job t ∈ jobs /\ RunJob.Name (t_job t) = n.
Proof.
  intros Ht. assert ((t_job <$> threads st) !! n = Some (t_job t)) as Hj by (by rewrite lookup_fmap, Ht).
  rewrite (inv_jobs _ _ _ Hinv) in Hj.
  apply lookup_fmap_Some in Hj as (d & Hd & (j & Hj & Hn & ->)%initial_lookup); [|apply jobs_nodup].
  cbn in Hd. by subst.
Qed.

Lemma thread_exists n : n ∈ RunJob.Name <$> jobs -> exists t, threads st !! n = Some t.
Proof.
  intros [d Hd]%initial_is_Some.
  assert ((t_job <$> threads st) !! n = Some (job d)) as Hj
    by (rewrite (inv_jobs _ _ _ Hinv), lookup_fmap, Hd; done).
  apply lookup_fmap_Some in Hj as (t & _ & Ht). eauto.
Qed.

Lemma thread_dep n t dep :
  threads st !! n = Some t -> dep ∈ RunJob.DependsOn (t_job t) -> depends_on (shape jobs) n dep.
Proof. intros [Hj Hn]%thread_job Hd. apply depends_shape. eauto. Qed.

(** A goroutine that can move: the solver may answer anything, or a move of its own is
    enabled. *)
Definition can_move (n : string) : Prop :=
  exists t, threads st !! n = Some t /\
    (t_pc t = Running \/ exists a, (forall w, a <> Solved w) /\ is_Some (node_move st a t)).

Lemma running_exists : (free st < 1)%Z -> (1 <= limit)%Z -> exists n, can_move n.
Proof.
  intros Hf Hl. destruct (decide (map_Forall (fun _ t => busy t = 0) (threads st))) as [H0|H1].
  - apply total_zero in H0. pose proof (inv_slots _ _ _ Hinv). lia.
  - apply map_not_Forall in H1 as (n & t & Ht & Hb); [|solve_decision].
    exists n, t. split; [done|]. left. unfold busy in Hb. by destruct (t_pc t).
Qed.

Definition idle (t : thread) : bool :=
  match t_pc t with Waiting _ | Returned _ => true | _ => false end.

Lemma progress : (1 <= limit)%Z -> ~ finished st -> exists n, can_move n.
Proof.
  intros Hl Hnf. destruct (decide (map_Forall (fun _ t => idle t = true) (threads st))) as [Hidle|Hb].
  - apply map_not_Forall in Hnf as (n & t & Ht & Hr); [|solve_decision].
    destruct (schedulable_order jobs Hsched) as (ord & Hperm & Hord).
    set (P n := returned <$> threads st !! n = Some false).
    destruct (first_split P ord n) as (l1 & m & l2 & Heq & HP & Hl1).
    { rewrite Hperm. destruct (thread_job _ _ Ht) as [Hj <-]. by apply list_elem_of_fmap_2. }
    { unfold P. rewrite Ht. cbn. by destruct (returned t). }
    apply fmap_Some in HP as (u & Hu & Hur).
    exists m, u. split; [done|]. right. pose proof (Hidle _ _ Hu) as Hi. cbn in Hi. unfold idle in Hi.
    destruct (inv_threads _ _ _ Hinv _ _ Hu) as [Hname Hpc].
    destruct (t_pc u) as [[|dep rest]| | | |] eqn:Hp; try discriminate Hi.
    + exists EvalWhen. split; [done|]. unfold node_move. rewrite Hp. eauto.
    + destruct Hpc as (pre & Hdeps & _).
      assert (depends_on (shape jobs) m dep) as Hd by (eapply thread_dep; [done|rewrite Hdeps; set_solver]).
      destruct (thread_exists dep) as [v Hv].
      { rewrite <- shape_names. by eapply (proj1 (proj2 Hsched)). }
      rewrite Forall_forall in Hl1. assert (~ P dep) as HnP by (by eapply Hl1, Hord).
      exists DepDone. split; [done|]. unfold node_move. rewrite Hp, Hv. cbn.
      assert (done (node_of v) = true) as ->; [|eauto].
      unfold node_of. destruct (t_pc v) eqn:Hvp; try done;
        exfalso; apply HnP; unfold P; rewrite Hv; cbn; unfold returned; by rewrite Hvp.
    + unfold returned in Hur. by rewrite Hp in Hur.
  - apply map_not_Forall in Hb as (n & t & Ht & Hi); [|solve_decision]. unfold idle in Hi.
    destruct (t_pc t) eqn:Hp; try done.
    + destruct (decide (1 <= free st)%Z) as [Hf|Hf]; [|by apply running_exists; [lia|]].
      exists n, t. split; [done|]. right. exists Acquire. split; [done|].
      unfold node_move. rewrite Hp, decide_True by done. eauto.
    + exists n, t. auto.
    + exists n, t. split; [done|]. right. exists Return. split; [done|]. unfold node_move. rewrite Hp. eauto.
Qed.
End reachable.

(** A goroutine that can move makes an event of the schedule possible in every world. *)
Lemma can_move_step st n w :
  can_move st n -> exists a st', (forall w', a = Solved w' -> w' = w) /\ step (Act n a) st = Some st'.
Proof.
  intros (t & Ht & [Hr|(a & Ha & pc' & Hm)]).
  - exists (Solved w), (moved n (Solved w) t (Exited (run_acquired w (t_job t))) st). split; [by intros w' [=]|].
    apply step_Act. exists t, (Exited (run_acquired w (t_job t))). split_and!; [done| |done].
    unfold node_move. by rewrite Hr.
  - exists a, (moved n a t pc' st). split; [intros w' ->; by destruct (Ha w')|].
    apply step_Act. eauto.
Qed.

Lemma step_total ev st st' :
  is_act ev = true -> step ev st = Some st' -> total weight (threads st') < total weight (threads st).
Proof.
  intros Ha Hs. assert (steps [ev] st = Some st') as H1 by (cbn; by rewrite Hs).
  apply steps_bounded in H1. rewrite filter_cons_True in H1 by done. cbn in H1. lia.
Qed.

(** Every reachable state can be run to the end, whatever the solver answers. *)
Lemma finishes W jobs limit st :
  (forall n, allowed n (W n)) -> schedulable (shape jobs) -> (1 <= limit)%Z ->
  sched_inv (job <$> initial_nodes jobs) limit st ->
  exists evs st', Forall (event_ok (fun n w => w = W n)) evs /\ Forall (fun ev => is_act ev = true) evs /\
    steps evs st = Some st' /\ finished st'.
Proof.
  intros HW Hsched Hl. remember (total weight (threads st)) as k eqn:Hk. revert st Hk.
  induction k as [k IH] using (well_founded_induction lt_wf). intros st -> Hinv.
  destruct (decide (finished st)) as [Hf|Hnf]; [by exists [], st|].
  destruct (progress jobs limit st Hsched Hinv Hl Hnf) as [n Hn].
  destruct (can_move_step st n (W n) Hn) as (a & st1 & Ha & Hs).
  assert (event_ok (fun n w => w = W n) (Act n a)) as HaW by (destruct a; cbn; auto).
  assert (event_ok allowed (Act n a)) as Hok by (destruct a; try done; cbn in HaW |- *; subst; apply HW).
  destruct (IH (total weight (threads st1))) with (st := st1) as (evs & st' & Hevs & Hact & Hst' & Hf);
    [by apply (step_total (Act n a))|done|by eapply step_inv|].
  exists (Act n a :: evs), st'. split_and!; [by constructor|by constructor| |done].
  cbn [steps]. by rewrite Hs.
Qed.

(** ** The sequential run *)

(** Every job at once, in an order with dependencies first; the fold is the reference the
    concurrent schedule is compared with. *)
Definition settle_thread (W : string -> world) (ts : gmap string thread) (n : string) : gmap string thread :=
  match ts !! n with
  | Some t =>
      match settle (W n) (node_of <$> ts) (t_job t) with
      | Some x => <[n := Thread (t_job t) (Returned x)]> ts
      | None => ts
      end
  | None => ts
  end.

Definition run_in_order (W : string -> world) (ord : list string) (ts : gmap string thread) : gmap string thread :=
  foldl (settle_thread W) ts ord.

Lemma first_verdict_local nodes nodes' name deps :
  (forall d, d ∈ deps -> nodes !! d = nodes' !! d) ->
  first_verdict nodes name deps = first_verdict nodes' name deps.
Proof.
  induction deps as [|d deps IH]; intros Heq; [done|]. cbn [first_verdict].
  rewrite (Heq d) by set_solver. destruct (nodes' !! d) as [n|]; [|done]. cbn.
  destruct (done n); [|done]. destruct (dep_verdict name d n); [done|]. apply IH. set_solver.
Qed.

Lemma collect_local nodes nodes' deps :
  (forall d, d ∈ deps -> nodes !! d = nodes' !! d) ->
  collectDepOutputs nodes deps = collectDepOutputs nodes' deps.
Proof.
  intros Heq. unfold collectDepOutputs. generalize (∅ : gmap string outputs) as acc.
  induction deps as [|d deps IH]; intros acc; [done|]. cbn [foldl].
  rewrite (Heq d) by set_solver. apply IH. set_solver.
Qed.

Lemma settle_local w nodes nodes' j :
  (forall d, d ∈ RunJob.DependsOn j -> nodes !! d = nodes' !! d) -> settle w nodes j = settle w nodes' j.
Proof.
  intros Heq. unfold settle, before_slot, eval_when.
  by rewrite (first_verdict_local nodes nodes'), (collect_local nodes nodes').
Qed.

Lemma in_order_result W jobs (start final : gmap string thread) ord :
  dep_order jobs ord ->
  t_job <$> final = t_job <$> start ->
  (forall n t, final !! n = Some t -> exists x, t = Thread (t_job t) (Returned x) /\
     settle (W n) (node_of <$> final) (t_job t) = Some x) ->
  (forall n t d, final !! n = Some t -> d ∈ RunJob.DependsOn (t_job t) -> depends_on (shape jobs) n d) ->
  (forall n t, final !! n = Some t -> n ∈ ord) ->
  run_in_order W ord start = final.
Proof.
  intros [Hperm Hord] Hjobs Hfinal Hdeps Hall.
  assert (forall l l', ord = l ++ l' -> forall n,
    run_in_order W l start !! n = if decide (n ∈ l) then final !! n else start !! n) as Hpre.
  { intros l. induction l as [|m l IH] using rev_ind; intros l' Heq n.
    { rewrite decide_False by apply not_elem_of_nil. done. }
    rewrite <- app_assoc in Heq. cbn in Heq. specialize (IH _ Heq).
    unfold run_in_order in *. rewrite foldl_app. cbn [foldl]. set (ts := foldl _ start l) in *.
    assert (forall k, t_job <$> ts !! k = t_job <$> start !! k) as Hj.
    { intros k. rewrite IH. case_decide; [|done]. by rewrite <- !lookup_fmap, Hjobs. }
    assert (final !! m = settle_thread W ts m !! m) as Hm.
    { unfold settle_thread. destruct (final !! m) as [t|] eqn:Ht.
      - destruct (Hfinal _ _ Ht) as (x & Htx & Hs).
        assert (exists u, ts !! m = Some u /\ t_job u = t_job t) as (u & Hu & Hut).
        { specialize (Hj m). rewrite <- lookup_fmap, <- (lookup_fmap t_job start), <- Hjobs, !lookup_fmap, Ht in Hj.
          cbn in Hj. apply fmap_Some in Hj as (u & Hu & ->). eauto. }
        rewrite Hu, Hut. rewrite (settle_local _ _ (node_of <$> final)).
        + rewrite Hs, lookup_insert_eq. by rewrite Htx.
        + intros d Hd. rewrite !lookup_fmap, IH, decide_True; [done|].
          eapply (Hord l m l'); [done|]. by eapply Hdeps.
      - assert (ts !! m = None) as Hn.
        { specialize (Hj m). rewrite <- (lookup_fmap t_job start), <- Hjobs, lookup_fmap, Ht in Hj.
          cbn in Hj. by destruct (ts !! m). }
        by rewrite Hn. }
    destruct (decide (n = m)) as [->|Hne].
    - rewrite decide_True by set_solver. done.
    - assert (settle_thread W ts m !! n = ts !! n) as ->.
      { unfold settle_thread. destruct (ts !! m); [|done]. destruct (settle _ _ _); [|done].
        by rewrite lookup_insert_ne. }
      rewrite IH. destruct (decide (n ∈ l)); [rewrite decide_True by set_solver; done|].
      rewrite decide_False by set_solver. done. }
  apply map_eq. intros n. rewrite (Hpre ord []) by (by rewrite app_nil_r).
  case_decide as Hn; [done|]. destruct (final !! n) as [t|] eqn:Ht; [by apply Hall in Ht|].
  assert (t_job <$> start !! n = None) as Hs by (by rewrite <- lookup_fmap, <- Hjobs, lookup_fmap, Ht).
  by destruct (start !! n).
Qed.

(** ** What the group collects *)

Definition ret (t : thread) : option error := match t_pc t with Returned x => x_return x | _ => None end.

Definition collected (ts : gmap string thread) : list error := omap (ret ∘ snd) (map_to_list ts).

(** [errors.Join]. *)
Definition errors_Join (es : list error) : option error :=
  match es with
  | [] => None
  | _ => Some (Error (es ≫= operands) (es ≫= Errors.chain))
  end.

(** [jobErr] once the group is done. *)
Definition job_err (st : run_state) : option error :=
  if FailFast cfg then group_err st else errors_Join (errs st).

Lemma collected_update ts n t t' :
  ts !! n = Some t -> ret t = None -> collected (<[n := t']> ts) ≡ₚ collected ts ++ option_list (ret t').
Proof.
  intros Hn Hr. unfold collected. rewrite <- (insert_delete_id ts n t Hn) at 2. rewrite <- insert_delete_eq.
  rewrite !map_to_list_insert by apply lookup_delete_eq. cbn. rewrite Hr.
  destruct (ret t'); cbn; [|by rewrite app_nil_r]. by rewrite Permutation_cons_append.
Qed.

Definition group_inv (st : run_state) : Prop :=
  if FailFast cfg
  then (group_err st = None <-> collected (threads st) = []) /\
       (forall e, group_err st = Some e -> e ∈ collected (threads st) /\ ctx_err st <> None)
  else errs st ≡ₚ collected (threads st).

Lemma move_ret st a t pc' :
  node_move st a t = Some pc' ->
  ret t = None /\
  match pc' with Returned _ => True | _ => ret (Thread (t_job t) pc') = None end.
Proof. intros Hm. move_cases t a Hm; done. Qed.

Lemma step_group ev st st' : step ev st = Some st' -> group_inv st -> group_inv st'.
Proof.
  intros Hs Hg. destruct ev as [n a|e].
  - apply step_Act in Hs as (t & pc' & Hn & Hm & ->).
    destruct (move_ret _ _ _ _ Hm) as [Hr Hr'].
    pose proof (collected_update _ _ _ (Thread (t_job t) pc') Hn Hr) as Hc.
    unfold group_inv in *. rewrite moved_threads.
    assert ((exists x e, pc' = Returned x /\ x_return x = Some e) \/
      (ret (Thread (t_job t) pc') = None /\ group_err (moved n a t pc' st) = group_err st /\
       ctx_err (moved n a t pc' st) = ctx_err st /\ errs (moved n a t pc' st) = errs st))
      as [(x & e & -> & Hx)|(Hnone & -> & -> & ->)].
    { destruct pc' as [| | | |x]; [by right..|]. destruct (x_return x) as [e|] eqn:Hx; [left; eauto|right].
      unfold moved, collect, ret. cbn. by rewrite Hx. }
    + unfold moved, collect in *. rewrite Hx. unfold ret in Hc. cbn in Hc. rewrite Hx in Hc. cbn in Hc.
      destruct (FailFast cfg); cbn.
      * destruct Hg as [Hnil Hsome]. destruct (group_err st) as [e'|] eqn:Hge; cbn.
        -- split; [split; [done|]|].
           ++ intros Hnil'. rewrite Hnil' in Hc. by apply Permutation_nil, app_eq_nil in Hc as [_ ?].
           ++ intros e'' [= <-]. rewrite Hc, elem_of_app. destruct (Hsome e' eq_refl). auto.
        -- split; [split; [done|]|].
           ++ intros Hnil'. rewrite Hnil' in Hc. by apply Permutation_nil, app_eq_nil in Hc as [_ ?].
           ++ intros e'' [= <-]. rewrite Hc, elem_of_app. split; [right; by left|done].
      * by rewrite Hc, Hg.
    + rewrite Hnone in Hc. cbn in Hc. rewrite app_nil_r in Hc.
      destruct (FailFast cfg); [|by rewrite Hc]. destruct Hg as [Hnil Hsome]. split.
      * rewrite Hnil. split; intros Hn'; rewrite Hn' in Hc; [|by apply Permutation_nil in Hc].
        by apply Permutation_sym, Permutation_nil in Hc.
      * intros e He. rewrite Hc. by apply Hsome.
  - cbn in Hs. destruct (ctx_err st) eqn:Hc; [done|]. injection Hs as <-. unfold group_inv in *. cbn in *.
    destruct (FailFast cfg); [|done]. destruct Hg as [Hnil Hsome]. split; [done|].
    intros e' He. split; [|done]. by apply Hsome.
Qed.

(** ** Exits *)

(** A goroutine returns an error exactly when its node records one, and a node that was
    skipped has none. *)
Definition coherent_exit (x : node_exit) : Prop :=
  (x_return x = None <-> x_err x = None) /\ (x_skipped x = true -> x_err x = None).

Lemma run_acquired_coherent (w : world) j : coherent_exit (run_acquired w j) /\ x_skipped (run_acquired w j) = false.
Proof.
  unfold run_acquired. destruct (retryJob _ _) as [[o|e] evs].
  - destruct (default None o), (RunJob.OutputDef j) as [d|]; try done. by destruct (jw_extract w d).
  - by destruct (job_error w j e).
Qed.

Lemma before_slot_coherent nodes j x :
  before_slot nodes j = Some (Some x) ->
  coherent_exit x /\ (x_err x = None -> x_skipped x = true).
Proof.
  unfold before_slot. intros (v & Hv & [= Hx])%bind_Some. destruct v as [y|].
  - injection Hx as ->. revert Hv. induction (RunJob.DependsOn j) as [|d deps IH]; [done|]. cbn [first_verdict].
    intros (n & _ & Hv)%bind_Some. destruct (done n); [|done].
    destruct (dep_verdict (RunJob.Name j) d n) as [z|] eqn:Hz; [|by apply IH].
    injection Hv as ->. unfold dep_verdict in Hz. destruct (err n); [by injection Hz as <-|].
    destruct (skipped n); [by injection Hz as <-|done].
  - unfold eval_when in Hx. destruct (RunJob.When j) as [f|], (whenCtx cfg); try done.
    destruct (f _ _) as [[]|]; try done; by injection Hx as <-.
Qed.

Lemma explained_coherent st n j x : explained st n j x -> coherent_exit x.
Proof.
  intros [Hb|[(_ & w & _ & ->)|(_ & e & ->)]]; [by eapply before_slot_coherent|apply run_acquired_coherent|done].
Qed.

(** Why a job is skipped: a dependency was, or its own condition is false on the outputs of
    dependencies that have all succeeded. *)
Definition condition_false (nodes : gmap string dagNode) (j : RunJob.t) : Prop :=
  exists w ctx, RunJob.When j = Some w /\ whenCtx cfg = Some ctx /\
    w (ctx <| Context.PipelineEnv := RunJob.Env j |> <| Context.Matrix := RunJob.Matrix j |>)
      (collectDepOutputs nodes (RunJob.DependsOn j)) = Ok false.

Definition skip_reason (nodes : gmap string dagNode) (j : RunJob.t) : Prop :=
  (exists d n, d ∈ RunJob.DependsOn j /\ nodes !! d = Some n /\ done n = true /\ err n = None /\ skipped n = true) \/
  (Forall (ok_dep nodes) (RunJob.DependsOn j) /\ condition_false nodes j).

Lemma first_verdict_skip nodes name deps x :
  first_verdict nodes name deps = Some (Some x) -> x_skipped x = true ->
  exists d n, d ∈ deps /\ nodes !! d = Some n /\ done n = true /\ err n = None /\ skipped n = true.
Proof.
  induction deps as [|d deps IH]; [done|]. cbn [first_verdict]. intros (n & Hn & Hv)%bind_Some Hs.
  destruct (done n) eqn:Hd; [|done]. destruct (dep_verdict name d n) as [y|] eqn:Hy.
  - injection Hv as ->. exists d, n. unfold dep_verdict in Hy. destruct (err n); [by injection Hy as <-|].
    destruct (skipped n); [|done]. split_and!; [by left|done..].
  - destruct (IH Hv Hs) as (d' & n' & Hin & ?). exists d', n'. split; [by right|done].
Qed.

Lemma explained_skipped st n j x :
  explained st n j x -> x_skipped x = true -> skip_reason (node_of <$> threads st) j.
Proof.
  intros [Hb|[(_ & w & _ & ->)|(_ & e & ->)]] Hs; [|by rewrite (proj2 (run_acquired_coherent w j)) in Hs|done].
  unfold before_slot in Hb. apply bind_Some in Hb as (v & Hv & [= Hx]). destruct v as [y|].
  - injection Hx as ->. left. by eapply first_verdict_skip.
  - right. apply first_verdict_ok in Hv. split; [done|]. unfold eval_when in Hx.
    destruct (RunJob.When j) as [w|] eqn:Hw, (whenCtx cfg) as [ctx|] eqn:Hc; try done.
    destruct (w _ _) as [[]|] eqn:Hr; [done| |by injection Hx as <-]. by exists w, ctx.
Qed.

(** Only a node all of whose dependencies succeeded can succeed. *)
Lemma explained_success st n j x :
  explained st n j x -> x_err x = None -> x_skipped x = false ->
  before_slot (node_of <$> threads st) j = Some None /\ exists w, allowed n w /\ x = run_acquired w j.
Proof.
  intros [Hb|[Hw|(_ & e & ->)]] He Hs; [|done|done].
  apply before_slot_coherent in Hb as [_ Hb]. rewrite Hb in Hs; done.
Qed.
End sched.

(** ** Properties *)

Section properties.
Context `{LLB} {GwResult Ref : Type}.
Abbreviation world := (@job_world _ GwResult Ref).
Context (cfg : config) (Parallelism : Z) (range : gmap string dagNode -> list string).
Context (jobs : list RunJob.t) (nodes : gmap string dagNode).
Hypothesis Hrange : ranges range.
Hypothesis Hdag : buildDAG range jobs = Ok nodes.

Abbreviation init := (start Parallelism jobs nodes).
Abbreviation limit := (limit_of Parallelism jobs).

(** The schedule [evs] meets the world [W n] at every node [n]. *)
Definition in_world (W : string -> world) : event -> Prop := event_ok (fun n w => w = W n).

Lemma dag_schedulable : schedulable (shape jobs) /\ nodes = initial_nodes jobs.
Proof. by apply (buildDAG_Ok range). Qed.

Lemma init_inv (allowed : string -> world -> Prop) : sched_inv cfg allowed (job <$> initial_nodes jobs) limit init.
Proof.
  destruct dag_schedulable as [Hs ->]. apply start_inv. rewrite <- shape_names. apply Hs.
Qed.

Lemma reach_inv (allowed : string -> world -> Prop) evs st :
  Forall (event_ok allowed) evs -> steps cfg evs init = Some st ->
  sched_inv cfg allowed (job <$> initial_nodes jobs) limit st.
Proof. intros Hevs Hs. by eapply steps_sched_inv, init_inv. Qed.

Lemma any_world (evs : list event) : Forall (event_ok (fun (_ : string) (_ : world) => True)) evs.
Proof. apply Forall_forall. intros [n a|e] _; [by destruct a|done]. Qed.

Lemma init_weight :
  total weight (threads init) = sum_list ((fun j => 4 + length (RunJob.DependsOn j)) <$> jobs).
Proof.
  destruct dag_schedulable as [(Hnd & _ & _) ->]. rewrite shape_names in Hnd. clear Hdag. unfold total. cbn [start threads].
  rewrite map_to_list_fmap. unfold initial_nodes.
  assert (forall l l', l ≡ₚ l' -> sum_list l = sum_list l') as Hsum by (induction 1; cbn; lia).
  apply Hsum. rewrite map_to_list_to_map by (by rewrite initial_keys).
  rewrite <- !list_fmap_compose. done.
Qed.

Lemma limit_pos : jobs <> [] -> (1 <= limit)%Z.
Proof. intros Hne. unfold limit_of. case_decide; [lia|]. destruct jobs; [done|]. cbn. lia. Qed.

Lemma no_jobs st (evs : list (event (GwResult := GwResult) (Ref := Ref))) : jobs = [] -> steps cfg evs init = Some st -> finished st.
Proof.
  intros Hj Hs n t Ht. pose proof (reach_inv _ evs st (any_world evs) Hs) as Hinv.
  destruct (thread_job _ _ _ _ _ (proj1 dag_schedulable) Hinv n t Ht) as [Hin _]. rewrite Hj in Hin. by apply not_elem_of_nil in Hin.
Qed.

Lemma init_group : group_inv cfg init.
Proof.
  unfold group_inv. assert (collected (threads init) = []) as ->.
  { apply elem_of_nil_inv. intros e ([n t] & Hin%elem_of_map_to_list & He)%list_elem_of_omap.
    cbn in Hin. by apply lookup_fmap_Some in Hin as (d & <- & _). }
  destruct (FailFast cfg); cbn; [|done]. split; [done|]. intros e [=].
Qed.

(** The schedule has solved [n] in the world [w]. *)
Definition solved_in (evs : list (event (GwResult := GwResult) (Ref := Ref))) (n : string) (w : world) : Prop :=
  Act n (Solved w) ∈ evs.

Lemma evs_solved evs : Forall (event_ok (solved_in evs)) evs.
Proof. apply Forall_forall. intros [n a|e] Hin; [by destruct a|done]. Qed.

(** A node that ended without an error: it was skipped for a reason, or one of the events of
    the schedule solved it, after all its dependencies had succeeded. *)
Definition ended (evs : list event) (st : run_state) (j : RunJob.t) (x : node_exit) : Prop :=
  if x_skipped x then skip_reason cfg (node_of <$> threads st) j
  else Forall (ok_dep (node_of <$> threads st)) (RunJob.DependsOn j) /\
       exists w, solved_in evs (RunJob.Name j) w /\ x = run_acquired w j.

(** What the position of a goroutine says about its dependencies. *)
Definition ready (evs : list event) (st : run_state) (t : thread) : Prop :=
  match t_pc t with
  | Waiting _ => True
  | Acquiring | Running => Forall (ok_dep (node_of <$> threads st)) (RunJob.DependsOn (t_job t))
  | Exited x | Returned x => x_err x = None -> ended evs st (t_job t) x
  end.

Lemma reach_ready (evs : list (event (GwResult := GwResult) (Ref := Ref))) st n t :
  steps cfg evs init = Some st -> threads st !! n = Some t -> ready evs st t.
Proof.
  intros Hrun Ht. pose proof (reach_inv _ evs st (evs_solved evs) Hrun) as Hinv.
  destruct (inv_threads _ _ _ _ _ Hinv n t Ht) as [Hn Hpc]. unfold ready.
  assert (forall x, explained cfg (solved_in evs) st n (t_job t) x -> x_err x = None -> ended evs st (t_job t) x) as Hex.
  { intros x Hx He. unfold ended. destruct (x_skipped x) eqn:Hs; [by eapply explained_skipped|].
    destruct (explained_success _ _ _ _ _ _ Hx He Hs) as [Hb (w & Hw & ->)].
    apply before_slot_free in Hb as [Hb _]. rewrite Hn. eauto. }
  destruct (t_pc t); [done|by apply before_slot_free in Hpc as [? _]..|by apply Hex|by apply Hex].
Qed.

(** From every reachable state the goroutines can finish by themselves. *)
Lemma run_to_end (evs : list event) st (W : string -> world) :
  steps cfg evs init = Some st ->
  exists evs' st', Forall (in_world W) evs' /\ Forall (fun ev => is_act ev = true) evs' /\
    steps cfg (evs ++ evs') init = Some st' /\ finished st'.
Proof.
  intros Hrun. destruct (decide (jobs = [])) as [Hnil|Hne].
  { exists [], st. rewrite app_nil_r. split_and!; [constructor|constructor|done|by eapply no_jobs]. }
  pose proof (reach_inv _ evs st (any_world evs) Hrun) as Hinv.
  destruct (finishes cfg (fun _ _ => True) W jobs limit st) as (evs' & st' & HW & Hact & Hs & Hf);
    [done|apply dag_schedulable|by apply limit_pos|done|].
  exists evs', st'. split_and!; [done|done| |done]. by rewrite steps_app, Hrun.
Qed.

(** C4: in every interleaving, with any cancellation and any answers of the solver, the slots
    taken are exactly the jobs being solved, so never more than the limit run at once; a
    job is solved only after every one of its dependencies has closed its channel without
    an error and without being skipped; and a job that ends without an error was either
    solved by an event of the schedule, after all its dependencies had succeeded, or it is
    marked as skipped, because a dependency was skipped or because all of them succeeded and
    its own condition is false. *)
Theorem sched_safe (evs : list (event (GwResult := GwResult) (Ref := Ref))) st
  (Hrun : steps cfg evs init = Some st) :
  (0 <= free st)%Z /\ (free st + Z.of_nat (total busy (threads st)) = limit)%Z /\
  forall n t, threads st !! n = Some t -> ready evs st t.
Proof.
  pose proof (reach_inv _ evs st (any_world evs) Hrun) as Hinv.
  split; [apply Hinv|]. split; [apply Hinv|]. intros n t Ht. exact (reach_ready evs st n t Hrun Ht).
Qed.

(** C5: the schedule never deadlocks and always ends: it makes at most four moves per job
    plus one per dependency, and from every reachable state, whatever the solver answers,
    there is a way for the goroutines alone to finish - with a parallelism of one, with
    failures, and after a cancellation as well. *)
Theorem sched_finishes (evs : list event) st (W : string -> world)
  (Hrun : steps cfg evs init = Some st) :
  length (filter (fun ev => is_act ev = true) evs) <=
    sum_list ((fun j => 4 + length (RunJob.DependsOn j)) <$> jobs) /\
  exists evs' st', Forall (in_world W) evs' /\ Forall (fun ev => is_act ev = true) evs' /\
    steps cfg (evs ++ evs') init = Some st' /\ finished st'.
Proof.
  split; [pose proof (steps_bounded _ _ _ _ Hrun); rewrite init_weight in *; lia|by eapply run_to_end].
Qed.

(** C3: concurrency does not matter: if nothing cancels the context, every schedule in which
    the solver answers node [n] according to [W n] ends with the same nodes, outputs,
    errors and messages as running the jobs one after the other in any order with
    dependencies first. *)
Theorem sched_refines (evs : list event) st (W : string -> world) ord
  (Hworld : Forall (in_world W) evs) (Hrun : steps cfg evs init = Some st)
  (Hfin : finished st) (Hctx : ctx_err st = None) (Hord : dep_order jobs ord) :
  threads st = run_in_order cfg W ord (threads init).
Proof.
  pose proof (reach_inv _ evs st Hworld Hrun) as Hinv.
  pose proof (proj1 dag_schedulable) as Hs.
  symmetry. apply (in_order_result cfg (fun _ _ => True) W jobs); [exact Hord|..].
  - rewrite (inv_jobs _ _ _ _ _ Hinv). by rewrite (inv_jobs _ _ _ _ _ (init_inv (fun _ _ => True))).
  - intros n t Ht. specialize (Hfin n t Ht). destruct (inv_threads _ _ _ _ _ Hinv n t Ht) as [_ Hpc].
    unfold returned in Hfin. destruct t as [j p]. cbn in *. destruct p as [| | | |x]; try done.
    exists x. split; [done|]. unfold settle.
    destruct Hpc as [->|[[-> (w & -> & ->)]|[Hc _]]]; [done|done|by rewrite Hctx in Hc].
  - intros n t d Ht Hd. by eapply (thread_dep cfg (fun n w => w = W n) jobs limit).
  - intros n t Ht. destruct Hord as [-> _].
    destruct (thread_job _ _ _ _ _ Hs Hinv n t Ht) as [Hj <-]. by apply list_elem_of_fmap_2.
Qed.

Lemma collected_nodes (allowed : string -> world -> Prop) st :
  sched_inv cfg allowed (job <$> initial_nodes jobs) limit st -> finished st ->
  collected (threads st) = [] <-> forall n t, threads st !! n = Some t -> err (node_of t) = None.
Proof.
  intros Hinv Hfin.
  assert (forall n t, threads st !! n = Some t -> ret t = None <-> err (node_of t) = None) as Hret.
  { intros n t Ht. specialize (Hfin n t Ht). destruct (inv_threads _ _ _ _ _ Hinv n t Ht) as [_ Hpc].
    unfold returned in Hfin. unfold ret, node_of. destruct (t_pc t) as [| | | |x]; try done.
    apply explained_coherent in Hpc. apply Hpc. }
  unfold collected. split.
  - intros Hnil n t Ht. apply (Hret n); [done|]. destruct (ret t) as [e|] eqn:He; [|done].
    exfalso. apply (not_elem_of_nil e). rewrite <- Hnil. apply list_elem_of_omap.
    exists (n, t). split; [by apply elem_of_map_to_list|done].
  - intros Hall. apply elem_of_nil_inv. intros e ([n t] & Hin%elem_of_map_to_list & He)%list_elem_of_omap.
    cbn in He. rewrite (proj2 (Hret n t Hin)) in He; [done|]. by eapply Hall.
Qed.

Lemma reach_group (evs : list (event (GwResult := GwResult) (Ref := Ref))) st : steps cfg evs init = Some st -> group_inv cfg st.
Proof.
  intros Hrun. eapply (steps_inv cfg (group_inv cfg) (fun _ => True)); [|by apply Forall_true|done|apply init_group].
  intros ev s s' _. apply step_group.
Qed.

(** The group reports an error exactly when a node has recorded one. *)
Lemma job_err_None (evs : list (event (GwResult := GwResult) (Ref := Ref))) st :
  steps cfg evs init = Some st -> finished st ->
  job_err cfg st = None <-> forall n t, threads st !! n = Some t -> err (node_of t) = None.
Proof.
  intros Hrun Hfin. pose proof (reach_inv _ evs st (any_world evs) Hrun) as Hinv. pose proof (reach_group evs st Hrun) as Hg.
  rewrite <- (collected_nodes _ _ Hinv Hfin). unfold group_inv, job_err in *. destruct (FailFast cfg); [by apply Hg|].
  destruct (errs st) as [|e es]; cbn.
  - by apply Permutation_nil in Hg as ->.
  - split; [done|]. intros Hc. rewrite Hc in Hg. by apply Permutation_sym, Permutation_nil in Hg.
Qed.

(** C21: the job error of a finished run is nil exactly when no node recorded an error;
    otherwise a fail-fast run reports an error that one of the goroutines returned, and has
    cancelled its context, and any other run joins the errors of all of them. *)
Theorem run_outcome (evs : list (event (GwResult := GwResult) (Ref := Ref))) st
  (Hrun : steps cfg evs init = Some st) (Hfin : finished st) :
  (job_err cfg st = None <-> forall n t, threads st !! n = Some t -> err (node_of t) = None) /\
  (FailFast cfg = true -> forall e, job_err cfg st = Some e ->
     e ∈ collected (threads st) /\ ctx_err st <> None) /\
  (FailFast cfg = false -> exists es, job_err cfg st = errors_Join es /\ es ≡ₚ collected (threads st)).
Proof.
  split; [by eapply job_err_None|]. pose proof (reach_group evs st Hrun) as Hg. unfold group_inv, job_err in *.
  destruct (FailFast cfg).
  - destruct Hg as [_ Hsome]. by split.
  - split; [done|]. by eauto.
Qed.
End properties.

(** ** Witnesses *)

#[local] Instance ex_llb : LLB := {| Definition_ := unit; State_ := unit; zero_state := tt |}.

(** A solver that fails [b] and lets everything else pass. *)
Definition ex_gateway : gateway unit unit :=
  Gateway _ _ (fun _ => Ok tt) (fun _ _ _ => Ok tt) (fun _ => Ok tt)
    (fun _ _ => Ok "k=v") (fun _ => false) (fun _ _ => None) (fun _ _ => None).

Definition ex_solver (ok : bool) : solver (GwResult := unit) (Ref := unit) :=
  Solver (fun _ => if ok then None else Some (raise (ExitError 2))) ex_gateway (fun _ => None) None.

Definition ex_world (n : string) : job_world (GwResult := unit) (Ref := unit) :=
  JobWorld (fun _ => ex_solver (negb (bool_decide (n = "b")))) (fun _ => None) (fun _ => None) false
    (fun _ => Ok {["n" := n]}).

(** [c] depends on [a] and [b]; [d] is skipped by its condition; [e] depends on [d]. *)
Definition ex_jobs : list RunJob.t :=
  let mk name deps when :=
    RunJob.mk name (Some tt) deps when ∅ ∅ (Some tt) [] 0 None ∅ ∅ None tt in
  [mk "c" ["a"; "b"] None; mk "a" [] None; mk "b" [] None;
   mk "d" [] (Some (fun _ _ => Ok false)); mk "e" ["a"; "d"] None].

Definition ex_range (nodes : gmap string (dagNode (H := ex_llb))) : list string := (map_to_list nodes).*1.

Definition ex_config : config := Config (Some (Context.mk None "" "" ∅ ∅)) false.

(** One slot; [e] and [c] start waiting first. *)
Definition ex_schedule : list event :=
  [Act "a" EvalWhen; Act "b" EvalWhen; Act "b" Acquire; Act "d" EvalWhen; Act "d" Return;
   Act "b" (Solved (ex_world "b")); Act "a" Acquire; Act "a" (Solved (ex_world "a")); Act "e" DepDone;
   Act "c" DepDone; Act "e" DepDone; Act "c" DepDone; Act "b" Return; Act "c" Return; Act "e" Return;
   Act "a" Return].

Definition ex_start : run_state := start 1 ex_jobs (initial_nodes ex_jobs).
Definition ex_final : run_state := default ex_start (steps ex_config ex_schedule ex_start).
Definition ex_prefix : list event := take 3 ex_schedule.
Definition ex_middle : run_state := default ex_start (steps ex_config ex_prefix ex_start).

Lemma ex_ranges : ranges ex_range.
Proof. intros nodes. done. Qed.

Lemma sched_safe_witness :
  free ex_middle = 0%Z /\ total busy (threads ex_middle) = 1 /\ (0 <= free ex_middle)%Z.
Proof.
  split; [vm_compute; reflexivity|]. split; [vm_compute; reflexivity|].
  refine (proj1 (sched_safe ex_config 1 ex_range ex_jobs (initial_nodes ex_jobs) ex_ranges _ ex_prefix ex_middle _));
    vm_compute; reflexivity.
Defined.

Lemma sched_finishes_witness :
  exists evs' st', Forall (in_world ex_world) evs' /\ Forall (fun ev => is_act ev = true) evs' /\
    steps ex_config (ex_prefix ++ evs') ex_start = Some st' /\ finished st'.
Proof.
  refine (proj2 (sched_finishes ex_config 1 ex_range ex_jobs (initial_nodes ex_jobs) ex_ranges _
    ex_prefix ex_middle ex_world _)); vm_compute; reflexivity.
Defined.

Lemma sched_refines_witness :
  threads ex_final = run_in_order ex_config ex_world ["a"; "b"; "c"; "d"; "e"] (threads ex_start).
Proof.
  refine (sched_refines ex_config 1 ex_range ex_jobs (initial_nodes ex_jobs) ex_ranges _
    ex_schedule ex_final ex_world _ _ _ _ _ _); try (vm_compute; reflexivity).
  - repeat constructor.
  - apply (bool_decide_unpack _). vm_compute. exact I.
  - split; [apply (bool_decide_unpack _); vm_compute; exact I|].
    intros l1 n l2 d Heq (ds & Hin & Hd). cbn in Hin.
    repeat (apply elem_of_cons in Hin as [[= -> ->]|Hin]); try (by apply not_elem_of_nil in Hin).
    all: repeat (destruct l1 as [|? l1]; [discriminate Heq || (injection Heq as ?; subst)|injection Heq as ? Heq; subst]).
    all: set_solver.
Defined.

Lemma run_outcome_witness :
  job_err ex_config ex_final <> None /\ threads ex_final !! "a" <> None /\
  (job_err ex_config ex_final = None <->
   forall n t, threads ex_final !! n = Some t -> err (node_of t) = None).
Proof.
  split; [vm_compute; discriminate|]. split; [vm_compute; discriminate|].
  refine (proj1 (run_outcome ex_config 1 ex_range ex_jobs (initial_nodes ex_jobs) ex_ranges _
    ex_schedule ex_final _ _)); [vm_compute; reflexivity..|].
  apply (bool_decide_unpack _). vm_compute. exact I.
Defined.
