(* ===== verification/Publish.v ===== *)
(** * Exports and image publishes (runner/export.go; runner.go: Run around the schedule)

    After the schedule [Run] keeps the exports and publishes of jobs that succeeded, groups
    the publishes by image and hands every group to BuildKit. *)

From S2P Require Import Prelude Errors GoStrings Regex Conditional Model Progress Retry Dag Output Node Sched.

(** [runnermodel.Export]. *)
Module RunExport.
Section run_export.
Context `{LLB}.
Record t : Type := mk { Definition' : option Definition_; JobName : string; Local : string; Dir : bool }.
End run_export.
End RunExport.

(** [runnermodel.ImagePublish]. *)
Module ImagePublish.
Section image_publish.
Context `{LLB}.
Record t : Type := mk {
  Definition' : option Definition_;
  JobName : string;
  Image : string;
  Push : bool;
  Insecure : bool;
  ExportDocker : bool;
  Platform : string
}.
End image_publish.
End ImagePublish.

(** Package [github.com/containerd/platforms]. *)
Class Platforms : Type := {
  Platform_ : Type;
  platforms_Parse : string -> result Platform_;
  platforms_Format : Platform_ -> string
}.

Section publish.
Context `{LLB} `{Platforms}.
Abbreviation pub := ImagePublish.t.

(** ** Grouping *)

Record publishGroup : Type := PublishGroup {
  g_Image : string;
  g_Push : bool;
  g_Insecure : bool;
  g_ExportDocker : bool;
  Variants : list pub
}.
#[global] Instance publishGroup_settable : Settable publishGroup :=
  fun g => PublishGroup (g_Image g) (g_Push g) (g_Insecure g) (g_ExportDocker g) (Variants g).

Definition new_group (p : pub) : publishGroup :=
  PublishGroup (ImagePublish.Image p) (ImagePublish.Push p) (ImagePublish.Insecure p)
    (ImagePublish.ExportDocker p) [p].

Definition settings_differ (p : pub) (g : publishGroup) : bool :=
  negb (eqb (ImagePublish.Push p) (g_Push g) && eqb (ImagePublish.Insecure p) (g_Insecure g) &&
        eqb (ImagePublish.ExportDocker p) (g_ExportDocker g)).

(** The loop state: the index of every image's group, and the groups. *)
Definition group_step (acc : gmap string nat * list publishGroup) (p : pub)
    : result (gmap string nat * list publishGroup) :=
  let '(idx, groups) := acc in
  match idx !! ImagePublish.Image p with
  | Some i =>
      match groups !! i with
      | Some grp =>
          if settings_differ p grp
          then fail_with [ImagePublish.Image p] (RM ErrPublishSettingConflict)
          else Ok (idx, <[i := grp <| Variants ::= fun vs => vs ++ [p] |>]> groups)
      | None => Ok (idx, groups)
      end
  | None => Ok (<[ImagePublish.Image p := length groups]> idx, groups ++ [new_group p])
  end.

Definition groupPublishes (pubs : list pub) : result (list publishGroup) :=
  '(_, groups) ← foldM group_step (∅, []) pubs;
  Ok groups.

(** ** What is solved for a group *)

Inductive publish_task : Type :=
  | SolveMultiPlatform (g : publishGroup)
  | SolvePushAndLoad (g : publishGroup) (p : pub)
  | SolveExportDocker (g : publishGroup) (p : pub)
  | SolveImage (g : publishGroup) (p : pub).

Definition task_of (g : publishGroup) : option publish_task :=
  match Variants g with
  | [] => None
  | [p] =>
      Some (if ImagePublish.Push p && ImagePublish.ExportDocker p then SolvePushAndLoad g p
            else if ImagePublish.ExportDocker p then SolveExportDocker g p
            else SolveImage g p)
  | _ => Some (SolveMultiPlatform g)
  end.

Definition reject_multi_docker (u : unit) (g : publishGroup) : result unit :=
  if decide (1 < length (Variants g) /\ g_ExportDocker g = true)
  then fail_with [g_Image g] (RM ErrExportDockerMultiPlatform) else Ok tt.

(** [runPublishes] up to the errgroup: the tasks it starts. *)
Definition publish_tasks (pubs : list pub) : result (list publish_task) :=
  if decide (length pubs = 0) then Ok [] else
  groups ← map_err (errorf []) (groupPublishes pubs);
  foldM reject_multi_docker tt groups;;
  Ok (omap task_of groups).

(** Exporter attributes. *)
Definition publish_attrs (image : string) (push insecure : bool) : gmap string string :=
  let m := {["name" := image]} in
  let m := if push then <["push" := "true"]> m else m in
  if insecure then <["registry.insecure" := "true"]> m else m.

(** ** Multi-platform manifests *)

Definition variant_step (seen : gmap string string) (v : pub) : result (gmap string string) :=
  match ImagePublish.Definition' v with
  | None => fail_with [ImagePublish.JobName v; ImagePublish.Platform v] (RM ErrNilDefinition)
  | Some _ =>
      plat ← map_err (errorf [ImagePublish.Platform v; ImagePublish.JobName v])
               (platforms_Parse (ImagePublish.Platform v));
      let pid := platforms_Format plat in
      match seen !! pid with
      | Some prev => fail_with [pid; prev; ImagePublish.JobName v] (RM ErrDuplicatePlatform)
      | None => Ok (<[pid := ImagePublish.JobName v]> seen)
      end
  end.

Definition validateVariants (variants : list pub) : result unit :=
  foldM variant_step ∅ variants;; Ok tt.

(** The result the build function assembles: references by platform id, and the platform
    list that is marshalled as metadata. *)
Definition assemble_step {Ref} (solve : Definition_ -> result Ref)
    (acc : gmap string Ref * list (string * Platform_)) (v : pub)
    : result (gmap string Ref * list (string * Platform_)) :=
  plat ← map_err (errorf [ImagePublish.Platform v; ImagePublish.JobName v])
           (platforms_Parse (ImagePublish.Platform v));
  match ImagePublish.Definition' v with
  | None => fail_with [] (RM ErrNilDefinition)
  | Some def =>
      ref ← map_err (errorf [ImagePublish.JobName v; ImagePublish.Platform v]) (solve def);
      Ok (<[platforms_Format plat := ref]> acc.1, acc.2 ++ [(platforms_Format plat, plat)])
  end.

Definition multiPlatformBuildFunc {Ref} (solve : Definition_ -> result Ref) (variants : list pub)
    : result (gmap string Ref * list (string * Platform_)) :=
  validateVariants variants;;
  foldM (assemble_step solve) (∅, []) variants.

(** ** Grouping, declaratively *)

Definition same_settings (p q : pub) : Prop :=
  ImagePublish.Push p = ImagePublish.Push q /\ ImagePublish.Insecure p = ImagePublish.Insecure q /\
  ImagePublish.ExportDocker p = ImagePublish.ExportDocker q.

Definition consistent (pubs : list pub) : Prop :=
  forall p q, p ∈ pubs -> q ∈ pubs -> ImagePublish.Image p = ImagePublish.Image q -> same_settings p q.

(** The images in the order they first appear. *)
Definition images (pubs : list pub) : list string := uniq (ImagePublish.Image <$> pubs).

(** The group of an image: the settings of its first variant and all its variants in order. *)
Definition group_of (pubs : list pub) (image : string) : option publishGroup :=
  match filter (fun p => ImagePublish.Image p = image) pubs with
  | [] => None
  | (p :: _) as vs => Some (new_group p <| Variants := vs |>)
  end.

Lemma settings_differ_false p g q :
  g_Push g = ImagePublish.Push q -> g_Insecure g = ImagePublish.Insecure q ->
  g_ExportDocker g = ImagePublish.ExportDocker q ->
  settings_differ p g = false <-> same_settings p q.
Proof.
  intros H1 H2 H3. unfold settings_differ, same_settings. rewrite H1, H2, H3.
  rewrite negb_false_iff, !andb_true_iff, !eqb_true_iff. tauto.
Qed.

Lemma images_snoc pubs p :
  images (pubs ++ [p]) =
    if decide (ImagePublish.Image p ∈ images pubs) then images pubs
    else images pubs ++ [ImagePublish.Image p].
Proof.
  unfold images. rewrite fmap_app. cbn. rewrite uniq_snoc.
  destruct (decide (ImagePublish.Image p ∈ ImagePublish.Image <$> pubs)) as [Hi|Hi];
    [rewrite decide_True by (by apply elem_of_uniq)|rewrite decide_False by (by rewrite elem_of_uniq)]; done.
Qed.

Lemma group_of_snoc_ne pubs p image :
  image <> ImagePublish.Image p -> group_of (pubs ++ [p]) image = group_of pubs image.
Proof. intros Hne. unfold group_of. rewrite filter_snoc, decide_False by done. done. Qed.

Lemma group_of_snoc_eq pubs p g :
  group_of pubs (ImagePublish.Image p) = Some g ->
  group_of (pubs ++ [p]) (ImagePublish.Image p) = Some (g <| Variants ::= fun vs => vs ++ [p] |>).
Proof.
  unfold group_of. rewrite filter_snoc, decide_True by done.
  destruct (filter _ pubs) as [|q vs]; [done|]. by intros [= <-].
Qed.

Lemma group_of_Some pubs image g :
  group_of pubs image = Some g ->
  exists q, q ∈ pubs /\ ImagePublish.Image q = image /\ g_Image g = image /\ g_Push g = ImagePublish.Push q /\
    g_Insecure g = ImagePublish.Insecure q /\ g_ExportDocker g = ImagePublish.ExportDocker q /\
    Variants g = filter (fun p => ImagePublish.Image p = image) pubs.
Proof.
  unfold group_of. destruct (filter _ pubs) as [|q vs] eqn:Hf; [done|]. intros [= <-].
  assert (q ∈ filter (fun p => ImagePublish.Image p = image) pubs) as [Hq Hin]%list_elem_of_filter
    by (rewrite Hf; by left). exists q. done.
Qed.

Lemma group_of_None pubs image :
  image ∉ images pubs -> group_of pubs image = None.
Proof.
  unfold images, group_of. rewrite elem_of_uniq. intros Hi.
  destruct (filter _ pubs) as [|q vs] eqn:Hf; [done|].
  assert (q ∈ filter (fun p => ImagePublish.Image p = image) pubs) as [Hq Hin]%list_elem_of_filter
    by (rewrite Hf; by left).
  destruct Hi. rewrite <- Hq. by apply list_elem_of_fmap_2.
Qed.

(** The loop invariant. *)
Definition groups_inv (pubs : list pub) (acc : gmap string nat * list publishGroup) : Prop :=
  consistent pubs /\
  (forall image i, acc.1 !! image = Some i <-> images pubs !! i = Some image) /\
  Forall2 (fun image g => group_of pubs image = Some g) (images pubs) acc.2.

Lemma consistent_snoc pubs p :
  consistent (pubs ++ [p]) <->
  consistent pubs /\
  (forall q, q ∈ pubs -> ImagePublish.Image p = ImagePublish.Image q -> same_settings p q).
Proof.
  unfold consistent. split.
  - intros Hc. split; intros; apply Hc; set_solver.
  - intros [Hc Hp] q r [Hq|Hq%list_elem_of_singleton]%elem_of_app [Hr|Hr%list_elem_of_singleton]%elem_of_app Heq;
      subst; [by apply Hc| |by apply Hp|done].
    destruct (Hp q Hq (eq_sym Heq)) as (? & ? & ?). done.
Qed.

Lemma groups_found pubs acc p i :
  groups_inv pubs acc -> acc.1 !! ImagePublish.Image p = Some i ->
  exists g, acc.2 !! i = Some g /\ images pubs !! i = Some (ImagePublish.Image p) /\
    group_of pubs (ImagePublish.Image p) = Some g /\
    (settings_differ p g = false <-> consistent (pubs ++ [p])).
Proof.
  intros (Hc & Hidx & Hg) Hi. apply Hidx in Hi.
  destruct (Forall2_lookup_l _ _ _ _ _ Hg Hi) as (g & Hgi & Hgo).
  exists g. split_and!; [done|done|done|].
  destruct (group_of_Some _ _ _ Hgo) as (q & Hq & Hqi & _ & H1 & H2 & H3 & _).
  rewrite (settings_differ_false p g q), consistent_snoc by done. split.
  - intros (E1 & E2 & E3). split; [done|]. intros r Hr Heq.
    destruct (Hc q r Hq Hr) as (? & ? & ?); [congruence|]. unfold same_settings. split_and!; congruence.
  - intros [_ Hp]. apply Hp; [done|]. congruence.
Qed.

Lemma group_step_inv pubs acc p acc' :
  groups_inv pubs acc -> group_step acc p = Ok acc' -> groups_inv (pubs ++ [p]) acc'.
Proof.
  intros HI Hs. destruct acc as [idx groups]. cbn in Hs.
  destruct (idx !! ImagePublish.Image p) as [i|] eqn:Hi.
  - destruct (groups_found _ _ _ _ HI Hi) as (g & Hgi & Him & Hgo & Hdiff). cbn in Hgi. rewrite Hgi in Hs.
    destruct (settings_differ p g) eqn:Hd; [done|]. injection Hs as <-.
    destruct HI as (Hc & Hidx & Hg). split; [by apply Hdiff|]. cbn [fst snd] in *.
    assert (images (pubs ++ [p]) = images pubs) as Heq.
    { rewrite images_snoc, decide_True; [done|]. by eapply list_elem_of_lookup_2. }
    split; rewrite Heq; [done|].
    apply Forall2_same_length_lookup. split; [rewrite length_insert; by eapply Forall2_length|].
    intros k image g' Hk Hg'. destruct (decide (k = i)) as [->|Hne].
    + rewrite Him in Hk. injection Hk as <-.
      rewrite list_lookup_insert_eq in Hg' by (by eapply lookup_lt_Some). injection Hg' as <-.
      by apply group_of_snoc_eq.
    + rewrite list_lookup_insert_ne in Hg' by done. rewrite group_of_snoc_ne.
      * exact (Forall2_lookup_lr _ _ _ _ _ _ Hg Hk Hg').
      * intros ->. apply Hne. eapply (NoDup_lookup (images pubs)); [unfold images; apply NoDup_uniq|exact Hk|exact Him].
  - injection Hs as <-. destruct HI as (Hc & Hidx & Hg). cbn [fst snd] in *.
    assert (ImagePublish.Image p ∉ images pubs) as Hni.
    { intros [i Hin]%list_elem_of_lookup. apply Hidx in Hin. congruence. }
    pose proof (images_snoc pubs p) as Heq. rewrite decide_False in Heq by done. split_and!; rewrite ?Heq.
    + apply consistent_snoc. split; [done|]. intros q Hq Hqi. destruct Hni. rewrite Hqi.
      unfold images. apply elem_of_uniq. by apply list_elem_of_fmap_2.
    + pose proof (Forall2_length _ _ _ Hg) as Hlen. cbn [fst]. intros image k. destruct (decide (image = ImagePublish.Image p)) as [->|Hne].
      * rewrite lookup_insert_eq, <- Hlen. split; [intros [= <-]; by apply lookup_snoc_Some; right|].
        intros [[_ Hk]|[-> _]]%lookup_snoc_Some; [|done]. destruct Hni. by eapply list_elem_of_lookup_2.
      * rewrite lookup_insert_ne by done. rewrite Hidx, lookup_snoc_Some. split; [|intros [[? ?]|[_ ?]]; congruence].
        intros Hk. left. split; [by eapply lookup_lt_Some|done].
    + apply Forall2_app; cbn [snd].
      * eapply Forall2_impl; [exact Hg|]. intros image g Hgo.
        destruct (decide (image = ImagePublish.Image p)) as [->|?]; [by rewrite group_of_None in Hgo|].
        by rewrite group_of_snoc_ne.
      * constructor; [|constructor]. unfold group_of. rewrite filter_snoc, decide_True by done.
        pose proof (group_of_None _ _ Hni) as Hn. unfold group_of in Hn. by destruct (filter _ pubs).
Qed.

Lemma group_loop_inv pubs acc : foldM group_step (∅, []) pubs = Ok acc -> groups_inv pubs acc.
Proof.
  apply (foldM_inv groups_inv).
  - split; [by intros p q Hp%elem_of_nil|]. split; [|constructor]. intros image i. cbn. done.
  - intros pre b p b' _. apply group_step_inv.
Qed.

Lemma group_loop_total pubs :
  consistent pubs -> exists acc, foldM group_step (∅, []) pubs = Ok acc.
Proof.
  induction pubs as [|p pubs IH] using rev_ind; [by eexists|]. intros Hc.
  destruct IH as [acc Ha]; [by apply consistent_snoc in Hc as [? _]|].
  rewrite foldM_app, Ha. cbn [foldM mbind res_bind]. pose proof (group_loop_inv _ _ Ha) as HI.
  destruct acc as [idx groups]. unfold group_step.
  destruct (idx !! ImagePublish.Image p) as [i|] eqn:Hi; [|by eexists].
  destruct (groups_found _ _ _ _ HI Hi) as (g & Hgi & _ & _ & Hd). cbn in Hgi. rewrite Hgi.
  rewrite (proj2 Hd Hc). by eexists.
Qed.

Lemma group_of_unique pubs l groups groups' :
  Forall2 (fun image g => group_of pubs image = Some g) l groups ->
  Forall2 (fun image g => group_of pubs image = Some g) l groups' -> groups = groups'.
Proof.
  intros H1. revert groups'. induction H1 as [|image g l groups Hg _ IH]; intros groups';
    [by intros ->%Forall2_nil_inv_l|].
  intros (g' & k & Hg' & Hk & ->)%Forall2_cons_inv_l. f_equal; [congruence|by apply IH].
Qed.

Lemma groupPublishes_Ok pubs groups :
  groupPublishes pubs = Ok groups <->
  consistent pubs /\ Forall2 (fun image g => group_of pubs image = Some g) (images pubs) groups.
Proof.
  unfold groupPublishes. rewrite bind_Ok. split.
  - intros ([idx gs] & (Hc & _ & Hg)%group_loop_inv & [= <-]). done.
  - intros [Hc Hg]. destruct (group_loop_total _ Hc) as [[idx gs] Ha]. exists (idx, gs). split; [done|].
    apply group_loop_inv in Ha as (_ & _ & Hgs). f_equal. by eapply group_of_unique.
Qed.

(** ** Platforms *)

Definition platform_id (v : pub) : option string :=
  match platforms_Parse (ImagePublish.Platform v) with
  | Ok plat => Some (platforms_Format plat)
  | Fail _ => None
  end.

Lemma variant_loop seen vs seen' :
  foldM variant_step seen vs = Ok seen' ->
  exists ids, Forall2 (fun v id => platform_id v = Some id) vs ids /\ NoDup ids /\
    (forall id, id ∈ ids -> seen !! id = None).
Proof.
  revert seen. induction vs as [|v vs IH]; intros seen; cbn [foldM].
  - intros _. exists []. split_and!; [constructor|constructor|]. by intros id ?%elem_of_nil.
  - intros (s1 & H1 & (ids & Hids & Hnd & Hfree)%IH)%bind_Ok. unfold variant_step in H1.
    destruct (ImagePublish.Definition' v); [|done]. apply bind_Ok in H1 as (plat & Hp & H1). inv_ok.
    destruct (seen !! platforms_Format plat) eqn:Hs; [done|]. injection H1 as <-.
    exists (platforms_Format plat :: ids). split_and!.
    + constructor; [|done]. unfold platform_id. by rewrite Hp.
    + constructor; [|done]. intros Hin%Hfree. by rewrite lookup_insert_eq in Hin.
    + intros id [->|Hin%Hfree]%elem_of_cons; [done|]. by apply lookup_insert_None in Hin as [? _].
Qed.

Lemma assemble_loop {Ref} (solve : Definition_ -> result Ref) vs ids acc acc' :
  Forall2 (fun v id => platform_id v = Some id) vs ids -> NoDup (acc.2.*1 ++ ids) ->
  foldM (assemble_step solve) acc vs = Ok acc' ->
  exists new, acc'.2 = acc.2 ++ new /\ new.*1 = ids /\
    (forall id, id ∉ ids -> acc'.1 !! id = acc.1 !! id) /\
    Forall2 (fun v '(id, plat) => exists def ref, ImagePublish.Definition' v = Some def /\
      platforms_Parse (ImagePublish.Platform v) = Ok plat /\ id = platforms_Format plat /\
      solve def = Ok ref /\ acc'.1 !! id = Some ref) vs new.
Proof.
  revert ids acc. induction vs as [|v vs IH]; intros ids acc; cbn [foldM].
  - intros ->%Forall2_nil_inv_l _ [= ->]. exists []. rewrite app_nil_r. done.
  - intros (id & ids' & Hid & Hids & ->)%Forall2_cons_inv_l Hnd (a1 & H1 & H2)%bind_Ok.
    unfold assemble_step in H1. apply bind_Ok in H1 as (plat & Hp & H1). inv_ok.
    destruct (ImagePublish.Definition' v) as [def|] eqn:Hdef; [|done].
    apply bind_Ok in H1 as (ref & Hr & H1). inv_ok.
    unfold platform_id in Hid. rewrite Hp in Hid. injection Hid as <-.
    apply (IH ids') in H2 as (new & Hnew & Hids' & Hkeep & Hall); [|done|].
    + cbn [fst snd] in *. exists ((platforms_Format plat, plat) :: new). rewrite Hnew, <- app_assoc.
      apply NoDup_app in Hnd as (_ & _ & [Hni _]%NoDup_cons). split_and!; [done|cbn; by rewrite Hids'| |].
      * intros id Hn. rewrite Hkeep by set_solver. rewrite lookup_insert_ne by set_solver. done.
      * constructor; [|done]. exists def, ref. rewrite Hkeep by done. by rewrite lookup_insert_eq.
    + cbn [fst snd]. rewrite fmap_app, <- app_assoc. done.
Qed.

(** ** Properties *)

(** C27: [groupPublishes] succeeds exactly when publishes of the same image agree on their
    settings, and then returns one group per image, in the order the images first appear,
    with the settings of the image and all its variants in their original order; its only
    error is the settings conflict. *)
Theorem groupPublishes_spec pubs :
  (forall groups, groupPublishes pubs = Ok groups <->
     consistent pubs /\ Forall2 (fun image g => group_of pubs image = Some g) (images pubs) groups) /\
  (forall e, groupPublishes pubs = Fail e ->
     Is e (RM ErrPublishSettingConflict) = true /\ ~ consistent pubs).
Proof.
  split; [intros groups; apply groupPublishes_Ok|]. intros e He. split.
  - unfold groupPublishes in He. apply bind_Fail in He as [He|([? ?] & _ & [=])].
    apply foldM_Fail in He as (l1 & p & l2 & [idx gs] & _ & _ & Hp). unfold group_step in Hp.
    destruct (idx !! ImagePublish.Image p) as [i|]; [|done]. destruct (gs !! i) as [g|]; [|done].
    destruct (settings_differ p g); [|done]. by eapply fail_with_Is.
  - intros Hc. destruct (group_loop_total _ Hc) as [[idx gs] Ha]. unfold groupPublishes in He.
    by rewrite Ha in He.
Qed.

(** A multi-platform build that succeeds has one reference per variant: the platform
    ids are distinct, so no variant overwrites another one's reference, and each id maps to
    the solution of its own variant's definition. *)
Theorem multiPlatform_refs {Ref} (solve : Definition_ -> result Ref) variants refs plats
  (Hok : multiPlatformBuildFunc solve variants = Ok (refs, plats)) :
  NoDup plats.*1 /\
  Forall2 (fun v '(id, plat) => exists def ref, ImagePublish.Definition' v = Some def /\
    platforms_Parse (ImagePublish.Platform v) = Ok plat /\ id = platforms_Format plat /\
    solve def = Ok ref /\ refs !! id = Some ref) variants plats.
Proof.
  unfold multiPlatformBuildFunc in Hok. apply seq_Ok in Hok as [Hv Ha].
  unfold validateVariants in Hv. apply bind_Ok in Hv as (seen & Hv & _).
  destruct (variant_loop _ _ _ Hv) as (ids & Hids & Hnd & _).
  destruct (assemble_loop solve variants ids (∅, []) _ Hids Hnd Ha) as (new & Hnew & <- & _ & Hall). cbn in Hnew. by subst.
Qed.
End publish.

(** ** The rest of Run *)

Section run.
Context `{LLB} `{Platforms} {GwResult Ref : Type}.

(** [errors.Join] of errors that may be nil. *)
Definition join3 (a b c : option error) : option error := errors_Join (option_list a ++ option_list b ++ option_list c).

(** [Run] once the group has finished: a fail-fast failure returns at once; otherwise the
    exports and publishes of successful jobs are handed on and all errors are joined. *)
Definition finish_run (cfg : config) (st : run_state) (Exports : list RunExport.t)
    (ImagePublishes : list ImagePublish.t) (runExports : list RunExport.t -> option error)
    (runPublishes : list ImagePublish.t -> option error) : option error :=
  let nodes := node_of <$> threads st in
  let jobErr := job_err cfg st in
  if FailFast cfg && negb (bool_decide (jobErr = None)) then jobErr else
  let exports := filterSuccessful Exports nodes RunExport.JobName in
  let imagePublishes := filterSuccessful ImagePublishes nodes ImagePublish.JobName in
  join3 jobErr (runExports exports) (runPublishes imagePublishes).

(** The checks of [Run] before anything starts; [None] is the early nil return. *)
Definition start_run (has_solver has_sender has_runtime : bool) (ImagePublishes : list ImagePublish.t)
    (range : gmap string dagNode -> list string) (jobs : list RunJob.t) : result (option (gmap string dagNode)) :=
  if negb has_solver then Fail (raise (RM ErrNilSolver)) else
  if negb has_sender then Fail (raise (RM ErrNilSender)) else
  if negb has_runtime && existsb ImagePublish.ExportDocker ImagePublishes
  then Fail (raise (RM ErrNilRuntime)) else
  if decide (length jobs = 0) then Ok None else
  nodes ← buildDAG range jobs; Ok (Some nodes).

(** What may be exported or published under the name of a job: the name belongs to no job
    of the run, or an event of the schedule solved the job, without an error and after all
    its dependencies had succeeded, and its goroutine has returned with that solution. *)
Definition delivered (jobs : list RunJob.t) (evs : list (event (GwResult := GwResult) (Ref := Ref)))
    (st : run_state) (name : string) : Prop :=
  name ∉ RunJob.Name <$> jobs \/
  exists j (w : job_world), j ∈ jobs /\ RunJob.Name j = name /\ solved_in evs name w /\
    threads st !! name = Some (Thread j (Returned (run_acquired w j))) /\ x_err (run_acquired w j) = None /\
    Forall (ok_dep (node_of <$> threads st)) (RunJob.DependsOn j).

Lemma publishable_delivered cfg Parallelism range jobs nodes (evs : list (event (GwResult := GwResult) (Ref := Ref))) st name :
  ranges range -> buildDAG range jobs = Ok nodes ->
  steps cfg evs (start Parallelism jobs nodes) = Some st -> finished st ->
  publishable (node_of <$> threads st) name = true <-> delivered jobs evs st name.
Proof.
  intros Hrange Hdag Hrun Hfin. pose proof (reach_inv cfg _ range jobs nodes Hrange Hdag _ evs st (evs_solved evs) Hrun) as Hinv.
  pose proof (dag_schedulable range jobs nodes Hrange Hdag) as [Hs _].
  unfold publishable. rewrite lookup_fmap. destruct (threads st !! name) as [[j p]|] eqn:Ht; cbn.
  - destruct (thread_job _ _ _ _ _ Hs Hinv _ _ Ht) as [Hj Hname]. cbn in Hj, Hname. split.
    + intros Hok. right. specialize (Hfin _ _ Ht). destruct (inv_threads _ _ _ _ _ Hinv _ _ Ht) as [_ Hpc].
      cbn in *. destruct p as [| | | |x]; try done. unfold succeeded in Hok. cbn in Hok.
      apply andb_true_iff in Hok as [He%bool_decide_eq_true Hsk%negb_true_iff].
      destruct (explained_success _ _ _ _ _ _ Hpc He Hsk) as [Hb (w & Hw & ->)].
      apply before_slot_free in Hb as [Hb _]. by exists j, w.
    + intros [Hn|(j' & w & _ & _ & _ & Hx & He & _)].
      * destruct Hn. rewrite <- Hname. by apply list_elem_of_fmap_2.
      * rewrite Ht in Hx. injection Hx as -> ->. unfold succeeded. cbn.
        by rewrite He, (proj2 (run_acquired_coherent w j')).
  - split; [|done]. intros _. left. intros Hin. by destruct (thread_exists _ _ _ _ _ Hinv _ Hin) as [t ?]; simplify_eq.
Qed.

(** C24: exports and publishes are handed on exactly for what was solved.  At the end of any
    schedule of a run, whatever the exporters answer, [Run] returns the error of a fail-fast
    run at once, or it hands over, in their order, those exports and those image publishes
    whose job name is no job of the run or is a job that an event of the schedule solved
    without an error after all its dependencies had succeeded - none of a job that failed,
    was skipped or was never solved, and none of a solved job is forgotten - and joins
    what they return to the error of the jobs. *)
Theorem exports_safe cfg Parallelism range jobs nodes
  (evs : list (event (GwResult := GwResult) (Ref := Ref))) st (exports : list RunExport.t) (publishes : list ImagePublish.t)
  (Hrange : ranges range) (Hdag : buildDAG range jobs = Ok nodes)
  (Hrun : steps cfg evs (start Parallelism jobs nodes) = Some st) (Hfin : finished st) :
  exists es ps,
    (forall runExports runPublishes, finish_run cfg st exports publishes runExports runPublishes =
       if FailFast cfg && negb (bool_decide (job_err cfg st = None)) then job_err cfg st
       else join3 (job_err cfg st) (runExports es) (runPublishes ps)) /\
    es `sublist_of` exports /\ ps `sublist_of` publishes /\
    (forall e, e ∈ es <-> e ∈ exports /\ delivered jobs evs st (RunExport.JobName e)) /\
    (forall p, p ∈ ps <-> p ∈ publishes /\ delivered jobs evs st (ImagePublish.JobName p)).
Proof.
  exists (filterSuccessful exports (node_of <$> threads st) RunExport.JobName),
    (filterSuccessful publishes (node_of <$> threads st) ImagePublish.JobName).
  split; [done|]. unfold filterSuccessful. do 2 (split; [apply sublist_filter|]).
  split; intros x; rewrite list_elem_of_filter; rewrite (publishable_delivered cfg Parallelism range jobs nodes evs st) by done; tauto.
Qed.
End run.

(** ** Witnesses *)

#[local] Instance ex_platforms : Platforms :=
  {| Platform_ := string; platforms_Parse := fun s => Ok s; platforms_Format := fun p => p |}.
#[local] Existing Instance Sched.ex_llb.

Definition ex_publish (j platform : string) : ImagePublish.t :=
  ImagePublish.mk (Some tt) j "img" true false false platform.

Lemma multiPlatform_refs_witness :
  exists refs plats,
    multiPlatformBuildFunc (fun _ => Ok 7) [ex_publish "a" "linux/amd64"; ex_publish "b" "linux/arm64"] =
      Ok (refs, plats) /\ NoDup plats.*1.
Proof.
  eexists _, _. split; [vm_compute; reflexivity|].
  refine (proj1 (multiPlatform_refs (fun _ => Ok 7)
    [ex_publish "a" "linux/amd64"; ex_publish "b" "linux/arm64"] _ _ _)).
  vm_compute. reflexivity.
Defined.

Definition ex_exports : list RunExport.t :=
  (fun name => RunExport.mk (Some tt) name "out" false) <$> ["a"; "b"; "c"; "d"; "e"; "z"].

(** Only [a] succeeded, and [z] is not a job of the run. *)
Lemma exports_safe_witness :
  RunExport.JobName <$> filterSuccessful ex_exports (node_of <$> threads ex_final) RunExport.JobName = ["a"; "z"] /\
  exists es ps : list _,
    (forall runExports runPublishes, finish_run ex_config ex_final ex_exports [ex_publish "c" ""; ex_publish "a" ""] runExports runPublishes =
       join3 (job_err ex_config ex_final) (runExports es) (runPublishes ps)) /\
    (forall e, e ∈ es <-> e ∈ ex_exports /\ delivered ex_jobs ex_schedule ex_final (RunExport.JobName e)).
Proof.
  split; [vm_compute; reflexivity|].
  refine (match exports_safe ex_config 1 ex_range ex_jobs (initial_nodes ex_jobs) ex_schedule ex_final
    ex_exports [ex_publish "c" ""; ex_publish "a" ""] ex_ranges _ _ _ with
    ex_intro _ es (ex_intro _ ps (conj H1 (conj _ (conj _ (conj H2 _))))) => ex_intro _ es (ex_intro _ ps (conj H1 H2)) end);
    [vm_compute; reflexivity..|].
  apply (bool_decide_unpack _). vm_compute. exact I.
Defined.
