(* ===== verification/Redact.v ===== *)
(** * Secret redaction (runner/redact.go; runner/status.go: the tee stage order)

    Every status update of a solve passes through [redactStatus] before anything else sees
    it.  Byte slices and strings are both byte sequences here. *)

From stdpp Require Import sorting.
From S2P Require Import Prelude Errors GoStrings Regex Conditional Model Progress.

Definition redactMask : string := "***".

(** Longest first.  [slices.SortFunc] is not stable and the map is iterated in any order, so
    nothing may depend on the order of secrets of the same length. *)
Definition longer (a b : string) : Prop := String.length b <= String.length a.

#[export] Instance longer_dec a b : Decision (longer a b).
Proof. unfold longer. apply _. Defined.

(** [values] are the secret values in the order the map is iterated. *)
Definition sortedSecretValues (values : list string) : list string :=
  merge_sort longer (filter (fun v => v <> "") values).

Definition redactString (s : string) (secrets : list string) : string :=
  foldl (fun s v => ReplaceAll s v redactMask) s secrets.

Definition redactBytes : string -> list string -> string := redactString.

(** ** Status updates *)

(** The slices of the status are updated in place. *)
Definition redactStatus (status : SolveStatus.t) (secrets : list string) : SolveStatus.t :=
  if decide (length secrets = 0) then status else
  let sorted := sortedSecretValues secrets in
  SolveStatus.mk
    ((fun v => if decide (Vertex.Error v = "") then v
               else v <| Vertex.Error ::= fun e => redactString e sorted |>) <$> SolveStatus.Vertexes status)
    ((fun l => l <| VertexLog.Data ::= fun d => redactBytes d sorted |>) <$> SolveStatus.Logs status)
    ((fun w => VertexWarning.mk (redactBytes (VertexWarning.Short w) sorted)
                 ((fun d => redactBytes d sorted) <$> VertexWarning.Detail w)) <$> SolveStatus.Warnings status).

(** [teeStatus] on one update from the source: the collector, the observer and the display
    all receive the redacted status; nil updates are dropped. *)
Definition tee_step (collector observer : bool) (secrets : list string) (status : option SolveStatus.t)
    : list (string * SolveStatus.t) :=
  if decide (collector = false /\ length secrets = 0 /\ observer = false)
  then match status with Some s => [("display", s)] | None => [] end
  else match status with
       | None => []
       | Some s =>
           let s := redactStatus s secrets in
           (if collector then [("collector", s)] else []) ++ [("observer", s); ("display", s)]
       end.

(** ** Occurrences *)

Definition contains (s v : string) : Prop := exists a b, s = a +:+ v +:+ b.

Lemma contains_cons c s v : contains (String c s) v <-> HasPrefix (String c s) v = true \/ contains s v.
Proof.
  split.
  - intros ([|a a'] & b & Heq).
    + left. apply HasPrefix_spec. exists b. exact Heq.
    + rewrite append_cons in Heq. injection Heq as -> ->. right. by exists a', b.
  - intros [[t Ht]%HasPrefix_spec|(a & b & ->)].
    + exists "", t. by rewrite append_nil_l.
    + exists (String c a), b. by rewrite append_cons.
Qed.

Lemma contains_app s t v : contains t v -> contains (s +:+ t) v.
Proof. intros (a & b & ->). exists (s +:+ a), b. by rewrite append_assoc. Qed.

Lemma contains_nil v : contains "" v -> v = "".
Proof. intros ([|] & b & Heq); [|done]. rewrite append_nil_l in Heq. by destruct v. Qed.

(** A secret that the mask cannot be part of. *)
Definition maskable (v : string) : Prop := v <> "" /\ lacks "*" v.

Lemma mask_prefix t v : maskable v -> HasPrefix (redactMask +:+ t) v = false.
Proof.
  intros [Hne Hl]. destruct v as [|c v]; [done|]. apply lacks_cons in Hl as [Hc _].
  unfold redactMask. rewrite append_cons. by apply HasPrefix_head_ne.
Qed.

Lemma mask_contains t v : maskable v -> contains (redactMask +:+ t) v -> contains t v.
Proof.
  intros Hv. pose proof Hv as [Hne Hl]. destruct v as [|c v]; [done|]. apply lacks_cons in Hl as [Hc _].
  unfold redactMask. rewrite !append_cons, append_nil_l.
  intros [Hp|[Hp|[Hp|Ht]%contains_cons]%contains_cons]%contains_cons; [..|done];
    by rewrite HasPrefix_head_ne in Hp.
Qed.

(** ** One replacement *)

(** The equations of [ReplaceAll] as an induction principle. *)
Lemma ReplaceAll_ind w (P : string -> string -> Prop) :
  w <> "" ->
  P "" "" ->
  (forall t r, P t r -> P (w +:+ t) (redactMask +:+ r)) ->
  (forall c t r, HasPrefix (String c t) w = false -> P t r -> P (String c t) (String c r)) ->
  forall s, P s (ReplaceAll s w redactMask).
Proof.
  intros Hw H0 Hm Hs. assert (nonempty_olds [(w, redactMask)]) as Hne by (by constructor).
  assert (forall n s, String.length s <= n -> P s (ReplaceAll s w redactMask)) as Hall;
    [|intros s; by apply (Hall (String.length s))].
  induction n as [|n IH]; intros s Hlen.
  - destruct s; [|cbn in Hlen; lia]. unfold ReplaceAll. by rewrite Replace_nil.
  - destruct (HasPrefix s w) eqn:Hp.
    + pose proof Hp as [t ->]%HasPrefix_spec. unfold ReplaceAll. rewrite (Replace_match _ _ redactMask); [|done|].
      * apply Hm, IH. rewrite length_append in Hlen. destruct w; [done|]. cbn in Hlen. lia.
      * unfold first_match. cbn. by rewrite decide_True.
    + destruct s as [|c s]; [unfold ReplaceAll; by rewrite Replace_nil|].
      unfold ReplaceAll. rewrite Replace_skip; [|done|].
      * apply Hs; [done|]. apply IH. cbn in Hlen. lia.
      * apply first_match_None. by constructor.
Qed.

(** What survives a replacement was there before. *)
Definition no_new (s r : string) : Prop :=
  (forall v, maskable v -> HasPrefix r v = true -> HasPrefix s v = true) /\
  (forall v, maskable v -> contains r v -> contains s v).

Lemma no_new_skip c t r : no_new t r -> no_new (String c t) (String c r).
Proof.
  intros [Hp Hc].
  assert (forall v, maskable v -> HasPrefix (String c r) v = true -> HasPrefix (String c t) v = true) as Hp'.
  { intros [|a v] [Hne Hl]; [done|]. apply lacks_cons in Hl as [_ Hl]. unfold HasPrefix in *. cbn.
    destruct (ascii_dec a c); [|done]. intros Hr. destruct v as [|b v]; [by destruct t|]. apply Hp; [by split|done]. }
  split; [done|]. intros v Hv [Hr|Hr]%contains_cons; apply contains_cons; auto.
Qed.

Lemma ReplaceAll_no_new w s : w <> "" -> no_new s (ReplaceAll s w redactMask).
Proof.
  intros Hw. apply (ReplaceAll_ind w no_new); [done|by split| |].
  - intros t r [_ Hc]. split.
    + intros v Hv Hp. by rewrite mask_prefix in Hp.
    + intros v Hv Hm%mask_contains; [|done]. by apply contains_app, Hc.
  - intros c t r _. apply no_new_skip.
Qed.

Lemma ReplaceAll_removes w s : maskable w -> ~ contains (ReplaceAll s w redactMask) w.
Proof.
  intros Hw. apply (ReplaceAll_ind w (fun s r => no_new s r /\ ~ contains r w)); [by apply Hw|..].
  - split; [by split|]. intros Hc%contains_nil. by destruct Hw.
  - intros t r [[_ Hc] Hn]. split; [|by intros Hm%mask_contains]. split.
    + intros v Hv Hp. by rewrite mask_prefix in Hp.
    + intros v Hv Hm%mask_contains; [|done]. by apply contains_app, Hc.
  - intros c t r Hp [Hnew Hn]. split; [by apply no_new_skip|].
    intros [Hr|Hr]%contains_cons; [|done].
    apply (proj1 (no_new_skip c t r Hnew) w Hw) in Hr. congruence.
Qed.

Lemma ReplaceAll_absent w s : w <> "" -> ~ contains s w -> ReplaceAll s w redactMask = s.
Proof.
  intros Hw. apply (ReplaceAll_ind w (fun s r => ~ contains s w -> r = s)); [done|done| |].
  - intros t r _ Hn. destruct Hn. exists "", t. by rewrite append_nil_l.
  - intros c t r _ IH Hn. f_equal. apply IH. intros Hc. apply Hn, contains_cons. by right.
Qed.

(** ** All secrets *)

Lemma redactString_app s l k : redactString s (l ++ k) = redactString (redactString s l) k.
Proof. apply foldl_app. Qed.

Lemma redactString_cons s w l : redactString s (w :: l) = redactString (ReplaceAll s w redactMask) l.
Proof. done. Qed.

Lemma redactString_no_new l s v :
  Forall (fun w => w <> "") l -> maskable v -> contains (redactString s l) v -> contains s v.
Proof.
  intros Hl Hv. revert s. induction Hl as [|w l Hw _ IH]; intros s; [done|].
  rewrite redactString_cons. intros Hc%IH. by apply (proj2 (ReplaceAll_no_new w s Hw) v Hv).
Qed.

Lemma redactString_removes l s v :
  Forall (fun w => w <> "") l -> v ∈ l -> maskable v -> ~ contains (redactString s l) v.
Proof.
  intros Hl Hin Hv. apply list_elem_of_split in Hin as (l1 & l2 & ->).
  apply Forall_app in Hl as [_ [_ Hl2]%Forall_cons].
  rewrite redactString_app, redactString_cons. intros Hc%redactString_no_new; [|done|done].
  by apply ReplaceAll_removes in Hc.
Qed.

Lemma contains_length s v : contains s v -> String.length v <= String.length s.
Proof. intros (a & b & ->). rewrite !length_append. lia. Qed.

Lemma contains_same_length s v : contains s v -> String.length s <= String.length v -> s = v.
Proof.
  intros (a & b & ->) Hlen. rewrite !length_append in Hlen.
  destruct a; [|cbn in Hlen; lia]. destruct b; [|cbn in Hlen; lia]. by rewrite append_nil_l, append_nil_r.
Qed.

Lemma mask_absent v : maskable v -> ~ contains redactMask v.
Proof.
  intros Hv Hc. rewrite <- (append_nil_r redactMask) in Hc. apply mask_contains in Hc; [|done].
  apply contains_nil in Hc. by destruct Hv.
Qed.

Lemma redact_mask l : Forall maskable l -> redactString redactMask l = redactMask.
Proof.
  induction 1 as [|w l Hw _ IH]; [done|]. rewrite redactString_cons, ReplaceAll_absent; [exact IH|apply Hw|by apply mask_absent].
Qed.

Lemma ReplaceAll_self w : w <> "" -> ReplaceAll w w redactMask = redactMask.
Proof.
  intros Hw. unfold ReplaceAll. pose proof (Replace_match [(w, redactMask)] w redactMask "") as Hm.
  rewrite append_nil_r, Replace_nil, append_nil_r in Hm by (by constructor).
  apply Hm; [by constructor|]. unfold first_match. cbn. rewrite decide_True; [done|].
  apply HasPrefix_spec. exists "". by rewrite append_nil_r.
Qed.

(** Before a secret's turn come only secrets that cannot occur in it. *)
Lemma redact_longest l v :
  StronglySorted longer l -> Forall maskable l -> v ∈ l -> redactString v l = redactMask.
Proof.
  intros Hs Hl Hin. induction Hs as [|w l Hs IH Hw]; [by apply elem_of_nil in Hin|].
  apply Forall_cons in Hl as [Hmw Hl]. rewrite redactString_cons.
  destruct (decide (w = v)) as [->|Hne].
  - rewrite ReplaceAll_self by apply Hmw. by apply redact_mask.
  - apply elem_of_cons in Hin as [->|Hin]; [done|].
    rewrite ReplaceAll_absent; [by apply IH|apply Hmw|].
    intros Hc. rewrite Forall_forall in Hw. specialize (Hw _ Hin). unfold longer in Hw.
    apply Hne. symmetry. by apply contains_same_length.
Qed.

(** ** Sorting *)

#[export] Instance longer_total : Total longer.
Proof. intros a b. unfold longer. lia. Qed.

#[export] Instance longer_trans : Transitive longer.
Proof. intros a b c. unfold longer. lia. Qed.

Lemma sorted_secrets values v : v ∈ sortedSecretValues values <-> v ∈ values /\ v <> "".
Proof.
  unfold sortedSecretValues. rewrite merge_sort_Permutation, list_elem_of_filter. tauto.
Qed.

Lemma sorted_nonempty values : Forall (fun v => v <> "") (sortedSecretValues values).
Proof. apply Forall_forall. intros v Hv. by apply sorted_secrets in Hv as [_ ?]. Qed.

Lemma sorted_longest values : StronglySorted longer (sortedSecretValues values).
Proof. apply (StronglySorted_merge_sort longer). Qed.

(** ** Properties *)

(** What the builds say: the byte sequences of a status that are redacted. *)
Definition messages (st : SolveStatus.t) : list string :=
  (Vertex.Error <$> SolveStatus.Vertexes st) ++ (VertexLog.Data <$> SolveStatus.Logs st) ++
  (SolveStatus.Warnings st ≫= fun w => VertexWarning.Short w :: VertexWarning.Detail w).

(** The names of the vertices, which are not. *)
Definition vertex_names (st : SolveStatus.t) : list string := Vertex.Name <$> SolveStatus.Vertexes st.

(** Everything of a status that a display can show. *)
Definition texts (st : SolveStatus.t) : list string := vertex_names st ++ messages st.

Lemma redactStatus_names st values : vertex_names (redactStatus st values) = vertex_names st.
Proof.
  unfold redactStatus, vertex_names. case_decide; [done|]. cbn [SolveStatus.Vertexes]. rewrite <- list_fmap_compose.
  apply list_fmap_ext. intros _ v _. cbn. by case_decide.
Qed.

Lemma redactStatus_messages st values e :
  length values <> 0 -> e ∈ messages (redactStatus st values) ->
  e = "" \/ exists s, s ∈ messages st /\ e = redactString s (sortedSecretValues values).
Proof.
  intros Hl. unfold redactStatus. rewrite decide_False by done. unfold messages. cbn [SolveStatus.Vertexes SolveStatus.Logs SolveStatus.Warnings].
  rewrite !elem_of_app. intros [He|[He|He]].
  - apply list_elem_of_fmap in He as (v & -> & (u & -> & Hu)%list_elem_of_fmap). case_decide as H0; [by left|].
    right. exists (Vertex.Error u). split; [|done]. rewrite !elem_of_app. left. by apply list_elem_of_fmap_2.
  - apply list_elem_of_fmap in He as (v & -> & (u & -> & Hu)%list_elem_of_fmap).
    right. exists (VertexLog.Data u). split; [|done]. rewrite !elem_of_app. right; left. by apply list_elem_of_fmap_2.
  - apply list_elem_of_bind in He as (w & He & (u & -> & Hu)%list_elem_of_fmap). right. cbn in He.
    apply elem_of_cons in He as [->|(d & -> & Hd)%list_elem_of_fmap]; eexists; (split; [|reflexivity]);
      rewrite !elem_of_app; right; right; apply list_elem_of_bind; exists u; (split; [|done]); set_solver.
Qed.

(** No masked secret is left in a message of a redacted update. *)
Lemma messages_clean st values v e :
  v ∈ values -> maskable v -> e ∈ messages (redactStatus st values) -> ~ contains e v.
Proof.
  intros Hv Hmask He.
  destruct (redactStatus_messages st values e) as [->|(s & _ & ->)]; [by intros ->%nil_length_inv; apply elem_of_nil in Hv|done| |].
  - intros Hc%contains_nil. by destruct Hmask.
  - apply redactString_removes; [apply sorted_nonempty| |done]. apply sorted_secrets. split; [done|apply Hmask].
Qed.

(** A secret that is left in a redacted update is in the name of a vertex, as it came. *)
Lemma texts_leak st values v e :
  v ∈ values -> maskable v -> e ∈ texts (redactStatus st values) -> contains e v -> e ∈ vertex_names st.
Proof.
  intros Hv Hmask [He|He]%elem_of_app Hc; [by rewrite redactStatus_names in He|].
  by destruct (messages_clean st values v e Hv Hmask He).
Qed.

(** No secret survives redaction in what the builds say: in no vertex error, log chunk or
    warning of a redacted status does a non-empty secret value that has no asterisk occur,
    however the secrets overlap each other and in whatever order the map yields them. *)
Theorem redactStatus_no_leak st values v e
  (Hv : v ∈ values) (Hmask : maskable v) (He : e ∈ messages (redactStatus st values)) :
  ~ contains e v.
Proof. by eapply messages_clean. Qed.

(** The longest-first order masks a whole secret even when another secret is a part of
    it: a text that is exactly one of the secrets becomes exactly the mask. *)
Theorem redact_whole values v
  (Hv : v ∈ values) (Hmask : Forall (fun w => w <> "" -> maskable w) values) (Hne : v <> "") :
  redactString v (sortedSecretValues values) = redactMask.
Proof.
  apply redact_longest; [apply sorted_longest| |by apply sorted_secrets].
  apply Forall_forall. intros w [Hw Hwn]%sorted_secrets. by eapply Forall_forall in Hmask; [apply Hmask|].
Qed.

Definition ex_secrets : list string := ["ab"; "abc"; ""; "cd"].

Lemma redactStatus_no_leak_witness :
  messages (redactStatus (SolveStatus.mk [] [VertexLog.mk "v" "x abcd ab"] []) ex_secrets) = ["x ***d ***"] /\
  ~ contains "x ***d ***" "cd".
Proof.
  split; [vm_compute; reflexivity|].
  apply (redactStatus_no_leak (SolveStatus.mk [] [VertexLog.mk "v" "x abcd ab"] []) ex_secrets "cd");
    [set_solver| |vm_compute; by left].
  split; [discriminate|]. apply (bool_decide_unpack _). vm_compute. exact I.
Defined.

Lemma redact_whole_witness : redactString "abc" (sortedSecretValues ex_secrets) = "***".
Proof.
  apply redact_whole; [set_solver| |discriminate].
  repeat constructor; try done; apply (bool_decide_unpack _); vm_compute; exact I.
Defined.

(** Redaction works chunk by chunk: a secret split over two log chunks stays readable. *)
Lemma redact_chunks :
  let st := SolveStatus.mk [] [VertexLog.mk "v" "top se"; VertexLog.mk "v" "cret"] [] in
  redactStatus st ["secret"] = st.
Proof. vm_compute. reflexivity. Qed.
