(* ===== verification/Stream.v ===== *)
(** * The status stream of a solve (runner/status.go)

    Between BuildKit's [Solve] and the display run two goroutines: [teeStatus] redacts every
    update, shows it to the collector and to the observer and forwards it, and [bridgeStatus]
    turns what it receives into messages.  All channels are unbuffered, so a send and its
    receive are one step.  When there is nothing to do for the tee, the bridge reads the
    source itself.  The step relation has one rule per move of a goroutine; both branches of
    a [select] are rules, and the context may be cancelled at any time. *)

From stdpp Require Import relations.
From S2P Require Import Prelude Errors GoStrings Regex Conditional Model Progress Redact.

(** ** The goroutines *)

(** [teeStatusInput]: whether there is a collector and an observer, and the secrets. *)
Record tee_input : Type := TeeInput { has_collector : bool; has_observer : bool; secrets : list string }.

(** [teeStatus] returns the source channel itself. *)
Definition direct (i : tee_input) : bool :=
  negb (has_collector i) && bool_decide (length (secrets i) = 0) && negb (has_observer i).

(** The tee receives, offers an update to the display, drains the source after its return
    closed the output, or has flushed the observer. *)
Inductive tee_pc : Type :=
  | TeeReceiving
  | TeeSending (s : SolveStatus.t)
  | TeeDraining
  | TeeDone.

Inductive bridge_pc : Set := BridgeForwarding | BridgeDraining | BridgeDone.
#[export] Instance bridge_pc_eq_dec : EqDecision bridge_pc.
Proof. solve_decision. Defined.

(** What the display is sent. *)
Inductive shown : Type :=
  | StatusShown (s : option SolveStatus.t)
  | DoneShown.

(** [source] holds the updates [Solve] has still to send; it then closes the channel.
    [dropped] counts the updates that were received only to be discarded. *)
Record stream : Type := Stream {
  source : list (option SolveStatus.t);
  cancelled : bool;
  tee : tee_pc;
  bridge : bridge_pc;
  collected : list SolveStatus.t;
  observed : list SolveStatus.t;
  display : list shown;
  dropped : nat
}.
#[export] Instance stream_settable : Settable stream := fun r =>
  Stream (source r) (cancelled r) (tee r) (bridge r) (collected r) (observed r) (display r) (dropped r).

Section stream.
Variable cfg : tee_input.

(** [newStatusSession] starts both goroutines. *)
Definition session (updates : list (option SolveStatus.t)) : stream :=
  Stream updates false (if direct cfg then TeeDone else TeeReceiving) BridgeForwarding [] [] [] 0.

(** [close(out)] is the first deferred call of the tee. *)
Definition out_closed (st : stream) : bool :=
  match tee st with TeeDraining | TeeDone => true | _ => false end.

(** The bridge sees the end of the channel it reads. *)
Definition display_closed (st : stream) : bool :=
  if direct cfg then bool_decide (source st = []) else out_closed st.

Inductive step : stream -> stream -> Prop :=
  | Cancel st : cancelled st = false -> step st (st <| cancelled := true |>)
  (* teeStatus *)
  | TeeSkip st rest : tee st = TeeReceiving -> source st = None :: rest -> step st (st <| source := rest |>)
  | TeeReceive st s rest :
      tee st = TeeReceiving -> source st = Some s :: rest ->
      let s' := redactStatus s (secrets cfg) in
      step st (st <| source := rest |> <| tee := TeeSending s' |>
                  <| collected ::= fun l => if has_collector cfg then l ++ [s'] else l |>
                  <| observed ::= fun l => l ++ [s'] |>)
  | TeeSourceClosed st : tee st = TeeReceiving -> source st = [] -> step st (st <| tee := TeeDraining |>)
  | TeeCancelReceiving st : tee st = TeeReceiving -> cancelled st = true -> step st (st <| tee := TeeDraining |>)
  | TeeCancelSending st s :
      tee st = TeeSending s -> cancelled st = true -> step st (st <| tee := TeeDraining |> <| dropped ::= S |>)
  | TeeDrain st x rest :
      tee st = TeeDraining -> source st = x :: rest -> step st (st <| source := rest |> <| dropped ::= S |>)
  | TeeFlush st : tee st = TeeDraining -> source st = [] -> step st (st <| tee := TeeDone |>)
  (* teeStatus to bridgeStatus *)
  | Forward st s :
      tee st = TeeSending s -> bridge st = BridgeForwarding ->
      step st (st <| tee := TeeReceiving |> <| display ::= fun l => l ++ [StatusShown (Some s)] |>)
  | Discard st s :
      tee st = TeeSending s -> bridge st = BridgeDraining -> step st (st <| tee := TeeReceiving |> <| dropped ::= S |>)
  (* bridgeStatus on the source itself *)
  | ForwardDirect st x rest :
      direct cfg = true -> bridge st = BridgeForwarding -> source st = x :: rest ->
      step st (st <| source := rest |> <| display ::= fun l => l ++ [StatusShown x] |>)
  | DiscardDirect st x rest :
      direct cfg = true -> bridge st = BridgeDraining -> source st = x :: rest ->
      step st (st <| source := rest |> <| dropped ::= S |>)
  (* bridgeStatus *)
  | BridgeCancel st :
      bridge st = BridgeForwarding -> cancelled st = true -> step st (st <| bridge := BridgeDraining |>)
  | BridgeClosed st :
      bridge st <> BridgeDone -> display_closed st = true ->
      step st (st <| bridge := BridgeDone |> <| display ::= fun l => l ++ [DoneShown] |>).

(** [Solve] has returned, both goroutines have ended and [Wait] returns. *)
Definition finished (st : stream) : Prop := source st = [] /\ tee st = TeeDone /\ bridge st = BridgeDone.

(** ** What the display should see *)

Definition redacted (x : option SolveStatus.t) : option SolveStatus.t :=
  (fun s => redactStatus s (secrets cfg)) <$> x.

(** Nil updates only get past the tee when there is none. *)
Definition expected (updates : list (option SolveStatus.t)) : list (option SolveStatus.t) :=
  if direct cfg then updates else Some <$> omap redacted updates.

Definition statuses (l : list shown) : list (option SolveStatus.t) :=
  omap (fun x => match x with StatusShown s => Some s | DoneShown => None end) l.

(** ** The invariant *)

(** What the tee holds in its hand. *)
Definition in_hand (st : stream) : list (option SolveStatus.t) :=
  match tee st with TeeSending s => [Some s] | _ => [] end.

Definition live (st : stream) : Prop := out_closed st = false.

(** The path from the source to the display: [before] was received, [seen] was shown. *)
Definition path_direct (before seen : list (option SolveStatus.t)) (st : stream) : Prop :=
  tee st = TeeDone /\ observed st = [] /\ seen `prefix_of` before /\
  (bridge st = BridgeForwarding \/ cancelled st = false -> seen = before).

Definition path_teed (before seen : list (option SolveStatus.t)) (st : stream) : Prop :=
  observed st `prefix_of` omap redacted before /\ (live st \/ cancelled st = false -> observed st = omap redacted before) /\
  seen `prefix_of` Some <$> observed st /\
  (bridge st = BridgeForwarding /\ live st -> seen ++ in_hand st = Some <$> observed st) /\
  (cancelled st = false -> seen ++ in_hand st = Some <$> observed st /\ (out_closed st = true -> source st = [])) /\
  (tee st = TeeDone -> source st = []).

Definition stream_inv (updates : list (option SolveStatus.t)) (st : stream) : Prop :=
  exists before seen,
    updates = before ++ source st /\
    display st = (StatusShown <$> seen) ++ (if decide (bridge st = BridgeDone) then [DoneShown] else []) /\
    (if direct cfg then path_direct before seen st else path_teed before seen st) /\
    collected st = (if has_collector cfg then observed st else []) /\
    (bridge st = BridgeDone -> display_closed st = true) /\
    (cancelled st = false -> bridge st <> BridgeDraining).

Lemma stream_inv_start updates : stream_inv updates (session updates).
Proof.
  exists [], []. split_and!; try done; [|by destruct (has_collector cfg)].
  unfold session. destruct (direct cfg); [done|]. split_and!; try done; by intros [].
Qed.

Lemma prefix_snoc {A} (l k : list A) x : l `prefix_of` k -> l `prefix_of` k ++ [x].
Proof. intros H. by apply prefix_app_r. Qed.

Lemma step_inv_direct updates st st' :
  direct cfg = true -> step st st' -> stream_inv updates st -> stream_inv updates st'.
Proof.
  unfold stream_inv, path_direct. intros Hd Hs (before & seen & Hup & Hdis & Hp & Hc & Hclosed & Hcan). rewrite Hd in *.
  destruct Hp as (Ht & Ho & Hpre & Heq).
  destruct Hs as [st Hx|st rest H1 H2|st s rest H1 H2|st H1 H2|st H1 H2|st s H1 H2|st x rest H1 H2|st H1 H2
    |st s H1 H2|st s H1 H2|st x rest _ Hb Hsrc|st x rest _ Hb Hsrc|st Hb Hx|st Hb Hcl]; try congruence.
  - exists before, seen. cbn in *. split_and!; try done. intros [Hb|Hb]; [auto|done].
  - exists (before ++ [x]), (before ++ [x]). cbn. rewrite Hb in *. rewrite Heq in Hdis by auto. split_and!; try done.
    + by rewrite <- app_assoc, Hup, Hsrc.
    + rewrite Hdis. cbn. by rewrite fmap_app, !app_nil_r.
  - assert (cancelled st = true) as Hct by (destruct (cancelled st); [done|by destruct Hcan]).
    exists (before ++ [x]), seen. cbn. rewrite Hb, Hct in *. split_and!; try done.
    + by rewrite <- app_assoc, Hup, Hsrc.
    + by apply prefix_snoc.
    + by intros [|].
  - exists before, seen. cbn in *. rewrite Hb, Hx in *. split_and!; try done. by intros [|].
  - exists before, seen. cbn in *. rewrite decide_False in Hdis by done. split_and!; try done; [by rewrite Hdis, app_nil_r|].
    intros [|Hx]; [done|auto].
Qed.

Ltac triv := first [done|solve [intros [?|?]; first [discriminate|auto]]].

Lemma step_inv_teed updates st st' :
  direct cfg = false -> step st st' -> stream_inv updates st -> stream_inv updates st'.
Proof.
  unfold stream_inv. intros Hd Hs (before & seen & Hup & Hdis & Hp & Hc & Hclosed & Hcan). rewrite Hd in *.
  destruct Hp as (Ho & Hol & Hpre & Hfw & Hnc & Hts).
  destruct Hs as [st Hx|st rest H1 H2|st s rest H1 H2 s'|st H1 H2|st H1 Hx|st s H1 Hx|st x rest H1 H2|st H1 H2
    |st s H1 Hb|st s H1 Hb|st x rest Hdd Hb Hsrc|st x rest Hdd Hb Hsrc|st Hb Hx|st Hb Hcl]; try congruence;
    unfold path_teed, live, in_hand, display_closed in *; rewrite ?Hd in *; unfold out_closed in *; cbn in *;
    rewrite ?H1 in *; rewrite ?app_nil_r in *.
  - exists before, seen. split_and!; triv.
  - exists (before ++ [None]), seen. rewrite omap_app, ?app_nil_r. split_and!; try triv; [by rewrite <- app_assoc, Hup, H2|].
    intros Hx. by destruct (Hnc Hx).
  - exists (before ++ [Some s]), seen. rewrite omap_app, fmap_app, (Hol (or_introl eq_refl)). cbn. rewrite (Hol (or_introl eq_refl)) in *. split_and!; try triv.
    + by rewrite <- app_assoc, Hup, H2.
    + by apply prefix_snoc.
    + intros [Hb _]. by rewrite Hfw.
    + intros Hx. destruct (Hnc Hx) as [-> _]. done.
    + rewrite Hc. by destruct (has_collector cfg).
  - exists before, seen. rewrite ?app_nil_r. split_and!; try triv; [by intros [_ ?]|]. intros Hx. by destruct (Hnc Hx).
  - exists before, seen. rewrite Hx in *. split_and!; try triv. by intros [_ ?].
  - exists before, seen. rewrite Hx in *. split_and!; try triv. by intros [_ ?].
  - exists (before ++ [x]), seen. rewrite omap_app. split_and!; try triv; [by rewrite <- app_assoc, Hup, H2|by apply prefix_app_r| |by intros [_ ?]|].
    + intros [|Hx]; [done|]. destruct (Hnc Hx) as [_ Hsrc]. rewrite H2 in Hsrc. by discriminate Hsrc.
    + intros Hx. destruct (Hnc Hx) as [_ Hsrc]. rewrite H2 in Hsrc. by discriminate Hsrc.
  - exists before, seen. rewrite ?app_nil_r. split_and!; try triv; by intros [_ ?].
  - rewrite Hb in *. exists before, (seen ++ [Some s]). rewrite Hfw by done. rewrite ?app_nil_r in *. split_and!; try triv.
    + rewrite Hdis, <- Hfw by done. by rewrite fmap_app.
  - exists before, seen. assert (cancelled st = true) as Hct by (destruct (cancelled st); [done|by destruct Hcan]).
    rewrite Hb, Hct in *. split_and!; try triv. by intros [? _].
  - exists before, seen. rewrite Hb, Hx in *. split_and!; try triv. by intros [? _].
  - exists before, seen. rewrite decide_False in Hdis by done. split_and!; try triv; [by rewrite Hdis, app_nil_r|]. by intros [? _].
Qed.

Definition reachable (updates : list (option SolveStatus.t)) (st : stream) : Prop := rtc step (session updates) st.

Lemma reachable_inv updates st : reachable updates st -> stream_inv updates st.
Proof.
  intros Hr. pose proof (stream_inv_start updates) as H0. revert H0. induction Hr as [st|st1 st2 st3 Hs _ IH]; [done|].
  intros Hi. apply IH. destruct (direct cfg) eqn:Hd; [by eapply step_inv_direct|by eapply step_inv_teed].
Qed.

Lemma expected_prefix before rest : expected before `prefix_of` expected (before ++ rest).
Proof.
  unfold expected. destruct (direct cfg); [by apply prefix_app_r|]. rewrite omap_app, fmap_app. by apply prefix_app_r.
Qed.

(** With a secret to hide, a display is only ever sent redacted updates. *)
Lemma shown_redacted updates st s :
  reachable updates st -> secrets cfg <> [] -> StatusShown (Some s) ∈ display st ->
  exists u, Some u ∈ updates /\ s = redactStatus u (secrets cfg).
Proof.
  intros Hr Hne Hs. destruct (reachable_inv _ _ Hr) as (before & seen & -> & Hdis & Hp & _).
  assert (direct cfg = false) as Hd.
  { unfold direct. destruct (secrets cfg); [done|]. cbn. by rewrite andb_false_r. }
  rewrite Hd in Hp. destruct Hp as (Ho & _ & Hpre & _). rewrite Hdis in Hs. apply elem_of_app in Hs as [Hs|Hs].
  - apply list_elem_of_fmap in Hs as (x & [= <-] & Hx). eapply elem_of_prefix in Hx; [|exact Hpre].
    apply list_elem_of_fmap in Hx as (y & [= <-] & Hy). eapply elem_of_prefix in Hy; [|exact Ho].
    apply list_elem_of_omap in Hy as ([u|] & Hin & Hu); [|done]. exists u. injection Hu as <-. split; [|done].
    apply elem_of_app. by left.
  - case_decide; [|by apply elem_of_nil in Hs]. by apply list_elem_of_singleton in Hs.
Qed.

(** C22: What a display is shown of a solve: whatever the interleaving of the goroutines and
    whenever the run is cancelled, the messages are an initial part of the redacted updates
    in the order BuildKit sent them, followed by exactly one done message when the bridge
    has ended; the collector has seen what the observer has seen; and a solve that ends
    without a cancellation has shown every update to all three. *)
Theorem stream_shows updates st (Hr : reachable updates st) :
  exists seen, display st = (StatusShown <$> seen) ++ (if decide (bridge st = BridgeDone) then [DoneShown] else []) /\
    seen `prefix_of` expected updates /\
    observed st `prefix_of` omap redacted updates /\
    collected st = (if has_collector cfg then observed st else []) /\
    (finished st -> cancelled st = false ->
      seen = expected updates /\ (direct cfg = false -> observed st = omap redacted updates)).
Proof.
  destruct (reachable_inv _ _ Hr) as (before & seen & -> & Hdis & Hp & Hc & _ & _). exists seen. split; [done|].
  split_and!; [| |done|].
  - etrans; [|apply expected_prefix]. unfold expected. destruct (direct cfg); [by apply Hp|].
    destruct Hp as (Ho & _ & Hpre & _). etrans; [exact Hpre|]. destruct Ho as [k ->]. rewrite fmap_app. by apply prefix_app_r.
  - rewrite omap_app. apply prefix_app_r. destruct (direct cfg); [|by apply Hp].
    destruct Hp as (_ & -> & _). apply prefix_nil.
  - intros (Hsrc & Ht & Hb) Hx. rewrite Hsrc, app_nil_r in *. unfold expected. destruct (direct cfg) eqn:Hd.
    + split; [|done]. destruct Hp as (_ & _ & _ & Heq). auto.
    + destruct Hp as (_ & Hol & _ & _ & Hnc & _). unfold in_hand in Hnc. rewrite Ht, app_nil_r in Hnc.
      destruct (Hnc Hx) as [-> _]. rewrite Hol by auto. done.
Qed.

(** ** Progress and termination *)

Definition tee_weight (p : tee_pc) : nat :=
  match p with TeeReceiving => 2 | TeeSending _ => 3 | TeeDraining => 1 | TeeDone => 0 end.
Definition bridge_weight (p : bridge_pc) : nat :=
  match p with BridgeForwarding => 2 | BridgeDraining => 1 | BridgeDone => 0 end.
Definition weight (st : stream) : nat :=
  2 * length (source st) + tee_weight (tee st) + bridge_weight (bridge st) + (if cancelled st then 0 else 1).

Lemma step_weight st st' : step st st' -> weight st' < weight st.
Proof.
  unfold weight. destruct 1 as [st Hx|st rest H1 H2|st s rest H1 H2 s'|st H1 H2|st H1 Hx|st s H1 Hx|st x rest H1 H2|st H1 H2
    |st s H1 Hb|st s H1 Hb|st x rest Hdd Hb Hsrc|st x rest Hdd Hb Hsrc|st Hb Hx|st Hb Hcl]; cbn;
    rewrite ?H1, ?H2, ?Hb, ?Hx, ?Hsrc; cbn; try lia.
  destruct (bridge st); [cbn; lia..|done].
Qed.

(** The steps of the goroutines, as opposed to a cancellation from outside. *)
Definition moves (st st' : stream) : Prop := step st st' /\ cancelled st' = cancelled st.

Lemma progress_direct st :
  direct cfg = true -> tee st = TeeDone -> ~ finished st -> (bridge st = BridgeDone -> display_closed st = true) ->
  exists st', moves st st'.
Proof.
  intros Hd Ht Hf Hcl. unfold display_closed in *. rewrite Hd in Hcl. destruct (source st) as [|x rest] eqn:Hsrc.
  - destruct (decide (bridge st = BridgeDone)) as [Hb|Hb]; [by destruct Hf|].
    eexists. split; [apply BridgeClosed; [done|]|done]. unfold display_closed. by rewrite Hd, Hsrc.
  - destruct (bridge st) eqn:Hb.
    + eexists. split; [by eapply ForwardDirect|done].
    + eexists. split; [by eapply DiscardDirect|done].
    + by specialize (Hcl eq_refl).
Qed.

Lemma progress_teed st :
  direct cfg = false -> (tee st = TeeDone -> source st = []) -> ~ finished st -> (bridge st = BridgeDone -> display_closed st = true) ->
  exists st', moves st st'.
Proof.
  intros Hd Hts Hf Hcl. unfold display_closed, out_closed in Hcl. rewrite Hd in Hcl.
  destruct (tee st) as [|s| |] eqn:Ht.
  - destruct (source st) as [|[s|] rest] eqn:Hsrc; eexists.
    + split; [by apply TeeSourceClosed|done].
    + split; [by eapply TeeReceive|done].
    + split; [by eapply TeeSkip|done].
  - destruct (bridge st) eqn:Hb; [..|by specialize (Hcl eq_refl)]; eexists.
    + split; [by eapply Forward|done].
    + split; [by eapply Discard|done].
  - destruct (source st) as [|x rest] eqn:Hsrc; eexists.
    + split; [by apply TeeFlush|done].
    + split; [by eapply TeeDrain|done].
  - destruct (decide (bridge st = BridgeDone)) as [Hb|Hb].
    + destruct Hf. split_and!; auto.
    + eexists. split; [apply BridgeClosed; [done|]|done]. unfold display_closed, out_closed. by rewrite Hd, Ht.
Qed.

(** C23: A solve never hangs on its status stream: in every reachable state, cancelled or
    not, some goroutine can move until BuildKit has sent every update and closed the
    channel, the observer is flushed and the bridge has ended - a cancelled tee or bridge
    keeps draining - and every schedule ends after at most two steps per update and five
    more. *)
Theorem stream_ends updates st (Hr : reachable updates st) :
  (~ finished st -> exists st', moves st st') /\
  (forall n st', nsteps step n (session updates) st' -> n <= 2 * length updates + 5).
Proof.
  split.
  - intros Hf. destruct (reachable_inv _ _ Hr) as (before & seen & _ & _ & Hp & _ & Hcl & _).
    destruct (direct cfg) eqn:Hd; [apply progress_direct|apply progress_teed]; try done; by apply Hp.
  - intros n st' Hn. assert (weight (session updates) <= 2 * length updates + 5) as Hw.
    { unfold weight, session; cbn. destruct (direct cfg); cbn; lia. }
    assert (n + weight st' <= weight (session updates)); [|lia]. clear Hr Hw. revert Hn. generalize (session updates).
    intros s Hn. induction Hn as [s|n s1 s2 s3 Hs _ IH]; [done|]. apply step_weight in Hs. lia.
Qed.
End stream.

Definition ex_input : tee_input := TeeInput true true ["hunter2"].
Definition ex_update (log : string) : SolveStatus.t := SolveStatus.mk [] [VertexLog.mk "v" log] [].
Definition ex_final : stream :=
  Stream [] false TeeDone BridgeDone [ex_update "pass ***"] [ex_update "pass ***"]
    [StatusShown (Some (ex_update "pass ***")); DoneShown] 0.

Lemma ex_reachable : reachable ex_input [Some (ex_update "pass hunter2")] ex_final.
Proof.
  eapply rtc_l; [eapply TeeReceive; reflexivity|].
  eapply rtc_l; [eapply Forward; reflexivity|].
  eapply rtc_l; [apply TeeSourceClosed; reflexivity|].
  eapply rtc_l; [apply BridgeClosed; [discriminate|reflexivity]|].
  eapply rtc_l; [apply TeeFlush; reflexivity|]. apply rtc_refl.
Defined.

Lemma stream_shows_witness : exists seen,
  [StatusShown (Some (ex_update "pass ***")); DoneShown] = (StatusShown <$> seen) ++ [DoneShown] /\
  seen `prefix_of` expected ex_input [Some (ex_update "pass hunter2")] /\
  (true = true -> seen = expected ex_input [Some (ex_update "pass hunter2")]).
Proof.
  destruct (stream_shows ex_input [Some (ex_update "pass hunter2")] ex_final ex_reachable) as (seen & Hd & Hp & _ & _ & Hf).
  exists seen. split; [exact Hd|]. split; [exact Hp|]. intros _. apply Hf; [|reflexivity]. repeat split; reflexivity.
Defined.

Lemma stream_ends_witness :
  (exists st', moves ex_input (session ex_input [Some (ex_update "pass hunter2")]) st') /\
  forall n st', nsteps (step ex_input) n (session ex_input [Some (ex_update "pass hunter2")]) st' -> n <= 7.
Proof.
  refine (match stream_ends ex_input [Some (ex_update "pass hunter2")] (session ex_input [Some (ex_update "pass hunter2")]) _
          with conj Hmove Hend => conj (Hmove _) Hend end).
  - apply rtc_refl.
  - intros (Hsrc & _). discriminate Hsrc.
Defined.
