(* ===== verification/Cache.v ===== *)
(** * Package cache (cache.go, stats.go)

    Cache specifications of the command line, and the statistics collected from the status
    streams of all jobs.  The collector's methods hold its mutex from entry to return, so a
    concurrent run is a sequence of calls in some order. *)

From S2P Require Import Prelude Errors GoStrings Regex Conditional Model Duration Progress.

(** ** Cache specifications *)

(** [client.CacheOptionsEntry]; [Attrs] may be nil. *)
Record CacheOptionsEntry : Type := CacheEntry { Type' : string; Attrs : option (gmap string string) }.

Definition knownTypes : gset string := list_to_set ["registry"; "gha"; "local"; "inline"; "s3"].

Definition attr_step (attrs : gmap string string) (part : string) : result (gmap string string) :=
  match CutByte part "=" with
  | Some (k, v) =>
      if decide (k = "") then fail_with [part] (CacheErr ErrInvalidCacheSpec) else Ok (<[k := v]> attrs)
  | None => fail_with [part] (CacheErr ErrInvalidCacheSpec)
  end.

Definition ParseSpec (raw : string) : result CacheOptionsEntry :=
  let raw := TrimSpace raw in
  if decide (raw = "") then fail_with [] (CacheErr ErrInvalidCacheSpec) else
  if decide (lacks "=" raw) then Ok (CacheEntry "registry" (Some {[ "ref" := raw ]})) else
  attrs ← foldM attr_step ∅ (SplitByte raw ",");
  match attrs !! "type" with
  | None => fail_with [] (CacheErr ErrInvalidCacheSpec)
  | Some cacheType =>
      let attrs := delete "type" attrs in
      if decide (cacheType ∈ knownTypes) then Ok (CacheEntry cacheType (Some attrs))
      else fail_with [cacheType] (CacheErr ErrUnknownCacheType)
  end.

Definition ParseSpecs (raw : list string) : result (list CacheOptionsEntry) :=
  forM (fun r => map_err (errorf [r]) (ParseSpec r)) raw.

(** [attrs[key] = value] unless the key is there or the variable is empty. *)
Definition set_missing (key value : string) (attrs : gmap string string) : gmap string string :=
  match attrs !! key with
  | None => if decide (value = "") then attrs else <[key := value]> attrs
  | Some _ => attrs
  end.

(** [getenv] is [os.Getenv]. *)
Definition DetectGHA (getenv : string -> string) (entries : list CacheOptionsEntry) : list CacheOptionsEntry :=
  let urlV2 := getenv "ACTIONS_RESULTS_URL" in
  let urlV1 := getenv "ACTIONS_CACHE_URL" in
  let token := getenv "ACTIONS_RUNTIME_TOKEN" in
  (fun e => if decide (Type' e <> "gha") then e else
     CacheEntry (Type' e) (Some (set_missing "token" token (set_missing "url" urlV1
       (set_missing "url_v2" urlV2 (default ∅ (Attrs e))))))) <$> entries.

(** ** Statistics *)

Module VertexStat.
Record t := mk { Name : string; Cached : bool; Duration : Z }.
End VertexStat.

Module JobReport.
Record t := mk { JobName : string; TotalOps : Z; CachedOps : Z; Duration : Z }.
End JobReport.

(** [Report.HitRate] on the job reports. *)
Definition hits (jobs : list JobReport.t) : Z * Z :=
  foldl (fun '(total, cached) r => (total + JobReport.TotalOps r, cached + JobReport.CachedOps r)%Z) (0, 0)%Z jobs.

Definition HitRate (jobs : list JobReport.t) : f64 :=
  let '(total, cached) := hits jobs in
  if decide (total = 0)%Z then f64_of_Z 0 else f64_div (f64_of_Z cached) (f64_of_Z total).

Module Collector.
Record t := mk {
  order : list string;
  stats : gmap string (list VertexStat.t);
  seen : gmap string (gset string)
}.
End Collector.

Definition NewCollector : Collector.t := Collector.mk [] ∅ ∅.

Definition stat_of (v : Vertex.t) : VertexStat.t :=
  VertexStat.mk (Vertex.Name v) (Vertex.Cached v)
    (match Vertex.Completed v, Vertex.Started v with Some c, Some s => time_Sub c s | _, _ => 0 end).

(** The vertices the loop does not [continue] over, before it looks at duplicates. *)
Definition counted (v : Vertex.t) : bool :=
  match Vertex.Started v, Vertex.Completed v with
  | Some _, Some _ => negb (bool_decide (Vertex.Digest v = ""))
  | _, _ => false
  end.

(** One vertex; [c.stats[job]] is nil exactly when the job has no entry. *)
Definition observe_vertex (jobName : string) (c : Collector.t) (v : Vertex.t) : Collector.t :=
  if counted v then
    let dig := Vertex.Digest v in
    let dup := default ∅ (Collector.seen c !! jobName) in
    if decide (dig ∈ dup) then c else
    let order := match Collector.stats c !! jobName with
                 | None => Collector.order c ++ [jobName]
                 | Some _ => Collector.order c
                 end in
    Collector.mk order
      (<[jobName := default [] (Collector.stats c !! jobName) ++ [stat_of v]]> (Collector.stats c))
      (<[jobName := {[ dig ]} ∪ dup]> (Collector.seen c))
  else c.

(** A nil status is skipped. *)
Definition Observe (c : Collector.t) (jobName : string) (status : option SolveStatus.t) : Collector.t :=
  match status with
  | None => c
  | Some s =>
      let seen := match Collector.seen c !! jobName with
                  | None => <[jobName := ∅]> (Collector.seen c)
                  | Some _ => Collector.seen c
                  end in
      foldl (observe_vertex jobName) (Collector.mk (Collector.order c) (Collector.stats c) seen) (SolveStatus.Vertexes s)
  end.

Definition report_step (r : JobReport.t) (s : VertexStat.t) : JobReport.t :=
  JobReport.mk (JobReport.JobName r) (JobReport.TotalOps r)
    (if VertexStat.Cached s then JobReport.CachedOps r + 1 else JobReport.CachedOps r)
    (wrap64 (JobReport.Duration r + VertexStat.Duration s)).

Definition job_report (name : string) (stats : list VertexStat.t) : JobReport.t :=
  foldl report_step (JobReport.mk name (Z.of_nat (length stats)) 0 0) stats.

Definition Report (c : Collector.t) : list JobReport.t :=
  (fun name => job_report name (default [] (Collector.stats c !! name))) <$> Collector.order c.

(** ** Specification of the collector *)

(** The first vertex of every digest. *)
Fixpoint firsts (seen : gset string) (vs : list Vertex.t) : list Vertex.t :=
  match vs with
  | [] => []
  | v :: vs' =>
      if decide (Vertex.Digest v ∈ seen) then firsts seen vs'
      else v :: firsts ({[ Vertex.Digest v ]} ∪ seen) vs'
  end.

Definition call : Type := string * option SolveStatus.t.

(** The counted vertices of a sequence of calls, with their jobs. *)
Definition call_vertices (cl : call) : list (string * Vertex.t) :=
  match cl.2 with
  | None => []
  | Some s => pair cl.1 <$> filter (fun v => counted v = true) (SolveStatus.Vertexes s)
  end.

Definition of_job (job : string) (l : list (string * Vertex.t)) : list Vertex.t :=
  omap (fun p => if decide (p.1 = job) then Some p.2 else None) l.

Definition observe_all (calls : list call) : Collector.t :=
  foldl (fun c cl => Observe c cl.1 cl.2) NewCollector calls.

(** The state after the vertices [l] were counted. *)
Definition collected (l : list (string * Vertex.t)) (c : Collector.t) : Prop :=
  Collector.order c = uniq (fst <$> l) /\
  (forall job, Collector.stats c !! job =
    if decide (job ∈ fst <$> l) then Some (stat_of <$> firsts ∅ (of_job job l)) else None) /\
  (forall job, default ∅ (Collector.seen c !! job) = list_to_set (Vertex.Digest <$> of_job job l)).

Lemma firsts_snoc seen vs v :
  firsts seen (vs ++ [v]) =
  firsts seen vs ++ (if decide (Vertex.Digest v ∈ seen ∪ list_to_set (Vertex.Digest <$> vs)) then [] else [v]).
Proof.
  revert seen. induction vs as [|u vs IH]; intros seen; cbn.
  - rewrite union_empty_r_L. by case_decide.
  - case_decide as Hu; rewrite IH; cbn; [|f_equal]; f_equal; apply decide_ext;
      rewrite !elem_of_union, ?elem_of_singleton; [|tauto].
    split; [tauto|]. by intros [?|[ ->|?]]; [left|left|right].
Qed.

Lemma of_job_snoc job l p :
  of_job job (l ++ [p]) = of_job job l ++ (if decide (p.1 = job) then [p.2] else []).
Proof. unfold of_job. rewrite omap_app. cbn. by case_decide. Qed.

Lemma of_job_empty job l : job ∉ fst <$> l -> of_job job l = [].
Proof.
  induction l as [|p l IH]; [done|]. cbn. intros [Hp Hl]%not_elem_of_cons.
  rewrite decide_False by done. by apply IH.
Qed.

Lemma collected_empty : collected [] NewCollector.
Proof. split_and!; [done|intros job; done|intros job; done]. Qed.

Lemma of_job_digest_in job l d : d ∈ Vertex.Digest <$> of_job job l -> job ∈ fst <$> l.
Proof.
  intros (v & -> & Hv)%list_elem_of_fmap. unfold of_job in Hv. apply list_elem_of_omap in Hv as ([j u] & Hp & Heq).
  cbn in Heq. case_decide; [|done]. subst. apply list_elem_of_fmap. by exists (job, u).
Qed.

Lemma collected_vertex l c job v :
  collected l c -> counted v = true -> collected (l ++ [(job, v)]) (observe_vertex job c v).
Proof.
  intros (Ho & Hs & Hseen) Hv. unfold observe_vertex. rewrite Hv, Hseen.
  assert (Vertex.Digest v ∈ (list_to_set (Vertex.Digest <$> of_job job l) : gset string) -> job ∈ fst <$> l) as Hin.
  { intros Hd%elem_of_list_to_set. by eapply of_job_digest_in. }
  assert (fst <$> l ++ [(job, v)] = (fst <$> l) ++ [job]) as Hfst by (by rewrite fmap_app).
  unfold collected. rewrite !Hfst, uniq_snoc.
  case_decide as Hdup.
  - rewrite decide_True by auto. split_and!; [done| |].
    + intros k. rewrite of_job_snoc, Hs. cbn. destruct (decide (job = k)) as [<-|Hk].
      * rewrite !decide_True by (rewrite ?elem_of_app; auto). rewrite firsts_snoc, decide_True by (by rewrite union_empty_l_L). by rewrite app_nil_r.
      * rewrite app_nil_r. apply decide_ext. rewrite elem_of_app, list_elem_of_singleton. naive_solver.
    + intros k. rewrite of_job_snoc, Hseen. cbn. destruct (decide (job = k)) as [<-|Hk]; [|by rewrite app_nil_r].
      rewrite fmap_app, list_to_set_app_L. set_solver.
  - split_and!; cbn.
    + rewrite Hs, Ho. by destruct (decide (job ∈ fst <$> l)).
    + intros k. rewrite of_job_snoc. cbn. destruct (decide (job = k)) as [<-|Hk].
      * rewrite lookup_insert_eq, decide_True by (rewrite elem_of_app; right; by left). f_equal. rewrite firsts_snoc, decide_False by (by rewrite union_empty_l_L).
        rewrite fmap_app. f_equal. rewrite Hs. case_decide as Hj; [done|]. by rewrite of_job_empty.
      * rewrite lookup_insert_ne by done. rewrite Hs, app_nil_r. apply decide_ext. rewrite elem_of_app, list_elem_of_singleton. naive_solver.
    + intros k. rewrite of_job_snoc. cbn. destruct (decide (job = k)) as [<-|Hk].
      * rewrite lookup_insert_eq. cbn. rewrite fmap_app, list_to_set_app_L. set_solver.
      * by rewrite lookup_insert_ne, app_nil_r.
Qed.

Lemma collected_call l c cl : collected l c -> collected (l ++ call_vertices cl) (Observe c cl.1 cl.2).
Proof.
  destruct cl as [job [s|]]; cbn; intros Hc; [|by rewrite app_nil_r].
  match goal with |- collected _ (foldl _ ?c0 _) => assert (collected l c0) as Hc' end.
  { destruct Hc as (Ho & Hs & Hseen). split_and!; [done|done|]. intros k. cbn. rewrite <- Hseen.
    destruct (Collector.seen c !! job) eqn:Hj; [done|]. destruct (decide (job = k)) as [<-|Hk].
    - by rewrite lookup_insert_eq, Hj.
    - by rewrite lookup_insert_ne. }
  revert Hc'. generalize (Collector.mk (Collector.order c) (Collector.stats c) (match Collector.seen c !! job with
    | Some _ => Collector.seen c | None => <[job := ∅]> (Collector.seen c) end)).
  unfold call_vertices; cbn. clear Hc. revert l. induction (SolveStatus.Vertexes s) as [|v vs IH]; intros l c0 Hc0; cbn.
  - by rewrite app_nil_r.
  - rewrite filter_cons. case_decide as Hv.
    + cbn. rewrite (cons_middle _ l), app_assoc. apply IH. by apply collected_vertex.
    + apply IH. unfold observe_vertex. by destruct (counted v).
Qed.

Lemma observe_all_collected calls : collected (calls ≫= call_vertices) (observe_all calls).
Proof.
  unfold observe_all. induction calls as [|cl calls IH] using rev_ind; [apply collected_empty|].
  rewrite foldl_app, bind_app. cbn. rewrite app_nil_r. by apply collected_call.
Qed.

(** ** Reports *)

Definition cached_stats (stats : list VertexStat.t) : list VertexStat.t :=
  filter (fun s => VertexStat.Cached s = true) stats.

Lemma report_steps r stats :
  let r' := foldl report_step r stats in
  JobReport.JobName r' = JobReport.JobName r /\ JobReport.TotalOps r' = JobReport.TotalOps r /\
  JobReport.CachedOps r' = (JobReport.CachedOps r + Z.of_nat (length (cached_stats stats)))%Z.
Proof.
  revert r. induction stats as [|s stats IH]; intros r; cbn [foldl]; [split_and!; try done; unfold cached_stats; rewrite filter_nil; cbn; lia|].
  destruct (IH (report_step r s)) as (-> & -> & ->). split_and!; try done. unfold cached_stats. rewrite filter_cons.
  cbn. destruct (VertexStat.Cached s); [rewrite decide_True by done; cbn [length]|rewrite decide_False by done]; lia.
Qed.

(** The cache report counts every operation once: for any sequence of [Observe] calls -
    jobs interleaved in any way, updates repeated, nil or incomplete - the report has one
    entry per job that completed a vertex, in the order of their first one, and its total
    and cached counts are those of the job's first completed vertex of every digest, whatever
    the other jobs reported. *)
Theorem Report_spec calls :
  let done := calls ≫= call_vertices in
  Forall2 (fun job r =>
      let vs := firsts ∅ (of_job job done) in
      JobReport.JobName r = job /\ JobReport.TotalOps r = Z.of_nat (length vs) /\
      JobReport.CachedOps r = Z.of_nat (length (filter (fun v => Vertex.Cached v = true) vs)))
    (uniq (fst <$> done)) (Report (observe_all calls)).
Proof.
  intros done. destruct (observe_all_collected calls) as (Ho & Hs & _). unfold Report. rewrite Ho. fold done in Hs |- *.
  apply Forall2_fmap_r, Forall_Forall2_diag, Forall_forall. intros job Hj. rewrite elem_of_uniq in Hj.
  unfold compose. rewrite Hs, decide_True by done. cbn. unfold job_report.
  destruct (report_steps (JobReport.mk job (Z.of_nat (length (stat_of <$> firsts ∅ (of_job job done)))) 0 0)
    (stat_of <$> firsts ∅ (of_job job done))) as (-> & -> & ->). cbn. rewrite length_fmap.
  split_and!; [done|done|]. unfold cached_stats. clear. induction (firsts _ _) as [|v vs IH]; [done|]. cbn.
  rewrite !filter_cons. cbn. destruct (Vertex.Cached v); [rewrite !decide_True by done|rewrite !decide_False by done]; cbn [length]; lia.
Qed.

(** ** Parsing specifications *)

Definition print_attr (p : string * string) : string := p.1 +:+ "=" +:+ p.2.

(** A pair that can be written between two commas. *)
Definition spec_pair (p : string * string) : Prop :=
  p.1 <> "" /\ lacks "=" p.1 /\ lacks "," (p.1 +:+ "=" +:+ p.2).

Lemma attr_step_print attrs p : spec_pair p -> attr_step attrs (print_attr p) = Ok (<[p.1 := p.2]> attrs).
Proof.
  destruct p as [k v]. intros (Hk & Heq & _). unfold attr_step, print_attr. cbn [fst snd] in *.
  rewrite append_cons, append_nil_l, CutByte_app by done. by rewrite decide_False.
Qed.

Lemma attr_steps_print attrs kvs :
  Forall spec_pair kvs -> foldM attr_step attrs (print_attr <$> kvs) = Ok (list_to_map (rev kvs) ∪ attrs).
Proof.
  intros Hkvs. revert attrs. induction Hkvs as [|p kvs Hp _ IH]; intros attrs.
  - cbn. by rewrite map_empty_union.
  - cbn [fmap list_fmap foldM]. rewrite attr_step_print by done. cbn [mbind res_bind]. rewrite IH. f_equal. cbn [rev].
    rewrite list_to_map_app, <- map_union_assoc. f_equal. cbn. rewrite insert_union_singleton_l. destruct p; cbn.
    by rewrite insert_empty.
Qed.

Lemma type_lacks_comma : set_Forall (fun t => lacks "," ("type=" +:+ t)) knownTypes.
Proof. apply (bool_decide_unpack _). vm_compute. exact I. Qed.

(** C0: [ParseSpec] reads back a written specification: for a known type and attributes
    with non-empty keys, without commas and without a second type, the text
    [type=T,k=v,...] parses to that type and exactly those attributes, the last one
    winning for a repeated key. *)
Theorem ParseSpec_roundtrip t kvs
  (Ht : t ∈ knownTypes) (Hkvs : Forall spec_pair kvs) (Htype : Forall (fun p => p.1 <> "type") kvs)
  (Htrim : TrimSpace (Join (print_attr <$> ("type", t) :: kvs) (String "," "")) = Join (print_attr <$> ("type", t) :: kvs) (String "," "")) :
  ParseSpec (Join (print_attr <$> ("type", t) :: kvs) (String "," "")) = Ok (CacheEntry t (Some (list_to_map (rev kvs)))).
Proof.
  assert (spec_pair ("type", t)) as Hp.
  { split_and!; [done|by apply (bool_decide_unpack _); vm_compute|]. by apply type_lacks_comma. }
  unfold ParseSpec. rewrite Htrim.
  assert (SplitByte (Join (print_attr <$> ("type", t) :: kvs) (String "," "")) "," = print_attr <$> ("type", t) :: kvs) as Hsplit.
  { apply SplitByte_Join; [done|]. apply Forall_fmap. apply (Forall_impl spec_pair); [by constructor|]. by intros p (_ & _ & ?). }
  rewrite Hsplit, attr_steps_print by (by constructor). cbn [rev mbind res_bind]. rewrite map_union_empty.
  assert ((list_to_map (rev kvs) : gmap string string) !! "type" = None) as Hnone.
  { apply not_elem_of_list_to_map_1. rewrite list_elem_of_fmap. intros ([k v] & Hk & Hin%list_elem_of_In%in_rev%list_elem_of_In).
    rewrite Forall_forall in Htype. specialize (Htype _ Hin). by subst. }
  assert (list_to_map (rev kvs ++ [("type", t)]) = <["type" := t]> (list_to_map (rev kvs) : gmap string string)) as Hmap.
  { rewrite list_to_map_app. cbn. by rewrite insert_empty, <- insert_union_singleton_r. }
  rewrite Hmap, lookup_insert_eq. rewrite decide_False by (destruct kvs; discriminate).
  assert (exists r, Join (print_attr <$> ("type", t) :: kvs) (String "," "") = "type=" +:+ r) as [r ->].
  { destruct kvs as [|p kvs]; [by exists t|]. cbn [fmap list_fmap]. rewrite Join_cons. unfold print_attr at 1. cbn [fst snd].
    rewrite !append_assoc. by eexists (t +:+ _). }
  rewrite decide_False by (rewrite lacks_app; intros [Hl _]; revert Hl; apply (bool_decide_unpack _); vm_compute; exact I).
  by rewrite decide_True, delete_insert_eq, delete_id.
Qed.

Lemma ParseSpec_roundtrip_witness :
  ParseSpec "type=registry,ref=ghcr.io/u/c,mode=min,mode=max" =
  Ok (CacheEntry "registry" (Some (list_to_map [("mode", "max"); ("mode", "min"); ("ref", "ghcr.io/u/c")]))).
Proof.
  refine (ParseSpec_roundtrip "registry" [("ref", "ghcr.io/u/c"); ("mode", "min"); ("mode", "max")] _ _ _ _);
    [apply (bool_decide_unpack _); vm_compute; exact I| | |vm_compute; reflexivity].
  - repeat constructor; try discriminate; apply (bool_decide_unpack _); vm_compute; exact I.
  - repeat constructor; discriminate.
Defined.

(** Every accepted entry has a known type and no leftover type attribute. *)
Lemma ParseSpec_known raw e :
  ParseSpec raw = Ok e -> Type' e ∈ knownTypes /\ exists m, Attrs e = Some m /\ m !! "type" = None.
Proof.
  unfold ParseSpec. case_decide; [discriminate|]. case_decide.
  - intros [= <-]. split; [apply (bool_decide_unpack _); vm_compute; exact I|]. by eexists.
  - intros (attrs & _ & He)%bind_Ok. destruct (attrs !! "type") as [t|]; [|discriminate]. case_decide; [|discriminate].
    injection He as <-. split; [done|]. eexists. split; [done|]. apply lookup_delete_eq.
Qed.

(** [DetectGHA] only adds to entries of type gha, and never overrides. *)
Lemma DetectGHA_keeps getenv entries :
  Forall2 (fun e e' => Type' e' = Type' e /\ (Type' e <> "gha" -> e' = e) /\
    forall m, Attrs e = Some m -> exists m', Attrs e' = Some m' /\ m ⊆ m') entries (DetectGHA getenv entries).
Proof.
  assert (forall k v m, m ⊆ set_missing k v m) as Hset.
  { intros k v m. unfold set_missing. destruct (m !! k) eqn:Hk; [done|]. case_decide; [done|]. by apply insert_subseteq. }
  unfold DetectGHA. apply Forall2_fmap_r, Forall_Forall2_diag, Forall_forall. intros e _. unfold compose. case_decide as Ht.
  - split_and!; try done. intros m Hm. by exists m.
  - split_and!; [done|done|]. intros m ->. cbn. eexists. split; [done|]. do 2 (etrans; [|apply Hset]). apply Hset.
Qed.

