(* ===== verification/Host.v ===== *)
(** * What a run reads from the host (secret/resolve.go, gitinfo.go, synccontext.go)

    The operating system is the record [host]: environment, files, the home directory and
    the commands that are run.  Everything the program does with the answers is defined
    here. *)

From S2P Require Import Prelude Errors GoStrings Regex Conditional Model Names Secret Paths Progress Redact.

(** ** The operating system *)

(** An open file: its size, and the bytes that can be read before the end or an error. *)
Record os_file : Type := OsFile { f_Stat : result Z; f_Bytes : string; f_Err : option error }.

(** [cmd.Output()]: standard output, an exit error with standard error, or another error. *)
Inductive cmd_result : Type :=
  | CmdOk (out : string)
  | CmdExit (e : error) (stderr : string)
  | CmdFailed (e : error).

Record host : Type := Host {
  LookupEnv : string -> option string;
  Open : string -> result os_file;
  UserHomeDir : result string;
  Sh : string -> cmd_result;
  Git : list string -> result string
}.

(** [io.ReadAll(io.LimitReader(f, n))]. *)
Definition ReadLimited (f : os_file) (n : Z) : result string :=
  if decide (n <= Z.of_nat (String.length (f_Bytes f)))%Z then Ok (str_take (Z.to_nat n) (f_Bytes f))
  else match f_Err f with None => Ok (f_Bytes f) | Some e => Fail e end.

Section host.
Variable h : host.

(** [os.Getenv]. *)
Definition Getenv (name : string) : string := default "" (LookupEnv h name).

(** ** Secrets (resolve.go) *)

Definition maxSecretFileSize : Z := 500 * 1024.

Record ResolvedSecret : Type := Resolved { Name : string; Value : string }.

Definition resolveHostEnv (d : SecretDecl.t) : result string :=
  let envName := if decide (SecretDecl.Var d = "") then SecretDecl.Name d else SecretDecl.Var d in
  match LookupEnv h envName with
  | Some val => Ok val
  | None => fail_with [envName] (Foreign "environment variable not set")
  end.

Definition expandHome (path : string) : string :=
  if decide (path <> "~" /\ HasPrefix path "~/" = false) then path else
  match UserHomeDir h with
  | Ok home => home +:+ str_drop 1 path
  | Fail _ => path
  end.

Definition resolveFile (d : SecretDecl.t) : result string :=
  let path := expandHome (SecretDecl.Path d) in
  f ← map_err (errorf [path]) (Open h path);
  size ← map_err (errorf [path]) (f_Stat f);
  guard_fail (bool_decide (maxSecretFileSize < size)%Z) (errorf [path] (raise (Foreign "file too large")));;
  data ← map_err (errorf [path]) (ReadLimited f (maxSecretFileSize + 1));
  guard_fail (bool_decide (maxSecretFileSize < Z.of_nat (String.length data))%Z)
    (errorf [path] (raise (Foreign "file too large")));;
  Ok data.

Definition resolveCmd (d : SecretDecl.t) : result string :=
  let cmd := SecretDecl.Cmd d in
  match Sh h cmd with
  | CmdOk out => Ok (TrimRightByte "010" out)
  | CmdExit e stderr =>
      if decide (stderr = "") then Fail (errorf [cmd] e)
      else Fail (errorf [cmd; TrimRightByte "010" stderr] e)
  | CmdFailed e => Fail (errorf [cmd] e)
  end.

Definition resolveOne (d : SecretDecl.t) : result string :=
  match SecretDecl.Source d with
  | SecretSourceHostEnv => resolveHostEnv d
  | SecretSourceFile => resolveFile d
  | SecretSourceCmd => resolveCmd d
  | SecretSourceOther s => fail_with [s] (Foreign "unknown source")
  end.

Definition Resolve (decls : list SecretDecl.t) : result (list ResolvedSecret) :=
  forM (fun d =>
    val ← map_err (errorf2 [SecretDecl.Name d] (PM ErrSecretResolution)) (resolveOne d);
    Ok (Resolved (SecretDecl.Name d) val)) decls.

Definition ToMap (secrets : list ResolvedSecret) : gmap string string :=
  foldl (fun m s => <[Name s := Value s]> m) ∅ secrets.

Definition PlaintextValues (secrets : list ResolvedSecret) : gmap string string :=
  foldl (fun m s => if decide (Value s = "") then m else <[Name s := Value s]> m) ∅ secrets.

(** [resolveSecrets] of run.go: the values for the session and those to redact. *)
Definition resolveSecrets (decls : list SecretDecl.t) : result (option (gmap string string) * gmap string string) :=
  match decls with
  | [] => Ok (None, ∅)
  | _ => resolved ← Resolve decls; Ok (Some (ToMap resolved), PlaintextValues resolved)
  end.

(** ** Branch and tag (gitinfo.go) *)

(** The value of a variable, unless it is empty or not set. *)
Definition env_value (name : string) : option string :=
  let v := Getenv name in if decide (v = "") then None else Some v.

(** The variables are tried in order; the last resort is git itself. *)
Definition DetectBranch : string :=
  match env_value "GITHUB_HEAD_REF" with
  | Some v => v
  | None =>
  match (ref ← env_value "GITHUB_REF_NAME"; if decide (Getenv "GITHUB_REF_TYPE" <> "tag") then Some ref else None) with
  | Some ref => ref
  | None =>
  match env_value "CI_COMMIT_BRANCH" with
  | Some v => v
  | None =>
  match env_value "CIRCLE_BRANCH" with
  | Some v => v
  | None =>
  match Git h ["rev-parse"; "--abbrev-ref"; "HEAD"] with
  | Fail _ => ""
  | Ok out => let branch := TrimSpace out in if decide (branch = "HEAD") then "" else branch
  end end end end end.

Definition DetectTag : string :=
  match (ref ← env_value "GITHUB_REF_NAME"; if decide (Getenv "GITHUB_REF_TYPE" = "tag") then Some ref else None) with
  | Some ref => ref
  | None =>
  match env_value "CI_COMMIT_TAG" with
  | Some v => v
  | None =>
  match env_value "CIRCLE_TAG" with
  | Some v => v
  | None =>
  match Git h ["describe"; "--exact-match"; "--tags"; "HEAD"] with
  | Fail _ => ""
  | Ok out => TrimSpace out
  end end end end.

(** ** Ignore files (synccontext.go) *)

Definition errNotExist : sentinel := Foreign "file does not exist".
Definition errNoIgnoreFile : sentinel := Foreign "no ignore file found".

(** [bufio.MaxScanTokenSize]: a line must leave room in the buffer. *)
Definition MaxScanTokenSize : nat := 64 * 1024.

(** The lines of [bufio.ScanLines]: the end of the file only ends a line that is not empty. *)
Definition scan_lines (s : string) : list string :=
  let lines := SplitByte s "010" in
  match last lines with Some "" => List.removelast lines | _ => lines end.

(** [scanner.Scan] returns the lines before the first one that is too long. *)
Fixpoint scan (lines : list string) : list string * option error :=
  match lines with
  | [] => ([], None)
  | l :: lines' =>
      if decide (MaxScanTokenSize <= String.length l) then ([], Some (raise (Foreign "bufio.Scanner: token too long")))
      else let '(ls, e) := scan lines' in (l :: ls, e)
  end.

Definition pattern_line (text : string) : option string :=
  let line := TrimSpace text in
  if decide (line = "" \/ HasPrefix line "#" = true) then None else Some line.

(** A read error ends the scan like the end of the file and is reported by [Err]. *)
Definition readPatternFile (path : string) : result (list string) :=
  f ← Open h path;
  let '(lines, e) := scan (scan_lines (f_Bytes f)) in
  match (match e with Some e => Some e | None => f_Err f end) with
  | Some e => Fail (errorf [] e)
  | None => Ok (omap pattern_line lines)
  end.

Definition LoadIgnorePatterns (dir : string) : result (list string) :=
  match readPatternFile (FileJoin [dir; ".cicadaignore"]) with
  | Ok patterns => Ok patterns
  | Fail e =>
      if negb (Is e errNotExist) then Fail (errorf [".cicadaignore"] e) else
      match readPatternFile (FileJoin [dir; ".dockerignore"]) with
      | Ok patterns => Ok patterns
      | Fail e => if Is e errNotExist then Fail (raise errNoIgnoreFile) else Fail (errorf [".dockerignore"] e)
      end
  end.
End host.

(** ** Properties *)

Section host_props.
Variable h : host.

Lemma str_take_length n s : String.length (str_take n s) = Nat.min n (String.length s).
Proof. revert n. induction s as [|a s IH]; intros [|n]; cbn; try done. by rewrite IH. Qed.

(** A secret file is never larger than BuildKit accepts, even if it grows between the size
    check and the read. *)
Lemma resolveFile_size d v : resolveFile h d = Ok v -> (Z.of_nat (String.length v) <= maxSecretFileSize)%Z.
Proof.
  unfold resolveFile. intros H. inv_ok.
  match goal with H : bool_decide (_ < Z.of_nat _)%Z = false |- _ => apply bool_decide_eq_false in H; lia end.
Qed.

Lemma Resolve_Forall2 decls out :
  Resolve h decls = Ok out <->
  Forall2 (fun d s => Name s = SecretDecl.Name d /\ resolveOne h d = Ok (Value s)) decls out.
Proof.
  unfold Resolve. rewrite forM_Ok. split; intros H; (eapply Forall2_impl; [exact H|]); cbn.
  - intros d s Hs. inv_ok. done.
  - intros d [n v] [Hn Hv]. cbn in *. by rewrite Hv, Hn.
Qed.

Lemma Resolve_names decls out : Resolve h decls = Ok out -> Name <$> out = SecretDecl.Name <$> decls.
Proof.
  intros H%Resolve_Forall2. induction H as [|d s decls out [Hn _] _ IH]; [done|]. cbn. by rewrite Hn, IH.
Qed.

Lemma PlaintextValues_lookup out s :
  NoDup (Name <$> out) -> s ∈ out -> Value s <> "" -> PlaintextValues out !! Name s = Some (Value s).
Proof.
  unfold PlaintextValues. induction out as [|x out IH] using rev_ind; [intros _ Hs; by apply elem_of_nil in Hs|].
  rewrite fmap_app, NoDup_app, foldl_app. intros (Hnd & Hdis & _) [Hs|Hs%list_elem_of_singleton]%elem_of_app Hv; cbn [foldl].
  - assert (Name s <> Name x) as Hne.
    { intros Heq. apply (Hdis (Name s)); [by apply list_elem_of_fmap_2|]. rewrite Heq. by left. }
    case_decide; [by apply IH|]. rewrite lookup_insert_ne by done. by apply IH.
  - subst. rewrite decide_False by done. by rewrite lookup_insert_eq.
Qed.

(** End to end, a resolved secret does not reach the display: if the declarations of a
    pipeline pass validation and resolve, then after redaction with the values that
    [PlaintextValues] hands to the runner - in whatever order the map yields them - no vertex
    error, log chunk or warning of a status update contains the value of any of the
    resolved secrets, unless the value is empty or has an asterisk. *)
Theorem resolved_secrets_redacted scope decls out values s st e
  (Hok : validateSecretDecls scope decls = Ok tt) (Hres : Resolve h decls = Ok out)
  (Hvals : values ≡ₚ (map_to_list (PlaintextValues out)).*2)
  (Hs : s ∈ out) (Hmask : maskable (Value s)) (He : e ∈ messages (redactStatus st values)) :
  ~ contains e (Value s).
Proof.
  assert (Value s ∈ values) as Hv.
  { rewrite Hvals. apply list_elem_of_fmap. exists (Name s, Value s). split; [done|]. apply elem_of_map_to_list.
    apply PlaintextValues_lookup; [|done|apply Hmask]. rewrite (Resolve_names _ _ Hres). by apply validateSecretDecls_Ok in Hok as [_ ?]. }
  destruct (redactStatus_messages st values e) as [->|(t & _ & ->)]; [by intros ->%nil_length_inv; apply elem_of_nil in Hv|done| |].
  - intros Hc%contains_nil. by destruct Hmask.
  - apply redactString_removes; [apply sorted_nonempty| |done]. apply sorted_secrets. split; [done|apply Hmask].
Qed.

(** An error names the first declaration that does not resolve, as a secret resolution
    error around its cause. *)
Lemma Resolve_error decls e :
  Resolve h decls = Fail e -> exists d e', d ∈ decls /\ resolveOne h d = Fail e' /\
    e = errorf2 [SecretDecl.Name d] (PM ErrSecretResolution) e'.
Proof.
  unfold Resolve. intros (d & Hd & He)%forM_Fail. exists d.
  destruct (resolveOne h d) as [v|e'] eqn:Hr; [discriminate|]. injection He as <-. by exists e'.
Qed.

(** *** Branch and tag *)

(** A run is on a tag or on a branch, not on both, as far as GITHUB_REF_NAME goes. *)
Lemma ref_is_branch_or_tag ref :
  env_value h "GITHUB_HEAD_REF" = None -> env_value h "GITHUB_REF_NAME" = Some ref ->
  if decide (Getenv h "GITHUB_REF_TYPE" = "tag") then DetectTag h = ref else DetectBranch h = ref.
Proof.
  intros Hh Hr. unfold DetectTag, DetectBranch. rewrite Hh, Hr. cbn. case_decide as Ht.
  - by rewrite ?decide_True.
  - by rewrite ?decide_True.
Qed.

(** *** Ignore files *)

(** Patterns are never blank or comments, so an empty list excludes nothing. *)
Lemma readPatternFile_patterns path patterns :
  readPatternFile h path = Ok patterns -> Forall (fun p => p <> "" /\ HasPrefix p "#" = false) patterns.
Proof.
  unfold readPatternFile. intros (f & _ & H)%bind_Ok. destruct (scan _) as [lines err].
  destruct (match err with Some _ => _ | None => _ end); [discriminate|]. injection H as <-.
  apply Forall_forall. intros p (l & _ & Hl)%list_elem_of_omap. unfold pattern_line in Hl. case_decide as Hc; [done|].
  injection Hl as <-. destruct (HasPrefix (TrimSpace l) "#"); [|split]; naive_solver.
Qed.
End host_props.

Definition ex_host : host :=
  Host (fun n => if decide (n = "DEPLOY_TOKEN") then Some "hunter2" else None)
    (fun _ => fail_with [] errNotExist) (Ok "/root") (fun _ => CmdOk ("s3cr3t" +:+ String "010" EmptyString))
    (fun _ => Ok "main").
Definition ex_decls : list SecretDecl.t :=
  [SecretDecl.mk "token" SecretSourceHostEnv "DEPLOY_TOKEN" "" ""; SecretDecl.mk "key" SecretSourceCmd "" "" "vault read key"].
Definition ex_out : list ResolvedSecret := [Resolved "token" "hunter2"; Resolved "key" "s3cr3t"].

Lemma resolved_secrets_redacted_witness :
  messages (redactStatus (SolveStatus.mk [] [VertexLog.mk "v" "login hunter2"] []) ["s3cr3t"; "hunter2"]) = ["login ***"] /\
  ~ contains "login ***" "hunter2".
Proof.
  split; [vm_compute; reflexivity|].
  refine (resolved_secrets_redacted ex_host "pipeline" ex_decls ex_out ["s3cr3t"; "hunter2"] (Resolved "token" "hunter2")
    (SolveStatus.mk [] [VertexLog.mk "v" "login hunter2"] []) "login ***" _ _ _ _ _ _).
  - vm_compute. reflexivity.
  - vm_compute. reflexivity.
  - apply (bool_decide_unpack _). vm_compute. exact I.
  - left.
  - split; [discriminate|]. apply (bool_decide_unpack _). vm_compute. exact I.
  - vm_compute. left.
Defined.
