(* ===== verification/FileSync.v ===== *)
(** * File sync with a hash cache (filesync/cache.go, filesync/hashfs.go)

    [hashFS] wraps the file system BuildKit reads the context from: it passes every entry of
    a walk on, remembers a content hash per regular file and reports counters.  The
    JSON codec and SHA-256 are parameters; the disk is a map from paths to contents, and
    [Save] yields every state the disk goes through, so that a crash can be put anywhere. *)

From S2P Require Import Prelude Errors GoStrings Regex Conditional Model Paths Progress.

(** ** The cache *)

Module cacheEntry.
Record t := mk { Size : Z; ModTime : Z; Hash : string }.
End cacheEntry.

Module HashCache.
Record t := mk { entries : gmap string cacheEntry.t; path : string }.
#[global] Instance settable : Settable t := fun r => mk (entries r) (path r).
End HashCache.

(** [cacheFile]; [Entries] is nil when the JSON has none. *)
Record cacheFile : Type := CacheFile { Version : Z; Entries : option (gmap string cacheEntry.t) }.

Definition cacheVersion : Z := 1.

Definition NewHashCache (filePath : string) : HashCache.t := HashCache.mk ∅ filePath.

Definition ErrCacheCorrupt : sentinel := Foreign "hash cache corrupt".

Definition Lookup (c : HashCache.t) (path : string) (mtime size : Z) : option string :=
  match HashCache.entries c !! path with
  | Some e =>
      if decide (cacheEntry.ModTime e <> mtime \/ cacheEntry.Size e <> size) then None else Some (cacheEntry.Hash e)
  | None => None
  end.

Definition Update (c : HashCache.t) (path : string) (mtime size : Z) (hash : string) : HashCache.t :=
  c <| HashCache.entries ::= <[path := cacheEntry.mk size mtime hash]> |>.

Definition Prune (c : HashCache.t) (seen : gset string) : HashCache.t :=
  c <| HashCache.entries ::= filter (fun p => p.1 ∈ seen) |>.

(** ** The disk *)

Abbreviation disk := (gmap string string).

(** What the system calls of one [Save] do: an error per call, the name of the temporary
    file, and how many bytes a failing write leaves behind. *)
Record save_env : Type := SaveEnv {
  MkdirAll : option error;
  CreateTemp : result string;
  Write : option (nat * error);
  Sync : option error;
  Close : option error;
  Rename : option error;
  Remove : bool
}.

(** ** Counters *)

Module syncMetrics.
Record t := mk { filesWalked : Z; filesHashed : Z; cacheHits : Z }.
#[global] Instance settable : Settable t := fun r => mk (filesWalked r) (filesHashed r) (cacheHits r).
End syncMetrics.

Section filesync.
Variable Unmarshal : string -> result cacheFile.
Variable Marshal : cacheFile -> string.
Variable sha256 : string -> string.

(** [Load]: a missing file is a cold start; [read] is the outcome of [os.ReadFile] on an
    existing file. *)
Definition Load (d : disk) (read : string -> result string) (c : HashCache.t) : HashCache.t * option error :=
  let path := HashCache.path c in
  match d !! path with
  | None => (c, None)
  | Some raw =>
      match read raw with
      | Fail e => (c, Some (errorf [path] e))
      | Ok data =>
          match Unmarshal data with
          | Fail e => (c, Some (errorf2 [] ErrCacheCorrupt e))
          | Ok f =>
              if decide (Version f <> cacheVersion) then (c, Some (raise ErrCacheCorrupt)) else
              (c <| HashCache.entries := default ∅ (Entries f) |>, None)
          end
      end
  end.

(** Every disk state after the current one, and the result. *)
Definition remove_tmp (env : save_env) (tmp : string) (d : disk) : disk :=
  if Remove env then delete tmp d else d.

Definition Save (env : save_env) (c : HashCache.t) (d : disk) : list disk * option error :=
  let data := Marshal (CacheFile cacheVersion (Some (HashCache.entries c))) in
  let dir := Dir (HashCache.path c) in
  match MkdirAll env with
  | Some e => ([], Some (errorf [dir] e))
  | None =>
  match CreateTemp env with
  | Fail e => ([], Some (errorf [] e))
  | Ok tmp =>
  let d1 := <[tmp := ""]> d in
  match Write env with
  | Some (n, e) => let d2 := <[tmp := str_take n data]> d in ([d1; d2; remove_tmp env tmp d2], Some (errorf [] e))
  | None =>
  let d2 := <[tmp := data]> d in
  match Sync env with
  | Some e => ([d1; d2; remove_tmp env tmp d2], Some (errorf [] e))
  | None =>
  match Close env with
  | Some e => ([d1; d2; remove_tmp env tmp d2], Some (errorf [] e))
  | None =>
  match Rename env with
  | Some e => ([d1; d2; remove_tmp env tmp d2], Some (errorf [] e))
  | None => ([d1; d2; <[HashCache.path c := data]> (delete tmp d2)], None)
  end end end end end end.

(** The disk when [Save] has returned. *)
Definition after_save (env : save_env) (c : HashCache.t) (d : disk) : disk := default d (last (Save env c d).1).

(** ** The walk *)

(** The metadata of an entry: [d.Info()] fails, is not a [*types.Stat], or has the
    modification time and size. *)
Record dirEntry : Type := DirEntry { regular : bool; Info : result (option (Z * Z)) }.

(** One call of the walk function. *)
Record walk_entry : Type := WalkEntry { w_path : string; w_entry : option dirEntry; w_err : option error }.

(** The inner file system: the entries a walk of a target visits as long as its function
    returns nil, the error it ends with, and the contents of files. *)
Record innerFS : Type := InnerFS { tree : string -> list walk_entry * option error; OpenRead : string -> result string }.

(** [hashFS.Open] delegates. *)
Definition hashFS_Open (fs : innerFS) (p : string) : result string := map_err (errorf [p]) (OpenRead fs p).

(** A walk stops at the first error its function returns. *)
Fixpoint walk_entries {S} (fn : walk_entry -> S -> option error * S) (es : list walk_entry) (s : S)
    : option error * S :=
  match es with
  | [] => (None, s)
  | e :: es' =>
      match fn e s with
      | (Some err, s) => (Some err, s)
      | (None, s) => walk_entries fn es' s
      end
  end.

Definition inner_Walk {S} (fs : innerFS) (target : string) (fn : walk_entry -> S -> option error * S) (s : S)
    : option error * S :=
  let '(es, end_err) := tree fs target in
  match walk_entries fn es s with
  | (Some err, s) => (Some err, s)
  | (None, s) => (end_err, s)
  end.

(** What the closure of [Walk] updates. *)
Record walk_state (F : Type) : Type := WalkState {
  fn_state : F;
  cache : option HashCache.t;
  metrics : syncMetrics.t;
  seen : gset string
}.
Arguments WalkState {F}. Arguments fn_state {F}. Arguments cache {F}. Arguments metrics {F}. Arguments seen {F}.

(** [hashEntry] on the cache and the counters; [computeSHA256] fails when the reader does,
    which is part of [OpenRead]. *)
Definition hashEntry (fs : innerFS) (path : string) (d : dirEntry) (c : HashCache.t) (m : syncMetrics.t)
    : HashCache.t * syncMetrics.t :=
  match Info d with
  | Ok (Some (mtime, size)) =>
      match Lookup c path mtime size with
      | Some _ => (c, m <| syncMetrics.cacheHits ::= Z.succ |>)
      | None =>
          match OpenRead fs path with
          | Fail _ => (c, m)
          | Ok content => (Update c path mtime size (sha256 content), m <| syncMetrics.filesHashed ::= Z.succ |>)
          end
      end
  | _ => (c, m)
  end.

Section walk.
Context {F : Type} (fs : innerFS) (fn : walk_entry -> F -> option error * F).

(** The function [Walk] passes to the inner file system. *)
Definition walk_fn (e : walk_entry) (s : walk_state F) : option error * walk_state F :=
  match fn e (fn_state s) with
  | (Some err, f) => (Some err, WalkState f (cache s) (metrics s) (seen s))
  | (None, f) =>
      match w_err e, w_entry e with
      | None, Some d =>
          if regular d then
            let m := metrics s <| syncMetrics.filesWalked ::= Z.succ |> in
            let seen := {[ w_path e ]} ∪ seen s in
            match cache s with
            | None => (None, WalkState f None m seen)
            | Some c => let '(c, m) := hashEntry fs (w_path e) d c m in (None, WalkState f (Some c) m seen)
            end
          else (None, WalkState f (cache s) (metrics s) (seen s))
      | _, _ => (None, WalkState f (cache s) (metrics s) (seen s))
      end
  end.

(** [Walk]: the error, the state of the caller's function, the cache, the disk and the
    [SyncMsg] it sends, if any.  Errors of [Load] and [Save] are only logged. *)
Definition Walk (env : save_env) (read : string -> result string) (has_sender : bool) (target : string)
    (c : option HashCache.t) (d : disk) (f : F) : option error * F * option HashCache.t * disk * option msg :=
  let c := (fun c => (Load d read c).1) <$> c in
  let '(err, s) := inner_Walk fs target walk_fn (WalkState f c (syncMetrics.mk 0 0 0) ∅) in
  let c := match err with None => (fun c => Prune c (seen s)) <$> cache s | Some _ => cache s end in
  let d := match c with Some c => after_save env c d | None => d end in
  let sync := match err with
              | None => if has_sender then Some (SyncMsg (syncMetrics.filesWalked (metrics s))
                                                  (syncMetrics.filesHashed (metrics s)) (syncMetrics.cacheHits (metrics s)))
                        else None
              | Some _ => None
              end in
  (err, fn_state s, c, d, sync).
End walk.

(** ** Saving *)

(** A disk on which the saved cache is either the old one or complete, and nothing but the
    temporary file has changed. *)
Definition intact (c : HashCache.t) (tmp : string) (d d' : disk) : Prop :=
  (d' !! HashCache.path c = d !! HashCache.path c \/
   d' !! HashCache.path c = Some (Marshal (CacheFile cacheVersion (Some (HashCache.entries c))))) /\
  (forall p, p <> HashCache.path c -> p <> tmp -> d' !! p = d !! p).

Lemma intact_tmp c tmp d data : tmp <> HashCache.path c -> intact c tmp d (<[tmp := data]> d).
Proof. intros Hne. split; [left; by rewrite lookup_insert_ne|]. intros p _ Hp. by rewrite lookup_insert_ne. Qed.

Lemma intact_remove env c tmp d data : tmp <> HashCache.path c -> intact c tmp d (remove_tmp env tmp (<[tmp := data]> d)).
Proof.
  intros Hne. unfold remove_tmp. destruct (Remove env); [|by apply intact_tmp]. rewrite delete_insert_eq.
  split; [left; by rewrite lookup_delete_ne|]. intros p _ Hp. by rewrite lookup_delete_ne.
Qed.

Lemma intact_rename c tmp d data :
  data = Marshal (CacheFile cacheVersion (Some (HashCache.entries c))) ->
  intact c tmp d (<[HashCache.path c := data]> (delete tmp (<[tmp := data]> d))).
Proof.
  intros ->. split; [right; by rewrite lookup_insert_eq|].
  intros p Hp Ht. by rewrite lookup_insert_ne, lookup_delete_ne, lookup_insert_ne by done.
Qed.

(** C38: Saving the hash cache is atomic: whichever system call fails, and whenever the
    process dies in between, the cache file holds either its old contents or the complete
    new cache, and no other file but the temporary one has changed; after a successful save
    the new cache is there and the temporary file is gone, after a failed one the old
    contents are, and the temporary file is gone if it could be removed. *)
Theorem Save_atomic env c d tmp
  (Htmp : CreateTemp env = Ok tmp) (Hne : tmp <> HashCache.path c) (Hnew : d !! tmp = None) :
  Forall (intact c tmp d) (Save env c d).1 /\
  match (Save env c d).2 with
  | None => after_save env c d = <[HashCache.path c := Marshal (CacheFile cacheVersion (Some (HashCache.entries c)))]> d
  | Some _ => Remove env = true -> after_save env c d = d
  end.
Proof.
  unfold after_save, Save. rewrite Htmp. destruct (MkdirAll env); [done|].
  destruct (Write env) as [[n e]|]; [|destruct (Sync env) as [e|]; [|destruct (Close env) as [e|]; [|destruct (Rename env) as [e|]]]];
    cbn; (split; [repeat apply Forall_cons_2; auto using Forall_nil_2, intact_tmp, intact_remove, intact_rename|]);
    try (intros Hr; unfold remove_tmp; rewrite Hr, delete_insert_eq; by apply delete_id).
  rewrite delete_insert_eq. by rewrite delete_id.
Qed.

Lemma Save_success env c d tmp :
  CreateTemp env = Ok tmp -> d !! tmp = None -> (Save env c d).2 = None ->
  after_save env c d = <[HashCache.path c := Marshal (CacheFile cacheVersion (Some (HashCache.entries c)))]> d.
Proof.
  unfold after_save, Save. intros -> Hnew. destruct (MkdirAll env); [done|]. destruct (Write env) as [[n e]|]; [done|].
  destruct (Sync env); [done|]. destruct (Close env); [done|]. destruct (Rename env); [done|]. intros _. cbn.
  by rewrite delete_insert_eq, delete_id.
Qed.

Lemma Load_path d read c : HashCache.path (Load d read c).1 = HashCache.path c.
Proof.
  unfold Load. destruct (d !! _) as [raw|]; [|done]. destruct (read raw) as [data|]; [|done].
  destruct (Unmarshal data); [|done]. by case_decide.
Qed.

(** Loading what was saved. *)
Lemma Load_saved read c0 raw d f :
  d !! HashCache.path c0 = Some raw -> read raw = Ok raw -> Unmarshal raw = Ok f -> Version f = cacheVersion ->
  Load d read c0 = (c0 <| HashCache.entries := default ∅ (Entries f) |>, None).
Proof. intros Hd Hr Hu Hv. unfold Load. by rewrite Hd, Hr, Hu, decide_False by (by intros []). Qed.

(** ** Walking *)

Section walk_props.
Context {F : Type} (fs : innerFS) (fn : walk_entry -> F -> option error * F).

Lemma walk_fn_transparent e s :
  (walk_fn fs fn e s).1 = (fn e (fn_state s)).1 /\ fn_state (walk_fn fs fn e s).2 = (fn e (fn_state s)).2.
Proof.
  unfold walk_fn. destruct (fn e (fn_state s)) as [[err|] f]; [done|].
  destruct (w_err e), (w_entry e) as [d|]; try done. destruct (regular d), (cache s); try done.
  by destruct (hashEntry _ _ _ _ _).
Qed.

Lemma walk_entries_transparent es s :
  (walk_entries (walk_fn fs fn) es s).1 = (walk_entries fn es (fn_state s)).1 /\
  fn_state (walk_entries (walk_fn fs fn) es s).2 = (walk_entries fn es (fn_state s)).2.
Proof.
  revert s. induction es as [|e es IH]; intros s; [done|]. cbn. pose proof (walk_fn_transparent e s) as [He Hf].
  destruct (walk_fn fs fn e s) as [[err|] s1], (fn e (fn_state s)) as [[err'|] f1]; cbn in *; simplify_eq; [done|]. apply IH.
Qed.

(** The wrapper is transparent to BuildKit: whatever the cache, the disk and the reader
    do, [Walk] calls the given function on the same entries in the same order and returns
    the same error as a walk of the wrapped file system. *)
Theorem Walk_transparent env read has_sender target c d f :
  let '(err, f', _, _, _) := Walk fs fn env read has_sender target c d f in
  (err, f') = inner_Walk fs target fn f.
Proof.
  unfold Walk, inner_Walk. destruct (tree fs target) as [es end_err].
  pose proof (walk_entries_transparent es (WalkState f ((fun c => (Load d read c).1) <$> c) (syncMetrics.mk 0 0 0) ∅)) as [He Hf].
  cbn in He, Hf. destruct (walk_entries (walk_fn fs fn) es _) as [err s], (walk_entries fn es f) as [err' f'].
  cbn in *. subst. by destruct err'.
Qed.

(** *** What a walk leaves in the cache *)

(** The regular files among the visited entries, with their metadata. *)
Definition regular_file (e : walk_entry) (mtime size : Z) : Prop :=
  w_err e = None /\ exists d, w_entry e = Some d /\ regular d = true /\ Info d = Ok (Some (mtime, size)).

Lemma Lookup_Some c p mtime size h :
  Lookup c p mtime size = Some h <-> HashCache.entries c !! p = Some (cacheEntry.mk size mtime h).
Proof.
  unfold Lookup. destruct (HashCache.entries c !! p) as [[sz mt h']|]; [|done]. cbn. case_decide as Hd.
  - split; [done|]. intros [= -> -> ->]. by destruct Hd.
  - split; [|by intros [= _ _ ->]]. intros [= ->]. repeat f_equal; apply dec_stable; tauto.
Qed.

Lemma Update_Lookup c p mtime size h : Lookup (Update c p mtime size h) p mtime size = Some h.
Proof. apply Lookup_Some. cbn. by rewrite lookup_insert_eq. Qed.

Lemma hashEntry_spec p d c m :
  let '(c', m') := hashEntry fs p d c m in
  HashCache.path c' = HashCache.path c /\ (forall q, q <> p -> HashCache.entries c' !! q = HashCache.entries c !! q) /\
  syncMetrics.filesWalked m' = syncMetrics.filesWalked m.
Proof.
  unfold hashEntry. destruct (Info d) as [[[mt sz]|]|]; try done. destruct (Lookup c p mt sz); [done|].
  destruct (OpenRead fs p); [|done]. cbn. split_and!; try done. intros q Hq. by rewrite lookup_insert_ne.
Qed.

(** *** Seen files *)

Definition regular_path (e : walk_entry) : Prop :=
  w_err e = None /\ exists d, w_entry e = Some d /\ regular d = true.

Lemma walk_fn_seen e s :
  seen (walk_fn fs fn e s).2 ⊆ {[ w_path e ]} ∪ seen s /\
  (forall p, p ∈ seen (walk_fn fs fn e s).2 -> p ∈ seen s \/ p = w_path e /\ regular_path e).
Proof.
  unfold walk_fn. destruct (fn e (fn_state s)) as [[err|] f]; cbn; [set_solver|].
  destruct (w_err e) eqn:He, (w_entry e) as [d|] eqn:Hd; cbn; try (set_solver). destruct (regular d) eqn:Hr; cbn; [|set_solver].
  assert (regular_path e) as Hp by (split; [done|]; by exists d).
  destruct (cache s); [destruct (hashEntry _ _ _ _ _)|]; cbn; (split; [done|]; intros p [->%elem_of_singleton|?]%elem_of_union; auto).
Qed.

Lemma walk_entries_seen es s p :
  p ∈ seen (walk_entries (walk_fn fs fn) es s).2 -> p ∈ seen s \/ exists e, e ∈ es /\ w_path e = p /\ regular_path e.
Proof.
  revert s. induction es as [|e es IH]; intros s; [by left|]. cbn. pose proof (proj2 (walk_fn_seen e s) p) as Hp.
  destruct (walk_fn fs fn e s) as [[err|] s1]; cbn in *.
  - intros Hs. destruct (Hp Hs) as [|[-> Hr]]; [by left|]. right. exists e. set_solver.
  - intros [Hs|(e' & He' & Heq & Hr)]%IH.
    + destruct (Hp Hs) as [|[-> Hr]]; [by left|]. right. exists e. set_solver.
    + right. exists e'. set_solver.
Qed.

(** *** Walking twice *)

Definition readable (es : list walk_entry) : Prop :=
  Forall (fun e => regular_path e -> exists mtime size data, regular_file e mtime size /\ OpenRead fs (w_path e) = Ok data) es.

Definition all_cached (es : list walk_entry) (c : HashCache.t) : Prop :=
  Forall (fun e => regular_path e -> exists mtime size h, regular_file e mtime size /\ Lookup c (w_path e) mtime size = Some h) es.

Lemma regular_file_Info e d mtime size : regular_file e mtime size -> w_entry e = Some d -> Info d = Ok (Some (mtime, size)).
Proof. intros (_ & d' & Hd & _ & Hi) Hd'. congruence. Qed.

(** One entry that the function accepts, with a cache. *)
Lemma walk_fn_cached e s c s' :
  walk_fn fs fn e s = (None, s') -> cache s = Some c ->
  (regular_path e /\ exists d, w_entry e = Some d /\
     let '(c', m') := hashEntry fs (w_path e) d c (metrics s <| syncMetrics.filesWalked ::= Z.succ |>) in
     cache s' = Some c' /\ metrics s' = m' /\ seen s' = {[ w_path e ]} ∪ seen s) \/
  (~ regular_path e /\ cache s' = Some c /\ metrics s' = metrics s /\ seen s' = seen s).
Proof.
  unfold walk_fn, regular_path. destruct (fn e (fn_state s)) as [[err|] f]; [done|]. intros Hw Hc. rewrite Hc in Hw.
  destruct (w_err e) eqn:He.
  - right. injection Hw as <-. cbn. split_and!; try done. by intros [? _].
  - destruct (w_entry e) as [d|] eqn:Hd.
    + destruct (regular d) eqn:Hr.
      * left. split; [split; [done|by exists d]|]. exists d. split; [done|]. destruct (hashEntry _ _ _ _ _). by injection Hw as <-.
      * right. injection Hw as <-. cbn. split_and!; try done. intros (_ & d' & [= <-] & Hr'). congruence.
    + right. injection Hw as <-. cbn. split_and!; try done. by intros (_ & d' & ? & _).
Qed.

Lemma hashEntry_fills p d c m mtime size data :
  Info d = Ok (Some (mtime, size)) -> OpenRead fs p = Ok data ->
  exists h, Lookup (hashEntry fs p d c m).1 p mtime size = Some h.
Proof.
  intros Hi Ho. unfold hashEntry. rewrite Hi. destruct (Lookup c p mtime size) as [h|] eqn:Hl; [by exists h|].
  rewrite Ho. cbn. eexists. apply Update_Lookup.
Qed.

Lemma walk_fills es s c s' :
  readable es -> NoDup (w_path <$> es) -> walk_entries (walk_fn fs fn) es s = (None, s') -> cache s = Some c ->
  exists c', cache s' = Some c' /\ HashCache.path c' = HashCache.path c /\ all_cached es c' /\ seen s ⊆ seen s' /\
    (forall p, p ∉ w_path <$> es -> HashCache.entries c' !! p = HashCache.entries c !! p) /\
    (forall e, e ∈ es -> regular_path e -> w_path e ∈ seen s').
Proof.
  intros Hr. revert s c. induction Hr as [|e es He Hes IH]; intros s c Hnd Hw Hc.
  - injection Hw as <-. exists c. split_and!; try done; [constructor|]. set_solver.
  - cbn in Hw, Hnd. apply NoDup_cons in Hnd as [Hni Hnd]. destruct (walk_fn fs fn e s) as [[err|] s1] eqn:H1; [done|].
    pose proof (walk_fn_cached e s c s1 H1 Hc) as Hstep.
    assert (exists c1, cache s1 = Some c1 /\ HashCache.path c1 = HashCache.path c /\ seen s ⊆ seen s1 /\
      (forall p, p <> w_path e -> HashCache.entries c1 !! p = HashCache.entries c !! p) /\
      (regular_path e -> w_path e ∈ seen s1 /\
         exists mtime size h, regular_file e mtime size /\ Lookup c1 (w_path e) mtime size = Some h)) as (c1 & Hc1 & Hp1 & Hs1 & Ho1 & Hreg1).
    { destruct Hstep as [(Hreg & d & Hd & Hh)|(Hn & -> & _ & ->)]; [|by exists c].
      destruct (He Hreg) as (mt & sz & data & Hf & Hopen). pose proof (regular_file_Info e d mt sz Hf Hd) as Hi.
      pose proof (hashEntry_spec (w_path e) d c (metrics s <| syncMetrics.filesWalked ::= Z.succ |>)) as Hspec.
      pose proof (hashEntry_fills (w_path e) d c (metrics s <| syncMetrics.filesWalked ::= Z.succ |>) mt sz data Hi Hopen) as [h Hfill].
      destruct (hashEntry _ _ _ _ _) as [c1 m1]. destruct Hh as (-> & _ & ->). destruct Hspec as (Hp & Ho & _).
      exists c1. split_and!; try done; [set_solver|]. intros _. split; [set_solver|]. by exists mt, sz, h. }
    destruct (IH s1 c1 Hnd Hw Hc1) as (c' & Hc' & Hp' & Hall & Hs' & Ho' & Hin'). exists c'. split_and!; try done.
    + congruence.
    + constructor; [|done]. intros Hreg. destruct (Hreg1 Hreg) as (_ & mt & sz & h & Hf & Hl). exists mt, sz, h.
      split; [done|]. apply Lookup_Some. rewrite Ho' by done. by apply Lookup_Some.
    + by etrans.
    + intros p [Hpe Hpes]%not_elem_of_cons. rewrite Ho' by done. by apply Ho1.
    + intros e' [->|He']%elem_of_cons Hreg; [|by apply Hin']. apply Hs'. by apply Hreg1.
Qed.

Lemma walk_hits es s c s' r :
  all_cached es c -> walk_entries (walk_fn fs fn) es s = (r, s') -> cache s = Some c ->
  syncMetrics.filesHashed (metrics s') = syncMetrics.filesHashed (metrics s) /\
  (syncMetrics.cacheHits (metrics s') - syncMetrics.cacheHits (metrics s) =
   syncMetrics.filesWalked (metrics s') - syncMetrics.filesWalked (metrics s))%Z.
Proof.
  intros Hall. revert s. induction Hall as [|e es He Hes IH]; intros s Hw Hc.
  - injection Hw as _ <-. split; [done|lia].
  - cbn in Hw. destruct (walk_fn fs fn e s) as [[err|] s1] eqn:H1.
    + injection Hw as _ <-. unfold walk_fn in H1. destruct (fn e (fn_state s)) as [[err'|] f].
      * injection H1 as _ <-. cbn. split; [done|lia].
      * destruct (w_err e), (w_entry e) as [d|]; try done. destruct (regular d), (cache s); try done. by destruct (hashEntry _ _ _ _ _).
    + destruct (walk_fn_cached e s c s1 H1 Hc) as [(Hreg & d & Hd & Hh)|(Hn & Hc1 & Hm1 & _)].
      * destruct (He Hreg) as (mt & sz & h & Hf & Hl). unfold hashEntry in Hh.
        rewrite (regular_file_Info e d mt sz Hf Hd), Hl in Hh. destruct Hh as (Hc1 & Hm1 & _).
        destruct (IH s1 Hw Hc1) as [-> Hhits]. rewrite Hm1 in *. cbn in *. split; [done|lia].
      * rewrite <- Hm1. by apply IH.
Qed.
End walk_props.

Section origins.
Context {F : Type} (fs : innerFS) (fn : walk_entry -> F -> option error * F).

(** What a cache answers once it has been asked for a file of the given metadata: what it
    knew for them, or else the hash of what was read. *)
Definition answer (c : HashCache.t) (p : string) (mtime size : Z) : option string :=
  match Lookup c p mtime size with
  | Some h => Some h
  | None => match OpenRead fs p with Ok data => Some (sha256 data) | Fail _ => None end
  end.

(** Where an entry comes from: it was loaded, or it is the hash of what was read from its
    path, under the metadata with which the walk reported the path. *)
Definition origin (c0 : HashCache.t) (es : list walk_entry) (p : string) (e : cacheEntry.t) : Prop :=
  HashCache.entries c0 !! p = Some e \/
  exists w data, w ∈ es /\ w_path w = p /\ regular_file w (cacheEntry.ModTime e) (cacheEntry.Size e) /\
    OpenRead fs p = Ok data /\ cacheEntry.Hash e = sha256 data.

Definition known (c0 : HashCache.t) (es : list walk_entry) (c : HashCache.t) : Prop :=
  map_Forall (origin c0 es) (HashCache.entries c).

Lemma hashEntry_answer p d c m mtime size :
  Info d = Ok (Some (mtime, size)) -> Lookup (hashEntry fs p d c m).1 p mtime size = answer c p mtime size.
Proof.
  intros Hi. unfold hashEntry, answer. rewrite Hi. destruct (Lookup c p mtime size) as [h|] eqn:Hl; [done|].
  destruct (OpenRead fs p); [|done]. apply Update_Lookup.
Qed.

Lemma walk_fn_known c0 es w s :
  w ∈ es -> (forall c, cache s = Some c -> known c0 es c) -> forall c, cache (walk_fn fs fn w s).2 = Some c -> known c0 es c.
Proof.
  intros Hw Hk c. unfold walk_fn. destruct (fn w (fn_state s)) as [[err|] f]; cbn; [apply Hk|].
  destruct (w_err w) eqn:Herr, (w_entry w) as [d|] eqn:Hd; cbn; try apply Hk. destruct (regular d) eqn:Hreg; cbn; [|apply Hk].
  destruct (cache s) as [c1|] eqn:Hc; [|done]. specialize (Hk c1 eq_refl). unfold hashEntry.
  destruct (Info d) as [[[mt sz]|]|] eqn:Hi; cbn; try (by intros [= <-]).
  destruct (Lookup c1 (w_path w) mt sz); cbn; [by intros [= <-]|]. destruct (OpenRead fs (w_path w)) as [data|] eqn:Ho; cbn; [|by intros [= <-]].
  intros [= <-]. apply map_Forall_insert_2; [|done]. right. exists w, data. split_and!; try done. split; [done|]. by exists d.
Qed.

Lemma walk_entries_known c0 all es s :
  (forall w, w ∈ es -> w ∈ all) -> (forall c, cache s = Some c -> known c0 all c) ->
  forall c, cache (walk_entries (walk_fn fs fn) es s).2 = Some c -> known c0 all c.
Proof.
  revert s. induction es as [|w es IH]; intros s Hin Hk; [done|]. cbn.
  pose proof (walk_fn_known c0 all w s (Hin w (list_elem_of_here _ _)) Hk) as Hk1.
  destruct (walk_fn fs fn w s) as [[err|] s1]; cbn in *; [done|]. apply IH; [|done]. intros w' Hw'. apply Hin. by right.
Qed.

(** Every file is answered from the cache as the walk found it, if no path comes twice. *)
Lemma walk_answers es s c s' :
  NoDup (w_path <$> es) -> walk_entries (walk_fn fs fn) es s = (None, s') -> cache s = Some c ->
  exists c', cache s' = Some c' /\ seen s ⊆ seen s' /\
    (forall p, p ∉ w_path <$> es -> HashCache.entries c' !! p = HashCache.entries c !! p) /\
    (forall w mtime size, w ∈ es -> regular_file w mtime size ->
       w_path w ∈ seen s' /\ Lookup c' (w_path w) mtime size = answer c (w_path w) mtime size).
Proof.
  revert s c. induction es as [|w es IH]; intros s c Hnd Hw Hc.
  - injection Hw as <-. exists c. split_and!; try done. by intros w mt sz ?%elem_of_nil.
  - cbn in Hw, Hnd. apply NoDup_cons in Hnd as [Hni Hnd]. destruct (walk_fn fs fn w s) as [[err|] s1] eqn:H1; [done|].
    assert (exists c1, cache s1 = Some c1 /\ seen s ⊆ seen s1 /\
      (forall p, p <> w_path w -> HashCache.entries c1 !! p = HashCache.entries c !! p) /\
      (forall mt sz, regular_file w mt sz -> w_path w ∈ seen s1 /\ Lookup c1 (w_path w) mt sz = answer c (w_path w) mt sz))
      as (c1 & Hc1 & Hs1 & Ho1 & Ha1).
    { destruct (walk_fn_cached fs fn w s c s1 H1 Hc) as [(Hreg & d & Hd & Hh)|(Hn & Hc1 & _ & Hs)].
      - pose proof (hashEntry_spec fs (w_path w) d c (metrics s <| syncMetrics.filesWalked ::= Z.succ |>)) as Hspec.
        pose proof (fun mt sz => hashEntry_answer (w_path w) d c (metrics s <| syncMetrics.filesWalked ::= Z.succ |>) mt sz) as Hans.
        destruct (hashEntry _ _ _ _ _) as [c1 m1]. destruct Hh as (Hc1 & _ & Hs). destruct Hspec as (_ & Ho & _).
        exists c1. split_and!; [done|rewrite Hs; set_solver|done|]. intros mt sz Hf. split; [rewrite Hs; set_solver|].
        by apply Hans, (regular_file_Info w).
      - exists c. split_and!; [done|by rewrite Hs|done|]. intros mt sz (He & d & Hd & Hr & _). destruct Hn. split; [done|by exists d]. }
    destruct (IH s1 c1 Hnd Hw Hc1) as (c' & Hc' & Hs' & Ho' & Ha'). exists c'. split_and!; [done|by etrans|..].
    + intros p [Hp Hpes]%not_elem_of_cons. rewrite Ho' by done. by apply Ho1.
    + intros w' mt sz [->|Hw']%elem_of_cons Hf.
      * destruct (Ha1 mt sz Hf) as [Hs Ha]. split; [by apply Hs'|]. rewrite <- Ha. unfold Lookup. by rewrite Ho'.
      * destruct (Ha' w' mt sz Hw' Hf) as [Hs Ha]. split; [done|]. rewrite Ha. unfold answer, Lookup. rewrite Ho1; [done|].
        intros Heq. apply Hni. rewrite <- Heq. by apply list_elem_of_fmap_2.
Qed.

End origins.


(** An unchanged tree is hashed once: after a successful walk whose save succeeds, a new
    process that walks the same tree with any function and an empty cache in memory finds
    every regular file in the loaded cache: it computes no hash and reports as many cache
    hits as files, as far as it gets. *)
Theorem Walk_twice {F G} fs (fn : walk_entry -> F -> option error * F) (fn2 : walk_entry -> G -> option error * G)
  env env2 read has_sender target c d f g f' c' d' sync tmp err' g' c2 d2 files hashed cached
  (Hread : readable fs (tree fs target).1) (Hnd : NoDup (w_path <$> (tree fs target).1))
  (Hjson : forall file, Unmarshal (Marshal file) = Ok file) (Hdisk : forall raw, read raw = Ok raw)
  (Htmp : CreateTemp env = Ok tmp) (Hne : tmp <> HashCache.path c) (Hnew : d !! tmp = None)
  (Hwalk : Walk fs fn env read has_sender target (Some c) d f = (None, f', Some c', d', sync))
  (Hsave : (Save env c' d).2 = None)
  (Hwalk2 : Walk fs fn2 env2 read true target (Some (NewHashCache (HashCache.path c))) d' g
            = (err', g', c2, d2, Some (SyncMsg files hashed cached))) :
  hashed = 0%Z /\ cached = files.
Proof.
  unfold Walk, inner_Walk in Hwalk, Hwalk2. destruct (tree fs target) as [es end_err]. cbn in Hread, Hnd.
  destruct (walk_entries (walk_fn fs fn) es _) as [werr s] eqn:Hw in Hwalk.
  destruct werr as [e|]; [by destruct end_err|]. destruct end_err as [e|]; [done|]. cbn in Hwalk.
  destruct (walk_fills fs fn es _ (Load d read c).1 s Hread Hnd Hw eq_refl) as (c1 & Hc1 & Hp1 & Hall & _ & _ & Hin).
  rewrite Hc1 in Hwalk. cbn in Hwalk. injection Hwalk as _ <- <- _.
  rewrite Load_path in Hp1.
  assert (all_cached es (Prune c1 (seen s))) as Hall'.
  { unfold all_cached in Hall. rewrite Forall_forall in Hall. apply Forall_forall. intros e He Hreg.
    destruct (Hall e He Hreg) as (mt & sz & h & Hf & Hl). exists mt, sz, h. split; [done|].
    apply Lookup_Some. apply Lookup_Some in Hl. cbn. apply map_lookup_filter_Some. split; [done|]. cbn. by apply Hin. }
  set (c1' := Prune c1 (seen s)) in *. rewrite (Save_success env c1' d tmp) in Hwalk2 by done.
  assert ((Load (<[HashCache.path c1' := Marshal (CacheFile cacheVersion (Some (HashCache.entries c1')))]> d) read
    (NewHashCache (HashCache.path c))).1 = HashCache.mk (HashCache.entries c1') (HashCache.path c)) as Hload.
  { rewrite (Load_saved read (NewHashCache (HashCache.path c)) (Marshal (CacheFile cacheVersion (Some (HashCache.entries c1')))) _
      (CacheFile cacheVersion (Some (HashCache.entries c1')))); [done| |apply Hdisk|apply Hjson|done].
    cbn. rewrite <- Hp1. by rewrite lookup_insert_eq. }
  cbn [fmap option_fmap option_map] in Hwalk2. rewrite Hload in Hwalk2.
  destruct (walk_entries (walk_fn fs fn2) es _) as [werr s2] eqn:Hw2 in Hwalk2.
  destruct (walk_hits fs fn2 es _ (HashCache.mk (HashCache.entries c1') (HashCache.path c)) s2 werr Hall' Hw2 eq_refl) as [Hh Hc].
  cbn in Hh, Hc. destruct werr as [e|]; [done|]. injection Hwalk2 as _ _ _ _ <- <- <-. split; [done|lia].
Qed.
End filesync.

(** ** Witnesses

    A codec for the examples: the binary numeral of an encoding of the cache file. *)

Fixpoint bits (p : positive) : string :=
  match p with xH => "" | xO p => String "0" (bits p) | xI p => String "1" (bits p) end.
Fixpoint of_bits (s : string) : positive :=
  match s with
  | "" => xH
  | String c s => if decide (c = "1"%char) then xI (of_bits s) else xO (of_bits s)
  end.

Lemma of_bits_bits p : of_bits (bits p) = p.
Proof. induction p as [p IH|p IH|]; cbn; by rewrite ?IH. Qed.

#[export] Instance cacheEntry_eq_dec : EqDecision cacheEntry.t.
Proof. solve_decision. Defined.
#[export] Instance cacheEntry_countable : Countable cacheEntry.t :=
  inj_countable' (fun e => (cacheEntry.Size e, cacheEntry.ModTime e, cacheEntry.Hash e))
    (fun p => cacheEntry.mk p.1.1 p.1.2 p.2) (fun e => match e with cacheEntry.mk _ _ _ => eq_refl end).
#[export] Instance cacheFile_eq_dec : EqDecision cacheFile.
Proof. solve_decision. Defined.
#[export] Instance cacheFile_countable : Countable cacheFile :=
  inj_countable' (fun f => (Version f, Entries f)) (fun p => CacheFile p.1 p.2) (fun f => match f with CacheFile _ _ => eq_refl end).

Definition ex_Marshal (f : cacheFile) : string := bits (encode f).
Definition ex_Unmarshal (s : string) : result cacheFile :=
  match decode (of_bits s) with Some f => Ok f | None => fail_with [] (Foreign "json") end.

Lemma ex_codec f : ex_Unmarshal (ex_Marshal f) = Ok f.
Proof. unfold ex_Unmarshal, ex_Marshal. by rewrite of_bits_bits, decode_encode. Qed.

Definition ex_hash (s : string) : string := "#" +:+ s.
Definition ex_env (rename : option error) : save_env := SaveEnv None (Ok ".tmp") None None None rename true.
Definition ex_fs : innerFS :=
  InnerFS (fun _ => ([WalkEntry "dir" (Some (DirEntry false (Ok (Some (1, 0)%Z)))) None;
                      WalkEntry "dir/a.go" (Some (DirEntry true (Ok (Some (7, 4)%Z)))) None], None))
    (fun p => if decide (p = "dir/a.go") then Ok "main" else fail_with [p] (Foreign "is a directory")).
Definition ex_visit (e : walk_entry) (visited : list string) : option error * list string :=
  (None, visited ++ [w_path e]).
Definition ex_cache : HashCache.t := HashCache.mk {[ "dir/a.go" := cacheEntry.mk 4 7 "#main" ]} "cache.json".
Definition ex_disk : disk := after_save ex_Marshal (ex_env None) ex_cache ∅.

Lemma Save_atomic_witness :
  after_save ex_Marshal (ex_env (Some (raise (Foreign "EIO")))) ex_cache {[ "cache.json" := "old" ]} = {[ "cache.json" := "old" ]}.
Proof.
  destruct (Save_atomic ex_Marshal (ex_env (Some (raise (Foreign "EIO")))) ex_cache {[ "cache.json" := "old" ]} ".tmp")
    as [_ H]; [reflexivity|discriminate|reflexivity|]. exact (H eq_refl).
Defined.

Lemma ex_walk : Walk ex_Unmarshal ex_Marshal ex_hash ex_fs ex_visit (ex_env None) Ok true "." (Some (NewHashCache "cache.json")) ∅ []
  = (None, ["dir"; "dir/a.go"], Some ex_cache, ex_disk, Some (SyncMsg 1 1 0)).
Proof. vm_compute. reflexivity. Qed.

(** The loaded hash of another version of the file is not served. *)
Definition ex_stale : disk := {[ "cache.json" := ex_Marshal (CacheFile cacheVersion (Some {[ "dir/a.go" := cacheEntry.mk 4 6 "#old" ]})) ]}.

Lemma ex_stale_walk : Walk ex_Unmarshal ex_Marshal ex_hash ex_fs ex_visit (ex_env None) Ok true "." (Some (NewHashCache "cache.json")) ex_stale []
  = (None, ["dir"; "dir/a.go"], Some ex_cache, after_save ex_Marshal (ex_env None) ex_cache ex_stale, Some (SyncMsg 1 1 0)).
Proof. vm_compute. reflexivity. Qed.


Lemma ex_readable : readable ex_fs (tree ex_fs ".").1.
Proof.
  repeat constructor.
  - intros (_ & d & [= <-] & Hr). discriminate Hr.
  - intros _. exists 7%Z, 4%Z, "main". split; [|reflexivity]. split; [done|]. by eexists.
Qed.

Lemma Walk_twice_witness :
  Walk ex_Unmarshal ex_Marshal ex_hash ex_fs ex_visit (ex_env None) Ok true "." (Some (NewHashCache "cache.json")) ex_disk []
    = (None, ["dir"; "dir/a.go"], Some ex_cache, ex_disk, Some (SyncMsg 1 0 1)) /\ 0%Z = 0%Z /\ 1%Z = 1%Z.
Proof.
  assert (Walk ex_Unmarshal ex_Marshal ex_hash ex_fs ex_visit (ex_env None) Ok true "." (Some (NewHashCache "cache.json")) ex_disk []
    = (None, ["dir"; "dir/a.go"], Some ex_cache, ex_disk, Some (SyncMsg 1 0 1))) as H2 by (vm_compute; reflexivity).
  split; [exact H2|].
  refine (Walk_twice ex_Unmarshal ex_Marshal ex_hash ex_fs ex_visit ex_visit (ex_env None) (ex_env None) Ok true "."
    (NewHashCache "cache.json") ∅ [] [] _ ex_cache ex_disk _ ".tmp" _ _ _ _ 1 0 1
    ex_readable _ ex_codec _ eq_refl _ eq_refl ex_walk eq_refl H2).
  - apply (bool_decide_unpack _). vm_compute. exact I.
  - reflexivity.
  - discriminate.
Defined.
