(* ===== verification/Daemon.v ===== *)
(** * The BuildKit daemon and its container runtime (internal/runtime, internal/daemon)

    [Manager] drives a container through the [Runtime] interface, which Docker and Podman
    implement by their command line (cliutil.go).  The interface is the record [Runtime] of
    state-passing operations over a world; the clock, the probe of BuildKit and the timer
    are operations of the same world.  What the manager relies on is the class
    [RuntimeLaws]. *)

From S2P Require Import Prelude Errors GoStrings Regex.

(** ** runtime.go *)

Inductive ContainerState : Set := StateRunning | StateExited | StateCreated | StatePaused | StateUnknown.
#[export] Instance ContainerState_eq_dec : EqDecision ContainerState.
Proof. solve_decision. Defined.

(** The string of a state; unknown is the empty one. *)
Definition state_string (s : ContainerState) : string :=
  match s with
  | StateRunning => "running" | StateExited => "exited" | StateCreated => "created" | StatePaused => "paused"
  | StateUnknown => ""
  end.

Definition ErrNoRuntime : sentinel := Foreign "no container runtime available".
Definition ErrContainerNotFound : sentinel := Foreign "container not found".
Definition ErrEmptyImage : sentinel := Foreign "empty image in run config".
Definition ErrInvalidPort : sentinel := Foreign "invalid port binding".
Definition ErrInvalidVolume : sentinel := Foreign "invalid volume mount".
Definition ErrUnknownRuntime : sentinel := Foreign "unknown runtime".
Definition ErrNilFactory : sentinel := Foreign "runtime factory returned nil".

Record PortBinding : Type := Port { HostAddr : string; HostPort : string; ContPort : string }.
Record VolumeMount : Type := Volume { v_Name : string; v_Target : string }.

Record RunConfig : Type := Config {
  c_Name : string;
  c_Image : string;
  c_Privileged : bool;
  c_Ports : list PortBinding;
  c_Volumes : list VolumeMount;
  c_Detach : bool;
  c_Args : list string
}.

(** The interface, over worlds of type [W]; an operation that fails may still have changed
    the world. *)
Record Runtime (W : Type) : Type := MkRuntime {
  rt_Type : string;
  rt_Available : W -> bool;
  rt_Run : RunConfig -> W -> result string * W;
  rt_Start : string -> W -> option error * W;
  rt_Stop : string -> W -> option error * W;
  rt_Remove : string -> W -> option error * W;
  rt_Inspect : string -> W -> result ContainerState * W
}.
Arguments MkRuntime {W}. Arguments rt_Type {W}. Arguments rt_Available {W}. Arguments rt_Run {W}. Arguments rt_Start {W}.
Arguments rt_Stop {W}. Arguments rt_Remove {W}. Arguments rt_Inspect {W}.

(** ** detect.go *)

Section detect.
Context {W : Type}.

(** A factory may return nil; [Named] may be a nil map. *)
Record Resolver : Type := MkResolver {
  Factories : list (option (Runtime W));
  Named : option (gmap string (option (Runtime W)))
}.

Fixpoint first_available (w : W) (fs : list (option (Runtime W))) : result (Runtime W) :=
  match fs with
  | [] => fail_with [] ErrNoRuntime
  | None :: fs' => first_available w fs'
  | Some rt :: fs' => if rt_Available rt w then Ok rt else first_available w fs'
  end.

Definition Detect (r : Resolver) (w : W) : result (Runtime W) := first_available w (Factories r).

Definition Get (r : Resolver) (name : string) (w : W) : result (Runtime W) :=
  let key := ToLower (TrimSpace name) in
  if decide (key = "" \/ key = "auto") then Detect r w else
  match Named r with
  | None => fail_with [name] ErrUnknownRuntime
  | Some named =>
      match named !! key with
      | None => fail_with [name] ErrUnknownRuntime
      | Some None => fail_with [name] ErrNilFactory
      | Some (Some rt) => Ok rt
      end
  end.
End detect.
Arguments Resolver : clear implicits.

(** ** cliutil.go: a runtime by its command line *)

Definition port_args (p : PortBinding) : result (list string) :=
  if decide (HostPort p = "" \/ ContPort p = "") then fail_with [HostAddr p; HostPort p; ContPort p] ErrInvalidPort else
  let portSpec := HostPort p +:+ ":" +:+ ContPort p in
  Ok ["-p"; if decide (HostAddr p = "") then portSpec else HostAddr p +:+ ":" +:+ portSpec].

Definition volume_args (v : VolumeMount) : result (list string) :=
  if decide (v_Name v = "" \/ v_Target v = "") then fail_with [v_Name v; v_Target v] ErrInvalidVolume else
  Ok ["-v"; v_Name v +:+ ":" +:+ v_Target v].

Definition BuildRunArgs (cfg : RunConfig) : result (list string) :=
  ports ← forM port_args (c_Ports cfg);
  volumes ← forM volume_args (c_Volumes cfg);
  Ok (["run"] ++ (if c_Detach cfg then ["-d"] else [])
      ++ (if decide (c_Name cfg = "") then [] else ["--name"; c_Name cfg])
      ++ (if c_Privileged cfg then ["--privileged"] else [])
      ++ concat ports ++ concat volumes ++ [c_Image cfg] ++ c_Args cfg).

(** [strings.Contains]. *)
Fixpoint Contains (s sub : string) : bool :=
  HasPrefix s sub || match s with "" => false | String _ s' => Contains s' sub end.

Definition IsNotFound (output : string) : bool := Contains (ToLower output) "no such".

(** Any complaint with these words counts: a missing socket is taken for a missing container. *)
Lemma missing_socket_not_found :
  IsNotFound "Cannot connect to Podman: dial unix podman.sock: connect: no such file or directory" = true.
Proof. reflexivity. Qed.

Definition ParseState (s : string) : ContainerState :=
  let s := ToLower s in
  if decide (s = "running") then StateRunning
  else if decide (s = "exited") then StateExited
  else if decide (s = "created") then StateCreated
  else if decide (s = "paused") then StatePaused
  else StateUnknown.

(** [ExecFunc]: the output and the error of a command; [status_of] decodes the JSON of
    [inspect] and returns its Status field. *)
Section cli.
Context {W : Type} (Binary : string) (Exec : list string -> W -> (string * option error) * W)
  (status_of : string -> result string) (Available : W -> bool).

Definition cli_Run (cfg : RunConfig) (w : W) : result string * W :=
  if decide (c_Image cfg = "") then (fail_with [] ErrEmptyImage, w) else
  match BuildRunArgs cfg with
  | Fail e => (Fail (errorf [Binary] e), w)
  | Ok args =>
      match Exec args w with
      | ((out, Some e), w) => (Fail (errorf [Binary; TrimSpace out] e), w)
      | ((out, None), w) => (Ok (TrimSpace out), w)
      end
  end.

(** [Start], [Stop] and [Remove] only differ in their words. *)
Definition cli_simple (words : list string) (name : string) (w : W) : option error * W :=
  match Exec (words ++ [name]) w with
  | ((out, Some e), w) => (Some (errorf [Binary; name; TrimSpace out] e), w)
  | ((_, None), w) => (None, w)
  end.

Definition cli_Inspect (name : string) (w : W) : result ContainerState * W :=
  match Exec ["inspect"; "-f"; "{{json .State}}"; name] w with
  | ((out, Some e), w) =>
      (if IsNotFound out then fail_with [] ErrContainerNotFound else Fail (errorf [Binary; name; TrimSpace out] e), w)
  | ((out, None), w) => (ParseState <$> map_err (errorf [Binary]) (status_of (TrimSpace out)), w)
  end.

Definition CLIRuntime : Runtime W :=
  MkRuntime Binary Available cli_Run (cli_simple ["start"]) (cli_simple ["stop"]) (cli_simple ["rm"; "-f"]) cli_Inspect.
End cli.

(** ** daemon.go *)

Definition ErrEngineUnhealthy : sentinel := Foreign "engine health check timed out".
Definition ErrStartFailed : sentinel := Foreign "engine start unsuccessful".

Definition containerName : string := "cicada-buildkitd".
Definition buildkitImage : string := "moby/buildkit:v0.27.1".
Definition port : string := "1234".
Definition defaultAddr : string := "tcp://127.0.0.1:" +:+ port.
Definition volumeName : string := "cicada-buildkit-state".

Record healthConfig : Type := Health { h_timeout : Z; h_interval : Z; h_backoff : Z; h_maxInterval : Z }.

(** 30 s, 100 ms, 2, 3 s. *)
Definition defaultHealthConfig : healthConfig := Health 30000000000 100000000 2 3000000000.

Section daemon.
Context {W : Type} (rt : Runtime W).
(** [time.Now], [bkDial] and the select on the context and [time.After]. *)
Context (Now : W -> Z) (Dial : string -> W -> result bool * W) (After : Z -> W -> option error * W).
Context (health : healthConfig).

Definition next_interval (interval : Z) : Z :=
  let interval := (interval * h_backoff health)%Z in
  if decide (h_maxInterval health < interval)%Z then h_maxInterval health else interval.

(** [None] means that the fuel ran out. *)
Fixpoint wait_loop (fuel : nat) (deadline interval : Z) (w : W) : option (option error * W) :=
  match fuel with
  | 0 => None
  | S fuel' =>
      if decide (deadline <= Now w)%Z then Some (Some (raise ErrEngineUnhealthy), w) else
      match Dial defaultAddr w with
      | (Fail e, w) => Some (Some (errorf [] e), w)
      | (Ok true, w) => Some (None, w)
      | (Ok false, w) =>
          match After interval w with
          | (Some e, w) => Some (Some (errorf [] e), w)
          | (None, w) => wait_loop fuel' deadline (next_interval interval) w
          end
      end
  end.

(** Enough rounds for the default configuration, as [waitHealthy_ends] shows. *)
Definition wait_fuel : nat := 15.

Definition waitHealthy (w : W) : option error * W :=
  default (Some (raise OutOfFuel), w) (wait_loop wait_fuel (Now w + h_timeout health) (h_interval health) w).

Definition buildkit_config : RunConfig :=
  Config containerName buildkitImage true [Port "127.0.0.1" port port] [Volume volumeName "/var/lib/buildkit"] true
    ["--addr"; "tcp://0.0.0.0:" +:+ port].

(** The switch of [Start] on the inspected state. *)
Definition launch (state : ContainerState) (w : W) : option error * W :=
  match state with
  | StateRunning => (None, w)
  | StateExited | StateCreated =>
      match rt_Start rt containerName w with
      | (Some e, w) => (Some (Error [] (chain e ++ [ErrStartFailed])), w)
      | (None, w) => (None, w)
      end
  | _ =>
      match rt_Run rt buildkit_config w with
      | (Fail e, w) => (Some (Error [] (chain e ++ [ErrStartFailed])), w)
      | (Ok _, w) => (None, w)
      end
  end.

(** A container that does not exist has the zero state. *)
Definition inspected (r : result ContainerState) : result ContainerState :=
  match r with
  | Ok state => Ok state
  | Fail e => if Is e ErrContainerNotFound then Ok StateUnknown else Fail (errorf [] e)
  end.

Definition Manager_Start (w : W) : result string * W :=
  let '(r, w) := rt_Inspect rt containerName w in
  match inspected r with
  | Fail e => (Fail e, w)
  | Ok state =>
      match launch state w with
      | (Some e, w) => (Fail e, w)
      | (None, w) =>
          match waitHealthy w with
          | (Some e, w) => (Fail (errorf [] e), w)
          | (None, w) => (Ok defaultAddr, w)
          end
      end
  end.

Definition EnsureRunning (userAddr : string) (w : W) : result string * W :=
  if decide (userAddr <> "" /\ userAddr <> defaultAddr) then (Ok userAddr, w) else
  match Dial defaultAddr w with
  | (Fail e, w) => (Fail (errorf [] e), w)
  | (Ok true, w) => (Ok defaultAddr, w)
  | (Ok false, w) => Manager_Start w
  end.

Definition IsReachable (addr : string) (w : W) : bool * W :=
  match Dial addr w with (Ok ok, w) => (ok, w) | (Fail _, w) => (false, w) end.

Definition Manager_Stop (w : W) : option error * W :=
  match rt_Inspect rt containerName w with
  | (Fail e, w) => if Is e ErrContainerNotFound then (None, w) else (Some (errorf [] e), w)
  | (Ok state, w) =>
      if decide (state <> StateRunning) then (None, w) else
      match rt_Stop rt containerName w with
      | (Some e, w) => (Some (errorf [] e), w)
      | (None, w) => (None, w)
      end
  end.

Definition Manager_Remove (w : W) : option error * W :=
  match rt_Inspect rt containerName w with
  | (Fail e, w) => if Is e ErrContainerNotFound then (None, w) else (Some (errorf [] e), w)
  | (Ok _, w) =>
      match rt_Remove rt containerName w with
      | (Some e, w) => (Some (errorf [] e), w)
      | (None, w) => (None, w)
      end
  end.

Definition Status (w : W) : result string * W :=
  match rt_Inspect rt containerName w with
  | (Fail e, w) => (if Is e ErrContainerNotFound then Ok "" else Fail (errorf [] e), w)
  | (Ok state, w) => (Ok (state_string state), w)
  end.

(** ** Laws

    The documented behaviour of a container runtime: [container] is the state of the
    manager's container.  A name can only be used by one container.  [inspect_law] is the
    contract of [Runtime.Inspect]; an implementation over a command line keeps it as long as
    the command complains of a missing container only ([missing_socket_not_found]). *)
Class RuntimeLaws (container : W -> option ContainerState) : Prop := {
  inspect_law : forall w, match rt_Inspect rt containerName w with
    | (Ok s, w') => container w = Some s /\ w' = w
    | (Fail e, w') => w' = w /\ (Is e ErrContainerNotFound = true -> container w = None)
    end;
  run_law : forall cfg w id w', rt_Run rt cfg w = (Ok id, w') -> c_Name cfg = containerName ->
    container w = None /\ container w' = Some StateRunning;
  start_law : forall w w', rt_Start rt containerName w = (None, w') -> container w' = Some StateRunning;
  stop_law : forall w w', rt_Stop rt containerName w = (None, w') -> container w' <> Some StateRunning;
  remove_law : forall w w', rt_Remove rt containerName w = (None, w') -> container w' = None
}.

(** Time does not go back, and a timer takes at least as long as it was set to. *)
Class ClockLaws : Prop := {
  dial_clock : forall a w r w', Dial a w = (r, w') -> (Now w <= Now w')%Z;
  after_clock : forall i w w', After i w = (None, w') -> (Now w + i <= Now w')%Z
}.

Section laws.
Context {container : W -> option ContainerState} `{!RuntimeLaws container} `{!ClockLaws}.

(** *** The health check *)

(** The least time [n] rounds take. *)
Fixpoint rounds (n : nat) (interval : Z) : Z :=
  match n with 0 => 0 | S n => interval + rounds n (next_interval interval) end.

(** The same for the default configuration, by computation. *)
Fixpoint default_rounds (n : nat) (interval : Z) : Z :=
  match n with
  | 0 => 0
  | S n => interval + default_rounds n (let i := (interval * 2)%Z in if decide (3000000000 < i)%Z then 3000000000 else i)
  end.

Lemma rounds_default n interval : health = defaultHealthConfig -> rounds n interval = default_rounds n interval.
Proof.
  intros Hh. revert interval. induction n as [|n IH]; intros interval; cbn; [done|].
  rewrite IH. unfold next_interval. by rewrite Hh.
Qed.

Lemma wait_loop_Some n deadline interval w :
  (deadline <= Now w + rounds n interval)%Z -> is_Some (wait_loop (S n) deadline interval w).
Proof.
  revert interval w. induction n as [|n IH]; intros interval w Hd; cbn in Hd; cbn [wait_loop].
  - by rewrite decide_True by lia.
  - case_decide; [done|]. destruct (Dial defaultAddr w) as [[[]|e] w1] eqn:Hdial; [done| |done].
    destruct (After interval w1) as [[e|] w2] eqn:Hafter; [done|]. apply IH.
    apply dial_clock in Hdial. apply after_clock in Hafter. lia.
Qed.

(** A probe that succeeds ends the wait; every other end is an error. *)
Lemma wait_loop_healthy n deadline interval w w' :
  wait_loop n deadline interval w = Some (None, w') -> exists w1, Dial defaultAddr w1 = (Ok true, w').
Proof.
  revert interval w. induction n as [|n IH]; intros interval w; cbn [wait_loop]; [done|]. case_decide; [done|].
  destruct (Dial defaultAddr w) as [[[]|e] w1] eqn:Hdial; [|destruct (After interval w1) as [[e|] w2]; [done|apply IH]|done].
  intros [= <-]. by exists w.
Qed.

(** The health check ends: with the default timing - a probe after 100 ms, then twice
    as long up to 3 s, for 30 s - and a clock that does not go back, [waitHealthy] makes at
    most 14 unsuccessful probes before it gives up. *)
Theorem waitHealthy_ends w (Hh : health = defaultHealthConfig) :
  is_Some (wait_loop wait_fuel (Now w + h_timeout health) (h_interval health) w).
Proof.
  apply (wait_loop_Some 14). assert (h_timeout health <= rounds 14 (h_interval health))%Z; [|lia].
  rewrite rounds_default by done. rewrite Hh. by vm_compute.
Qed.

(** *** Starting and stopping *)

Lemma waitHealthy_None w w' : waitHealthy w = (None, w') -> exists w1, Dial defaultAddr w1 = (Ok true, w').
Proof.
  unfold waitHealthy. destruct (wait_loop _ _ _ w) as [[e w1]|] eqn:Hl; [|done]. cbn. intros [= -> ->]. by eapply wait_loop_healthy.
Qed.

(** The states [launch] can bring up. *)
Definition startable (s : option ContainerState) : Prop :=
  match s with None | Some StateRunning | Some StateExited | Some StateCreated => True | _ => False end.

Lemma launch_None state w w' :
  launch state w = (None, w') -> (container w = Some state \/ state = StateUnknown /\ container w = None) ->
  container w' = Some StateRunning /\ startable (container w).
Proof.
  assert (forall st, container w = Some st \/ st = StateUnknown /\ container w = None ->
    match rt_Run rt buildkit_config w with
    | (Fail e, w) => (Some (Error [] (chain e ++ [ErrStartFailed])), w) | (Ok _, w) => (None, w) end = (None, w') ->
    container w' = Some StateRunning /\ startable (container w)) as Hrun.
  { intros st _. destruct (rt_Run rt buildkit_config w) as [[id|e] w1] eqn:Hr; [|done]. intros [= <-].
    destruct (run_law _ _ _ _ Hr eq_refl) as [-> ->]. done. }
  destruct state; cbn; intros Hl Hc; eauto.
  - injection Hl as <-. destruct Hc as [->|[? _]]; done.
  - destruct (rt_Start rt containerName w) as [[e|] w1] eqn:Hs; [done|]. injection Hl as <-.
    split; [by eapply start_law|]. destruct Hc as [->|[? _]]; done.
  - destruct (rt_Start rt containerName w) as [[e|] w1] eqn:Hs; [done|]. injection Hl as <-.
    split; [by eapply start_law|]. destruct Hc as [->|[? _]]; done.
Qed.

(** What an inspection tells. *)
Lemma inspected_law w r w1 :
  rt_Inspect rt containerName w = (r, w1) -> w1 = w /\
  forall s, inspected r = Ok s -> container w = Some s \/ s = StateUnknown /\ container w = None.
Proof.
  intros Hr. pose proof (inspect_law w) as Hi. rewrite Hr in Hi. destruct r as [s|e]; destruct Hi as [H1 H2].
  - split; [done|]. intros s' [= <-]. by left.
  - split; [done|]. cbn. intros s'. destruct (Is e ErrContainerNotFound) eqn:He; [|done]. intros [= <-]. right. auto.
Qed.

Lemma Manager_Start_Ok w addr w' :
  Manager_Start w = (Ok addr, w') ->
  addr = defaultAddr /\ startable (container w) /\
  (exists s w1, launch s w = (None, w1) /\ container w1 = Some StateRunning /\ waitHealthy w1 = (None, w')) /\
     (exists w2, Dial defaultAddr w2 = (Ok true, w')).
Proof.
  unfold Manager_Start. destruct (rt_Inspect rt containerName w) as [r w1] eqn:Hr. destruct (inspected_law w r w1 Hr) as [-> Hst].
  destruct (inspected r) as [s|e]; [|done]. destruct (launch s w) as [[e|] w2] eqn:Hl; [done|].
  destruct (waitHealthy w2) as [[e|] w3] eqn:Hw; [done|]. intros [= <- <-].
  destruct (launch_None s w w2 Hl (Hst s eq_refl)) as [Hrun Hs]. split_and!; try done; [by exists s, w2|by eapply waitHealthy_None].
Qed.

Lemma Manager_Start_stuck w : ~ startable (container w) -> exists e w', Manager_Start w = (Fail e, w').
Proof.
  intros Hn. unfold Manager_Start. destruct (rt_Inspect rt containerName w) as [r w1] eqn:Hr. destruct (inspected_law w r w1 Hr) as [-> Hst].
  destruct (inspected r) as [s|e]; [|by eexists _, _]. destruct (launch s w) as [[e|] w2] eqn:Hl; [by eexists _, _|].
  by destruct (launch_None s w w2 Hl (Hst s eq_refl)).
Qed.

Lemma Manager_Stop_stops w w' : Manager_Stop w = (None, w') -> container w' <> Some StateRunning.
Proof.
  unfold Manager_Stop. pose proof (inspect_law w) as Hi. destruct (rt_Inspect rt containerName w) as [[s|e] w1]; destruct Hi as [Hc Hn].
  - subst w1. case_decide as Hrun; [intros [= <-]; congruence|].
    destruct (rt_Stop rt containerName w) as [[e|] w2] eqn:Hs; [done|]. intros [= <-]. by eapply stop_law.
  - subst w1. destruct (Is e ErrContainerNotFound); [|done]. intros [= <-]. by rewrite Hn.
Qed.

Lemma Manager_Remove_gone w w' : Manager_Remove w = (None, w') -> container w' = None.
Proof.
  unfold Manager_Remove. pose proof (inspect_law w) as Hi. destruct (rt_Inspect rt containerName w) as [[s|e] w1]; destruct Hi as [Hc Hn].
  - subst w1. destruct (rt_Remove rt containerName w) as [[e|] w2] eqn:Hs; [done|]. intros [= <-]. by eapply remove_law.
  - subst w1. destruct (Is e ErrContainerNotFound); [|done]. intros [= <-]. by apply Hn.
Qed.

(** The daemon's life cycle on any runtime that obeys the laws: a start that succeeds
    found no container, a running one or a stopped one, left it running, got an answer from
    BuildKit afterwards and returns the default address; a container in any other state,
    such as a paused one, cannot be started at all; after a successful stop it does not
    run, and after a successful removal it does not exist, however often they are called. *)
Theorem Manager_lifecycle w :
  (forall addr w', Manager_Start w = (Ok addr, w') ->
     addr = defaultAddr /\ startable (container w) /\
     (exists s w1, launch s w = (None, w1) /\ container w1 = Some StateRunning /\ waitHealthy w1 = (None, w')) /\
     (exists w2, Dial defaultAddr w2 = (Ok true, w'))) /\
  (~ startable (container w) -> exists e w', Manager_Start w = (Fail e, w')) /\
  (forall w', Manager_Stop w = (None, w') -> container w' <> Some StateRunning) /\
  (forall w', Manager_Remove w = (None, w') -> container w' = None).
Proof.
  split_and!; [apply Manager_Start_Ok|apply Manager_Start_stuck|apply Manager_Stop_stops|apply Manager_Remove_gone].
Qed.

(** A user's own daemon is never touched, and a reachable one is not started again. *)
Lemma EnsureRunning_untouched userAddr w :
  userAddr <> "" -> userAddr <> defaultAddr -> EnsureRunning userAddr w = (Ok userAddr, w).
Proof. intros. unfold EnsureRunning. by rewrite decide_True. Qed.
End laws.
End daemon.

(** ** Detection and arguments *)

(** [Detect] returns the first runtime of the list that is available. *)
Lemma Detect_spec {W} (r : Resolver W) w rt :
  Detect r w = Ok rt <->
  exists before after, Factories r = before ++ Some rt :: after /\ rt_Available rt w = true /\
    Forall (fun f => forall rt', f = Some rt' -> rt_Available rt' w = false) before.
Proof.
  unfold Detect. induction (Factories r) as [|[f|] fs IH]; cbn.
  - split; [done|]. by intros ([] & ? & ? & _).
  - destruct (rt_Available f w) eqn:Ha.
    + split; [intros [= <-]; by exists [], fs|]. intros ([|x before] & after & Heq & Hr & Hb).
      * by injection Heq as ->.
      * injection Heq as <- _. apply Forall_cons in Hb as [Hx _]. specialize (Hx f eq_refl). congruence.
    + rewrite IH. split; intros (before & after & Heq & Hr & Hb).
      * exists (Some f :: before), after. rewrite Heq. split_and!; [done|done|]. constructor; [|done]. by intros rt' [= <-].
      * destruct before as [|x before]; [injection Heq as -> _; congruence|injection Heq as <- Heq]. apply Forall_cons in Hb as [_ Hb]. by exists before, after.
  - rewrite IH. split; intros (before & after & Heq & Hr & Hb).
    + exists (None :: before), after. rewrite Heq. split_and!; [done|done|]. by constructor.
    + destruct before as [|x before]; [done|]. injection Heq as <- Heq. apply Forall_cons in Hb as [_ Hb]. by exists before, after.
Qed.

(** [BuildRunArgs] refuses exactly the configurations with an incomplete binding. *)
Lemma BuildRunArgs_total cfg :
  (exists args, BuildRunArgs cfg = Ok args) <->
  Forall (fun p => HostPort p <> "" /\ ContPort p <> "") (c_Ports cfg) /\
  Forall (fun v => v_Name v <> "" /\ v_Target v <> "") (c_Volumes cfg).
Proof.
  assert (forall p, (exists a, port_args p = Ok a) <-> HostPort p <> "" /\ ContPort p <> "") as Hp.
  { intros p. unfold port_args. case_decide as Hd; [|split; [tauto|by eexists]]. split; [by intros [? ?]|tauto]. }
  assert (forall v, (exists a, volume_args v = Ok a) <-> v_Name v <> "" /\ v_Target v <> "") as Hv.
  { intros v. unfold volume_args. case_decide as Hd; [|split; [tauto|by eexists]]. split; [by intros [? ?]|tauto]. }
  assert (forall {A B} (f : A -> result B) (P : A -> Prop) l, (forall a, (exists b, f a = Ok b) <-> P a) ->
    (exists bs, forM f l = Ok bs) <-> Forall P l) as Hf.
  { intros A B f P l Ha. induction l as [|a l IH]; cbn; [split; [constructor|by eexists]|].
    rewrite Forall_cons, <- Ha, <- IH. split.
    - intros [bs H]. inv_ok. split; by eexists.
    - intros [[b Hb] [bs Hbs]]. rewrite Hb. cbn. rewrite Hbs. by eexists. }
  rewrite <- (Hf _ _ _ _ (c_Ports cfg) Hp), <- (Hf _ _ _ _ (c_Volumes cfg) Hv). unfold BuildRunArgs. split.
  - intros [args H]. inv_ok. split; by eexists.
  - intros [[ps Hps] [vs Hvs]]. rewrite Hps. cbn. rewrite Hvs. by eexists.
Qed.

(** ** A concrete runtime *)

(** A clock, the manager's container, and the time at which BuildKit answers. *)
Record ex_world : Type := World { clock : Z; cont : option ContainerState; ready : Z }.

Definition ex_set (s : option ContainerState) (w : ex_world) : ex_world := World (clock w) s (ready w).

Definition ex_runtime : Runtime ex_world :=
  MkRuntime "docker" (fun _ => true)
    (fun cfg w => match cont w with
                  | Some _ => (fail_with [] (Foreign "name is already in use"), w)
                  | None => (Ok "id", ex_set (Some StateRunning) w)
                  end)
    (fun _ w => match cont w with
                | Some StateExited | Some StateCreated => (None, ex_set (Some StateRunning) w)
                | Some StateRunning => (None, w)
                | _ => (Some (raise (Foreign "cannot start")), w)
                end)
    (fun _ w => (None, ex_set ((fun _ => StateExited) <$> cont w) w))
    (fun _ w => (None, ex_set None w))
    (fun _ w => (match cont w with Some s => Ok s | None => fail_with [] ErrContainerNotFound end, w)).

Definition ex_dial (_ : string) (w : ex_world) : result bool * ex_world :=
  (Ok (bool_decide (cont w = Some StateRunning /\ (ready w <= clock w)%Z)), w).
Definition ex_after (i : Z) (w : ex_world) : option error * ex_world :=
  (None, World (clock w + Z.max 0 i) (cont w) (ready w)).

#[export] Instance ex_runtime_laws : RuntimeLaws ex_runtime cont.
Proof.
  split; cbn.
  - intros [c [s|] r]; done.
  - intros cfg [c [s|] r] id w'; cbn; [done|]. by intros [= _ <-].
  - intros [c [[]|] r] w'; cbn; try done; by intros [= <-].
  - intros [c [s|] r] w'; by intros [= <-].
  - intros w w' [= <-]. done.
Qed.

#[export] Instance ex_clock_laws : ClockLaws clock ex_dial ex_after.
Proof.
  split.
  - intros a w r w' [= _ <-]. lia.
  - intros i w w' [= <-]. cbn. lia.
Qed.

Lemma waitHealthy_ends_witness :
  is_Some (wait_loop clock ex_dial ex_after defaultHealthConfig wait_fuel 30000000000 100000000 (World 0 (Some StateRunning) 2000000000)).
Proof. exact (waitHealthy_ends clock ex_dial ex_after defaultHealthConfig (World 0 (Some StateRunning) 2000000000) eq_refl). Defined.

(** A stopped container is restarted, a paused one is not. *)
Lemma Manager_lifecycle_witness :
  Manager_Start ex_runtime clock ex_dial ex_after defaultHealthConfig (World 0 (Some StateExited) 2000000000)
    = (Ok "tcp://127.0.0.1:1234", World 3100000000 (Some StateRunning) 2000000000) /\
  (exists e w', Manager_Start ex_runtime clock ex_dial ex_after defaultHealthConfig (World 0 (Some StatePaused) 0) = (Fail e, w')).
Proof.
  split; [vm_compute; reflexivity|].
  refine (proj1 (proj2 (Manager_lifecycle ex_runtime clock ex_dial ex_after defaultHealthConfig (World 0 (Some StatePaused) 0))) _).
  intros [].
Defined.
