(* ===== verification/Solves.v ===== *)
(** * The solves after the schedule (runner/export.go, output.go; runtime/cliutil/cliutil.go)

    What [Run] hands to BuildKit for exports, publishes and outputs: the options of every
    solve, the group that runs them, and the solve whose tarball is piped into the container
    runtime, a step relation over the pipe and its two goroutines.  The solver and the
    command that loads an image are parameters. *)

From stdpp Require Import relations.
From S2P Require Import Prelude Errors GoStrings Regex Conditional Model Paths Progress Retry Dag Output Node Sched Publish Cache.

(** ** What BuildKit is asked for *)

Inductive exporter : Set := ExporterLocal | ExporterImage | ExporterDocker.

(** [client.ExportEntry]; [x_Pipe] tells whether the output goes to the pipe. *)
Record ExportEntry : Type := Entry { x_Type : exporter; x_Attrs : gmap string string; x_OutputDir : string; x_Pipe : bool }.

(** [client.SolveOpt]. *)
Record SolveOpt : Type := SolveOptions {
  o_Exports : list ExportEntry;
  o_LocalMounts : list string;
  o_CacheExports : list CacheOptionsEntry;
  o_CacheImports : list CacheOptionsEntry;
  o_Session : option (gmap string string)
}.

Section solves.
Context `{LLB} `{Platforms}.

(** The parts of [runConfig] these solves use. *)
Record runConfig : Type := RunConfig {
  localMounts : list string;
  cacheExports : list CacheOptionsEntry;
  cacheImports : list CacheOptionsEntry;
  session : option (gmap string string)
}.

Variables (cfg : runConfig) (Solve : Definition_ -> SolveOpt -> option error) (Build : list ImagePublish.t -> SolveOpt -> option error).

Definition local_export (outputDir : string) : ExportEntry := Entry ExporterLocal ∅ outputDir false.

Definition export_opt (outputDir : string) : SolveOpt :=
  SolveOptions [local_export outputDir] (localMounts cfg) (cacheExports cfg) (cacheImports cfg) (session cfg).

Definition solveExport (exp : RunExport.t) : option error :=
  match RunExport.Definition' exp with
  | None => Some (errorf [RunExport.Local exp; RunExport.JobName exp] (raise (RM ErrNilDefinition)))
  | Some def =>
      if decide (RunExport.Local exp = "") then Some (errorf [RunExport.JobName exp] (raise (PM ErrEmptyExportLocal))) else
      let outputDir := if RunExport.Dir exp then RunExport.Local exp else Dir (RunExport.Local exp) in
      errorf [] <$> Solve def (export_opt outputDir)
  end.

Definition image_opt (image : string) (push insecure : bool) : SolveOpt :=
  SolveOptions [Entry ExporterImage (publish_attrs image push insecure) "" false] []
    (cacheExports cfg) (cacheImports cfg) (session cfg).

Definition solveImagePublish (pub : ImagePublish.t) : option error :=
  match ImagePublish.Definition' pub with
  | None => Some (errorf [ImagePublish.Image pub; ImagePublish.JobName pub] (raise (RM ErrNilDefinition)))
  | Some def => errorf [] <$> Solve def (image_opt (ImagePublish.Image pub) (ImagePublish.Push pub) (ImagePublish.Insecure pub))
  end.

Definition solveMultiPlatformPublish (grp : publishGroup) : option error :=
  errorf [] <$> Build (Variants grp) (image_opt (g_Image grp) (g_Push grp) (g_Insecure grp)).

Definition docker_opt (image : string) : SolveOpt :=
  SolveOptions [Entry ExporterDocker {["name" := image]} "" true] [] (cacheExports cfg) (cacheImports cfg) (session cfg).

(** [solveImageExportDocker], whose two goroutines are [pipe_run] below: [piped] is their
    joint result for a definition and its options. *)
Definition solveImageExportDocker (piped : Definition_ -> SolveOpt -> option error) (pub : ImagePublish.t) : option error :=
  match ImagePublish.Definition' pub with
  | None => Some (errorf [ImagePublish.Image pub; ImagePublish.JobName pub] (raise (RM ErrNilDefinition)))
  | Some def => piped def (docker_opt (ImagePublish.Image pub))
  end.

(** [errgroup.Wait]: the error of the first goroutine that fails; [finished] lists what they
    return in the order in which they do. *)
Definition group_Wait (finished : list (option error)) : option error := head (omap id finished).

(** One goroutine of [runPublishes].  [load_first] is the order in which the two inner
    goroutines of a publish that is pushed and loaded return. *)
Definition run_task (piped : Definition_ -> SolveOpt -> option error) (load_first : bool) (t : publish_task) : option error :=
  match t with
  | SolveMultiPlatform g => errorf [g_Image g] <$> solveMultiPlatformPublish g
  | SolveImage g p => errorf [g_Image g; ImagePublish.JobName p] <$> solveImagePublish p
  | SolveExportDocker g p => errorf [g_Image g; ImagePublish.JobName p] <$> solveImageExportDocker piped p
  | SolvePushAndLoad g p =>
      let push := errorf [g_Image g; ImagePublish.JobName p] <$> solveImagePublish p in
      let load := errorf [g_Image g; ImagePublish.JobName p] <$> solveImageExportDocker piped p in
      group_Wait (if load_first then [load; push] else [push; load])
  end.

(** [order] permutes the tasks into the order in which they return. *)
Definition runPublishes (piped : Definition_ -> SolveOpt -> option error) (load_first : publish_task -> bool)
    (order : list publish_task -> list publish_task) (pubs : list ImagePublish.t) : option error :=
  match publish_tasks pubs with
  | Fail e => Some e
  | Ok tasks => group_Wait ((fun t => run_task piped (load_first t) t) <$> order tasks)
  end.

(** The goroutines around [solveExport] in [Run]. *)
Definition runExports (order : list RunExport.t -> list RunExport.t) (exports : list RunExport.t) : option error :=
  group_Wait ((fun exp => errorf [RunExport.Local exp; RunExport.JobName exp] <$> solveExport exp) <$> order exports).

(** ** Outputs

    [extractOutputs]: the file system is its temporary directories, by the content of their
    output file. *)

Inductive read_result : Type := Data (content : string) | NotExist | ReadError (e : error).

(** [written] is what the solve leaves in the directory it is given. *)
Record output_world : Type := OutputWorld {
  MkdirTemp : result string;
  ReadFile : string -> read_result;
  RemoveAll : list string -> string -> list string
}.

Definition extractOutputs (w : output_world) (def : Definition_) (dirs : list string) : result (gmap string string) * list string :=
  match MkdirTemp w with
  | Fail e => (Fail (errorf [] e), dirs)
  | Ok dir =>
      let r :=
        match Solve def (SolveOptions [local_export dir] (localMounts cfg) [] (cacheImports cfg) (session cfg)) with
        | Some e => Fail (errorf [] e)
        | None =>
            match ReadFile w dir with
            | NotExist => Ok ∅
            | ReadError e => Fail (errorf [] e)
            | Data content => Ok (parseOutputLines content)
            end
        end in
      (r, RemoveAll w (dirs ++ [dir]) dir)
  end.
End solves.

(** ** The command that loads an image (cliutil.go) *)

Section load_image.
(** [Run args deadline] is the error of a command that is killed at the deadline, and what
    it has written to its standard error and its standard output. *)
Variables (Binary : string) (Run : list string -> Z -> option error * string * string).

(** 30 s. *)
Definition execTimeout : Z := 30000000000.

(** [prepareCmd]: a context without a deadline gets one. *)
Definition cmd_deadline (now : Z) (deadline : option Z) : Z := default (now + execTimeout)%Z deadline.

(** [NewExecFunc]. *)
Definition Exec (now : Z) (deadline : option Z) (args : list string) : string * option error :=
  match Run args (cmd_deadline now deadline) with
  | (Some e, stderr, _) => (stderr, Some e)
  | (None, _, out) => (out, None)
  end.

Definition LoadImage (now : Z) (deadline : option Z) : option error :=
  match Run ["load"] (cmd_deadline now deadline) with
  | (Some e, stderr, _) => Some (if decide (0 < String.length stderr) then errorf [Binary; stderr] e else errorf [Binary] e)
  | (None, _, _) => None
  end.

(** [Available] of Docker and of Podman: [words] are those of the adapter. *)
Definition Available (now : Z) (words : list string) : bool :=
  bool_decide ((Exec now (Some (now + 5000000000)%Z) words).2 = None).

Definition docker_info : list string := ["info"; "--format"; "{{json .ServerVersion}}"].
Definition podman_info : list string := ["info"; "--format"; "{{json .Host.Os}}"].

(** The clock of [load] starts with the solve that feeds it: when the image is not complete
    within 30 s loading it fails, unless the context has a later deadline. *)
Lemma load_times_out now complete :
  (forall d, (d < complete)%Z -> is_Some (Run ["load"] d).1.1) ->
  (now + execTimeout < complete)%Z -> is_Some (LoadImage now None).
Proof.
  intros Hrun Hlate. unfold LoadImage. specialize (Hrun (cmd_deadline now None) Hlate).
  destruct (Run ["load"] (cmd_deadline now None)) as [[[e|] stderr] out]; [done|by destruct Hrun].
Qed.
End load_image.

(** ** The pipe into the container runtime *)

Section pipe.
(** The chunks of the image's tarball, and the inputs with which the runtime's [load] exits
    successfully. *)
Context {chunk : Type} (tar : list chunk) (accepts : list chunk -> bool).

(** [Solve] writes the tarball, has returned, or its error has been recorded by the group. *)
Inductive solve_pc : Type := Writing (rest : list chunk) | SolveReturned (e : option error) | SolveDone (e : option error).

(** The loader reads, its process has exited although its input goes on, [LoadImage] has
    returned, or its error has been recorded. *)
Inductive load_pc : Type := Reading | LoadExited | LoadReturned (e : option error) | LoadDone (e : option error).

(** [got] is what has been copied from the pipe to the loader; [group] the error of the
    group. *)
Record pipe : Type := Pipe { solve : solve_pc; load : load_pc; got : list chunk; pw_closed : bool; pr_closed : bool; group : option error }.
#[global] Instance pipe_settable : Settable pipe :=
  fun p => Pipe (solve p) (load p) (got p) (pw_closed p) (pr_closed p) (group p).

Definition opened : pipe := Pipe (Writing tar) Reading [] false false None.

(** [errOnce]. *)
Definition record (g e : option error) : option error := match g with Some _ => g | None => e end.

(** The flag tells a failure that comes from outside, or from the cancellation of the group,
    from the moves the goroutines make by themselves.  The deferred close of an end comes
    before the group records the error.

    The process may exit with success before the end of its input, content with what it has
    read by then.  [cmd.Run] then still waits for the goroutine that copies its input: that
    ends at the end of the input or with the next chunk, which cannot be written any more -
    an error that [os/exec] ignores - or [WaitDelay] ends it with an error. *)
Inductive pipe_step : bool -> pipe -> pipe -> Prop :=
  | Transfer p c rest :
      solve p = Writing (c :: rest) -> load p = Reading -> pr_closed p = false ->
      pipe_step false p (p <| solve := Writing rest |> <| got ::= fun l => l ++ [c] |>)
  | WriteClosed p c rest e :
      solve p = Writing (c :: rest) -> pr_closed p = true ->
      pipe_step false p (p <| solve := SolveReturned (Some (errorf [] e)) |> <| pw_closed := true |>)
  | SolveOk p :
      solve p = Writing [] -> pipe_step false p (p <| solve := SolveReturned None |> <| pw_closed := true |>)
  | SolveFails p rest e :
      solve p = Writing rest -> pipe_step true p (p <| solve := SolveReturned (Some (errorf [] e)) |> <| pw_closed := true |>)
  | SolveRecord p r :
      solve p = SolveReturned r -> pipe_step false p (p <| solve := SolveDone r |> <| group ::= fun g => record g r |>)
  | LoadOk p :
      load p = Reading -> pw_closed p = true -> accepts (got p) = true ->
      pipe_step false p (p <| load := LoadReturned None |> <| pr_closed := true |>)
  | LoadRejects p e :
      load p = Reading -> pw_closed p = true -> accepts (got p) = false ->
      pipe_step false p (p <| load := LoadReturned (Some (errorf [] e)) |> <| pr_closed := true |>)
  | LoadExits p l :
      load p = Reading -> l `prefix_of` got p -> accepts l = true -> pipe_step true p (p <| load := LoadExited |>)
  | CopyBroken p c rest :
      solve p = Writing (c :: rest) -> load p = LoadExited ->
      pipe_step false p (p <| solve := Writing rest |> <| got ::= fun l => l ++ [c] |>
                           <| load := LoadReturned None |> <| pr_closed := true |>)
  | CopyEnds p :
      load p = LoadExited -> pw_closed p = true ->
      pipe_step false p (p <| load := LoadReturned None |> <| pr_closed := true |>)
  | CopyDelayed p e :
      load p = LoadExited -> pipe_step true p (p <| load := LoadReturned (Some (errorf [] e)) |> <| pr_closed := true |>)
  | LoadFails p e :
      load p = Reading -> pipe_step true p (p <| load := LoadReturned (Some (errorf [] e)) |> <| pr_closed := true |>)
  | LoadRecord p r :
      load p = LoadReturned r -> pipe_step false p (p <| load := LoadDone r |> <| group ::= fun g => record g r |>).

Definition any_step (p p' : pipe) : Prop := exists outside, pipe_step outside p p'.

(** [eg.Wait] returns. *)
Definition pipe_done (p : pipe) : Prop := exists e e', solve p = SolveDone e /\ load p = LoadDone e'.

(** *** The invariant *)

Definition solve_result (p : pipe) : option (option error) :=
  match solve p with Writing _ => None | SolveReturned e | SolveDone e => Some e end.
Definition load_result (p : pipe) : option (option error) :=
  match load p with Reading | LoadExited => None | LoadReturned e | LoadDone e => Some e end.
Definition recorded (p : pipe) (e : option error) : Prop := solve p = SolveDone e \/ load p = LoadDone e.

(** The loader exited with success on a beginning of what was copied. *)
Definition accepted (p : pipe) : Prop := exists l, l `prefix_of` got p /\ accepts l = true.

Record pipe_inv (p : pipe) : Prop := PipeInv {
  pi_writing : forall rest, solve p = Writing rest -> got p ++ rest = tar;
  pi_solved : solve_result p = Some None -> got p = tar;
  pi_loaded : load p = LoadExited \/ load_result p = Some None -> accepted p;
  pi_pw : pw_closed p = match solve p with Writing _ => false | _ => true end;
  pi_pr : pr_closed p = match load p with Reading | LoadExited => false | _ => true end;
  pi_none : group p = None -> forall e, recorded p e -> e = None;
  pi_some : forall e, group p = Some e -> recorded p (Some e)
}.

Lemma pipe_inv_opened : pipe_inv opened.
Proof.
  constructor; cbn; try done.
  - by intros rest [= ->].
  - by intros [?|?].
  - intros _ e [He|He]; discriminate He.
Qed.

Ltac solve_pc := unfold solve_result, load_result, recorded, accepted in *; cbn in *; intros; destruct_and?; destruct_or?; simplify_eq/=;
  try match goal with H : forall e, Some ?x = Some e -> _ |- _ => destruct (H x eq_refl); simplify_eq/= end;
  try match goal with H : ?P -> _ /\ _, H' : ?P |- _ => destruct (H H') end;
  eauto; try congruence.

Lemma record_None g r : record g r = None <-> g = None /\ r = None.
Proof. destruct g; cbn; naive_solver. Qed.

(** What a goroutine's end does to the record. *)
Lemma record_inv (p p' : pipe) r :
  pipe_inv p -> group p' = record (group p) r ->
  (forall e, recorded p' e <-> recorded p e \/ e = r) ->
  (group p' = None -> forall e, recorded p' e -> e = None) /\ (forall e, group p' = Some e -> recorded p' (Some e)).
Proof.
  intros Hi Hg Hr. rewrite Hg. split.
  - intros [Hn ->]%record_None e [He| ->]%Hr; [by eapply pi_none|done].
  - intros e He. apply Hr. destruct (group p) as [e0|] eqn:Hgp; cbn in He; [|by right]. injection He as ->.
    left. by apply pi_some.
Qed.

Lemma pipe_inv_step b p p' : pipe_inv p -> pipe_step b p p' -> pipe_inv p'.
Proof.
  intros Hi Hstep. pose proof Hi as [H1 H2 H3 H4 H5 H6 H7].
  destruct Hstep as [p c rest Hs Hl Hc|p c rest e Hs Hc|p Hs|p rest e Hs|p r Hs|p Hl Hc Ha|p e Hl Hc Ha|p l Hl Hpre Ha|p c rest Hs Hl|p Hl Hc|p e Hl|p e Hl|p r Hl].
  - pose proof (H1 _ Hs) as Hgot. constructor; destruct p; solve_pc. by rewrite <- app_assoc.
  - constructor; destruct p; solve_pc.
  - pose proof (H1 _ Hs) as Hgot. rewrite app_nil_r in Hgot. constructor; destruct p; solve_pc.
  - constructor; destruct p; solve_pc.
  - destruct (record_inv p (p <| solve := SolveDone r |> <| group ::= fun g => record g r |>) r Hi) as [R1 R2]; [done| |].
    { destruct p; unfold recorded; cbn in *; subst; naive_solver. }
    constructor; try assumption; destruct p; solve_pc.
  - constructor; destruct p; solve_pc.
  - constructor; destruct p; solve_pc.
  - constructor; destruct p; solve_pc.
  - pose proof (H1 _ Hs) as Hgot. pose proof (H3 (or_introl Hl)) as (l & Hl' & Ha).
    constructor; destruct p; solve_pc; [by rewrite <- app_assoc|]. exists l. split; [by apply prefix_app_r|done].
  - pose proof (H3 (or_introl Hl)) as Ha. constructor; destruct p; solve_pc.
  - constructor; destruct p; solve_pc.
  - constructor; destruct p; solve_pc.
  - destruct (record_inv p (p <| load := LoadDone r |> <| group ::= fun g => record g r |>) r Hi) as [R1 R2]; [done| |].
    { destruct p; unfold recorded; cbn in *; subst; naive_solver. }
    constructor; try assumption; destruct p; solve_pc.
Qed.

Lemma pipe_reachable p : rtc any_step opened p -> pipe_inv p.
Proof.
  revert p. apply (rtc_ind_r (fun p => pipe_inv p)); [apply pipe_inv_opened|].
  intros p1 p2 _ [b Hb] IH. by eapply pipe_inv_step.
Qed.

(** *** Progress *)

Definition weight (p : pipe) : nat :=
  match solve p with Writing rest => 2 + length rest | SolveReturned _ => 1 | SolveDone _ => 0 end +
  match load p with Reading => 3 | LoadExited => 2 | LoadReturned _ => 1 | LoadDone _ => 0 end.

Lemma pipe_step_weight b p p' : pipe_step b p p' -> weight p' < weight p.
Proof. unfold weight. destruct 1 as [p c rest Hs|p c rest e Hs|p Hs|p rest e Hs|p r Hs|p Hl|p e Hl|p l Hl|p c rest Hs Hl|p Hl|p e Hl|p e Hl|p r Hl]; cbn; rewrite ?Hs, ?Hl; cbn; lia. Qed.

(** Until both goroutines are done one of them can go on by itself. *)
Lemma pipe_progress p : pipe_inv p -> ~ pipe_done p -> exists p', pipe_step false p p'.
Proof.
  intros Hi Hnd. destruct (solve p) as [[|c rest]|r|r] eqn:Hs.
  - eexists. by apply SolveOk.
  - destruct (load p) as [| |r|r] eqn:Hl; [|eexists; by eapply (CopyBroken p c rest)|eexists; by eapply (LoadRecord p r)|].
    + eexists. eapply (Transfer p c rest); [done..|]. rewrite (pi_pr p Hi). by rewrite Hl.
    + eexists. apply (WriteClosed p c rest (raise (Foreign "io: read/write on closed pipe"))); [done|]. rewrite (pi_pr p Hi). by rewrite Hl.
  - eexists. by eapply (SolveRecord p r).
  - assert (pw_closed p = true) as Hc by (rewrite (pi_pw p Hi); by rewrite Hs). destruct (load p) as [| |r'|r'] eqn:Hl.
    + destruct (accepts (got p)) eqn:Ha.
      * eexists. by apply LoadOk.
      * eexists. by apply (LoadRejects p (raise (Foreign "invalid tarball"))).
    + eexists. by apply CopyEnds.
    + eexists. by eapply (LoadRecord p r').
    + destruct Hnd. by exists r, r'.
Qed.

(** At the end the group has no error only if neither goroutine had one. *)
Lemma group_None_done p : pipe_inv p -> pipe_done p -> group p = None -> solve p = SolveDone None /\ load p = LoadDone None.
Proof.
  intros Hi (e & e' & Hs & Hl) Hn. pose proof (pi_none _ Hi Hn) as Hnone.
  assert (e = None) as -> by (apply Hnone; by left). by assert (e' = None) as -> by (apply Hnone; by right).
Qed.
End pipe.

(** C25: Loading an image into the container runtime while BuildKit produces it neither
    deadlocks nor reports success for half an image.  Whatever the solver and the loader do,
    and whenever they fail: until both goroutines have ended one of them can go on without
    any outside event - a solver that still writes when the loader has given up gets a write
    error, a loader that still reads when the solver has ended gets the end of the input; a
    run has at most [length tar + 5] steps; and at its end the group has no error exactly when
    neither of the two failed, and otherwise the error of one of them.  Without an error the
    solver has written the whole tarball and the loader has exited with success on what it
    had read of it, a beginning of the tarball - on all of it, if the runtime is content
    with nothing less.  (The converse is false: the solve may fail after the tarball.) *)
Theorem docker_export_ends {chunk} (tar : list chunk) (accepts : list chunk -> bool) p n
  (Hrun : nsteps (any_step accepts) n (opened tar) p) :
  n <= length tar + 5 /\
  (~ pipe_done p -> exists p', pipe_step accepts false p p') /\
  (pipe_done p -> group p = None <-> solve p = SolveDone None /\ load p = LoadDone None) /\
  (pipe_done p -> forall e, group p = Some e -> solve p = SolveDone (Some e) \/ load p = LoadDone (Some e)) /\
  (pipe_done p -> group p = None -> got p = tar /\ (exists l, l `prefix_of` tar /\ accepts l = true) /\
     ((forall l, l `prefix_of` tar -> accepts l = true -> l = tar) -> accepts tar = true)).
Proof.
  assert (rtc (any_step accepts) (opened tar) p) as Hr by by eapply rtc_nsteps_2.
  apply pipe_reachable in Hr as Hi. split_and!.
  - clear Hr Hi. assert (n + weight p <= weight (opened tar)) as Hw.
    { induction Hrun as [|n p1 p2 p3 [b Hb] _ IH]; [lia|]. apply pipe_step_weight in Hb. lia. }
    unfold weight at 2 in Hw. cbn in Hw. lia.
  - by eapply pipe_progress.
  - intros Hd. split; [by apply (group_None_done tar accepts)|]. intros [Hs Hl]. destruct (group p) as [e|] eqn:Hg; [|done].
    apply (pi_some _ _ _ Hi) in Hg as [?|?]; congruence.
  - intros _ e He. by eapply pi_some.
  - intros Hd Hn. destruct (group_None_done tar accepts p Hi Hd Hn) as [Hs Hl].
    assert (got p = tar) as Hgot by (eapply pi_solved; [exact Hi|]; unfold solve_result; by rewrite Hs).
    destruct (pi_loaded _ _ _ Hi) as (l & Hpre & Ha); [right; unfold load_result; by rewrite Hl|]. rewrite Hgot in Hpre.
    split_and!; [done|by exists l|]. intros Hall. by rewrite <- (Hall l Hpre Ha).
Qed.

(** A solve that fails half way closes the pipe like one that succeeds: the loader takes the
    beginning of the tarball for all of it, and its complaint can be the error that is
    reported, because the end of the pipe is closed before the error is recorded. *)
Lemma truncated_masks_error :
  let tar := [1; 2; 3] in
  let accepts := fun l : list nat => bool_decide (l = [1; 2; 3]) in
  let e := errorf [] (raise (Foreign "registry unreachable")) in
  let e' := errorf [] (raise (Foreign "unexpected EOF")) in
  rtc (any_step accepts) (opened tar) (Pipe (SolveDone (Some e)) (LoadDone (Some e')) [1] true true (Some e')).
Proof.
  cbv zeta.
  eapply rtc_l; [eexists; by eapply (Transfer _ _ 1 [2; 3])|]. cbn.
  eapply rtc_l; [eexists; by eapply (SolveFails _ _ [2; 3] (raise (Foreign "registry unreachable")))|]. cbn.
  eapply rtc_l; [eexists; by eapply (LoadRejects _ _ (raise (Foreign "unexpected EOF")))|]. cbn.
  eapply rtc_l; [eexists; by eapply (LoadRecord _ _ _)|]. cbn.
  eapply rtc_l; [eexists; by eapply (SolveRecord _ _ _)|]. cbn. apply rtc_refl.
Qed.

(** A loader that exits early, with success, leaves the copying goroutine one more chunk:
    the solver's next write fails, so half an image is not a success, but a tarball whose
    last chunk the loader did not wait for is. *)
Lemma early_exit_last_chunk :
  let accepts := fun l : list nat => bool_decide (l = [1; 2]) in
  rtc (any_step accepts) (opened [1; 2; 3]) (Pipe (SolveDone None) (LoadDone None) [1; 2; 3] true true None).
Proof.
  cbv zeta.
  eapply rtc_l; [eexists; by eapply (Transfer _ _ 1 [2; 3])|]. cbn.
  eapply rtc_l; [eexists; by eapply (Transfer _ _ 2 [3])|]. cbn.
  eapply rtc_l; [eexists; by eapply (LoadExits _ _ [1; 2])|]. cbn.
  eapply rtc_l; [eexists; by eapply (CopyBroken _ _ 3 [])|]. cbn.
  eapply rtc_l; [eexists; by eapply (SolveOk _)|]. cbn.
  eapply rtc_l; [eexists; by eapply (LoadRecord _ _ _)|]. cbn.
  eapply rtc_l; [eexists; by eapply (SolveRecord _ _ _)|]. cbn. apply rtc_refl.
Qed.

Lemma docker_export_ends_witness :
  let p := Pipe (SolveDone None) (LoadDone None) [7] true true None in
  5 <= length [7] + 5 /\ (solve p = SolveDone None /\ load p = LoadDone None) /\ got p = [7].
Proof.
  refine (match docker_export_ends [7] (fun _ => true) (Pipe (SolveDone None) (LoadDone None) [7] true true None) 5 _ with
          | conj Hn (conj _ (conj Hok (conj _ Hall))) => conj Hn (conj (proj1 (Hok _) eq_refl) (proj1 (Hall _ eq_refl))) end);
    [|by exists None, None|by exists None, None].
  eapply nsteps_l; [eexists; by eapply (Transfer _ _ 7 [])|]. cbn.
  eapply nsteps_l; [eexists; by eapply (SolveOk _)|]. cbn.
  eapply nsteps_l; [eexists; by eapply (LoadOk _)|]. cbn.
  eapply nsteps_l; [eexists; by eapply (LoadRecord _ _ _)|]. cbn.
  eapply nsteps_l; [eexists; by eapply (SolveRecord _ _ _)|]. cbn. apply nsteps_O.
Defined.
