(* ===== verification/Graph.v ===== *)
(** * The diagram of a pipeline (visualize/graph.go, d2.go, dot.go)

    A validated pipeline becomes a graph of display nodes, edges and layers, which the D2 and
    DOT emitters turn into text.  [strconv.Quote] (the verb %q) is a parameter of the
    emitters: nothing depends on how it escapes. *)

From stdpp Require Import pretty.
From S2P Require Import Prelude Errors GoStrings Regex Conditional Model Defaults Names Secret Dfs Validate Duration.

(** ** Data *)

Inductive EdgeKind : Set := DependsEdge | ArtifactEdge.
#[export] Instance EdgeKind_eq_dec : EqDecision EdgeKind.
Proof. solve_decision. Defined.

Module Edge.
Record t := mk { From : string; To : string; Label : string; Kind : EdgeKind }.
End Edge.

Module StepInfo.
Record t := mk { Name : string; When : string; HasSecrets : bool; AllowFailure : bool }.
End StepInfo.

Module GNode.
Record t := mk {
  ID : string;
  Steps : list StepInfo.t;
  When : string;
  Matrix : list string;
  Image : string;
  HasSecrets : bool;
  Publish : string
}.
End GNode.

Module Graph.
Record t := mk { Title : string; Nodes : list GNode.t; Edges : list Edge.t; Layers : list (list nat) }.
End Graph.

(** ** Nodes and edges *)

Definition when_text (w : option When.t) : string := match w with Some w => When.Expression w | None => "" end.

Definition step_info (s : Step.t) : StepInfo.t :=
  StepInfo.mk (Step.Name s) (when_text (Step.When s)) (negb (bool_decide (Step.Secrets s = []))) (Step.AllowFailure s).

Definition buildNode (j : Job.t) : GNode.t :=
  let steps := step_info <$> Job.Steps j in
  GNode.mk (Job.Name j) steps (when_text (Job.When j))
    (match Job.Matrix j with
     | Some m => (fun d => Dimension.Name d +:+ "=" +:+ Join (Dimension.Values d) ",") <$> Matrix.Dimensions m
     | None => []
     end)
    (Job.Image j)
    (negb (bool_decide (Job.Secrets j = [])) || existsb StepInfo.HasSecrets steps)
    (match Job.Publish j with Some p => Publish.Image p | None => "" end).

Definition buildNodes (jobs : list Job.t) : list GNode.t := buildNode <$> jobs.

Definition job_edges (j : Job.t) : list Edge.t :=
  ((fun dep => Edge.mk dep (Job.Name j) "" DependsEdge) <$> Job.DependsOn j) ++
  ((fun a => Edge.mk (Artifact.From a) (Job.Name j) (Artifact.Source a +:+ " -> " +:+ Artifact.Target a) ArtifactEdge)
     <$> Job.Artifacts j).

Definition buildEdges (jobs : list Job.t) : list Edge.t := jobs ≫= job_edges.

(** ** Layers *)

(** One dependency of job [idx]; the index of a name is below the number of jobs, so the
    slice accesses succeed. *)
Definition depth_dep (nameToIdx : gmap string nat) (idx : nat) (depths : list nat) (dep : string) : list nat :=
  match nameToIdx !! dep with
  | Some di => <[idx := max (default 0 (depths !! idx)) (default 0 (depths !! di) + 1)]> depths
  | None => depths
  end.

(** [jobs[idx]] panics out of range. *)
Definition depth_step (jobs : list Job.t) (nameToIdx : gmap string nat) (depths : option (list nat)) (idx : nat)
    : option (list nat) :=
  d ← depths; j ← jobs !! idx; Some (foldl (depth_dep nameToIdx idx) d (Job.DependsOn j)).

Definition job_depths (jobs : list Job.t) (topoOrder : list nat) (nameToIdx : gmap string nat) : option (list nat) :=
  foldl (depth_step jobs nameToIdx) (Some (replicate (length jobs) 0)) topoOrder.

(** [slices.Max]. *)
Definition slices_Max (l : list nat) : nat := foldr max 0 l.

Definition group_depths (depths : list nat) : list (list nat) :=
  foldl (fun grouped '(i, d) => alter (fun l => l ++ [i]) d grouped)
    (replicate (slices_Max depths + 1) []) (imap pair depths).

(** [None] is a panic. *)
Definition buildLayers (jobs : list Job.t) (topoOrder : list nat) (nameToIdx : gmap string nat)
    : option (list (list nat)) :=
  match jobs, topoOrder with
  | [], _ => Some []
  | _, [] => Some [seq 0 (length jobs)]
  | _, _ => group_depths <$> job_depths jobs topoOrder nameToIdx
  end.

Definition name_index (jobs : list Job.t) : gmap string nat :=
  foldl (fun m ij => <[Job.Name ij.2 := ij.1]> m) ∅ (imap pair jobs).

Definition BuildGraph (p : Pipeline.t) : option Graph.t :=
  let jobs := Pipeline.Jobs p in
  layers ← buildLayers jobs (default [] (Pipeline.TopoOrder p)) (name_index jobs);
  Some (Graph.mk (Pipeline.Name p) (buildNodes jobs) (buildEdges jobs) layers).

(** ** Identifiers *)

Definition byte (c : ascii) : N := N_of_ascii c.
Definition between (a b : N) (c : ascii) : bool := (a <=? byte c)%N && (byte c <=? b)%N.
Definition cont_byte : ascii -> bool := between 128 191.

(** The number of bytes of the first rune, as [utf8.DecodeRune] counts them: invalid
    encodings are one byte wide. *)
Definition rune_width (s : list ascii) : nat :=
  match s with
  | [] => 0
  | a :: s1 =>
      match s1 with
      | b :: s2 =>
          if between 194 223 a && cont_byte b then 2 else
          match s2 with
          | c :: s3 =>
              if ((byte a =? 224)%N && between 160 191 b || between 225 236 a && cont_byte b
                  || (byte a =? 237)%N && between 128 159 b || between 238 239 a && cont_byte b) && cont_byte c then 3 else
              match s3 with
              | d :: _ =>
                  if ((byte a =? 240)%N && between 144 191 b || between 241 243 a && cont_byte b
                      || (byte a =? 244)%N && between 128 143 b) && cont_byte c && cont_byte d then 4 else 1
              | [] => 1
              end
          | [] => 1
          end
      | [] => 1
      end
  end.

(** [[a-zA-Z0-9_]]. *)
Definition id_char (c : ascii) : bool :=
  between 97 122 c || between 65 90 c || between 48 57 c || (byte c =? 95)%N.

(** [_nonIDChar.ReplaceAllString(s, "_")]: [skip] bytes of a rune that was replaced. *)
Fixpoint replace_nonid (skip : nat) (s : list ascii) : list ascii :=
  match s with
  | [] => []
  | c :: s' =>
      match skip with
      | S n => replace_nonid n s'
      | 0 => if id_char c then c :: replace_nonid 0 s' else "_"%char :: replace_nonid (rune_width s - 1) s'
      end
  end.

Definition base_id (s : string) : string := String.string_of_list_ascii (replace_nonid 0 (bytes s)).

Definition candidate (base : string) (i : nat) : string := base +:+ "_" +:+ pretty i.

(** The loop over the suffixes; [seen] is the key set of the Go map. *)
Fixpoint first_free (fuel : nat) (base : string) (i : nat) (seen : gset string) : option string :=
  match fuel with
  | 0 => None
  | S fuel' =>
      if decide (candidate base i ∈ seen) then first_free fuel' base (S i) seen else Some (candidate base i)
  end.

(** The identifier and the new map; one round more than there are names is enough. *)
Definition SanitizeID (s : string) (seen : gset string) : option (string * gset string) :=
  let base := base_id s in
  if decide (base ∉ seen) then Some (base, {[ base ]} ∪ seen) else
  c ← first_free (S (size seen)) base 1 seen;
  Some (c, {[ c ]} ∪ seen).

(** The identifiers of a list of names, against one map. *)
Fixpoint sanitize_all (names : list string) (seen : gset string) : option (list string) :=
  match names with
  | [] => Some []
  | n :: names' => '(id, seen) ← SanitizeID n seen; ids ← sanitize_all names' seen; Some (id :: ids)
  end.

(** ** Correctness of the layers *)

Section layers.
Variables (jobs : list Job.t) (index : gmap string nat).
Hypothesis Hindex : index_correct jobs index.

Definition depth (d : list nat) (i : nat) : nat := default 0 (d !! i).

(** The greatest depth of the dependencies, plus one. *)
Definition deps_depth (d : list nat) (deps : list string) : nat :=
  foldr max 0 ((fun di => depth d di + 1) <$> omap (fun dep => index !! dep) deps).

Lemma fold_depth_dep idx deps d :
  idx < length d -> (forall dep di, dep ∈ deps -> index !! dep = Some di -> di <> idx) ->
  let d' := foldl (depth_dep index idx) d deps in
  length d' = length d /\ (forall i, i <> idx -> d' !! i = d !! i) /\
  d' !! idx = Some (max (depth d idx) (deps_depth d deps)).
Proof.
  intros Hidx Hdi. revert d Hidx. induction deps as [|dep deps IH]; intros d Hidx.
  - cbn. split_and!; [done|done|]. unfold depth, deps_depth. cbn. destruct (lookup_lt_is_Some_2 d idx Hidx) as [x Hx].
    rewrite Hx. cbn. by rewrite Nat.max_0_r.
  - cbn [foldl]. destruct (index !! dep) as [di|] eqn:Hd.
    + assert (di <> idx) as Hne by (eapply Hdi; [by left|done]).
      set (d1 := <[idx := max (depth d idx) (depth d di + 1)]> d).
      assert (depth_dep index idx d dep = d1) as -> by (unfold depth_dep; by rewrite Hd). cbn zeta. assert (length d1 = length d) as Hl by apply length_insert.
      destruct (IH (fun dep di H => Hdi dep di (list_elem_of_further _ _ _ H)) d1) as (H1 & H2 & H3); [lia|].
      split_and!; [lia|intros i Hi; rewrite H2 by done; unfold d1; by rewrite list_lookup_insert_ne|].
      rewrite H3. f_equal. unfold deps_depth. cbn. rewrite Hd. cbn.
      assert (depth d1 idx = max (depth d idx) (depth d di + 1)) as ->.
      { unfold depth at 1, d1. by rewrite list_lookup_insert_eq. }
      assert (foldr max 0 ((fun k => depth d1 k + 1) <$> omap (fun dep => index !! dep) deps) =
              foldr max 0 ((fun k => depth d k + 1) <$> omap (fun dep => index !! dep) deps)) as ->; [|lia].
      f_equal. apply list_fmap_ext. intros k x Hk%list_elem_of_lookup_2. apply list_elem_of_omap in Hk as (dep' & Hin & Hk).
      assert (x <> idx) as Hx by (eapply Hdi; [by right|done]). unfold depth, d1. by rewrite list_lookup_insert_ne.
    + assert (depth_dep index idx d dep = d) as -> by (unfold depth_dep; by rewrite Hd). cbn zeta.
      destruct (IH (fun dep di H => Hdi dep di (list_elem_of_further _ _ _ H)) d Hidx) as (H1 & H2 & H3).
      split_and!; [done|done|]. rewrite H3. unfold deps_depth. cbn. by rewrite Hd.
Qed.

Lemma deps_depth_ext d d' deps :
  (forall dep di, dep ∈ deps -> index !! dep = Some di -> depth d di = depth d' di) -> deps_depth d deps = deps_depth d' deps.
Proof.
  intros Hd. unfold deps_depth. f_equal. apply list_fmap_ext. intros k x Hk%list_elem_of_lookup_2.
  apply list_elem_of_omap in Hk as (dep & Hin & Hk). by rewrite (Hd dep x).
Qed.

Variable order : list nat.
Hypothesis Hperm : order ≡ₚ seq 0 (length jobs).
Hypothesis Hfirst : deps_first jobs order.

(** A dependency of a job in the processed part was processed before it. *)
Lemma dep_processed l1 l2 i j dep di :
  order = l1 ++ l2 -> i ∈ l1 -> jobs !! i = Some j -> dep ∈ Job.DependsOn j -> index !! dep = Some di -> di ∈ l1.
Proof.
  intros Ho Hi Hj Hdep Hdi. apply list_elem_of_split in Hi as (k1 & k2 & ->).
  destruct (Hfirst k1 i (k2 ++ l2) j dep) as (i' & j' & Hi' & Hj' & Hn); [by rewrite Ho, <- app_assoc|done|done|].
  assert (index !! dep = Some i') as Heq by (apply Hindex; by exists j'). rewrite Hdi in Heq. injection Heq as ->. set_solver.
Qed.

Lemma job_depths_inv l1 l2 :
  order = l1 ++ l2 ->
  exists d, foldl (depth_step jobs index) (Some (replicate (length jobs) 0)) l1 = Some d /\ length d = length jobs /\
    (forall i j, i ∈ l1 -> jobs !! i = Some j -> d !! i = Some (deps_depth d (Job.DependsOn j))) /\
    (forall i, i < length jobs -> i ∉ l1 -> d !! i = Some 0).
Proof.
  assert (NoDup order) as Hnd by (rewrite Hperm; apply NoDup_seq).
  revert l2. induction l1 as [|x l1 IH] using rev_ind; intros l2 Ho.
  - eexists. split; [done|]. rewrite length_replicate. split_and!; [done|by intros i j Hi%elem_of_nil|].
    intros i Hi _. by apply lookup_replicate_2.
  - rewrite <- app_assoc in Ho. cbn in Ho. destruct (IH (x :: l2) Ho) as (d & Hd & Hl & Hdone & Htodo).
    rewrite foldl_snoc, Hd. rewrite Ho in Hnd. apply NoDup_app in Hnd as (_ & Hdisj & _).
    assert (x ∉ l1) as Hx1 by (intros Hx; by apply (Hdisj x Hx); left).
    assert (x < length jobs) as Hxn.
    { assert (x ∈ order) as Hx by (rewrite Ho; apply elem_of_app; right; by left). rewrite Hperm, elem_of_seq in Hx. lia. }
    destruct (lookup_lt_is_Some_2 jobs x Hxn) as [j Hj]. cbn. rewrite Hj. cbn.
    assert (forall dep di, dep ∈ Job.DependsOn j -> index !! dep = Some di -> di ∈ l1) as Hdeps.
    { intros dep di Hdep Hdi. destruct (Hfirst l1 x l2 j dep Ho Hj Hdep) as (i' & j' & Hi' & Hj' & Hn).
      assert (index !! dep = Some i') as Heq by (apply Hindex; by exists j'). by rewrite Hdi in Heq; injection Heq as ->. }
    destruct (fold_depth_dep x (Job.DependsOn j) d) as (Hl' & Hother & Hx); [lia|by intros dep di Hdep Hdi ->; eapply Hx1, Hdeps|].
    eexists. split; [done|]. split; [lia|]. set (d' := foldl (depth_dep index x) d (Job.DependsOn j)) in *.
    assert (forall i, i ∈ l1 -> depth d i = depth d' i) as Hsame.
    { intros i Hi. unfold depth. rewrite Hother; [done|]. by intros ->. }
    split.
    + intros i j' [Hi| ->%list_elem_of_singleton]%elem_of_app Hj'.
      * rewrite Hother by (by intros ->). rewrite (Hdone i j' Hi Hj'). f_equal. apply deps_depth_ext.
        intros dep di Hdep Hdi. apply Hsame. by eapply (dep_processed l1 (x :: l2) i j').
      * rewrite Hj in Hj'. injection Hj' as <-. rewrite Hx. f_equal.
        assert (depth d x = 0) as -> by (unfold depth; by rewrite Htodo). cbn. apply deps_depth_ext. intros dep di Hdep Hdi. eauto.
    + intros i Hi Hni. apply not_elem_of_app in Hni as [Hni Hix]. rewrite Hother; [by apply Htodo|]. set_solver.
Qed.

Lemma job_depths_spec :
  exists d, job_depths jobs order index = Some d /\ length d = length jobs /\
    forall i j, jobs !! i = Some j -> d !! i = Some (deps_depth d (Job.DependsOn j)).
Proof.
  destruct (job_depths_inv order [] (eq_sym (app_nil_r order))) as (d & Hd & Hl & Hdone & _). exists d. split_and!; [done|done|].
  intros i j Hj. apply Hdone; [|done]. rewrite Hperm, elem_of_seq. apply lookup_lt_Some in Hj. lia.
Qed.
End layers.

(** ** Grouping *)

(** The indices at a depth, in increasing order. *)
Definition at_depth (ds : list nat) (k : nat) : list nat :=
  filter (fun i => ds !! i = Some k) (seq 0 (length ds)).

Lemma filter_ext_Forall {A} (P Q : A -> Prop) `{!forall x, Decision (P x), !forall x, Decision (Q x)} l :
  Forall (fun x => P x <-> Q x) l -> filter P l = filter Q l.
Proof.
  induction 1 as [|x l Hx _ IH]; [done|]. rewrite !filter_cons, IH. destruct (decide (P x)), (decide (Q x)); tauto.
Qed.

Lemma at_depth_snoc ds x k : at_depth (ds ++ [x]) k = at_depth ds k ++ (if decide (x = k) then [length ds] else []).
Proof.
  unfold at_depth. rewrite length_app, Nat.add_1_r, seq_S, filter_app. f_equal.
  - apply filter_ext_Forall, Forall_forall. intros i [_ Hi]%elem_of_seq. cbn in Hi. by rewrite lookup_app_l.
  - rewrite filter_cons, filter_nil, list_lookup_middle by done. destruct (decide (x = k)) as [->|Hne].
    + by rewrite decide_True.
    + rewrite decide_False; [done|]. by intros [= ?].
Qed.

Lemma group_depths_gen m ds :
  foldl (fun grouped '(i, d) => alter (fun l => l ++ [i]) d grouped) (replicate m []) (imap pair ds)
  = at_depth ds <$> seq 0 m.
Proof.
  induction ds as [|x ds IH] using rev_ind.
  - cbn. apply list_eq. intros k. rewrite list_lookup_fmap. destruct (decide (k < m)).
    + rewrite lookup_replicate_2 by done. by rewrite (proj2 (lookup_seq 0 m k k)) by done.
    + rewrite !lookup_ge_None_2; [done|rewrite length_seq; lia|rewrite length_replicate; lia].
  - rewrite imap_pair_snoc, foldl_snoc, IH. apply list_eq. intros k. rewrite list_lookup_fmap.
    destruct (decide (x = k)) as [->|Hk].
    + rewrite list_lookup_alter_eq, list_lookup_fmap. destruct (seq 0 m !! k) as [k'|] eqn:Hs; [|done]. cbn.
      apply lookup_seq in Hs as [-> _]. by rewrite at_depth_snoc, decide_True.
    + rewrite list_lookup_alter_ne, list_lookup_fmap by done. destruct (seq 0 m !! k) as [k'|] eqn:Hs; [|done]. cbn.
      apply lookup_seq in Hs as [-> _]. by rewrite at_depth_snoc, decide_False, app_nil_r.
Qed.

Lemma group_depths_lookup ds k l :
  group_depths ds !! k = Some l <-> k <= slices_Max ds /\ l = at_depth ds k.
Proof.
  unfold group_depths. rewrite group_depths_gen, list_lookup_fmap, fmap_Some. split.
  - intros (k' & [-> Hk]%lookup_seq & ->). split; [lia|done].
  - intros [Hk ->]. exists k. split; [|done]. apply lookup_seq. lia.
Qed.

Lemma elem_of_at_depth ds k i : i ∈ at_depth ds k <-> ds !! i = Some k.
Proof.
  unfold at_depth. rewrite list_elem_of_filter, elem_of_seq. split; [tauto|]. intros Hi. split; [done|].
  apply lookup_lt_Some in Hi. lia.
Qed.

Lemma slices_Max_ge ds i d : ds !! i = Some d -> d <= slices_Max ds.
Proof.
  revert i. induction ds as [|x ds IH]; intros i Hi; [done|]. change (slices_Max (x :: ds)) with (max x (slices_Max ds)).
  destruct i as [|i]; [injection Hi as ->; lia|]. apply IH in Hi. lia.
Qed.

(** ** The layers of a validated pipeline *)

(** The layer a job is drawn in. *)
Definition in_layer (g : Graph.t) (i k : nat) : Prop := exists l, Graph.Layers g !! k = Some l /\ i ∈ l.

Lemma deps_depth_ge index ds deps dep di :
  dep ∈ deps -> index !! dep = Some di -> depth ds di < deps_depth index ds deps.
Proof.
  intros Hdep Hdi. unfold deps_depth. induction deps as [|x deps IH]; [by apply elem_of_nil in Hdep|].
  apply elem_of_cons in Hdep as [<-|Hdep]; cbn [omap list_omap].
  - rewrite Hdi. cbn [fmap list_fmap foldr]. lia.
  - specialize (IH Hdep). destruct (index !! x); cbn [fmap list_fmap foldr]; [lia|done].
Qed.

Lemma deps_depth_S index ds deps k :
  deps_depth index ds deps = S k -> exists dep di, dep ∈ deps /\ index !! dep = Some di /\ depth ds di = k.
Proof.
  unfold deps_depth. induction deps as [|x deps IH]; [done|]. cbn [omap list_omap].
  destruct (index !! x) as [di|] eqn:Hx; cbn [fmap list_fmap foldr].
  - intros Hm. destruct (decide (depth ds di + 1 = S k)) as [Hd|Hd].
    + exists x, di. split_and!; [by left|done|lia].
    + destruct IH as (dep & di' & H1 & H2 & H3); [lia|]. exists dep, di'. split_and!; [by right|done|done].
  - intros Hm. destruct (IH Hm) as (dep & di & H1 & H2 & H3). exists dep, di. split_and!; [by right|done|done].
Qed.

Section graph_spec.
Context `{cel : CEL}.

(** What is drawn for a validated pipeline. *)
Lemma BuildGraph_shape p p' order :
  ValidatePipeline (Some p) = Ok (p', order) ->
  exists d, BuildGraph p' = Some (Graph.mk (Pipeline.Name p') (buildNodes (Pipeline.Jobs p')) (buildEdges (Pipeline.Jobs p')) (group_depths d)) /\
    length d = length (Pipeline.Jobs p') /\ index_correct (Pipeline.Jobs p') (name_index (Pipeline.Jobs p')) /\
    forall i j, Pipeline.Jobs p' !! i = Some j -> d !! i = Some (deps_depth (name_index (Pipeline.Jobs p')) d (Job.DependsOn j)).
Proof.
  intros Hok. pose proof (ValidatePipeline_sorted _ _ _ Hok) as [Hperm Hfirst].
  apply ValidatePipeline_Ok in Hok as ((Hne & _ & _ & _ & Hnd & _ & _) & _ & ->). cbn in *.
  set (jobs := validated_job <$> Pipeline.Jobs p) in *.
  assert (index_correct jobs (name_index jobs)) as Hindex.
  { apply job_index_correct. unfold jobs. by rewrite fmap_validated. }
  assert (length jobs = length (Pipeline.Jobs p)) as Hlen by apply length_fmap. rewrite <- Hlen in Hperm.
  destruct (job_depths_spec jobs (name_index jobs) Hindex order Hperm Hfirst) as (d & Hd & Hl & Hspec).
  assert (buildLayers jobs order (name_index jobs) = Some (group_depths d)) as Hb.
  { unfold buildLayers. destruct jobs as [|j0 jobs0] eqn:Hj; [by destruct (Pipeline.Jobs p)|].
    destruct order as [|o order]; [by apply Permutation_nil_l in Hperm|]. by rewrite Hd. }
  exists d. split_and!; [|done..]. unfold BuildGraph. cbn -[buildLayers name_index]. fold jobs. by rewrite Hb.
Qed.

(** The two ends of an edge: a job and one of its dependencies. *)
Lemma validated_edge p p' order e :
  ValidatePipeline (Some p) = Ok (p', order) -> e ∈ buildEdges (Pipeline.Jobs p') ->
  exists i j di dj, Pipeline.Jobs p' !! i = Some j /\ Pipeline.Jobs p' !! di = Some dj /\
    Job.Name j = Edge.To e /\ Job.Name dj = Edge.From e /\ Job.Name dj ∈ Job.DependsOn j.
Proof.
  intros Hok He. apply ValidatePipeline_Ok in Hok as ((_ & _ & _ & Hjobs & _ & Hclosed & _) & _ & ->). cbn in *.
  apply list_elem_of_bind in He as (j & He & Hj).
  assert (Edge.To e = Job.Name j /\ Edge.From e ∈ Job.DependsOn j) as [Hto Hfrom].
  { unfold job_edges in He. apply elem_of_app in He as [(dep & -> & Hdep)%list_elem_of_fmap|(a & -> & Ha)%list_elem_of_fmap]; [done|].
    split; [done|]. cbn. apply list_elem_of_fmap in Hj as (j0 & -> & Hj0). rewrite Forall_forall in Hjobs.
    destruct (Hjobs j0 Hj0) as (_ & _ & _ & _ & _ & _ & [Hart _] & _). rewrite Forall_forall in Hart. by apply Hart. }
  apply list_elem_of_lookup in Hj as Hi. destruct Hi as [i Hi].
  apply closed_validated in Hclosed. apply (Hclosed j _ Hj) in Hfrom as Hd.
  apply list_elem_of_fmap in Hd as (dj & Hname & [di Hdi]%list_elem_of_lookup). exists i, j, di, dj.
  rewrite <- Hname. done.
Qed.

(** A layer holds the jobs of a depth, each once. *)
Lemma in_layer_depth T N E d i k : in_layer (Graph.mk T N E (group_depths d)) i k <-> d !! i = Some k.
Proof.
  unfold in_layer. cbn. split.
  - intros (l & [_ ->]%group_depths_lookup & Hi). by apply elem_of_at_depth.
  - intros Hi. exists (at_depth d k). rewrite group_depths_lookup, elem_of_at_depth.
    split; [|done]. split; [by eapply slices_Max_ge|done].
Qed.

Lemma group_depths_NoDup d : NoDup (concat (group_depths d)).
Proof.
  unfold group_depths. rewrite group_depths_gen. generalize (slices_Max d + 1) as m. induction m as [|m IH]; [constructor|].
  rewrite seq_S, fmap_app, concat_app. cbn [fmap list_fmap concat]. rewrite app_nil_r. apply NoDup_app. split_and!; [done| |].
  - intros i (l & Hl & Hi)%list_elem_of_In%in_concat Him. apply list_elem_of_In in Hl, Hi.
    apply list_elem_of_fmap in Hl as (k & -> & Hk%elem_of_seq). apply elem_of_at_depth in Hi, Him. rewrite Hi in Him. injection Him. lia.
  - apply NoDup_filter, NoDup_seq.
Qed.

(** The diagram of a validated pipeline has a layer per length of dependency chain:
    building it never panics; every job is drawn in exactly one layer; a job is drawn
    strictly below each of its dependencies; and a job that is not in the first layer has a
    dependency in the layer right above, so the layer of a job is the length of the longest
    chain of dependencies under it. *)
Theorem BuildGraph_layers p p' order
  (Hok : ValidatePipeline (Some p) = Ok (p', order)) :
  exists g, BuildGraph p' = Some g /\
    (forall i, i < length (Pipeline.Jobs p') -> exists k, in_layer g i k /\ forall k', in_layer g i k' -> k' = k) /\
    (forall i j di dj k k', Pipeline.Jobs p' !! i = Some j -> Pipeline.Jobs p' !! di = Some dj ->
       Job.Name dj ∈ Job.DependsOn j -> in_layer g i k -> in_layer g di k' -> k' < k) /\
    (forall i j k, Pipeline.Jobs p' !! i = Some j -> in_layer g i (S k) ->
       exists di dj, Pipeline.Jobs p' !! di = Some dj /\ Job.Name dj ∈ Job.DependsOn j /\ in_layer g di k).
Proof.
  destruct (BuildGraph_shape _ _ _ Hok) as (d & -> & Hl & Hindex & Hspec). eexists. split; [done|]. setoid_rewrite in_layer_depth. split_and!.
  - intros i Hi. rewrite <- Hl in Hi. destruct (lookup_lt_is_Some_2 d i Hi) as [k Hk]. exists k. split; [done|]. intros k' Hk'. congruence.
  - intros i j di dj k k' Hj Hdj Hdep Hk Hk'. rewrite (Hspec i j Hj) in Hk. injection Hk as <-.
    assert (depth d di = k') as <- by (unfold depth; by rewrite Hk'). apply (deps_depth_ge _ _ _ (Job.Name dj)); [done|].
    apply Hindex. by exists dj.
  - intros i j k Hj Hk. rewrite (Hspec i j Hj) in Hk. injection Hk as Hk.
    destruct (deps_depth_S _ _ _ _ Hk) as (dep & di & Hdep & Hdi & Hdk). apply Hindex in Hdi as (dj & Hdj & <-).
    exists di, dj. split_and!; [done|done|]. unfold depth in Hdk. apply lookup_lt_Some in Hdj as Hlt. rewrite <- Hl in Hlt.
    destruct (lookup_lt_is_Some_2 d di Hlt) as [x Hx]. rewrite Hx in Hdk. cbn in Hdk. by subst.
Qed.
End graph_spec.

(** ** Identifiers are unique *)

Definition id_string (s : string) : Prop := Forall (fun c => id_char c = true) (bytes s).

Lemma id_append s t : id_string s -> id_string t -> id_string (s +:+ t).
Proof. unfold id_string. rewrite bytes_app. apply Forall_app_2. Qed.

Lemma base_id_ok s : id_string (base_id s).
Proof.
  unfold id_string, base_id, bytes. rewrite String.list_ascii_of_string_of_list_ascii.
  generalize 0 as skip. induction (String.list_ascii_of_string s) as [|c l IH]; intros skip; [constructor|]. cbn [replace_nonid].
  destruct skip; [|apply IH]. destruct (id_char c) eqn:Hc; constructor; [done|apply IH|done|apply IH].
Qed.

Lemma digit_id a : is_digit a = true -> id_char a = true.
Proof. unfold is_digit, in_range, id_char, between, byte. intros ->. by rewrite orb_true_r. Qed.

Lemma pretty_go_id (n : N) s : id_string s -> id_string (pretty_N_go n s).
Proof.
  revert s. induction (N.lt_wf_0 n) as [n _ IH]. intros s Hs. destruct (decide (n = 0)%N) as [->|Hn].
  - by rewrite pretty_N_go_0.
  - rewrite pretty_N_go_step by lia. apply IH; [apply N.div_lt; lia|].
    constructor; [|done]. apply digit_id. by apply digit_char, N.mod_lt.
Qed.

Lemma pretty_id (i : nat) : id_string (pretty i).
Proof.
  unfold pretty, pretty_nat, pretty, pretty_N. case_decide; [repeat constructor|]. apply pretty_go_id. constructor.
Qed.

Lemma candidate_ok base i : id_string base -> id_string (candidate base i).
Proof.
  intros Hb. unfold candidate. apply id_append; [done|]. apply (id_append "_"); [repeat constructor|apply pretty_id].
Qed.

#[export] Instance candidate_inj base : Inj (=) (=) (candidate base).
Proof. unfold candidate. intros i j H%(inj (String.append base))%(inj (String.append "_")). by apply (inj pretty). Qed.

Lemma first_free_Some fuel base i seen c :
  first_free fuel base i seen = Some c -> c ∉ seen /\ exists k, c = candidate base k.
Proof.
  revert i. induction fuel as [|fuel IH]; intros i; cbn; [done|]. case_decide; [apply IH|]. intros [= <-]. eauto.
Qed.

Lemma first_free_None fuel base i seen k :
  first_free fuel base i seen = None -> i <= k < i + fuel -> candidate base k ∈ seen.
Proof.
  revert i. induction fuel as [|fuel IH]; intros i; cbn; [lia|]. case_decide; [|done]. intros Hn Hk.
  destruct (decide (k = i)) as [->|]; [done|]. apply (IH (S i)); [done|lia].
Qed.

(** Among one candidate more than there are names, one is free. *)
Lemma first_free_total base i seen : is_Some (first_free (S (size seen)) base i seen).
Proof.
  destruct (first_free (S (size seen)) base i seen) as [c|] eqn:Hf; [done|]. exfalso.
  assert ((list_to_set (candidate base <$> seq i (S (size seen))) : gset string) ⊆ seen) as Hsub.
  { intros x (k & -> & [Hk1 Hk2]%elem_of_seq)%elem_of_list_to_set%list_elem_of_fmap. by eapply first_free_None. }
  apply subseteq_size in Hsub. rewrite size_list_to_set in Hsub.
  - rewrite length_fmap, length_seq in Hsub. lia.
  - apply NoDup_fmap_2; [apply _|apply NoDup_seq].
Qed.

Lemma SanitizeID_spec s seen :
  exists id, SanitizeID s seen = Some (id, {[ id ]} ∪ seen) /\ id ∉ seen /\ id_string id.
Proof.
  unfold SanitizeID. case_decide as Hb.
  - exists (base_id s). split_and!; [done|done|apply base_id_ok].
  - destruct (first_free_total (base_id s) 1 seen) as [c Hc]. rewrite Hc. cbn. exists c.
    apply first_free_Some in Hc as [Hn [k ->]]. split_and!; [done|done|apply candidate_ok, base_id_ok].
Qed.

(** C0: [SanitizeID] gives every name its own identifier: for any list of names - repeated
    ones, names that only differ in replaced characters, names that look like generated
    suffixes - against one map it terminates for each of them, and the identifiers are
    non-repeating words over letters, digits and underscores, new to the map. *)
Theorem sanitize_all_unique names seen :
  exists ids, sanitize_all names seen = Some ids /\ length ids = length names /\ NoDup ids /\
    Forall (fun id => id_string id /\ id ∉ seen) ids.
Proof.
  revert seen. induction names as [|n names IH]; intros seen; cbn.
  - exists []. split_and!; [done|done|constructor|constructor].
  - destruct (SanitizeID_spec n seen) as (id & -> & Hn & Hid). cbn. destruct (IH ({[ id ]} ∪ seen)) as (ids & -> & Hl & Hnd & Hall).
    cbn. exists (id :: ids). split_and!; [done|by rewrite <- Hl| |].
    + constructor; [|done]. intros Hin. rewrite Forall_forall in Hall. destruct (Hall id Hin) as [_ Hx]. set_solver.
    + constructor; [done|]. eapply Forall_impl; [exact Hall|]. cbn. set_solver.
Qed.

(** ** Writing lines *)

(** [termWriter]: the lines written and the first error, after which nothing is written.
    The underlying writer may fail depending on what it has written. *)
Definition termWriter : Type := list string * option error.

Definition writeln (w : list string -> string -> option error) (tw : termWriter) (s : string) : termWriter :=
  match tw.2 with
  | Some _ => tw
  | None => match w tw.1 s with Some e => (tw.1, Some e) | None => (tw.1 ++ [s], None) end
  end.

Definition write_all (w : list string -> string -> option error) (lines : list string) : termWriter :=
  foldl (writeln w) ([], None) lines.

Definition nl : string := String "010" EmptyString.

Section emit.
Variable Quote : string -> string.

(** [buildD2Label]. *)
Definition node_label (n : GNode.t) : string :=
  Join ([GNode.ID n] ++ (if decide (GNode.When n = "") then [] else ["[when: " +:+ GNode.When n +:+ "]"])
        ++ ((fun m => "[matrix: " +:+ m +:+ "]") <$> GNode.Matrix n)
        ++ (if GNode.HasSecrets n then ["[secrets]"] else [])
        ++ (if decide (GNode.Publish n = "") then [] else ["[publish: " +:+ GNode.Publish n +:+ "]"])) nl.

(** Every node with its identifier; [None] only if [SanitizeID] ran out of fuel. *)
Definition with_ids (nodes : list GNode.t) : option (list (GNode.t * string)) :=
  zip nodes <$> sanitize_all (GNode.ID <$> nodes) ∅.

(** [jobIDs]: a later node with the same name replaces the earlier one. *)
Definition job_ids (ns : list (GNode.t * string)) : gmap string string :=
  foldl (fun m p => <[GNode.ID p.1 := p.2]> m) ∅ ns.

(** *** d2.go *)

Definition d2_step (s : StepInfo.t) (id : string) : string :=
  let stepLabel := StepInfo.Name s +:+ (if StepInfo.AllowFailure s then " [!]" else "") in
  "  " +:+ id +:+ ": {label: " +:+ Quote stepLabel +:+ "}".

Definition d2_node (p : GNode.t * string) : option (list string) :=
  let '(n, jobID) := p in
  ids ← sanitize_all (StepInfo.Name <$> GNode.Steps n) ∅;
  Some ([jobID +:+ ": {"; "  label: " +:+ Quote (node_label n)] ++ zip_with d2_step (GNode.Steps n) ids ++ ["}"]).

Definition d2_edge (jobIDs : gmap string string) (e : Edge.t) : list string :=
  let fromID := default "" (jobIDs !! Edge.From e) in
  let toID := default "" (jobIDs !! Edge.To e) in
  if decide (fromID = "" \/ toID = "") then [] else
  match Edge.Kind e with
  | DependsEdge => [fromID +:+ " -> " +:+ toID]
  | ArtifactEdge => [fromID +:+ " -> " +:+ toID +:+ ": " +:+ Quote (Edge.Label e) +:+ " {"; "  style.stroke-dash: 5"; "}"]
  end.

Definition d2_lines (g : Graph.t) : option (list string) :=
  ns ← with_ids (Graph.Nodes g);
  body ← mapM d2_node ns;
  Some ((if decide (Graph.Title g = "") then [] else ["# Pipeline: " +:+ Graph.Title g])
        ++ concat body ++ (Graph.Edges g ≫= d2_edge (job_ids ns))).

Definition EmitD2 (g : Graph.t) (w : list string -> string -> option error) : option (list string * option error) :=
  lines ← d2_lines g; let '(out, err) := write_all w lines in Some (out, errorf [] <$> err).

(** *** dot.go *)

(** The same text, built by a function of its own. *)
Definition buildDOTJobLabel (n : GNode.t) : string :=
  Join ([GNode.ID n] ++ (if decide (GNode.When n = "") then [] else ["[when: " +:+ GNode.When n +:+ "]"])
        ++ ((fun m => "[matrix: " +:+ m +:+ "]") <$> GNode.Matrix n)
        ++ (if GNode.HasSecrets n then ["[secrets]"] else [])
        ++ (if decide (GNode.Publish n = "") then [] else ["[publish: " +:+ GNode.Publish n +:+ "]"])) nl.

Definition dot_step_ids (p : GNode.t * string) : option (list string) :=
  (fun ids : list string => (fun id => p.2 +:+ "__" +:+ id) <$> ids) <$> sanitize_all (StepInfo.Name <$> GNode.Steps p.1) ∅.

Definition dot_subgraph (p : GNode.t * string) : option (list string) :=
  let '(n, jobID) := p in
  sids ← dot_step_ids p;
  Some (["  subgraph cluster_" +:+ jobID +:+ " {"; "    label=" +:+ Quote (buildDOTJobLabel n) +:+ ";"]
        ++ zip_with (fun s sid => "    " +:+ sid +:+ " [label=" +:+ Quote (StepInfo.Name s) +:+ "];") (GNode.Steps n) sids
        ++ ["  }"]).

Definition dotFirstStep (steps : list string) (fallback : string) : string := default fallback (head steps).

Definition dot_edge (jobIDs : gmap string string) (stepIDs : gmap string (list string)) (e : Edge.t) : list string :=
  let fromJob := default "" (jobIDs !! Edge.From e) in
  let toJob := default "" (jobIDs !! Edge.To e) in
  if decide (fromJob = "" \/ toJob = "") then [] else
  let fromNode := dotFirstStep (default [] (stepIDs !! Edge.From e)) ("cluster_" +:+ fromJob) in
  let toNode := dotFirstStep (default [] (stepIDs !! Edge.To e)) ("cluster_" +:+ toJob) in
  match Edge.Kind e with
  | DependsEdge => ["  " +:+ fromNode +:+ " -> " +:+ toNode +:+ " [ltail=" +:+ String "034" ("cluster_" +:+ fromJob +:+ String "034" (" lhead="
                    +:+ String "034" ("cluster_" +:+ toJob +:+ String "034" "];")))]
  | ArtifactEdge => ["  " +:+ fromNode +:+ " -> " +:+ toNode +:+ " [label=" +:+ Quote (Edge.Label e) +:+ " style=dashed];"]
  end.

(** Unlike [EmitD2], the cluster of a node takes its identifier from the map. *)
Definition own_ids (ns : list (GNode.t * string)) : list (GNode.t * string) :=
  (fun p => (p.1, default "" (job_ids ns !! GNode.ID p.1))) <$> ns.

Definition dot_lines (g : Graph.t) : option (list string) :=
  ns0 ← with_ids (Graph.Nodes g);
  let ns := own_ids ns0 in
  body ← mapM dot_subgraph ns;
  sids ← mapM dot_step_ids ns;
  let stepIDs := foldl (fun m p => <[GNode.ID p.1.1 := p.2]> m) ∅ (zip ns sids) in
  Some (["digraph pipeline {"; "  rankdir=TB;"; "  compound=true;";
         "  node [shape=box fontname=" +:+ String "034" ("monospace" +:+ String "034" "];")]
        ++ concat body ++ (Graph.Edges g ≫= dot_edge (job_ids ns) stepIDs) ++ ["}"]).

Definition EmitDOT (g : Graph.t) (w : list string -> string -> option error) : option (list string * option error) :=
  lines ← dot_lines g; let '(out, err) := write_all w lines in Some (out, errorf [] <$> err).

(** [filepath.Ext] on the last element of the path. *)
Definition Ext (path : string) : string :=
  let base := match LastIndexByte path "/" with Some i => str_drop (S i) path | None => path end in
  match LastIndexByte base "." with Some i => str_drop i base | None => "" end.

Definition IsSupportedOutputExt (ext : string) : bool := bool_decide (ext = ".d2") || bool_decide (ext = ".dot").

Definition EmitToFile (g : Graph.t) (outPath : string) (w : list string -> string -> option error)
    : option (list string * option error) :=
  let ext := ToLower (Ext outPath) in
  if decide (ext = ".d2") then EmitD2 g w
  else if decide (ext = ".dot") then EmitDOT g w
  else Some ([], Some (errorf [Ext outPath] (raise (Foreign "unsupported output format")))).

(** *** What is written *)

Lemma sanitize_total names seen : is_Some (sanitize_all names seen).
Proof.
  revert seen. induction names as [|n names IH]; intros seen; cbn; [done|].
  destruct (SanitizeID_spec n seen) as (id & -> & _). cbn. destruct (IH ({[ id ]} ∪ seen)) as [ids ->]. done.
Qed.

Lemma write_all_ok w lines :
  (forall before l, before ++ [l] `prefix_of` lines -> w before l = None) -> write_all w lines = (lines, None).
Proof.
  intros Hw. unfold write_all. induction lines as [|l lines IH] using rev_ind; [done|].
  rewrite foldl_snoc, IH.
  - unfold writeln. cbn. by rewrite Hw.
  - intros before l' Hp. apply Hw. by apply prefix_app_r.
Qed.

(** Without an error everything was written. *)
Lemma write_all_full w lines : (write_all w lines).2 = None -> (write_all w lines).1 = lines.
Proof.
  unfold write_all. induction lines as [|l' lines IH'] using rev_ind; [done|].
  rewrite foldl_snoc. unfold writeln at 1 3. destruct (foldl (writeln w) ([], None) lines) as [out' [e|]]; cbn in *; [done|].
  destruct (w out' l'); [done|]. intros _. by rewrite IH'.
Qed.

(** What was written before an error is the beginning of the text. *)
Lemma write_all_prefix w lines : (write_all w lines).1 `prefix_of` lines.
Proof.
  unfold write_all. induction lines as [|l lines IH] using rev_ind; [done|]. rewrite foldl_snoc.
  destruct (foldl (writeln w) ([], None) lines) as [out [e|]] eqn:Hf; cbn in *; [by apply prefix_app_r|].
  assert (out = lines) as -> by (pose proof (write_all_full w lines) as H; unfold write_all in H; rewrite Hf in H; by apply H).
  unfold writeln; cbn. destruct (w lines l); cbn; [by apply prefix_app_r|done].
Qed.

(** The emitters always produce their text. *)
Lemma node_texts_total p : is_Some (d2_node p) /\ is_Some (dot_subgraph p) /\ is_Some (dot_step_ids p).
Proof.
  destruct p as [n id]. unfold d2_node, dot_subgraph, dot_step_ids. cbn [fst snd].
  destruct (sanitize_total (StepInfo.Name <$> GNode.Steps n) ∅) as [l ->]. cbn. split_and!; by eexists.
Qed.

Lemma mapM_total {A B} (f : A -> option B) l : (forall x, is_Some (f x)) -> is_Some (mapM f l).
Proof. intros Hf. apply mapM_is_Some, Forall_forall. auto. Qed.

Lemma emit_total g : is_Some (d2_lines g) /\ is_Some (dot_lines g).
Proof.
  unfold d2_lines, dot_lines, with_ids. destruct (sanitize_total (GNode.ID <$> Graph.Nodes g) ∅) as [ids ->].
  cbn -[d2_node dot_subgraph dot_step_ids own_ids]. cbv zeta.
  destruct (mapM_total d2_node (zip (Graph.Nodes g) ids)) as [l1 ->]; [intros p; apply node_texts_total|].
  destruct (mapM_total dot_subgraph (own_ids (zip (Graph.Nodes g) ids))) as [l2 ->]; [intros p; apply node_texts_total|].
  destruct (mapM_total dot_step_ids (own_ids (zip (Graph.Nodes g) ids))) as [l3 ->]; [intros p; apply node_texts_total|].
  done.
Qed.
End emit.

(** DOT node names are not unique across jobs, although cluster names are: the separator
    between the job and the step is a legal part of both. *)
Lemma dot_ids_collide :
  let n1 := GNode.mk "a" [StepInfo.mk "b__c" "" false false] "" [] "" false "" in
  let n2 := GNode.mk "a__b" [StepInfo.mk "c" "" false false] "" [] "" false "" in
  (exists ns, with_ids [n1; n2] = Some ns /\ NoDup ns.*2 /\ mapM dot_step_ids ns = Some [["a__b__c"]; ["a__b__c"]]).
Proof.
  eexists. split; [vm_compute; reflexivity|]. split; [|vm_compute; reflexivity].
  apply (bool_decide_unpack _). vm_compute. exact I.
Qed.

(** ** Witness *)

(** [test] and [lint] depend on [build], [deploy] on both and on [build]. *)
Definition ex_diagram : Pipeline.t :=
  let job n deps := Job.empty n <| Job.Image := "alpine" |> <| Job.DependsOn := deps |>
                      <| Job.Steps := [Step.empty "s" <| Step.Run := ["make"] |>] |> in
  Pipeline.mk "p" [job "deploy" ["lint"; "build"; "test"]; job "lint" ["build"]; job "build" []; job "test" ["build"]] [] [] None None None.

Definition ex_diagram_valid : Pipeline.t * list nat :=
  match ValidatePipeline (cel := Conditional.ex_cel) (Some ex_diagram) with Ok r => r | Fail _ => (ex_diagram, []) end.

Lemma BuildGraph_layers_witness :
  exists g, BuildGraph ex_diagram_valid.1 = Some g /\ Graph.Layers g = [[2]; [1; 3]; [0]] /\ exists k, in_layer g 3 k.
Proof.
  refine (match BuildGraph_layers (cel := Conditional.ex_cel) ex_diagram ex_diagram_valid.1 ex_diagram_valid.2 _ with
          | ex_intro _ g (conj Hg (conj Hone _)) => ex_intro _ g (conj Hg (conj _ _)) end).
  - vm_compute. reflexivity.
  - assert (Graph.Layers <$> BuildGraph ex_diagram_valid.1 = Some [[2]; [1; 3]; [0]]) as Hl by (vm_compute; reflexivity).
    rewrite Hg in Hl. by injection Hl.
  - destruct (Hone 3) as (k & Hk & _); [vm_compute; lia|]. by exists k.
Defined.
