(* ===== verification/Terminal.v ===== *)
(** * The terminal diagram (visualize/terminal.go)

    Every job is a box; the boxes of a layer stand side by side, and between two layers two
    lines of connectors join the centers of the boxes.  A line is a list of columns with one
    rune each.  Go's indexing panics out of range: rendering is partial, and the theorems
    show that it never fails on the graph of a pipeline.  Colours are a parameter. *)

From stdpp Require Import pretty.
From S2P Require Import Prelude Errors GoStrings Regex Conditional Model Defaults Names Secret Dfs Validate Duration Graph.

(** A loop whose body may panic. *)
Fixpoint fold_partial {A B} (f : B -> A -> option B) (b : B) (l : list A) : option B :=
  match l with
  | [] => Some b
  | a :: l => b ← f b a; fold_partial f b l
  end.

(** ** Text *)

(** [utf8.RuneCountInString]: [skip] bytes of the current rune. *)
Fixpoint rune_count_from (skip : nat) (s : list ascii) : nat :=
  match s with
  | [] => 0
  | _ :: s' =>
      match skip with
      | S n => rune_count_from n s'
      | 0 => S (rune_count_from (rune_width s - 1) s')
      end
  end.

Definition RuneCountInString (s : string) : nat := rune_count_from 0 (bytes s).

(** A rune is its encoding; [strings.Repeat]. *)
Definition Repeat (r : string) (n : nat) : string := Join (replicate n r) "".

(** The styles of the file and the parts of [lipgloss.RoundedBorder]. *)
Inductive style : Set :=
  | styleJobName | styleBullet | styleAllowFail | styleWhenLabel | styleWhenExpr | styleMatrix | styleSecrets
  | stylePublish | styleConnector | styleBorder.

Record border : Type := Border {
  TopLeft : string; Top : string; TopRight : string; MiddleLeft : string; MiddleRight : string;
  BottomLeft : string; Bottom : string; BottomRight : string; Left : string; Right : string
}.

Record renderedBox : Type := Box { lines : list string; width : nat }.

(** [connEdge]. *)
Record connEdge : Type := ConnEdge { fromNodeIdx : nat; toNodeIdx : nat; c_kind : EdgeKind; c_label : string }.

Definition minBoxWidth : nat := 22.

Section render.
Variables (Render : style -> string -> string) (b : border).

(** ** Boxes *)

Definition step_line (s : StepInfo.t) : string * string :=
  let raw := "  " +:+ "○" +:+ " " +:+ StepInfo.Name s in
  let styled := "  " +:+ Render styleBullet "○" +:+ " " +:+ StepInfo.Name s in
  let '(raw, styled) :=
    if StepInfo.AllowFailure s then (raw +:+ " [!]", styled +:+ " " +:+ Render styleAllowFail "[!]") else (raw, styled) in
  if decide (StepInfo.When s = "") then (raw, styled) else
  (raw +:+ " (when: " +:+ StepInfo.When s +:+ ")",
   styled +:+ " " +:+ Render styleWhenLabel "(when:" +:+ " " +:+ Render styleWhenExpr (StepInfo.When s) +:+ Render styleWhenLabel ")").

(** The lines of a box, raw and styled. *)
Definition buildBoxContent (n : GNode.t) : list (string * string) :=
  [(GNode.ID n, Render styleJobName (GNode.ID n))]
  ++ (step_line <$> GNode.Steps n)
  ++ (if decide (GNode.When n = "") then [] else
      [("  when: " +:+ GNode.When n, "  " +:+ Render styleWhenLabel "when:" +:+ " " +:+ Render styleWhenExpr (GNode.When n))])
  ++ ((fun m => ("  matrix: " +:+ m, "  " +:+ Render styleMatrix "matrix:" +:+ " " +:+ m)) <$> GNode.Matrix n)
  ++ (if GNode.HasSecrets n then [("  secrets: yes", "  " +:+ Render styleSecrets "secrets: yes")] else [])
  ++ (if decide (GNode.Publish n = "") then [] else
      [("  publish: " +:+ GNode.Publish n, "  " +:+ Render stylePublish "publish:" +:+ " " +:+ GNode.Publish n)]).

Definition inner_width (content : list (string * string)) : nat :=
  max (foldl (fun m c => max m (RuneCountInString c.1)) 0 content) (minBoxWidth - 4).

(** One line of the content; [strings.Repeat] panics on a negative count. *)
Definition content_line (innerW : nat) (c : string * string) : option string :=
  if decide (RuneCountInString c.1 <= innerW) then
    Some (Render styleBorder (Left b) +:+ " " +:+ c.2 +:+ Repeat " " (innerW - RuneCountInString c.1) +:+ " " +:+ Render styleBorder (Right b))
  else None.

Definition buildBox (n : GNode.t) : option renderedBox :=
  let content := buildBoxContent n in
  let innerW := inner_width content in
  let boxW := innerW + 4 in
  let top := Render styleBorder (TopLeft b +:+ Repeat (Top b) (boxW - 2) +:+ TopRight b) in
  let mid := Render styleBorder (MiddleLeft b +:+ Repeat (Top b) (boxW - 2) +:+ MiddleRight b) in
  let bottom := Render styleBorder (BottomLeft b +:+ Repeat (Bottom b) (boxW - 2) +:+ BottomRight b) in
  body ← mapM (content_line innerW) content;
  Some (Box ([top] ++ match body with [] => [] | first :: rest => [first; mid] ++ rest end ++ [bottom]) boxW).

(** ** Layers *)

Section layers.
Variable boxes : list renderedBox.

Definition box_cell (row : nat) (bx : renderedBox) : string :=
  match lines bx !! row with Some l => l | None => Repeat " " (width bx) end.

Definition renderLayer (indices : list nat) : option (list string) :=
  bs ← mapM (fun idx => boxes !! idx) indices;
  let maxH := foldl (fun m bx => max m (length (lines bx))) 0 bs in
  Some ((fun row => Join (box_cell row <$> bs) "  ") <$> seq 0 maxH).

(** The columns of the centers of a layer's boxes. *)
Fixpoint centers_from (col : nat) (bs : list renderedBox) : list nat :=
  match bs with
  | [] => []
  | bx :: bs => (col + width bx / 2) :: centers_from (col + width bx + 2) bs
  end.

Definition layerCenters (layer : list nat) : option (list nat) :=
  centers_from 0 <$> mapM (fun idx => boxes !! idx) layer.

Definition width_of (bs : list renderedBox) : nat :=
  match bs with [] => 0 | _ => foldr Nat.add 0 (width <$> bs) + 2 * (length bs - 1) end.

Definition canvasWidth (layer : list nat) : option nat := width_of <$> mapM (fun idx => boxes !! idx) layer.

(** ** Positions *)

(** [fromPos] and [toPos]: a later position of the same node wins. *)
Definition positions (layer : list nat) : gmap nat nat := foldl (fun m p => <[p.2 := p.1]> m) ∅ (imap pair layer).

Definition nodeIndex (g : Graph.t) : gmap string nat :=
  foldl (fun m p => <[GNode.ID p.2 := p.1]> m) ∅ (imap pair (Graph.Nodes g)).

Definition buildNodeToLayer (g : Graph.t) : gmap nat nat :=
  foldl (fun m p => foldl (fun m ni => <[ni := p.1]> m) m p.2) ∅ (imap pair (Graph.Layers g)).

(** The first position of the node in its layer; 0 when it is not there. *)
Definition nodeLayerCenter (g : Graph.t) (ni : nat) (nodeToLayer : gmap nat nat) : option nat :=
  let li := default 0 (nodeToLayer !! ni) in
  layer ← Graph.Layers g !! li;
  centers ← layerCenters layer;
  match list_find (ni =.) layer with
  | Some (pos, _) => centers !! pos
  | None => Some 0
  end.
End layers.

Definition gatherConns (g : Graph.t) (fromPos toPos : gmap nat nat) (nodeIdx : gmap string nat) : list connEdge :=
  omap (fun e =>
    fi ← nodeIdx !! Edge.From e; ti ← nodeIdx !! Edge.To e;
    _ ← fromPos !! fi; _ ← toPos !! ti;
    Some (ConnEdge fi ti (Edge.Kind e) (Edge.Label e))) (Graph.Edges g).

(** ** Connector lines *)

(** [stampLine]: positions beyond the canvas are dropped. *)
Definition stampLine (w : nat) (positions : gmap nat string) : list string :=
  (fun col => default " " (positions !! col)) <$> seq 0 w.

(** The columns of the stems; all of them carry the same rune, so the order of the ranges
    does not matter.  A slice index out of range panics. *)
Definition stemLine (conns : list connEdge) (fromPos : gmap nat nat) (fromCenters extraCols : list nat) (canvasW : nat)
    : option (list string) :=
  cols ← mapM (fun c => fromCenters !! default 0 (fromPos !! fromNodeIdx c)) conns;
  Some (stampLine canvasW (foldl (fun m col => <[col := "│"]> m) ∅ (cols ++ extraCols))).

(** A rune on the merge line, with its priority. *)
Record mergeCell : Type := MergeCell { m_rune : string; m_pri : nat }.

Definition priDash : nat := 0.
Definition priJoin : nat := 1.
Definition priArrow : nat := 2.

(** One call of [setCell]. *)
Record stamp : Type := Stamp { s_col : nat; s_cell : mergeCell }.

Definition setCell (cells : gmap nat mergeCell) (s : stamp) : gmap nat mergeCell :=
  match cells !! s_col s with
  | Some ex => if decide (m_pri ex < m_pri (s_cell s)) then <[s_col s := s_cell s]> cells else cells
  | None => <[s_col s := s_cell s]> cells
  end.

Definition slices_Min (l : list nat) : nat := match l with [] => 0 | x :: l => foldl min x l end.

(** The rune of a parent on its run. *)
Definition junction (pc runStart runEnd : nat) : mergeCell :=
  MergeCell (if decide (pc = runStart) then "└" else if decide (pc = runEnd) then "┘" else "┴") priJoin.

(** The calls of [setCell] of one [stampParentSegment]. *)
Definition stampParentSegment (pc : nat) (childCols : list nat) : list stamp :=
  match childCols with
  | [] => []
  | _ =>
      let minC := slices_Min childCols in
      let maxC := Graph.slices_Max childCols in
      let runStart := min pc minC in
      let runEnd := max pc maxC in
      ((fun col => Stamp col (MergeCell "─" priDash)) <$> seq runStart (S runEnd - runStart))
      ++ ((fun cc => Stamp cc (MergeCell "▼" priArrow)) <$> childCols)
      ++ (if decide (pc <> minC \/ pc <> maxC) then
            [Stamp pc (junction pc runStart runEnd)]
          else [])
  end.

(** [range] is the order in which Go yields the map. *)
Definition mergeLine (range : gmap nat (list nat) -> list (nat * list nat)) (parentChildren : gmap nat (list nat)) (canvasW : nat)
    : list string :=
  let stamps := range parentChildren ≫= fun p => stampParentSegment p.1 p.2 in
  stampLine canvasW (m_rune <$> foldl setCell ∅ stamps).

(** ** Connectors between two layers *)

(** [append] to a list kept in a map. *)
Definition add_child (m : gmap nat (list nat)) (p : nat * nat) : gmap nat (list nat) :=
  <[p.1 := default [] (m !! p.1) ++ [p.2]]> m.

(** What the two passes over the edges collect. *)
Record crossing : Type := Crossing {
  extraStemCols : list nat; parentChildren : gmap nat (list nat); skipConns : list connEdge
}.

(** The three lines of a boundary: stems, merge line and annotations. *)
Record connectors : Type := Connectors { c_stem : list string; c_merge : list string; c_notes : list string }.

Section boundary.
Variables (range : gmap nat (list nat) -> list (nat * list nat)) (boxes : list renderedBox) (g : Graph.t).

(** The columns an edge between the two layers joins. *)
Definition conn_cols (fromPos toPos : gmap nat nat) (fromCenters toCenters : list nat) (c : connEdge) : option (nat * nat) :=
  pc ← fromCenters !! default 0 (fromPos !! fromNodeIdx c);
  tc ← toCenters !! default 0 (toPos !! toNodeIdx c);
  Some (pc, tc).

(** One edge of the second pass: the [switch] on the layers of its ends. *)
Definition skip_edge (fromLayerIdx : nat) (fromPos toPos : gmap nat nat) (fromCenters toCenters : list nat)
    (a : crossing) (e : Edge.t) : option crossing :=
  match nodeIndex g !! Edge.From e, nodeIndex g !! Edge.To e with
  | Some fi, Some ti =>
      match buildNodeToLayer g !! fi, buildNodeToLayer g !! ti with
      | Some fli, Some tli =>
          if decide (fli = fromLayerIdx /\ fromLayerIdx + 1 < tli) then
            col ← fromCenters !! default 0 (fromPos !! fi);
            Some (Crossing (extraStemCols a ++ [col]) (parentChildren a) (skipConns a))
          else if decide (fli < fromLayerIdx /\ tli = fromLayerIdx + 1) then
            srcCenter ← nodeLayerCenter boxes g fi (buildNodeToLayer g);
            tc ← toCenters !! default 0 (toPos !! ti);
            Some (Crossing (extraStemCols a ++ [srcCenter]) (add_child (parentChildren a) (srcCenter, tc))
                    (skipConns a ++ [ConnEdge fi ti (Edge.Kind e) (Edge.Label e)]))
          else if decide (fli < fromLayerIdx /\ fromLayerIdx + 1 < tli) then
            col ← nodeLayerCenter boxes g fi (buildNodeToLayer g);
            Some (Crossing (extraStemCols a ++ [col]) (parentChildren a) (skipConns a))
          else Some a
      | _, _ => Some a
      end
  | _, _ => Some a
  end.

Definition artifact_note (c : connEdge) : list string :=
  match c_kind c with ArtifactEdge => ["      [artifact: " +:+ c_label c +:+ "]"] | DependsEdge => [] end.

(** [renderConnectors], less the writing; [Some None] is the early return. *)
Definition boundary (fromLayerIdx : nat) : option (option connectors) :=
  fromLayer ← Graph.Layers g !! fromLayerIdx;
  toLayer ← Graph.Layers g !! (fromLayerIdx + 1);
  fromCenters ← layerCenters boxes fromLayer;
  toCenters ← layerCenters boxes toLayer;
  let fromPos := positions fromLayer in
  let toPos := positions toLayer in
  let conns := gatherConns g fromPos toPos (nodeIndex g) in
  pairs ← mapM (conn_cols fromPos toPos fromCenters toCenters) conns;
  x ← fold_partial (skip_edge fromLayerIdx fromPos toPos fromCenters toCenters)
        (Crossing [] (foldl add_child ∅ pairs) []) (Graph.Edges g);
  if decide (parentChildren x = ∅ /\ extraStemCols x = []) then Some None else
  fw ← canvasWidth boxes fromLayer;
  tw ← canvasWidth boxes toLayer;
  let canvasW := foldl (fun w col => max w (col + 1)) (max fw tw) (extraStemCols x) in
  stem ← stemLine conns fromPos fromCenters (extraStemCols x) canvasW;
  Some (Some (Connectors stem (mergeLine range (parentChildren x) canvasW) ((conns ++ skipConns x) ≫= artifact_note))).

Definition renderConnectors (fromLayerIdx : nat) : option (list string) :=
  c ← boundary fromLayerIdx;
  Some match c with
       | None => []
       | Some c => [Render styleConnector (Join (c_stem c) ""); Render styleConnector (Join (c_merge c) "")] ++ c_notes c
       end.
End boundary.

(** ** The whole diagram *)

Definition terminal_lines (range : gmap nat (list nat) -> list (nat * list nat)) (g : Graph.t) : option (list string) :=
  let title := if decide (Graph.Title g = "") then "Pipeline" else "Pipeline: " +:+ Graph.Title g in
  boxes ← mapM buildBox (Graph.Nodes g);
  body ← mapM (fun p =>
    ls ← renderLayer boxes p.2;
    cs ← if decide (p.1 + 1 < length (Graph.Layers g)) then renderConnectors range boxes g p.1 else Some [];
    Some (ls ++ cs)) (imap pair (Graph.Layers g));
  Some ([title; Repeat "─" (RuneCountInString title)] ++ concat body).

Definition RenderTerminal (range : gmap nat (list nat) -> list (nat * list nat)) (g : Graph.t)
    (w : list string -> string -> option error) : option (list string * option error) :=
  lines ← terminal_lines range g; let '(out, err) := write_all w lines in Some (out, errorf [] <$> err).
End render.

(** ** Lookup lemmas *)

Lemma fold_partial_inv {A B} (I : list A -> B -> Prop) f b (l : list A) :
  I [] b -> (forall done b x todo, l = done ++ x :: todo -> I done b -> exists b', f b x = Some b' /\ I (done ++ [x]) b') ->
  exists b', fold_partial f b l = Some b' /\ I l b'.
Proof.
  intros H0 Hstep.
  assert (forall todo pre b, l = pre ++ todo -> I pre b -> exists b', fold_partial f b todo = Some b' /\ I l b') as Hgen.
  { induction todo as [|x todo IH]; intros pre b0 -> Hb; cbn; [rewrite app_nil_r in *; by exists b0|].
    destruct (Hstep pre b0 x todo eq_refl Hb) as (b1 & -> & Hb1). cbn. apply (IH (pre ++ [x])); [by rewrite <- app_assoc|done]. }
  by apply (Hgen l []).
Qed.

Lemma mapM_lookup_total {A} (l : list A) (layer : list nat) :
  Forall (fun i => i < length l) layer -> exists bs, mapM (fun i => l !! i) layer = Some bs /\ length bs = length layer.
Proof.
  intros Hall. assert (is_Some (mapM (fun i => l !! i) layer)) as [bs Hbs].
  { apply mapM_is_Some. eapply Forall_impl; [exact Hall|]. intros i Hi. by apply lookup_lt_is_Some_2. }
  exists bs. split; [done|]. symmetry. by eapply length_mapM.
Qed.

Lemma positions_lookup layer i :
  i ∈ layer -> exists pos, positions layer !! i = Some pos /\ layer !! pos = Some i.
Proof.
  unfold positions. induction layer as [|x layer IH] using rev_ind; [by intros ?%elem_of_nil|].
  intros Hi. rewrite imap_pair_snoc, foldl_snoc. cbn [fst snd]. destruct (decide (x = i)) as [->|Hne].
  - exists (length layer). rewrite lookup_insert_eq. split; [done|]. by apply list_lookup_middle.
  - apply elem_of_app in Hi as [Hi|Hi%list_elem_of_singleton]; [|done].
    destruct (IH Hi) as (pos & Hp & Hl). exists pos. rewrite lookup_insert_ne by done. split; [done|].
    by apply lookup_app_l_Some.
Qed.

Lemma positions_None layer i pos : positions layer !! i = Some pos -> layer !! pos = Some i.
Proof.
  intros Hp. destruct (decide (i ∈ layer)) as [Hi|Hi].
  - destruct (positions_lookup _ _ Hi) as (pos' & Hp' & Hl). congruence.
  - exfalso. revert pos Hp. unfold positions. induction layer as [|x layer IH] using rev_ind; intros pos; [cbn; by rewrite lookup_empty|].
    rewrite imap_pair_snoc, foldl_snoc. cbn [fst snd]. rewrite lookup_insert_ne by (intros ->; apply Hi; set_solver).
    apply IH. set_solver.
Qed.

Lemma stampLine_lookup w m col : col < w -> stampLine w m !! col = Some (default " " (m !! col)).
Proof. intros Hc. unfold stampLine. rewrite list_lookup_fmap, (proj2 (lookup_seq 0 w col col)) by lia. done. Qed.

(** Any column collected in the set is stamped. *)
Lemma stamped_col {A} (v : A) cols m col :
  col ∈ cols -> foldl (fun (m : gmap nat A) col => <[col := v]> m) m cols !! col = Some v.
Proof.
  induction cols as [|x cols IH] using rev_ind; [by intros ?%elem_of_nil|]. intros Hi. rewrite foldl_snoc.
  destruct (decide (x = col)) as [->|Hne]; [by rewrite lookup_insert_eq|]. rewrite lookup_insert_ne by done.
  apply IH. set_solver.
Qed.

Lemma centers_from_length col bs : length (centers_from col bs) = length bs.
Proof. revert col. induction bs; intros col; cbn; [done|]. by f_equal. Qed.

Lemma centers_from_bound bs : Forall (fun bx => 0 < width bx) bs ->
  forall col pos c, centers_from col bs !! pos = Some c -> col <= c < col + width_of bs.
Proof.
  unfold width_of. induction 1 as [|bx bs Hw _ IH]; intros col pos c; [done|].
  assert (width bx / 2 < width bx) as Hhalf by (apply Nat.div_lt; lia).
  cbn [centers_from]. destruct pos as [|pos]; cbn [lookup list_lookup].
  - intros Hc. assert (c = col + width bx / 2) as -> by congruence. cbn [fmap list_fmap foldr length]. lia.
  - intros Hc%IH. destruct bs as [|bx' bs]; cbn [fmap list_fmap foldr length] in *; lia.
Qed.

Lemma inner_width_ge content c : c ∈ content -> RuneCountInString c.1 <= inner_width content.
Proof.
  intros Hc. unfold inner_width. apply Nat.max_le_iff. left.
  induction content as [|x content IH] using rev_ind; [by apply elem_of_nil in Hc|].
  rewrite foldl_snoc. apply elem_of_app in Hc as [Hc|<-%list_elem_of_singleton]; [apply IH in Hc; lia|lia].
Qed.

(** ** The merge line *)

(** A cell holds a stamp of the highest priority at its column. *)
Lemma setCell_fold stamps col :
  match foldl setCell ∅ stamps !! col with
  | Some c => Stamp col c ∈ stamps /\ forall c', Stamp col c' ∈ stamps -> m_pri c' <= m_pri c
  | None => forall c', Stamp col c' ∉ stamps
  end.
Proof.
  induction stamps as [|[col' new] stamps IH] using rev_ind; [cbn; rewrite lookup_empty; intros c' Hc'; by apply elem_of_nil in Hc'|].
  rewrite foldl_snoc. unfold setCell at 1. cbn [s_col s_cell].
  assert (forall c', Stamp col c' ∈ stamps ++ [Stamp col' new] <-> Stamp col c' ∈ stamps \/ (col = col' /\ c' = new)) as Hin.
  { intros c'. rewrite elem_of_app, list_elem_of_singleton. split; (intros [?|?]; [by left|right]); [naive_solver|].
    destruct_and!. by subst. }
  destruct (decide (col' = col)) as [->|Hne].
  - destruct (foldl setCell ∅ stamps !! col) as [ex|] eqn:Hex.
    + destruct IH as [IH1 IH2]. case_decide.
      * rewrite lookup_insert_eq, Hin. split; [by right|]. setoid_rewrite Hin. intros c' [Hc'%IH2|[_ ->]]; lia.
      * rewrite Hex, Hin. split; [by left|]. setoid_rewrite Hin. intros c' [Hc'%IH2|[_ ->]]; lia.
    + rewrite lookup_insert_eq, Hin. split; [by right|]. setoid_rewrite Hin. intros c' [Hc'|[_ ->]]; [by apply IH in Hc'|lia].
  - match goal with |- match ?m !! col with _ => _ end => assert (m !! col = foldl setCell ∅ stamps !! col) as -> end.
    { destruct (foldl setCell ∅ stamps !! col'); [case_decide|]; by rewrite ?lookup_insert_ne by done. }
    destruct (foldl setCell ∅ stamps !! col) as [c|].
    + rewrite Hin. split; [left; apply IH|]. intros c' [Hc'|[-> _]]%Hin; [by apply IH|done].
    + intros c' [Hc'|[-> _]]%Hin; [by apply IH in Hc'|done].
Qed.

Definition consistent (stamps : list stamp) : Prop :=
  forall col c c', Stamp col c ∈ stamps -> Stamp col c' ∈ stamps -> m_pri c = m_pri c' -> c = c'.

(** Stamps that agree at equal priority can be made in any order. *)
Lemma setCell_order stamps stamps' :
  consistent stamps -> (forall s, s ∈ stamps <-> s ∈ stamps') -> foldl setCell ∅ stamps = foldl setCell ∅ stamps'.
Proof.
  intros Hc Hs. apply map_eq. intros col. pose proof (setCell_fold stamps col) as H1. pose proof (setCell_fold stamps' col) as H2.
  destruct (foldl setCell ∅ stamps !! col) as [c|], (foldl setCell ∅ stamps' !! col) as [c'|]; [|naive_solver..].
  destruct H1 as [H1 H1'], H2 as [H2 H2']. f_equal. apply (Hc col); [done|by apply Hs|].
  apply Nat.le_antisymm; [by apply H2', Hs|by apply H1', Hs].
Qed.

(** The columns a parent's run spans. *)
Definition run_start (pc : nat) (cs : list nat) : nat := min pc (slices_Min cs).
Definition run_end (pc : nat) (cs : list nat) : nat := max pc (Graph.slices_Max cs).

Lemma elem_of_segment pc cs col c :
  Stamp col c ∈ stampParentSegment pc cs <->
  cs <> [] /\
  ((c = MergeCell "─" priDash /\ run_start pc cs <= col <= run_end pc cs) \/
   (c = MergeCell "▼" priArrow /\ col ∈ cs) \/
   (c = junction pc (run_start pc cs) (run_end pc cs) /\ col = pc /\ (pc <> slices_Min cs \/ pc <> Graph.slices_Max cs))).
Proof.
  unfold stampParentSegment, run_start, run_end. destruct cs as [|c0 cs0]; [rewrite elem_of_nil; naive_solver|].
  set (cs := c0 :: cs0). assert (cs <> []) as Hne by done. clearbody cs. cbv zeta.
  set (lo := min pc (slices_Min cs)). set (hi := max pc (Graph.slices_Max cs)).
  rewrite !elem_of_app, !list_elem_of_fmap.
  assert (Stamp col c ∈ (if decide (pc <> slices_Min cs \/ pc <> Graph.slices_Max cs) then [Stamp pc (junction pc lo hi)] else [])
          <-> c = junction pc lo hi /\ col = pc /\ (pc <> slices_Min cs \/ pc <> Graph.slices_Max cs)) as ->.
  { case_decide; [rewrite list_elem_of_singleton; split; [by intros [= -> ->]|by intros (-> & -> & _)]|rewrite elem_of_nil; tauto]. }
  setoid_rewrite elem_of_seq. split.
  - intros [(x & [= -> ->] & Hx)|[(x & [= -> ->] & Hx)|?]]; (split; [done|]); [left; split; [done|lia]|right; by left|by do 2 right].
  - intros (_ & [[-> Hx]|[[-> Hx]|?]]); [left; exists col; split; [done|lia]|right; left; by exists col|by do 2 right].
Qed.

Lemma slices_bounds cs c : c ∈ cs -> slices_Min cs <= c <= Graph.slices_Max cs.
Proof.
  intros Hc. split.
  - unfold slices_Min. destruct cs as [|x cs]; [by apply elem_of_nil in Hc|]. revert Hc.
    induction cs as [|y cs IH] using rev_ind; [intros ->%list_elem_of_singleton; done|].
    rewrite foldl_snoc, elem_of_cons, elem_of_app, list_elem_of_singleton. rewrite elem_of_cons in IH.
    intros [Hx|[Hx| ->]]; [|specialize (IH (or_intror Hx))|]; [specialize (IH (or_introl Hx))|..]; lia.
  - apply list_elem_of_lookup in Hc as [i Hi]. by eapply slices_Max_ge.
Qed.

Section merge.
Variable (range : gmap nat (list nat) -> list (nat * list nat)).
Hypothesis range_map : forall m, range m ≡ₚ map_to_list m.

Definition merge_stamps (m : gmap nat (list nat)) : list stamp := range m ≫= fun p => stampParentSegment p.1 p.2.

Lemma elem_of_merge_stamps m s :
  s ∈ merge_stamps m <-> exists pc cs, m !! pc = Some cs /\ s ∈ stampParentSegment pc cs.
Proof.
  unfold merge_stamps. rewrite list_elem_of_bind. setoid_rewrite range_map. split.
  - intros ([pc cs] & Hs & Hp%elem_of_map_to_list). by exists pc, cs.
  - intros (pc & cs & Hp & Hs). exists (pc, cs). split; [done|]. by apply elem_of_map_to_list.
Qed.

(** Two parents never share a junction, and the other runes are fixed by their priority. *)
Lemma merge_consistent m : consistent (merge_stamps m).
Proof.
  intros col c c' (pc & cs & Hm & Hs)%elem_of_merge_stamps (pc' & cs' & Hm' & Hs')%elem_of_merge_stamps Hpri.
  apply elem_of_segment in Hs as (_ & Hs). apply elem_of_segment in Hs' as (_ & Hs').
  destruct Hs as [[-> _]|[[-> _]|(-> & -> & _)]], Hs' as [[-> _]|[[-> _]|(-> & -> & _)]]; try done.
  rewrite Hm in Hm'. by injection Hm' as <-.
Qed.

Lemma merge_cell m col c :
  foldl setCell ∅ (merge_stamps m) !! col = Some c -> c = MergeCell "─" priDash \/ c = MergeCell "▼" priArrow \/ m_pri c = priJoin /\ m_rune c <> " ".
Proof.
  intros Hc. pose proof (setCell_fold (merge_stamps m) col) as Hf. rewrite Hc in Hf. destruct Hf as [Hf _].
  apply elem_of_merge_stamps in Hf as (pc & cs & _ & (_ & Hf)%elem_of_segment).
  destruct Hf as [[-> _]|[[-> _]|(-> & _)]]; [by left|by right; left|]. right; right. split; [done|].
  unfold junction. cbn. by repeat case_decide.
Qed.

Lemma merge_arrow m pc cs tc w :
  m !! pc = Some cs -> tc ∈ cs -> tc < w -> mergeLine range m w !! tc = Some "▼".
Proof.
  intros Hm Htc Hw. unfold mergeLine. fold (merge_stamps m). rewrite stampLine_lookup, lookup_fmap by done.
  assert (Stamp tc (MergeCell "▼" priArrow) ∈ merge_stamps m) as Hs.
  { apply elem_of_merge_stamps. exists pc, cs. split; [done|]. apply elem_of_segment. split; [by intros ->; apply elem_of_nil in Htc|].
    right; left. done. }
  pose proof (setCell_fold (merge_stamps m) tc) as Hf. pose proof (merge_cell m tc) as Hcell.
  destruct (foldl setCell ∅ (merge_stamps m) !! tc) as [c|]; [|by apply Hf in Hs].
  destruct Hf as [_ Hf]. apply Hf in Hs. specialize (Hcell c eq_refl). unfold priDash, priJoin, priArrow in *.
  destruct Hcell as [-> |[-> |[Hp _]]]; cbn in *; [lia|done|lia].
Qed.

(** From a parent to a child the line has no gap. *)
Lemma merge_run m pc cs tc w col :
  m !! pc = Some cs -> tc ∈ cs -> min pc tc <= col <= max pc tc -> col < w ->
  exists r, mergeLine range m w !! col = Some r /\ r <> " ".
Proof.
  intros Hm Htc Hcol Hw. unfold mergeLine. fold (merge_stamps m). rewrite stampLine_lookup, lookup_fmap by done.
  eexists. split; [done|].
  assert (Stamp col (MergeCell "─" priDash) ∈ merge_stamps m) as Hs.
  { apply elem_of_merge_stamps. exists pc, cs. split; [done|]. apply elem_of_segment. split; [by intros ->; apply elem_of_nil in Htc|].
    left. split; [done|]. pose proof (slices_bounds cs tc Htc). unfold run_start, run_end. lia. }
  pose proof (setCell_fold (merge_stamps m) col) as Hf. pose proof (merge_cell m col) as Hcell.
  destruct (foldl setCell ∅ (merge_stamps m) !! col) as [c|]; [|by apply Hf in Hs].
  by destruct (Hcell c eq_refl) as [-> |[-> |[_ Hp]]].
Qed.
End merge.

(** ** Layers and centers *)

(** Every index of a layer is a node, and a node is in one layer at most. *)
Definition well_layered (g : Graph.t) : Prop :=
  NoDup (concat (Graph.Layers g)) /\ Forall (Forall (fun i => i < length (Graph.Nodes g))) (Graph.Layers g).

(** Node [ni] is drawn in layer [li] with its center at column [col]. *)
Definition centered (boxes : list renderedBox) (g : Graph.t) (ni li col : nat) : Prop :=
  exists layer pos centers, Graph.Layers g !! li = Some layer /\ layer !! pos = Some ni /\
    layerCenters boxes layer = Some centers /\ centers !! pos = Some col.

Lemma insert_all_lookup li l (m : gmap nat nat) x :
  foldl (fun m ni => <[ni := li]> m) m l !! x = if decide (x ∈ l) then Some li else m !! x.
Proof.
  induction l as [|y l IH] using rev_ind; [by rewrite decide_False by apply not_elem_of_nil|].
  rewrite foldl_snoc. destruct (decide (y = x)) as [->|Hne].
  - rewrite lookup_insert_eq, decide_True; [done|set_solver].
  - rewrite lookup_insert_ne, IH by done. destruct (decide (x ∈ l)), (decide (x ∈ l ++ [y])); set_solver.
Qed.

Lemma node_layer_gen ls ni :
  match foldl (fun m p => foldl (fun m ni => <[ni := p.1]> m) m p.2) (∅ : gmap nat nat) (imap pair ls) !! ni with
  | Some li => exists l, ls !! li = Some l /\ ni ∈ l
  | None => ni ∉ concat ls
  end.
Proof.
  induction ls as [|l ls IH] using rev_ind; [cbn; rewrite lookup_empty; apply not_elem_of_nil|].
  rewrite imap_pair_snoc, foldl_snoc, insert_all_lookup. cbn [fst snd]. case_decide as Hni.
  - exists l. split; [by apply list_lookup_middle|done].
  - destruct (foldl _ _ _ !! ni) as [li|].
    + destruct IH as (l' & Hl & Hin). exists l'. split; [by apply lookup_app_l_Some|done].
    + rewrite concat_app, concat_cons, concat_nil, app_nil_r. set_solver.
Qed.

Lemma NoDup_concat_layer (ls : list (list nat)) i j l l' x :
  NoDup (concat ls) -> ls !! i = Some l -> ls !! j = Some l' -> x ∈ l -> x ∈ l' -> i = j.
Proof.
  revert i j. induction ls as [|l0 ls IH]; intros i j Hnd Hi Hj Hl Hl'; [done|].
  rewrite concat_cons, NoDup_app in Hnd. destruct Hnd as (_ & Hd & Hnd).
  assert (forall k lk, ls !! k = Some lk -> x ∈ lk -> x ∈ concat ls) as Hin.
  { intros k lk Hk Hx. apply list_elem_of_In, in_concat. exists lk. split; apply list_elem_of_In; [|done].
    by eapply list_elem_of_lookup_2. }
  destruct i as [|i], j as [|j]; cbn in Hi, Hj; [done|..].
  - injection Hi as ->. exfalso. apply (Hd x Hl). by eapply Hin.
  - injection Hj as ->. exfalso. apply (Hd x Hl'). by eapply Hin.
  - f_equal. by apply (IH i j).
Qed.

Section drawn.
Variables (range : gmap nat (list nat) -> list (nat * list nat)).
Hypothesis range_map : forall m, range m ≡ₚ map_to_list m.
Variables (boxes : list renderedBox) (g : Graph.t).
Hypothesis boxes_nodes : length boxes = length (Graph.Nodes g).
Hypothesis boxes_wide : Forall (fun bx => 0 < width bx) boxes.
Hypothesis layered : well_layered g.

Lemma node_to_layer ni li : buildNodeToLayer g !! ni = Some li <-> exists l, Graph.Layers g !! li = Some l /\ ni ∈ l.
Proof.
  pose proof (node_layer_gen (Graph.Layers g) ni) as Hgen. fold (buildNodeToLayer g) in Hgen. split.
  - intros Hl. by rewrite Hl in Hgen.
  - intros (l & Hl & Hin). destruct (buildNodeToLayer g !! ni) as [li'|].
    + destruct Hgen as (l' & Hl' & Hin'). f_equal. by eapply NoDup_concat_layer; first apply layered.
    + exfalso. apply Hgen, list_elem_of_In, in_concat. exists l. split; apply list_elem_of_In; [|done]. by eapply list_elem_of_lookup_2.
Qed.

Lemma layer_boxes li layer :
  Graph.Layers g !! li = Some layer ->
  exists bs, mapM (fun idx => boxes !! idx) layer = Some bs /\ length bs = length layer /\ Forall (fun bx => 0 < width bx) bs.
Proof.
  intros Hl. destruct layered as [_ Hall]. rewrite Forall_forall in Hall.
  destruct (mapM_lookup_total boxes layer) as (bs & Hbs & Hlen).
  { rewrite boxes_nodes. apply Hall. by eapply list_elem_of_lookup_2. }
  exists bs. split_and!; [done..|]. apply mapM_Some_1 in Hbs. apply Forall_forall. intros bx [k Hk]%list_elem_of_lookup.
  destruct (Forall2_lookup_r _ _ _ _ _ Hbs Hk) as (idx & _ & Hbx). rewrite Forall_forall in boxes_wide.
  apply boxes_wide. by eapply list_elem_of_lookup_2.
Qed.

(** The centers of a layer, all of them on the canvas. *)
Lemma layer_centers li layer :
  Graph.Layers g !! li = Some layer ->
  exists cs w, layerCenters boxes layer = Some cs /\ canvasWidth boxes layer = Some w /\ length cs = length layer /\
    forall pos c, cs !! pos = Some c -> c < w.
Proof.
  intros Hl. destruct (layer_boxes li layer Hl) as (bs & Hbs & Hlen & Hw). unfold layerCenters, canvasWidth. rewrite Hbs.
  exists (centers_from 0 bs), (width_of bs). split_and!; [done..|by rewrite centers_from_length|].
  intros pos c Hc. pose proof (centers_from_bound bs Hw 0 pos c Hc). lia.
Qed.

Lemma layer_NoDup li layer : Graph.Layers g !! li = Some layer -> NoDup layer.
Proof.
  intros Hl. destruct layered as [Hnd _]. apply list_elem_of_split_length in Hl as (l1 & l2 & Heq & _).
  rewrite Heq, concat_app, concat_cons in Hnd. apply NoDup_app in Hnd as (_ & _ & Hnd). by apply NoDup_app in Hnd as [Hnd _].
Qed.

(** The lookup of a node's center by its position in the layer. *)
Lemma center_at_pos li layer cs ni :
  Graph.Layers g !! li = Some layer -> layerCenters boxes layer = Some cs -> ni ∈ layer ->
  exists col, cs !! default 0 (positions layer !! ni) = Some col /\ centered boxes g ni li col.
Proof.
  intros Hl Hcs Hni. destruct (positions_lookup _ _ Hni) as (pos & Hp & Hpos). rewrite Hp. cbn.
  destruct (layer_centers li layer Hl) as (cs' & w & Hcs' & _ & Hlen & _). rewrite Hcs in Hcs'. injection Hcs' as <-.
  destruct (lookup_lt_is_Some_2 cs pos) as [col Hcol]; [rewrite Hlen; by eapply lookup_lt_Some|].
  exists col. split; [done|]. by exists layer, pos, cs.
Qed.

Lemma centered_fun ni li col li' col' : centered boxes g ni li col -> centered boxes g ni li' col' -> li = li' /\ col = col'.
Proof.
  intros (l & pos & cs & Hl & Hpos & Hcs & Hcol) (l' & pos' & cs' & Hl' & Hpos' & Hcs' & Hcol').
  assert (li = li') as <-.
  { eapply (NoDup_concat_layer (Graph.Layers g)); [apply layered|exact Hl|exact Hl'|..]; by eapply list_elem_of_lookup_2. }
  rewrite Hl in Hl'. injection Hl' as <-. rewrite Hcs in Hcs'. injection Hcs' as <-. split; [done|].
  assert (pos = pos') as <- by (eapply NoDup_lookup; [by eapply layer_NoDup|done..]). congruence.
Qed.

Lemma node_center ni li layer :
  Graph.Layers g !! li = Some layer -> ni ∈ layer ->
  exists col, nodeLayerCenter boxes g ni (buildNodeToLayer g) = Some col /\ centered boxes g ni li col.
Proof.
  intros Hl Hni. assert (buildNodeToLayer g !! ni = Some li) as Hli by (apply node_to_layer; by exists layer).
  unfold nodeLayerCenter. rewrite Hli. cbn. rewrite Hl. cbn.
  destruct (layer_centers li layer Hl) as (cs & w & Hcs & _ & Hlen & _). rewrite Hcs. cbn.
  destruct (list_find (ni =.) layer) as [[pos x]|] eqn:Hf.
  - apply list_find_Some in Hf as (Hpos & <- & _).
    destruct (lookup_lt_is_Some_2 cs pos) as [col Hcol]; [rewrite Hlen; by eapply lookup_lt_Some|].
    exists col. split; [done|]. by exists layer, pos, cs.
  - exfalso. apply list_find_None in Hf. rewrite Forall_forall in Hf. by apply (Hf ni).
Qed.

(** ** The edges of a boundary *)

(** Both ends of an edge, with their layers and their centers. *)
Record ends (e : Edge.t) (fi ti fl tl fcol tcol : nat) : Prop := Ends {
  ends_from : nodeIndex g !! Edge.From e = Some fi;
  ends_to : nodeIndex g !! Edge.To e = Some ti;
  ends_fcol : centered boxes g fi fl fcol;
  ends_tcol : centered boxes g ti tl tcol
}.

Definition linked (m : gmap nat (list nat)) (pc tc : nat) : Prop := exists cs, m !! pc = Some cs /\ tc ∈ cs.

Lemma linked_add m p pc tc : linked (add_child m p) pc tc <-> linked m pc tc \/ (pc, tc) = p.
Proof.
  destruct p as [p t]. unfold linked, add_child. cbn [fst snd]. destruct (decide (p = pc)) as [->|Hne].
  - rewrite lookup_insert_eq. split.
    + intros (cs & [= <-] & [Hin| ->%list_elem_of_singleton]%elem_of_app); [|by right]. left.
      destruct (m !! pc) as [cs|]; [by exists cs|by apply elem_of_nil in Hin].
    + intros [(cs & -> & Hin)|[= ->]]; eexists; (split; [done|]); cbn; set_solver.
  - rewrite lookup_insert_ne by done. naive_solver.
Qed.

Lemma linked_all pairs pc tc m : linked (foldl add_child m pairs) pc tc <-> linked m pc tc \/ (pc, tc) ∈ pairs.
Proof.
  induction pairs as [|p pairs IH] using rev_ind; [cbn; rewrite elem_of_nil; tauto|].
  rewrite foldl_snoc, linked_add, IH, elem_of_app, list_elem_of_singleton. tauto.
Qed.

(** What a boundary keeps when it looks at one more edge, and what it adds. *)
Definition grows (x y : crossing) : Prop :=
  extraStemCols x ⊆ extraStemCols y /\ skipConns x ⊆ skipConns y /\
  forall pc tc, linked (parentChildren x) pc tc -> linked (parentChildren y) pc tc.

Definition carries (i : nat) (x : crossing) (e : Edge.t) : Prop :=
  forall fi ti fl tl fcol tcol, ends e fi ti fl tl fcol tcol -> fl <= i < tl -> ~ (fl = i /\ tl = i + 1) ->
    fcol ∈ extraStemCols x /\
    (tl = i + 1 -> linked (parentChildren x) fcol tcol /\ ConnEdge fi ti (Edge.Kind e) (Edge.Label e) ∈ skipConns x).

Lemma grows_refl x : grows x x.
Proof. done. Qed.

Lemma carries_grows i x y e : grows x y -> carries i x e -> carries i y e.
Proof.
  intros (H1 & H2 & H3) Hc fi ti fl tl fcol tcol He Hi Hn. destruct (Hc _ _ _ _ _ _ He Hi Hn) as [Hs Hl].
  split; [by apply H1|]. intros Ht. destruct (Hl Ht). split; [by apply H3|by apply H2].
Qed.

Section cross.
Variables (i : nat) (fromLayer toLayer fromCenters toCenters : list nat).
Hypothesis from_layer : Graph.Layers g !! i = Some fromLayer.
Hypothesis to_layer : Graph.Layers g !! (i + 1) = Some toLayer.
Hypothesis from_centers : layerCenters boxes fromLayer = Some fromCenters.
Hypothesis to_centers : layerCenters boxes toLayer = Some toCenters.
Notation step := (skip_edge boxes g i (positions fromLayer) (positions toLayer) fromCenters toCenters).

(** An edge is looked at by the layers of its ends only. *)
Lemma ends_layer e fi ti fl tl fcol tcol fi' ti' :
  nodeIndex g !! Edge.From e = Some fi' -> nodeIndex g !! Edge.To e = Some ti' -> ends e fi ti fl tl fcol tcol ->
  fi = fi' /\ ti = ti' /\ buildNodeToLayer g !! fi = Some fl /\ buildNodeToLayer g !! ti = Some tl.
Proof.
  intros Hf Ht [Hf' Ht' (l & pos & cs & Hl & Hp & _) (l' & pos' & cs' & Hl' & Hp' & _)].
  split_and!; [congruence..| |]; apply node_to_layer; [exists l|exists l']; (split; [done|]); by eapply list_elem_of_lookup_2.
Qed.

Lemma skip_edge_spec x e : exists y, step x e = Some y /\ grows x y /\ carries i y e.
Proof.
  unfold skip_edge. destruct (nodeIndex g !! Edge.From e) as [fi|] eqn:Hf; cycle 1.
  { exists x. split_and!; [done|apply grows_refl|]. intros ?????? [Hf' _ _ _]. congruence. }
  destruct (nodeIndex g !! Edge.To e) as [ti|] eqn:Ht; cycle 1.
  { exists x. split_and!; [done|apply grows_refl|]. intros ?????? [_ Ht' _ _]. congruence. }
  destruct (buildNodeToLayer g !! fi) as [fl|] eqn:Hfl; cycle 1.
  { exists x. split_and!; [done|apply grows_refl|]. intros ?????? He. destruct (ends_layer _ _ _ _ _ _ _ _ _ Hf Ht He) as (-> & -> & ? & ?). congruence. }
  destruct (buildNodeToLayer g !! ti) as [tl|] eqn:Htl; cycle 1.
  { exists x. split_and!; [done|apply grows_refl|]. intros ?????? He. destruct (ends_layer _ _ _ _ _ _ _ _ _ Hf Ht He) as (-> & -> & ? & ?). congruence. }
  assert (forall fi' ti' fl' tl' fcol tcol, ends e fi' ti' fl' tl' fcol tcol ->
            fi' = fi /\ ti' = ti /\ fl' = fl /\ tl' = tl /\ centered boxes g fi fl fcol /\ centered boxes g ti tl tcol) as Hends.
  { intros fi' ti' fl' tl' fcol tcol He. destruct (ends_layer _ _ _ _ _ _ _ _ _ Hf Ht He) as (-> & -> & H1 & H2).
    destruct He as [_ _ H3 H4]. rewrite Hfl in H1. rewrite Htl in H2. injection H1 as <-. injection H2 as <-. done. }
  apply node_to_layer in Hfl as (lf & Hlf & Hfi). apply node_to_layer in Htl as (lt & Hlt & Hti).
  destruct (node_center fi fl lf Hlf Hfi) as (src & Hsrc & Hcsrc).
  case_decide as H1; [|case_decide as H2; [|case_decide as H3]].
  - destruct H1 as [-> H1]. rewrite from_layer in Hlf. injection Hlf as <-.
    destruct (center_at_pos i fromLayer fromCenters fi from_layer from_centers Hfi) as (col & -> & Hcol). cbn.
    eexists. split_and!; [done|..]; unfold grows, carries; cbn; [set_solver|].
    intros ?????? (-> & -> & -> & -> & Hc & _)%Hends _ _. destruct (centered_fun _ _ _ _ _ Hcol Hc) as [_ ->]. split; [set_solver|lia].
  - destruct H2 as [H2 ->]. rewrite to_layer in Hlt. injection Hlt as <-. rewrite Hsrc. cbn [mbind option_bind].
    destruct (center_at_pos (i + 1) toLayer toCenters ti to_layer to_centers Hti) as (tc & -> & Htc). cbn [mbind option_bind].
    eexists. split_and!; [done|..]; unfold grows, carries; cbn [extraStemCols skipConns parentChildren].
    + split_and!; [set_solver..|]. intros pc c Hl. apply linked_add. by left.
    + intros ?????? (-> & -> & -> & -> & Hc & Hc')%Hends _ _.
      destruct (centered_fun _ _ _ _ _ Hcsrc Hc) as [_ ->], (centered_fun _ _ _ _ _ Htc Hc') as [_ ->].
      split; [set_solver|]. intros _. split; [apply linked_add; by right|set_solver].
  - rewrite Hsrc. cbn. eexists. split_and!; [done|..]; unfold grows, carries; cbn; [set_solver|].
    intros ?????? (-> & -> & -> & -> & Hc & _)%Hends _ _. destruct (centered_fun _ _ _ _ _ Hcsrc Hc) as [_ ->]. split; [set_solver|lia].
  - exists x. split_and!; [done|apply grows_refl|]. intros ?????? (-> & -> & -> & -> & _)%Hends Hi Hn. exfalso. lia.
Qed.

Lemma cross_edges x0 :
  exists x, fold_partial step x0 (Graph.Edges g) = Some x /\ grows x0 x /\ forall e, e ∈ Graph.Edges g -> carries i x e.
Proof.
  apply (fold_partial_inv (fun done x => grows x0 x /\ forall e, e ∈ done -> carries i x e)).
  - split; [apply grows_refl|]. by intros e ?%elem_of_nil.
  - intros pre x e todo _ [Hg Hc]. destruct (skip_edge_spec x e) as (y & Hy & Hxy & He). exists y. split; [done|]. split.
    + destruct Hg as (G1 & G2 & G3), Hxy as (K1 & K2 & K3). split_and!; [set_solver..|auto].
    + intros e' [He'| ->%list_elem_of_singleton]%elem_of_app; [|done]. eapply carries_grows; [done|]. by apply Hc.
Qed.

(** *** Adjacent edges *)

Notation conns := (gatherConns g (positions fromLayer) (positions toLayer) (nodeIndex g)).

Lemma elem_of_conns c :
  c ∈ conns -> fromNodeIdx c ∈ fromLayer /\ toNodeIdx c ∈ toLayer.
Proof.
  intros (e & _ & He)%list_elem_of_omap. destruct (nodeIndex g !! Edge.From e) as [fi|]; [|done]. cbn in He.
  destruct (nodeIndex g !! Edge.To e) as [ti|]; [|done]. cbn in He.
  destruct (positions fromLayer !! fi) as [fp|] eqn:Hfp; [|done]. cbn in He.
  destruct (positions toLayer !! ti) as [tp|] eqn:Htp; [|done]. cbn in He. injection He as <-. cbn.
  apply positions_None in Hfp, Htp. split; by eapply list_elem_of_lookup_2.
Qed.

Lemma adjacent_conn e fi ti fcol tcol :
  e ∈ Graph.Edges g -> ends e fi ti i (i + 1) fcol tcol -> ConnEdge fi ti (Edge.Kind e) (Edge.Label e) ∈ conns.
Proof.
  intros He [Hf Ht (l & pos & cs & Hl & Hp & _) (l' & pos' & cs' & Hl' & Hp' & _)]. apply list_elem_of_omap.
  exists e. split; [done|]. rewrite Hf, Ht. cbn. rewrite from_layer in Hl. rewrite to_layer in Hl'.
  injection Hl as <-. injection Hl' as <-.
  destruct (positions_lookup fromLayer fi) as (? & -> & _); [by eapply list_elem_of_lookup_2|].
  destruct (positions_lookup toLayer ti) as (? & -> & _); [by eapply list_elem_of_lookup_2|]. done.
Qed.

Lemma conn_cols_spec c :
  c ∈ conns -> exists pc tc, conn_cols (positions fromLayer) (positions toLayer) fromCenters toCenters c = Some (pc, tc) /\
    fromCenters !! default 0 (positions fromLayer !! fromNodeIdx c) = Some pc /\
    centered boxes g (fromNodeIdx c) i pc /\ centered boxes g (toNodeIdx c) (i + 1) tc.
Proof.
  intros [Hf Ht]%elem_of_conns. unfold conn_cols.
  destruct (center_at_pos i fromLayer fromCenters _ from_layer from_centers Hf) as (pc & Hpc & Hc).
  destruct (center_at_pos (i + 1) toLayer toCenters _ to_layer to_centers Ht) as (tc & Htc & Hc').
  exists pc, tc. by rewrite Hpc, Htc.
Qed.

Lemma conn_pairs :
  exists pairs, mapM (conn_cols (positions fromLayer) (positions toLayer) fromCenters toCenters) conns = Some pairs /\
    forall c pc tc, c ∈ conns -> centered boxes g (fromNodeIdx c) i pc -> centered boxes g (toNodeIdx c) (i + 1) tc -> (pc, tc) ∈ pairs.
Proof.
  assert (is_Some (mapM (conn_cols (positions fromLayer) (positions toLayer) fromCenters toCenters) conns)) as [pairs Hp].
  { apply mapM_is_Some, Forall_forall. intros c Hc. cbn. destruct (conn_cols_spec c Hc) as (pc & tc & -> & _). done. }
  exists pairs. split; [done|]. apply mapM_Some_1 in Hp. intros c pc tc Hin Hf Ht.
  apply list_elem_of_lookup in Hin as Hk. destruct Hk as [k Hk].
  destruct (Forall2_lookup_l _ _ _ _ _ Hp Hk) as (y & Hy & Hcy).
  destruct (conn_cols_spec c Hin) as (pc' & tc' & Hcc & _ & Hf' & Ht'). rewrite Hcc in Hcy. injection Hcy as <-.
  destruct (centered_fun _ _ _ _ _ Hf Hf') as [_ ->], (centered_fun _ _ _ _ _ Ht Ht') as [_ ->]. by eapply list_elem_of_lookup_2.
Qed.

Lemma stem_spec extra w :
  exists stem, stemLine conns (positions fromLayer) fromCenters extra w = Some stem /\
    forall col, col < w -> (col ∈ extra \/ exists c, c ∈ conns /\ centered boxes g (fromNodeIdx c) i col) -> stem !! col = Some "│".
Proof.
  unfold stemLine.
  assert (is_Some (mapM (fun c => fromCenters !! default 0 (positions fromLayer !! fromNodeIdx c)) conns)) as [cols Hcols].
  { apply mapM_is_Some, Forall_forall. intros c Hc. cbn. destruct (conn_cols_spec c Hc) as (pc & tc & _ & -> & _). done. }
  rewrite Hcols. cbn. eexists. split; [done|]. intros col Hw Hcol. rewrite stampLine_lookup by done.
  rewrite stamped_col; [done|]. apply elem_of_app. destruct Hcol as [Hcol|(c & Hc & Hcol)]; [by right|left].
  apply mapM_Some_1 in Hcols. apply list_elem_of_lookup in Hc as Hk. destruct Hk as [k Hk].
  destruct (Forall2_lookup_l _ _ _ _ _ Hcols Hk) as (y & Hy & Hcy).
  destruct (conn_cols_spec c Hc) as (pc & tc & _ & Hpc & Hf & _). rewrite Hpc in Hcy. injection Hcy as <-.
  destruct (centered_fun _ _ _ _ _ Hcol Hf) as [_ ->]. by eapply list_elem_of_lookup_2.
Qed.
End cross.

Lemma canvas_fold w cols :
  w <= foldl (fun w col => max w (col + 1)) w cols /\ forall c, c ∈ cols -> c < foldl (fun w col => max w (col + 1)) w cols.
Proof.
  induction cols as [|x cols [IH1 IH2]] using rev_ind; [split; [done|by intros c ?%elem_of_nil]|]. rewrite foldl_snoc. split; [lia|].
  intros c [Hc%IH2| ->%list_elem_of_singleton]%elem_of_app; lia.
Qed.

(** The columns of the layers next to a boundary are on its canvas. *)
Lemma centered_canvas ni li col layer w :
  centered boxes g ni li col -> Graph.Layers g !! li = Some layer -> canvasWidth boxes layer = Some w -> col < w.
Proof.
  intros (l & pos & cs & Hl & _ & Hcs & Hcol) Hlayer Hw. rewrite Hl in Hlayer. injection Hlayer as ->.
  destruct (layer_centers li layer Hl) as (cs' & w' & Hcs' & Hw' & _ & Hlt). rewrite Hcs in Hcs'. injection Hcs' as <-.
  rewrite Hw in Hw'. injection Hw' as <-. by eapply Hlt.
Qed.

(** How an edge that crosses boundary [i] shows in its lines. *)
Definition edge_shown (i tl fcol tcol : nat) (e : Edge.t) (c : connectors) : Prop :=
  c_stem c !! fcol = Some "│" /\
  (tl = i + 1 ->
     c_merge c !! tcol = Some "▼" /\
     (forall col, min fcol tcol <= col <= max fcol tcol -> exists r, c_merge c !! col = Some r /\ r <> " ") /\
     (Edge.Kind e = ArtifactEdge -> "      [artifact: " +:+ Edge.Label e +:+ "]" ∈ c_notes c)).

Lemma boundary_spec i :
  i + 1 < length (Graph.Layers g) ->
  exists oc, boundary range boxes g i = Some oc /\
    forall e fi ti fl tl fcol tcol, e ∈ Graph.Edges g -> ends e fi ti fl tl fcol tcol -> fl <= i < tl ->
      exists c, oc = Some c /\ edge_shown i tl fcol tcol e c.
Proof.
  intros Hi. destruct (lookup_lt_is_Some_2 (Graph.Layers g) i) as [fromLayer Hfl]; [lia|].
  destruct (lookup_lt_is_Some_2 (Graph.Layers g) (i + 1) Hi) as [toLayer Htl].
  destruct (layer_centers _ _ Hfl) as (fc & fw & Hfc & Hfw & _), (layer_centers _ _ Htl) as (tc & tw & Htc & Htw & _).
  destruct (conn_pairs i fromLayer toLayer fc tc Hfl Htl Hfc Htc) as (pairs & Hpairs & Hin).
  destruct (cross_edges i fromLayer toLayer fc tc Hfl Htl Hfc Htc (Crossing [] (foldl add_child ∅ pairs) [])) as (x & Hx & (_ & _ & Hlink) & Hcar).
  cbn [parentChildren] in Hlink.
  set (w := foldl (fun w col => max w (col + 1)) (max fw tw) (extraStemCols x)).
  destruct (canvas_fold (max fw tw) (extraStemCols x)) as [Hw1 Hw2]. fold w in Hw1, Hw2.
  destruct (stem_spec i fromLayer toLayer fc tc Hfl Htl Hfc Htc (extraStemCols x) w) as (stem & Hstem & Hcols).
  (* the columns of an edge *)
  assert (forall e fi ti fl tl fcol tcol, e ∈ Graph.Edges g -> ends e fi ti fl tl fcol tcol -> fl <= i < tl ->
    fcol < w /\ (fcol ∈ extraStemCols x \/ linked (parentChildren x) fcol tcol) /\ stem !! fcol = Some "│" /\
    (tl = i + 1 -> tcol < w /\ linked (parentChildren x) fcol tcol /\
       ConnEdge fi ti (Edge.Kind e) (Edge.Label e) ∈ gatherConns g (positions fromLayer) (positions toLayer) (nodeIndex g) ++ skipConns x)) as Hedge.
  { intros e fi ti fl tl fcol tcol He Hends Hi'.
    assert (tl = i + 1 -> tcol < w) as Htcol.
    { intros ->. apply (Nat.lt_le_trans _ tw); [|lia]. by apply (centered_canvas ti (i + 1) tcol toLayer tw); [apply Hends|..]. }
    destruct (decide (fl = i /\ tl = i + 1)) as [[-> ->]|Hn].
    - pose proof (adjacent_conn i fromLayer toLayer Hfl Htl e fi ti fcol tcol He Hends) as Hc.
      assert (fcol < w) as Hfcol.
      { apply (Nat.lt_le_trans _ fw); [|lia]. by apply (centered_canvas fi i fcol fromLayer fw); [apply Hends|..]. }
      assert (linked (parentChildren x) fcol tcol) as Hl.
      { apply Hlink, linked_all. right. apply (Hin _ fcol tcol Hc); apply Hends. }
      split_and!; [done|by right|apply Hcols; [done|]; right; eexists; split; [exact Hc|apply Hends]|].
      intros _. split_and!; [auto|done|]. apply elem_of_app. by left.
    - destruct (Hcar e He fi ti fl tl fcol tcol Hends Hi' Hn) as [Hs Hl].
      split_and!; [by apply Hw2|by left|apply Hcols; [by apply Hw2|by left]|].
      intros Ht. destruct (Hl Ht). split_and!; [auto|done|]. apply elem_of_app. by right. }
  unfold boundary. rewrite Hfl, Htl. cbn [mbind option_bind]. rewrite Hfc, Htc. cbn [mbind option_bind]. cbv zeta.
  rewrite Hpairs. cbn [mbind option_bind]. rewrite Hx. cbn [mbind option_bind]. case_decide as Hempty.
  - exists None. split; [done|]. intros e fi ti fl tl fcol tcol He Hends Hi'. exfalso. destruct Hempty as [Hp Hs].
    destruct (Hedge e fi ti fl tl fcol tcol He Hends Hi') as (_ & [Hin'|(cs & Hcs & _)] & _).
    + rewrite Hs in Hin'. by apply elem_of_nil in Hin'.
    + rewrite Hp in Hcs. by rewrite lookup_empty in Hcs.
  - rewrite Hfw, Htw. cbn [mbind option_bind]. fold w. rewrite Hstem. cbn [mbind option_bind]. eexists. split; [done|].
    intros e fi ti fl tl fcol tcol He Hends Hi'. eexists. split; [done|].
    destruct (Hedge e fi ti fl tl fcol tcol He Hends Hi') as (Hfw' & _ & Hst & Ht). split; [done|]. cbn [c_merge c_notes].
    intros Htl'. destruct (Ht Htl') as (Htw' & (cs & Hcs & Hin') & Hconn). split_and!.
    + by apply (merge_arrow range range_map _ fcol cs).
    + intros col Hcol. apply (merge_run range range_map _ fcol cs tcol); [done..|lia].
    + intros Hk. apply list_elem_of_bind. eexists. split; [|exact Hconn]. unfold artifact_note. cbn. rewrite Hk. by left.
Qed.
End drawn.

(** ** The diagram of a validated pipeline *)

Section diagram.
Context `{cel : CEL}.
Variables (Render : style -> string -> string) (b : border) (range : gmap nat (list nat) -> list (nat * list nat)).
Hypothesis range_map : forall m, range m ≡ₚ map_to_list m.

Lemma buildBox_total n : exists bx, buildBox Render b n = Some bx /\ 0 < width bx.
Proof.
  unfold buildBox. cbv zeta. set (content := buildBoxContent Render n).
  assert (is_Some (mapM (content_line Render b (inner_width content)) content)) as [body Hbody].
  { apply mapM_is_Some, Forall_forall. intros c Hc. unfold compose, content_line. by rewrite decide_True by by apply inner_width_ge. }
  rewrite Hbody. cbn [mbind option_bind]. eexists. split; [done|]. cbn [width]. lia.
Qed.

Lemma boxes_total nodes :
  exists boxes, mapM (buildBox Render b) nodes = Some boxes /\ length boxes = length nodes /\ Forall (fun bx => 0 < width bx) boxes.
Proof.
  induction nodes as [|n nodes (boxes & IH & Hlen & Hw)]; [by exists []|].
  destruct (buildBox_total n) as (bx & Hbx & Hpos). exists (bx :: boxes). cbn [mapM]. rewrite Hbx. cbn [mbind option_bind].
  rewrite IH. split_and!; [done|cbn; by f_equal|by constructor].
Qed.

Lemma nodeIndex_jobs jobs T E L : nodeIndex (Graph.mk T (buildNodes jobs) E L) = name_index jobs.
Proof.
  unfold nodeIndex, name_index, buildNodes. cbn [Graph.Nodes].
  induction jobs as [|j jobs IH] using rev_ind; [done|].
  rewrite fmap_app. cbn [fmap list_fmap]. rewrite !imap_pair_snoc, !foldl_snoc, length_fmap. cbn [fst snd]. by rewrite IH.
Qed.

Lemma group_depths_layered d nodes T E :
  length d = length nodes -> well_layered (Graph.mk T nodes E (group_depths d)).
Proof.
  intros Hl. split; [apply group_depths_NoDup|]. cbn. apply Forall_forall. intros l [k Hk]%list_elem_of_lookup.
  apply group_depths_lookup in Hk as [_ ->]. apply Forall_forall. intros i Hi%elem_of_at_depth. rewrite <- Hl. by eapply lookup_lt_Some.
Qed.

(** A node of a layer has a center. *)
Lemma in_layer_centered boxes g i k :
  length boxes = length (Graph.Nodes g) -> Forall (fun bx => 0 < width bx) boxes -> well_layered g ->
  in_layer g i k -> exists col, centered boxes g i k col.
Proof.
  intros Hlen Hw Hwl (l & Hl & [pos Hpos]%list_elem_of_lookup).
  destruct (layer_centers boxes g Hlen Hw Hwl k l Hl) as (cs & w & Hcs & _ & Hlcs & _).
  destruct (lookup_lt_is_Some_2 cs pos) as [col Hcol]; [rewrite Hlcs; by eapply lookup_lt_Some|]. exists col, l, pos, cs. done.
Qed.

(** The lines of the diagram, layer by layer. *)
Definition layer_lines (g : Graph.t) (boxes : list renderedBox) (p : nat * list nat) : option (list string) :=
  ls ← renderLayer boxes p.2;
  cs ← if decide (p.1 + 1 < length (Graph.Layers g)) then renderConnectors Render range boxes g p.1 else Some [];
  Some (ls ++ cs).

Lemma terminal_lines_spec g :
  well_layered g ->
  exists boxes lines, mapM (buildBox Render b) (Graph.Nodes g) = Some boxes /\ length boxes = length (Graph.Nodes g) /\
    Forall (fun bx => 0 < width bx) boxes /\ terminal_lines Render b range g = Some lines /\
    forall i c, i + 1 < length (Graph.Layers g) -> boundary range boxes g i = Some (Some c) ->
      exists above below, lines = above ++ [Render styleConnector (Join (c_stem c) ""); Render styleConnector (Join (c_merge c) "")] ++ c_notes c ++ below.
Proof.
  intros Hwl. destruct (boxes_total (Graph.Nodes g)) as (boxes & Hb & Hlen & Hw).
  assert (is_Some (mapM (layer_lines g boxes) (imap pair (Graph.Layers g)))) as [body Hbody].
  { apply mapM_is_Some, Forall_forall. intros [i l] (i' & l' & [= <- <-] & Hl)%elem_of_lookup_imap. unfold compose, layer_lines. cbn [fst snd].
    destruct (layer_boxes boxes g Hlen Hw Hwl i l Hl) as (bs & Hbs & _). unfold renderLayer. rewrite Hbs. cbn [mbind option_bind].
    case_decide as Hi; [|done]. destruct (boundary_spec range range_map boxes g Hlen Hw Hwl i Hi) as (oc & Hoc & _).
    unfold renderConnectors. by rewrite Hoc. }
  exists boxes. eexists. split_and!; [done..| |].
  - unfold terminal_lines. rewrite Hb. cbn [mbind option_bind]. fold (layer_lines g boxes). rewrite Hbody. done.
  - intros i c Hi Hc. apply mapM_Some_1 in Hbody. destruct (lookup_lt_is_Some_2 (Graph.Layers g) i) as [l Hl]; [lia|].
    assert (imap pair (Graph.Layers g) !! i = Some (i, l)) as Hp by (by rewrite list_lookup_imap, Hl).
    destruct (Forall2_lookup_l _ _ _ _ _ Hbody Hp) as (piece & Hpiece & Hls). unfold layer_lines in Hls. cbn [fst snd] in Hls.
    rewrite decide_True in Hls by done. unfold renderConnectors in Hls. rewrite Hc in Hls. cbn [mbind option_bind] in Hls.
    destruct (renderLayer boxes l) as [ls|]; [|done]. cbn [mbind option_bind] in Hls. injection Hls as <-.
    apply list_elem_of_split_length in Hpiece as (l1 & l2 & -> & _). rewrite concat_app, concat_cons.
    match goal with |- context [?hd ++ concat l1 ++ _] => exists (hd ++ concat l1 ++ ls), (concat l2) end. by rewrite <- !app_assoc.
Qed.
End diagram.

(** C28: The terminal diagram of a validated pipeline shows every dependency.  Drawing never
    panics.  Both ends of every edge, dependency or artifact, are drawn in a layer with a
    center, the dependency in a layer above; and at every boundary between layers that the edge
    crosses, next to it or not, two connector lines are written one after the other: the first
    has a stem at the column of the dependency's center; at the last boundary the second has an
    arrow at the column of the job's center, no gap from one column to the other, and an
    artifact edge has its annotation.  Whatever the order in which Go yields the map. *)
Theorem diagram_drawn `{CEL} Render b range p p' order
  (Hrange : forall m, range m ≡ₚ map_to_list m)
  (Hok : ValidatePipeline (Some p) = Ok (p', order)) :
  exists g boxes lines, BuildGraph p' = Some g /\ mapM (buildBox Render b) (Graph.Nodes g) = Some boxes /\
    terminal_lines Render b range g = Some lines /\
    forall e, e ∈ Graph.Edges g ->
      exists fi ti fl tl fcol tcol, ends boxes g e fi ti fl tl fcol tcol /\ fl < tl /\
        forall i, fl <= i < tl ->
          exists c above below, boundary range boxes g i = Some (Some c) /\ edge_shown i tl fcol tcol e c /\
            lines = above ++ [Render styleConnector (Join (c_stem c) ""); Render styleConnector (Join (c_merge c) "")] ++ c_notes c ++ below.
Proof.
  destruct (BuildGraph_shape _ _ _ Hok) as (d & Hg & Hl & Hindex & Hspec). set (jobs := Pipeline.Jobs p') in *.
  set (g := Graph.mk _ _ _ (group_depths d)) in Hg.
  assert (well_layered g) as Hwl by (apply group_depths_layered; unfold buildNodes; by rewrite length_fmap).
  destruct (terminal_lines_spec Render b range Hrange g Hwl) as (boxes & lines & Hb & Hlen & Hw & Hlines & Hshow).
  exists g, boxes, lines. split_and!; [done..|]. intros e He.
  destruct (validated_edge _ _ _ _ Hok He) as (ti & j & fi & dj & Hj & Hdj & Hto & Hfrom & Hdep).
  assert (exists fl tl, d !! fi = Some fl /\ d !! ti = Some tl /\ fl < tl) as (fl & tl & Hfl & Htl & Hlt).
  { rewrite (Hspec ti j Hj). destruct (lookup_lt_is_Some_2 d fi) as [fl Hfl]; [rewrite Hl; by eapply lookup_lt_Some|].
    exists fl. eexists. split_and!; [done..|]. assert (depth d fi = fl) as <- by (unfold depth; by rewrite Hfl).
    apply (deps_depth_ge _ _ _ (Job.Name dj)); [done|]. apply Hindex. by exists dj. }
  destruct (in_layer_centered boxes g fi fl Hlen Hw Hwl) as [fcol Hfcol]; [by apply in_layer_depth|].
  destruct (in_layer_centered boxes g ti tl Hlen Hw Hwl) as [tcol Htcol]; [by apply in_layer_depth|].
  assert (ends boxes g e fi ti fl tl fcol tcol) as Hends.
  { constructor; [| |done..]; unfold g; rewrite nodeIndex_jobs; apply Hindex; [by exists dj|by exists j]. }
  exists fi, ti, fl, tl, fcol, tcol. split_and!; [done..|]. intros i Hi.
  assert (i + 1 < length (Graph.Layers g)) as Hlast.
  { destruct Htcol as (l & _ & _ & Hlt' & _). apply lookup_lt_Some in Hlt'. lia. }
  destruct (boundary_spec range Hrange boxes g Hlen Hw Hwl i Hlast) as (oc & Hoc & Hcross).
  destruct (Hcross e fi ti fl tl fcol tcol He Hends Hi) as (c & -> & Hc).
  destruct (Hshow i c Hlast Hoc) as (above & below & Heq). by exists c, above, below.
Qed.

(** The merge line does not depend on the order in which Go ranges over the map of parents:
    at a column the stamp of the highest priority wins, and two stamps of one priority at one
    column are equal, because no two parents share a column. *)
Theorem mergeLine_order range range' m w
  (Hrange : forall m, range m ≡ₚ map_to_list m) (Hrange' : forall m, range' m ≡ₚ map_to_list m) :
  mergeLine range m w = mergeLine range' m w.
Proof.
  unfold mergeLine. fold (merge_stamps range m) (merge_stamps range' m).
  rewrite (setCell_order (merge_stamps range m) (merge_stamps range' m)); [done|by apply merge_consistent|].
  intros s. by rewrite !elem_of_merge_stamps.
Qed.

(** ** Witnesses *)

Definition ex_border : border := Border "╭" "─" "╮" "├" "┤" "╰" "─" "╯" "│" "│".

(** [deploy] depends on [lint], [test] and, two layers up, [build]. *)
Lemma diagram_drawn_witness :
  exists g boxes lines, BuildGraph ex_diagram_valid.1 = Some g /\
    terminal_lines (fun _ s => s) ex_border map_to_list g = Some lines /\ length lines = 21 /\
    exists fi ti fl tl fcol tcol, ends boxes g (Edge.mk "build" "deploy" "" DependsEdge) fi ti fl tl fcol tcol /\ fl < tl.
Proof.
  refine (match diagram_drawn (H := Conditional.ex_cel) (fun _ s => s) ex_border map_to_list ex_diagram ex_diagram_valid.1 ex_diagram_valid.2 _ _ with
          | ex_intro _ g (ex_intro _ boxes (ex_intro _ lines (conj Hg (conj Hb (conj Hl Hedges))))) =>
              ex_intro _ g (ex_intro _ boxes (ex_intro _ lines (conj Hg (conj Hl (conj _ _))))) end).
  - done.
  - vm_compute. reflexivity.
  - assert (length <$> (g ← BuildGraph ex_diagram_valid.1; terminal_lines (fun _ s => s) ex_border map_to_list g) = Some 21) as Hlen
      by (vm_compute; reflexivity).
    rewrite Hg in Hlen. cbn [mbind option_bind] in Hlen. rewrite Hl in Hlen. by injection Hlen.
  - destruct (Hedges (Edge.mk "build" "deploy" "" DependsEdge)) as (fi & ti & fl & tl & fcol & tcol & He & Hlt & _).
    + assert ((g ← BuildGraph ex_diagram_valid.1; Graph.Edges g !! 1) = Some (Edge.mk "build" "deploy" "" DependsEdge)) as Hat
        by (vm_compute; reflexivity).
      rewrite Hg in Hat. cbn [mbind option_bind] in Hat. by eapply list_elem_of_lookup_2.
    + by exists fi, ti, fl, tl, fcol, tcol.
Defined.

Lemma mergeLine_order_witness :
  let m : gmap nat (list nat) := <[3 := [1; 5]]> (<[6 := [5; 9]]> ∅) in
  mergeLine map_to_list m 11 = mergeLine (fun m => rev (map_to_list m)) m 11 /\
  mergeLine map_to_list m 11 = [" "; "▼"; "─"; "┴"; "─"; "▼"; "┴"; "─"; "─"; "▼"; " "].
Proof.
  split; [|vm_compute; reflexivity].
  refine (mergeLine_order map_to_list (fun m => rev (map_to_list m)) _ 11 _ _); [done|].
  intros m. symmetry. apply Permutation_rev.
Defined.
