(* ===== verification/Tui.v ===== *)
(** * The interactive display (progress/tui/model.go)

    The bubbletea model is a state machine: [Update] consumes progress messages and the
    terminal's own events.  [jobState] and [stepState] are shared by pointer in Go, but only
    through the maps that hold them, so an update replaces the entry.  The screen that
    [View] draws of it is in [View]. *)

From stdpp Require Import pretty.
From S2P Require Import Prelude Errors GoStrings Regex Conditional Model Progress.

(** ** State *)

Inductive stepStatus : Set :=
  | statusPending | statusRunning | statusDone | statusCached | statusError | statusTimeout
  | statusRetry | statusAllowedFailure.

#[export] Instance stepStatus_eq_dec : EqDecision stepStatus.
Proof. solve_decision. Defined.

Module stepState.
Record t := mk { name : string; status : stepStatus; duration : Z; configuredTimeout : Z }.
#[global] Instance settable : Settable t := fun r => mk (name r) (status r) (duration r) (configuredTimeout r).
End stepState.

Module jobState.
Record t := mk {
  vertices : gmap string stepState.t;
  order : list string;
  logs : list string;
  done : bool;
  skipped : bool;
  skippedSteps : list string;
  started : option Z;
  ended : option Z;
  retryAttempt : Z;
  maxAttempts : Z;
  timedOut : bool;
  timeout : Z;
  stepTimeouts : gmap string Z;
  cmdInfos : gmap string CmdInfo.t;
  allowedFailureSet : gset string
}.
#[global] Instance settable : Settable t := fun r =>
  mk (vertices r) (order r) (logs r) (done r) (skipped r) (skippedSteps r) (started r) (ended r)
    (retryAttempt r) (maxAttempts r) (timedOut r) (timeout r) (stepTimeouts r) (cmdInfos r) (allowedFailureSet r).
End jobState.

Definition newJobState : jobState.t :=
  jobState.mk ∅ [] [] false false [] None None 0 0 false 0 ∅ ∅ ∅.

Module multiModel.
Record t := mk {
  jobs : gmap string jobState.t;
  order : list string;
  width : Z;
  boring : bool;
  done : bool;
  frame : Z;
  syncMsg : option (Z * Z * Z)
}.
#[global] Instance settable : Settable t := fun r =>
  mk (jobs r) (order r) (width r) (boring r) (done r) (frame r) (syncMsg r).
End multiModel.

Definition newMultiModel (boring : bool) : multiModel.t := multiModel.mk ∅ [] 0 boring false 0 None.

(** ** One vertex *)

(** The statuses after which [applyVertex] returns early. *)
Definition terminal (s : stepStatus) : bool :=
  match s with
  | statusDone | statusCached | statusError | statusTimeout | statusAllowedFailure => true
  | _ => false
  end.

Definition isAllowedFailure (js : jobState.t) (vertexName : string) : bool :=
  existsb (HasPrefix vertexName) (elements (jobState.allowedFailureSet js)).

(** The switch at the end of [applyVertex]. *)
Definition next_state (js : jobState.t) (v : Vertex.t) (st : stepState.t) : stepState.t :=
  if decide (Vertex.Error v <> "") then
    st <| stepState.status :=
      if isAllowedFailure js (stepState.name st) then statusAllowedFailure
      else if IsTimeoutExitCode (Vertex.Error v) (stepState.configuredTimeout st)
      then statusTimeout else statusError |>
  else if Vertex.Cached v then st <| stepState.status := statusCached |>
  else match Vertex.Completed v, Vertex.Started v with
       | Some c, Some s =>
           st <| stepState.status := statusDone |> <| stepState.duration := Round (time_Sub c s) Millisecond |>
       | Some _, None => st <| stepState.status := statusDone |>
       | None, Some _ => st <| stepState.status := statusRunning |>
       | None, None => st
       end.

(** The earliest start and the latest completion. *)
Definition earlier (t u : option Z) : option Z :=
  match t, u with
  | Some t, Some u => if decide (t < u)%Z then Some t else Some u
  | Some t, None => Some t
  | None, _ => u
  end.
Definition later (t u : option Z) : option Z :=
  match t, u with
  | Some t, Some u => if decide (u < t)%Z then Some t else Some u
  | Some t, None => Some t
  | None, _ => u
  end.

(** The entry of a vertex, created on its first update. *)
Definition find_vertex (js : jobState.t) (v : Vertex.t) : jobState.t * stepState.t :=
  match jobState.vertices js !! Vertex.Digest v with
  | Some st => (js, st)
  | None =>
      let st := stepState.mk (Vertex.Name v) statusPending 0
                  (default 0%Z (jobState.stepTimeouts js !! Vertex.Name v)) in
      (js <| jobState.vertices ::= <[Vertex.Digest v := st]> |>
          <| jobState.order ::= fun o => o ++ [Vertex.Digest v] |>, st)
  end.

Definition applyVertex (js : jobState.t) (v : Vertex.t) : jobState.t :=
  let '(js, st) := find_vertex js v in
  if terminal (stepState.status st) then js else
  js <| jobState.started ::= earlier (Vertex.Started v) |>
     <| jobState.ended ::= later (Vertex.Completed v) |>
     <| jobState.vertices ::= <[Vertex.Digest v := next_state js v st]> |>.

(** ** Logs *)

Definition maxLogs : nat := 10.

Definition addLog (line : string) (js : jobState.t) : jobState.t :=
  js <| jobState.logs ::= fun logs =>
    let logs := logs ++ [line] in
    if decide (maxLogs < length logs) then drop (length logs - maxLogs) logs else logs |>.

Definition log_step (js : jobState.t) (l : VertexLog.t) : jobState.t :=
  if decide (VertexLog.Data l = "") then js else
  let m := TrimSpace (VertexLog.Data l) in
  if decide (m = "") then js else addLog m js.

Definition appendLogs (js : jobState.t) (logs : list VertexLog.t) : jobState.t := foldl log_step js logs.

Definition applyStatus (s : SolveStatus.t) (js : jobState.t) : jobState.t :=
  appendLogs (foldl applyVertex js (SolveStatus.Vertexes s)) (SolveStatus.Logs s).

(** ** Messages *)

Inductive tea_msg : Type :=
  | Progress (m : msg)
  | WindowSizeMsg (width : Z)
  | allDoneMsg
  | tickMsg
  | KeyPressMsg (key : string).

Inductive tea_cmd : Set := NoCmd | Quit | Tick.

Definition spinner_period : Z := 10 * 4.

Definition getOrCreateJob (name : string) (m : multiModel.t) : multiModel.t :=
  match multiModel.jobs m !! name with
  | Some _ => m
  | None => m <| multiModel.jobs ::= <[name := newJobState]> |> <| multiModel.order ::= fun o => o ++ [name] |>
  end.

(** [if js, ok := m.jobs[name]; ok { ... }]. *)
Definition on_job (name : string) (f : jobState.t -> jobState.t) (m : multiModel.t) : multiModel.t :=
  m <| multiModel.jobs ::= alter f name |>.

Definition with_job (name : string) (f : jobState.t -> jobState.t) (m : multiModel.t) : multiModel.t :=
  on_job name f (getOrCreateJob name m).

Definition failed (s : stepStatus) : bool :=
  match s with statusError | statusTimeout => true | _ => false end.

(** The retrofit of a failure that turns out to be allowed. *)
Definition promote (prefix : string) (st : stepState.t) : stepState.t :=
  if failed (stepState.status st) && HasPrefix (stepState.name st) prefix
  then st <| stepState.status := statusAllowedFailure |> else st.

Definition allow (prefix : string) (js : jobState.t) : jobState.t :=
  js <| jobState.allowedFailureSet ::= union {[ prefix ]} |> <| jobState.vertices ::= fmap (promote prefix) |>.

Definition time_out (timeout : Z) (js : jobState.t) : jobState.t :=
  js <| jobState.timedOut := true |> <| jobState.timeout := timeout |>
     <| jobState.vertices ::= fun vs => foldl (fun vs d => alter (fun st =>
          if decide (stepState.status st = statusRunning) then st <| stepState.status := statusTimeout |> else st) d vs)
          vs (jobState.order js) |>.

(** The case of [Update] for one progress message. *)
Definition update_msg (m : multiModel.t) (p : msg) : multiModel.t :=
  match p with
  | JobAddedMsg job timeouts cmds =>
      with_job job (fun js => js
        <| jobState.stepTimeouts ::= fun old => default old timeouts |>
        <| jobState.cmdInfos := cmds |>) m
  | JobSkippedMsg job =>
      with_job job (fun js => if jobState.done js then js else
        js <| jobState.done := true |> <| jobState.skipped := true |>) m
  | StepSkippedMsg job step => on_job job (fun js => js <| jobState.skippedSteps ::= fun l => l ++ [step] |>) m
  | JobStatusMsg job status => on_job job (applyStatus status) m
  | JobRetryMsg job attempt maxAttempts _ =>
      with_job job (fun js => js <| jobState.retryAttempt := attempt |> <| jobState.maxAttempts := maxAttempts |>) m
  | StepRetryMsg job step attempt maxAttempts _ =>
      on_job job (addLog ("step " +:+ quoted step +:+ ": retrying (attempt " +:+ pretty attempt +:+ "/" +:+ pretty maxAttempts +:+ ")")) m
  | StepAllowedFailureMsg job step _ =>
      on_job job (fun js => allow (job +:+ "/" +:+ step +:+ "/") (addLog ("step " +:+ quoted step +:+ ": failed (allowed)") js)) m
  | JobTimeoutMsg job timeout => with_job job (time_out timeout) m
  | SyncMsg walked hashed hits => m <| multiModel.syncMsg := Some (walked, hashed, hits) |>
  | JobDoneMsg job => on_job job (fun js => js <| jobState.done := true |>) m
  | ErrorMsg _ | LogMsg _ _ _ => m
  end.

Definition Update (m : multiModel.t) (u : tea_msg) : multiModel.t * tea_cmd :=
  match u with
  | Progress p => (update_msg m p, NoCmd)
  | WindowSizeMsg w => (m <| multiModel.width := w |>, NoCmd)
  | allDoneMsg => (m <| multiModel.done := true |>, Quit)
  | tickMsg => (m <| multiModel.frame ::= fun f => Z.rem (f + 1) spinner_period |>, Tick)
  | KeyPressMsg key => (m, if decide (key = "ctrl+c") then Quit else NoCmd)
  end.

(** A run of the program: the model after a sequence of messages. *)
Definition run (m : multiModel.t) (us : list tea_msg) : multiModel.t := foldl (fun m u => (Update m u).1) m us.

(** What [renderTo] shows in a job's header. *)
Definition resolvedCount (js : jobState.t) : nat :=
  length (filter (fun d => default false ((fun st => terminal (stepState.status st)) <$> (jobState.vertices js !! d)) = true)
            (jobState.order js)).

Definition jobDuration (js : jobState.t) : Z :=
  if jobState.timedOut js then jobState.timeout js else
  match jobState.ended js, jobState.started js with
  | Some e, Some s => Round (time_Sub e s) Millisecond
  | _, _ => 0
  end.

#[local] Arguments HasPrefix : simpl never.
#[local] Arguments IsTimeoutExitCode : simpl never.

(** ** Models up to their logs

    Two states are equivalent when they differ at most in the retained log lines. *)

Definition quiet (js : jobState.t) : jobState.t := js <| jobState.logs := [] |>.

#[export] Instance jobState_equiv : Equiv jobState.t := fun a b => quiet a = quiet b.
#[export] Instance jobState_equivalence : Equivalence (≡@{jobState.t}).
Proof. split; unfold equiv, jobState_equiv; red; congruence. Qed.

#[export] Instance multiModel_equiv : Equiv multiModel.t := fun a b =>
  multiModel.jobs a ≡ multiModel.jobs b /\
  (multiModel.order a, multiModel.width a, multiModel.boring a, multiModel.done a, multiModel.frame a, multiModel.syncMsg a)
  = (multiModel.order b, multiModel.width b, multiModel.boring b, multiModel.done b, multiModel.frame b, multiModel.syncMsg b).
#[export] Instance multiModel_equivalence : Equivalence (≡@{multiModel.t}).
Proof.
  split.
  - intros m. by split.
  - intros a b [H1 H2]. split; [by symmetry|done].
  - intros a b c [H1 H2] [H3 H4]. split; [by etrans|congruence].
Qed.

(** A function of the job that neither reads nor repairs the logs. *)
Lemma quiet_proper (f : jobState.t -> jobState.t) (g : jobState.t -> jobState.t) :
  (forall js, quiet (f js) = g (quiet js)) -> Proper ((≡) ==> (≡)) f.
Proof. intros Hf a b Hab. unfold equiv, jobState_equiv in *. by rewrite !Hf, Hab. Qed.

Lemma quiet_addLog line js : addLog line js ≡ js.
Proof. done. Qed.

Lemma quiet_appendLogs logs js : appendLogs js logs ≡ js.
Proof.
  unfold appendLogs. revert js. induction logs as [|l logs IH]; intros js; [done|]. cbn [foldl]. rewrite IH.
  unfold log_step. case_decide; [done|]. by case_decide.
Qed.

Lemma quiet_applyVertex js v : quiet (applyVertex js v) = applyVertex (quiet js) v.
Proof.
  unfold applyVertex, find_vertex, quiet. cbn. destruct (jobState.vertices js !! Vertex.Digest v) as [st|].
  - by destruct (terminal (stepState.status st)).
  - done.
Qed.

#[export] Instance applyVertex_proper : Proper ((≡) ==> (=) ==> (≡)) applyVertex.
Proof.
  intros a b Hab v ? <-. unfold equiv, jobState_equiv in *. by rewrite !quiet_applyVertex, Hab.
Qed.

Lemma foldl_applyVertex_proper vs a b : a ≡ b -> foldl applyVertex a vs ≡ foldl applyVertex b vs.
Proof. revert a b. induction vs as [|v vs IH]; intros a b Hab; [done|]. cbn. apply IH. by rewrite Hab. Qed.

#[export] Instance applyStatus_proper s : Proper ((≡) ==> (≡)) (applyStatus s).
Proof. intros a b Hab. unfold applyStatus. rewrite !quiet_appendLogs. by apply foldl_applyVertex_proper. Qed.

#[export] Instance allow_proper p : Proper ((≡) ==> (≡)) (allow p).
Proof. by apply (quiet_proper _ (allow p)). Qed.

#[export] Instance addLog_proper l : Proper ((≡) ==> (≡)) (addLog l).
Proof. intros a b Hab. by rewrite !quiet_addLog. Qed.

#[export] Instance on_job_proper name f :
  Proper ((≡) ==> (≡)) f -> Proper ((≡) ==> (≡)) (on_job name f).
Proof.
  intros Hf a b [Hj Ho]. split; [|done]. cbn. by apply alter_proper.
Qed.

#[export] Instance getOrCreateJob_proper name : Proper ((≡) ==> (≡)) (getOrCreateJob name).
Proof.
  intros a b Hab. pose proof Hab as [Hj Ho]. unfold getOrCreateJob. pose proof (Hj name) as Hn.
  inversion Hn; [done|]. split; cbn; [by rewrite Hj|]. simplify_eq/=. congruence.
Qed.

(** ** Allowing a failure commutes with everything but the job's timeout *)

Lemma terminal_promote p st : terminal (stepState.status (promote p st)) = terminal (stepState.status st).
Proof. unfold promote. destruct st as [n s d c]; cbn. by destruct s, (HasPrefix n p). Qed.

Lemma promote_live p st : terminal (stepState.status st) = false -> promote p st = st.
Proof. unfold promote. destruct st as [n s d c]; cbn. by destruct s. Qed.

Lemma promote_comm p q st : promote p (promote q st) = promote q (promote p st).
Proof.
  unfold promote. destruct st as [n s d c].
  destruct s, (HasPrefix n q) eqn:Eq, (HasPrefix n p) eqn:Ep; cbn; rewrite ?Eq, ?Ep; cbn; by rewrite ?Eq, ?Ep.
Qed.

Lemma isAllowed_allow p js name :
  isAllowedFailure (allow p js) name = HasPrefix name p || isAllowedFailure js name.
Proof.
  apply eq_bool_prop_intro. rewrite orb_True. unfold isAllowedFailure. rewrite !existb_True, !Exists_exists. cbn.
  setoid_rewrite elem_of_elements. setoid_rewrite elem_of_union. setoid_rewrite elem_of_singleton. naive_solver.
Qed.

Lemma next_allow p js v st :
  terminal (stepState.status st) = false -> next_state (allow p js) v st = promote p (next_state js v st).
Proof.
  intros Hst. unfold next_state. rewrite isAllowed_allow. destruct st as [n s d c]; cbn in *.
  case_decide.
  - unfold promote; cbn. destruct (isAllowedFailure js n); [by rewrite orb_true_r|]. rewrite orb_false_r.
    destruct (IsTimeoutExitCode _ _); cbn; by destruct (HasPrefix n p).
  - destruct (Vertex.Cached v); [done|]. destruct (Vertex.Completed v), (Vertex.Started v); try done.
    by rewrite promote_live.
Qed.

Lemma applyVertex_allow p js v : applyVertex (allow p js) v = allow p (applyVertex js v).
Proof.
  unfold applyVertex, find_vertex. cbn. rewrite lookup_fmap.
  destruct (jobState.vertices js !! Vertex.Digest v) as [st|] eqn:Hv; cbn.
  - rewrite terminal_promote. destruct (terminal (stepState.status st)) eqn:Ht; [done|].
    rewrite (promote_live _ _ Ht). unfold allow; cbn. rewrite fmap_insert, <- next_allow by done. done.
  - unfold allow; cbn. rewrite !fmap_insert.
    match goal with |- context [promote p (next_state ?js' v ?st)] => rewrite <- (next_allow p js' v st) by done end.
    done.
Qed.

Lemma applyStatus_allow p s js : applyStatus s (allow p js) ≡ allow p (applyStatus s js).
Proof.
  unfold applyStatus. rewrite !quiet_appendLogs.
  assert (foldl applyVertex (allow p js) (SolveStatus.Vertexes s) = allow p (foldl applyVertex js (SolveStatus.Vertexes s))) as ->; [|done].
  revert js. induction (SolveStatus.Vertexes s) as [|v vs IH]; intros js; [done|]. cbn. by rewrite applyVertex_allow, IH.
Qed.

Lemma allow_comm p q js : allow p (allow q js) = allow q (allow p js).
Proof.
  unfold allow; destruct js; cbn. f_equal.
  - rewrite <- !map_fmap_compose. apply map_fmap_ext. intros d st _. apply promote_comm.
  - set_solver.
Qed.

(** The effect of [StepAllowedFailureMsg] on its job. *)
Definition allow_msg (job step : string) (js : jobState.t) : jobState.t :=
  allow (job +:+ "/" +:+ step +:+ "/") (addLog ("step " +:+ quoted step +:+ ": failed (allowed)") js).

Lemma on_job_comm a b f g m :
  Proper ((≡) ==> (≡)) f -> Proper ((≡) ==> (≡)) g ->
  (a = b -> forall js, f (g js) ≡ g (f js)) ->
  on_job a f (on_job b g m) ≡ on_job b g (on_job a f m).
Proof.
  intros Hf Hg Hfg. split; [|done]. cbn. destruct (decide (a = b)) as [->|Hab].
  - intros k. destruct (decide (k = b)) as [->|Hk].
    + rewrite !lookup_alter_eq. destruct (_ !! b); [|done]. cbn. constructor. by apply Hfg.
    + by rewrite !lookup_alter_ne.
  - by rewrite alter_alter_ne by done.
Qed.

Lemma getOrCreate_on_job a b g m :
  is_Some (multiModel.jobs m !! b) ->
  getOrCreateJob a (on_job b g m) = on_job b g (getOrCreateJob a m).
Proof.
  intros [js Hb]. unfold getOrCreateJob, on_job. cbn. destruct (decide (a = b)) as [->|Hab].
  - by rewrite lookup_alter_eq, Hb.
  - rewrite lookup_alter_ne by done. destruct (_ !! a); [done|]. cbn.
    destruct m; cbn. f_equal. by rewrite alter_insert_ne.
Qed.

Lemma with_job_comm a b f g m :
  Proper ((≡) ==> (≡)) f -> Proper ((≡) ==> (≡)) g ->
  (a = b -> forall js, f (g js) ≡ g (f js)) -> is_Some (multiModel.jobs m !! b) ->
  with_job a f (on_job b g m) ≡ on_job b g (with_job a f m).
Proof. intros Hf Hg Hfg Hb. unfold with_job. rewrite getOrCreate_on_job by done. by apply on_job_comm. Qed.

(** ** Every message respects the equivalence *)

Lemma running_addLog_free timeout js : quiet (time_out timeout js) = time_out timeout (quiet js).
Proof. done. Qed.

(** Updates of other fields than the logs commute with [quiet] by computation. *)
Ltac solve_quiet :=
  match goal with
  | |- Proper _ ?f => apply (quiet_proper f f); intros js; first [reflexivity|cbn; by destruct (jobState.done js)]
  end.

#[export] Instance allow_msg_proper job step : Proper ((≡) ==> (≡)) (allow_msg job step).
Proof. by apply (quiet_proper _ (allow (job +:+ "/" +:+ step +:+ "/"))). Qed.

Lemma allow_msg_allow job step js : allow_msg job step js ≡ allow (job +:+ "/" +:+ step +:+ "/") js.
Proof. done. Qed.

#[export] Instance with_job_proper job f : Proper ((≡) ==> (≡)) f -> Proper ((≡) ==> (≡)) (with_job job f).
Proof. intros Hf a b Hab. unfold with_job. by rewrite Hab. Qed.

#[export] Instance update_msg_proper p : Proper ((≡) ==> (≡)) (fun m => update_msg m p).
Proof.
  destruct p; cbn [update_msg]; try (intros a b Hab; exact Hab);
    try (first [apply with_job_proper|apply on_job_proper]); first [apply _|solve_quiet|apply allow_msg_proper|idtac].
  intros a b [Hj Ho]. split; [done|]. cbn in *. congruence.
Qed.

#[export] Instance run_proper us : Proper ((≡) ==> (≡)) (fun m => run m us).
Proof.
  induction us as [|u us IH]; intros a b Hab; [done|]. cbn. apply IH.
  destruct u; cbn; [by apply update_msg_proper|..]; destruct Hab as [Hj Ho]; (split; [done|]); cbn in *; congruence.
Qed.

(** Jobs are never forgotten. *)
Lemma update_job_mono m u job :
  is_Some (multiModel.jobs m !! job) -> is_Some (multiModel.jobs (Update m u).1 !! job).
Proof.
  intros Hj. assert (forall a f m, is_Some (multiModel.jobs m !! job) -> is_Some (multiModel.jobs (on_job a f m) !! job)) as Ho.
  { intros a f m'. cbn. rewrite !lookup_alter_is_Some. done. }
  assert (forall a f, is_Some (multiModel.jobs (with_job a f m) !! job)) as Hw.
  { intros a f. apply Ho. unfold getOrCreateJob. destruct (multiModel.jobs m !! a) eqn:Ha; [done|]. cbn.
    rewrite lookup_insert_is_Some. destruct (decide (a = job)); [by left|by right]. }
  destruct u as [p| | | |]; [destruct p|..]; cbn [Update update_msg fst]; auto.
Qed.

Definition times_out (job : string) (u : tea_msg) : Prop :=
  match u with Progress (JobTimeoutMsg job' _) => job' = job | _ => False end.

Lemma update_allow_comm m u job step :
  is_Some (multiModel.jobs m !! job) -> ~ times_out job u ->
  (Update (on_job job (allow_msg job step) m) u).1 ≡ on_job job (allow_msg job step) (Update m u).1.
Proof.
  intros Hj Hu. destruct u as [p| | | |]; [|done..].
  destruct p; cbn [Update update_msg fst]; try done;
    first [apply with_job_comm | apply on_job_comm]; try done;
    first [apply _|solve_quiet|apply allow_msg_proper|idtac]; try (intros _ js; reflexivity).
  - intros _ js. rewrite !allow_msg_allow. apply applyStatus_allow.
  - intros _ js. cbn. by destruct (jobState.done js).
  - intros _ js. change (allow_msg Job Step (allow_msg job step js) ≡ allow_msg job step (allow_msg Job Step js)).
    rewrite !allow_msg_allow. by rewrite allow_comm.
Qed.

Lemma run_app m us vs : run m (us ++ vs) = run (run m us) vs.
Proof. apply foldl_app. Qed.

Lemma run_cons m u us : run m (u :: us) = run (Update m u).1 us.
Proof. done. Qed.

Lemma run_job_mono m us job :
  is_Some (multiModel.jobs m !! job) -> is_Some (multiModel.jobs (run m us) !! job).
Proof. revert m. induction us as [|u us IH]; intros m Hj; [done|]. rewrite run_cons. by apply IH, update_job_mono. Qed.

Lemma run_allow_comm m us job step :
  is_Some (multiModel.jobs m !! job) -> Forall (fun u => ~ times_out job u) us ->
  run (on_job job (allow_msg job step) m) us ≡ on_job job (allow_msg job step) (run m us).
Proof.
  intros Hj Hus. revert m Hj. induction Hus as [|u us Hu _ IH]; intros m Hj; [done|].
  rewrite !run_cons, <- IH by (by apply update_job_mono).
  apply (run_proper us). by apply update_allow_comm.
Qed.

(** C31: Once a display knows a job, it does not depend on when it learns that a failure of
    the job is allowed: the message that one of its steps may fail can arrive before or
    after any other messages - the vertices, their statuses and durations and everything
    else but the log lines end up the same - as long as the job does not time out in
    between.  (A job is known from its first added, skipped, retry or timeout message on; an
    earlier message that a failure is allowed is dropped.) *)
Theorem allowed_failure_order m us vs job step e
  (Hj : is_Some (multiModel.jobs m !! job)) (Hus : Forall (fun u => ~ times_out job u) us) :
  run m (Progress (StepAllowedFailureMsg job step e) :: us ++ vs) ≡
  run m (us ++ Progress (StepAllowedFailureMsg job step e) :: vs).
Proof.
  rewrite run_cons, !run_app. apply (run_proper vs). cbn. by apply run_allow_comm.
Qed.

Definition ex_vertex (err : string) : Vertex.t :=
  Vertex.mk "sha256:1" "build/test/go test" (Some 0%Z) (if decide (err = "") then None else Some 5000000%Z) false err.
Definition ex_added : tea_msg := Progress (JobAddedMsg "build" None ∅).
Definition ex_status (err : string) : tea_msg :=
  Progress (JobStatusMsg "build" (SolveStatus.mk [ex_vertex err] [] [])).
Definition ex_allowed : tea_msg := Progress (StepAllowedFailureMsg "build" "test" (raise (Foreign "exit"))).
Definition ex_statuses (us : list tea_msg) : option (list (string * stepStatus)) :=
  (fun js => (fun p => (p.1, stepState.status p.2)) <$> map_to_list (jobState.vertices js))
  <$> multiModel.jobs (run (newMultiModel false) (ex_added :: us)) !! "build".

Lemma allowed_failure_order_witness :
  ex_statuses [ex_allowed; ex_status "exit code: 1"] = Some [("sha256:1", statusAllowedFailure)] /\
  run (run (newMultiModel false) [ex_added]) [ex_allowed; ex_status "exit code: 1"] ≡
  run (run (newMultiModel false) [ex_added]) [ex_status "exit code: 1"; ex_allowed].
Proof.
  split; [vm_compute; reflexivity|].
  refine (allowed_failure_order (run (newMultiModel false) [ex_added]) [ex_status "exit code: 1"] [] "build" "test" _ _ _).
  - eexists. vm_compute. reflexivity.
  - repeat constructor. intros [].
Defined.

(** Before the job is known the message is lost. *)
Lemma allowed_failure_dropped m job step e :
  multiModel.jobs m !! job = None -> run m [Progress (StepAllowedFailureMsg job step e)] = m.
Proof. intros Hj. destruct m. unfold run. cbn in *. unfold on_job. cbn. f_equal. apply alter_id. intros js Hjs. by rewrite Hj in Hjs. Qed.

(** With a timeout in between the order matters: a step that was allowed to fail before the
    job timed out is shown as timed out, and as allowed when the message comes later. *)
Lemma allowed_failure_timeout :
  let t := Progress (JobTimeoutMsg "build" 7%Z) in
  ex_statuses [ex_status ""; ex_allowed; t] = Some [("sha256:1", statusTimeout)] /\
  ex_statuses [ex_status ""; t; ex_allowed] = Some [("sha256:1", statusAllowedFailure)].
Proof. split; vm_compute; reflexivity. Qed.

(** ** Terminal statuses *)

(** What may become of a step that is shown. *)
Definition evolves (st st' : stepState.t) : Prop :=
  terminal (stepState.status st) = true ->
  st' = st \/ failed (stepState.status st) = true /\ st' = st <| stepState.status := statusAllowedFailure |>.

#[export] Instance evolves_preorder : PreOrder evolves.
Proof.
  split; [by left|]. intros a b c Hab Hbc Ha. destruct (Hab Ha) as [->|[Hf ->]]; [by apply Hbc|].
  destruct (Hbc eq_refl) as [->|[Hd _]]; [by right|done].
Qed.

Definition steps_evolve (vs vs' : gmap string stepState.t) : Prop :=
  forall d st, vs !! d = Some st -> exists st', vs' !! d = Some st' /\ evolves st st'.

#[export] Instance steps_evolve_preorder : PreOrder steps_evolve.
Proof.
  split; [intros vs d st Hd; by exists st|]. intros a b c Hab Hbc d st Hd.
  destruct (Hab _ _ Hd) as (st' & Hd' & He). destruct (Hbc _ _ Hd') as (st'' & Hd'' & He').
  exists st''. split; [done|by etrans].
Qed.

Lemma steps_evolve_insert vs d st' :
  (forall st, vs !! d = Some st -> evolves st st') -> steps_evolve vs (<[d := st']> vs).
Proof.
  intros Hd k st Hk. destruct (decide (d = k)) as [->|Hne].
  - rewrite lookup_insert_eq. eauto.
  - rewrite lookup_insert_ne by done. by exists st.
Qed.

Lemma steps_evolve_fmap vs f : (forall st, evolves st (f st)) -> steps_evolve vs (f <$> vs).
Proof. intros Hf d st Hd. exists (f st). by rewrite lookup_fmap, Hd. Qed.

Lemma promote_evolves p st : evolves st (promote p st).
Proof.
  intros _. unfold promote. destruct (failed (stepState.status st)) eqn:Hf; cbn; [|by left].
  destruct (HasPrefix _ _); [by right|by left].
Qed.

Lemma applyVertex_evolves js v : steps_evolve (jobState.vertices js) (jobState.vertices (applyVertex js v)).
Proof.
  unfold applyVertex, find_vertex. destruct (jobState.vertices js !! Vertex.Digest v) as [st|] eqn:Hv; cbn.
  - destruct (terminal (stepState.status st)) eqn:Ht; [done|]. cbn. apply steps_evolve_insert.
    intros st' Hst'. rewrite Hv in Hst'. injection Hst' as <-. intros Ht'. congruence.
  - rewrite insert_insert_eq. apply steps_evolve_insert. intros st'. by rewrite Hv.
Qed.

Lemma applyStatus_evolves s js : steps_evolve (jobState.vertices js) (jobState.vertices (applyStatus s js)).
Proof.
  unfold applyStatus. pose proof (quiet_appendLogs (SolveStatus.Logs s) (foldl applyVertex js (SolveStatus.Vertexes s))) as Hq.
  apply (f_equal jobState.vertices) in Hq. cbn in Hq. rewrite Hq. clear Hq.
  revert js. induction (SolveStatus.Vertexes s) as [|v vs IH]; intros js; [done|]. cbn.
  etrans; [apply applyVertex_evolves|apply IH].
Qed.

Lemma time_out_evolves timeout js : steps_evolve (jobState.vertices js) (jobState.vertices (time_out timeout js)).
Proof.
  cbn. generalize (jobState.vertices js). induction (jobState.order js) as [|d ds IH]; intros vs; [done|]. cbn.
  etrans; [|apply IH]. intros k st Hk. destruct (decide (d = k)) as [->|Hne].
  - rewrite lookup_alter_eq, Hk. eexists; split; [done|]. intros Ht. left. rewrite decide_False; [done|].
    intros Hr. by rewrite Hr in Ht.
  - rewrite lookup_alter_ne by done. by exists st.
Qed.

(** The same for whole models. *)
Definition jobs_evolve (m m' : multiModel.t) : Prop :=
  forall job js, multiModel.jobs m !! job = Some js -> exists js', multiModel.jobs m' !! job = Some js' /\
    steps_evolve (jobState.vertices js) (jobState.vertices js').

#[export] Instance jobs_evolve_preorder : PreOrder jobs_evolve.
Proof.
  split; [intros m job js Hj; exists js; by split|]. intros a b c Hab Hbc job js Hj.
  destruct (Hab _ _ Hj) as (js' & Hj' & He). destruct (Hbc _ _ Hj') as (js'' & Hj'' & He').
  exists js''. split; [done|by etrans].
Qed.

Lemma on_job_evolves name f m :
  (forall js, steps_evolve (jobState.vertices js) (jobState.vertices (f js))) -> jobs_evolve m (on_job name f m).
Proof.
  intros Hf job js Hj. cbn. destruct (decide (name = job)) as [->|Hne].
  - rewrite lookup_alter_eq, Hj. by eexists.
  - rewrite lookup_alter_ne by done. by exists js.
Qed.

Lemma with_job_evolves name f m :
  (forall js, steps_evolve (jobState.vertices js) (jobState.vertices (f js))) -> jobs_evolve m (with_job name f m).
Proof.
  intros Hf. unfold with_job. etrans; [|by apply on_job_evolves]. intros job js Hj. unfold getOrCreateJob.
  destruct (multiModel.jobs m !! name) eqn:Hn; [by exists js|]. cbn. exists js. split; [|done].
  rewrite lookup_insert_ne; [done|]. congruence.
Qed.

Lemma Update_evolves m u : jobs_evolve m (Update m u).1.
Proof.
  destruct u as [p| | | |]; [destruct p|..]; cbn [Update update_msg fst]; try reflexivity;
    first [apply with_job_evolves | apply on_job_evolves | idtac]; intros js; try reflexivity.
  - apply applyStatus_evolves.
  - by destruct (jobState.done js).
  - cbn. apply steps_evolve_fmap, promote_evolves.
  - apply time_out_evolves.
  - intros js' Hj. by exists js'.
  - intros js' Hj. by exists js'.
  - intros js' Hj. by exists js'.
  - intros js' Hj. by exists js'.
Qed.

Lemma run_evolves us m : jobs_evolve m (run m us).
Proof. revert m. induction us as [|u us IH]; intros m; [done|]. rewrite run_cons. etrans; [apply Update_evolves|apply IH]. Qed.

(** C30: A terminal status is final: once a step is shown as done, cached, failed, timed
    out or allowed to fail, no sequence of messages changes its name, duration or status,
    except that a failure or timeout may still be turned into an allowed failure. *)
Theorem terminal_final m us job js d st
  (Hjob : multiModel.jobs m !! job = Some js) (Hst : jobState.vertices js !! d = Some st)
  (Ht : terminal (stepState.status st) = true) :
  exists js' st', multiModel.jobs (run m us) !! job = Some js' /\ jobState.vertices js' !! d = Some st' /\
    (st' = st \/ failed (stepState.status st) = true /\ st' = st <| stepState.status := statusAllowedFailure |>).
Proof.
  destruct (run_evolves us m _ _ Hjob) as (js' & Hj' & Hs). destruct (Hs _ _ Hst) as (st' & Hd & He).
  exists js', st'. split_and!; [done|done|by apply He].
Qed.

Definition ex_failed : multiModel.t := run (newMultiModel false) [ex_added; ex_status "exit code: 1"].
Definition ex_job : jobState.t := default newJobState (multiModel.jobs ex_failed !! "build").
Definition ex_step : stepState.t := stepState.mk "build/test/go test" statusError 0 0.
Definition ex_retry : list tea_msg :=
  [Progress (JobRetryMsg "build" 1 2 (raise (Foreign "exit"))); ex_status ""].

Lemma terminal_final_witness :
  exists js' st', multiModel.jobs (run ex_failed ex_retry) !! "build" = Some js' /\
    jobState.vertices js' !! "sha256:1" = Some st' /\
    (st' = ex_step \/ failed (stepState.status ex_step) = true /\ st' = ex_step <| stepState.status := statusAllowedFailure |>).
Proof.
  refine (terminal_final ex_failed ex_retry "build" ex_job "sha256:1" ex_step _ _ _); vm_compute; reflexivity.
Defined.

(** So a vertex that failed in a job's first attempt is shown as failed although the retry,
    which solves the same definition and reports the same digest, completes it. *)
Lemma retried_vertex_stays_failed :
  ex_statuses [ex_status "exit code: 1"; Progress (JobRetryMsg "build" 1 2 (raise (Foreign "exit")));
    Progress (JobStatusMsg "build" (SolveStatus.mk
      [Vertex.mk "sha256:1" "build/test/go test" (Some 6000000%Z) (Some 9000000%Z) false ""] [] []))]
  = Some [("sha256:1", statusError)].
Proof. vm_compute. reflexivity. Qed.

(** ** Well-formed models *)

Record wf_job (js : jobState.t) : Prop := WfJob {
  wf_order : NoDup (jobState.order js);
  wf_vertices : dom (jobState.vertices js) = list_to_set (jobState.order js);
  wf_logs : length (jobState.logs js) <= maxLogs
}.

Record wf_model (m : multiModel.t) : Prop := WfModel {
  wf_job_order : NoDup (multiModel.order m);
  wf_job_dom : dom (multiModel.jobs m) = list_to_set (multiModel.order m);
  wf_jobs : map_Forall (fun _ js => wf_job js) (multiModel.jobs m);
  wf_frame : (0 <= multiModel.frame m < spinner_period)%Z
}.

Lemma wf_newJobState : wf_job newJobState.
Proof. split; cbn; [constructor|set_solver|lia]. Qed.

(** A function of the job that keeps its vertices, their order and its logs. *)
Lemma wf_job_same js js' :
  wf_job js -> dom (jobState.vertices js') = dom (jobState.vertices js) ->
  jobState.order js' = jobState.order js -> jobState.logs js' = jobState.logs js -> wf_job js'.
Proof. intros [H1 H2 H3] Hv Ho Hl. split; rewrite ?Ho, ?Hl, ?Hv; done. Qed.

Lemma wf_addLog line js : wf_job js -> wf_job (addLog line js).
Proof.
  intros [H1 H2 H3]. split; [done|done|]. cbn. case_decide; [rewrite length_drop; lia|lia].
Qed.

Lemma wf_applyVertex js v : wf_job js -> wf_job (applyVertex js v).
Proof.
  intros [H1 H2 H3]. unfold applyVertex, find_vertex.
  destruct (jobState.vertices js !! Vertex.Digest v) as [st|] eqn:Hv; cbn.
  - destruct (terminal (stepState.status st)); [done|]. split; cbn; [done| |done].
    rewrite dom_insert_lookup_L by done. done.
  - split; cbn; [| |done].
    + apply NoDup_app. split_and!; [done| |apply NoDup_singleton].
      intros d Hd ->%list_elem_of_singleton. apply not_elem_of_dom in Hv. apply Hv. rewrite H2. by apply elem_of_list_to_set.
    + rewrite !dom_insert_L, H2, list_to_set_app_L. set_solver.
Qed.

Lemma wf_appendLogs logs js : wf_job js -> wf_job (appendLogs js logs).
Proof.
  unfold appendLogs. revert js. induction logs as [|l logs IH]; intros js Hj; [done|]. cbn. apply IH.
  unfold log_step. case_decide; [done|]. case_decide; [done|]. by apply wf_addLog.
Qed.

Lemma wf_applyStatus s js : wf_job js -> wf_job (applyStatus s js).
Proof.
  intros Hj. apply wf_appendLogs. revert js Hj.
  induction (SolveStatus.Vertexes s) as [|v vs IH]; intros js Hj; [done|]. cbn. by apply IH, wf_applyVertex.
Qed.

Lemma wf_time_out timeout js : wf_job js -> wf_job (time_out timeout js).
Proof.
  intros Hj. apply (wf_job_same js); [done| |done|done]. cbn. generalize (jobState.vertices js).
  induction (jobState.order js) as [|d ds IH]; intros vs; [done|]. cbn. by rewrite IH, dom_alter_L.
Qed.

Lemma wf_on_job name f m : (forall js, wf_job js -> wf_job (f js)) -> wf_model m -> wf_model (on_job name f m).
Proof.
  intros Hf [H1 H2 H3 H4]. split; cbn; [done|by rewrite dom_alter_L| |done].
  intros k js. destruct (decide (name = k)) as [->|Hk].
  - rewrite lookup_alter_eq. intros (js0 & Hj & ->)%fmap_Some. by eapply Hf, H3.
  - rewrite lookup_alter_ne by done. apply H3.
Qed.

Lemma wf_getOrCreate name m : wf_model m -> wf_model (getOrCreateJob name m).
Proof.
  intros Hm. pose proof Hm as [H1 H2 H3 H4]. unfold getOrCreateJob. destruct (multiModel.jobs m !! name) eqn:Hn; [done|].
  split; cbn; [| | |done].
  - apply NoDup_app. split_and!; [done| |apply NoDup_singleton].
    intros d Hd ->%list_elem_of_singleton. apply not_elem_of_dom in Hn. apply Hn. rewrite H2. by apply elem_of_list_to_set.
  - rewrite dom_insert_L, H2, list_to_set_app_L. set_solver.
  - apply map_Forall_insert_2; [apply wf_newJobState|done].
Qed.

Lemma wf_with_job name f m : (forall js, wf_job js -> wf_job (f js)) -> wf_model m -> wf_model (with_job name f m).
Proof. intros Hf Hm. by apply wf_on_job, wf_getOrCreate. Qed.

Lemma wf_Update m u : wf_model m -> wf_model (Update m u).1.
Proof.
  intros Hm. pose proof Hm as [H1 H2 H3 H4].
  destruct u as [p| | | |]; [destruct p|..]; cbn [Update update_msg fst]; try done;
    first [apply wf_with_job; [|done] | apply wf_on_job; [|done] | idtac]; try (intros js Hj);
    try (by apply (wf_job_same js)).
  - by apply wf_applyStatus.
  - by destruct (jobState.done js); [|apply (wf_job_same js)].
  - by apply wf_addLog.
  - apply (wf_job_same (addLog ("step " +:+ quoted Step +:+ ": failed (allowed)") js)); [by apply wf_addLog| |done|done].
    cbn. by rewrite dom_fmap_L.
  - by apply wf_time_out.
  - split; cbn; try done. unfold spinner_period in *. pose proof (Z.rem_bound_pos (multiModel.frame m + 1) (10 * 4)). lia.
Qed.

Lemma wf_newMultiModel boring : wf_model (newMultiModel boring).
Proof. split; cbn; [constructor|set_solver|apply map_Forall_empty|unfold spinner_period; lia]. Qed.

Lemma wf_run us m : wf_model m -> wf_model (run m us).
Proof. revert m. induction us as [|u us IH]; intros m Hm; [done|]. rewrite run_cons. by apply IH, wf_Update. Qed.

(** *** The order of first messages *)

(** The job a message makes known, the messages after the first such one, and the vertices
    of the status updates of a job. *)
Definition creates (u : tea_msg) : option string :=
  match u with
  | Progress (JobAddedMsg job _ _ | JobSkippedMsg job | JobRetryMsg job _ _ _ | JobTimeoutMsg job _) => Some job
  | _ => None
  end.

Fixpoint since_known (job : string) (us : list tea_msg) : list tea_msg :=
  match us with
  | [] => []
  | u :: us' => if decide (creates u = Some job) then us' else since_known job us'
  end.

Definition reports (job : string) (u : tea_msg) : list string :=
  match u with
  | Progress (JobStatusMsg job' s) => if decide (job' = job) then Vertex.Digest <$> SolveStatus.Vertexes s else []
  | _ => []
  end.
Definition reported (job : string) (us : list tea_msg) : list string := us ≫= reports job.

(** Jobs and vertices in the order in which they were first heard of. *)
Record first_heard (us : list tea_msg) (m : multiModel.t) : Prop := FirstHeard {
  fh_jobs : multiModel.order m = uniq (omap creates us);
  fh_vertices : forall job js, multiModel.jobs m !! job = Some js -> jobState.order js = uniq (reported job (since_known job us))
}.

Lemma since_known_snoc job us u :
  since_known job (us ++ [u]) = if decide (job ∈ omap creates us) then since_known job us ++ [u] else [].
Proof.
  induction us as [|w us IH]; cbn [since_known app]; [by case_decide|].
  change (omap creates (w :: us)) with (match creates w with Some x => x :: omap creates us | None => omap creates us end).
  destruct (decide (creates w = Some job)) as [->|Hne]; [by rewrite decide_True by by left|]. rewrite IH.
  destruct (creates w) as [x|]; [|done]. case_decide as Hin; [by rewrite decide_True by by right|].
  rewrite decide_False; [done|]. intros [->|?]%elem_of_cons; done.
Qed.

(** What an update adds to the order of the vertices. *)
Definition heard (o : list string) (l : list string) : list string :=
  foldl (fun o d => if decide (d ∈ o) then o else o ++ [d]) o l.

Lemma heard_uniq l k : heard (uniq l) k = uniq (l ++ k).
Proof.
  revert l. induction k as [|d k IH]; intros l; cbn; [by rewrite app_nil_r|].
  rewrite (cons_middle d l k), app_assoc, <- IH, uniq_snoc. f_equal.
  case_decide as H1; [rewrite decide_True|rewrite decide_False]; try done; by rewrite elem_of_uniq in *.
Qed.

Lemma applyVertex_heard js v :
  wf_job js -> jobState.order (applyVertex js v) = heard (jobState.order js) [Vertex.Digest v].
Proof.
  intros [_ Hdom _]. cbn. unfold applyVertex, find_vertex. destruct (jobState.vertices js !! Vertex.Digest v) as [st|] eqn:Hv; cbn.
  - rewrite decide_True; [by destruct (terminal _)|]. apply (elem_of_list_to_set (C := gset string)). rewrite <- Hdom. by eapply elem_of_dom_2.
  - rewrite decide_False; [done|]. intros Hin. apply not_elem_of_dom in Hv. apply Hv. rewrite Hdom. by apply elem_of_list_to_set.
Qed.

Lemma applyStatus_heard s js :
  wf_job js -> jobState.order (applyStatus s js) = heard (jobState.order js) (Vertex.Digest <$> SolveStatus.Vertexes s).
Proof.
  unfold applyStatus. pose proof (quiet_appendLogs (SolveStatus.Logs s) (foldl applyVertex js (SolveStatus.Vertexes s))) as Hq.
  apply (f_equal jobState.order) in Hq. cbn in Hq. rewrite Hq. clear Hq.
  revert js. induction (SolveStatus.Vertexes s) as [|v vs IH]; intros js Hj; [done|]. cbn.
  rewrite IH by by apply wf_applyVertex. by rewrite applyVertex_heard.
Qed.

Lemma getOrCreate_order name m :
  wf_model m -> multiModel.order (getOrCreateJob name m) = heard (multiModel.order m) [name].
Proof.
  intros [_ Hdom _ _]. unfold getOrCreateJob. cbn. destruct (multiModel.jobs m !! name) eqn:Hn.
  - rewrite decide_True; [done|]. apply (elem_of_list_to_set (C := gset string)). rewrite <- Hdom. by eapply elem_of_dom_2.
  - rewrite decide_False; [done|]. intros Hin. apply not_elem_of_dom in Hn. apply Hn. rewrite Hdom. by apply elem_of_list_to_set.
Qed.

Lemma Update_order m u :
  wf_model m -> multiModel.order (Update m u).1 = heard (multiModel.order m) (option_list (creates u)).
Proof. intros Hm. destruct u as [p| | | |]; [destruct p|..]; try done; by apply getOrCreate_order. Qed.

(** A job after an update: as before, with the vertices that were reported, or new. *)
Lemma on_job_order name f m job js :
  (forall js, jobState.order (f js) = jobState.order js) -> multiModel.jobs (on_job name f m) !! job = Some js ->
  exists js0, multiModel.jobs m !! job = Some js0 /\ jobState.order js = jobState.order js0.
Proof.
  intros Hf. cbn. destruct (decide (name = job)) as [->|Hne].
  - rewrite lookup_alter_eq. intros (js0 & Hj & ->)%fmap_Some. eauto.
  - rewrite lookup_alter_ne by done. eauto.
Qed.

Lemma with_job_order name f m job js :
  (forall js, jobState.order (f js) = jobState.order js) -> multiModel.jobs (with_job name f m) !! job = Some js ->
  (exists js0, multiModel.jobs m !! job = Some js0 /\ jobState.order js = jobState.order js0) \/
  multiModel.jobs m !! job = None /\ name = job /\ jobState.order js = [].
Proof.
  intros Hf (js0 & Hj & Ho)%on_job_order; [|done]. unfold getOrCreateJob in Hj. destruct (multiModel.jobs m !! name) eqn:Hn; [by left; eauto|].
  cbn in Hj. apply lookup_insert_Some in Hj as [[-> <-]|[_ Hj]]; [by right|left; eauto].
Qed.

Lemma Update_vertices m u job js :
  wf_model m -> multiModel.jobs (Update m u).1 !! job = Some js ->
  (exists js0, multiModel.jobs m !! job = Some js0 /\ jobState.order js = heard (jobState.order js0) (reports job u)) \/
  multiModel.jobs m !! job = None /\ creates u = Some job /\ jobState.order js = [].
Proof.
  intros Hm Hj. destruct u as [p| | | |]; [|left; by eauto..].
  destruct p; cbn [Update update_msg fst creates reports] in *; try (left; by eauto);
    try (apply on_job_order in Hj as (js0 & Hj & ->); [left; by eauto|done]);
    try (apply with_job_order in Hj as [(js0 & Hj & ->)|(Hn & -> & Ho)]; [left; by eauto|by right|done]).
  - left. cbn in Hj. destruct (decide (Job = job)) as [->|Hne].
    + rewrite lookup_alter_eq in Hj. apply fmap_Some in Hj as (js0 & Hj & ->). exists js0. split; [done|].
      apply applyStatus_heard. by eapply (wf_jobs m Hm).
    + rewrite lookup_alter_ne in Hj by done. eauto.
  - apply with_job_order in Hj as [(js0 & Hj & ->)|(Hn & -> & Ho)]; [left; by eauto|by right|].
    intros js0. by destruct (jobState.done js0).
Qed.

Lemma first_heard_Update us m u : wf_model m -> first_heard us m -> first_heard (us ++ [u]) (Update m u).1.
Proof.
  intros Hm [Hj Hv]. split.
  - rewrite Update_order, Hj, heard_uniq, omap_app by done. cbn. by destruct (creates u).
  - intros job js Hjs. rewrite since_known_snoc. assert (job ∈ omap creates us <-> is_Some (multiModel.jobs m !! job)) as Hknown.
    { rewrite <- elem_of_dom, (wf_job_dom m Hm), elem_of_list_to_set, Hj. by rewrite elem_of_uniq. }
    destruct (Update_vertices _ _ _ _ Hm Hjs) as [(js0 & Hj0 & ->)|(Hn & _ & ->)].
    + rewrite decide_True by (apply Hknown; by eexists). unfold reported. rewrite (Hv _ _ Hj0), heard_uniq, bind_app. cbn. by rewrite app_nil_r.
    + rewrite decide_False; [done|]. rewrite Hknown, Hn. by intros [? ?].
Qed.

(** C32: Whatever messages arrive, in whatever order, the display's state is well formed: it
    has a state for exactly the jobs and vertices it lists and lists each of them once, jobs
    in the order in which their first added, skipped, retry or timeout message arrived and
    the vertices of a job in the order of their first status update since then; a job keeps
    at most ten log lines, and the spinner frame stays within its period. *)
Theorem run_wf boring us :
  wf_model (run (newMultiModel boring) us) /\ first_heard us (run (newMultiModel boring) us).
Proof.
  split; [apply wf_run, wf_newMultiModel|]. induction us as [|u us IH] using rev_ind; [split; by rewrite ?lookup_empty|].
  rewrite run_app. apply first_heard_Update; [apply wf_run, wf_newMultiModel|done].
Qed.

Lemma run_wf_ex :
  let us := [ex_status "early"; Progress (JobRetryMsg "test" 2 3 (raise (Foreign "exit"))); ex_added; ex_status ""] in
  multiModel.order (run (newMultiModel false) us) = ["test"; "build"] /\ reported "build" (since_known "build" us) = ["sha256:1"].
Proof. split; vm_compute; reflexivity. Qed.
