(* ===== verification/View.v ===== *)
(** * The interactive display's text (progress/tui/model.go: View, renderTo)

    [View] turns the model of [Tui] into text: a block of lines per job.  Colours are a
    parameter; the text of a duration ([time.Duration.String]) is defined here.  A lookup of
    a job or a vertex that is not there would dereference a nil pointer: rendering is
    partial. *)

From stdpp Require Import pretty.
From S2P Require Import Prelude Errors GoStrings Regex Conditional Model Progress Tui.

(** ** time.Duration.String *)

(** [fmtFrac]: the digits of [v / 10^prec] after the point, without trailing zeros, in front
    of [acc]; and the integral part. *)
Fixpoint fmtFrac (prec : nat) (print : bool) (v : N) (acc : string) : string * N :=
  match prec with
  | 0 => (if print then "." +:+ acc else acc, v)
  | S prec' =>
      let digit := (v mod 10)%N in
      let print := print || negb (digit =? 0)%N in
      fmtFrac prec' print (v / 10)%N (if print then pretty digit +:+ acc else acc)
  end.

Definition below_second (u : N) : string :=
  if (u =? 0)%N then "0s"
  else if (u <? 1000)%N then let '(s, v) := fmtFrac 0 false u "ns" in pretty v +:+ s
  else if (u <? 1000000)%N then let '(s, v) := fmtFrac 3 false u "µs" in pretty v +:+ s
  else let '(s, v) := fmtFrac 6 false u "ms" in pretty v +:+ s.

Definition above_second (u : N) : string :=
  let '(s, u) := fmtFrac 9 false u "s" in
  let seconds := pretty (u mod 60)%N +:+ s in
  let u := (u / 60)%N in
  if (u =? 0)%N then seconds else
  let minutes := pretty (u mod 60)%N +:+ "m" +:+ seconds in
  let u := (u / 60)%N in
  if (u =? 0)%N then minutes else pretty u +:+ "h" +:+ minutes.

Definition Duration_String (d : Z) : string :=
  let u := Z.to_N (Z.abs d) in
  (if (d <? 0)%Z then "-" else "") +:+ (if (u <? 1000000000)%N then below_second u else above_second u).

Example Duration_String_ex :
  Duration_String <$> [0; 1500; 90000000000; 3661500000000; -2000000]%Z = ["0s"; "1.5µs"; "1m30s"; "1h1m1.5s"; "-2ms"].
Proof. vm_compute. reflexivity. Qed.

(** ** Icons and styles *)

Inductive text_style : Set :=
  | headerStyle | logStyle | durationStyle | stepDoneStyle | stepErrorStyle | stepRunningStyle | stepCachedStyle
  | stepTimeoutStyle | stepRetryStyle | stepAllowedFailStyle | skipStyle | noStyle.

Definition richIcons (s : stepStatus) : string :=
  match s with
  | statusDone => "✅" | statusRunning => "🔨" | statusCached => "⚡" | statusPending => "⏳"
  | statusError => "🚨" | statusTimeout => "⏰" | statusRetry => "🔄" | statusAllowedFailure => "⚠️"
  end.

Definition boringIcons (s : stepStatus) : string :=
  match s with
  | statusDone => "[+] " | statusRunning => "[~] " | statusCached => "[=] " | statusPending => "[ ] "
  | statusError => "[!] " | statusTimeout => "[t] " | statusRetry => "[r] " | statusAllowedFailure => "[w] "
  end.

Definition spinnerFrames : list string := ["⠋"; "⠙"; "⠹"; "⠸"; "⠼"; "⠴"; "⠦"; "⠧"; "⠇"; "⠏"].
Definition boringSpinnerFrames : list string := ["|"; "/"; "-"; "\"].

Definition statusStyle (s : stepStatus) : text_style :=
  match s with
  | statusDone => stepDoneStyle | statusError => stepErrorStyle | statusTimeout => stepTimeoutStyle
  | statusRunning => stepRunningStyle | statusCached => stepCachedStyle | statusRetry => stepRetryStyle
  | statusAllowedFailure => stepAllowedFailStyle | statusPending => noStyle
  end.

(** ** Rendering *)

Record renderCtx : Type := RenderCtx { icons : stepStatus -> string; rc_frame : Z; frames : list string }.

Section view.
Variable Render : text_style -> string -> string.

(** The spinner of the current frame; a slice index out of range panics. *)
Definition spinner (rc : renderCtx) : option string := frames rc !! Z.to_nat (Z.rem (rc_frame rc) (Z.of_nat (length (frames rc)))).

Definition step_line (rc : renderCtx) (st : stepState.t) : option string :=
  durStr ←
    (if decide (0 < stepState.duration st)%Z then Some ("  " +:+ Render durationStyle (Duration_String (stepState.duration st)))
     else match stepState.status st with
          | statusRunning => frame ← spinner rc; Some ("  " +:+ Render stepRunningStyle frame)
          | statusPending => Some "  --"
          | _ => Some ""
          end);
  Some ("  " +:+ icons rc (stepState.status st) +:+ " " +:+ Render (statusStyle (stepState.status st)) (stepState.name st) +:+ durStr).

Definition header (rc : renderCtx) (name : string) (js : jobState.t) : string :=
  "Job: " +:+ name +:+ " (" +:+ pretty (resolvedCount js) +:+ "/" +:+ pretty (length (jobState.order js)) +:+ ")"
  +:+ (if jobState.done js && bool_decide (is_Some (jobState.started js)) && (0 <? jobDuration js)%Z
       then "  " +:+ Render durationStyle (Duration_String (jobDuration js)) else "")
  +:+ (if (0 <? jobState.retryAttempt js)%Z
       then "  " +:+ icons rc statusRetry +:+ " attempt " +:+ pretty (jobState.retryAttempt js) +:+ "/" +:+ pretty (jobState.maxAttempts js) else "")
  +:+ (if jobState.timedOut js
       then "  " +:+ icons rc statusTimeout +:+ " timed out (" +:+ Duration_String (jobState.timeout js) +:+ ")" else "").

(** The lines of a job. *)
Definition renderTo (rc : renderCtx) (name : string) (js : jobState.t) : option (list string) :=
  if jobState.skipped js then Some [Render skipStyle ("Job: " +:+ name +:+ " (skipped)")] else
  steps ← mapM (fun d => st ← jobState.vertices js !! d; step_line rc st) (jobState.order js);
  Some ([Render headerStyle (header rc name js)] ++ steps
        ++ ((fun s => "  " +:+ Render skipStyle (s +:+ " (skipped)")) <$> jobState.skippedSteps js)
        ++ ((fun l => Render logStyle ("    > " +:+ l)) <$> jobState.logs js)).

Definition sync_line (m : multiModel.t) : list string :=
  match multiModel.syncMsg m with
  | Some (walked, hashed, hits) =>
      [Render logStyle "sync:" +:+ "  files=" +:+ pretty walked +:+ " hashed=" +:+ pretty hashed +:+ " cached=" +:+ pretty hits]
  | None => []
  end.

Definition render_ctx (m : multiModel.t) : renderCtx :=
  if multiModel.boring m then RenderCtx boringIcons (multiModel.frame m) boringSpinnerFrames
  else RenderCtx richIcons (multiModel.frame m) spinnerFrames.

(** The blocks of the jobs, with an empty line between two of them. *)
Fixpoint separated (blocks : list (list string)) : list string :=
  match blocks with
  | [] => []
  | [b] => b
  | b :: blocks => b ++ [""] ++ separated blocks
  end.

Definition View_lines (m : multiModel.t) : option (list string) :=
  blocks ← mapM (fun name => js ← multiModel.jobs m !! name; renderTo (render_ctx m) name js) (multiModel.order m);
  Some (sync_line m ++ separated blocks).

(** Every line ends in a newline. *)
Definition View (m : multiModel.t) : option string :=
  lines ← View_lines m; Some (Join ((fun l => l +:+ String "010" EmptyString) <$> lines) "").

(** ** Rendering is total *)

Lemma spinner_total m : (0 <= multiModel.frame m < spinner_period)%Z -> is_Some (spinner (render_ctx m)).
Proof.
  intros [Hf _]. unfold spinner. apply lookup_lt_is_Some_2.
  assert (0 < length (frames (render_ctx m))) as Hlen by (unfold render_ctx; destruct (multiModel.boring m); cbn; lia).
  assert (rc_frame (render_ctx m) = multiModel.frame m) as -> by (unfold render_ctx; by destruct (multiModel.boring m)).
  pose proof (Z.rem_bound_pos (multiModel.frame m) (Z.of_nat (length (frames (render_ctx m)))) Hf ltac:(lia)). lia.
Qed.

(** The number of lines of a job. *)
Definition block_height (js : jobState.t) : nat :=
  if jobState.skipped js then 1
  else 1 + length (jobState.order js) + length (jobState.skippedSteps js) + length (jobState.logs js).

Lemma renderTo_total rc name js :
  is_Some (spinner rc) -> wf_job js -> exists lines, renderTo rc name js = Some lines /\ length lines = block_height js.
Proof.
  intros Hs Hwf. unfold renderTo, block_height. destruct (jobState.skipped js); [by eexists|].
  assert (is_Some (mapM (fun d => st ← jobState.vertices js !! d; step_line rc st) (jobState.order js))) as [steps Hsteps].
  { apply mapM_is_Some, Forall_forall. intros d Hd. cbn.
    assert (is_Some (jobState.vertices js !! d)) as [st ->] by (apply elem_of_dom; rewrite (wf_vertices js Hwf); by apply elem_of_list_to_set).
    cbn. unfold step_line. destruct Hs as [frame ->]. case_decide; [by eexists|]. destruct (stepState.status st); by eexists. }
  rewrite Hsteps. cbn [mbind option_bind]. eexists. split; [done|].
  rewrite !length_app, !length_fmap. apply length_mapM in Hsteps. cbn. lia.
Qed.

(** ** The count of resolved steps *)

Definition resolved (js : jobState.t) : gmap string stepState.t :=
  filter (fun p => terminal (stepState.status p.2) = true) (jobState.vertices js).

Lemma resolvedCount_size js : wf_job js -> resolvedCount js = size (resolved js).
Proof.
  intros [Hnd Hdom _]. unfold resolvedCount.
  rewrite <- size_dom. rewrite <- (size_list_to_set (C := gset string) (filter _ (jobState.order js))) by by apply NoDup_filter.
  f_equal. apply set_eq. intros d. rewrite elem_of_list_to_set, list_elem_of_filter. unfold resolved.
  rewrite elem_of_dom. rewrite <- (elem_of_list_to_set (C := gset string)), <- Hdom, elem_of_dom. split.
  - intros [Ht [st Hd]]. exists st. apply map_lookup_filter_Some. split; [done|]. rewrite Hd in Ht. by cbn in Ht.
  - intros [st [Hd Ht]%map_lookup_filter_Some]. rewrite Hd. cbn in *. split; [done|]. by eexists.
Qed.

Lemma resolvedCount_le js : resolvedCount js <= length (jobState.order js).
Proof. unfold resolvedCount. apply length_filter. Qed.

Lemma resolved_mono js js' :
  wf_job js -> wf_job js' -> steps_evolve (jobState.vertices js) (jobState.vertices js') -> resolvedCount js <= resolvedCount js'.
Proof.
  intros H H' He. rewrite !resolvedCount_size by done. rewrite <- !size_dom. apply subseteq_size. intros d.
  rewrite !elem_of_dom. intros [st [Hd Ht]%map_lookup_filter_Some]. destruct (He d st Hd) as (st' & Hd' & Hev).
  exists st'. apply map_lookup_filter_Some. split; [done|]. cbn in *. destruct (Hev Ht) as [->|[_ ->]]; done.
Qed.
End view.

(** ** The display over time *)

Definition job_height (m : multiModel.t) (name : string) : nat :=
  match multiModel.jobs m !! name with Some js => block_height js | None => 0 end.

(** The height of the display. *)
Definition view_height (m : multiModel.t) : nat :=
  length (sync_line (fun _ s => s) m) + foldr Nat.add 0 (job_height m <$> multiModel.order m) + (length (multiModel.order m) - 1).

Lemma separated_length blocks : length (separated blocks) = foldr Nat.add 0 (length <$> blocks) + (length blocks - 1).
Proof.
  induction blocks as [|b blocks IH]; [done|]. destruct blocks as [|b' blocks]; [cbn; lia|].
  change (separated (b :: b' :: blocks)) with (b ++ [""] ++ separated (b' :: blocks)). rewrite !length_app, IH. cbn. lia.
Qed.

Lemma View_lines_total Render m : wf_model m -> exists lines, View_lines Render m = Some lines /\ length lines = view_height m.
Proof.
  intros [_ Hdom Hjobs Hframe]. unfold View_lines.
  assert (forall l, (forall name, name ∈ l -> name ∈ multiModel.order m) ->
    exists blocks, mapM (fun name => js ← multiModel.jobs m !! name; renderTo Render (render_ctx m) name js) l = Some blocks /\
      length <$> blocks = job_height m <$> l) as Hgen.
  { induction l as [|name l IH]; intros Hl; [by exists []|]. destruct IH as (blocks & Hb & Hlen); [intros n Hn; apply Hl; by right|].
    assert (is_Some (multiModel.jobs m !! name)) as [js Hjs].
    { apply elem_of_dom. rewrite Hdom. apply elem_of_list_to_set, Hl. by left. }
    destruct (renderTo_total Render (render_ctx m) name js) as (ls & Hls & Hh); [by apply spinner_total|by eapply Hjobs|].
    exists (ls :: blocks). cbn [mapM]. rewrite Hjs. cbn [mbind option_bind]. rewrite Hls. cbn [mbind option_bind].
    rewrite Hb. cbn [mbind option_bind]. split; [done|]. cbn. unfold job_height at 1. by rewrite Hjs, Hh, Hlen. }
  destruct (Hgen (multiModel.order m)) as (blocks & -> & Hlen); [done|]. cbn [mbind option_bind]. eexists. split; [done|].
  rewrite length_app, separated_length, Hlen. unfold view_height.
  assert (length blocks = length (multiModel.order m)) as -> by (apply (f_equal length) in Hlen; by rewrite !length_fmap in Hlen).
  assert (length (sync_line Render m) = length (sync_line (fun _ s => s) m)) as ->
    by (unfold sync_line; by destruct (multiModel.syncMsg m) as [[[]]|]). lia.
Qed.

(** C33: The display can always be drawn, and its progress only goes forward.  After any
    messages in any order [View] finds every job, every vertex and its spinner frame, and
    writes one block per job: a line for a skipped job, otherwise a header, a line per
    vertex, a line per skipped step and at most ten log lines.  The count of resolved steps
    in a header never exceeds the number of steps next to it, and no later message makes it
    smaller. *)
Theorem view_progress Render boring us vs :
  exists lines, View_lines Render (run (newMultiModel boring) us) = Some lines /\
    length lines = view_height (run (newMultiModel boring) us) /\
    forall name js, multiModel.jobs (run (newMultiModel boring) us) !! name = Some js ->
      length (jobState.logs js) <= 10 /\ resolvedCount js <= length (jobState.order js) /\
      exists js', multiModel.jobs (run (newMultiModel boring) (us ++ vs)) !! name = Some js' /\ resolvedCount js <= resolvedCount js'.
Proof.
  pose proof (wf_run us _ (wf_newMultiModel boring)) as Hwf.
  destruct (View_lines_total Render _ Hwf) as (lines & Hl & Hh). exists lines. split_and!; [done..|].
  intros name js Hjs. pose proof (wf_jobs _ Hwf _ _ Hjs) as Hwj. split_and!; [apply Hwj|apply resolvedCount_le|].
  rewrite run_app. destruct (run_evolves vs _ _ _ Hjs) as (js' & Hjs' & He). exists js'. split; [done|].
  apply resolved_mono; [done| |done]. pose proof (wf_run vs _ Hwf) as Hwf'. by apply (wf_jobs _ Hwf' _ _ Hjs').
Qed.

(** A view in boring mode. *)
Lemma view_example :
  View_lines (fun _ s => s) (run (newMultiModel true) [ex_added; ex_status "exit code: 1"; Progress (JobSkippedMsg "docs"); Progress (JobRetryMsg "build" 1 3 (raise OutOfFuel))])
  = Some ["Job: build (1/1)  [r]  attempt 1/3"; "  [!]  build/test/go test"; ""; "Job: docs (skipped)"].
Proof. vm_compute. reflexivity. Qed.
