(* ===== verification/Shell.v ===== *)
(** * Shell commands of steps (builder.go: singleQuote, resolveShell and the command line of
    buildStepOps)

    A step command runs under a shell; a step timeout wraps it in [timeout -s KILL].  The
    words the wrapping shell sees are computed by [sh_lex], the POSIX rules for quotes and
    blanks, which is the specification of quoting here. *)

From Stdlib Require SpecFloat.
From stdpp Require Import pretty.
From S2P Require Import Prelude Errors GoStrings Regex Model Duration.

(** ** Building the command *)

Definition quote : ascii := "'"%char.

(** Close the quote, a backslashed quote, reopen. *)
Definition quote_escape : string := "'\''".

Definition singleQuote (s : string) : string := "'" +:+ ReplaceAll s "'" quote_escape +:+ "'".

Definition defaultShell : list string := ["/bin/sh"; "-c"].

(** A nil shell behaves as an empty one. *)
Definition resolveShell (jobShell stepShell : option (list string)) : list string :=
  match default [] stepShell, default [] jobShell with
  | _ :: _ as s, _ => s
  | [], _ :: _ as s => s
  | [], [] => defaultShell
  end.

(** ** [strconv.FormatFloat(d.Seconds(), 'f', -1, 64)] *)

(** [Duration.Seconds]: whole seconds plus nanoseconds divided by 1e9, in binary64. *)
Definition Seconds (d : Z) : f64 :=
  SpecFloat.SFadd 53 1024 (f64_of_Z (Z.quot d (10 ^ 9)))
    (f64_div (f64_of_Z (Z.rem d (10 ^ 9))) (f64_of_Z (10 ^ 9))).

(** The shortest digits that read back as [m * 2^e]: a decimal of [p] digits, scaled by
    [10^(x-p)], inside the rounding interval.  Bounds and value are over the common
    denominator [den], in quarter units of the last place. *)
Section shortest.
Variables (m e : Z).
Definition den : Z := if decide (0 <= e - 2)%Z then 1 else 2 ^ (2 - e).
Definition scale2 (z : Z) : Z := if decide (0 <= e - 2)%Z then z * 2 ^ (e - 2) else z.
Definition value : Z := scale2 (4 * m).
Definition lower : Z := scale2 (4 * m - if decide (m = 2 ^ 52 /\ -1074 < e)%Z then 1 else 2).
Definition upper : Z := scale2 (4 * m + 2).
Definition inclusive : bool := Z.even m.

(** The decimal point: the least [x] with the value below [10^x]. *)
Definition dec_point : Z :=
  default 0%Z (head (filter (fun x => value * 10 ^ Z.max 0 (- x) < den * 10 ^ Z.max 0 x)%Z (seqZ (-330) 660))).

(** Comparing [q * 10^(x-p)] with [b / den]. *)
Definition cmp_dec (q x p b : Z) : comparison :=
  ((q * 10 ^ Z.max 0 (x - p) * den) ?= (b * 10 ^ Z.max 0 (p - x)))%Z.

Definition below_upper (q x p : Z) : bool :=
  match cmp_dec q x p upper with Lt => true | Eq => inclusive | Gt => false end.
Definition above_lower (q x p : Z) : bool :=
  match cmp_dec q x p lower with Gt => true | Eq => inclusive | Lt => false end.

(** The [p]-digit candidate, if rounding down or up stays inside. *)
Definition candidate (x p : Z) : option Z :=
  let num := (value * 10 ^ Z.max 0 (p - x))%Z in
  let d := (den * 10 ^ Z.max 0 (x - p))%Z in
  let q := (num / d)%Z in
  match above_lower q x p, below_upper (q + 1) x p with
  | true, true =>
      let r := (2 * (num - q * d))%Z in
      Some (if decide (r < d \/ (r = d /\ Z.even q = true))%Z then q else q + 1)%Z
  | true, false => Some q
  | false, true => Some (q + 1)%Z
  | false, false => None
  end.

Definition shortest_digits : Z * Z :=
  let x := dec_point in
  match omap (fun p => (fun q => (q, x - p)%Z) <$> candidate x p) (seqZ 1 17) with
  | r :: _ => r
  | [] => (0%Z, 0%Z)
  end.
End shortest.

(** [q * 10^k] in positional notation without trailing zeros after the point. *)
Definition zeros (n : Z) : string := String.string_of_list_ascii (replicate (Z.to_nat n) "0"%char).

Fixpoint strip_zeros (fuel : nat) (q k : Z) : Z * Z :=
  match fuel with
  | O => (q, k)
  | S fuel' => if decide (q mod 10 = 0 /\ k < 0)%Z then strip_zeros fuel' (q / 10) (k + 1) else (q, k)
  end.

Definition decimal (q k : Z) : string := pretty (Z.to_N q) +:+ zeros k.

Definition format_fixed (q k : Z) : string :=
  let '(q, k) := strip_zeros 400 q k in
  if decide (0 <= k)%Z then decimal q k else
  let whole := (q / 10 ^ (- k))%Z in
  let frac := pretty (Z.to_N (q mod 10 ^ (- k))) in
  pretty (Z.to_N whole) +:+ "." +:+ zeros (- k - Z.of_nat (String.length frac)) +:+ frac.

Definition FormatFloat (f : f64) : string :=
  match f with
  | SpecFloat.S754_finite false m e => let '(q, k) := shortest_digits (Z.pos m) e in format_fixed q k
  | _ => "0"
  end.

Definition timeoutSecs (d : Z) : string := FormatFloat (Seconds d).

Example secs1 : timeoutSecs (90 * 10 ^ 9) = "90". Proof. vm_compute. reflexivity. Qed.
Example secs2 : timeoutSecs (15 * 10 ^ 8) = "1.5". Proof. vm_compute. reflexivity. Qed.
Example secs3 : timeoutSecs 1 = "0.000000001". Proof. vm_compute. reflexivity. Qed.
Example secs4 : timeoutSecs (3600 * 10 ^ 9 + 10 ^ 8) = "3600.1". Proof. vm_compute. reflexivity. Qed.
Example secs5 : timeoutSecs MaxInt = "9223372036.854776". Proof. vm_compute. reflexivity. Qed.

(** ** The command of one [run] line *)

Definition retry_prefix (retryAttempt : Z) : string :=
  "CICADA_RETRY_ATTEMPT=" +:+ pretty (Z.to_N retryAttempt) +:+ " ".

(** The full command: dependency preamble, retry marker, user command. *)
Definition shell_command (preamble : string) (retryAttempt : Z) (cmd : string) : string :=
  let shellCmd := if decide (0 < retryAttempt)%Z then retry_prefix retryAttempt +:+ cmd else cmd in
  if decide (preamble <> "") then preamble +:+ shellCmd else shellCmd.

Definition timeout_command (timeout : Z) (shell : list string) (shellCmd : string) : string :=
  "timeout -s KILL " +:+ timeoutSecs timeout +:+ " " +:+ Join (singleQuote <$> shell) " " +:+ " " +:+
  singleQuote shellCmd +:+ "; exit $?".

(** The arguments of the exec: the shell and the command it is given. *)
Definition command_args (shell : list string) (timeout : Z) (shellCmd : string) : list string :=
  shell ++ [if decide (0 < timeout)%Z then timeout_command timeout shell shellCmd else shellCmd].

(** ** POSIX words *)

(** Characters that stand for themselves outside quotes. *)
Definition plain_char (a : ascii) : bool := is_alnum a || is_one_of "_.:/-=+,@%" a.

Definition push (cur : option string) (acc : list string) : list string :=
  match cur with Some w => acc ++ [w] | None => acc end.

Definition snoc (w : string) (a : ascii) : string := w +:+ String a "".

(** The words of a simple command up to an unquoted semicolon, and what follows it. *)
Fixpoint sh_lex (s : string) (quoted : bool) (cur : option string) (acc : list string)
    : option (list string * string) :=
  match s with
  | "" => if quoted then None else Some (push cur acc, "")
  | String a s' =>
      if quoted then
        if decide (a = quote) then sh_lex s' false cur acc
        else sh_lex s' true (Some (snoc (default "" cur) a)) acc
      else if decide (a = quote) then sh_lex s' true (Some (default "" cur)) acc
      else if decide (a = "\"%char) then
        match s' with
        | String b s'' => sh_lex s'' false (Some (snoc (default "" cur) b)) acc
        | "" => None
        end
      else if decide (a = " "%char) then sh_lex s' false None (push cur acc)
      else if decide (a = ";"%char) then Some (push cur acc, s')
      else if plain_char a then sh_lex s' false (Some (snoc (default "" cur) a)) acc
      else None
  end.

Definition sh_words (s : string) : option (list string * string) := sh_lex s false None [].

(** ** Quoting is undone by the shell *)

Definition plain_word (w : string) : Prop := w <> "" /\ Forall (fun a => plain_char a = true) (bytes w).

Lemma plain_char_special a :
  plain_char a = true -> a <> quote /\ a <> "\"%char /\ a <> " "%char /\ a <> ";"%char.
Proof. intros Ha. split_and!; intros ->; discriminate Ha. Qed.

Lemma snoc_app w a s : snoc w a +:+ s = w +:+ String a s.
Proof. unfold snoc. rewrite append_assoc. by rewrite append_cons, append_nil_l. Qed.

Lemma lex_plain_go w t v acc :
  Forall (fun a => plain_char a = true) (bytes w) ->
  sh_lex (w +:+ t) false (Some v) acc = sh_lex t false (Some (v +:+ w)) acc.
Proof.
  revert v. induction w as [|a w IH]; intros v Hw; [by rewrite append_nil_l, append_nil_r|].
  apply Forall_cons in Hw as [Ha Hw]. destruct (plain_char_special a Ha) as (H1 & H2 & H3 & H4).
  rewrite append_cons. cbn [sh_lex]. rewrite !decide_False by done. rewrite Ha. cbn [default].
  rewrite IH by done. by rewrite snoc_app.
Qed.

Lemma lex_plain w t acc :
  plain_word w -> sh_lex (w +:+ t) false None acc = sh_lex t false (Some w) acc.
Proof.
  intros [Hne Hw]. destruct w as [|a w]; [done|].
  apply Forall_cons in Hw as [Ha Hw]. destruct (plain_char_special a Ha) as (H1 & H2 & H3 & H4).
  rewrite append_cons. cbn [sh_lex]. rewrite !decide_False by done. rewrite Ha. cbn [default].
  rewrite lex_plain_go by done. unfold snoc. by rewrite append_nil_l, append_cons, append_nil_l.
Qed.

Lemma lex_space t cur acc : sh_lex (" " +:+ t) false cur acc = sh_lex t false None (push cur acc).
Proof. rewrite append_cons, append_nil_l. reflexivity. Qed.

Lemma lex_close s cur acc : sh_lex (String "'" s) true cur acc = sh_lex s false cur acc.
Proof. reflexivity. Qed.

Lemma lex_open s cur acc : sh_lex (String "'" s) false cur acc = sh_lex s true (Some (default "" cur)) acc.
Proof. reflexivity. Qed.

Lemma lex_escape a s cur acc :
  sh_lex (String "\" (String a s)) false cur acc = sh_lex s false (Some (snoc (default "" cur) a)) acc.
Proof. reflexivity. Qed.

Lemma lex_end w t acc : sh_lex (String ";" t) false (Some w) acc = Some (acc ++ [w], t).
Proof. reflexivity. Qed.

Lemma quote_nonempty : nonempty_olds [("'", quote_escape)].
Proof. by constructor. Qed.

Lemma lex_quoted s t v acc :
  sh_lex (ReplaceAll s "'" quote_escape +:+ "'" +:+ t) true (Some v) acc =
  sh_lex t false (Some (v +:+ s)) acc.
Proof.
  revert v. induction s as [|a s IH]; intros v; unfold ReplaceAll in *.
  - rewrite (Replace_nil _ quote_nonempty), append_nil_l, append_nil_r. reflexivity.
  - destruct (decide (a = quote)) as [->|Ha].
    + change (String quote s) with ("'" +:+ s).
      rewrite (Replace_match _ _ quote_escape); [|apply quote_nonempty|].
      2: { unfold first_match. cbn. rewrite decide_True; [done|]. apply (HasPrefix_app "'"). }
      unfold quote_escape at 1. rewrite !append_cons, append_nil_l.
      rewrite lex_close, lex_escape, lex_open. cbn [default]. rewrite IH. unfold id. rewrite snoc_app. by rewrite append_nil_l.
    + rewrite Replace_skip; [|apply quote_nonempty|].
      * rewrite append_cons. cbn [sh_lex]. rewrite decide_False by done. cbn [default].
        rewrite IH. by rewrite snoc_app.
      * apply first_match_None. constructor; [|constructor]. by apply HasPrefix_head_ne.
Qed.

Lemma lex_singleQuote s t acc :
  sh_lex (singleQuote s +:+ t) false None acc = sh_lex t false (Some s) acc.
Proof.
  unfold singleQuote. rewrite !append_assoc, append_cons, append_nil_l. cbn [sh_lex].
  rewrite decide_True by done. cbn [default]. rewrite lex_quoted. by rewrite append_nil_l.
Qed.

Lemma lex_shell shell t acc :
  sh_lex (Join (singleQuote <$> shell) " " +:+ " " +:+ t) false None acc =
  sh_lex t false None (acc ++ shell).
Proof.
  revert acc. induction shell as [|x [|y shell] IH]; intros acc.
  - cbn [fmap list_fmap]. rewrite append_nil_l. rewrite lex_space. by rewrite app_nil_r.
  - cbn [fmap list_fmap]. change (Join [singleQuote x] " ") with (singleQuote x).
    rewrite lex_singleQuote, lex_space. done.
  - cbn [fmap list_fmap] in *. rewrite Join_cons, !append_assoc, lex_singleQuote, lex_space, IH.
    cbn [push]. by rewrite <- app_assoc.
Qed.

(** ** Numbers are plain words *)

Lemma plain_digit a : is_digit a = true -> plain_char a = true.
Proof. unfold plain_char, is_alnum. intros ->. by rewrite ?orb_true_l, ?orb_true_r. Qed.

Lemma plain_app s t :
  Forall (fun a => plain_char a = true) (bytes (s +:+ t)) <->
  Forall (fun a => plain_char a = true) (bytes s) /\ Forall (fun a => plain_char a = true) (bytes t).
Proof. by rewrite bytes_app, Forall_app. Qed.

Lemma plain_pretty_go n s :
  Forall (fun a => plain_char a = true) (bytes s) -> Forall (fun a => plain_char a = true) (bytes (pretty_N_go n s)).
Proof.
  revert s. induction (N.lt_wf_0 n) as [n _ IH]. intros s Hs.
  destruct (decide (0 < n)%N) as [Hpos|]; [|by assert (n = 0)%N as -> by lia].
  rewrite pretty_N_go_step by done. apply IH; [by apply N.div_lt|].
  constructor; [|done]. apply plain_digit. by apply digit_char, N.mod_lt.
Qed.

Lemma plain_pretty (n : N) : plain_word (pretty n).
Proof.
  unfold pretty, pretty_N. case_decide as H0; [split; [done|]; by repeat constructor|]. split.
  - destruct (pretty_head n "" ltac:(lia)) as (c & t & -> & _). done.
  - apply plain_pretty_go. constructor.
Qed.

Lemma plain_zeros n : Forall (fun a => plain_char a = true) (bytes (zeros n)).
Proof.
  unfold zeros, bytes. rewrite String.list_ascii_of_string_of_list_ascii.
  apply Forall_forall. by intros a [-> _]%elem_of_replicate.
Qed.

Lemma app_nonempty s t : s <> "" -> s +:+ t <> "".
Proof. destruct s; [done|]. by rewrite append_cons. Qed.

Lemma plain_FormatFloat f : plain_word (FormatFloat f).
Proof.
  assert (plain_word "0") as H0 by (split; [done|by repeat constructor]).
  unfold FormatFloat. destruct f as [s|s| |[] m e]; try done. destruct (shortest_digits _ _) as [q k].
  unfold format_fixed. destruct (strip_zeros 400 q k) as [q' k'].
  assert (forall q, plain_word (pretty (Z.to_N q))) as Hp by (intros; apply plain_pretty).
  case_decide; [unfold decimal|]; (split; [apply app_nonempty, Hp|]); rewrite !plain_app;
    split_and!; try apply Hp; try apply plain_zeros; by repeat constructor.
Qed.

(** ** Properties *)

(** Quoting is safe: the shell that runs a step with a timeout sees exactly the words
    [timeout -s KILL <secs>], then every word of the step's shell, then the whole command
    as one word, then the end of the command - whatever quotes, blanks, semicolons or
    dollar signs the shell words and the command contain. *)
Theorem timeout_command_words timeout shell shellCmd :
  sh_words (timeout_command timeout shell shellCmd) =
  Some (["timeout"; "-s"; "KILL"; timeoutSecs timeout] ++ shell ++ [shellCmd], " exit $?").
Proof.
  unfold sh_words, timeout_command. change "timeout -s KILL " with ("timeout" +:+ " " +:+ "-s" +:+ " " +:+ "KILL" +:+ " ").
  rewrite !append_assoc.
  rewrite lex_plain, lex_space by (split; [done|by repeat constructor]).
  rewrite lex_plain, lex_space by (split; [done|by repeat constructor]).
  rewrite lex_plain, lex_space by (split; [done|by repeat constructor]).
  rewrite lex_plain, lex_space by apply plain_FormatFloat.
  rewrite lex_shell, lex_singleQuote, lex_end. cbn [push app]. by rewrite <- ?app_assoc.
Qed.
