(* ===== verification/Builder.v ===== *)
(** * LLB generation (builder.go)

    [Build] turns a pipeline into LLB definitions.  BuildKit's llb package is a parameter:
    the class [LLBOps] has one operation per llb function the builder calls, and the option
    values the builder passes to them are data. *)

From stdpp Require Import pretty.
From S2P Require Import Prelude Errors GoStrings Regex Conditional Model Defaults Secret Validate.
From S2P Require Import Paths Shell Progress Retry Dag Output Node Sched Publish.

(** ** The llb package *)

Inductive mount_opt : Type :=
  | SourcePath (path : string)
  | Readonly
  | AsPersistentCacheDir (id : string).

Inductive local_opt : Type :=
  | SharedKeyHint (h : string)
  | ExcludePatterns_ (ps : list string).

Section options.
Context `{LLB} `{Platforms}.

Inductive image_opt : Type :=
  | WithMetaResolver
  | ImageIgnoreCache
  | ImagePlatform (p : Platform_).

Inductive file_action : Type :=
  | Mkdir (path : string) (mode : Z)
  | Mkfile (path : string) (mode : Z)
  | Copy (from : State_) (source target : string).

Inductive run_opt : Type :=
  | IgnoreCache
  | Args (args : list string)
  | WithCustomName (name : string)
  | AddMount (target : string) (source : State_) (opts : list mount_opt)
  | AddSecretEnv (name env : string)
  | AddSecretMount (path id : string).
End options.
Arguments image_opt {_}.
Arguments file_action {_}.
Arguments run_opt {_}.

Class LLBOps `{LLB} `{Platforms} : Type := {
  ExecState : Type;
  llb_Image : string -> list image_opt -> State_;
  llb_Local : string -> list local_opt -> State_;
  llb_Scratch : State_;
  st_Dir : State_ -> string -> State_;
  st_AddEnv : State_ -> string -> string -> State_;
  st_File : State_ -> file_action -> State_;
  st_Run : State_ -> list run_opt -> ExecState;
  es_Root : ExecState -> State_;
  es_GetMount : ExecState -> string -> State_;
  st_Marshal : State_ -> result Definition_
}.

Section builder.
Context `{ops : LLBOps}.

(** ** Data *)

Record LocalExport : Type := {
  le_Definition : Definition_; le_JobName : string; le_Local : string; le_Dir : bool
}.

Record ImageExport : Type := {
  ie_Definition : Definition_; ie_JobName : string; ie_Publish : Publish.t; ie_Platform : string
}.

Record StepDef : Type := {
  sd_Name : string;
  sd_Retry : option Retry.t;
  sd_AllowFailure : bool;
  sd_Timeouts : gmap string Z;
  sd_CmdInfos : gmap string CmdInfo.t;
  sd_Build : State_ -> Z -> result State_
}.

(** Nil timeout and command maps behave as empty ones; [stepDefs] is nil without step control. *)
Record jobResult : Type := {
  jr_def : Definition_;
  jr_state : State_;
  jr_stepTimeouts : gmap string Z;
  jr_cmdInfos : gmap string CmdInfo.t;
  jr_stepDefs : option (list StepDef);
  jr_baseState : State_
}.

Record BuildResult : Type := {
  r_Definitions : list Definition_;
  r_JobNames : list string;
  r_Exports : list LocalExport;
  r_ImageExports : list ImageExport;
  r_OutputDefs : gmap string Definition_;
  r_StepTimeouts : gmap string (gmap string Z);
  r_CmdInfos : gmap string (gmap string CmdInfo.t);
  r_SecretDecls : list SecretDecl.t;
  r_StepDefs : gmap string (list StepDef);
  r_BaseStates : gmap string State_
}.

Record BuildOpts : Type := {
  NoCache : bool;
  NoCacheFilter : gset string;
  ExcludePatterns : list string;
  MetaResolver : bool;
  ExposeDeps : bool
}.

Record jobOpts : Type := {
  jo_imgOpts : list image_opt;
  jo_runOpts : list run_opt;
  jo_excludePatterns : list string;
  jo_pipelineEnv : list EnvVar.t;
  jo_exposeDeps : bool;
  jo_globalNoCache : bool;
  jo_noCacheFilter : gset string
}.

Record stepSharedCtx : Type := {
  sh_jobName : string;
  sh_preamble : string;
  sh_depStates : gmap string State_;
  sh_depMounts : list run_opt;
  sh_jobMountOpts : list run_opt;
  sh_baseRunOpts : list run_opt;
  sh_jobShell : option (list string);
  sh_localOpts : list local_opt;
  sh_jobNoCached : bool;
  sh_jobSecrets : list SecretRef.t
}.

Record stepBuildResult : Type := {
  sr_state : State_;
  sr_timeouts : gmap string Z;
  sr_cmdInfos : gmap string CmdInfo.t
}.

(** ** Small pieces *)

Definition errMissingDepState : sentinel := Foreign "missing dependency state".

Definition collectExports (j : Job.t) : list Export_.t :=
  Job.Exports j ++ (Job.Steps j ≫= Step.Exports).

(** Indices are [int]s; a negative one is rejected like one past the end. *)
Fixpoint valid_order_from (seen : list bool) (order : list Z) (n : Z) : bool :=
  match order with
  | [] => true
  | idx :: order' =>
      if decide (idx < 0 \/ n <= idx)%Z then false else
      if default false (seen !! Z.to_nat idx) then false else
      valid_order_from (<[Z.to_nat idx := true]> seen) order' n
  end.

Definition validOrder (order : list Z) (n : nat) : bool :=
  if decide (length order <> n) then false
  else valid_order_from (replicate n false) order (Z.of_nat n).

Definition jobCacheOpts (j : Job.t) (opts : jobOpts) : list image_opt * list run_opt :=
  let imgOpts := jo_imgOpts opts in
  let runOpts := jo_runOpts opts in
  if jo_globalNoCache opts then (imgOpts, runOpts) else
  let filtered := bool_decide (Job.Name j ∈ jo_noCacheFilter opts) in
  if filtered || Job.NoCache j then (imgOpts ++ [ImageIgnoreCache], runOpts ++ [IgnoreCache])
  else (imgOpts, runOpts).

Definition mount_run_opt (localOpts : list local_opt) (m : Mount.t) : run_opt :=
  AddMount (Mount.Target m) (llb_Local "context" localOpts)
    (SourcePath (Mount.Source m) :: if Mount.ReadOnly m then [Readonly] else []).

Definition cache_run_opt (c : Cache.t) : run_opt :=
  AddMount (Cache.Target c) llb_Scratch [AsPersistentCacheDir (Cache.ID c)].

Definition buildMountRunOpts (mounts : list Mount.t) (caches : list Cache.t) (localOpts : list local_opt)
    : list run_opt :=
  (mount_run_opt localOpts <$> mounts) ++ (cache_run_opt <$> caches).

Definition secretRefToRunOpt (ref : SecretRef.t) : run_opt :=
  if decide (SecretRef.Env ref <> "") then AddSecretEnv (SecretRef.Name ref) (SecretRef.Env ref)
  else AddSecretMount (SecretRef.Mount ref) (SecretRef.Name ref).

Definition buildSecretRunOpts (jobSecrets stepSecrets : list SecretRef.t) : list run_opt :=
  (secretRefToRunOpt <$> jobSecrets) ++ (secretRefToRunOpt <$> stepSecrets).

Definition dep_mounts (depStates : gmap string State_) (exposeDeps : bool) (dep : string)
    : result (list run_opt) :=
  match depStates !! dep with
  | None => fail_with [dep] errMissingDepState
  | Some depSt =>
      Ok (AddMount ("/cicada/deps/" +:+ dep) depSt [SourcePath "/cicada"; Readonly] ::
          if exposeDeps then [AddMount ("/deps/" +:+ dep) depSt [Readonly]] else [])
  end.

Definition depMountOpts (j : Job.t) (depStates : gmap string State_) (exposeDeps : bool)
    : result (list run_opt) :=
  mss ← forM (dep_mounts depStates exposeDeps) (Job.DependsOn j);
  Ok (concat mss).

(** The source and destination of the [cp] of an export. *)
Definition export_copy (containerPath : string) : string * string :=
  let cleaned := Clean containerPath in
  if HasSuffix containerPath "/" then (cleaned +:+ "/.", "/cicada/export/")
  else (cleaned, "/cicada/export/" +:+ Base cleaned).

Definition buildExportDef (execState : State_) (containerPath : string) : result Definition_ :=
  let cleaned := Clean containerPath in
  if decide (cleaned = "." \/ cleaned = "/") then fail_with [containerPath] (Foreign "invalid export path") else
  let '(src, dest) := export_copy containerPath in
  let exportRun := st_Run execState
    [Args ["cp"; "-a"; src; dest]; AddMount "/cicada/export" llb_Scratch []; WithCustomName ("export:" +:+ cleaned)] in
  map_err (errorf [containerPath]) (st_Marshal (es_GetMount exportRun "/cicada/export")).

(** ** Steps *)

(** A [Copy] from the state of a dependency. *)
Definition add_artifact (scope : list string) (depStates : gmap string State_) (st : State_) (a : Artifact.t)
    : result State_ :=
  match depStates !! Artifact.From a with
  | None => fail_with (scope ++ [Artifact.From a]) errMissingDepState
  | Some depSt => Ok (st_File st (Copy depSt (Artifact.Source a) (Artifact.Target a)))
  end.

Definition add_env (st : State_) (e : EnvVar.t) : State_ := st_AddEnv st (EnvVar.Key e) (EnvVar.Value e).

Definition vertex_name (jobName stepName cmd : string) : string := jobName +:+ "/" +:+ stepName +:+ "/" +:+ cmd.

(** The options of the exec of one command. *)
Definition command_opts (shared : stepSharedCtx) (step : Step.t) (retryAttempt : Z) (cmd : string)
    : list run_opt :=
  let shell := resolveShell (sh_jobShell shared) (Step.Shell step) in
  let shellCmd := shell_command (sh_preamble shared) retryAttempt cmd in
  sh_baseRunOpts shared ++
  [Args (command_args shell (Step.Timeout step) shellCmd);
   WithCustomName (vertex_name (sh_jobName shared) (Step.Name step) cmd)] ++
  sh_depMounts shared ++ sh_jobMountOpts shared ++
  buildMountRunOpts (Step.Mounts step) (Step.Caches step) (sh_localOpts shared) ++
  buildSecretRunOpts (sh_jobSecrets shared) (Step.Secrets step) ++
  (if Step.NoCache step && negb (sh_jobNoCached shared) then [IgnoreCache] else []).

(** One iteration of the loop over the commands, with its index. *)
Definition add_command (shared : stepSharedCtx) (step : Step.t) (retryAttempt : Z)
    (acc : stepBuildResult) (jc : nat * string) : result stepBuildResult :=
  let '(idx, cmd) := jc in
  if blank cmd then
    fail_with [sh_jobName shared; Step.Name step; pretty (N.of_nat idx)] (PM ErrEmptyRunCommand)
  else
    let vertexName := vertex_name (sh_jobName shared) (Step.Name step) cmd in
    let shellCmd := shell_command (sh_preamble shared) retryAttempt cmd in
    Ok {| sr_state := es_Root (st_Run (sr_state acc) (command_opts shared step retryAttempt cmd));
          sr_timeouts := if decide (0 < Step.Timeout step)%Z
                         then <[vertexName := Step.Timeout step]> (sr_timeouts acc) else sr_timeouts acc;
          sr_cmdInfos := <[vertexName := CmdInfo.mk cmd shellCmd]> (sr_cmdInfos acc) |}.

(** The state a step's first command runs in. *)
Definition step_setup (base : State_) (step : Step.t) (shared : stepSharedCtx) : result State_ :=
  st ← foldM (add_artifact [Step.Name step] (sh_depStates shared)) base (Step.Artifacts step);
  let st := if decide (Step.Workdir step <> "") then st_Dir st (Step.Workdir step) else st in
  Ok (foldl add_env st (Step.Env step)).

Definition buildStepOps (base : State_) (step : Step.t) (retryAttempt : Z) (shared : stepSharedCtx)
    : result stepBuildResult :=
  st ← step_setup base step shared;
  if decide (length (Step.Run step) = 0)
  then fail_with [sh_jobName shared; Step.Name step] (PM ErrMissingRun) else
  foldM (add_command shared step retryAttempt)
    {| sr_state := st; sr_timeouts := ∅; sr_cmdInfos := ∅ |} (imap pair (Step.Run step)).

Definition jobNeedsStepControl (j : Job.t) : bool :=
  existsb (fun s => bool_decide (Step.Retry s <> None) || Step.AllowFailure s) (Job.Steps j).

(** The definition of a step-controlled step; its [Build] runs later, on any base state. *)
Definition step_def (shared : stepSharedCtx) (step : Step.t) (r : stepBuildResult) : StepDef := {|
  sd_Name := Step.Name step;
  sd_Retry := Step.Retry step;
  sd_AllowFailure := Step.AllowFailure step;
  sd_Timeouts := sr_timeouts r;
  sd_CmdInfos := sr_cmdInfos r;
  sd_Build := fun base retryAttempt => r ← buildStepOps base step retryAttempt shared; Ok (sr_state r)
|}.

(** ** Jobs *)

Definition dquoted (s : string) : string := String "034" (s +:+ String "034" "").

(** Sources the outputs of every dependency, one line. *)
Definition dep_preamble : string :=
  "for __f in /cicada/deps/*/output; do [ -f " +:+ dquoted "$__f" +:+ " ] && { set -a; . " +:+
  dquoted "$__f" +:+ "; set +a; }; done" +:+ String "010" "".

Definition job_image_opts (j : Job.t) (imgOpts : list image_opt) : result (list image_opt) :=
  if decide (Job.Platform j <> "") then
    plat ← map_err (errorf [Job.Name j; Job.Platform j]) (platforms_Parse (Job.Platform j));
    Ok (imgOpts ++ [ImagePlatform plat])
  else Ok imgOpts.

(** The state before the first step, without its artifacts. *)
Definition job_base (j : Job.t) (imgOpts : list image_opt) (pipelineEnv : list EnvVar.t) : State_ :=
  let st := llb_Image (Job.Image j) imgOpts in
  let st := if decide (Job.Workdir j <> "") then st_Dir st (Job.Workdir j) else st in
  let st := foldl add_env (foldl add_env st pipelineEnv) (Job.Env j) in
  let st := st_File st (Mkdir "/cicada" 493) in
  let st := st_File st (Mkfile "/cicada/output" 420) in
  st_AddEnv st "CICADA_OUTPUT" "/cicada/output".

Definition job_no_cached (j : Job.t) (opts : jobOpts) : bool :=
  jo_globalNoCache opts || Job.NoCache j || bool_decide (Job.Name j ∈ jo_noCacheFilter opts).

(** The base state of the steps and what they share. *)
Definition job_setup (j : Job.t) (depStates : gmap string State_) (opts : jobOpts)
    : result (State_ * stepSharedCtx) :=
  let '(imgOpts, baseRunOpts) := jobCacheOpts j opts in
  imgOpts ← job_image_opts j imgOpts;
  st ← foldM (add_artifact [] depStates) (job_base j imgOpts (jo_pipelineEnv opts)) (Job.Artifacts j);
  depMounts ← map_err (errorf []) (depMountOpts j depStates (jo_exposeDeps opts));
  let localOpts := SharedKeyHint "context" ::
    (if decide (0 < length (jo_excludePatterns opts)) then [ExcludePatterns_ (jo_excludePatterns opts)] else []) in
  Ok (st, {|
    sh_jobName := Job.Name j;
    sh_preamble := if decide (0 < length (Job.DependsOn j)) then dep_preamble else "";
    sh_depStates := depStates;
    sh_depMounts := depMounts;
    sh_jobMountOpts := buildMountRunOpts (Job.Mounts j) (Job.Caches j) localOpts;
    sh_baseRunOpts := baseRunOpts;
    sh_jobShell := Job.Shell j;
    sh_localOpts := localOpts;
    sh_jobNoCached := job_no_cached j opts;
    sh_jobSecrets := Job.Secrets j
  |}).

(** The loop over the steps: the state, the merged maps and the step definitions so far. *)
Definition add_step (shared : stepSharedCtx) (acc : stepBuildResult * list StepDef) (step : Step.t)
    : result (stepBuildResult * list StepDef) :=
  let '(sofar, defs) := acc in
  r ← map_err (errorf [Step.Name step]) (buildStepOps (sr_state sofar) step 0 shared);
  Ok ({| sr_state := sr_state r;
         sr_timeouts := sr_timeouts r ∪ sr_timeouts sofar;
         sr_cmdInfos := sr_cmdInfos r ∪ sr_cmdInfos sofar |},
      defs ++ [step_def shared step r]).

Definition buildJob (j : Job.t) (depStates : gmap string State_) (opts : jobOpts) : result jobResult :=
  '(baseState, shared) ← job_setup j depStates opts;
  '(r, stepDefs) ← foldM (add_step shared)
    ({| sr_state := baseState; sr_timeouts := ∅; sr_cmdInfos := ∅ |}, []) (Job.Steps j);
  def ← map_err (errorf []) (st_Marshal (sr_state r));
  let control := jobNeedsStepControl j in
  Ok {| jr_def := def;
        jr_state := sr_state r;
        jr_stepTimeouts := sr_timeouts r;
        jr_cmdInfos := sr_cmdInfos r;
        jr_stepDefs := if control then Some stepDefs else None;
        jr_baseState := if control then baseState else zero_state |}.

(** ** Pipelines *)

Definition add_export (name : string) (st : State_) (exports : list LocalExport) (e : Export_.t)
    : result (list LocalExport) :=
  exportDef ← map_err (errorf [name]) (buildExportDef st (Export_.Path e));
  Ok (exports ++ [{| le_Definition := exportDef; le_JobName := name; le_Local := Export_.Local e;
                     le_Dir := HasSuffix (Export_.Path e) "/" |}]).

(** [states] and [result] are updated in place; on an error the caller drops both. *)
Definition appendJob (j : Job.t) (opts : jobOpts) (acc : gmap string State_ * BuildResult)
    : result (gmap string State_ * BuildResult) :=
  let '(states, r) := acc in
  let name := Job.Name j in
  jr ← map_err (errorf [name]) (buildJob j states opts);
  outputDef ← map_err (errorf [name]) (buildExportDef (jr_state jr) "/cicada/output");
  exports ← foldM (add_export name (jr_state jr)) (r_Exports r) (collectExports j);
  Ok (<[name := jr_state jr]> states, {|
    r_Definitions := r_Definitions r ++ [jr_def jr];
    r_JobNames := r_JobNames r ++ [name];
    r_Exports := exports;
    r_ImageExports := match Job.Publish j with
      | None => r_ImageExports r
      | Some p => r_ImageExports r ++ [{| ie_Definition := jr_def jr; ie_JobName := name;
                                          ie_Publish := p; ie_Platform := Job.Platform j |}]
      end;
    r_OutputDefs := <[name := outputDef]> (r_OutputDefs r);
    r_StepTimeouts := <[name := jr_stepTimeouts jr]> (r_StepTimeouts r);
    r_CmdInfos := <[name := jr_cmdInfos jr]> (r_CmdInfos r);
    r_SecretDecls := r_SecretDecls r;
    r_StepDefs := match jr_stepDefs jr with Some d => <[name := d]> (r_StepDefs r) | None => r_StepDefs r end;
    r_BaseStates := match jr_stepDefs jr with Some _ => <[name := jr_baseState jr]> (r_BaseStates r)
                    | None => r_BaseStates r end
  |}).

Definition build_opts (p : Pipeline.t) (opts : BuildOpts) : jobOpts := {|
  jo_imgOpts := (if MetaResolver opts then [WithMetaResolver] else []) ++
                (if NoCache opts then [ImageIgnoreCache] else []);
  jo_runOpts := if NoCache opts then [IgnoreCache] else [];
  jo_excludePatterns := ExcludePatterns opts;
  jo_pipelineEnv := Pipeline.Env p;
  jo_exposeDeps := ExposeDeps opts;
  jo_globalNoCache := NoCache opts;
  jo_noCacheFilter := NoCacheFilter opts
|}.

Definition empty_result (p : Pipeline.t) : BuildResult := {|
  r_Definitions := []; r_JobNames := []; r_Exports := []; r_ImageExports := []; r_OutputDefs := ∅;
  r_StepTimeouts := ∅; r_CmdInfos := ∅; r_SecretDecls := Pipeline.Secrets p; r_StepDefs := ∅; r_BaseStates := ∅
|}.

(** A cached order is reused when it is a permutation of the job indices. *)
Definition build_order `{cel : CEL} (p : Pipeline.t) : result (Pipeline.t * list nat) :=
  let order := default [] (Pipeline.TopoOrder p) in
  if validOrder (Z.of_nat <$> order) (length (Pipeline.Jobs p)) then Ok (p, order)
  else map_err (errorf []) (ValidatePipeline (Some p)).

(** One iteration of the loop over the order. *)
Definition build_step (p : Pipeline.t) (opts : BuildOpts) (acc : gmap string State_ * BuildResult) (idx : nat)
    : result (gmap string State_ * BuildResult) :=
  match Pipeline.Jobs p !! idx with
  | Some j => appendJob j (build_opts p opts) acc
  | None => Ok acc
  end.

Definition Build `{cel : CEL} (p : Pipeline.t) (opts : BuildOpts) : result BuildResult :=
  '(p, order) ← build_order p;
  '(_, r) ← foldM (build_step p opts) (∅, empty_result p) order;
  Ok r.

(** ** Orders *)

Lemma valid_order_from_spec seen order n :
  length seen = Z.to_nat n ->
  valid_order_from seen order n = true <->
  NoDup order /\ (forall i, i ∈ order -> (0 <= i < n)%Z /\ seen !! Z.to_nat i = Some false).
Proof.
  revert seen. induction order as [|i order IH]; intros seen Hlen; cbn [valid_order_from].
  - split; [|done]. intros _. split; [constructor|]. by intros i Hi%elem_of_nil.
  - case_decide as Hr.
    + split; [done|]. intros [_ Hall]. destruct (Hall i) as [? _]; [by left|lia].
    + destruct (lookup_lt_is_Some_2 seen (Z.to_nat i)) as [b Hb]; [lia|]. rewrite Hb. cbn [default]. unfold id.
      destruct b.
      * split; [done|]. intros [_ Hall]. destruct (Hall i) as [_ ?]; [by left|congruence].
      * rewrite IH by (by rewrite length_insert). rewrite NoDup_cons. split.
        -- intros [Hnd Hall]. split.
           ++ split; [|done]. intros Hi. destruct (Hall i Hi) as [_ Hs].
              rewrite list_lookup_insert_eq in Hs by lia. done.
           ++ intros k [->|Hk]%elem_of_cons; [split; [lia|done]|]. destruct (Hall k Hk) as [Hkr Hs].
              split; [done|]. destruct (decide (k = i)) as [->|Hne]; [done|].
              rewrite list_lookup_insert_ne in Hs by lia. done.
        -- intros ([Hni Hnd] & Hall). split; [done|]. intros k Hk.
           destruct (Hall k) as [Hkr Hs]; [by right|]. split; [done|].
           rewrite list_lookup_insert_ne; [done|]. intros Heq. apply Hni.
           destruct (Hall i) as [? _]; [by left|]. by assert (i = k) as -> by lia.
Qed.

Lemma validOrder_spec_ok order n :
  validOrder order n = true <-> order ≡ₚ Z.of_nat <$> seq 0 n.
Proof.
  unfold validOrder. case_decide as Hlen.
  - split; [done|]. intros Hp. exfalso. apply Hlen. apply Permutation_length in Hp. by rewrite length_fmap, length_seq in Hp.
  - rewrite valid_order_from_spec by (rewrite length_replicate; lia).
    assert (NoDup (Z.of_nat <$> seq 0 n)) as Hnd by (apply NoDup_fmap_2; [apply _|apply NoDup_seq]). split.
    + intros [Ho Hall]. symmetry. apply submseteq_length_Permutation.
      2: { rewrite length_fmap, length_seq. lia. }
      apply NoDup_submseteq; [done|]. intros i (k & -> & Hk%elem_of_seq)%list_elem_of_fmap.
      destruct (decide (Z.of_nat k ∈ order)) as [|Hni]; [done|]. exfalso.
      assert (length (Z.of_nat k :: order) <= length (Z.of_nat <$> seq 0 n)) as Hl.
      { apply submseteq_length, NoDup_submseteq; [by constructor|].
        intros j [->|Hj]%elem_of_cons; apply list_elem_of_fmap.
        - exists k. split; [done|]. apply elem_of_seq. lia.
        - destruct (Hall j Hj) as [Hr _]. exists (Z.to_nat j). split; [lia|]. apply elem_of_seq. lia. }
      rewrite length_fmap, length_seq in Hl. cbn in Hl. lia.
    + intros Hp. split; [by rewrite Hp|]. intros i Hi. rewrite Hp in Hi.
      apply list_elem_of_fmap in Hi as (k & -> & Hk%elem_of_seq). split; [lia|].
      apply lookup_replicate_2. lia.
Qed.

(** ** Totality *)

Definition has_deps (states : gmap string State_) (deps : list string) : Prop :=
  forall d, d ∈ deps -> is_Some (states !! d).

Lemma add_artifacts_total scope states st deps arts :
  has_deps states deps -> (forall a, a ∈ arts -> Artifact.From a ∈ deps) ->
  exists st', foldM (add_artifact scope states) st arts = Ok st'.
Proof.
  intros Hd Ha. destruct (foldM_total (fun _ => True) (add_artifact scope states) st arts) as (st' & Hs & _);
    [done| |by eexists].
  intros s a Hin _. destruct (Hd _ (Ha a Hin)) as [d Hs]. unfold add_artifact. rewrite Hs. by eexists.
Qed.

Lemma buildStepOps_total base step k shared :
  has_deps (sh_depStates shared) (Artifact.From <$> Step.Artifacts step) ->
  Step.Run step <> [] -> Forall (fun cmd => blank cmd = false) (Step.Run step) ->
  exists r, buildStepOps base step k shared = Ok r.
Proof.
  intros Ha Hne Hb. unfold buildStepOps, step_setup.
  destruct (add_artifacts_total [Step.Name step] _ base _ (Step.Artifacts step) Ha) as [st ->].
  { intros a Hin. by apply list_elem_of_fmap_2. }
  cbn [mbind res_bind]. rewrite decide_False by (by destruct (Step.Run step)).
  edestruct (foldM_total (fun _ => True) (add_command shared step k)) as (r & Hr & _); [done| |by exists r].
  intros acc [i cmd] Hin _. apply list_elem_of_lookup in Hin as [n Hn].
  rewrite list_lookup_imap in Hn. apply fmap_Some in Hn as (c & Hc & [= -> ->]).
  rewrite Forall_lookup in Hb. unfold add_command. rewrite (Hb _ _ Hc). by eexists.
Qed.

Lemma forM_total {A B} (f : A -> result B) l :
  (forall a, a ∈ l -> exists b, f a = Ok b) -> exists bs, forM f l = Ok bs.
Proof.
  induction l as [|a l IH]; intros Hf; cbn; [by eexists|].
  destruct (Hf a) as [b ->]; [by left|]. destruct IH as [bs ->]; [|by eexists]. intros x Hx. apply Hf. by right.
Qed.

Lemma depMountOpts_total j states expose :
  has_deps states (Job.DependsOn j) -> exists ms, depMountOpts j states expose = Ok ms.
Proof.
  intros Hd. unfold depMountOpts.
  destruct (forM_total (dep_mounts states expose) (Job.DependsOn j)) as [mss ->]; [|by eexists].
  intros d Hin. destruct (Hd d Hin) as [s Hs]. unfold dep_mounts. rewrite Hs. by eexists.
Qed.

(** What the environment of a build must provide: parsable platforms and marshalling. *)
Definition platform_ok (j : Job.t) : Prop :=
  Job.Platform j <> "" -> exists plat, platforms_Parse (Job.Platform j) = Ok plat.

Definition marshals : Prop := forall st, exists def, st_Marshal st = Ok def.

Definition artifacts_within (deps : list string) (arts : list Artifact.t) : Prop :=
  forall a, a ∈ arts -> Artifact.From a ∈ deps.

(** The part of validation that [buildJob] relies on. *)
Definition buildable (j : Job.t) : Prop :=
  artifacts_within (Job.DependsOn j) (Job.Artifacts j) /\
  forall s, s ∈ Job.Steps j ->
    artifacts_within (Job.DependsOn j) (Step.Artifacts s) /\
    Step.Run s <> [] /\ Forall (fun cmd => blank cmd = false) (Step.Run s).

Lemma job_setup_total j states opts :
  platform_ok j -> has_deps states (Job.DependsOn j) -> buildable j ->
  exists st shared, job_setup j states opts = Ok (st, shared) /\ sh_depStates shared = states.
Proof.
  intros Hp Hd [Ha _]. unfold job_setup. destruct (jobCacheOpts j opts) as [imgOpts runOpts].
  assert (exists o, job_image_opts j imgOpts = Ok o) as [o ->].
  { unfold job_image_opts. case_decide as Hpl; [|by eexists]. destruct (Hp Hpl) as [plat ->]. by eexists. }
  cbn [mbind res_bind].
  destruct (add_artifacts_total [] states (job_base j o (jo_pipelineEnv opts)) _ (Job.Artifacts j) Hd Ha) as [st ->].
  cbn [mbind res_bind]. destruct (depMountOpts_total j states (jo_exposeDeps opts) Hd) as [ms ->].
  cbn [mbind res_bind map_err]. eexists _, _. split; [reflexivity|]. done.
Qed.

Lemma buildJob_total j states opts :
  marshals -> platform_ok j -> has_deps states (Job.DependsOn j) -> buildable j ->
  exists jr, buildJob j states opts = Ok jr.
Proof.
  intros Hm Hp Hd Hb. destruct (job_setup_total j states opts Hp Hd Hb) as (st & shared & Hs & Hds).
  unfold buildJob. rewrite Hs. cbn [mbind res_bind].
  edestruct (foldM_total (fun _ => True) (add_step shared)) as ([r defs] & Hr & _); [done| |].
  2: { rewrite Hr. cbn [mbind res_bind]. destruct (Hm (sr_state r)) as [def ->]. by eexists. }
  intros [sofar ds] s Hin _. destruct Hb as [_ Hb]. destruct (Hb s Hin) as (Ha & Hne & Hbl).
  destruct (buildStepOps_total (sr_state sofar) s 0 shared) as [r Hr]; [|done|done|].
  - rewrite Hds. intros d (a & -> & Hina)%list_elem_of_fmap. apply Hd. by apply Ha.
  - unfold add_step. rewrite Hr. by eexists.
Qed.

Lemma Clean_rooted path : HasPrefix path "/" = true -> exists s, Clean path = String slash s.
Proof. intros Hp. unfold Clean, IsAbs. rewrite Hp. by eexists. Qed.

Lemma buildExportDef_total st path :
  marshals -> HasPrefix path "/" = true -> Clean path <> "/" -> exists def, buildExportDef st path = Ok def.
Proof.
  intros Hm Hp Hc. unfold buildExportDef. rewrite decide_False.
  - destruct (export_copy path) as [src dest]. edestruct Hm as [def ->]. by eexists.
  - destruct (Clean_rooted path Hp) as [s Hs]. rewrite Hs in Hc |- *. intros [[=]|?]; done.
Qed.

Definition exportable (j : Job.t) : Prop :=
  forall e, e ∈ collectExports j -> HasPrefix (Export_.Path e) "/" = true /\ Clean (Export_.Path e) <> "/".

Lemma appendJob_total j opts states r :
  marshals -> platform_ok j -> has_deps states (Job.DependsOn j) -> buildable j -> exportable j ->
  exists jr r', appendJob j opts (states, r) = Ok (<[Job.Name j := jr_state jr]> states, r') /\
    r_JobNames r' = r_JobNames r ++ [Job.Name j].
Proof.
  intros Hm Hp Hd Hb He. destruct (buildJob_total j states opts Hm Hp Hd Hb) as [jr Hj].
  unfold appendJob. rewrite Hj. cbn [map_err mbind res_bind].
  destruct (buildExportDef_total (jr_state jr) "/cicada/output" Hm) as [od ->]; [reflexivity|by vm_compute|].
  cbn [map_err mbind res_bind].
  edestruct (foldM_total (fun _ => True) (add_export (Job.Name j) (jr_state jr)) (r_Exports r) (collectExports j))
    as (es & -> & _); [done| |].
  - intros acc e Hin _. destruct (He e Hin) as [H1 H2].
    destruct (buildExportDef_total (jr_state jr) _ Hm H1 H2) as [def Hdef].
    unfold add_export. rewrite Hdef. by eexists.
  - cbn [mbind res_bind]. eexists jr, _. split; [reflexivity|]. done.
Qed.
End builder.

Section build.
Context `{ops : LLBOps} `{cel : CEL}.

Lemma job_ok_buildable declared j : job_ok declared j -> buildable j.
Proof.
  intros (_ & _ & _ & _ & _ & _ & [Ha _] & _ & _ & _ & _ & _ & _ & Hs & _). split.
  - intros a Hin. rewrite Forall_forall in Ha. by apply Ha in Hin as (_ & ? & _).
  - intros s Hin. rewrite Forall_forall in Hs.
    destruct (Hs s Hin) as ((_ & _ & Hne & Hb & _) & [Hsa _] & _). split; [|done].
    intros a Hina. rewrite Forall_forall in Hsa. by apply Hsa in Hina as (_ & ? & _).
Qed.

(** Every export path of a pipeline is something [cp] can take. *)
Definition export_paths_ok (p : Pipeline.t) : Prop :=
  forall j e, j ∈ Pipeline.Jobs p -> e ∈ collectExports j -> Clean (Export_.Path e) <> "/".

Lemma job_ok_exportable declared j :
  job_ok declared j -> (forall e, e ∈ collectExports j -> Clean (Export_.Path e) <> "/") -> exportable j.
Proof.
  intros (_ & _ & _ & _ & _ & [He _] & _ & _ & _ & _ & _ & _ & _ & Hs & _) Hc e Hin. split; [|by apply Hc].
  unfold collectExports in Hin. rewrite elem_of_app in Hin. destruct Hin as [Hin|Hin].
  - rewrite Forall_forall in He. by destruct (He e Hin) as [[? _] _].
  - apply list_elem_of_bind in Hin as (s & Hin & Hsin). rewrite Forall_forall in Hs.
    destruct (Hs s Hsin) as ((_ & _ & _ & _ & _ & _ & _ & _ & _ & _ & [Hse _]) & _).
    rewrite Forall_forall in Hse. by destruct (Hse e Hin) as [[? _] _].
Qed.

(** A valid order is reused as it is. *)
Lemma build_order_valid p order :
  Pipeline.TopoOrder p = Some order -> order ≡ₚ seq 0 (length (Pipeline.Jobs p)) ->
  build_order p = Ok (p, order).
Proof.
  intros Ht Hperm. unfold build_order. rewrite Ht. cbn [default].
  assert (validOrder (Z.of_nat <$> order) (length (Pipeline.Jobs p)) = true) as Hv
    by (apply validOrder_spec_ok; by rewrite Hperm).
  change (id order) with order. by rewrite Hv.
Qed.

(** The names of the jobs at a list of indices. *)
Definition names_at (p : Pipeline.t) (order : list nat) : list string :=
  omap (fun i => Job.Name <$> Pipeline.Jobs p !! i) order.

Lemma build_loop p opts order :
  marshals -> order ≡ₚ seq 0 (length (Pipeline.Jobs p)) -> deps_first (Pipeline.Jobs p) order ->
  (forall j, j ∈ Pipeline.Jobs p -> platform_ok j /\ buildable j /\ exportable j) ->
  forall l l', order = l ++ l' ->
  exists states r, foldM (build_step p opts) (∅, empty_result p) l = Ok (states, r) /\
    r_JobNames r = names_at p l /\
    (forall i j, i ∈ l -> Pipeline.Jobs p !! i = Some j -> is_Some (states !! Job.Name j)).
Proof.
  intros Hm Hperm Hfirst Hjobs l. induction l as [|i l IH] using rev_ind; intros l' Heq.
  { eexists _, _. split; [reflexivity|]. split; [done|]. by intros i j Hi%elem_of_nil. }
  rewrite <- app_assoc in Heq. destruct (IH _ Heq) as (states & r & Hr & Hn & Hs).
  rewrite foldM_app, Hr. cbn [foldM mbind res_bind].
  assert (i ∈ seq 0 (length (Pipeline.Jobs p))) as [_ Hi]%elem_of_seq by (rewrite <- Hperm, Heq; set_solver).
  destruct (lookup_lt_is_Some_2 (Pipeline.Jobs p) i) as [j Hj]; [lia|].
  destruct (Hjobs j) as (Hp & Hb & He); [by eapply list_elem_of_lookup_2|].
  assert (has_deps states (Job.DependsOn j)) as Hd.
  { intros d Hd. destruct (Hfirst l i l' j d Heq Hj Hd) as (k & jk & Hk & Hjk & <-). by eapply Hs. }
  unfold build_step at 1. rewrite Hj.
  destruct (appendJob_total j (build_opts p opts) states r Hm Hp Hd Hb He) as (jr & r' & -> & Hn').
  cbn [mbind res_bind]. eexists _, _. split; [reflexivity|]. split.
  - rewrite Hn', Hn. unfold names_at. rewrite omap_app. cbn. by rewrite Hj.
  - intros k jk [Hk| ->%list_elem_of_singleton]%elem_of_app Hjk.
    + destruct (decide (Job.Name jk = Job.Name j)) as [->|Hne]; [by rewrite lookup_insert_eq|].
      rewrite lookup_insert_ne by done. by eapply Hs.
    + assert (jk = j) as -> by congruence. by rewrite lookup_insert_eq.
Qed.

(** The result of a build whose environment behaves. *)
Lemma Build_Ok p p' order opts :
  ValidatePipeline (Some p) = Ok (p', order) -> marshals ->
  (forall j, j ∈ Pipeline.Jobs p' -> platform_ok j) -> export_paths_ok p' ->
  exists r, Build p' opts = Ok r /\ r_JobNames r = names_at p' order.
Proof.
  intros Hv Hm Hp He. pose proof (ValidatePipeline_again _ _ _ Hv) as Hagain.
  pose proof (ValidatePipeline_sorted _ _ _ Hv) as [Hperm Hfirst].
  apply ValidatePipeline_Ok in Hv as (_ & _ & Heq).
  apply ValidatePipeline_Ok in Hagain as ((_ & _ & _ & Hjobs & _) & _ & _).
  assert (order ≡ₚ seq 0 (length (Pipeline.Jobs p'))) as Hperm'.
  { rewrite Hperm, Heq. cbn. by rewrite length_fmap. }
  destruct (build_loop p' opts order Hm Hperm' Hfirst) with (l := order) (l' := @nil nat) as (states & r & Hr & Hn & _).
  - intros j Hj. rewrite Forall_forall in Hjobs. pose proof (Hjobs j Hj) as Hok.
    split; [by apply Hp|]. split; [by eapply job_ok_buildable|]. eapply job_ok_exportable; [done|]. by intros e; apply He.
  - by rewrite app_nil_r.
  - exists r. split; [|done]. unfold Build. rewrite (build_order_valid p' order); [|by rewrite Heq|done].
    cbn [mbind res_bind]. rewrite Hr. done.
Qed.

(** ** Cache control *)

Definition is_ignore (o : run_opt) : bool := match o with IgnoreCache => true | _ => false end.

Definition ignores (l : list run_opt) : nat := length (filter (fun o => is_ignore o = true) l).

Lemma ignores_app l k : ignores (l ++ k) = ignores l + ignores k.
Proof. unfold ignores. by rewrite filter_app, length_app. Qed.

Lemma ignores_none l : Forall (fun o => is_ignore o = false) l -> ignores l = 0.
Proof.
  intros Hl. unfold ignores. rewrite filter_none; [done|].
  eapply Forall_impl; [exact Hl|]. intros o Ho. by rewrite Ho.
Qed.

Lemma ignores_mounts ms cs lo : ignores (buildMountRunOpts ms cs lo) = 0.
Proof.
  apply ignores_none, Forall_app. split; apply Forall_fmap, Forall_forall; by intros ? _.
Qed.

Lemma ignores_secrets js ss : ignores (buildSecretRunOpts js ss) = 0.
Proof.
  apply ignores_none, Forall_app. split; apply Forall_fmap, Forall_forall; intros r _; cbn;
    unfold secretRefToRunOpt; by case_decide.
Qed.

Lemma ignores_deps j states expose ms : depMountOpts j states expose = Ok ms -> ignores ms = 0.
Proof.
  unfold depMountOpts. intros (mss & Hm & [= <-])%bind_Ok. apply forM_Ok in Hm.
  apply ignores_none, Forall_concat. induction Hm as [|d m ds mss Hd _ IH]; constructor; [|done].
  unfold dep_mounts in Hd. destruct (states !! d); [|done]. injection Hd as <-.
  constructor; [done|]. destruct expose; by repeat constructor.
Qed.

(** ** Properties *)

(** C19: a pipeline that passed validation always builds: when platforms parse, marshalling
    succeeds and no export path cleans to the root, [Build] reuses the cached order, never
    misses the state of a dependency, never meets an empty step, and names its definitions
    in topological order. *)
Theorem Build_total p p' order opts
  (Hvalid : ValidatePipeline (Some p) = Ok (p', order)) (Hmarshal : marshals)
  (Hplat : forall j, j ∈ Pipeline.Jobs p' -> platform_ok j) (Hexp : export_paths_ok p') :
  exists r, Build p' opts = Ok r /\ r_JobNames r = names_at p' order.
Proof. by eapply Build_Ok. Qed.

(** Caching is disabled for a command exactly when the run, the job (by itself or by the
    filter) or the step asks for it, and then by exactly one option. *)
Theorem cache_disabled_once p o j states st shared step retryAttempt cmd
  (Hsetup : job_setup j states (build_opts p o) = Ok (st, shared)) :
  ignores (command_opts shared step retryAttempt cmd) =
    if NoCache o || Job.NoCache j || bool_decide (Job.Name j ∈ NoCacheFilter o) || Step.NoCache step
    then 1 else 0.
Proof.
  unfold job_setup in Hsetup. destruct (jobCacheOpts j (build_opts p o)) as [imgOpts runOpts] eqn:Hc.
  apply bind_Ok in Hsetup as (io & _ & Hs). apply bind_Ok in Hs as (base & _ & Hs).
  apply bind_Ok in Hs as (ms & Hm & Hs). inv_ok. apply ignores_deps in Hm.
  assert (ignores runOpts =
    if NoCache o || Job.NoCache j || bool_decide (Job.Name j ∈ NoCacheFilter o) then 1 else 0) as Hr.
  { unfold jobCacheOpts in Hc. cbn in Hc.
    destruct (NoCache o), (bool_decide (Job.Name j ∈ NoCacheFilter o)), (Job.NoCache j);
      cbn in Hc |- *; injection Hc as <- <-; reflexivity. }
  unfold command_opts. cbn [sh_baseRunOpts sh_depMounts sh_jobMountOpts sh_jobSecrets sh_jobNoCached].
  rewrite !ignores_app, Hr, Hm, !ignores_mounts, ignores_secrets. unfold job_no_cached. cbn [jo_globalNoCache jo_noCacheFilter build_opts].
  destruct (NoCache o), (bool_decide (Job.Name j ∈ NoCacheFilter o)), (Job.NoCache j), (Step.NoCache step);
    reflexivity.
Qed.

Lemma add_steps_replay shared steps acc defs r defs' :
  foldM (add_step shared) (acc, defs) steps = Ok (r, defs') ->
  exists new, defs' = defs ++ new /\ sd_Name <$> new = Step.Name <$> steps /\
    foldM (fun st d => sd_Build d st 0) (sr_state acc) new = Ok (sr_state r).
Proof.
  revert acc defs. induction steps as [|s steps IH]; intros acc defs; cbn [foldM].
  - intros [= -> ->]. exists []. by rewrite app_nil_r.
  - intros ([acc1 defs1] & H1 & Hs)%bind_Ok. unfold add_step in H1. apply bind_Ok in H1 as (r1 & Hb & H1). inv_ok.
    destruct (IH _ _ Hs) as (new & -> & Hn & Hf). exists (step_def shared s r1 :: new).
    rewrite <- app_assoc. split; [done|]. split; [by rewrite !fmap_cons, Hn|].
    cbn [foldM step_def sd_Build]. rewrite Hb. cbn [mbind res_bind]. exact Hf.
Qed.

(** C20: the two ways to execute a job agree on a first attempt: building the steps of a
    step-controlled job one by one from its base state, at attempt 0, gives the state of
    the monolithic build - the state that its exports, its image and its dependents use.
    A job gets step definitions exactly when a step has a retry or may fail. *)
Theorem step_control_replay j states opts jr
  (Hbuild : buildJob j states opts = Ok jr) :
  match jr_stepDefs jr with
  | Some defs =>
      jobNeedsStepControl j = true /\ sd_Name <$> defs = Step.Name <$> Job.Steps j /\
      foldM (fun st d => sd_Build d st 0) (jr_baseState jr) defs = Ok (jr_state jr)
  | None => jobNeedsStepControl j = false
  end.
Proof.
  unfold buildJob in Hbuild. apply bind_Ok in Hbuild as ([base shared] & _ & Hb).
  apply bind_Ok in Hb as ([r defs] & Hl & Hb). apply bind_Ok in Hb as (def & _ & Hb). inv_ok. cbn.
  destruct (jobNeedsStepControl j); [|done].
  destruct (add_steps_replay _ _ _ _ _ _ Hl) as (new & -> & Hn & Hf). cbn [app] in *. done.
Qed.
End build.

(** ** Witnesses *)

(** A term model of llb: a state is the list of operations that led to it. *)
#[local] Instance ex_llb : LLB := {| Definition_ := list string; State_ := list string; zero_state := [] |}.
#[local] Existing Instance ex_platforms.
#[local] Existing Instance Conditional.ex_cel.

Definition ex_exec (opts : list run_opt) : string :=
  Join (opts ≫= fun o => match o with Args a => a | IgnoreCache => ["ignore"] | _ => [] end) ",".

#[local] Instance ex_ops : LLBOps := {|
  ExecState := list string;
  llb_Image := fun name _ => ["image " +:+ name];
  llb_Local := fun name _ => [name];
  llb_Scratch := [];
  st_Dir := fun st d => st ++ ["dir " +:+ d];
  st_AddEnv := fun st k v => st ++ [k +:+ "=" +:+ v];
  st_File := fun st a => st ++ [match a with Copy _ s t => s +:+ ">" +:+ t | Mkdir p _ => p | Mkfile p _ => p end];
  st_Run := fun st opts => st ++ [ex_exec opts];
  es_Root := fun st => st;
  es_GetMount := fun st _ => st;
  st_Marshal := fun st => Ok st
|}.

Definition ex_opts : BuildOpts :=
  {| NoCache := false; NoCacheFilter := {["a"]}; ExcludePatterns := []; MetaResolver := true; ExposeDeps := false |}.

(** [b] copies an artifact of [a] and retries its second step. *)
Definition ex_pipeline : Pipeline.t :=
  Pipeline.mk "p"
    [Job.empty "b" <| Job.Image := "alpine" |> <| Job.DependsOn := ["a"] |>
       <| Job.Artifacts := [Artifact.mk "a" "/out" "/in"] |>
       <| Job.Steps := [Step.empty "s" <| Step.Run := ["make"] |>;
                        Step.empty "t" <| Step.Run := ["test"; "lint"] |> <| Step.NoCache := true |>
                          <| Step.Retry := Some (Retry.mk 2 0 BackoffNone) |>] |>;
     Job.empty "a" <| Job.Image := "alpine" |> <| Job.Steps := [Step.empty "s" <| Step.Run := ["cc"] |>] |>]
    [] [] None None None.

Definition ex_validated : Pipeline.t :=
  match ValidatePipeline (Some ex_pipeline) with Ok (p, _) => p | Fail _ => ex_pipeline end.

Definition ex_job : Job.t := default (Job.empty "") (Pipeline.Jobs ex_validated !! 0).
Definition ex_states : gmap string (list string) := {["a" := ["image alpine"]]}.

Lemma ex_marshals : marshals.
Proof. intros st. by exists st. Qed.

Lemma ex_platform_ok j : j ∈ Pipeline.Jobs ex_validated -> platform_ok j.
Proof. intros _ _. by eexists. Qed.

Lemma ex_export_paths : export_paths_ok ex_validated.
Proof.
  assert (Forall (fun j => collectExports j = []) (Pipeline.Jobs ex_validated)) as Hall
    by (vm_compute; repeat constructor).
  intros j e Hj He. rewrite Forall_forall in Hall. rewrite (Hall j Hj) in He. by apply elem_of_nil in He.
Qed.

Lemma Build_total_witness :
  exists r, Build ex_validated ex_opts = Ok r /\ r_JobNames r = ["a"; "b"].
Proof.
  refine (Build_total ex_pipeline ex_validated [1; 0] ex_opts _ ex_marshals ex_platform_ok ex_export_paths).
  vm_compute. reflexivity.
Defined.

Definition ex_setup : list string * stepSharedCtx :=
  match job_setup ex_job ex_states (build_opts ex_validated ex_opts) with
  | Ok s => s
  | Fail _ => ([], {| sh_jobName := ""; sh_preamble := ""; sh_depStates := ∅; sh_depMounts := [];
                      sh_jobMountOpts := []; sh_baseRunOpts := []; sh_jobShell := None; sh_localOpts := [];
                      sh_jobNoCached := false; sh_jobSecrets := [] |})
  end.

Definition ex_lint : Step.t := Step.empty "t" <| Step.NoCache := true |>.

Lemma cache_disabled_once_witness : ignores (command_opts ex_setup.2 ex_lint 0 "lint") = 1.
Proof.
  refine (cache_disabled_once ex_validated ex_opts ex_job ex_states ex_setup.1 ex_setup.2 ex_lint 0 "lint" _).
  vm_compute. reflexivity.
Defined.

Definition ex_job_result : jobResult :=
  match buildJob ex_job ex_states (build_opts ex_validated ex_opts) with
  | Ok r => r
  | Fail _ => {| jr_def := []; jr_state := []; jr_stepTimeouts := ∅; jr_cmdInfos := ∅; jr_stepDefs := None;
                 jr_baseState := [] |}
  end.

Lemma step_control_replay_witness :
  sd_Name <$> default [] (jr_stepDefs ex_job_result) = ["s"; "t"] /\
  match jr_stepDefs ex_job_result with
  | Some defs => jobNeedsStepControl ex_job = true /\ sd_Name <$> defs = Step.Name <$> Job.Steps ex_job /\
      foldM (fun st d => sd_Build d st 0) (jr_baseState ex_job_result) defs = Ok (jr_state ex_job_result)
  | None => jobNeedsStepControl ex_job = false
  end.
Proof.
  split; [vm_compute; reflexivity|].
  refine (step_control_replay (ops := ex_ops) ex_job ex_states (build_opts ex_validated ex_opts) ex_job_result _).
  vm_compute. reflexivity.
Defined.

(** The validator accepts an export path that the builder refuses. *)
Definition ex_root_export : Pipeline.t :=
  Pipeline.mk "p"
    [Job.empty "a" <| Job.Image := "alpine" |> <| Job.Exports := [Export_.mk "/." "out"] |>
       <| Job.Steps := [Step.empty "s" <| Step.Run := ["cc"] |>] |>] [] [] None None None.

Lemma validated_export_rejected :
  is_ok (ValidatePipeline (Some ex_root_export)) = true /\
  Build ex_root_export ex_opts = Fail (Error ["a"; "/."] [Foreign "invalid export path"]).
Proof. split; vm_compute; reflexivity. Qed.
