(* ===== verification/Convert.v ===== *)
(** * From builder to runner (cmd/cicada/convert.go)

    The command joins the builder's result with the pipeline by job name, and turns the
    image exports into publishes. *)

From S2P Require Import Prelude Errors GoStrings Regex Conditional Model Defaults Secret Validate.
From S2P Require Import Shell Progress Retry Dag Output Node Sched Publish Builder.

Section convert.
Context `{ops : LLBOps} `{cel : CEL}.

Definition errResultMismatch : sentinel := Foreign "builder result mismatch".
Definition errUnknownBuilderJob : sentinel := Foreign "unknown builder job".

(** A nil filter behaves as the empty one; the warnings are logging. *)
Definition buildNoCacheFilter (filters : list string) : gset string := list_to_set filters.

(** A ["*"] anywhere in the flags selects every published job. *)
Fixpoint docker_filter (set : gset string) (flagValues : list string) (pubs : list ImagePublish.t)
    : gset string :=
  match flagValues with
  | [] => set
  | v :: vs =>
      if decide (v = "*") then list_to_set (ImagePublish.JobName <$> pubs)
      else docker_filter ({[v]} ∪ set) vs pubs
  end.

Definition buildDockerExportFilter (flagValues : list string) (pubs : list ImagePublish.t) : gset string :=
  docker_filter ∅ flagValues pubs.

Definition publish_of (ie : ImageExport) : ImagePublish.t :=
  ImagePublish.mk (Some (ie_Definition ie)) (ie_JobName ie) (Publish.Image (ie_Publish ie))
    (Publish.Push (ie_Publish ie)) (Publish.Insecure (ie_Publish ie)) false (ie_Platform ie).

Definition set_docker (filter : gset string) (p : ImagePublish.t) : ImagePublish.t :=
  if decide (ImagePublish.JobName p ∈ filter) then
    ImagePublish.mk (ImagePublish.Definition' p) (ImagePublish.JobName p) (ImagePublish.Image p)
      (ImagePublish.Push p) (ImagePublish.Insecure p) true (ImagePublish.Platform p)
  else p.

Definition buildImagePublishes (exports : list ImageExport) (dockerExportFlags : list string)
    : list ImagePublish.t :=
  let pubs := publish_of <$> exports in
  set_docker (buildDockerExportFilter dockerExportFlags pubs) <$> pubs.

(** The conversion loop of [runAction] over [result.Exports]. *)
Definition run_export (e : LocalExport) : RunExport.t :=
  RunExport.mk (Some (le_Definition e)) (le_JobName e) (le_Local e) (le_Dir e).

Record pipelineJobInfo : Type := PipelineJobInfo {
  i_DependsOn : list string;
  i_When : option DeferredEvaluator;
  i_Env : gmap string string;
  i_Matrix : gmap string string;
  i_Timeout : Z;
  i_Retry : option Retry.t
}.

Definition job_info (penv : list EnvVar.t) (j : Job.t) : pipelineJobInfo :=
  match Job.When j with
  | Some w =>
      if When.Deferred w then
        PipelineJobInfo (Job.DependsOn j) (Some (EvaluateDeferred w)) (BuildEnvScope penv (Job.Env j))
          (default ∅ (Job.MatrixValues j)) (Job.Timeout j) (Job.Retry j)
      else PipelineJobInfo (Job.DependsOn j) None ∅ ∅ (Job.Timeout j) (Job.Retry j)
  | None => PipelineJobInfo (Job.DependsOn j) None ∅ ∅ (Job.Timeout j) (Job.Retry j)
  end.

Definition pipeline_index (p : Pipeline.t) : gmap string pipelineJobInfo :=
  foldl (fun m j => <[Job.Name j := job_info (Pipeline.Env p) j]> m) ∅ (Pipeline.Jobs p).

Definition convertStepDefs (defs : list StepDef) : list StepExec.t :=
  (fun d => StepExec.mk (sd_Name d) (sd_Retry d) (sd_AllowFailure d) (sd_Timeouts d) (sd_CmdInfos d) (sd_Build d))
    <$> defs.

Definition runner_job (r : BuildResult) (idx : gmap string pipelineJobInfo)
    (skippedSteps : gmap string (list string)) (dn : Definition_ * string) : result RunJob.t :=
  let '(def, name) := dn in
  match idx !! name with
  | None => fail_with [name] errUnknownBuilderJob
  | Some info =>
      Ok (RunJob.mk name (Some def) (i_DependsOn info) (i_When info) (i_Env info) (i_Matrix info)
            (r_OutputDefs r !! name) (default [] (skippedSteps !! name)) (i_Timeout info) (i_Retry info)
            (default ∅ (r_StepTimeouts r !! name)) (default ∅ (r_CmdInfos r !! name))
            (convertStepDefs <$> r_StepDefs r !! name)
            (match r_StepDefs r !! name with
             | Some _ => default zero_state (r_BaseStates r !! name)
             | None => zero_state
             end))
  end.

Definition buildRunnerJobs (r : BuildResult) (p : Pipeline.t) (skippedSteps : gmap string (list string))
    : result (list RunJob.t) :=
  if decide (length (r_Definitions r) <> length (r_JobNames r))
  then fail_with [] errResultMismatch
  else forM (runner_job r (pipeline_index p) skippedSteps) (zip (r_Definitions r) (r_JobNames r)).

(** ** Docker exports *)

Lemma docker_filter_spec set flags pubs name :
  name ∈ docker_filter set flags pubs <->
  if decide ("*" ∈ flags) then name ∈ ImagePublish.JobName <$> pubs else name ∈ set \/ name ∈ flags.
Proof.
  revert set. induction flags as [|v vs IH]; intros set; cbn [docker_filter].
  - rewrite decide_False by apply not_elem_of_nil. set_solver.
  - destruct (decide (v = "*")) as [->|Hv].
    + rewrite decide_True by (by left). apply elem_of_list_to_set.
    + rewrite IH. destruct (decide ("*" ∈ vs)).
      * by rewrite decide_True by (by right).
      * rewrite decide_False by (rewrite elem_of_cons; naive_solver). set_solver.
Qed.

(** ** The index *)

Lemma index_lookup penv (jobs : list Job.t) (m : gmap string pipelineJobInfo) name info :
  foldl (fun m j => <[Job.Name j := job_info penv j]> m) m jobs !! name = Some info ->
  (exists j, j ∈ jobs /\ Job.Name j = name /\ info = job_info penv j) \/ m !! name = Some info.
Proof.
  induction jobs as [|j jobs IH] using rev_ind; [by right|]. rewrite foldl_app. cbn [foldl].
  destruct (decide (Job.Name j = name)) as [<-|Hne].
  - rewrite lookup_insert_eq. intros [= <-]. left. exists j. set_solver.
  - rewrite lookup_insert_ne by done. intros [(k & Hk & ? & ?)|?]%IH; [|by right]. left. exists k. set_solver.
Qed.

Lemma index_total penv (jobs : list Job.t) (m : gmap string pipelineJobInfo) j :
  j ∈ jobs -> is_Some (foldl (fun m j => <[Job.Name j := job_info penv j]> m) m jobs !! Job.Name j).
Proof.
  induction jobs as [|k jobs IH] using rev_ind; [by intros ?%elem_of_nil|]. rewrite foldl_app. cbn [foldl].
  intros Hj. destruct (decide (Job.Name k = Job.Name j)) as [->|Hne]; [by rewrite lookup_insert_eq|].
  rewrite lookup_insert_ne by done. apply IH. apply elem_of_app in Hj as [?| ->%list_elem_of_singleton]; done.
Qed.

Lemma index_job p j :
  NoDup (Job.Name <$> Pipeline.Jobs p) -> j ∈ Pipeline.Jobs p ->
  pipeline_index p !! Job.Name j = Some (job_info (Pipeline.Env p) j).
Proof.
  intros Hnd Hj. unfold pipeline_index.
  destruct (index_total (Pipeline.Env p) (Pipeline.Jobs p) ∅ j Hj) as [info Hi]. rewrite Hi. f_equal.
  apply index_lookup in Hi as [(k & Hk & Hn & ->)|Hi]; [|by rewrite lookup_empty in Hi].
  by rewrite (NoDup_fmap_inj_elem _ _ _ _ Hnd Hk Hj Hn).
Qed.

Lemma job_info_deps penv j : i_DependsOn (job_info penv j) = Job.DependsOn j.
Proof. unfold job_info. destruct (Job.When j) as [w|]; [by destruct (When.Deferred w)|done]. Qed.

(** ** Jobs in build order *)

Definition shape_at (p : Pipeline.t) (order : list nat) : list (string * list string) :=
  omap (fun i => (fun j => (Job.Name j, Job.DependsOn j)) <$> Pipeline.Jobs p !! i) order.

Lemma shape_at_names p order : (shape_at p order).*1 = names_at p order.
Proof.
  unfold shape_at, names_at. induction order as [|i order IH]; [done|]. cbn.
  destruct (Pipeline.Jobs p !! i); cbn; by rewrite IH.
Qed.

Lemma omap_lookup_seq {A B} (f : A -> B) (l k : list A) :
  omap (fun i => f <$> (k ++ l) !! i) (seq (length k) (length l)) = f <$> l.
Proof.
  revert k. induction l as [|a l IH]; intros k; [done|]. cbn [length seq omap list_omap].
  rewrite list_lookup_middle by done. cbn. f_equal.
  specialize (IH (k ++ [a])). rewrite length_app, Nat.add_1_r, <- app_assoc in IH. exact IH.
Qed.

Lemma shape_at_perm p order :
  order ≡ₚ seq 0 (length (Pipeline.Jobs p)) -> shape_at p order ≡ₚ pipeline_shape p.
Proof.
  intros Hperm. unfold shape_at. rewrite Hperm. unfold pipeline_shape.
  pose proof (omap_lookup_seq (fun j => (Job.Name j, Job.DependsOn j)) (Pipeline.Jobs p) []) as Hs.
  cbn [app length] in Hs. by rewrite Hs.
Qed.

Lemma schedulable_perm l l' : l ≡ₚ l' -> schedulable l -> schedulable l'.
Proof.
  intros Hp (Hnd & Hc & Ha).
  assert (forall n m, depends_on l' n m -> depends_on l n m) as Hd
    by (intros n m (ds & Hin & Hm); exists ds; by rewrite Hp).
  split_and!; [by rewrite <- Hp| |].
  - intros n m Hnm%Hd. rewrite <- Hp. by eapply Hc.
  - intros n Hn. apply (Ha n). eapply tc_mono; [|exact Hn]. exact Hd.
Qed.

Lemma runner_jobs_shape r p sk order dns jobs :
  NoDup (Job.Name <$> Pipeline.Jobs p) -> dns.*2 = names_at p order ->
  forM (runner_job r (pipeline_index p) sk) dns = Ok jobs -> shape jobs = shape_at p order.
Proof.
  intros Hnd. revert dns jobs. induction order as [|i order IH]; intros dns jobs.
  - intros Hd%fmap_nil_inv. subst. by intros [= <-].
  - unfold names_at, shape_at. cbn. destruct (Pipeline.Jobs p !! i) as [j|] eqn:Hj; cbn; [|by apply IH].
    destruct dns as [|[d n] dns]; [done|]. cbn. intros [= -> Hd]. intros Hjobs. inv_ok.
    pose proof (list_elem_of_lookup_2 _ _ _ Hj) as Hin.
    match goal with
    | Hr : match _ with Some _ => _ | None => _ end = Ok _ |- _ => rewrite (index_job p j Hnd Hin) in Hr
    | Hr : runner_job _ _ _ _ = Ok _ |- _ => unfold runner_job in Hr; rewrite (index_job p j Hnd Hin) in Hr
    end. inv_ok. cbn. rewrite job_info_deps. f_equal. by eapply IH.
Qed.

Lemma runner_jobs_total r p sk dns :
  NoDup (Job.Name <$> Pipeline.Jobs p) ->
  (forall n, n ∈ dns.*2 -> n ∈ Job.Name <$> Pipeline.Jobs p) ->
  exists jobs, forM (runner_job r (pipeline_index p) sk) dns = Ok jobs.
Proof.
  intros Hnd Hin. apply forM_total. intros [d n] Hd.
  assert (n ∈ Job.Name <$> Pipeline.Jobs p) as (j & -> & Hj)%list_elem_of_fmap
    by (apply Hin; apply list_elem_of_fmap; by exists (d, n)).
  unfold runner_job. rewrite (index_job p j Hnd Hj). by eexists.
Qed.

(** Definitions and names are appended together. *)
Lemma appendJob_lengths j opts acc acc' :
  appendJob j opts acc = Ok acc' -> length (r_Definitions acc.2) = length (r_JobNames acc.2) ->
  length (r_Definitions acc'.2) = length (r_JobNames acc'.2).
Proof.
  destruct acc as [states r]. unfold appendJob.
  intros (jr & _ & (od & _ & (es & _ & [= <-])%bind_Ok)%bind_Ok)%bind_Ok Hl. cbn in *.
  by rewrite !length_app, Hl.
Qed.

Lemma Build_lengths p opts r : Build p opts = Ok r -> length (r_Definitions r) = length (r_JobNames r).
Proof.
  unfold Build. intros ([p' order] & _ & ([states r'] & Hl & [= <-])%bind_Ok)%bind_Ok.
  change (length (r_Definitions (states, r').2) = length (r_JobNames (states, r').2)).
  revert Hl. apply (foldM_inv (fun _ acc => length (r_Definitions acc.2) = length (r_JobNames acc.2))); [done|].
  intros _ b i b' _ Hb Hs. unfold build_step in Hs. destruct (Pipeline.Jobs p' !! i) as [j|]; [|by injection Hs as <-].
  by eapply appendJob_lengths.
Qed.

(** ** Properties *)


(** C0: [--with-docker-export] selects the published jobs it names, all of them for ["*"],
    changes nothing else, and keeps the order of the exports. *)
Theorem buildImagePublishes_spec exports flags :
  buildImagePublishes exports flags =
  (fun ie =>
     ImagePublish.mk (Some (ie_Definition ie)) (ie_JobName ie) (Publish.Image (ie_Publish ie))
       (Publish.Push (ie_Publish ie)) (Publish.Insecure (ie_Publish ie))
       (bool_decide ("*" ∈ flags \/ ie_JobName ie ∈ flags)) (ie_Platform ie)) <$> exports.
Proof.
  unfold buildImagePublishes. rewrite <- list_fmap_compose. apply Forall_fmap_ext, Forall_forall.
  intros ie Hie. cbn. unfold set_docker, publish_of, buildDockerExportFilter. cbn [ImagePublish.JobName].
  assert (ie_JobName ie ∈ docker_filter ∅ flags (publish_of <$> exports) <->
    "*" ∈ flags \/ ie_JobName ie ∈ flags) as Hiff.
  { rewrite docker_filter_spec. case_decide as Hs; [|set_solver]. split; [by left|]. intros _.
    rewrite <- list_fmap_compose. by apply (list_elem_of_fmap_2 (ImagePublish.JobName ∘ publish_of)). }
  case_decide as Hd.
  - rewrite bool_decide_true by (by apply Hiff). done.
  - rewrite bool_decide_false by (by rewrite <- Hiff). done.
Qed.
End convert.

(** ** Witness *)

