(* ===== verification/Plan.v ===== *)
(** * From an accepted pipeline to the runner's jobs (cmd/cicada/run.go)

    [runAction] filters the jobs of a parsed pipeline, evaluates its static conditions,
    builds what is left and converts it for the runner.  Neither step validates its own
    result.  This file shows that they need not: both cut jobs down in a way that keeps
    every rule of the validator. *)

From S2P Require Import Prelude Errors GoStrings Regex Conditional Model Defaults Secret Dfs Validate Filter WhenEval.
From S2P Require Import Shell Progress Retry Dag Output Node Sched Publish Builder Convert.

(** ** Cuts *)

(** What filtering and conditions do to a step: its exports may be dropped, and some of its
    artifacts; what is left refers to [deps]. *)
Record step_cut (deps : list string) (s s' : Step.t) : Prop := StepCut {
  sc_same : s' = s <| Step.Exports := Step.Exports s' |> <| Step.Artifacts := Step.Artifacts s' |>;
  sc_exports : Step.Exports s' = Step.Exports s \/ Step.Exports s' = [];
  sc_artifacts : Step.Artifacts s' `sublist_of` Step.Artifacts s;
  sc_deps : Forall (fun a => Artifact.From a ∈ deps) (Step.Artifacts s')
}.

(** And to a job: it may also lose dependencies, its publication, and steps, but not all. *)
Record job_cut (j j' : Job.t) : Prop := JobCut {
  jc_same : j' = j <| Job.Exports := Job.Exports j' |> <| Job.Publish := Job.Publish j' |>
                   <| Job.DependsOn := Job.DependsOn j' |> <| Job.Artifacts := Job.Artifacts j' |>
                   <| Job.Steps := Job.Steps j' |>;
  jc_exports : Job.Exports j' = Job.Exports j \/ Job.Exports j' = [];
  jc_publish : Job.Publish j' = Job.Publish j \/ Job.Publish j' = None;
  jc_depends : Job.DependsOn j' ⊆ Job.DependsOn j;
  jc_artifacts : Job.Artifacts j' `sublist_of` Job.Artifacts j;
  jc_from : Forall (fun a => Artifact.From a ∈ Job.DependsOn j') (Job.Artifacts j');
  jc_steps : Job.Steps j' <> [];
  jc_names : Step.Name <$> Job.Steps j' `sublist_of` Step.Name <$> Job.Steps j;
  jc_each : Forall (fun s' => exists s, s ∈ Job.Steps j /\ step_cut (Job.DependsOn j') s s') (Job.Steps j')
}.

Section cuts.
Context `{cel : CEL}.

Lemma artifacts_ok_cut deps deps' l l' :
  artifacts_ok deps l -> l' `sublist_of` l -> Forall (fun a => Artifact.From a ∈ deps') l' -> artifacts_ok deps' l'.
Proof.
  intros [Ha Hnd] Hsub Hf. split.
  - rewrite Forall_forall in Ha, Hf |- *. intros a Hin. pose proof (Hf a Hin) as Hd.
    destruct (Ha a) as (? & _ & ? & ?); [by eapply elem_of_sublist|]. done.
  - eapply sublist_NoDup; [exact Hnd|by apply fmap_sublist].
Qed.

Lemma exports_ok_cut l l' : exports_ok l -> l' = l \/ l' = [] -> exports_ok l'.
Proof. intros H [-> | ->]; [done|]. split; constructor. Qed.

Lemma step_ok_cut deps s s' : step_cut deps s s' -> step_ok s -> step_ok s'.
Proof.
  intros [-> He _ _] (? & ? & ? & ? & ? & ? & ? & ? & ? & ? & Hx). cbn in *.
  unfold step_ok. cbn. split_and!; try done. by eapply exports_ok_cut.
Qed.

Lemma job_ok_cut declared j j' : job_cut j j' -> job_ok declared j -> job_ok declared j'.
Proof.
  intros [Heq He Hp _ Ha Hfrom Hne Hnames Hss] (? & ? & ? & _ & ? & Hx & Hart & Hpub & ? & ? & ? & ? & ? & Hs & Hnd).
  rewrite Heq. cbn in *. unfold job_ok. cbn. split_and!; try done.
  - by eapply exports_ok_cut.
  - by eapply artifacts_ok_cut.
  - by destruct Hp as [-> | ->].
  - rewrite Forall_forall in Hs, Hss |- *. intros s' Hs'. destruct (Hss s' Hs') as (s & Hin & Hc).
    destruct (Hs s Hin) as (Hok & Hsa & Hr & Hi). split; [by eapply step_ok_cut|]. destruct Hc as [Hseq ? ? ?].
    split; [by eapply artifacts_ok_cut|]. rewrite Hseq. cbn. done.
  - by eapply sublist_NoDup.
Qed.

(** ** Filtering cuts *)

Lemma strip_names l : Step.Name <$> stripStepExports l = Step.Name <$> l.
Proof. unfold stripStepExports. rewrite <- list_fmap_compose. by apply list_fmap_ext. Qed.

Lemma strip_some_names a l : Step.Name <$> stripStepExports (firstn a l) ++ drop a l = Step.Name <$> l.
Proof. by rewrite fmap_app, strip_names, <- fmap_app, take_drop. Qed.

Lemma trimJob_names startAt stopAfter j j' :
  trimJob startAt stopAfter j = Ok j' -> Job.Steps j <> [] ->
  Job.Steps j' <> [] /\ Step.Name <$> Job.Steps j' `sublist_of` Step.Name <$> Job.Steps j.
Proof.
  intros Ht Hne. unfold trimJob in Ht. destruct (resolveStepTrim _ _ _ _) as [[a|] [b|]]; cbn [StartIdx StopIdx] in Ht.
  - destruct (bool_decide _); [done|]. injection Ht as <-. cbn. rewrite strip_some_names.
    split; [|apply fmap_sublist, sublist_take]. intros Hn%(f_equal (fmap Step.Name)). rewrite strip_some_names in Hn.
    apply fmap_nil_inv in Hn. by destruct (Job.Steps j).
  - injection Ht as <-. cbn. rewrite strip_some_names. split; [|done]. intros Hn%(f_equal (fmap Step.Name)).
    rewrite strip_some_names in Hn. by apply fmap_nil_inv in Hn.
  - injection Ht as <-. cbn. split; [by destruct (Job.Steps j)|]. apply (fmap_sublist Step.Name _ _ (sublist_take _ (S b))).
  - by injection Ht as <-.
Qed.

(** Neither a job whose exports were stripped nor its trimming refers to new jobs. *)
Lemma select_cut declared full window startAt stopAfter j j1 j' :
  job_ok declared j -> selectJob full window j = Some j1 -> trimJob startAt stopAfter j1 = Ok j' -> job_cut j j'.
Proof.
  intros Hok [_ Hj1]%selectJob_Some Ht. destruct Hok as (_ & _ & _ & Hne & _ & _ & [Ha _] & _ & _ & _ & _ & _ & _ & Hs & _).
  assert (Job.Steps j1 <> [] /\ Step.Name <$> Job.Steps j1 = Step.Name <$> Job.Steps j) as [Hne1 Hn1].
  { subst j1. case_decide; cbn; [done|]. rewrite strip_names. split; [|done]. by intros ?%fmap_nil_inv. }
  destruct (trimJob_names _ _ _ _ Ht Hne1) as [Hne' Hnames]. rewrite Hn1 in Hnames.
  apply trimJob_fields in Ht as (steps & -> & Hsteps). cbn in Hne', Hnames.
  assert (forall s', s' ∈ steps -> exists s, s ∈ Job.Steps j /\ (s' = s \/ s' = s <| Step.Exports := [] |>)) as Heach.
  { intros s' (k & Hk)%list_elem_of_lookup. destruct (Hsteps k s' Hk) as (s1 & Hs1 & Heq). subst j1. case_decide; cbn in Hs1.
    - exists s1. split; [by eapply list_elem_of_lookup_2|done].
    - unfold stripStepExports in Hs1. rewrite list_lookup_fmap in Hs1. destruct (Job.Steps j !! k) as [s|] eqn:Hs0; [|done].
      injection Hs1 as <-. exists s. split; [by eapply list_elem_of_lookup_2|]. right. by destruct Heq as [-> | ->]. }
  assert (Forall (fun a => Artifact.From a ∈ Job.DependsOn j) (Job.Artifacts j)) as Hfrom
    by (eapply Forall_impl; [exact Ha|]; by intros a (_ & ? & _)).
  assert (Forall (fun s' => exists s, s ∈ Job.Steps j /\ step_cut (Job.DependsOn j) s s') steps) as Hcut.
  { apply Forall_forall. intros s' Hs'. destruct (Heach s' Hs') as (s & Hin & Heq). exists s. split; [done|].
    rewrite Forall_forall in Hs. destruct (Hs s Hin) as (_ & [Hsa _] & _).
    assert (Forall (fun a => Artifact.From a ∈ Job.DependsOn j) (Step.Artifacts s)) as Hsf
      by (eapply Forall_impl; [exact Hsa|]; by intros a (_ & ? & _)).
    destruct s. destruct Heq as [-> | ->]; constructor; cbn in *; auto. }
  clear Hsteps Heach Ha Hs Hne1 Hn1. subst j1. destruct j. case_decide; constructor; cbn in *; auto.
Qed.

Lemma cut_refl declared j : job_ok declared j -> job_cut j j.
Proof.
  intros (_ & _ & _ & Hne & _ & _ & [Ha _] & _ & _ & _ & _ & _ & _ & Hs & _).
  assert (forall (deps : list string) l, Forall (fun a => Artifact.From a <> "" /\ Artifact.From a ∈ deps /\
    HasPrefix (Artifact.Source a) "/" = true /\ proper_path (Artifact.Target a)) l ->
    Forall (fun a => Artifact.From a ∈ deps) l) as Hf
    by (intros deps l H; eapply Forall_impl; [exact H|]; by intros a (_ & ? & _)).
  destruct j. constructor; cbn in *; auto.
  apply Forall_forall. intros s Hin. exists s. split; [done|].
  rewrite Forall_forall in Hs. destruct (Hs s Hin) as (_ & [Hsa _] & _). destruct s. constructor; cbn in *; auto.
Qed.

Lemma cut_Name j j' : job_cut j j' -> Job.Name j' = Job.Name j.
Proof. intros [-> _ _ _ _ _ _ _ _]. done. Qed.

Lemma trimJob_none startAt stopAfter j : t_Step startAt = "" /\ t_Step stopAfter = "" -> trimJob startAt stopAfter j = Ok j.
Proof.
  intros [Hs Ht]. unfold trimJob, resolveStepTrim. by rewrite !decide_False by tauto.
Qed.

Lemma FilterJobs_cut declared jobs opts out j' :
  NoDup (Job.Name <$> jobs) -> Forall (job_ok declared) jobs -> FilterJobs jobs opts = Ok out -> j' ∈ out ->
  exists j, j ∈ jobs /\ job_cut j j'.
Proof.
  intros Hnd Hall Hok Hj'. rewrite Forall_forall in Hall.
  destruct (FilterJobs_sets _ _ _ Hnd Hok) as [(_ & _ & ->)|(window & full & _ & _ & Htrim)].
  { exists j'. split; [done|]. eapply cut_refl. by apply Hall. }
  set (startAt := parseFilterTarget (FilterOpts.StartAt opts)) in *.
  set (stopAfter := parseFilterTarget (FilterOpts.StopAfter opts)) in *.
  assert (exists j1, j1 ∈ omap (selectJob full window) jobs /\ trimJob startAt stopAfter j1 = Ok j') as (j1 & Hin & Ht).
  { unfold applyStepTrimming in Htrim. case_decide as Hnone.
    - injection Htrim as <-. exists j'. split; [done|]. by apply trimJob_none.
    - apply forM_Ok in Htrim. apply list_elem_of_lookup in Hj' as [i Hi].
      destruct (Forall2_lookup_r _ _ _ _ _ Htrim Hi) as (j1 & Hj1 & Ht). exists j1. split; [by eapply list_elem_of_lookup_2|done]. }
  apply list_elem_of_omap in Hin as (j & Hj & Hsel). exists j. split; [done|]. eapply select_cut; [by apply Hall|done|done].
Qed.

(** ** Condition cuts *)

Lemma trimmed_cut declared p wctx (skipped : gset string) j :
  job_ok declared j -> survives p wctx j -> job_cut j (trimmed p wctx skipped j).
Proof.
  intros (_ & _ & _ & _ & _ & _ & [Ha _] & _ & _ & _ & _ & _ & _ & Hs & _) [_ Hkept].
  assert (forall (l : list Artifact.t) (deps : list string), Forall (fun a => Artifact.From a ∈ deps) l ->
    Forall (fun a => Artifact.From a ∈ filter (.∉ skipped) deps) (filter (fun a => Artifact.From a ∉ skipped) l)) as Hfrom.
  { intros l deps H. apply Forall_forall. intros a [Hn Hin]%list_elem_of_filter. apply list_elem_of_filter. split; [done|].
    rewrite Forall_forall in H. by apply H. }
  constructor; unfold trimmed, cleaned, stepped; cbn -[kept_steps].
  - by destruct j.
  - by left.
  - by left.
  - intros x [_ Hx]%list_elem_of_filter. done.
  - apply sublist_filter.
  - apply Hfrom. eapply Forall_impl; [exact Ha|]. by intros a (_ & ? & _).
  - by intros ?%fmap_nil_inv.
  - rewrite <- list_fmap_compose. change (Step.Name ∘ _) with Step.Name. apply fmap_sublist, sublist_filter.
  - apply Forall_fmap, Forall_forall. intros s [_ Hin]%list_elem_of_filter. cbn. exists s. split; [done|].
    rewrite Forall_forall in Hs. destruct (Hs s Hin) as (_ & [Hsa _] & _). constructor; cbn.
    + by destruct s.
    + by left.
    + apply sublist_filter.
    + apply Hfrom. eapply Forall_impl; [exact Hsa|]. by intros a (_ & ? & _).
Qed.

(** ** Pipelines *)

(** Everything the validator requires but a job. *)
Definition sound (p : Pipeline.t) : Prop :=
  env_ok (Pipeline.Env p) /\ decls_ok (Pipeline.Secrets p) /\
  Forall (job_ok (list_to_set (SecretDecl.Name <$> Pipeline.Secrets p))) (Pipeline.Jobs p) /\
  NoDup (Job.Name <$> Pipeline.Jobs p) /\ deps_closed (Pipeline.Jobs p) /\ acyclic_jobs (Pipeline.Jobs p).

Lemma well_formed_sound p : well_formed p <-> Pipeline.Jobs p <> [] /\ sound p.
Proof. unfold well_formed, sound. tauto. Qed.

Lemma cut_sound p p' :
  sound p -> Pipeline.Env p' = Pipeline.Env p -> Pipeline.Secrets p' = Pipeline.Secrets p ->
  (forall j', j' ∈ Pipeline.Jobs p' -> exists j, j ∈ Pipeline.Jobs p /\ job_cut j j') ->
  NoDup (Job.Name <$> Pipeline.Jobs p') -> deps_closed (Pipeline.Jobs p') -> sound p'.
Proof.
  intros (He & Hd & Hall & _ & _ & Ha) HE HS Hcut Hnd Hc. unfold sound. rewrite HE, HS. split_and!; try done.
  - apply Forall_forall. intros j' Hj'. destruct (Hcut j' Hj') as (j & Hj & Hjc). rewrite Forall_forall in Hall.
    eapply job_ok_cut; [done|by apply Hall].
  - intros n Hn. apply (Ha n). eapply tc_mono; [|exact Hn]. intros x y (j' & Hj' & <- & Hy).
    destruct (Hcut j' Hj') as (j & Hj & Hjc). exists j. split_and!; [done|by rewrite (cut_Name _ _ Hjc)|by apply (jc_depends _ _ Hjc)].
Qed.

Lemma FilterJobs_sound p opts jobs :
  sound p -> FilterJobs (Pipeline.Jobs p) opts = Ok jobs ->
  sound (p <| Pipeline.Jobs := jobs |> <| Pipeline.TopoOrder := None |>).
Proof.
  intros Hs Hf. pose proof Hs as (_ & _ & Hall & Hnd & Hc & _). eapply cut_sound; [exact Hs|done|done|..]; cbn.
  - intros j'. by eapply FilterJobs_cut.
  - eapply sublist_NoDup; [exact Hnd|]. by apply (FilterJobs_names _ _ _ Hnd Hf).
  - by eapply FilterJobs_closed.
Qed.

Lemma EvaluateConditions_cut p wctx r j' :
  sound p -> EvaluateConditions p wctx = Ok r -> j' ∈ Pipeline.Jobs (ConditionResult.Pipeline r) ->
  exists j, j ∈ Pipeline.Jobs p /\ job_cut j j'.
Proof.
  intros (_ & _ & Hall & Hnd & _) Hr. rewrite (remaining_eq p wctx r Hnd Hr).
  intros (j & -> & [Hsv Hj]%list_elem_of_filter)%list_elem_of_fmap. exists j. split; [done|].
  rewrite Forall_forall in Hall. eapply trimmed_cut; [by apply Hall|done].
Qed.

Lemma EvaluateConditions_sound p wctx r :
  sound p -> EvaluateConditions p wctx = Ok r -> sound (ConditionResult.Pipeline r).
Proof.
  intros Hs Hr. pose proof Hs as (_ & _ & _ & Hnd & Hc & _).
  pose proof (EvaluateConditions_Ok p wctx r Hnd Hr) as [_ Hp].
  eapply cut_sound; [exact Hs|by rewrite Hp|by rewrite Hp|..].
  - intros j'. by eapply EvaluateConditions_cut.
  - rewrite (remaining_eq p wctx r Hnd Hr), <- list_fmap_compose. change (Job.Name ∘ _) with Job.Name.
    eapply sublist_NoDup; [exact Hnd|]. apply fmap_sublist, sublist_filter.
  - by apply (remaining_closed p wctx r Hnd Hr).
Qed.
End cuts.

(** ** The stages of [runAction] *)

Section plan.
Context `{ops : LLBOps} `{cel : CEL}.

(** From the parsed pipeline to what is left of it. *)
Definition select (filterOpts : FilterOpts.t) (wctx : Context.t) (p : Pipeline.t) : result ConditionResult.t :=
  jobs ← map_err (errorf []) (FilterJobs (Pipeline.Jobs p) filterOpts);
  map_err (errorf []) (EvaluateConditions (p <| Pipeline.Jobs := jobs |> <| Pipeline.TopoOrder := None |>) wctx).

(** From there to the runner's jobs.  [runAction] hands the same pipeline to both. *)
Definition compile (path : string) (opts : BuildOpts) (cond : ConditionResult.t) : result (BuildResult * list RunJob.t) :=
  let p := ConditionResult.Pipeline cond in
  r ← map_err (errorf [path]) (Build p opts);
  jobs ← map_err (errorf []) (buildRunnerJobs r p (ConditionResult.SkippedSteps cond));
  Ok (r, jobs).

(** What a build needs of its environment, for every job. *)
Definition env_fine (p : Pipeline.t) : Prop :=
  (forall j, j ∈ Pipeline.Jobs p -> platform_ok j) /\ export_paths_ok p.

Lemma cut_exports j j' e : job_cut j j' -> e ∈ collectExports j' -> e ∈ collectExports j.
Proof.
  intros [_ He _ _ _ _ _ _ Hs]. unfold collectExports. rewrite !elem_of_app. intros [Hin|Hin].
  - left. destruct He as [He|He]; rewrite He in Hin; [done|by apply elem_of_nil in Hin].
  - right. apply list_elem_of_bind in Hin as (s' & Hin & Hs'). apply list_elem_of_bind.
    rewrite Forall_forall in Hs. destruct (Hs s' Hs') as (s & Hj & Hc). exists s. split; [|done].
    destruct (sc_exports _ _ _ Hc) as [Hx|Hx]; rewrite Hx in Hin; [done|by apply elem_of_nil in Hin].
Qed.

Lemma cut_env p p' :
  (forall j', j' ∈ Pipeline.Jobs p' -> exists j, j ∈ Pipeline.Jobs p /\ job_cut j j') -> env_fine p -> env_fine p'.
Proof.
  intros Hcut [Hp He]. split.
  - intros j' Hj'. destruct (Hcut j' Hj') as (j & Hj & Hc). unfold platform_ok.
    rewrite (f_equal Job.Platform (jc_same _ _ Hc)). exact (Hp j Hj).
  - intros j' e Hj' Hin. destruct (Hcut j' Hj') as (j & Hj & Hc). apply (He j e Hj). by eapply cut_exports.
Qed.

Lemma select_sound p fopts wctx cond :
  sound p -> select fopts wctx p = Ok cond ->
  sound (ConditionResult.Pipeline cond) /\ Pipeline.TopoOrder (ConditionResult.Pipeline cond) = None /\
  (env_fine p -> env_fine (ConditionResult.Pipeline cond)).
Proof.
  intros Hs Hsel. unfold select in Hsel. apply bind_Ok in Hsel as (jobs & Hf & Hc).
  apply map_err_Ok in Hf, Hc. pose proof (FilterJobs_sound _ _ _ Hs Hf) as Hs1.
  split; [by eapply EvaluateConditions_sound|]. split.
  - destruct Hs1 as (_ & _ & _ & Hnd & _). by destruct (EvaluateConditions_Ok _ wctx cond Hnd Hc) as [_ ->].
  - intros He. eapply cut_env; [intros j'; by eapply EvaluateConditions_cut|]. eapply cut_env; [|exact He]. cbn. intros j'.
    destruct Hs as (_ & _ & Hall & Hnd & _). by eapply FilterJobs_cut.
Qed.

(** Jobs are built in the order of the indices. *)
Lemma appendJob_name j opts acc acc' :
  appendJob j opts acc = Ok acc' -> r_JobNames acc'.2 = r_JobNames acc.2 ++ [Job.Name j].
Proof.
  destruct acc as [states r]. unfold appendJob. by intros (jr & _ & (od & _ & (es & _ & [= <-])%bind_Ok)%bind_Ok)%bind_Ok.
Qed.

Lemma Build_names p p' order opts r :
  build_order p = Ok (p', order) -> Build p opts = Ok r -> r_JobNames r = names_at p' order.
Proof.
  intros Ho. unfold Build. rewrite Ho. cbn [mbind res_bind]. intros ([states r'] & Hl & [= <-])%bind_Ok.
  change (r_JobNames (states, r').2 = names_at p' order). revert Hl.
  apply (foldM_inv (fun l acc => r_JobNames acc.2 = names_at p' l)); [done|].
  intros l b i b' _ Hb Hs. unfold build_step in Hs. unfold names_at in *. rewrite omap_app. cbn.
  destruct (Pipeline.Jobs p' !! i) as [j|]; cbn; [|injection Hs as <-; by rewrite app_nil_r].
  by rewrite (appendJob_name _ _ _ _ Hs), Hb.
Qed.

Lemma build_order_validates p p' order :
  Pipeline.TopoOrder p = None -> Pipeline.Jobs p <> [] -> ValidatePipeline (Some p) = Ok (p', order) ->
  build_order p = Ok (p', order).
Proof.
  intros Ht Hne Hv. unfold build_order. rewrite Ht.
  assert (validOrder (Z.of_nat <$> default [] None) (length (Pipeline.Jobs p)) = false) as -> by by destruct (Pipeline.Jobs p).
  by rewrite Hv.
Qed.

Lemma Build_validates p p' order opts :
  Pipeline.TopoOrder p = None -> Pipeline.Jobs p <> [] -> ValidatePipeline (Some p) = Ok (p', order) ->
  Build p opts = Build p' opts.
Proof.
  intros Ht Hne Hv. pose proof (ValidatePipeline_sorted _ _ _ Hv) as [Hperm _]. unfold Build.
  rewrite (build_order_validates p p' order Ht Hne Hv), (build_order_valid p' order); [done|..];
    apply ValidatePipeline_Ok in Hv as (_ & _ & ->); [done|]. cbn. by rewrite length_fmap.
Qed.

Lemma validated_shape p p' order :
  ValidatePipeline (Some p) = Ok (p', order) -> names_at p' order = names_at p order /\ pipeline_shape p' = pipeline_shape p.
Proof.
  intros (_ & _ & ->)%ValidatePipeline_Ok. unfold names_at, pipeline_shape. cbn. split.
  - induction order as [|i order IH]; [done|]. cbn. rewrite IH, list_lookup_fmap. by destruct (Pipeline.Jobs p !! i).
  - by rewrite <- list_fmap_compose.
Qed.

Lemma validated_env p p' order :
  ValidatePipeline (Some p) = Ok (p', order) -> env_fine p -> env_fine p'.
Proof.
  intros (_ & _ & ->)%ValidatePipeline_Ok [Hp He]. split.
  - intros j' (j & -> & Hj)%list_elem_of_fmap. exact (Hp j Hj).
  - intros j' e (j & -> & Hj)%list_elem_of_fmap Hin. apply (He j e Hj). unfold collectExports in *. cbn in Hin.
    rewrite elem_of_app in *. destruct Hin as [Hin|Hin]; [by left|]. right.
    apply list_elem_of_bind in Hin as (s' & Hin & (s & -> & Hs)%list_elem_of_fmap). apply list_elem_of_bind. by exists s.
Qed.

Lemma schedulable_nil : schedulable [].
Proof.
  split_and!; [constructor|by intros ? ? (? & ?%elem_of_nil & _)|].
  intros n Hn. by destruct Hn as [? ? H1|? ? ? H1 _]; destruct H1 as (? & ?%elem_of_nil & _).
Qed.

(** What [buildRunnerJobs] makes of a successful build is a graph the runner accepts. *)
Lemma compile_accepted path opts cond range r jobs :
  sound (ConditionResult.Pipeline cond) -> Pipeline.TopoOrder (ConditionResult.Pipeline cond) = None -> ranges range ->
  compile path opts cond = Ok (r, jobs) ->
  shape jobs ≡ₚ pipeline_shape (ConditionResult.Pipeline cond) /\ buildDAG range jobs = Ok (initial_nodes jobs).
Proof.
  intros Hq Ht Hrange Hc. unfold compile in Hc. set (q := ConditionResult.Pipeline cond) in *.
  apply bind_Ok in Hc as (r' & Hb & (jobs' & Hj & [= -> ->])%bind_Ok). apply map_err_Ok in Hb, Hj.
  unfold buildRunnerJobs in Hj. case_decide; [done|].
  assert (exists order, r_JobNames r = names_at q order /\ order ≡ₚ seq 0 (length (Pipeline.Jobs q))) as (order & Hn & Hperm).
  { destruct (decide (Pipeline.Jobs q = [])) as [Hnil|Hne].
    - exists []. rewrite Hnil. split; [|done]. eapply (Build_names q q []); [|done]. unfold build_order. by rewrite Ht, Hnil.
    - destruct (well_formed_sorts q (proj2 (well_formed_sound q) (conj Hne Hq))) as [order Ho].
      assert (exists q', ValidatePipeline (Some q) = Ok (q', order)) as [q' Hv].
      { eexists. apply ValidatePipeline_Ok. split_and!; [|done|done]. by apply well_formed_sound. }
      pose proof (ValidatePipeline_sorted _ _ _ Hv) as [Hperm _]. exists order. split; [|done].
      rewrite <- (proj1 (validated_shape _ _ _ Hv)). eapply Build_names; [|done]. by apply build_order_validates. }
  assert (NoDup (Job.Name <$> Pipeline.Jobs q)) as Hnd by apply Hq.
  assert ((zip (r_Definitions r) (r_JobNames r)).*2 = names_at q order) as Hz
    by (rewrite snd_zip by (by rewrite (Build_lengths _ _ _ Hb)); done).
  pose proof (runner_jobs_shape r q _ order _ jobs Hnd Hz Hj) as Hjs.
  assert (schedulable (pipeline_shape q)) as Hsch.
  { destruct (decide (Pipeline.Jobs q = [])) as [Hnil|Hne]; [unfold pipeline_shape; rewrite Hnil; apply schedulable_nil|].
    by apply well_formed_schedulable, well_formed_sound. }
  rewrite Hjs. split; [by apply shape_at_perm|]. apply buildDAG_Ok; [done|]. split; [|done]. rewrite Hjs.
  eapply schedulable_perm; [symmetry; by apply shape_at_perm|done].
Qed.

(** And it finds every built job again. *)
Lemma compile_total path opts cond r order :
  sound (ConditionResult.Pipeline cond) -> Build (ConditionResult.Pipeline cond) opts = Ok r ->
  r_JobNames r = names_at (ConditionResult.Pipeline cond) order -> exists jobs, compile path opts cond = Ok (r, jobs).
Proof.
  intros Hq Hr Hn. unfold compile. set (q := ConditionResult.Pipeline cond) in *. rewrite Hr. cbn [map_err mbind res_bind].
  destruct (runner_jobs_total r q (ConditionResult.SkippedSteps cond) (zip (r_Definitions r) (r_JobNames r))) as [jobs Hjobs]; [apply Hq| |].
  - rewrite snd_zip by (by rewrite (Build_lengths _ _ _ Hr)). rewrite Hn. unfold names_at. intros n (i & _ & Hi)%list_elem_of_omap.
    destruct (Pipeline.Jobs q !! i) as [j|] eqn:Hj; [|done]. injection Hi as <-. apply list_elem_of_fmap_2. by eapply list_elem_of_lookup_2.
  - exists jobs. unfold buildRunnerJobs. rewrite decide_False by (rewrite (Build_lengths _ _ _ Hr); auto). by rewrite Hjobs.
Qed.

(** C8: An accepted pipeline still runs after [--start-at], [--stop-after] and its
    conditions have cut it down.  When both select something without an error, what is left
    passes validation again, unless no job is left, although no step validated its result.
    If its build succeeds, every built job was found again in the pipeline, the runner's
    jobs are exactly the remaining jobs with their remaining dependencies, and they form a
    graph the runner accepts - also when no job is left.  And the build succeeds whenever
    LLB can be marshalled, the platforms of the pipeline parse and none of its export paths
    cleans to the root directory - which the validator does not exclude. *)
Theorem plan_accepted p fopts wctx cond path opts range
  (Hwf : well_formed p) (Hrange : ranges range) (Hsel : select fopts wctx p = Ok cond) :
  (Pipeline.Jobs (ConditionResult.Pipeline cond) = [] \/ well_formed (ConditionResult.Pipeline cond)) /\
  (forall r jobs, compile path opts cond = Ok (r, jobs) ->
     shape jobs ≡ₚ pipeline_shape (ConditionResult.Pipeline cond) /\
     buildDAG range jobs = Ok (initial_nodes jobs)) /\
  (marshals -> env_fine p -> exists r jobs, compile path opts cond = Ok (r, jobs)).
Proof.
  destruct (proj1 (well_formed_sound p) Hwf) as [_ Hs].
  destruct (select_sound _ _ _ _ Hs Hsel) as (Hq & Ht & Henv'). split_and!.
  { destruct (decide (Pipeline.Jobs (ConditionResult.Pipeline cond) = [])) as [|Hne]; [by left|right].
    by apply well_formed_sound. }
  { intros r jobs Hc. by eapply compile_accepted. }
  intros Hmarshal Henv. specialize (Henv' Henv). set (q := ConditionResult.Pipeline cond) in *. destruct (decide (Pipeline.Jobs q = [])) as [Hnil|Hne].
  { exists (empty_result q), []. unfold compile, Build, build_order. fold q. by rewrite Ht, Hnil. }
  destruct (well_formed_sorts q (proj2 (well_formed_sound q) (conj Hne Hq))) as [order Ho].
  assert (exists q', ValidatePipeline (Some q) = Ok (q', order)) as [q' Hv].
  { eexists. apply ValidatePipeline_Ok. split_and!; [|done|done]. by apply well_formed_sound. }
  destruct (validated_env _ _ _ Hv Henv') as [Hplat' Hexp'].
  destruct (Build_Ok q q' order opts Hv Hmarshal Hplat' Hexp') as (r & Hr & Hn).
  exists r. apply (compile_total path opts cond r order); [done| |].
  - change (Build q opts = Ok r). by rewrite (Build_validates q q' order opts Ht Hne Hv).
  - rewrite Hn. by apply (validated_shape _ _ _ Hv).
Qed.
End plan.

(** ** Witness *)

Definition ex_when (text : string) : option When.t := Some (When.mk text false None).

(** [c] is skipped, so [d] loses a dependency; [e] is not selected. *)
Definition ex_pipeline : Pipeline.t :=
  let job n deps w := Job.empty n <| Job.Image := "alpine" |> <| Job.DependsOn := deps |> <| Job.When := w |>
                        <| Job.Steps := [Step.empty "s" <| Step.Run := ["make"] |>] |> in
  Pipeline.mk "p" [job "d" ["a"; "c"] None; job "a" [] None; job "c" ["a"] (ex_when "false"); job "e" ["d"] None] [] [] None None None.

Definition ex_valid : Pipeline.t :=
  match ValidatePipeline (cel := Conditional.ex_cel) (Some ex_pipeline) with Ok (p, _) => p | Fail _ => ex_pipeline end.

Definition ex_selected : ConditionResult.t :=
  match select (cel := Conditional.ex_cel) (FilterOpts.mk "" "d") (Context.mk None "main" "" ∅ ∅) ex_valid with
  | Ok c => c
  | Fail _ => ConditionResult.mk ex_valid [] ∅
  end.

Lemma ex_valid_well_formed : well_formed (cel := Conditional.ex_cel) ex_valid.
Proof.
  assert (exists order, ValidatePipeline (cel := Conditional.ex_cel) (Some ex_pipeline) = Ok (ex_valid, order)) as [order Hv]
    by (eexists; vm_compute; reflexivity).
  apply ValidatePipeline_again in Hv. by apply ValidatePipeline_Ok in Hv as [Hwf _].
Qed.

Lemma ex_env_fine : env_fine (H0 := ex_platforms) ex_valid.
Proof.
  split; [intros j _ _; by eexists|].
  assert (Forall (fun j => collectExports j = []) (Pipeline.Jobs ex_valid)) as Hall by (vm_compute; repeat constructor).
  intros j e Hj He. rewrite Forall_forall in Hall. rewrite (Hall j Hj) in He. by apply elem_of_nil in He.
Qed.

Lemma plan_accepted_witness :
  exists r jobs,
    compile (ops := ex_ops) (cel := Conditional.ex_cel) "ci.kdl" ex_opts ex_selected = Ok (r, jobs) /\
    shape jobs ≡ₚ [("d", ["a"]); ("a", [])] /\
    buildDAG (fun nodes => (map_to_list nodes).*1) jobs = Ok (initial_nodes jobs).
Proof.
  refine (match plan_accepted (ops := ex_ops) (cel := Conditional.ex_cel) ex_valid (FilterOpts.mk "" "d")
    (Context.mk None "main" "" ∅ ∅) ex_selected "ci.kdl" ex_opts (fun nodes => (map_to_list nodes).*1) ex_valid_well_formed _ _ with
    conj _ (conj Hof Hok) => match Hok ex_marshals ex_env_fine with
      ex_intro _ r (ex_intro _ jobs Hc) => ex_intro _ r (ex_intro _ jobs (conj Hc (Hof r jobs Hc))) end end);
    [intros nodes; done|vm_compute; reflexivity].
Defined.
