(* ===== verification/Images.v ===== *)
(** * Images in the BuildKit cache (imagestore/imagestore.go)

    Pulling an image and checking whether it is cached both solve a minimal definition and
    read the status updates of the solve.  A solve is described by the updates it sends
    before it closes the channel, and by the error it returns. *)

From S2P Require Import Prelude Errors GoStrings Regex Conditional Model Progress.

(** ** The outside *)

Record image_world : Type := ImageWorld {
  i_Marshal : string -> option error;
  i_Solve : string -> list SolveStatus.t * option error;
  IsNotFound : error -> bool;
  IsUnauthorized : error -> bool;
  IsPermissionDenied : error -> bool
}.

Section images.
Variable w : image_world.

(** ** Pulling *)

(** The messages of one pull.  [forwarded] is the number of updates the bridge forwards before
    it sees a cancellation and drains the rest, [None] when there is none. *)
Definition pull_msgs (forwarded : option nat) (ref : string) : list msg :=
  let displayName := "pull " +:+ ref in
  let sent := match forwarded with Some k => take k (i_Solve w ref).1 | None => (i_Solve w ref).1 end in
  [JobAddedMsg displayName None ∅] ++ (JobStatusMsg displayName <$> sent) ++ [JobDoneMsg displayName].

Definition pullImage (forwarded : option nat) (ref : string) : option error * list msg :=
  match i_Marshal w ref with
  | Some e => (Some (errorf [] e), [])
  | None => (errorf [] <$> (i_Solve w ref).2, pull_msgs forwarded ref)
  end.

(** One goroutine per image; [g.Wait] returns the error of the first of them that fails.
    [finished] lists what the goroutines return in the order in which they do. *)
Definition PullImages (finished : list (string * option error)) : option error :=
  head (omap (fun f : string * option error => errorf [f.1] <$> f.2) finished).

(** ** Checking *)

(** One vertex of an update: a digest that was reported cached once stays cached. *)
Definition cached_step (vertices : gmap string bool) (v : Vertex.t) : gmap string bool :=
  if Vertex.Cached v then <[Vertex.Digest v := true]> vertices
  else match vertices !! Vertex.Digest v with
       | Some _ => vertices
       | None => <[Vertex.Digest v := false]> vertices
       end.

Definition collectVertexCachedStates (ch : list SolveStatus.t) (vertices : gmap string bool) : gmap string bool :=
  foldl (fun vs s => foldl cached_step vs (SolveStatus.Vertexes s)) vertices ch.

Definition isImageNotFoundErr (e : error) : bool := IsNotFound w e || IsUnauthorized w e || IsPermissionDenied w e.

Definition isImageCached (ref : string) : result bool :=
  match i_Marshal w ref with
  | Some e => Fail (errorf [] e)
  | None =>
      let '(ch, err) := i_Solve w ref in
      let vertices := collectVertexCachedStates ch ∅ in
      match err with
      | Some e => if isImageNotFoundErr e then Ok false else Fail (errorf [] e)
      | None => Ok (negb (bool_decide (size vertices = 0)) && forallb snd (map_to_list vertices))
      end
  end.

Definition check_step (missing : list string) (ref : string) : result (list string) :=
  cached ← map_err (errorf [ref]) (isImageCached ref);
  Ok (if (cached : bool) then missing else missing ++ [ref]).

Definition CheckCached (images : list string) : result (list string) := foldM check_step [] images.

(** ** What is cached *)

(** All vertices that a solve reported, in order. *)
Definition reported (ch : list SolveStatus.t) : list Vertex.t := ch ≫= SolveStatus.Vertexes.

Lemma collect_flat ch m : collectVertexCachedStates ch m = foldl cached_step m (reported ch).
Proof.
  unfold collectVertexCachedStates, reported. revert m. induction ch as [|s ch IH]; intros m; [done|].
  cbn [foldl mbind list_bind]. by rewrite foldl_app, IH.
Qed.

Lemma collect_lookup vs d b :
  foldl cached_step ∅ vs !! d = Some b <->
  (exists v, v ∈ vs /\ Vertex.Digest v = d) /\
  b = bool_decide (Exists (fun v => Vertex.Digest v = d /\ Vertex.Cached v = true) vs).
Proof.
  revert b. induction vs as [|v vs IH] using rev_ind; intros b.
  { cbn. rewrite lookup_empty. split; [done|]. intros [(v & Hv & _) _]. by apply elem_of_nil in Hv. }
  rewrite foldl_snoc. unfold cached_step at 1. set (m := foldl cached_step ∅ vs) in *.
  assert (Exists (fun v => Vertex.Digest v = d /\ Vertex.Cached v = true) (vs ++ [v]) <->
    Exists (fun v => Vertex.Digest v = d /\ Vertex.Cached v = true) vs \/ (Vertex.Digest v = d /\ Vertex.Cached v = true)) as Hex.
  { rewrite Exists_app, Exists_cons, Exists_nil. tauto. }
  assert ((exists v', v' ∈ vs ++ [v] /\ Vertex.Digest v' = d) <->
    (exists v', v' ∈ vs /\ Vertex.Digest v' = d) \/ Vertex.Digest v = d) as Hin.
  { split.
    - intros (v' & [Hv'|Hv']%elem_of_app & Hd); [left; by exists v'|]. apply list_elem_of_singleton in Hv' as ->. by right.
    - intros [(v' & Hv' & Hd)|Hd]; [exists v'|exists v]; rewrite elem_of_app; split; auto. right. by apply list_elem_of_singleton. }
  rewrite Hin, (bool_decide_ext _ _ Hex).
  destruct (decide (Vertex.Digest v = d)) as [Hd|Hd].
  - subst d. destruct (Vertex.Cached v) eqn:Hc.
    + rewrite lookup_insert_eq, bool_decide_true by auto. naive_solver.
    + assert (bool_decide (Exists (fun v' => Vertex.Digest v' = Vertex.Digest v /\ Vertex.Cached v' = true) vs \/
        Vertex.Digest v = Vertex.Digest v /\ false = true) =
        bool_decide (Exists (fun v' => Vertex.Digest v' = Vertex.Digest v /\ Vertex.Cached v' = true) vs)) as ->
        by (apply bool_decide_ext; naive_solver).
      destruct (m !! Vertex.Digest v) as [b0|] eqn:Hm.
      * rewrite Hm. destruct (proj1 (IH b0) eq_refl) as [Hx ->]. split; [intros [= <-]; auto|intros [_ ->]; done].
      * rewrite lookup_insert_eq. assert (~ Exists (fun v' => Vertex.Digest v' = Vertex.Digest v /\ Vertex.Cached v' = true) vs) as Hno.
        { intros He. apply Exists_exists in He as (v' & Hv' & Hdv & _).
          discriminate (proj2 (IH _) (conj (ex_intro _ v' (conj Hv' Hdv)) eq_refl)). }
        rewrite (bool_decide_false _ Hno). naive_solver.
  - assert ((if Vertex.Cached v then <[Vertex.Digest v := true]> m
      else match m !! Vertex.Digest v with Some _ => m | None => <[Vertex.Digest v := false]> m end) !! d = m !! d) as ->.
    { destruct (Vertex.Cached v); [by rewrite lookup_insert_ne|]. destruct (m !! Vertex.Digest v); [done|by rewrite lookup_insert_ne]. }
    rewrite IH. assert (bool_decide (Exists (fun v' => Vertex.Digest v' = d /\ Vertex.Cached v' = true) vs \/
        Vertex.Digest v = d /\ Vertex.Cached v = true) =
      bool_decide (Exists (fun v' => Vertex.Digest v' = d /\ Vertex.Cached v' = true) vs)) as ->
      by (apply bool_decide_ext; naive_solver). naive_solver.
Qed.

(** An image is cached when its solve succeeds, reports at least one vertex, and every
    digest that it reports is reported cached at some point. *)
Definition cached_image (ref : string) : Prop :=
  i_Marshal w ref = None /\ (i_Solve w ref).2 = None /\ reported (i_Solve w ref).1 <> [] /\
  forall v, v ∈ reported (i_Solve w ref).1 ->
    exists v', v' ∈ reported (i_Solve w ref).1 /\ Vertex.Digest v' = Vertex.Digest v /\ Vertex.Cached v' = true.

Lemma all_cached_spec vs :
  negb (bool_decide (size (foldl cached_step ∅ vs) = 0)) && forallb snd (map_to_list (foldl cached_step ∅ vs)) = true <->
  vs <> [] /\ forall v, v ∈ vs -> exists v', v' ∈ vs /\ Vertex.Digest v' = Vertex.Digest v /\ Vertex.Cached v' = true.
Proof.
  set (m := foldl cached_step ∅ vs).
  assert (size m = 0 <-> vs = []) as Hsize.
  { rewrite map_size_empty_iff. split; [|by intros ->]. intros Hm. destruct vs as [|v vs]; [done|]. exfalso.
    pose proof (proj2 (collect_lookup (v :: vs) (Vertex.Digest v) _) (conj (ex_intro _ v (conj (list_elem_of_here _ _) eq_refl)) eq_refl)) as Hl.
    fold m in Hl. by rewrite Hm, lookup_empty in Hl. }
  rewrite andb_true_iff, negb_true_iff, bool_decide_eq_false, Hsize, forallb_forall. split; intros [Hne H]; (split; [done|]).
  - intros v Hv. pose proof (proj2 (collect_lookup vs (Vertex.Digest v) _) (conj (ex_intro _ v (conj Hv eq_refl)) eq_refl)) as Hl.
    fold m in Hl. specialize (H (_, _) (proj1 (list_elem_of_In _ _) (proj2 (elem_of_map_to_list m _ _) Hl))). cbn in H.
    apply bool_decide_eq_true, Exists_exists in H as (v' & Hv' & Hd & Hc). by exists v'.
  - intros [d b] Hin%list_elem_of_In%elem_of_map_to_list. apply collect_lookup in Hin as [(v & Hv & <-) ->]. cbn.
    apply bool_decide_eq_true, Exists_exists. destruct (H v Hv) as (v' & Hv' & Hd & Hc). by exists v'.
Qed.

Lemma isImageCached_true ref : isImageCached ref = Ok true <-> cached_image ref.
Proof.
  unfold isImageCached, cached_image. destruct (i_Marshal w ref); [naive_solver|].
  destruct (i_Solve w ref) as [ch [e|]]; cbn -[size]; [destruct (isImageNotFoundErr e); naive_solver|].
  rewrite collect_flat. pose proof (all_cached_spec (reported ch)) as Ha. split.
  - intros Ht. injection Ht as Ht. split; [done|]. split; [done|]. by apply Ha.
  - intros (_ & _ & H). f_equal. by apply Ha.
Qed.

Lemma isImageCached_Fail ref e :
  isImageCached ref = Fail e ->
  exists e', i_Marshal w ref = Some e' \/ (i_Solve w ref).2 = Some e' /\ isImageNotFoundErr e' = false.
Proof.
  unfold isImageCached. destruct (i_Marshal w ref) as [e'|]; [by exists e'; left|].
  destruct (i_Solve w ref) as [ch [e'|]]; cbn -[size]; [|done].
  destruct (isImageNotFoundErr e') eqn:Hn; [done|]. exists e'. by right.
Qed.

Lemma CheckCached_result images :
  match CheckCached images with
  | Ok missing => missing `sublist_of` images /\ forall ref, ref ∈ images -> ref ∉ missing <-> cached_image ref
  | Fail _ => exists ref e, ref ∈ images /\
      (i_Marshal w ref = Some e \/ (i_Solve w ref).2 = Some e /\ isImageNotFoundErr e = false)
  end.
Proof.
  unfold CheckCached. induction images as [|ref images IH] using rev_ind.
  { split; [done|]. by intros ref ?%elem_of_nil. }
  rewrite foldM_app. destruct (foldM check_step [] images) as [missing|e]; cbn [mbind res_bind foldM].
  2: { destruct IH as (r & e' & Hr & H). exists r, e'. split; [|done]. apply elem_of_app. by left. }
  destruct IH as [Hsub Hiff]. unfold check_step. destruct (isImageCached ref) as [b|e] eqn:Hb; cbn [mbind res_bind map_err].
  2: { destruct (isImageCached_Fail _ _ Hb) as (e' & He). exists ref, e'. split; [|done]. apply elem_of_app. right. by left. }
  assert (b = true <-> cached_image ref) as Hc by (rewrite <- isImageCached_true, Hb; naive_solver).
  split.
  - destruct b; [by apply sublist_inserts_r|]. by apply sublist_app.
  - intros r Hr. assert (r ∈ images \/ r = ref) as Hr' by (rewrite elem_of_app, list_elem_of_singleton in Hr; done).
    assert (r ∈ missing -> r ∈ images) as Hin by (intros ?; by eapply elem_of_sublist).
    assert (r ∈ images -> cached_image r -> r ∉ missing) as H1 by (intros ? ?; by apply Hiff).
    assert (r ∈ images -> r ∉ missing -> cached_image r) as H2 by (intros ? ?; by apply Hiff).
    destruct b; [destruct Hr' as [Hr'| ->]; intuition|]. rewrite elem_of_app, list_elem_of_singleton.
    assert (~ cached_image ref) by (intros ?; by apply diff_true_false; symmetry; apply Hc).
    destruct Hr' as [Hr'| ->]; intuition congruence.
Qed.

(** The offline check finds exactly the images that are missing.  When [CheckCached]
    returns a list, it is a selection of the given images in their order, and an image is
    left out of it only if solving it succeeded and every vertex digest the solve reported
    was reported as cached by one of its updates; it fails only when an image's definition
    does not marshal or its solve fails for another reason than that the image cannot be
    found or accessed. *)
Theorem CheckCached_spec images :
  match CheckCached images with
  | Ok missing => missing `sublist_of` images /\ forall ref, ref ∈ images -> ref ∉ missing <-> cached_image ref
  | Fail _ => exists ref e, ref ∈ images /\
      (i_Marshal w ref = Some e \/ (i_Solve w ref).2 = Some e /\ isImageNotFoundErr e = false)
  end.
Proof. apply CheckCached_result. Qed.
End images.

(** ** An example *)

Example ex_pull :
  let w := ImageWorld (fun _ => None) (fun _ => ([SolveStatus.mk [] [] []], None)) (fun _ => true) (fun _ => false) (fun _ => false) in
  pullImage w None "alpine" = (None, [JobAddedMsg "pull alpine" None ∅; JobStatusMsg "pull alpine" (SolveStatus.mk [] [] []); JobDoneMsg "pull alpine"]).
Proof. reflexivity. Qed.
