(* ===== verification/Trace.v ===== *)
(** * Tracing (tracing/tracing.go, vertex.go)

    [Setup] opens the configured span exporters and releases them again on every error;
    [Observer] turns the status updates of a job into spans, one per run of a vertex.  The
    OpenTelemetry libraries are the results of their constructors; what the program does to
    them is a list of events. *)

From S2P Require Import Prelude Errors GoStrings Regex Conditional Model Progress.

(** ** Exporters *)

Record Config : Type := TraceConfig { Endpoint : string; File : string; Stdout : bool }.

Inductive grpc_opt : Type := WithEndpointURL (url : string) | WithEndpoint (addr : string) | WithInsecure | WithTimeout (d : Z).

Inductive exporter : Type := OtlpExporter (opts : list grpc_opt) | FileExporter (path : string) | StderrExporter.

Record trace_env : Type := TraceEnv {
  otlp_New : list grpc_opt -> option error;
  OpenFile : string -> option error;
  stdouttrace_New : exporter -> option error;
  resource_New : option error
}.

(** What happens to a resource. *)
Inductive resource_event : Type :=
  | Created (x : exporter)
  | Opened (path : string)
  | ShutDown (x : exporter)
  | Closed (path : string).

Record resources : Type := Resources { exporters : list exporter; files : list string; events : list resource_event }.

Definition closeFiles (r : resources) : resources :=
  Resources (exporters r) (files r) (events r ++ (Closed <$> files r)).

(** [failWith]; the error path of [Setup] does the same. *)
Definition release (r : resources) : resources :=
  closeFiles (Resources (exporters r) (files r) (events r ++ (ShutDown <$> exporters r))).

Definition add_exporter (x : exporter) (new : option error) (r : resources) : option error * resources :=
  match new with
  | Some e => (Some (errorf [] e), release r)
  | None => (None, Resources (exporters r ++ [x]) (files r) (events r ++ [Created x]))
  end.

Definition endpoint_opts (endpoint : string) : list grpc_opt :=
  (if HasPrefix endpoint "http://" then [WithEndpointURL endpoint; WithInsecure]
   else if HasPrefix endpoint "https://" then [WithEndpointURL endpoint]
   else [WithEndpoint endpoint]) ++ [WithTimeout 10000000000].

Section setup.
Variables (env : trace_env) (cfg : Config).

Definition add_otlp (r : resources) : option error * resources :=
  if decide (Endpoint cfg = "") then (None, r) else
  let opts := endpoint_opts (Endpoint cfg) in
  add_exporter (OtlpExporter opts) (otlp_New env opts) r.

Definition add_file (r : resources) : option error * resources :=
  if decide (File cfg = "") then (None, r) else
  match OpenFile env (File cfg) with
  | Some e => (Some (errorf [File cfg] e), release r)
  | None =>
      let r := Resources (exporters r) (files r ++ [File cfg]) (events r ++ [Opened (File cfg)]) in
      add_exporter (FileExporter (File cfg)) (stdouttrace_New env (FileExporter (File cfg))) r
  end.

Definition add_stderr (r : resources) : option error * resources :=
  if Stdout cfg then add_exporter StderrExporter (stdouttrace_New env StderrExporter) r else (None, r).

Definition buildExporters : option error * resources :=
  match add_otlp (Resources [] [] []) with
  | (Some e, r) => (Some e, r)
  | (None, r) => match add_file r with
    | (Some e, r) => (Some e, r)
    | (None, r) => add_stderr r
    end
  end.

(** The error, whether the tracer records, and the resources. *)
Definition Setup : option error * bool * resources :=
  match buildExporters with
  | (Some e, r) => (Some (errorf [] e), false, r)
  | (None, r) =>
      if decide (exporters r = []) then (None, false, r) else
      match resource_New env with
      | Some e => (Some (errorf [] e), false, release r)
      | None => (None, true, r)
      end
  end.

(** The shutdown function that [Setup] returned: the provider shuts its exporters down. *)
Definition shutdown (s : option error * bool * resources) : resources :=
  let '(_, recording, r) := s in if recording then release r else r.

End setup.

Definition created (es : list resource_event) : list exporter := omap (fun e => match e with Created x => Some x | _ => None end) es.
Definition shut (es : list resource_event) : list exporter := omap (fun e => match e with ShutDown x => Some x | _ => None end) es.
Definition opened (es : list resource_event) : list string := omap (fun e => match e with Opened p => Some p | _ => None end) es.
Definition closed (es : list resource_event) : list string := omap (fun e => match e with Closed p => Some p | _ => None end) es.

(** Nothing is released yet, or everything is. *)
Definition held (r : resources) : Prop :=
  created (events r) = exporters r /\ opened (events r) = files r /\ shut (events r) = [] /\ closed (events r) = [].
Definition released (r : resources) : Prop :=
  shut (events r) = created (events r) /\ closed (events r) = opened (events r).

Lemma release_views (xs : list exporter) (ps : list string) :
  (created (ShutDown <$> xs) = [] /\ opened (ShutDown <$> xs) = [] /\ shut (ShutDown <$> xs) = xs /\ closed (ShutDown <$> xs) = []) /\
  (created (Closed <$> ps) = [] /\ opened (Closed <$> ps) = [] /\ shut (Closed <$> ps) = [] /\ closed (Closed <$> ps) = ps).
Proof.
  split; [induction xs as [|x xs (IH1 & IH2 & IH3 & IH4)]|induction ps as [|p ps (IH1 & IH2 & IH3 & IH4)]]; try done;
    unfold created, opened, shut, closed in *; cbn; split_and!; congruence.
Qed.

Lemma release_released r : held r -> released (release r).
Proof.
  intros (Hc & Ho & Hs & Hcl). destruct (release_views (exporters r) (files r)) as ((H1 & H2 & H3 & H4) & H5 & H6 & H7 & H8).
  unfold released, release, closeFiles, created, shut, opened, closed in *. cbn [events exporters files].
  rewrite !omap_app, Hc, Ho, Hs, Hcl, H1, H2, H3, H4, H5, H6, H7, H8. by rewrite !app_nil_r.
Qed.

(** What a constructor step does to resources that are held. *)
Definition outcome_ok (o : option error * resources) : Prop :=
  match o with
  | (None, r) => held r /\ (exporters r = [] -> files r = [])
  | (Some _, r) => released r
  end.
Definition step_ok (f : resources -> option error * resources) : Prop :=
  forall r, outcome_ok (None, r) -> outcome_ok (f r).

Lemma add_exporter_ok x new r : held r -> outcome_ok (add_exporter x new r).
Proof.
  intros Hr. unfold add_exporter, outcome_ok. destruct new as [e|]; [by apply release_released|].
  destruct Hr as (Hc & Ho & Hs & Hcl). unfold held, created, shut, opened, closed in *. cbn [events exporters files].
  rewrite !omap_app, Hc, Ho, Hs, Hcl. cbn. rewrite app_nil_r. split; [done|]. by destruct (exporters r).
Qed.

Section setup_ok.
Variables (env : trace_env) (cfg : Config).

Lemma add_otlp_ok : step_ok (add_otlp env cfg).
Proof. intros r Hr. unfold add_otlp. case_decide; [done|]. by apply add_exporter_ok, Hr. Qed.

Lemma add_file_ok : step_ok (add_file env cfg).
Proof.
  intros r Hr. unfold add_file. case_decide; [done|]. destruct (OpenFile env (File cfg)); [by apply release_released, Hr|].
  apply add_exporter_ok. destruct Hr as [Hr _]. destruct Hr as (Hc & Ho & Hs & Hcl). unfold held, created, shut, opened, closed in *.
  cbn [events exporters files]. rewrite !omap_app, Hc, Ho, Hs, Hcl. cbn. by rewrite app_nil_r.
Qed.

Lemma add_stderr_ok : step_ok (add_stderr env cfg).
Proof. intros r Hr. unfold add_stderr. destruct (Stdout cfg); [by apply add_exporter_ok, Hr|done]. Qed.

Lemma buildExporters_ok : outcome_ok (buildExporters env cfg).
Proof.
  unfold buildExporters. pose proof (add_otlp_ok (Resources [] [] []) ltac:(done)) as H1.
  destruct (add_otlp env cfg _) as [[e|] r1]; [done|]. pose proof (add_file_ok r1 H1) as H2.
  destruct (add_file env cfg r1) as [[e|] r2]; [done|]. by apply add_stderr_ok.
Qed.

(** Tracing never leaks.  Whatever fails - an exporter, the trace file, the resource -
    [Setup] has shut down every exporter it created and closed every file it opened before
    it returns the error; when it succeeds they are all still open, and the shutdown
    function it returns releases exactly those. *)
Theorem Setup_releases :
  let s := Setup env cfg in
  (s.1.2 = false -> released s.2) /\
  (s.1.2 = true -> s.1.1 = None /\ held s.2 /\ exporters s.2 <> []) /\
  released (shutdown s).
Proof.
  pose proof buildExporters_ok as H. unfold Setup, shutdown. destruct (buildExporters env cfg) as [[e|] r]; cbn in *; [done|].
  destruct H as [H Hf]. case_decide as He; cbn.
  - assert (released r) as Hr; [|by split_and!]. destruct H as (Hc & Ho & Hs & Hcl). unfold released.
    by rewrite Hc, Ho, Hs, Hcl, He, Hf.
  - destruct (resource_New env); cbn; split_and!; try done; intros; by apply release_released.
Qed.
End setup_ok.

(** ** The vertex observer *)

(** Spans are numbered in the order in which they are started. *)
Inductive span_event : Type :=
  | SpanStart (id : nat) (name digest : string) (cached : bool) (time : Z)
  | SpanError (id : nat) (description : string)
  | SpanEnd (id : nat) (time : option Z).

Record Observer : Type := MkObserver { inflight : gmap string nat; next_span : nat; spans : list span_event }.

Definition NewObserver : Observer := MkObserver ∅ 0 [].

Definition open_span (v : Vertex.t) (o : Observer) : Observer :=
  match Vertex.Started v, inflight o !! Vertex.Digest v with
  | Some t, None =>
      MkObserver (<[Vertex.Digest v := next_span o]> (inflight o)) (S (next_span o))
        (spans o ++ [SpanStart (next_span o) ("vertex/" +:+ Vertex.Name v) (Vertex.Digest v) (Vertex.Cached v) t])
  | _, _ => o
  end.

Definition close_span (v : Vertex.t) (o : Observer) : Observer :=
  match Vertex.Completed v, inflight o !! Vertex.Digest v with
  | Some t, Some id =>
      MkObserver (delete (Vertex.Digest v) (inflight o)) (next_span o)
        (spans o ++ (if decide (Vertex.Error v = "") then [] else [SpanError id (Vertex.Error v)]) ++ [SpanEnd id (Some t)])
  | _, _ => o
  end.

Definition Observe (o : Observer) (status : option SolveStatus.t) : Observer :=
  match status with
  | None => o
  | Some s => foldl (fun o v => close_span v (open_span v o)) o (SolveStatus.Vertexes s)
  end.

Definition flush_span (o : Observer) (p : string * nat) : Observer :=
  MkObserver (delete p.1 (inflight o)) (next_span o)
    (spans o ++ [SpanError p.2 "vertex did not complete"; SpanEnd p.2 None]).

(** [range] is the order in which Go yields the map. *)
Definition Flush (range : gmap string nat -> list (string * nat)) (o : Observer) : Observer :=
  foldl flush_span o (range (inflight o)).

(** *** Spans are balanced *)

Definition started (es : list span_event) : list nat := omap (fun e => match e with SpanStart id _ _ _ _ => Some id | _ => None end) es.
Definition ended (es : list span_event) : list nat := omap (fun e => match e with SpanEnd id _ => Some id | _ => None end) es.

(** Spans are started once; status and end concern a span that is open. *)
Definition event_ok (before : list span_event) (e : span_event) : Prop :=
  match e with
  | SpanStart id _ _ _ _ => id ∉ started before
  | SpanError id _ | SpanEnd id _ => id ∈ started before /\ id ∉ ended before
  end.

Definition ordered (es : list span_event) : Prop :=
  forall before e after, es = before ++ e :: after -> event_ok before e.

Lemma ordered_snoc es e : ordered es -> event_ok es e -> ordered (es ++ [e]).
Proof.
  intros Ho He before e' after Heq. destruct after as [|x after] using rev_ind.
  - apply app_inj_tail in Heq as [<- <-]. done.
  - rewrite app_comm_cons, app_assoc in Heq. apply app_inj_tail in Heq as [-> _]. by eapply Ho.
Qed.

Record balanced (o : Observer) : Prop := Balanced {
  b_ordered : ordered (spans o);
  b_started : started (spans o) = seq 0 (next_span o);
  b_ended : ended (spans o) ++ (map_to_list (inflight o)).*2 ≡ₚ seq 0 (next_span o)
}.

Lemma balanced_new : balanced NewObserver.
Proof. split; [|done|done]. intros before e after H. by destruct before. Qed.

Lemma open_balanced v o : balanced o -> balanced (open_span v o).
Proof.
  intros [Ho Hs He]. unfold open_span. destruct (Vertex.Started v) as [t|]; [|done].
  destruct (inflight o !! Vertex.Digest v) eqn:Hi; [done|]. split; cbn [inflight next_span spans].
  - apply ordered_snoc; [done|]. cbn. rewrite Hs, elem_of_seq. lia.
  - unfold started in *. rewrite omap_app, Hs, seq_S. done.
  - unfold ended in *. rewrite seq_S, <- He, omap_app, map_to_list_insert by done. cbn. rewrite app_nil_r. solve_Permutation.
Qed.

(** Ending an open span, with or without a status. *)
Lemma end_balanced o d id pre t :
  balanced o -> inflight o !! d = Some id -> (pre = [] \/ exists s, pre = [SpanError id s]) ->
  balanced (MkObserver (delete d (inflight o)) (next_span o) (spans o ++ pre ++ [SpanEnd id t])).
Proof.
  intros [Ho Hs He] Hi Hpre.
  assert (map_to_list (inflight o) ≡ₚ (d, id) :: map_to_list (delete d (inflight o))) as Hm.
  { rewrite <- map_to_list_insert by apply lookup_delete_eq. by rewrite insert_delete_id. }
  rewrite Hm in He. cbn in He.
  assert (NoDup (ended (spans o) ++ id :: (map_to_list (delete d (inflight o))).*2)) as Hnd
    by (rewrite He; apply NoDup_seq).
  assert (id ∈ started (spans o) /\ id ∉ ended (spans o)) as Hid.
  { split; [rewrite Hs, <- He; set_solver|]. apply NoDup_app in Hnd as (_ & Hd & _). set_solver. }
  split; cbn [inflight next_span spans].
  - destruct Hpre as [-> |[s ->]]; cbn [app]; [by apply ordered_snoc|].
    change (ordered (spans o ++ [SpanError id s] ++ [SpanEnd id t])). rewrite app_assoc. apply ordered_snoc; [by apply ordered_snoc|].
    cbn. unfold started, ended in *. rewrite !omap_app. cbn. by rewrite !app_nil_r.
  - unfold started in *. rewrite !omap_app, Hs. destruct Hpre as [-> |[s ->]]; cbn; by rewrite !app_nil_r.
  - unfold ended in *. rewrite !omap_app, <- He. destruct Hpre as [-> |[s ->]]; cbn; solve_Permutation.
Qed.

Lemma close_balanced v o : balanced o -> balanced (close_span v o).
Proof.
  intros Hb. unfold close_span. destruct (Vertex.Completed v) as [t|]; [|done].
  destruct (inflight o !! Vertex.Digest v) as [id|] eqn:Hi; [|done]. apply end_balanced; [done|done|].
  case_decide; [by left|]. right. by eexists.
Qed.

Lemma Observe_balanced o status : balanced o -> balanced (Observe o status).
Proof.
  destruct status as [s|]; [|done]. cbn. revert o. induction (SolveStatus.Vertexes s) as [|v vs IH]; intros o Hb; [done|].
  cbn. by apply IH, close_balanced, open_balanced.
Qed.

Lemma flush_all l o :
  balanced o -> l ≡ₚ map_to_list (inflight o) ->
  balanced (foldl flush_span o l) /\ inflight (foldl flush_span o l) = ∅ /\ next_span (foldl flush_span o l) = next_span o.
Proof.
  revert o. induction l as [|[d id] l IH]; intros o Hb Hl; cbn.
  - apply Permutation_nil_l in Hl. symmetry in Hl. by apply map_to_list_empty_iff in Hl.
  - assert (inflight o !! d = Some id) as Hi by (apply elem_of_map_to_list; rewrite <- Hl; by left).
    assert (map_to_list (inflight o) ≡ₚ (d, id) :: map_to_list (delete d (inflight o))) as Hm.
    { rewrite <- map_to_list_insert by apply lookup_delete_eq. by rewrite insert_delete_id. }
    rewrite Hm in Hl. apply Permutation_cons_inv in Hl.
    apply (IH (flush_span o (d, id))); [|exact Hl]. unfold flush_span. cbn [fst snd].
    apply (end_balanced o d id [SpanError id "vertex did not complete"] None); [done|done|]. right. by eexists.
Qed.

(** C36: The spans of a job are balanced.  However the updates of a job start, complete,
    repeat and fail its vertices, and in whatever order Go yields the map of open spans at
    the flush: after it no span is open; every span that was started has been ended, and
    ended once; a span is started before its status is set and before it ends, and nothing
    happens to it after it has ended. *)
Theorem spans_balanced range updates
  (Hrange : forall m, range m ≡ₚ map_to_list m) :
  let o := Flush range (foldl Observe NewObserver updates) in
  inflight o = ∅ /\ ordered (spans o) /\ NoDup (started (spans o)) /\ ended (spans o) ≡ₚ started (spans o).
Proof.
  cbv zeta. unfold Flush. set (o := foldl Observe NewObserver updates).
  assert (balanced o) as Hb.
  { unfold o. induction updates as [|u us IH] using rev_ind; [apply balanced_new|]. rewrite foldl_snoc. by apply Observe_balanced. }
  destruct (flush_all (range (inflight o)) o Hb (Hrange _)) as ([Ho Hs He] & Hi & _). rewrite Hi, map_to_list_empty, app_nil_r in He.
  split_and!; [done|done|by rewrite Hs; apply NoDup_seq|by rewrite Hs].
Qed.

(** A vertex whose completion is reported twice gets two spans: [Observe] forgets a span
    when it ends.  The cache statistics guard against this with a set of seen digests. *)
Lemma completed_twice :
  let v := Vertex.mk "sha256:1" "build/test/go test" (Some 1%Z) (Some 5%Z) false "" in
  let u := Some (SolveStatus.mk [v] [] []) in
  started (spans (Observe NewObserver u)) = [0] /\ started (spans (Observe (Observe NewObserver u) u)) = [0; 1].
Proof. split; reflexivity. Qed.

Lemma spans_balanced_witness :
  let v d b := Vertex.mk d "build/test/go test" (Some 1%Z) b false "" in
  let o := Flush map_to_list (foldl Observe NewObserver [Some (SolveStatus.mk [v "x" None; v "y" (Some 7%Z)] [] []); None]) in
  started (spans o) = [0; 1] /\ ended (spans o) ≡ₚ [0; 1].
Proof.
  cbv zeta. split; [vm_compute; reflexivity|].
  refine (proj2 (proj2 (proj2 (spans_balanced map_to_list [Some (SolveStatus.mk [Vertex.mk "x" "build/test/go test" (Some 1%Z) None false "";
    Vertex.mk "y" "build/test/go test" (Some 1%Z) (Some 7%Z) false ""] [] []); None] _)))). intros m. done.
Defined.
