(* ===== verification/Plain.v ===== *)
(** * The channel of a display and the plain display (progress/plain/plain.go, quiet.go)

    The plain and the quiet display own a channel of 64 messages, a goroutine that drains it
    and a [Shutdown] that closes it and waits.  The plain display writes what it receives to
    the log; this file also defines what it writes.  The interactive display puts a program
    behind the channel: it is in [Displays]. *)

From stdpp Require Import relations.
From S2P Require Import Prelude Errors GoStrings Regex Conditional Model Progress.

(** ** The channel *)

Definition capacity : nat := 64.

(** [consumed] is what the goroutine has taken, in order; [sent] what [Send] has accepted. *)
Record display : Type := MkDisplay {
  started : bool; closed : bool; done : bool; queue : list msg; consumed : list msg; sent : list msg
}.
#[global] Instance display_settable : Settable display :=
  fun r => MkDisplay (started r) (closed r) (done r) (queue r) (consumed r) (sent r).

Definition New : display := MkDisplay false false false [] [] [].

(** [Send] blocks while the channel is full and panics when it is closed; starting twice and
    shutting down twice change nothing. *)
Inductive step : display -> display -> Prop :=
  | Start d : step d (d <| started := true |>)
  | Send d m :
      closed d = false -> length (queue d) < capacity ->
      step d (d <| queue ::= fun q => q ++ [m] |> <| sent ::= fun l => l ++ [m] |>)
  | Consume d m q :
      started d = true -> done d = false -> queue d = m :: q ->
      step d (d <| queue := q |> <| consumed ::= fun l => l ++ [m] |>)
  | Close d : step d (d <| closed := true |>)
  | Exit d : started d = true -> closed d = true -> queue d = [] -> step d (d <| done := true |>).

(** [Shutdown] has returned: the channel is closed and the goroutine, if any, has ended. *)
Definition shut_down (d : display) : Prop := closed d = true /\ (started d = true -> done d = true).

Definition channel_inv (d : display) : Prop :=
  sent d = consumed d ++ queue d /\ length (queue d) <= capacity /\
  (done d = true -> queue d = [] /\ closed d = true /\ started d = true) /\ (started d = false -> consumed d = []).

Lemma channel_step d d' : channel_inv d -> step d d' -> channel_inv d'.
Proof.
  intros (Hs & Hl & Hd & Hn) Hstep. destruct Hstep as [d|d m Hc Hlt|d m q Hst Hdn Hq|d|d Hst Hc Hq]; unfold channel_inv; cbn.
  - split_and!; [done|done| |done]. intros H. by destruct (Hd H) as (? & ? & _).
  - split_and!; [by rewrite Hs, app_assoc|rewrite length_app; cbn; lia| |done]. intros H. destruct (Hd H) as (_ & H' & _). congruence.
  - rewrite Hq in *. cbn in Hl. split_and!; [by rewrite Hs, <- app_assoc|lia|congruence|congruence].
  - split_and!; [done|done| |done]. intros H. by destruct (Hd H) as (? & _ & ?).
  - split_and!; done.
Qed.

Lemma channel_reachable d : rtc step New d -> channel_inv d.
Proof.
  intros H. assert (channel_inv New) as Hn by (unfold channel_inv, capacity; cbn; split_and!; (done || lia)).
  revert Hn. induction H as [|d1 d2 d3 H12 _ IH]; [done|]. intros Hi. apply IH. by eapply channel_step.
Qed.

(** What the channel promises of a display. *)
Record channel_kept (d : display) : Prop := ChannelKept {
  ck_order : consumed d `prefix_of` sent d;
  ck_all : shut_down d -> started d = true -> consumed d = sent d;
  ck_alive : started d = true -> done d = false ->
    (exists d', step d d' /\ (consumed d' <> consumed d \/ done d' = true)) \/
    (closed d = false /\ length (queue d) < capacity)
}.

Lemma channel_contract d : rtc step New d -> channel_kept d.
Proof.
  intros Hr. destruct (channel_reachable d Hr) as (Hs & Hl & Hd & _). split.
  - rewrite Hs. by apply prefix_app_r.
  - intros [_ Hdn] Hst. destruct (Hd (Hdn Hst)) as [Hq _]. by rewrite Hs, Hq, app_nil_r.
  - intros Hst Hdn. destruct (queue d) as [|m q] eqn:Hq.
    + destruct (closed d) eqn:Hc.
      * left. eexists. split; [by apply Exit|]. by right.
      * right. unfold capacity. cbn. split; [done|lia].
    + left. eexists. split; [by eapply Consume|]. left. cbn. intros H%(f_equal length). rewrite length_app in H. cbn in H. lia.
Qed.

Definition ex_display : display :=
  MkDisplay true true true [] [JobDoneMsg "a"; JobDoneMsg "b"] [JobDoneMsg "a"; JobDoneMsg "b"].

Lemma ex_display_reachable : rtc step New ex_display.
Proof.
  eapply rtc_l; [apply (Send _ (JobDoneMsg "a")); [done|unfold capacity; cbn; lia]|].
  eapply rtc_l; [apply Start|].
  eapply rtc_l; [apply (Send _ (JobDoneMsg "b")); [done|unfold capacity; cbn; lia]|].
  eapply rtc_l; [by eapply Consume|]. eapply rtc_l; [apply Close|].
  eapply rtc_l; [by eapply Consume|]. eapply rtc_l; [by apply Exit|]. apply rtc_refl.
Defined.

(** ** What the plain display logs *)

(** Levels of [log/slog]. *)
Definition LevelInfo : Z := 0.
Definition LevelWarn : Z := 4.
Definition LevelError : Z := 8.

Inductive attr : Type := AString (key value : string) | AInt (key : string) (n : Z) | ADuration (key : string) (d : Z).

Record entry : Type := Entry { e_level : Z; e_text : string; e_attrs : list attr }.

Inductive vertexState : Set := stateUnseen | stateStarted | stateDone.
#[global] Instance vertexState_eq_dec : EqDecision vertexState.
Proof. solve_decision. Defined.

(** [prev < _stateDone] and [prev < _stateStarted]. *)
Definition before_done (s : vertexState) : bool := match s with stateDone => false | _ => true end.
Definition before_started (s : vertexState) : bool := match s with stateUnseen => true | _ => false end.

Record timeoutVertex : Type := TimeoutVertex { tv_name : string; tv_timeout : Z }.

Module jobTracker.
Record t := mk {
  seen : gmap string vertexState;
  pending : gmap string timeoutVertex;
  stepTimeouts : gmap string Z;
  cmdInfos : gmap string CmdInfo.t
}.
#[global] Instance settable : Settable t := fun r => mk (seen r) (pending r) (stepTimeouts r) (cmdInfos r).
End jobTracker.

Definition newTracker : jobTracker.t := jobTracker.mk ∅ ∅ ∅ ∅.

(** [seen[digest]]: the zero value for a digest that is not there. *)
Definition state_of (jt : jobTracker.t) (digest : string) : vertexState := default stateUnseen (jobTracker.seen jt !! digest).

Section plain.
Variable ErrText : error -> string.
(** Whether the logger is enabled for debugging, and the order of a map range. *)
Variable debug : bool.
Variable range : gmap string timeoutVertex -> list (string * timeoutVertex).

Definition line (job rest : string) : string := "[" +:+ job +:+ "] " +:+ rest.

Definition appendDebugCmdAttr (attrs : list attr) (cmdInfos : gmap string CmdInfo.t) (vertexName : string) : list attr :=
  if debug then
    match cmdInfos !! vertexName with
    | Some ci => if decide (CmdInfo.FullCmd ci = "") then attrs else attrs ++ [AString "full_cmd" (CmdInfo.FullCmd ci)]
    | None => attrs
    end
  else attrs.

(** The line for one reported vertex, if any, and the new state of its digest. *)
Definition logVertex (job : string) (v : Vertex.t) (prev : vertexState) (cfgTimeout : Z) (cmdInfos : gmap string CmdInfo.t)
    : list entry * vertexState :=
  let name := Vertex.Name v in
  let base := [AString "job" job; AString "vertex" name] in
  if decide (Vertex.Error v <> "") then
    (if IsTimeoutExitCode (Vertex.Error v) cfgTimeout then
       [Entry LevelWarn (line job ("TIMEOUT " +:+ name)) (base ++ [AString "event" "vertex.timeout"; ADuration "timeout" cfgTimeout])]
     else
       let exitInfo := ExitInfo (Vertex.Error v) in
       [Entry LevelError (line job ("FAIL " +:+ name +:+ ": " +:+ exitInfo))
          (appendDebugCmdAttr (base ++ [AString "event" "vertex.error"; AString "error" exitInfo]) cmdInfos name)],
     stateDone)
  else if Vertex.Cached v && before_done prev then
    ([Entry LevelInfo (line job ("cached " +:+ name)) (base ++ [AString "event" "vertex.cached"])], stateDone)
  else if bool_decide (is_Some (Vertex.Completed v)) && before_done prev then
    let dur := match Vertex.Completed v, Vertex.Started v with
               | Some c, Some s => Round (time_Sub c s) Millisecond
               | _, _ => 0%Z
               end in
    ([Entry LevelInfo (line job ("done " +:+ name)) (base ++ [AString "event" "vertex.done"; ADuration "duration" dur])], stateDone)
  else if bool_decide (is_Some (Vertex.Started v)) && before_started prev then
    ([Entry LevelInfo (line job ("started " +:+ name))
        (base ++ [AString "event" "vertex.started"] ++ (if decide (0 < cfgTimeout)%Z then [ADuration "timeout" cfgTimeout] else []))],
     stateStarted)
  else ([], prev).

Definition trackTimeout (v : Vertex.t) (st : vertexState) (pending : gmap string timeoutVertex) (cfgTimeout : Z)
    : gmap string timeoutVertex :=
  if decide (cfgTimeout = 0%Z) then pending else
  match st with
  | stateStarted => <[Vertex.Digest v := TimeoutVertex (Vertex.Name v) cfgTimeout]> pending
  | stateDone => delete (Vertex.Digest v) pending
  | stateUnseen => pending
  end.

(** One vertex of a status message.  [logVertex] leaves [seen] alone in its last case. *)
Definition track_vertex (job : string) (acc : jobTracker.t * list entry) (v : Vertex.t) : jobTracker.t * list entry :=
  let '(jt, out) := acc in
  let cfgTimeout := default 0%Z (jobTracker.stepTimeouts jt !! Vertex.Name v) in
  let '(lines, st) := logVertex job v (state_of jt (Vertex.Digest v)) cfgTimeout (jobTracker.cmdInfos jt) in
  let jt := if decide (lines = []) then jt else jt <| jobTracker.seen ::= <[Vertex.Digest v := st]> |> in
  (jt <| jobTracker.pending ::= fun p => trackTimeout v (state_of jt (Vertex.Digest v)) p cfgTimeout |>, out ++ lines).

Definition logLogs (job : string) (logs : list VertexLog.t) : list entry :=
  logs ≫= fun l =>
    let msg := TrimSpace (VertexLog.Data l) in
    if decide (msg = "") then [] else
    [Entry LevelInfo (line job msg) [AString "event" "output"; AString "job" job; AString "data" msg]].

Definition logPendingTimeouts (job : string) (pending : gmap string timeoutVertex) : list entry :=
  (fun p : string * timeoutVertex =>
     Entry LevelWarn (line job ("TIMEOUT " +:+ tv_name p.2))
       [AString "job" job; AString "vertex" (tv_name p.2); AString "event" "vertex.timeout"; ADuration "timeout" (tv_timeout p.2)])
  <$> range pending.

Definition trackers : Type := gmap string jobTracker.t.

Definition getJob (jobs : trackers) (name : string) : jobTracker.t := default newTracker (jobs !! name).

(** One iteration of [consume]: the trackers and what is logged. *)
Definition consume (jobs : trackers) (m : msg) : trackers * list entry :=
  match m with
  | JobAddedMsg job timeouts cmds =>
      (<[job := getJob jobs job <| jobTracker.stepTimeouts := default ∅ timeouts |> <| jobTracker.cmdInfos := cmds |>]> jobs, [])
  | JobStatusMsg job s =>
      let '(jt, out) := foldl (track_vertex job) (getJob jobs job, []) (SolveStatus.Vertexes s) in
      (<[job := jt]> jobs, out ++ logLogs job (SolveStatus.Logs s))
  | JobDoneMsg job =>
      (jobs, match jobs !! job with Some jt => logPendingTimeouts job (jobTracker.pending jt) | None => [] end)
  | JobSkippedMsg job => (jobs, [Entry LevelInfo "job skipped" [AString "job" job; AString "event" "job.skipped"]])
  | StepSkippedMsg job step =>
      (jobs, [Entry LevelInfo "step skipped" [AString "job" job; AString "step" step; AString "event" "step.skipped"]])
  | JobRetryMsg job a n e =>
      (jobs, [Entry LevelWarn "retrying job"
                [AString "job" job; AInt "attempt" a; AInt "max_attempts" n; AString "error" (ErrText e); AString "event" "job.retry"]])
  | StepRetryMsg job step a n e =>
      (jobs, [Entry LevelWarn "retrying step"
                [AString "job" job; AString "step" step; AInt "attempt" a; AInt "max_attempts" n; AString "error" (ErrText e);
                 AString "event" "step.retry"]])
  | StepAllowedFailureMsg job step e =>
      (jobs, [Entry LevelWarn "step failed (allowed)"
                [AString "job" job; AString "step" step; AString "error" (ErrText e); AString "event" "step.allowed_failure"]])
  | JobTimeoutMsg job t =>
      (jobs, [Entry LevelWarn "job timed out" [AString "job" job; ADuration "timeout" t; AString "event" "job.timeout"]])
  | LogMsg job level text =>
      (jobs, [Entry level text (AString "event" "log" :: if decide (job = "") then [] else [AString "job" job])])
  | SyncMsg walked hashed hits =>
      (jobs, [Entry LevelInfo "context synced"
                [AInt "files" walked; AInt "hashed" hashed; AInt "cached" hits; AString "event" "sync.complete"]])
  | ErrorMsg e =>
      (jobs, [Entry LevelError (match e with Some d => Human d | None => "unknown error" end) [AString "event" "error"]])
  end.

Definition consume_all (jobs : trackers) (ms : list msg) : trackers * list entry :=
  foldl (fun acc m => let '(jobs, out) := consume acc.1 m in (jobs, acc.2 ++ out)) (jobs, []) ms.

End plain.

(** ** The life of a vertex *)

Section plain_props.
Variable debug : bool.

(** The lines of each reported vertex, with the vertex. *)
Fixpoint vertex_log (job : string) (jt : jobTracker.t) (vs : list Vertex.t) : list (Vertex.t * list entry) :=
  match vs with
  | [] => []
  | v :: vs =>
      let '(jt', out) := track_vertex debug job (jt, []) v in
      (v, out) :: vertex_log job jt' vs
  end.

Lemma track_vertex_out job jt out v :
  track_vertex debug job (jt, out) v =
  ((track_vertex debug job (jt, []) v).1, out ++ (track_vertex debug job (jt, []) v).2).
Proof. unfold track_vertex. by destruct (logVertex _ _ _ _ _ _). Qed.

Lemma vertex_log_spec job jt vs out :
  (foldl (track_vertex debug job) (jt, out) vs).2 = out ++ (vertex_log job jt vs ≫= snd).
Proof.
  revert jt out. induction vs as [|v vs IH]; intros jt out; [by rewrite app_nil_r|].
  cbn [foldl vertex_log]. rewrite track_vertex_out. destruct (track_vertex debug job (jt, []) v) as [jt' o].
  cbn [fst snd]. rewrite IH, bind_cons. cbn. by rewrite app_assoc.
Qed.

(** The name of the event that a line reports. *)
Definition event (e : entry) : string :=
  default "" (head (omap (fun a => match a with AString k v => if decide (k = "event") then Some v else None | _ => None end) (e_attrs e))).

(** What has been told about a digest, leaving out errors, and the state it leaves. *)
Definition told (s : vertexState) (l : list string) : Prop :=
  match s with
  | stateUnseen => l = []
  | stateStarted => l = ["vertex.started"]
  | stateDone => exists start fin, l = start ++ fin /\ (start = [] \/ start = ["vertex.started"]) /\
      (fin = [] \/ fin = ["vertex.done"] \/ fin = ["vertex.cached"])
  end.

Definition quiet_lines (d : string) (l : list (Vertex.t * list entry)) : list string :=
  (filter (fun p : Vertex.t * list entry => Vertex.Digest p.1 = d /\ Vertex.Error p.1 = "") l) ≫= fun p => event <$> p.2.

Lemma told_step job v prev t cmds l :
  told prev l ->
  told (logVertex debug job v prev t cmds).2
    (l ++ if decide (Vertex.Error v = "") then event <$> (logVertex debug job v prev t cmds).1 else []).
Proof.
  intros Hl. unfold logVertex. destruct (decide (Vertex.Error v = "")) as [He|He].
  2: { rewrite decide_True by done. cbn [snd]. rewrite app_nil_r. destruct prev; cbn in Hl.
    + subst. exists [], []. auto.
    + subst. exists ["vertex.started"], []. auto.
    + done. }
  rewrite decide_False by (intros H; by apply H).
  destruct (Vertex.Cached v && before_done prev) eqn:Hc; [|destruct (bool_decide (is_Some (Vertex.Completed v)) && before_done prev) eqn:Hd;
      [|destruct (bool_decide (is_Some (Vertex.Started v)) && before_started prev) eqn:Hs]]; cbn [fst snd fmap list_fmap].
  - apply andb_true_iff in Hc as [_ Hp]. destruct prev; cbn in *; subst; [exists [], ["vertex.cached"]|exists ["vertex.started"], ["vertex.cached"]|done]; auto.
  - apply andb_true_iff in Hd as [_ Hp]. destruct prev; cbn in *; subst; [exists [], ["vertex.done"]|exists ["vertex.started"], ["vertex.done"]|done]; auto.
  - apply andb_true_iff in Hs as [_ Hp]. destruct prev; cbn in *; by subst.
  - by rewrite app_nil_r.
Qed.

Lemma track_state job jt v d :
  state_of (track_vertex debug job (jt, []) v).1 d =
  if decide (Vertex.Digest v = d)
  then (logVertex debug job v (state_of jt d) (default 0%Z (jobTracker.stepTimeouts jt !! Vertex.Name v)) (jobTracker.cmdInfos jt)).2
  else state_of jt d.
Proof.
  unfold track_vertex. destruct (decide (Vertex.Digest v = d)) as [<-|Hne].
  - set (p := logVertex _ _ _ _ _ _). assert (p.1 = [] -> p.2 = state_of jt (Vertex.Digest v)) as Hp.
    { unfold p, logVertex. repeat case_match; cbn; done. }
    destruct p as [lines st]. cbn in *. unfold state_of at 1. cbn. case_decide as Hl; cbn.
    + symmetry. by apply Hp.
    + by rewrite lookup_insert_eq.
  - destruct (logVertex _ _ _ _ _ _) as [lines st]. unfold state_of. cbn. case_decide; cbn; [done|]. by rewrite lookup_insert_ne.
Qed.

Lemma quiet_cons d v o l :
  quiet_lines d ((v, o) :: l) =
  (if decide (Vertex.Digest v = d) then if decide (Vertex.Error v = "") then event <$> o else [] else []) ++ quiet_lines d l.
Proof.
  unfold quiet_lines. rewrite filter_cons. cbn [fst]. destruct (decide (Vertex.Digest v = d /\ Vertex.Error v = "")) as [[H1 H2]|H].
  - by rewrite !decide_True, bind_cons by done.
  - destruct (decide (Vertex.Digest v = d)), (decide (Vertex.Error v = "")); try done. tauto.
Qed.

Lemma told_all job d vs jt l :
  told (state_of jt d) l ->
  told (state_of (foldl (fun jt v => (track_vertex debug job (jt, []) v).1) jt vs) d) (l ++ quiet_lines d (vertex_log job jt vs)).
Proof.
  revert jt l. induction vs as [|v vs IH]; intros jt l Hl; [by rewrite app_nil_r|].
  cbn [foldl vertex_log]. pose proof (track_state job jt v d) as Hst.
  destruct (track_vertex debug job (jt, []) v) as [jt' o] eqn:Ht. cbn [fst] in *. rewrite quiet_cons, app_assoc. apply IH. rewrite Hst.
  destruct (decide (Vertex.Digest v = d)) as [<-|]; [|by rewrite app_nil_r].
  assert (o = (logVertex debug job v (state_of jt (Vertex.Digest v)) (default 0%Z (jobTracker.stepTimeouts jt !! Vertex.Name v)) (jobTracker.cmdInfos jt)).1) as ->.
  { unfold track_vertex in Ht. destruct (logVertex _ _ _ _ _ _) as [lines st]. by injection Ht as _ <-. }
  by apply told_step.
Qed.

Lemma error_logged job jt vs :
  Forall (fun p : Vertex.t * list entry => Vertex.Error p.1 <> "" -> exists e, p.2 = [e]) (vertex_log job jt vs).
Proof.
  revert jt. induction vs as [|v vs IH]; intros jt; [done|]. cbn [vertex_log].
  destruct (track_vertex debug job (jt, []) v) as [jt' o] eqn:Ht. constructor; [|apply IH]. cbn. intros He.
  unfold track_vertex, logVertex in Ht. rewrite decide_True in Ht by done. destruct (IsTimeoutExitCode _ _); injection Ht as _ <-; by eexists.
Qed.

(** C35: The plain display tells the life of a vertex once.  Whatever status updates a job
    gets - BuildKit repeats vertices - what is logged for the reports without an error of
    one digest is at most one "started" line followed by at most one "done" or "cached"
    line; every report with an error is logged, in one line; and nothing else is logged for
    the vertices of a status message. *)
Theorem vertex_lifecycle job jt vs d
  (Hnew : state_of jt d = stateUnseen) :
  (foldl (track_vertex debug job) (jt, []) vs).2 = vertex_log job jt vs ≫= snd /\
  (exists start fin, quiet_lines d (vertex_log job jt vs) = start ++ fin /\
     (start = [] \/ start = ["vertex.started"]) /\ (fin = [] \/ fin = ["vertex.done"] \/ fin = ["vertex.cached"])) /\
  Forall (fun p : Vertex.t * list entry => Vertex.Error p.1 <> "" -> exists e, p.2 = [e]) (vertex_log job jt vs).
Proof.
  split; [apply vertex_log_spec|]. split; [|apply error_logged].
  pose proof (told_all job d vs jt [] ltac:(by rewrite Hnew)) as H. cbn [app] in H. unfold told in H.
  clear Hnew. destruct (state_of _ d); [exists [], []|exists ["vertex.started"], []|done]; (split; [exact H|auto]).
Qed.
End plain_props.

(** ** Examples *)

Definition ex_vertex (completed : option Z) (err : string) : Vertex.t :=
  Vertex.mk "sha256:1" "build/test/go test" (Some 0%Z) completed false err.

Lemma vertex_lifecycle_witness :
  exists start fin,
    quiet_lines "sha256:1" (vertex_log false "build" newTracker
      [ex_vertex None EmptyString; ex_vertex None EmptyString; ex_vertex (Some 5%Z) EmptyString; ex_vertex (Some 5%Z) EmptyString]) = start ++ fin /\
    (start = [] \/ start = ["vertex.started"]) /\ (fin = [] \/ fin = ["vertex.done"] \/ fin = ["vertex.cached"]).
Proof.
  refine (proj1 (proj2 (vertex_lifecycle false "build" newTracker
    [ex_vertex None EmptyString; ex_vertex None EmptyString; ex_vertex (Some 5%Z) EmptyString; ex_vertex (Some 5%Z) EmptyString] "sha256:1" _))).
  reflexivity.
Defined.

(** The states survive a retry of the job, and a retried vertex keeps its digest: a vertex
    that failed once is never reported as done, although the retry succeeds. *)
Lemma retried_success_not_logged :
  let status v := JobStatusMsg "build" (SolveStatus.mk [v] [] []) in
  let run ms := event <$> (consume_all (fun _ => EmptyString) false map_to_list ∅ ms).2 in
  run [JobAddedMsg "build" None ∅; status (ex_vertex None "exit code: 1"); JobDoneMsg "build";
       JobRetryMsg "build" 2 2 (raise (Foreign "exit")); JobAddedMsg "build" None ∅; status (ex_vertex (Some 5%Z) EmptyString); JobDoneMsg "build"]
  = ["vertex.error"; "job.retry"].
Proof. vm_compute. reflexivity. Qed.
