(* ===== verification/Displays.v ===== *)
(** * What a display promises (progress/progressmodel: Display; progress/tui/tui.go)

    The plain and the quiet display process what they take from their channel.  The
    interactive one forwards it to a Bubble Tea program, which runs the model of [Tui] and
    may end on its own account: the user presses ctrl+c, or the context is cancelled.  The
    forwarding goroutine goes on then, and its messages are lost.  This file models that
    display and states the contract of all three. *)

From stdpp Require Import relations.
From S2P Require Import Prelude Errors GoStrings Regex Conditional Model Progress Tui Plain.

(** ** The interactive display *)

Section interactive.
Variable boring : bool.

(** [p_running] is the goroutine of [p.Run], [p_forwarding] the one that drains the channel.
    [p_shown] is what the program has processed, [p_quit] that one of its commands was
    [tea.Quit]. *)
Record interactive : Type := Interactive {
  p_started : bool; p_closed : bool; p_queue : list msg; p_sent : list msg;
  p_forwarding : bool; p_running : bool; p_quit : bool;
  p_shown : list tea_msg; p_model : multiModel.t; p_err : option error
}.
#[global] Instance interactive_settable : Settable interactive := fun r =>
  Interactive (p_started r) (p_closed r) (p_queue r) (p_sent r) (p_forwarding r) (p_running r) (p_quit r)
    (p_shown r) (p_model r) (p_err r).

Definition tui_New : interactive := Interactive false false [] [] true true false [] (newMultiModel boring) None.

(** The event loop of the program on one message. *)
Definition deliver (u : tea_msg) (d : interactive) : interactive :=
  d <| p_shown ::= (fun l => l ++ [u]) |> <| p_model := (Update (p_model d) u).1 |>
    <| p_quit ::= (fun q => match (Update (p_model d) u).2 with Quit => true | _ => q end) |>.

(** The messages of the terminal itself. *)
Definition own_message (u : tea_msg) : bool :=
  match u with WindowSizeMsg _ | tickMsg | KeyPressMsg _ => true | Progress _ | allDoneMsg => false end.

(** [p.Send] waits for the event loop, and does nothing once the program has ended.  The
    flag tells what callers, the terminal and the context do from the moves of the two
    goroutines. *)
Inductive tui_step : bool -> interactive -> interactive -> Prop :=
  | TStart d : tui_step true d (d <| p_started := true |>)
  | TSend d m :
      p_closed d = false -> length (p_queue d) < capacity ->
      tui_step true d (d <| p_queue ::= (fun q => q ++ [m]) |> <| p_sent ::= (fun l => l ++ [m]) |>)
  | TClose d : tui_step true d (d <| p_closed := true |>)
  | TForward d m q :
      p_started d = true -> p_forwarding d = true -> p_queue d = m :: q -> p_running d = true ->
      tui_step false d (deliver (Progress m) (d <| p_queue := q |>))
  | TLost d m q :
      p_started d = true -> p_forwarding d = true -> p_queue d = m :: q -> p_running d = false ->
      tui_step false d (d <| p_queue := q |>)
  | TAllDone d :
      p_started d = true -> p_forwarding d = true -> p_queue d = [] -> p_closed d = true -> p_running d = true ->
      tui_step false d (deliver allDoneMsg (d <| p_forwarding := false |>))
  | TAllDoneLost d :
      p_started d = true -> p_forwarding d = true -> p_queue d = [] -> p_closed d = true -> p_running d = false ->
      tui_step false d (d <| p_forwarding := false |>)
  | TOwn d u :
      p_started d = true -> p_running d = true -> own_message u = true -> tui_step true d (deliver u d)
  | TQuit d :
      p_started d = true -> p_running d = true -> p_quit d = true -> tui_step false d (d <| p_running := false |>)
  | TKilled d e :
      p_started d = true -> p_running d = true ->
      tui_step true d (d <| p_running := false |> <| p_err := Some (errorf [] e) |>).

Definition tui_any (d d' : interactive) : Prop := exists outside, tui_step outside d d'.

(** [Shutdown] has returned, with [p_err]. *)
Definition tui_shut_down (d : interactive) : Prop :=
  p_closed d = true /\ (p_started d = true -> p_forwarding d = false /\ p_running d = false).

(** The progress messages among what the program has processed. *)
Definition progress (us : list tea_msg) : list msg := omap (fun u => match u with Progress m => Some m | _ => None end) us.

#[local] Arguments progress : simpl never.

(** Somebody else than [Shutdown] has ended the program. *)
Definition interrupted (d : interactive) : Prop := KeyPressMsg "ctrl+c" ∈ p_shown d \/ p_err d <> None.

Record tui_inv (d : interactive) : Prop := TuiInv {
  ti_sent : exists lost, p_sent d = progress (p_shown d) ++ lost ++ p_queue d /\ (p_running d = true -> lost = []);
  ti_room : length (p_queue d) <= capacity;
  ti_model : p_model d = run (newMultiModel boring) (p_shown d);
  ti_started : p_started d = false -> p_shown d = [] /\ p_forwarding d = true /\ p_running d = true;
  ti_forwarded : p_forwarding d = false -> p_closed d = true /\ p_queue d = [] /\ (p_running d = true -> p_quit d = true);
  ti_quit : p_quit d = true -> allDoneMsg ∈ p_shown d \/ KeyPressMsg "ctrl+c" ∈ p_shown d;
  ti_ended : p_running d = false -> p_quit d = true \/ p_err d <> None;
  ti_alldone : allDoneMsg ∈ p_shown d ->
    p_forwarding d = false /\ progress (p_shown d) = p_sent d /\ multiModel.done (p_model d) = true
}.

Lemma tui_inv_New : tui_inv tui_New.
Proof.
  constructor; cbn; try done; [by exists []|unfold capacity; lia|by intros ?%elem_of_nil].
Qed.

Lemma Update_quit m u : (Update m u).2 = Quit -> u = allDoneMsg \/ u = KeyPressMsg "ctrl+c".
Proof. destruct u; cbn; try done; [by left|]. case_decide as Hk; [intros _; right; by rewrite Hk|done]. Qed.

(** The program is done once and for all. *)
Lemma on_job_done name f m : multiModel.done (on_job name f m) = multiModel.done m.
Proof. done. Qed.

Lemma with_job_done name f m : multiModel.done (with_job name f m) = multiModel.done m.
Proof. unfold with_job. rewrite on_job_done. unfold getOrCreateJob. by destruct (multiModel.jobs m !! name). Qed.

Lemma Update_done m u : multiModel.done m = true -> multiModel.done (Update m u).1 = true.
Proof. intros Hm. destruct u as [p| | | |]; [destruct p|..]; cbn [Update update_msg fst]; rewrite ?with_job_done; exact Hm || done. Qed.

Lemma progress_snoc us u : progress (us ++ [u]) = progress us ++ match u with Progress m => [m] | _ => [] end.
Proof. unfold progress. rewrite omap_app. cbn. by destruct u. Qed.

Lemma run_snoc m us u : run m (us ++ [u]) = (Update (run m us) u).1.
Proof. by rewrite run_app. Qed.

Lemma deliver_quit u d :
  p_quit (deliver u d) = true -> p_quit d = true \/ u = allDoneMsg \/ u = KeyPressMsg "ctrl+c".
Proof. cbn. destruct (Update (p_model d) u).2 eqn:Hc; [by left| |by left]. intros _. right. by eapply Update_quit. Qed.

(** A message of the terminal changes nothing but the model and the wish to quit. *)
Lemma own_inv d u : tui_inv d -> p_started d = true -> p_running d = true -> own_message u = true -> tui_inv (deliver u d).
Proof.
  intros [H1 H2 H3 H4 H5 H6 H7 H8] Hst Hr Hu.
  assert (forall l, progress (l ++ [u]) = progress l) as Hp by (intros l; rewrite progress_snoc; destruct u; try done; by rewrite app_nil_r).
  constructor; cbn; try done.
  - destruct H1 as (lost & Hs & Hl). exists lost. cbn. by rewrite Hp.
  - cbn. by rewrite run_snoc, H3.
  - cbn. congruence.
  - cbn. intros Hf. destruct (H5 Hf) as (? & ? & Hq). split_and!; [done..|]. intros _. rewrite (Hq Hr). by destruct (Update _ u).2.
  - intros Hq. apply deliver_quit in Hq as [Hq|Hq]; cbn; rewrite !elem_of_app, !list_elem_of_singleton; [destruct (H6 Hq); auto|].
    destruct Hq as [->| ->]; auto.
  - cbn. congruence.
  - cbn. rewrite elem_of_app, list_elem_of_singleton, Hp. intros [Hin|<-]; [|done].
    destruct (H8 Hin) as (? & ? & Hd). split_and!; [done..|]. by apply Update_done.
Qed.

Lemma forward_inv d m q :
  tui_inv d -> p_started d = true -> p_forwarding d = true -> p_queue d = m :: q -> p_running d = true ->
  tui_inv (deliver (Progress m) (d <| p_queue := q |>)).
Proof.
  intros [H1 H2 H3 H4 H5 H6 H7 H8] Hst Hf Hq Hr. rewrite Hq in *. cbn in H2.
  constructor; cbn; try congruence; try lia.
  - destruct H1 as (lost & Hs & Hl). rewrite (Hl Hr) in Hs. exists []. split; [|done]. by rewrite progress_snoc, Hs, <- app_assoc.
  - by rewrite run_snoc, H3.
  - rewrite !elem_of_app. intros Hquit. destruct (H6 Hquit); auto.
  - rewrite elem_of_app, list_elem_of_singleton. intros [Hin|]; [|done]. destruct (H8 Hin) as [Hf' _]. congruence.
Qed.

Lemma alldone_inv d :
  tui_inv d -> p_started d = true -> p_forwarding d = true -> p_queue d = [] -> p_closed d = true -> p_running d = true ->
  tui_inv (deliver allDoneMsg (d <| p_forwarding := false |>)).
Proof.
  intros [H1 H2 H3 H4 H5 H6 H7 H8] Hst Hf Hq Hc Hr.
  destruct H1 as (lost & Hs & Hl). rewrite (Hl Hr), Hq, app_nil_r in Hs.
  constructor; cbn; try congruence; try done.
  - exists []. by rewrite progress_snoc, Hq, !app_nil_r.
  - by rewrite run_snoc, H3.
  - intros _. left. apply elem_of_app. right. by left.
  - intros _. by rewrite progress_snoc, app_nil_r.
Qed.

Lemma tui_inv_step b d d' : tui_inv d -> tui_step b d d' -> tui_inv d'.
Proof.
  intros Hi Hstep. pose proof Hi as [H1 H2 H3 H4 H5 H6 H7 H8].
  destruct Hstep as [d|d m Hc Hroom|d|d m q Hst Hf Hq Hr|d m q Hst Hf Hq Hr|d Hst Hf Hq Hc Hr|d Hst Hf Hq Hc Hr|d u Hst Hr Hu|d Hst Hr Hq|d e Hst Hr].
  - by constructor.
  - destruct H1 as (lost & Hs & Hl). constructor; cbn; try done.
    + exists lost. by rewrite Hs, <- !app_assoc.
    + rewrite length_app. cbn. lia.
    + intros Hf. destruct (H5 Hf) as [? _]. congruence.
    + intros Hin. destruct (H8 Hin) as [Hf _]. destruct (H5 Hf) as [? _]. congruence.
  - constructor; cbn; try done. intros Hf. by destruct (H5 Hf) as (_ & ? & ?).
  - by apply forward_inv.
  - rewrite Hq in *. cbn in H2. destruct H1 as (lost & Hs & Hl). constructor; cbn; try done; try congruence; try lia.
    exists (lost ++ [m]). split; [by rewrite Hs, <- !app_assoc|congruence].
  - by apply alldone_inv.
  - constructor; cbn; try done; try congruence; [intros _; split_and!; [done..|congruence]|]. intros Hin. destruct (H8 Hin) as [? _]. congruence.
  - by apply own_inv.
  - destruct H1 as (lost & Hs & Hl). constructor; cbn; try done; try congruence; [exists lost; by split| |by left].
    intros Hf. by destruct (H5 Hf) as (? & ? & _).
  - destruct H1 as (lost & Hs & Hl). constructor; cbn; try done; try congruence; [exists lost; by split| |by right].
    intros Hf. by destruct (H5 Hf) as (? & ? & _).
Qed.

Lemma tui_reachable d : rtc tui_any tui_New d -> tui_inv d.
Proof.
  revert d. apply (rtc_ind_r (fun d => tui_inv d)); [apply tui_inv_New|]. intros d1 d2 _ [b Hb] IH. by eapply tui_inv_step.
Qed.

(** What is left to do for the two goroutines once the channel is closed. *)
Definition left_to_do (d : interactive) : nat :=
  length (p_queue d) + (if p_forwarding d then 1 else 0) + (if p_running d then 1 else 0).

Lemma tui_step_weight d d' : tui_step false d d' -> left_to_do d' < left_to_do d.
Proof.
  unfold left_to_do. inversion 1; subst; cbn;
    repeat match goal with H : p_queue _ = _ |- _ => rewrite H | H : p_forwarding _ = _ |- _ => rewrite H
      | H : p_running _ = _ |- _ => rewrite H end; cbn; lia.
Qed.

Lemma tui_progress d :
  tui_inv d -> p_started d = true -> p_forwarding d = true \/ p_running d = true ->
  (exists d', tui_step false d d') \/ p_closed d = false /\ p_queue d = [].
Proof.
  intros Hi Hst Hgo. destruct (p_forwarding d) eqn:Hf.
  - destruct (p_queue d) as [|m q] eqn:Hq, (p_running d) eqn:Hr; [destruct (p_closed d) eqn:Hc..|idtac|idtac]; try (by right); left;
      eexists; first [by apply TAllDone|by apply TAllDoneLost|by eapply TForward|by eapply TLost].
  - left. destruct Hgo as [|Hr]; [done|]. destruct (ti_forwarded _ Hi Hf) as (_ & _ & Hq). eexists. by apply TQuit, Hq.
Qed.

Lemma uninterrupted d :
  tui_inv d -> tui_shut_down d -> p_started d = true -> ~ interrupted d ->
  progress (p_shown d) = p_sent d /\ multiModel.done (p_model d) = true.
Proof.
  intros Hi [_ Hend] Hst Hint. destruct (Hend Hst) as [_ Hr]. unfold interrupted in Hint.
  destruct (ti_ended _ Hi Hr) as [Hq|He]; [|tauto]. destruct (ti_quit _ Hi Hq) as [Hin|Hin]; [|tauto]. by apply (ti_alldone _ Hi).
Qed.
End interactive.

(** ** The contract *)

(** What the interactive display promises. *)
Record tui_kept (boring : bool) (d : interactive) : Prop := TuiKept {
  tk_order : progress (p_shown d) `prefix_of` p_sent d;
  tk_model : p_model d = run (newMultiModel boring) (p_shown d);
  tk_all : tui_shut_down d -> p_started d = true -> ~ interrupted d ->
    progress (p_shown d) = p_sent d /\ multiModel.done (p_model d) = true;
  tk_alive : p_started d = true -> p_forwarding d = true \/ p_running d = true ->
    (exists d', tui_step false d d' /\ left_to_do d' < left_to_do d) \/ p_closed d = false /\ p_queue d = []
}.


(** After ctrl+c a message that [Send] still accepts is lost. *)
Definition ex_interrupted : interactive :=
  Interactive true true [] [JobDoneMsg "a"] false false true [KeyPressMsg "ctrl+c"] (newMultiModel false) None.

Lemma ex_interrupted_reachable : rtc tui_any (tui_New false) ex_interrupted.
Proof.
  eapply rtc_l; [eexists; apply TStart|].
  eapply rtc_l; [eexists; by apply (TOwn _ (KeyPressMsg "ctrl+c"))|].
  eapply rtc_l; [eexists; by apply TQuit|].
  eapply rtc_l; [eexists; apply (TSend _ (JobDoneMsg "a")); [done|cbn; unfold capacity; lia]|].
  eapply rtc_l; [eexists; apply TClose|].
  eapply rtc_l; [eexists; by eapply TLost|].
  eapply rtc_l; [eexists; by apply TAllDoneLost|]. apply rtc_refl.
Qed.

