(* ===== verification/Command.v ===== *)
(** * The command (cmd/cicada/run.go, main.go, visualize.go)

    [runAction] is the composition of everything else: it parses, selects, compiles, reads
    the host, connects to BuildKit, starts a display and hands the jobs to the runner.  A
    run of an action is the list of what it does to the outside and its result; the outside
    is the record [world] of the answers it gives.  Go's deferred calls appear where they
    take effect. *)

From stdpp Require Import pretty.
From S2P Require Import Prelude Errors GoStrings Regex Conditional Model Defaults Secret Dfs Validate Filter WhenEval.
From S2P Require Import Shell Progress Retry Dag Output Node Sched Publish Redact Cache Host Builder Convert Plan Images.

(** ** What an action does *)

Inductive display_kind : Set := TuiDisplay (boring : bool) | PlainDisplay | QuietDisplay.

Section acts.
Context `{LLB}.

(** [runnermodel.RunInput]; the solver, the runtime, the sender and the tracer are those of
    the command.  [ri_SyncCache] tells whether the context is read through the hash cache. *)
Record RunInput : Type := MkRunInput {
  ri_PipelineName : string;
  ri_Jobs : list RunJob.t;
  ri_SyncCache : option string;
  ri_Parallelism : Z;
  ri_FailFast : bool;
  ri_Exports : list RunExport.t;
  ri_ImagePublishes : list ImagePublish.t;
  ri_CacheExports : list CacheOptionsEntry;
  ri_CacheImports : list CacheOptionsEntry;
  ri_Collector : bool;
  ri_WhenContext : Context.t;
  ri_Session : option (gmap string string);
  ri_SecretValues : gmap string string
}.

Inductive act : Type :=
  | TracingUp
  | TracingDown
  | EnsureEngine (addr : string)
  | Connected (addr : string)
  | Disconnected
  | CheckImages (images : list string)
  | DisplayUp (k : display_kind)
  | DisplayDown
  | Sent (m : msg)
  | Ran (i : RunInput)
  | Pulled (images : list string)
  | PrintReport
  | PrintDryRun (name : string) (jobs : list string)
  | PrintSummary (name : string) (jobs : list string)
  | PrintLine (text : string).

(** What was done so far, and the result of the rest. *)
Definition cmd (A : Type) : Type := list act * result A.

#[export] Instance cmd_ret : MRet cmd := fun A a => ([], Ok a).
#[export] Instance cmd_bind : MBind cmd := fun A B f c =>
  match c.2 with Ok a => let c' := f a in (c.1 ++ c'.1, c'.2) | Fail e => (c.1, Fail e) end.

Definition lift {A} (r : result A) : cmd A := ([], r).
Definition emit (a : act) : cmd unit := ([a], Ok tt).
Definition check (e : option error) : cmd unit := lift match e with Some e => Fail e | None => Ok tt end.

(** [defer a]: done when the function returns, whatever it returns. *)
Definition defer (a : act) (c : cmd unit) : cmd unit := (c.1 ++ [a], c.2).

(** [defer func() { err = errors.Join(err, f()) }()]. *)
Definition defer_join (a : act) (f : option error) (c : cmd unit) : cmd unit :=
  (c.1 ++ [a],
   match errors_Join ((match c.2 with Fail e => [e] | Ok _ => [] end) ++ (match f with Some e => [e] | None => [] end)) with
   | Some e => Fail e
   | None => Ok tt
   end).
End acts.

(** ** Flags and the outside *)

Record flags : Type := Flags {
  f_path : string; f_parallelism : Z; f_startAt : string; f_stopAfter : string;
  f_noCacheFilter : list string; f_noCache : bool; f_exposeDeps : bool; f_dryRun : bool;
  f_cacheTo : list string; f_cacheFrom : list string; f_cacheStats : bool; f_dockerExport : list string;
  f_failFast : bool; f_addr : string; f_noDaemon : bool; f_offline : bool; f_progress : string; f_boring : bool;
  f_noSyncCache : bool
}.

Section command.
Context `{ops : LLBOps} `{cel : CEL}.

Record world : Type := World {
  w_host : host;
  w_tracing : option error;
  w_parse : string -> result Pipeline.t;
  w_getwd : result string;
  w_EnsureRunning : string -> result string;
  w_connect : string -> option error;
  w_images : image_world;
  w_NewFS : string -> option error;
  w_CachePath : string -> result string;
  w_isTTY : bool;
  w_format : string;
  w_start : option error;
  w_Shutdown : option error;
  w_Run : RunInput -> option error;
  w_pull : list string -> option error
}.

Definition errOfflineMissingImages : sentinel := Foreign "offline mode: images not cached".

Variables (w : world) (f : flags).

Definition selectDisplay (mode : string) (boring : bool) : result display_kind :=
  let m := TrimSpace (ToLower mode) in
  if decide (m = "auto") then
    Ok (if w_isTTY w && bool_decide (w_format w = "pretty") then TuiDisplay boring else PlainDisplay)
  else if decide (m = "tui") then Ok (TuiDisplay boring)
  else if decide (m = "plain") then Ok PlainDisplay
  else if decide (m = "quiet") then Ok QuietDisplay
  else fail_with [mode] (Foreign "unknown progress mode").

Definition resolveAddr : cmd string :=
  let addr := f_addr f in
  if f_noDaemon f then mret addr else
  emit (EnsureEngine addr) ;; lift (map_err (errorf []) (w_EnsureRunning w addr)).

Definition checkOffline (p : Pipeline.t) : cmd unit :=
  let images := CollectImages p in
  emit (CheckImages images) ;;
  missing ← lift (map_err (errorf []) (CheckCached (w_images w) images));
  if decide (missing = []) then mret tt else lift (fail_with missing errOfflineMissingImages).

(** The parameters that [runAction] hands to [executePipeline]. *)
Record pipelineRunParams : Type := PipelineRunParams {
  p_pipe : Pipeline.t;
  p_jobs : list RunJob.t;
  p_exports : list RunExport.t;
  p_imagePublishes : list ImagePublish.t;
  p_cwd : string;
  p_cacheExports : list CacheOptionsEntry;
  p_cacheImports : list CacheOptionsEntry;
  p_cacheCollector : bool;
  p_whenCtx : Context.t;
  p_skippedJobs : list string;
  p_session : option (gmap string string);
  p_secretValues : gmap string string
}.

Definition syncCache (cwd : string) : option string :=
  if f_noSyncCache f then None else match w_CachePath w cwd with Ok path => Some path | Fail _ => None end.

Definition run_input (params : pipelineRunParams) : RunInput :=
  MkRunInput (Pipeline.Name (p_pipe params)) (p_jobs params) (syncCache (p_cwd params)) (f_parallelism f) (f_failFast f)
    (p_exports params) (p_imagePublishes params) (p_cacheExports params) (p_cacheImports params) (p_cacheCollector params)
    (p_whenCtx params) (p_session params) (p_secretValues params).

(** From the started display to its shutdown. *)
Definition run_displayed (params : pipelineRunParams) : cmd unit :=
  mapM (fun name => emit (Sent (JobSkippedMsg name))) (p_skippedJobs params) ;;
  let i := run_input params in
  emit (Ran i) ;;
  (if p_cacheCollector params then emit PrintReport else mret tt) ;;
  check (w_Run w i).

(** From the connection to its end. *)
Definition run_connected (params : pipelineRunParams) : cmd unit :=
  (if f_offline f then checkOffline (p_pipe params) else mret tt) ;;
  check (errorf [p_cwd params] <$> w_NewFS w (p_cwd params)) ;;
  display ← lift (selectDisplay (f_progress f) (f_boring f));
  check (errorf [] <$> w_start w) ;;
  emit (DisplayUp display) ;;
  defer_join DisplayDown (w_Shutdown w) (run_displayed params).

Definition executePipeline (params : pipelineRunParams) : cmd unit :=
  addr ← resolveAddr;
  check (w_connect w addr) ;;
  emit (Connected addr) ;;
  defer Disconnected (run_connected params).

(** Everything [runAction] does once tracing is set up. *)
Definition run_traced : cmd unit :=
  p ← lift (map_err (errorf [f_path f]) (w_parse w (f_path f)));
  let wctx := Context.mk (Some (Host.Getenv (w_host w))) (DetectBranch (w_host w)) (DetectTag (w_host w)) ∅ ∅ in
  cond ← lift (select (FilterOpts.mk (f_startAt f) (f_stopAfter f)) wctx p);
  cwd ← lift (map_err (errorf []) (w_getwd w));
  excludes ← lift (match LoadIgnorePatterns (w_host w) cwd with
                   | Ok patterns => Ok patterns
                   | Fail e => if Is e errNoIgnoreFile then Ok [] else Fail (errorf [] e)
                   end);
  let opts := {| NoCache := f_noCache f; NoCacheFilter := buildNoCacheFilter (f_noCacheFilter f);
                 ExcludePatterns := excludes; MetaResolver := true; ExposeDeps := f_exposeDeps f |} in
  '(r, jobs) ← lift (compile (f_path f) opts cond);
  let p := ConditionResult.Pipeline cond in
  if f_dryRun f then emit (PrintDryRun (Pipeline.Name p) (RunJob.Name <$> jobs)) else
  '(session, secretValues) ← lift (map_err (errorf []) (resolveSecrets (w_host w) (r_SecretDecls r)));
  cacheExports ← lift (map_err (errorf []) (ParseSpecs (f_cacheTo f)));
  cacheImports ← lift (map_err (errorf []) (ParseSpecs (f_cacheFrom f)));
  executePipeline
    (PipelineRunParams p jobs (run_export <$> r_Exports r) (buildImagePublishes (r_ImageExports r) (f_dockerExport f)) cwd
       (DetectGHA (Host.Getenv (w_host w)) cacheExports) (DetectGHA (Host.Getenv (w_host w)) cacheImports) (f_cacheStats f)
       wctx (ConditionResult.Skipped cond) session secretValues).

Definition runAction : cmd unit :=
  if decide (f_path f = "") then lift (fail_with [] (Foreign "usage")) else
  if decide (f_parallelism f < 0)%Z then lift (fail_with [pretty (f_parallelism f)] (Foreign "invalid parallelism")) else
  check (errorf [] <$> w_tracing w) ;;
  emit TracingUp ;;
  defer TracingDown run_traced.

Definition validateAction : cmd unit :=
  if decide (f_path f = "") then lift (fail_with [] (Foreign "usage")) else
  p ← lift (map_err (errorf [f_path f]) (w_parse w (f_path f)));
  '(p, _) ← lift (map_err (errorf [f_path f]) (ValidatePipeline (Some p)));
  emit (PrintSummary (Pipeline.Name p) (Job.Name <$> Pipeline.Jobs p)).

Definition pull_displayed (images : list string) : cmd unit :=
  emit (Pulled images) ;;
  check (errorf [] <$> w_pull w images) ;;
  emit (PrintLine ("Pulled " +:+ pretty (length images) +:+ " image(s)")).

Definition pull_connected (images : list string) : cmd unit :=
  display ← lift (selectDisplay (f_progress f) (f_boring f));
  check (errorf [] <$> w_start w) ;;
  emit (DisplayUp display) ;;
  defer_join DisplayDown (w_Shutdown w) (pull_displayed images).

Definition pullAction : cmd unit :=
  if decide (f_path f = "") then lift (fail_with [] (Foreign "usage")) else
  p ← lift (map_err (errorf [f_path f]) (w_parse w (f_path f)));
  let images := CollectImages p in
  if decide (images = []) then emit (PrintLine "No images to pull") else
  addr ← resolveAddr;
  check (w_connect w addr) ;;
  emit (Connected addr) ;;
  defer Disconnected (pull_connected images).
End command.

(** ** Brackets *)

(** What is up while an action runs, innermost first. *)
Inductive frame : Set := FTracing | FConnection | FDisplay.
#[global] Instance frame_eq_dec : EqDecision frame.
Proof. solve_decision. Defined.

Section brackets.
Context `{ops : LLBOps} `{cel : CEL}.

(** Every end must match the frame on top; a run or a message needs a display on top of a
    connection. *)
Definition replay_act (st : option (list frame)) (a : act) : option (list frame) :=
  s ← st;
  match a with
  | TracingUp => Some (FTracing :: s)
  | Connected _ => Some (FConnection :: s)
  | DisplayUp _ => Some (FDisplay :: s)
  | TracingDown => match s with FTracing :: s' => Some s' | _ => None end
  | Disconnected => match s with FConnection :: s' => Some s' | _ => None end
  | DisplayDown => match s with FDisplay :: s' => Some s' | _ => None end
  | Sent _ | Ran _ | Pulled _ => match s with FDisplay :: FConnection :: _ => Some s | _ => None end
  | EnsureEngine _ | CheckImages _ | PrintReport | PrintDryRun _ _ | PrintSummary _ _ | PrintLine _ => Some s
  end.

Definition replay (s : list frame) (acts : list act) : option (list frame) := foldl replay_act (Some s) acts.

Lemma replay_app s l k : replay s (l ++ k) = s' ← replay s l; replay s' k.
Proof.
  unfold replay. rewrite foldl_app. destruct (foldl replay_act (Some s) l) as [s'|]; [done|]. cbn.
  induction k as [|a k IH]; [done|exact IH].
Qed.

(** A command that leaves everything as it was. *)
Definition nested {A} (s : list frame) (c : cmd A) : Prop := replay s c.1 = Some s.

Lemma nested_bind {A B} s (c : cmd A) (g : A -> cmd B) :
  nested s c -> (forall a, c.2 = Ok a -> nested s (g a)) -> nested s (c ≫= g).
Proof.
  unfold nested, mbind, cmd_bind. intros Hc Hg. destruct c as [l [a|e]]; cbn [fst snd] in *; [|done].
  rewrite replay_app, Hc. cbn [mbind option_bind]. by apply Hg.
Qed.

Lemma nested_lift {A} s (r : result A) : nested s (lift r).
Proof. done. Qed.

Lemma nested_defer s fr (up down : act) (c : cmd unit) :
  replay s [up] = Some (fr :: s) -> replay (fr :: s) [down] = Some s -> nested (fr :: s) c ->
  nested s (emit up ;; defer down c).
Proof.
  intros Hu Hd Hc. unfold nested, mbind, cmd_bind, defer, emit. cbn [fst snd].
  rewrite replay_app, Hu. cbn [mbind option_bind]. rewrite replay_app, Hc. exact Hd.
Qed.

Lemma nested_join s fr (up down : act) e (c : cmd unit) :
  replay s [up] = Some (fr :: s) -> replay (fr :: s) [down] = Some s -> nested (fr :: s) c ->
  nested s (emit up ;; defer_join down e c).
Proof.
  intros Hu Hd Hc. unfold nested, mbind, cmd_bind, defer_join, emit. cbn [fst snd].
  rewrite replay_app, Hu. cbn [mbind option_bind]. rewrite replay_app, Hc. exact Hd.
Qed.

Lemma nested_mapM {A B} s (g : A -> cmd B) l : (forall a, nested s (g a)) -> nested s (mapM g l).
Proof.
  intros Hg. induction l as [|a l IH]; [done|]. cbn [mapM]. apply nested_bind; [apply Hg|]. intros b _. by apply nested_bind.
Qed.

Lemma nested_if {A} s (b : bool) (c d : cmd A) : nested s c -> nested s d -> nested s (if b then c else d).
Proof. by destruct b. Qed.

Variables (w : world) (f : flags).

Lemma resolveAddr_nested s : nested s (resolveAddr w f).
Proof. unfold resolveAddr. destruct (f_noDaemon f); done. Qed.

Lemma run_connected_nested s params : nested (FConnection :: s) (run_connected w f params).
Proof.
  unfold run_connected. apply nested_bind.
  { apply nested_if; [|done]. unfold checkOffline. do 2 (apply nested_bind; [done|intros ? _]). by case_decide. }
  intros ? _. do 3 (apply nested_bind; [done|intros ? _]). apply nested_join with FDisplay; [done|done|]. unfold run_displayed.
  apply nested_bind; [by apply nested_mapM|intros ? _]. apply nested_bind; [done|intros ? _].
  apply nested_bind; [by apply nested_if|done].
Qed.

Lemma run_traced_nested s : nested s (run_traced w f).
Proof.
  unfold run_traced. do 4 (apply nested_bind; [done|intros ? _]). apply nested_bind; [done|intros [r jobs] _].
  apply nested_if; [done|]. apply nested_bind; [done|intros [session values] _].
  do 2 (apply nested_bind; [done|intros ? _]). unfold executePipeline.
  apply nested_bind; [apply resolveAddr_nested|intros addr _]. apply nested_bind; [done|intros ? _].
  apply nested_defer with FConnection; [done|done|]. apply run_connected_nested.
Qed.

(** C37: Every action closes what it opens, innermost first and whatever fails: tracing is
    shut down, the connection to BuildKit is closed and the display - whose shutdown
    flushes its messages - is shut down exactly once each, after everything that uses them,
    and the runner is only ever called with a display on top of a connection. *)
Theorem actions_balanced :
  replay [] (runAction w f).1 = Some [] /\ replay [] (pullAction w f).1 = Some [] /\ replay [] (validateAction w f).1 = Some [].
Proof.
  split_and!.
  - change (nested [] (runAction w f)). unfold runAction. do 2 (case_decide; [done|]). apply nested_bind; [done|intros ? _].
    apply nested_defer with FTracing; [done|done|]. apply run_traced_nested.
  - change (nested [] (pullAction w f)). unfold pullAction. case_decide; [done|]. apply nested_bind; [done|intros p _].
    case_decide; [done|]. apply nested_bind; [apply resolveAddr_nested|intros ? _]. apply nested_bind; [done|intros ? _].
    apply nested_defer with FConnection; [done|done|]. unfold pull_connected. do 2 (apply nested_bind; [done|intros ? _]).
    apply nested_join with FDisplay; [done|done|]. unfold pull_displayed. do 2 (apply nested_bind; [done|intros ? _]). done.
  - change (nested [] (validateAction w f)). unfold validateAction. case_decide; [done|]. apply nested_bind; [done|intros p _].
    apply nested_bind; [done|intros [p' o] _]. done.
Qed.
End brackets.

(** ** What reaches the runner *)

Section handover.
Context `{ops : LLBOps} `{cel : CEL}.

Definition runs (acts : list act) : list RunInput := omap (fun a => match a with Ran i => Some i | _ => None end) acts.

(** The runner is called at most once, on an input with [Q]. *)
Definition one {A} (Q : RunInput -> Prop) (c : cmd A) : Prop := runs c.1 = [] \/ exists i, runs c.1 = [i] /\ Q i.

Lemma one_bind {A B} Q (c : cmd A) (g : A -> cmd B) :
  runs c.1 = [] -> (forall x, c.2 = Ok x -> one Q (g x)) -> one Q (c ≫= g).
Proof.
  intros Hc Hg. unfold one, mbind, cmd_bind in *. destruct c as [l [x|e]]; cbn [fst snd] in *; [|by left].
  unfold runs in *. rewrite omap_app, Hc. by apply Hg.
Qed.

Lemma one_none {A} Q (c : cmd A) : runs c.1 = [] -> one Q c.
Proof. by left. Qed.

Lemma one_defer Q a (c : cmd unit) : runs [a] = [] -> one Q c -> one Q (defer a c).
Proof.
  intros Ha Hc. unfold one, defer, runs in *. cbn [fst snd] in *. rewrite omap_app.
  destruct Hc as [Hc|(i & Hc & HQ)]; rewrite Hc; rewrite Ha; [by left|right; by exists i].
Qed.

Lemma one_join Q a e (c : cmd unit) : runs [a] = [] -> one Q c -> one Q (defer_join a e c).
Proof. exact (one_defer Q a c). Qed.

Lemma runs_mapM_sent (g : string -> msg) l : runs (mapM (fun name => emit (Sent (g name))) l).1 = [].
Proof.
  induction l as [|x l IH]; [done|]. cbn. unfold mbind, cmd_bind in IH |- *. cbn.
  destruct (mapM _ l) as [acts [y|e]]; cbn in *; unfold runs in *; cbn; rewrite ?omap_app, ?app_nil_r; by rewrite IH.
Qed.

Variables (w : world) (f : flags).

Definition when_context : Context.t :=
  Context.mk (Some (Host.Getenv (w_host w))) (DetectBranch (w_host w)) (DetectTag (w_host w)) ∅ ∅.

(** Where the input of a run comes from. *)
Definition handed_over (i : RunInput) : Prop :=
  exists p cond opts r,
    w_parse w (f_path f) = Ok p /\ select (FilterOpts.mk (f_startAt f) (f_stopAfter f)) when_context p = Ok cond /\
    compile (f_path f) opts cond = Ok (r, ri_Jobs i) /\
    resolveSecrets (w_host w) (r_SecretDecls r) = Ok (ri_Session i, ri_SecretValues i) /\
    ri_WhenContext i = when_context /\ f_dryRun f = false /\
    ri_Parallelism i = f_parallelism f /\ ri_FailFast i = f_failFast f /\
    (f_offline f = true -> CheckCached (w_images w) (CollectImages (ConditionResult.Pipeline cond)) = Ok []).

Lemma executePipeline_runs Q params :
  ((f_offline f = true -> CheckCached (w_images w) (CollectImages (p_pipe params)) = Ok []) -> Q (run_input w f params)) ->
  one Q (executePipeline w f params).
Proof.
  intros HQ. unfold executePipeline. apply one_bind; [by unfold resolveAddr; destruct (f_noDaemon f)|intros addr _].
  do 2 (apply one_bind; [done|intros ? _]). apply one_defer; [done|]. unfold run_connected.
  apply one_bind.
  { destruct (f_offline f); [|done]. unfold checkOffline, mbind, cmd_bind. cbn. destruct (CheckCached _ _); cbn; by try case_decide. }
  intros u Hu. do 4 (apply one_bind; [done|intros ? _]). apply one_join; [done|]. unfold run_displayed.
  apply one_bind; [apply runs_mapM_sent|intros ? _].
  right. exists (run_input w f params). split; [|apply HQ].
  - unfold mbind, cmd_bind. cbn. by destruct (p_cacheCollector params).
  - intros Ho. rewrite Ho in Hu. unfold checkOffline, mbind, cmd_bind in Hu. cbn in Hu.
    destruct (CheckCached _ _) as [missing|e]; cbn in Hu; [|done]. case_decide as Hm; [by subst|done].
Qed.

Lemma runAction_runs : one handed_over (runAction w f).
Proof.
  unfold runAction. do 2 (case_decide; [by apply one_none|]). do 2 (apply one_bind; [done|intros ? _]).
  apply one_defer; [done|]. unfold run_traced. apply one_bind; [done|intros p Hp]. apply one_bind; [done|intros cond Hc].
  apply one_bind; [done|intros cwd _]. apply one_bind; [done|intros excludes _]. apply one_bind; [done|intros [r jobs] Hj].
  destruct (f_dryRun f) eqn:Hd; [by apply one_none|]. apply one_bind; [done|intros [session values] Hs].
  do 2 (apply one_bind; [done|intros ? _]). apply executePipeline_runs. cbn. intros Ho.
  apply map_err_Ok in Hp, Hs. eexists p, cond, _, r. split_and!; [exact Hp|exact Hc|exact Hj|exact Hs|done|done|done|done|exact Ho].
Qed.

Lemma ToMap_PlaintextValues out name v :
  ToMap out !! name = Some v -> v <> "" -> PlaintextValues out !! name = Some v.
Proof.
  unfold ToMap, PlaintextValues. induction out as [|s out IH] using rev_ind; [done|]. rewrite !foldl_snoc. intros Hl Hv.
  destruct (decide (Host.Name s = name)) as [Hn|Hn].
  - rewrite Hn, lookup_insert_eq in Hl. injection Hl as Hl. rewrite Hl, decide_False by done. by rewrite Hn, lookup_insert_eq.
  - rewrite lookup_insert_ne in Hl by done. case_decide; [by apply IH|]. rewrite lookup_insert_ne by done. by apply IH.
Qed.

(** What every input of the runner satisfies. *)
Definition right_input range (i : RunInput) : Prop :=
  runs (runAction w f).1 = [i] /\ f_dryRun f = false /\ ri_Parallelism i = f_parallelism f /\ ri_FailFast i = f_failFast f /\
  buildDAG range (ri_Jobs i) = Ok (initial_nodes (ri_Jobs i)) /\
  exists p cond, w_parse w (f_path f) = Ok p /\ well_formed p /\
    select (FilterOpts.mk (f_startAt f) (f_stopAfter f)) (ri_WhenContext i) p = Ok cond /\
    shape (ri_Jobs i) ≡ₚ pipeline_shape (ConditionResult.Pipeline cond) /\
    (f_offline f = true -> Forall (cached_image (w_images w)) (CollectImages (ConditionResult.Pipeline cond))) /\
    (forall m name v, ri_Session i = Some m -> m !! name = Some v -> v <> "" -> ri_SecretValues i !! name = Some v).

Lemma hands_over range i :
  (forall p, w_parse w (f_path f) = Ok p -> well_formed p) -> ranges range -> i ∈ runs (runAction w f).1 -> right_input range i.
Proof.
  intros Hparse Hrange Hran.
  destruct runAction_runs as [Hn|(i' & Hi & p & cond & opts & r & Hp & Hsel & Hc & Hs & Hw & Hd & Hpar & Hff & Ho)];
    [rewrite Hn in Hran; by apply elem_of_nil in Hran|].
  rewrite Hi in Hran. apply list_elem_of_singleton in Hran as ->.
  pose proof (Hparse _ Hp) as Hwf. destruct (proj1 (well_formed_sound p) Hwf) as [_ Hsound].
  destruct (select_sound _ _ _ _ Hsound Hsel) as (Hq & Ht & _).
  destruct (compile_accepted _ _ _ range _ _ Hq Ht Hrange Hc) as [Hshape Hdag].
  split_and!; [done..|]. exists p, cond. rewrite Hw. split_and!; [done|done|done|done| |].
  - intros Hoff. specialize (Ho Hoff). pose proof (CheckCached_result (w_images w) (CollectImages (ConditionResult.Pipeline cond))) as Hcc.
    rewrite Ho in Hcc. apply Forall_forall. intros ref Href. apply Hcc; [done|]. apply not_elem_of_nil.
  - intros m name v Hm Hl Hv. unfold resolveSecrets in Hs. destruct (r_SecretDecls r); [injection Hs as Hs1 Hs2; congruence|].
    apply bind_Ok in Hs as (out & _ & Heq). injection Heq as Hs1 Hs2. rewrite <- Hs2. rewrite <- Hs1 in Hm. injection Hm as <-.
    by apply ToMap_PlaintextValues.
Qed.

(** C9: What the command hands to the runner is right.  If the parser only returns
    well-formed pipelines, then whenever [runner.Run] is called - in spite of every flag and
    whatever the host answers - it is called once and not in a dry run; its jobs are
    exactly what filtering and conditions left of the parsed pipeline, with the same
    dependencies, and form a graph that the runner accepts; with [--offline] every image of
    that pipeline is cached; and every secret the session serves, unless it is empty, is
    among the values that are redacted. *)
Theorem run_hands_over range i
  (Hparse : forall path p, w_parse w path = Ok p -> well_formed p) (Hrange : ranges range)
  (Hran : i ∈ runs (runAction w f).1) :
  runs (runAction w f).1 = [i] /\ f_dryRun f = false /\
  buildDAG range (ri_Jobs i) = Ok (initial_nodes (ri_Jobs i)) /\
  exists p cond, w_parse w (f_path f) = Ok p /\
    select (FilterOpts.mk (f_startAt f) (f_stopAfter f)) (ri_WhenContext i) p = Ok cond /\
    shape (ri_Jobs i) ≡ₚ pipeline_shape (ConditionResult.Pipeline cond) /\
    (f_offline f = true -> Forall (cached_image (w_images w)) (CollectImages (ConditionResult.Pipeline cond))) /\
    (forall m name v, ri_Session i = Some m -> m !! name = Some v -> v <> "" -> ri_SecretValues i !! name = Some v).
Proof.
  destruct (hands_over range i) as (? & ? & _ & _ & ? & p & cond & ? & _ & ? & ? & ? & ?); [by apply Hparse|done|done|].
  split_and!; [done|done|done|]. by exists p, cond.
Qed.

(** A command that ends without an error has run the runner, which returned none. *)
Definition ran_ok {A} (c : cmd A) : Prop := (exists a, c.2 = Ok a) -> exists i, i ∈ runs c.1 /\ w_Run w i = None.

Lemma ran_bind {A B} (c : cmd A) (g : A -> cmd B) : (forall a, c.2 = Ok a -> ran_ok (g a)) -> ran_ok (c ≫= g).
Proof.
  intros Hg [b Hb]. unfold mbind, cmd_bind in *. destruct c as [l [a|e]]; cbn [fst snd] in *; [|done].
  destruct (Hg a eq_refl) as (i & Hi & Hw); [by exists b|]. exists i. split; [|done].
  unfold runs in *. rewrite omap_app. apply elem_of_app. by right.
Qed.

Lemma ran_defer a (c : cmd unit) : ran_ok c -> ran_ok (defer a c).
Proof.
  intros Hc [u Hu]. destruct (Hc (ex_intro _ u Hu)) as (i & Hi & Hw). exists i. split; [|done].
  unfold defer, runs in *. cbn [fst]. rewrite omap_app. apply elem_of_app. by left.
Qed.

Lemma ran_join a e (c : cmd unit) : ran_ok c -> ran_ok (defer_join a e c).
Proof.
  intros Hc [u Hu]. apply (ran_defer a c Hc). exists tt. unfold defer_join, defer in *. cbn [snd] in *.
  by destruct c.2 as [[]|er].
Qed.

Lemma run_displayed_ran params : ran_ok (run_displayed w f params).
Proof.
  unfold run_displayed. apply ran_bind. intros _ _. intros [u Hu]. exists (run_input w f params). split.
  - unfold mbind, cmd_bind. cbn. by left.
  - unfold mbind, cmd_bind, check in Hu. cbn in Hu. destruct (p_cacheCollector params); cbn in Hu; by destruct (w_Run w _).
Qed.

Lemma runAction_ran : f_dryRun f = false -> ran_ok (runAction w f).
Proof.
  intros Hd. unfold runAction. case_decide; [by intros [u Hu]|]. case_decide; [by intros [u Hu]|].
  do 2 (apply ran_bind; intros ? _). apply ran_defer. unfold run_traced. rewrite Hd.
  do 4 (apply ran_bind; intros ? _). apply ran_bind. intros [r jobs] _. apply ran_bind. intros [session values] _.
  do 2 (apply ran_bind; intros ? _). unfold executePipeline. do 3 (apply ran_bind; intros ? _). apply ran_defer.
  unfold run_connected. do 5 (apply ran_bind; intros ? _). apply ran_join. apply run_displayed_ran.
Qed.

(** A dry run stays inside: it neither starts the engine nor connects, reads no secret,
    starts no display and runs nothing. *)
Theorem dry_run_inside (Hdry : f_dryRun f = true) :
  (runAction w f).1 = [] \/ (runAction w f).1 = [TracingUp; TracingDown] \/
  exists name jobs, (runAction w f).1 = [TracingUp; PrintDryRun name jobs; TracingDown].
Proof.
  unfold runAction. do 2 (case_decide; [by left|]). unfold mbind at 1, cmd_bind. cbn [check lift fst snd].
  destruct (w_tracing w); [by left|]. cbn [fmap option_fmap option_map fst snd app]. right.
  assert ((run_traced w f).1 = [] \/ exists name jobs, (run_traced w f).1 = [PrintDryRun name jobs]) as Hrun.
  { unfold run_traced. rewrite Hdry. unfold mbind, cmd_bind. cbn.
    repeat (match goal with |- context [match ?x with Ok _ => _ | Fail _ => _ end] => destruct x; cbn end; try by left).
    match goal with built : (BuildResult * list RunJob.t)%type |- _ => destruct built end. right. by eexists _, _. }
  unfold emit, defer, mbind, cmd_bind. cbn [fst snd]. destruct Hrun as [-> |(name & jobs & ->)]; [by left|]. right. by exists name, jobs.
Qed.
End handover.

(** ** Witnesses *)

Section examples.
#[local] Existing Instance Builder.ex_llb.
#[local] Existing Instance Publish.ex_platforms.
#[local] Existing Instance Builder.ex_ops.
#[local] Existing Instance Conditional.ex_cel.

Definition ex_world : world :=
  World ex_host None (fun _ => Ok ex_valid) (Ok "/work") (fun addr => Ok addr) (fun _ => None)
    (ImageWorld (fun _ => None) (fun ref => ([SolveStatus.mk [Vertex.mk ref ref None None true EmptyString] [] []], None))
       (fun _ => false) (fun _ => false) (fun _ => false))
    (fun _ => None) (fun dir => Ok (dir +:+ "/sync.json")) true "pretty" None None (fun _ => None) (fun _ => None).

Definition ex_flags (dry : bool) : flags :=
  Flags "ci.kdl" 2 "" "d" [] false false dry [] [] false [] true "tcp://127.0.0.1:1234" false true "auto" false false.

Definition ex_input : RunInput :=
  match runs (runAction ex_world (ex_flags false)).1 with
  | i :: _ => i
  | [] => MkRunInput "" [] None 0 false [] [] [] [] false (Context.mk None "" "" ∅ ∅) None ∅
  end.

Lemma ex_input_runs : ex_input ∈ runs (runAction ex_world (ex_flags false)).1.
Proof.
  unfold ex_input. destruct (runs (runAction ex_world (ex_flags false)).1) as [|i l] eqn:Hr; [|by left].
  assert (length (runs (runAction ex_world (ex_flags false)).1) = 1) as Hl by (vm_compute; reflexivity). by rewrite Hr in Hl.
Qed.

Lemma run_hands_over_witness :
  runs (runAction ex_world (ex_flags false)).1 = [ex_input] /\
  f_dryRun (ex_flags false) = false /\
  buildDAG (fun nodes => (map_to_list nodes).*1) (ri_Jobs ex_input) = Ok (initial_nodes (ri_Jobs ex_input)).
Proof.
  refine (match run_hands_over ex_world (ex_flags false) (fun nodes => (map_to_list nodes).*1) ex_input _ _ ex_input_runs with
          | conj H1 (conj H2 (conj H3 _)) => conj H1 (conj H2 H3) end); [|intros nodes; done].
  intros path p [= <-]. apply ex_valid_well_formed.
Defined.

Lemma dry_run_inside_witness :
  (runAction ex_world (ex_flags true)).1 = [] \/ (runAction ex_world (ex_flags true)).1 = [TracingUp; TracingDown] \/
  exists name jobs, (runAction ex_world (ex_flags true)).1 = [TracingUp; PrintDryRun name jobs; TracingDown].
Proof. refine (dry_run_inside ex_world (ex_flags true) _). reflexivity. Defined.
End examples.
