(* ===== verification/Report.v ===== *)
(** * What the command prints (cmd/cicada/convert.go, internal/cache/stats.go) and where it caches

    The report of a run, the summaries of [validate] and of a dry run, line by line, and the
    path of the file that keeps the hashes of a project. *)

From stdpp Require Import pretty.
From S2P Require Import Prelude Errors GoStrings Regex Conditional Model Duration Paths Progress Retry Dag Output Cache Kdl Parser.
From S2P Require Import Shell Graph View.

(** ** The verbs of fmt *)

(** The number of runes, as [utf8.RuneCountInString] counts them: [skip] bytes belong to
    the rune that was counted. *)
Fixpoint rune_count_from (skip : nat) (s : list ascii) : nat :=
  match s with
  | [] => 0
  | _ :: s' => match skip with
               | 0 => S (rune_count_from (rune_width s - 1) s')
               | S skip' => rune_count_from skip' s'
               end
  end.
Definition rune_count (s : string) : nat := rune_count_from 0 (bytes s).

Definition spaces (n : nat) : string := String.string_of_list_ascii (replicate n " "%char).

(** [%-16s] and [%4s]. *)
Definition pad_right (width : nat) (s : string) : string := s +:+ spaces (width - rune_count s).
Definition pad_left (width : nat) (s : string) : string := spaces (width - rune_count s) +:+ s.

(** The nearest integer to [n / d], the even one of two. *)
Definition round_even (n d : Z) : Z :=
  let q := (n / d)%Z in let r := (n mod d)%Z in
  if decide (2 * r < d)%Z then q else if decide (d < 2 * r)%Z then (q + 1)%Z else if Z.even q then q else (q + 1)%Z.

Lemma round_even_nearest n d : (0 < d)%Z -> (2 * Z.abs (n - round_even n d * d) <= d)%Z.
Proof.
  intros Hd. unfold round_even. pose proof (Z.div_mod n d ltac:(lia)). pose proof (Z.mod_pos_bound n d Hd).
  repeat case_decide; [nia|nia|]. destruct (Z.even _); nia.
Qed.

(** The tenths of a double that is not negative. *)
Definition tenths (f : f64) : Z :=
  match f with
  | SpecFloat.S754_finite false m e =>
      if decide (0 <= e)%Z then (10 * Z.pos m * 2 ^ e)%Z else round_even (10 * Z.pos m) (2 ^ (- e))
  | _ => 0%Z
  end.

(** [%.1f]. *)
Definition fixed1 (f : f64) : string := pretty (Z.to_N (tenths f / 10)) +:+ "." +:+ pretty (Z.to_N (tenths f mod 10)).

(** A duration whose neighbours are durations is rounded to the nearest multiple. *)
Lemma Round_nearest d m :
  (0 < m)%Z -> (- 2 ^ 63 <= d - m)%Z -> (d + m <= MaxInt)%Z -> (2 * Z.abs (Round d m - d) <= m)%Z /\ (m | Round d m)%Z.
Proof.
  intros Hm Hlo Hhi. unfold Round. rewrite decide_False by lia. pose proof (Z.quot_rem' d m) as Hqr.
  assert (0 <= d -> 0 <= Z.rem d m < m)%Z as Hpos by (intros; apply Z.rem_bound_pos; lia).
  assert (d <= 0 -> - m < Z.rem d m <= 0)%Z as Hneg by (intros; apply Z.rem_bound_neg_pos || (pose proof (Z.rem_bound_pos (- d) m); rewrite Z.rem_opp_l in * by lia; lia)).
  generalize dependent (Z.rem d m). generalize (Z.quot d m). intros q r Hqr Hpos Hneg.
  case_decide; case_decide; rewrite ?wrap64_id by (unfold MaxInt in *; lia).
  - split; [lia|]. exists q. lia.
  - rewrite decide_True by lia. split; [lia|]. exists (q - 1)%Z. lia.
  - split; [lia|]. exists q. lia.
  - rewrite decide_True by lia. split; [lia|]. exists (q + 1)%Z. lia.
Qed.

(** ** PrintReport *)

(** [float64(cached) / float64(total) * 100], or zero. *)
Definition pct (cached total : Z) : f64 :=
  if decide (0 < total)%Z then f64_mul (f64_div (f64_of_Z cached) (f64_of_Z total)) (f64_of_Z 100) else f64_of_Z 0.

Definition ratio (cached total : Z) : string :=
  pretty cached +:+ "/" +:+ pretty total +:+ " cached (" +:+ pad_left 4 (fixed1 (pct cached total)) +:+ "%)".

Definition report_line (r : JobReport.t) : string :=
  "  " +:+ pad_right 16 (JobReport.JobName r) +:+ " " +:+ ratio (JobReport.CachedOps r) (JobReport.TotalOps r) +:+ "  "
  +:+ Duration_String (Round (JobReport.Duration r) Millisecond).

Definition PrintReport (jobs : list JobReport.t) : list string :=
  let '(total, cached) := hits jobs in
  ["Cache summary:"] ++ (report_line <$> jobs) ++ ["  Overall: " +:+ ratio cached total].

Example PrintReport_ex :
  PrintReport [JobReport.mk "build" 3 2 1234567890; JobReport.mk "a job with a long name" 8 8 999499; JobReport.mk "idle" 0 0 0] =
  ["Cache summary:"; "  build            2/3 cached (66.7%)  1.235s"; "  a job with a long name 8/8 cached (100.0%)  1ms";
   "  idle             0/0 cached ( 0.0%)  0s"; "  Overall: 10/11 cached (90.9%)"].
Proof. vm_compute. reflexivity. Qed.

(** ** The summaries *)

Definition title (name : string) (jobs : nat) : list string := ["Pipeline '" +:+ name +:+ "' is valid"; "  Jobs: " +:+ pretty jobs].

Section dry_run.
(** The number of operations of a definition. *)
Context `{LLB} (def_ops : Definition_ -> nat).

Definition dry_run_line (j : RunJob.t) : string :=
  let ops := pretty (from_option def_ops 0 (RunJob.Definition' j)) in
  if decide (RunJob.DependsOn j <> []) then
    "    - " +:+ RunJob.Name j +:+ " (" +:+ ops +:+ " LLB ops, depends: " +:+ Join (RunJob.DependsOn j) ", " +:+ ")"
  else "    - " +:+ RunJob.Name j +:+ " (" +:+ ops +:+ " LLB ops)".

Definition printDryRun (name : string) (jobs : list RunJob.t) : list string := title name (length jobs) ++ (dry_run_line <$> jobs).
End dry_run.

Definition summary_lines (j : Job.t) : list string :=
  (if decide (Job.DependsOn j <> []) then
     "    - " +:+ Job.Name j +:+ " (image: " +:+ Job.Image j +:+ ", depends: " +:+ Join (Job.DependsOn j) ", " +:+ ")"
   else "    - " +:+ Job.Name j +:+ " (image: " +:+ Job.Image j +:+ ")")
  :: ((fun s => "      - " +:+ Step.Name s) <$> Job.Steps j).

Definition printPipelineSummary (name : string) (jobs : list Job.t) : list string :=
  title name (length jobs) ++ (jobs ≫= summary_lines).

(** ** The file of the hash cache *)

(** The hex digest of SHA-256 is a parameter. *)
Definition CachePath (Getwd UserCacheDir : result string) (sha256_hex : string -> string) (workdir : string) : result string :=
  abs ← map_err (errorf [workdir]) (Abs Getwd workdir);
  base ← map_err (errorf []) UserCacheDir;
  Ok (FileJoin [base; "cicada"; "sync"; sha256_hex abs +:+ ".json"]).
