(* ===== verification/Cli.v ===== *)
(** * The rest of the command line (cmd/cicada/main.go, visualize.go, run.go; progress/handler.go)

    Start-up - the runtime, the output format, the log level and the logger -, the [engine]
    subcommands on top of the daemon manager, and [visualize], which replaces its output file
    in one step. *)

From stdpp Require Import pretty.
From S2P Require Import Prelude Errors GoStrings Regex Conditional Model Defaults Names Secret Dfs Validate Duration Progress.
From S2P Require Import Retry Dag Output Node Sched Daemon Graph Terminal.

(** ** Start-up *)

(** The [format] flag. *)
Definition resolve_format (isTTY : bool) (format : string) : string :=
  if decide (format = "auto") then (if isTTY then "pretty" else "text") else format.

(** A terminal in a CI system is none. *)
Definition is_TTY (terminal : bool) (CI : string) : bool := terminal && bool_decide (CI = "").

Inductive log_handler : Set := JSONHandler | TextHandler | PrettyHandler.

Definition ErrUnknownFormat : sentinel := Foreign "unknown log format".

Definition NewLogger (format : string) : result log_handler :=
  if decide (format = "json") then Ok JSONHandler
  else if decide (format = "text") then Ok TextHandler
  else if decide (format = "pretty") then Ok PrettyHandler
  else fail_with [format] ErrUnknownFormat.

(** [strconv.Atoi] of a signed number. *)
Definition Atoi (s : list ascii) : option Z :=
  match s with
  | [] => None
  | c :: digits =>
      let '(sign, digits) := if decide (c = "-"%char) then (-1, digits)%Z else if decide (c = "+"%char) then (1, digits)%Z else (1, s)%Z in
      if decide (digits = []) then None else
      match leadingInt 0 digits with
      | Some (v, []) => if decide (- 2 ^ 63 <= sign * v <= MaxInt)%Z then Some (sign * v)%Z else None
      | _ => None
      end
  end.

(** [slog.Level.UnmarshalText]: a name and an offset; names in ASCII. *)
Definition UnmarshalText (s : string) : result Z :=
  let '(name, offset) := span (fun c => negb (bool_decide (c = "+"%char) || bool_decide (c = "-"%char))) (bytes s) in
  let bad := fail_with [s] (Foreign "slog: level string") in
  match (if decide (offset = []) then Some 0%Z else Atoi offset) with
  | None => bad
  | Some off =>
      let name := ToLower (String.string_of_list_ascii name) in
      if decide (name = "debug") then Ok (off - 4)%Z
      else if decide (name = "info") then Ok off
      else if decide (name = "warn") then Ok (off + 4)%Z
      else if decide (name = "error") then Ok (off + 8)%Z
      else bad
  end.

Example UnmarshalText_ex : (fun s => UnmarshalText s) <$> ["info"; "DEBUG-2"; "Warn+1"] = [Ok 0; Ok (-6); Ok 5]%Z.
Proof. vm_compute. reflexivity. Qed.

(** [Before]. *)
Definition Before (isTTY : bool) (format level : string) : result (string * Z * log_handler) :=
  let format := resolve_format isTTY format in
  l ← map_err (errorf [level]) (UnmarshalText level);
  h ← map_err (errorf []) (NewLogger format);
  Ok (format, l, h).

(** *** handler.go *)

Module Pretty.
Record t : Type := mk { level : Z; prefix : string }.
End Pretty.

Definition Enabled (h : Pretty.t) (level : Z) : bool := (Pretty.level h <=? level)%Z.

Inductive log_style : Set := warnStyle | errorStyle | debugStyle | cyanStyle.

(** One line; attributes other than the duration are dropped. *)
Definition Handle (Render : log_style -> string -> string) (h : Pretty.t) (level : Z) (message : string) (attrs : list (string * string)) : string :=
  let msg := Pretty.prefix h +:+ message in
  let msg := match list_find (fun a => a.1 = "duration") attrs with
             | Some (_, a) => msg +:+ " " +:+ Render cyanStyle a.2
             | None => msg
             end in
  if decide (8 <= level)%Z then Render errorStyle msg
  else if decide (4 <= level)%Z then Render warnStyle msg
  else if decide (level < 0)%Z then Render debugStyle msg
  else msg.

Definition WithAttrs (attrs : list (string * string)) (h : Pretty.t) : Pretty.t :=
  if decide (attrs = []) then h else
  Pretty.mk (Pretty.level h) (Pretty.prefix h +:+ Join ((fun a => a.1 +:+ "=" +:+ a.2 +:+ " ") <$> attrs) "").

Definition WithGroup (name : string) (h : Pretty.t) : Pretty.t :=
  if decide (name = "") then h else Pretty.mk (Pretty.level h) (Pretty.prefix h +:+ name +:+ ".").

(** *** Runtime and errors *)

Section startup.
Context {W : Type}.

(** [initEngine]: the runtime of the manager, which [NewManager] requires. *)
Definition initEngine (r : Resolver W) (rtName : string) (w : W) : result (Runtime W) := map_err (errorf [rtName]) (Get r rtName w).

(** [defaultConnect]: the client and whether its workers answer; a client that cannot be
    reached is closed. *)
Inductive client_event : Set := ClientNew | ClientListWorkers | ClientClose.

Definition defaultConnect (New ListWorkers : string -> option error) (addr : string) : option error * list client_event :=
  match New addr with
  | Some e => (Some (errorf [addr] e), [ClientNew])
  | None =>
      match ListWorkers addr with
      | Some e => (Some (errorf [addr] e), [ClientNew; ClientListWorkers; ClientClose])
      | None => (None, [ClientNew; ClientListWorkers])
      end
  end.

(** [defaultBkDial]: a client that cannot be made or whose workers do not answer means
    unreachable, never an error; the client is closed in any case. *)
Definition defaultBkDial (New ListWorkers : string -> option error) (addr : string) : result bool * list client_event :=
  match New addr with
  | Some _ => (Ok false, [ClientNew])
  | None => (Ok (bool_decide (ListWorkers addr = None)), [ClientNew; ClientListWorkers; ClientClose])
  end.

(** [ExitErrHandler]: what goes to the standard error. *)
Definition ExitErrHandler (Error : error -> string) (err : option (error + DisplayError)) : list string :=
  match err with
  | None => []
  | Some (inr de) => ["error: " +:+ Human de]
  | Some (inl e) => ["error: " +:+ Error e]
  end.
End startup.

(** ** The engine commands *)

Section engine.
Context {W : Type} (rt : Runtime W) (Now : W -> Z) (Dial : string -> W -> result bool * W) (After : Z -> W -> option error * W).
Context (health : healthConfig).

Definition engineStartAction (w : W) : option error * list string * W :=
  match Manager_Start rt Now Dial After health w with
  | (Fail e, w) => (Some (errorf [] e), [], w)
  | (Ok addr, w) => (None, ["BuildKit engine started at " +:+ addr], w)
  end.

(** [errors.Join] of the two. *)
Definition engineStopAction (w : W) : option error * list string * W :=
  let '(stopErr, w) := Manager_Stop rt w in
  let '(removeErr, w) := Manager_Remove rt w in
  match errors_Join (option_list stopErr ++ option_list removeErr) with
  | None => (None, ["BuildKit engine stopped"], w)
  | Some e => (Some (errorf [] e), [], w)
  end.

Definition status_text (state : string) : string :=
  if decide (state = "") then "BuildKit engine: not running" else "BuildKit engine: " +:+ state.

Definition engineStatusAction (w : W) : option error * list string * W :=
  match Status rt w with
  | (Fail e, w) => (Some (errorf [] e), [], w)
  | (Ok state, w) => (None, [status_text state], w)
  end.

Context {container : W -> option ContainerState} `{!RuntimeLaws rt container}.

(** C40: The engine commands tell the truth on any runtime that obeys the laws: a status
    that is printed is the state of the container and leaves it alone; a start that reports
    success has brought the container to run - it was there, running or stopped, or it was
    not - and has then had an answer from BuildKit; a container in any other state, such as
    a paused one, cannot be started; a stop
    that reports success leaves no container, so the next status prints that the engine is
    not running - and even when stopping fails the removal is still tried. *)
Theorem engine_commands w :
  (forall lines w', engineStatusAction w = (None, lines, w') -> w' = w /\ lines = [status_text (default "" (state_string <$> container w))]) /\
  (forall lines w', engineStartAction w = (None, lines, w') ->
     lines = ["BuildKit engine started at " +:+ defaultAddr] /\
     (exists s w1, launch rt s w = (None, w1) /\ container w1 = Some StateRunning /\ waitHealthy Now Dial After health w1 = (None, w')) /\
     exists w2, Dial defaultAddr w2 = (Ok true, w')) /\
  (~ startable (container w) -> exists e w', engineStartAction w = (Some e, [], w')) /\
  (forall lines w', engineStopAction w = (None, lines, w') -> container w' = None /\
     forall lines' w'', engineStatusAction w' = (None, lines', w'') -> lines' = ["BuildKit engine: not running"]) /\
  (forall e w1, Manager_Stop rt w = (Some e, w1) -> exists e', engineStopAction w = (Some e', [], (Manager_Remove rt w1).2) /\
     forall s, s ∈ Errors.chain e -> Is e' s = true).
Proof.
  assert (forall v lines v', engineStatusAction v = (None, lines, v') ->
    v' = v /\ lines = [status_text (default "" (state_string <$> container v))]) as Hstatus.
  { intros v lines v'. unfold engineStatusAction, Status. pose proof (inspect_law rt v) as Hi.
    destruct (rt_Inspect rt containerName v) as [[s|e] v1].
    - destruct Hi as [Hc ->]. intros [= <- <-]. by rewrite Hc.
    - destruct Hi as [-> Hc]. destruct (Is e ErrContainerNotFound); [|done]. intros [= <- <-]. by rewrite Hc. }
  split_and!; [apply Hstatus| | | |].
  - intros lines w'. unfold engineStartAction. destruct (Manager_Start _ _ _ _ _ w) as [[addr|e] w1] eqn:Hs; [|done].
    intros [= <- <-]. destruct (Manager_Start_Ok rt Now Dial After health w addr w1 Hs) as (-> & _ & ? & ?). done.
  - intros Hn. unfold engineStartAction. destruct (Manager_Start_stuck rt Now Dial After health w Hn) as (e & w' & ->). by eexists _, _.
  - intros lines w'. unfold engineStopAction. destruct (Manager_Stop rt w) as [[e|] w1]; [by destruct (Manager_Remove rt w1)|].
    destruct (Manager_Remove rt w1) as [[e|] w2] eqn:Hr; [done|]. intros [= <- <-].
    pose proof (Manager_Remove_gone rt _ _ Hr) as Hgone. split; [done|]. intros lines' w'' [_ ->]%Hstatus. by rewrite Hgone.
  - intros e w1 Hs. unfold engineStopAction. rewrite Hs. destruct (Manager_Remove rt w1) as [r w2]. cbn [snd].
    change (option_list (Some e) ++ option_list r) with (e :: option_list r).
    assert (exists e', errors_Join (e :: option_list r) = Some e' /\ forall s, s ∈ Errors.chain e -> Is (errorf [] e') s = true) as (e' & -> & He).
    { destruct r as [e2|]; eexists; (split; [done|]); intros s Hin; unfold Is; apply bool_decide_true; cbn; set_solver. }
    by eexists.
Qed.
End engine.

(** ** visualize

    The disk is a map from paths to contents; an action that writes yields every disk after
    the current one, so that a crash can be put anywhere. *)

Abbreviation disk := (gmap string string).

(** The outcome of the system calls: the temporary file, the writer over it with the part of
    a line that a failing write leaves behind, and an error per call. *)
Record file_env : Type := FileEnv {
  CreateTemp : result string;
  Write : list string -> string -> option error;
  partial : string;
  Close : option error;
  Rename : option error;
  Remove : bool
}.

Section visualize.
Context `{cel : CEL}.
Variables (Quote : string -> string) (Render : style -> string -> string) (b : border)
  (range : gmap nat (list nat) -> list (nat * list nat)).
Variables (parse : string -> result Pipeline.t) (stdout : list string -> string -> option error) (env : file_env).

Definition file_text (lines : list string) : string := Join ((fun l => l +:+ nl) <$> lines) "".

Definition remove_tmp (tmp : string) (d : disk) : disk := if Remove env then delete tmp d else d.

(** What a run of [visualize] does: lines on the standard output, disks, and its error. *)
Record visualized : Type := Visualized { v_out : list string; v_disks : list disk; v_err : option error }.

(** From the temporary file on. *)
Definition write_diagram (g : Graph.t) (outPath : string) (d : disk) : option visualized :=
  match CreateTemp env with
  | Fail e => Some (Visualized [] [] (Some (errorf [] e)))
  | Ok tmp =>
      '(lines, emitErr) ← EmitToFile Quote g outPath (Write env);
      let d1 := <[tmp := ""]> d in
      Some match emitErr with
      | Some e =>
          let d2 := <[tmp := file_text lines +:+ partial env]> d in
          Visualized [] [d1; d2; remove_tmp tmp d2] (Some (errorf [outPath] e))
      | None =>
          let d2 := <[tmp := file_text lines]> d in
          match Close env with
          | Some e => Visualized [] [d1; d2; remove_tmp tmp d2] (Some (errorf [] e))
          | None =>
              match Rename env with
              | Some e => Visualized [] [d1; d2; remove_tmp tmp d2] (Some (errorf [outPath] e))
              | None => Visualized [] [d1; d2; <[outPath := file_text lines]> (delete tmp d2)] None
              end
          end
      end
  end.

(** [None] is a panic. *)
Definition visualizeAction (path output : string) (d : disk) : option visualized :=
  let stop e := Some (Visualized [] [] (Some e)) in
  if decide (path = "") then stop (raise (Foreign "usage")) else
  match parse path with
  | Fail e => stop (errorf [path] e)
  | Ok p =>
      match ValidatePipeline (Some p) with
      | Fail e => stop (errorf [path] e)
      | Ok (p, _) =>
          g ← BuildGraph p;
          if decide (output = "") then '(out, err) ← RenderTerminal Render b range g stdout; Some (Visualized out [] err)
          else if negb (IsSupportedOutputExt (ToLower (Ext output)))
          then stop (errorf [Ext output] (raise (Foreign "unsupported output format")))
          else write_diagram g output d
      end
  end.

(** The disk at the end. *)
Definition disk_after (v : visualized) (d : disk) : disk := default d (last (v_disks v)).

Hypothesis range_map : forall m, range m ≡ₚ map_to_list m.

(** Rendering and emitting are total on the graph of a validated pipeline. *)
Lemma diagram_total p p' order :
  ValidatePipeline (Some p) = Ok (p', order) -> exists g, BuildGraph p' = Some g /\ is_Some (terminal_lines Render b range g).
Proof.
  intros Hok. destruct (BuildGraph_shape _ _ _ Hok) as (d & -> & Hl & _). eexists. split; [done|].
  destruct (terminal_lines_spec Render b range range_map (Graph.mk (Pipeline.Name p') (buildNodes (Pipeline.Jobs p')) (buildEdges (Pipeline.Jobs p')) (group_depths d)))
    as (boxes & lines & _ & _ & _ & -> & _); [|done].
  apply group_depths_layered. unfold buildNodes. by rewrite length_fmap.
Qed.

(** The text of a supported format, and the writer sees its lines in order. *)
Definition diagram_lines (g : Graph.t) (outPath : string) : option (list string) :=
  if decide (ToLower (Ext outPath) = ".d2") then d2_lines Quote g else dot_lines Quote g.

Lemma EmitToFile_total g outPath w :
  IsSupportedOutputExt (ToLower (Ext outPath)) = true ->
  exists lines out err, diagram_lines g outPath = Some lines /\ EmitToFile Quote g outPath w = Some (out, err) /\ (err = None -> out = lines).
Proof.
  intros Hext. unfold EmitToFile, diagram_lines, EmitD2, EmitDOT. destruct (emit_total Quote g) as [[l1 H1] [l2 H2]].
  unfold IsSupportedOutputExt in Hext.
  assert (forall lines, let '(out, err) := write_all w lines in errorf [] <$> err = None -> out = lines) as Hw.
  { intros lines. pose proof (write_all_full w lines) as Hf. destruct (write_all w lines) as [out [e|]]; cbn in *; [done|]. auto. }
  destruct (decide (ToLower (Ext outPath) = ".d2")).
  - rewrite H1. cbn. specialize (Hw l1). destruct (write_all w l1) as [out err]. by exists l1, out, (errorf [] <$> err).
  - rewrite decide_True by (destruct (decide (ToLower (Ext outPath) = ".dot")); [done|]; rewrite !bool_decide_false in Hext by done; done).
    rewrite H2. cbn. specialize (Hw l2). destruct (write_all w l2) as [out err]. by exists l2, out, (errorf [] <$> err).
Qed.

(** A disk on which the output is the old one or complete, and nothing else has changed but
    the temporary file. *)
Definition intact (outPath tmp : string) (complete : string) (d d' : disk) : Prop :=
  (d' !! outPath = d !! outPath \/ d' !! outPath = Some complete) /\
  forall q, q <> outPath -> q <> tmp -> d' !! q = d !! q.

Lemma kept_tmp outPath tmp complete d s : tmp <> outPath -> intact outPath tmp complete d (<[tmp := s]> d).
Proof. intros Hne. split; [left; by rewrite lookup_insert_ne|]. intros q _ Hq. by rewrite lookup_insert_ne. Qed.

Lemma kept_remove outPath tmp complete d s : tmp <> outPath -> intact outPath tmp complete d (remove_tmp tmp (<[tmp := s]> d)).
Proof.
  intros Hne. unfold remove_tmp. destruct (Remove env); [|by apply kept_tmp].
  split; [left; by rewrite lookup_delete_ne, lookup_insert_ne|]. intros q _ Hq. by rewrite lookup_delete_ne, lookup_insert_ne.
Qed.

Lemma kept_rename outPath tmp complete d s :
  intact outPath tmp complete d (<[outPath := complete]> (delete tmp (<[tmp := s]> d))).
Proof.
  split; [right; by rewrite lookup_insert_eq|]. intros q Hq Ht. by rewrite lookup_insert_ne, lookup_delete_ne, lookup_insert_ne.
Qed.
End visualize.

(** C29: [visualize] never panics and replaces its output in one step: whichever system call
    fails and whenever the process dies, the output file holds either what it held or the
    complete diagram of the validated pipeline, and no other file but the temporary one has
    changed.  A success means that the complete diagram is there and the temporary file is
    gone (or that the diagram went to the terminal); after an error the disk is as it was, if
    the temporary file could be removed. *)
Theorem visualize_atomic `{CEL} Quote Render b range parse stdout env path output d tmp
  (Hrange : forall m, range m ≡ₚ map_to_list m)
  (Htmp : CreateTemp env = Ok tmp) (Hne : tmp <> output) (Hnew : d !! tmp = None) :
  exists v, visualizeAction Quote Render b range parse stdout env path output d = Some v /\
    (forall e, v_err v = Some e -> Remove env = true -> disk_after v d = d) /\
    ((v_disks v = [] /\ (v_err v = None -> output = "")) \/
     exists p p' order g lines, parse path = Ok p /\ ValidatePipeline (Some p) = Ok (p', order) /\ BuildGraph p' = Some g /\
       diagram_lines Quote g output = Some lines /\ Forall (intact output tmp (file_text lines) d) (v_disks v) /\
       (v_err v = None -> disk_after v d = <[output := file_text lines]> d)).
Proof.
  assert (forall out e, let v := Visualized out [] (Some e) in
    (forall e, v_err v = Some e -> Remove env = true -> disk_after v d = d) /\
    (v_disks v = [] /\ (v_err v = None -> output = ""))) as Hstop by done.
  unfold visualizeAction. cbv zeta. case_decide; [eexists; split; [done|]; split; [by eapply Hstop|by left]|].
  destruct (parse path) as [p|e] eqn:Hp; [|eexists; split; [done|]; split; [by eapply Hstop|by left]].
  destruct (ValidatePipeline (Some p)) as [[p' order]|e] eqn:Hv; [|eexists; split; [done|]; split; [by eapply Hstop|by left]].
  destruct (diagram_total Render b range Hrange p p' order Hv) as (g & Hg & lines & Hlines). rewrite Hg. cbn [mbind option_bind].
  case_decide as Hout.
  { unfold RenderTerminal. rewrite Hlines. cbn [mbind option_bind]. destruct (write_all stdout lines) as [out err].
    eexists. split; [done|]. split; [done|]. left. done. }
  destruct (IsSupportedOutputExt (ToLower (Ext output))) eqn:Hext; cbn [negb]; [|eexists; split; [done|]; split; [by eapply Hstop|by left]].
  unfold write_diagram. rewrite Htmp.
  destruct (EmitToFile_total Quote g output (Write env) Hext) as (ls & out & err & Hd & -> & Hfull). cbn [mbind option_bind].
  destruct err as [e|]; [|specialize (Hfull eq_refl) as ->; destruct (Close env) as [e|]; [|destruct (Rename env) as [e|]]];
    (eexists; split; [done|]; unfold disk_after; cbn [v_disks v_err last default]; split;
      [try done; intros _ _ Hr; unfold remove_tmp; rewrite Hr, delete_insert_eq; by apply delete_id|];
      right; exists p, p', order, g, ls; split_and!; try done;
      [repeat apply Forall_cons_2; auto using Forall_nil_2, kept_tmp, kept_remove, kept_rename|..]).
  intros _. rewrite delete_insert_eq. by rewrite delete_id.
Qed.

(** ** Witnesses *)

Lemma engine_commands_witness :
  let w := World 0 (Some StateExited) 0 in
  exists lines w', engineStopAction ex_runtime w = (None, lines, w') /\ cont w' = None.
Proof.
  eexists _, _. split; [reflexivity|].
  refine (proj1 (proj1 (proj2 (proj2 (proj2 (engine_commands ex_runtime clock ex_dial ex_after defaultHealthConfig (World 0 (Some StateExited) 0)))))
    ["BuildKit engine stopped"] _ _)). reflexivity.
Defined.

Definition ex_file_env (rename : option error) : file_env := FileEnv (Ok ".cicada-visualize-1") (fun _ _ => None) "" None rename true.

Lemma visualize_atomic_witness :
  let env := ex_file_env (Some (raise (Foreign "EXDEV"))) in
  let d : disk := {[ "out.d2" := "old" ]} in
  exists v, visualizeAction (cel := Conditional.ex_cel) (fun s => s) (fun _ s => s) ex_border map_to_list (fun _ => Ok ex_diagram) (fun _ _ => None) env
      "ci.kdl" "out.d2" d = Some v /\ length (v_disks v) = 3 /\ disk_after v d = d.
Proof.
  cbv zeta.
  refine (match visualize_atomic (H := Conditional.ex_cel) (fun s => s) (fun _ s => s) ex_border map_to_list (fun _ => Ok ex_diagram) (fun _ _ => None)
            (ex_file_env (Some (raise (Foreign "EXDEV")))) "ci.kdl" "out.d2" {[ "out.d2" := "old" ]} ".cicada-visualize-1" _ eq_refl _ _ with
          | ex_intro _ v (conj Hv (conj Herr _)) => ex_intro _ v (conj Hv (conj _ (Herr (errorf ["out.d2"] (raise (Foreign "EXDEV"))) _ eq_refl))) end).
  - done.
  - discriminate.
  - reflexivity.
  - assert ((length ∘ v_disks) <$> visualizeAction (cel := Conditional.ex_cel) (fun s => s) (fun _ s => s) ex_border map_to_list (fun _ => Ok ex_diagram)
      (fun _ _ => None) (ex_file_env (Some (raise (Foreign "EXDEV")))) "ci.kdl" "out.d2" {[ "out.d2" := "old" ]} = Some 3) as Hl by (vm_compute; reflexivity).
    rewrite Hv in Hl. by injection Hl.
  - assert ((v_err <$> visualizeAction (cel := Conditional.ex_cel) (fun s => s) (fun _ s => s) ex_border map_to_list (fun _ => Ok ex_diagram)
      (fun _ _ => None) (ex_file_env (Some (raise (Foreign "EXDEV")))) "ci.kdl" "out.d2" {[ "out.d2" := "old" ]})
      = Some (Some (errorf ["out.d2"] (raise (Foreign "EXDEV"))))) as Hl by (vm_compute; reflexivity).
    rewrite Hv in Hl. by injection Hl.
Defined.
