(* ===== verification/Cicada.v ===== *)
(** * The program (cmd/cicada/main.go)

    [main] wires the parser with the resolvers of the process into the actions.  This file
    closes the path from the bytes of a document to the goroutines of the runner: the
    theorems of the parser, of the command, of the schedule and of the status stream meet,
    and no hypothesis about a stage of the program itself is left. *)

From stdpp Require Import relations.
From S2P Require Import Prelude Errors GoStrings Regex Conditional Model Secret Validate Filter WhenEval Kdl Parser.
From S2P Require Import Progress Retry Dag Output Node Sched Publish Redact Stream Cache Host Solves Builder Convert Plan Images Command Report.

(** ** main *)

Section main.
Context `{ops : LLBOps} `{cel : CEL} `{kdl : KDL} {Reader : Type}.

(** The process: standard input, the working and the cache directory, [os.Open] and the hash
    of a string in hexadecimal. *)
Record process : Type := Process {
  pr_Stdin : Reader;
  pr_Getwd : result string;
  pr_UserCacheDir : result string;
  pr_Open : string -> result Reader;
  pr_sha256 : string -> string
}.

Variables (Parse : Reader -> result (list Kdl.Node)) (o : process).

(** [p.ParseFile], as [main] makes it. *)
Definition main_parse : string -> result Pipeline.t :=
  ParseFile Parse (Some (StdinResolver (Some (pr_Stdin o)) (Some (FileResolver (pr_Getwd o) (pr_Open o))))).

(** The [app] of [main]: the parser, the working directory and the place of the hash cache
    are those of the process, the rest answers as in [w]. *)
Definition main_app (w : world) : world :=
  World (w_host w) (w_tracing w) main_parse (pr_Getwd o) (w_EnsureRunning w) (w_connect w) (w_images w) (w_NewFS w)
    (CachePath (pr_Getwd o) (pr_UserCacheDir o) (pr_sha256 o)) (w_isTTY w) (w_format w) (w_start w) (w_Shutdown w) (w_Run w) (w_pull w).

Lemma main_parse_well_formed path p : main_parse path = Ok p -> well_formed p.
Proof. unfold main_parse. intros (filename & Hwf & _)%ParseFile_result. exact Hwf. Qed.

Lemma main_input w f range i :
  ranges range -> i ∈ runs (runAction (main_app w) f).1 -> right_input (main_app w) f range i.
Proof. intros Hrange. apply hands_over; [|done]. intros p. apply main_parse_well_formed. Qed.

(** ** A run of the program *)

Section run.
Context {GwResult Ref : Type}.
Abbreviation answers := (@job_world _ GwResult Ref).

(** The goroutines of [runner.Run] on an input. *)
Definition run_config (i : RunInput) : config := Config (Some (ri_WhenContext i)) (ri_FailFast i).
Definition run_start (i : RunInput) : run_state :=
  start (ri_Parallelism i) (ri_Jobs i) (initial_nodes (ri_Jobs i)).

(** One goroutine per job of [q], holding its name and its dependencies. *)
Definition hosts (q : Pipeline.t) (st : run_state) : Prop :=
  (forall j, j ∈ Pipeline.Jobs q -> exists t, threads st !! Job.Name j = Some t /\
     RunJob.Name (t_job t) = Job.Name j /\ RunJob.DependsOn (t_job t) = Job.DependsOn j) /\
  (forall n t, threads st !! n = Some t -> exists j, j ∈ Pipeline.Jobs q /\ Job.Name j = n).

Lemma pipeline_shape_job q n ds :
  (n, ds) ∈ pipeline_shape q <-> exists j, j ∈ Pipeline.Jobs q /\ Job.Name j = n /\ Job.DependsOn j = ds.
Proof.
  unfold pipeline_shape. rewrite list_elem_of_fmap. split.
  - intros (j & [= -> ->] & Hj). by exists j.
  - intros (j & Hj & <- & <-). by exists j.
Qed.

Lemma run_hosts range jobs limit q cfg st :
  ranges range -> buildDAG range jobs = Ok (initial_nodes jobs) -> shape jobs ≡ₚ pipeline_shape q ->
  sched_inv cfg (fun (_ : string) (_ : answers) => True) (job <$> initial_nodes jobs) limit st -> hosts q st.
Proof.
  intros Hrange Hdag Hshape Hinv. destruct (dag_schedulable range jobs _ Hrange Hdag) as [Hs _].
  assert (forall rj, rj ∈ jobs -> (RunJob.Name rj, RunJob.DependsOn rj) ∈ pipeline_shape q) as Hto.
  { intros rj Hrj. rewrite <- Hshape. unfold shape. by apply (list_elem_of_fmap_2 (fun j => (RunJob.Name j, RunJob.DependsOn j))). }
  split.
  - intros j Hj. assert ((Job.Name j, Job.DependsOn j) ∈ shape jobs) as Hin.
    { rewrite Hshape. apply pipeline_shape_job. by exists j. }
    assert (Job.Name j ∈ RunJob.Name <$> jobs) as Hn.
    { rewrite <- shape_names. by apply (list_elem_of_fmap_2 fst) in Hin. }
    destruct (thread_exists _ _ _ _ _ Hinv _ Hn) as [t Ht].
    destruct (thread_job _ _ _ _ _ Hs Hinv _ _ Ht) as [Hrj Hname]. exists t. split_and!; [done|done|].
    pose proof (Hto _ Hrj) as Hin'. rewrite Hname, <- Hshape in Hin'. destruct Hs as [Hnd _].
    by pose proof (NoDup_fmap_inj_elem fst _ _ _ Hnd Hin' Hin eq_refl) as [= ->].
  - intros n t Ht. destruct (thread_job _ _ _ _ _ Hs Hinv _ _ Ht) as [Hrj <-].
    apply Hto, pipeline_shape_job in Hrj as (j & Hj & Hn & _). by exists j.
Qed.

(** C1: From the document to the goroutines: whenever the program calls [runner.Run] - on
    any document, with any flags and whatever the host, the network and the engine answer -
    the document parsed to a well-formed pipeline, and every schedule of the run has one
    goroutine for each job that filters and conditions left, with the job's dependencies as
    they left them.  A job holds a slot only after all of them have succeeded, at most
    [--parallelism] jobs hold one, and from every state of the schedule, whatever the solver
    answers, the run can be finished by moves of its goroutines alone: no cancellation is
    needed. *)
Theorem document_to_run w f range i evs st
  (Hrange : ranges range) (Hran : i ∈ runs (runAction (main_app w) f).1)
  (Hsteps : steps (run_config i) evs (run_start i) = Some st) :
  exists p cond, main_parse (f_path f) = Ok p /\ well_formed p /\
    select (FilterOpts.mk (f_startAt f) (f_stopAfter f)) (ri_WhenContext i) p = Ok cond /\
    hosts (ConditionResult.Pipeline cond) st /\
    (forall n t, threads st !! n = Some t -> ready (run_config i) evs st t) /\
    ((0 < f_parallelism f)%Z -> (Z.of_nat (total busy (threads st)) <= f_parallelism f)%Z) /\
    (forall W : string -> answers, exists evs' st', Forall (in_world W) evs' /\ Forall (fun ev => is_act ev = true) evs' /\
       steps (run_config i) (evs ++ evs') (run_start i) = Some st' /\
       Sched.finished st').
Proof.
  destruct (main_input w f range i Hrange Hran) as (_ & _ & Hpar & _ & Hdag & p & cond & Hp & Hwf & Hsel & Hshape & _).
  pose proof (reach_inv (run_config i) (ri_Parallelism i) range _ _ Hrange Hdag _ evs st (any_world evs) Hsteps) as Hinv.
  exists p, cond. split_and!; [done|done|done|..].
  - by eapply run_hosts.
  - intros n t Ht. by eapply (reach_ready (run_config i) (ri_Parallelism i) range).
  - intros Hpos. destruct Hinv as [_ Hslots Hfree _]. unfold limit_of in *. rewrite Hpar, decide_True in * by done. lia.
  - intros W. destruct (run_to_end (run_config i) (ri_Parallelism i) range _ _ Hrange Hdag evs st W Hsteps)
      as (evs' & st' & HW & Hact & Hs & Hf). by exists evs', st'.
Qed.

(** ** What a success means *)

(** What the solver answers beside the jobs: a definition and its options, the variants of a
    manifest, the result of a piped docker export; the temporary directory of the outputs of
    a job; and the orders in which the goroutines return. *)
Record solves_world : Type := SolvesWorld {
  sw_Solve : Definition_ -> SolveOpt -> option error;
  sw_Build : list ImagePublish.t -> SolveOpt -> option error;
  sw_Piped : Definition_ -> SolveOpt -> option error;
  sw_load_first : publish_task -> bool;
  sw_outputs : string -> output_world;
  sw_exports : list RunExport.t -> list RunExport.t;
  sw_publishes : list publish_task -> list publish_task
}.

Variable sw : solves_world.
Hypothesis Hexports : forall l, sw_exports sw l ≡ₚ l.
Hypothesis Hpublishes : forall l, sw_publishes sw l ≡ₚ l.

(** The solves of [Run] for an input. *)
Definition solves_config (i : RunInput) : Solves.runConfig :=
  Solves.RunConfig ["context"] (ri_CacheExports i) (ri_CacheImports i) (ri_Session i).
Definition run_exports (i : RunInput) : list RunExport.t -> option error :=
  runExports (solves_config i) (sw_Solve sw) (sw_exports sw).
Definition run_publishes (i : RunInput) : list ImagePublish.t -> option error :=
  runPublishes (solves_config i) (sw_Solve sw) (sw_Build sw) (sw_Piped sw) (sw_load_first sw) (sw_publishes sw).

(** The outputs of a job are extracted by a solve of the same run. *)
Definition outputs_of (i : RunInput) (n : string) (def : Definition_) : result outputs :=
  (extractOutputs (solves_config i) (sw_Solve sw) (sw_outputs sw n) def []).1.
Definition extracts (i : RunInput) (n : string) (a : answers) : Prop := jw_extract a = outputs_of i n.

(** [runner.Run] may return [r]: the checks fail with it, there is nothing to run, or it is
    the result at the end of a schedule. *)
Definition Run_returns range (has_runtime : bool) (i : RunInput) (r : option error) : Prop :=
  match start_run true true has_runtime (ri_ImagePublishes i) range (ri_Jobs i) with
  | Fail e => r = Some e
  | Ok None => r = None
  | Ok (Some nodes) => exists (evs : list (event (GwResult := GwResult) (Ref := Ref))) st,
      Forall (event_ok (extracts i)) evs /\
      steps (run_config i) evs (start (ri_Parallelism i) (ri_Jobs i) nodes : run_state) = Some st /\ Sched.finished st /\
      r = finish_run (run_config i) st (ri_Exports i) (ri_ImagePublishes i) (run_exports i) (run_publishes i)
  end.

Lemma group_Wait_None (l : list (option error)) : group_Wait l = None <-> Forall (fun r => r = None) l.
Proof.
  unfold group_Wait. induction l as [|[e|] l IH]; cbn; [by split|split; [done|by intros [? _]%Forall_cons]|].
  rewrite IH, Forall_cons. tauto.
Qed.

Lemma finish_run_None cfg st exports publishes f g :
  finish_run cfg st exports publishes f g = None ->
  job_err cfg st = None /\ f (filterSuccessful exports (node_of <$> threads st) RunExport.JobName) = None /\
  g (filterSuccessful publishes (node_of <$> threads st) ImagePublish.JobName) = None.
Proof.
  unfold finish_run. destruct (job_err cfg st) as [e|] eqn:He.
  - rewrite bool_decide_false by done. by destruct (FailFast cfg).
  - rewrite bool_decide_true, andb_false_r by done. unfold join3. by destruct (f _), (g _).
Qed.

(** A goroutine at the end of a success: its job was skipped, since a dependency was or its
    own condition is false, or an event of the schedule solved it after all its dependencies
    had succeeded.  The outputs that its dependents see are those that its last attempt
    returned, or else those in the file that the solve of its output definition wrote. *)
Definition ended_well (i : RunInput) (evs : list event) (st : run_state) (n : string) (t : thread) : Prop :=
  exists x, t_pc t = Returned x /\ x_err x = None /\
    if x_skipped x then skip_reason (run_config i) (node_of <$> threads st) (t_job t) else
    Forall (ok_dep (node_of <$> threads st)) (RunJob.DependsOn (t_job t)) /\
    exists (a : answers) tried, solved_in evs n a /\ x = run_acquired a (t_job t) /\
      (retryJob (RunJob.Retry (t_job t)) (job_env a (t_job t))).1 = Ok tried /\
      match default None tried, RunJob.OutputDef (t_job t) with
      | None, Some def => exists outs, outputs_of i n def = Ok outs /\ x_outputs x = Some outs
      | outs, _ => x_outputs x = outs
      end.

(** A job without an error was solved, and its outputs were found. *)
Lemma solved_outputs i n (a : answers) j :
  extracts i n a -> x_err (run_acquired a j) = None ->
  exists tried, (retryJob (RunJob.Retry j) (job_env a j)).1 = Ok tried /\
    match default None tried, RunJob.OutputDef j with
    | None, Some def => exists outs, outputs_of i n def = Ok outs /\ x_outputs (run_acquired a j) = Some outs
    | outs, _ => x_outputs (run_acquired a j) = outs
    end.
Proof.
  intros Ha. unfold run_acquired. destruct (retryJob _ _) as [[tried|e] evs]; [|by destruct (job_error a j e)].
  intros He. exists tried. split; [done|]. rewrite Ha in *.
  destruct (default None tried), (RunJob.OutputDef j) as [def|]; try done.
  destruct (outputs_of i n def) as [outs|]; [|done]. by exists outs.
Qed.

(** At the end of a success: every job of [q] has ended well, every export of a job that was
    not skipped was solved, and so were the tasks of the publishes of such jobs. *)
Definition all_done (q : Pipeline.t) (i : RunInput) (evs : list event) (st : run_state) : Prop :=
  hosts q st /\ (forall n t, threads st !! n = Some t -> ended_well i evs st n t) /\
  (forall exp, exp ∈ filterSuccessful (ri_Exports i) (node_of <$> threads st) RunExport.JobName ->
     solveExport (solves_config i) (sw_Solve sw) exp = None) /\
  exists tasks, publish_tasks (filterSuccessful (ri_ImagePublishes i) (node_of <$> threads st) ImagePublish.JobName) = Ok tasks /\
    Forall (fun t => run_task (solves_config i) (sw_Solve sw) (sw_Build sw) (sw_Piped sw) (sw_load_first sw t) t = None) tasks.

Lemma run_exports_None i l : run_exports i l = None -> forall exp, exp ∈ l -> solveExport (solves_config i) (sw_Solve sw) exp = None.
Proof.
  unfold run_exports, runExports. intros Hall%group_Wait_None exp Hexp. rewrite Forall_fmap, Forall_forall in Hall.
  rewrite <- (Hexports l) in Hexp. specialize (Hall exp Hexp). cbn in Hall. by destruct (solveExport _ _ exp).
Qed.

Lemma run_publishes_None i l : run_publishes i l = None -> exists tasks, publish_tasks l = Ok tasks /\
  Forall (fun t => run_task (solves_config i) (sw_Solve sw) (sw_Build sw) (sw_Piped sw) (sw_load_first sw t) t = None) tasks.
Proof.
  unfold run_publishes, runPublishes. destruct (publish_tasks l) as [tasks|e]; [|done]. intros Hall%group_Wait_None.
  rewrite Forall_fmap in Hall. exists tasks. split; [done|]. by rewrite (Hpublishes tasks) in Hall.
Qed.

Lemma both_ok i evs :
  Forall (event_ok (extracts i)) evs -> Forall (event_ok (fun n a => extracts i n a /\ solved_in evs n a)) evs.
Proof.
  rewrite !Forall_forall. intros Hevs ev Hin. specialize (Hevs ev Hin). destruct ev as [n a|e]; [|done]. by destruct a.
Qed.

Lemma schedule_done range i q (evs : list (event (GwResult := GwResult) (Ref := Ref))) st :
  ranges range -> buildDAG range (ri_Jobs i) = Ok (initial_nodes (ri_Jobs i)) -> shape (ri_Jobs i) ≡ₚ pipeline_shape q ->
  Forall (event_ok (extracts i)) evs -> steps (run_config i) evs (run_start i) = Some st -> Sched.finished st ->
  finish_run (run_config i) st (ri_Exports i) (ri_ImagePublishes i) (run_exports i) (run_publishes i) = None -> all_done q i evs st.
Proof.
  intros Hrange Hdag Hshape Hevs Hs Hfin (Hjob & Hexp & Hpub)%finish_run_None.
  pose proof (reach_inv (run_config i) (ri_Parallelism i) range _ _ Hrange Hdag _ evs st (both_ok i evs Hevs) Hs) as Hinv.
  unfold all_done. split_and!; [by eapply run_hosts, reach_inv, Hs; [..|apply any_world]| |by apply run_exports_None|by apply run_publishes_None].
  intros n t Ht. pose proof (proj1 (job_err_None (run_config i) (ri_Parallelism i) range _ _ Hrange Hdag evs st Hs Hfin) Hjob n t Ht) as He.
  destruct (inv_threads _ _ _ _ _ Hinv n t Ht) as [_ Hpc]. specialize (Hfin n t Ht). unfold Sched.returned in Hfin. unfold node_of in He.
  destruct (t_pc t) as [| | | |x] eqn:Ht'; try done. exists x. split_and!; [done|done|].
  destruct (x_skipped x) eqn:Hsk; [by eapply explained_skipped|].
  destruct (explained_success _ _ _ _ _ _ Hpc He Hsk) as [Hb (a & [Ha Hin] & ->)].
  apply before_slot_free in Hb as [Hb _]. destruct (solved_outputs i n a _ Ha He) as (tried & Hr & Ho). split; [done|]. by exists a, tried.
Qed.

End run.

(** ** Secrets *)

(** The values a run hides, in some order of the map. *)
Definition hides (i : RunInput) (t : tee_input) : Prop := secrets t ≡ₚ (map_to_list (ri_SecretValues i)).*2.

(** C6: No build can show a secret of the host: whatever BuildKit answers in the solves of a
    run, whenever the goroutines of the status stream move and whenever the run is
    cancelled, no vertex error, no log chunk and no warning of an update that is shown
    holds the value of a secret the session serves - if that value is not empty and has no
    asterisk.  The one text that a display shows of an update and that may hold it is the
    name of a vertex, which is not redacted, and then BuildKit sent an update with that very
    name. *)
Theorem secrets_hidden w f i t updates st m name v s e
  (Hran : i ∈ runs (runAction (main_app w) f).1) (Hsession : ri_Session i = Some m) (Hserved : m !! name = Some v)
  (Hmask : maskable v) (Htee : hides i t) (Hreach : reachable t updates st)
  (Hshown : StatusShown (Some s) ∈ display st) :
  (e ∈ messages s -> ~ contains e v) /\
  (e ∈ texts s -> contains e v -> exists u, Some u ∈ updates /\ e ∈ vertex_names u /\ e ∈ vertex_names s).
Proof.
  destruct (main_input w f (fun nodes => (map_to_list nodes).*1) i) as (_ & _ & _ & _ & _ & p & cond & _ & _ & _ & _ & _ & Hsec);
    [by intros nodes|done|].
  assert (v ∈ secrets t) as Hv.
  { rewrite Htee. apply (list_elem_of_fmap_2' snd _ (name, v)); [|done]. apply elem_of_map_to_list.
    eapply Hsec; [done|done|]. apply Hmask. }
  destruct (shown_redacted t updates st s Hreach) as (u & Hu & ->); [|done|].
  { intros Hnil. rewrite Hnil in Hv. by apply elem_of_nil in Hv. }
  split; [intros He; by eapply messages_clean|]. intros He Hc. pose proof (texts_leak _ _ _ _ Hv Hmask He Hc) as Hn.
  exists u. by rewrite redactStatus_names.
Qed.
End main.

(** ** Witnesses *)

Section examples.
#[local] Existing Instance Builder.ex_llb.
#[local] Existing Instance Publish.ex_platforms.
#[local] Existing Instance Builder.ex_ops.
#[local] Existing Instance Conditional.ex_cel.
#[local] Existing Instance tree_kdl.

(** [build] uses the secret that the document declares. *)
Definition ex_text : list (Kdl.Node (KDL := tree_kdl)) :=
  [Tree "secret" [TString "token"] ∅ [Tree "source" [TString "hostEnv"] ∅ []; Tree "var" [TString "DEPLOY_TOKEN"] ∅ []];
   Tree "job" [TString "build"] ∅
     [Tree "image" [TString "alpine"] ∅ []; Tree "secret" [TString "token"] {["env" := TString "TOKEN"]} [];
      Tree "step" [TString "s"] ∅
        [Tree "run" [TString "make"] ∅ []; Tree "export" [TString "/out"] {["local" := TString "./out"]} []]];
   Tree "job" [TString "deploy"] ∅
     [Tree "image" [TString "alpine"] ∅ []; Tree "depends-on" [TString "build"] ∅ [];
      Tree "step" [TString "s"] ∅ [Tree "run" [TString "push"] ∅ []]]].

Definition ex_process : process (Reader := list (Kdl.Node (KDL := tree_kdl))) :=
  Process [] (Ok "/work") (Ok "/home/.cache") (fun path => if decide (path = "/work/ci.kdl") then Ok ex_text else fail_with [path] errNotExist)
    (fun _ => "0f").

Definition ex_app : world := main_app Ok ex_process Command.ex_world.
Definition ex_run_flags : flags :=
  Flags "ci.kdl" 1 "" "" [] false false false [] [] false [] true "tcp://127.0.0.1:1234" true false "plain" false false.

Definition ex_run_input : RunInput :=
  match runs (runAction ex_app ex_run_flags).1 with i :: _ => i | [] => Command.ex_input end.

Lemma ex_run_input_runs : ex_run_input ∈ runs (runAction ex_app ex_run_flags).1.
Proof.
  unfold ex_run_input. destruct (runs (runAction ex_app ex_run_flags).1) as [|i l] eqn:Hr; [|by left].
  assert (length (runs (runAction ex_app ex_run_flags).1) = 1) as Hl by (vm_compute; reflexivity). by rewrite Hr in Hl.
Qed.

(** [build] has a slot, [deploy] waits for it. *)
Definition ex_events : list (event (GwResult := unit) (Ref := unit)) := [Act "build" EvalWhen; Act "build" Acquire].
Definition ex_state : run_state :=
  default (run_start ex_run_input) (steps (run_config ex_run_input) ex_events (run_start ex_run_input)).

Lemma document_to_run_witness :
  t_pc <$> threads ex_state !! "build" = Some Running /\
  t_pc <$> threads ex_state !! "deploy" = Some (Waiting ["build"]) /\
  exists p cond, main_parse Ok ex_process "ci.kdl" = Ok p /\ well_formed p /\
    select (FilterOpts.mk "" "") (ri_WhenContext ex_run_input) p = Ok cond /\ hosts (ConditionResult.Pipeline cond) ex_state.
Proof.
  split; [vm_compute; reflexivity|]. split; [vm_compute; reflexivity|].
  refine (match document_to_run Ok ex_process Command.ex_world ex_run_flags (fun nodes => (map_to_list nodes).*1) ex_run_input
    ex_events ex_state _ ex_run_input_runs _ with
    ex_intro _ p (ex_intro _ cond (conj H1 (conj H2 (conj H3 (conj H4 _))))) =>
      ex_intro _ p (ex_intro _ cond (conj H1 (conj H2 (conj H3 H4)))) end); [intros nodes; done|vm_compute; reflexivity].
Defined.

(** Both jobs are solved, one after the other, and the file of [build] is exported. *)
Definition ex_gateway : gateway unit unit :=
  Gateway _ _ (fun _ => Ok []) (fun _ _ _ => Ok tt) (fun _ => Ok tt) (fun _ _ => Ok "") (fun _ => false) (fun _ _ => None) (fun _ _ => None).
Definition ex_answers : job_world (GwResult := unit) (Ref := unit) :=
  JobWorld (fun _ => Solver (fun _ => None) ex_gateway (fun _ => None) None) (fun _ => None) (fun _ => None) false (fun _ => Ok ∅).
Definition ex_all_events : list (event (GwResult := unit) (Ref := unit)) :=
  [Act "build" EvalWhen; Act "build" Acquire; Act "build" (Solved ex_answers); Act "deploy" DepDone; Act "deploy" EvalWhen;
   Act "deploy" Acquire; Act "build" Return; Act "deploy" (Solved ex_answers); Act "deploy" Return].
Definition ex_end : run_state :=
  default (run_start ex_run_input) (steps (run_config ex_run_input) ex_all_events (run_start ex_run_input)).
Definition ex_no_file : output_world := OutputWorld (Ok "/tmp/out") (fun _ => NotExist) (fun dirs dir => filter (fun d => d <> dir) dirs).
Definition ex_solves : solves_world := SolvesWorld (fun _ _ => None) (fun _ _ => None) (fun _ _ => None) (fun _ => false) (fun _ => ex_no_file) id id.

Lemma ex_runs : runs (runAction ex_app ex_run_flags).1 = [ex_run_input].
Proof.
  unfold ex_run_input. destruct (runs (runAction ex_app ex_run_flags).1) as [|i l] eqn:Hr.
  all: assert (length (runs (runAction ex_app ex_run_flags).1) = 1) as Hl by (vm_compute; reflexivity); rewrite Hr in Hl.
  - done.
  - by destruct l.
Qed.

Lemma ex_returns i :
  i ∈ runs (runAction ex_app ex_run_flags).1 ->
  Run_returns (GwResult := unit) (Ref := unit) ex_solves (fun nodes => (map_to_list nodes).*1) true i (w_Run Command.ex_world i).
Proof.
  rewrite ex_runs. intros ->%list_elem_of_singleton. unfold Run_returns.
  destruct (start_run true true true (ri_ImagePublishes ex_run_input) (fun nodes => (map_to_list nodes).*1) (ri_Jobs ex_run_input))
    as [[nodes|]|e] eqn:Hs.
  - assert (nodes = initial_nodes (ri_Jobs ex_run_input)) as -> by (vm_compute in Hs |- *; congruence).
    exists ex_all_events, ex_end. split; [by repeat constructor|]. split; [vm_compute; reflexivity|]. split; [apply (bool_decide_unpack _); vm_compute; exact I|].
    vm_compute. reflexivity.
  - vm_compute in Hs. discriminate Hs.
  - vm_compute in Hs. discriminate Hs.
Qed.


(** The token is on its way through the log of [make]. *)
Definition ex_tee : tee_input := TeeInput false false ["hunter2"].
Definition ex_shown : SolveStatus.t := redactStatus (ex_update "pass hunter2") ["hunter2"].
Definition ex_stream : stream := Stream [] false TeeReceiving BridgeForwarding [] [ex_shown] [StatusShown (Some ex_shown)] 0.

Lemma ex_stream_reachable : reachable ex_tee [Some (ex_update "pass hunter2")] ex_stream.
Proof.
  eapply rtc_l; [eapply TeeReceive; reflexivity|]. eapply rtc_l; [eapply Forward; reflexivity|]. apply rtc_refl.
Defined.

Lemma secrets_hidden_witness : messages ex_shown = ["pass ***"] /\ ~ contains "pass ***" "hunter2".
Proof.
  split; [vm_compute; reflexivity|].
  refine (proj1 (secrets_hidden Ok ex_process Command.ex_world ex_run_flags ex_run_input ex_tee [Some (ex_update "pass hunter2")]
    ex_stream {["token" := "hunter2"]} "token" "hunter2" ex_shown "pass ***" ex_run_input_runs _ _ _ _ ex_stream_reachable _) _).
  - vm_compute. reflexivity.
  - vm_compute. reflexivity.
  - split; [discriminate|]. apply (bool_decide_unpack _). vm_compute. exact I.
  - unfold hides. apply (bool_decide_unpack _). vm_compute. exact I.
  - left.
  - vm_compute. left.
Defined.
End examples.
